(* ===== verification/_CoqProject ===== *)
-Q . S2P
Prelude.v
GoStrings.v
Bitmap.v
Sched.v
Rely.v
Progress.v
Calls.v
Grpc.v
Process.v
ProxyEnv.v
Messages.v
Services.v
Instance.v
Disk.v
Broadcaster.v
ProcessLog.v
LogFile.v
Mock.v
Watch.v
InstanceWatch.v
InstanceProps.v
Proxy.v
ProxyBackup.v
ProxyVolume.v
ProxySnapshot.v
ProxyReplica.v
Client.v
Labels.v
Api.v
InstanceClient.v
InstanceClientProps.v
ProxyProps.v
ProxyServer.v
ProxyVolumeProps.v
ProxyClient.v
ProxyClientProps.v
Manager.v
ManagerPorts.v
ManagerSpec.v
ManagerProps.v
ManagerLinear.v
ManagerLive.v
Endpoint.v
Health.v
Dial.v
Flags.v
Cli.v
Start.v
Shutdown.v
