(* ===== verification/Prelude.v ===== *)
(** * Longhorn instance manager: verification development (root file)

    The instance manager runs one per node. It keeps the processes of the V1
    data engine (engines and replicas), and stands in front of the SPDK service
    of the V2 data engine. It has five gRPC servers: the process manager, the
    instance server (instances of both engines behind one API), the disk server,
    the proxy (requests about volumes, forwarded to their engines) and the SPDK
    service itself, which is another project's code. [pkg/client] holds the
    clients of the first four, [app/cmd] starts the servers and has a command
    line for the process manager.

    ** Files

    Foundations:
    - [Prelude] (this file): the notation scope, tactics, gRPC codes and errors,
      replies, machine integers, ranges of integers. [GoStrings]: Go's string
      functions.
    - [Sched]: goroutines as programs ([prog]) of atomic actions on a shared
      state, loops as [daemon]s, the calls and daemons of a program as a
      [system]; [reachable] is every interleaving, [safe] the proof method for
      invariants, [exec] runs a schedule. [Rely]: what one goroutine does among
      the others ([runs_to]), and that every call of an execution is such a run.
      [Progress]: executions without new calls are finite, and goroutines that
      are [live] are never stuck, but where they wait for another one.
    - [Calls]: handlers that call other services ([free]): [eval] runs one
      against given answers, [runs] is all its runs, [exec] runs it on a service
      with a state, [tidy] says that it closes every connection it opens.
      [Grpc]: what a client sees of a handler's answer ([over_grpc]), a client
      and its server as one program ([interp]), what programs end with
      ([returns], [total], [after]).

    The process manager:
    - [Bitmap]: [go-common-libs/bitmap], the free ports, and the interface
      [PortAllocator] with its laws, which the manager's proof is written
      against and which the bitmap meets.
    - [Process]: [pkg/process/process.go], [command.go] and parts of [pkg/util]:
      the process record, its critical sections, the commands, the string
      helpers. [Manager]: [process_manager.go], the goroutines of [process.go]
      and the [cleanup] of [app/cmd/start.go] as programs over [World] (the
      manager's map, the processes and commands by address, the ports, the
      channels). [ManagerPorts]: no port is lost or shared, in every
      interleaving. [ManagerSpec]: the manager refines a transition system of
      processes. [ManagerProps]: functional theorems of the critical sections,
      invariants of reachable states, and executions that show where the code
      fails. [ManagerLinear]: the specification of each handler on the map of
      processes, which every call of an execution meets. [ManagerLive]: every
      call returns, and where it would not.
    - [Broadcaster]: [pkg/util/broadcaster]. [ProcessLog]: [ProcessLog] and
      [StreamLog] of [pkg/util/log.go]. Each is a transition system whose steps
      are the critical sections and channel operations of its goroutines.
      [LogFile]: the rest of [log.go], that is the file of a process, its path
      and its lines, and the program's logger. [Mock]: the mock executor.

    The instance and disk servers:
    - [Services]: the calls of the process manager's client, of the SPDK service,
      of the engines and of the local libraries, over the messages of
      [Messages]; the dispatch on the data engine. [Instance]:
      [pkg/instance/instance.go] and [log.go], with [InstanceProps]. [Watch]:
      the watch loops of [instance.go], of the backing images and of processes;
      [InstanceWatch]: the goroutines they run in and the closing of the clients.
      [Disk]: [pkg/disk/disk.go], with its properties.

    The proxy ([pkg/proxy]):
    - [ProxyEnv]: [env_allowlist.go] and [setEnv]. [Proxy]: addresses, the
      clients a method opens ([proxy.go]) and the list of replicas.
      [ProxyBackup], [ProxyVolume] (with [metrics.go] and [backing_image.go]),
      [ProxySnapshot], [ProxyReplica]: the methods of the file of that name, for
      both engines. [ProxyServer]: the choice of the method by the data engine.
      [ProxyProps] and [ProxyVolumeProps]: their theorems.

    The clients ([pkg/client], [pkg/api]):
    - [Client]: data engines, argument checks, timeouts. [Labels]: the qualified
      names of labels. [Api]: the API objects and their conversions.
      [InstanceClient]: [instance.go] and [disk.go], with [InstanceClientProps].
      [ProxyClient]: the [proxy*.go] files, the types of [proxy_types.go]
      included, with [ProxyClientProps]. Theorems
      called [end_to_end] are about a client together with its server.

    Start and end:
    - [Health]: [pkg/health] and the versions. [Endpoint]: [pkg/util/grpcutil.go]
      and the addresses of the services. [Dial]: the constructors of the clients
      and their [Close]. [Flags]: the commands and their flags, and what an
      action reads of them. [Cli]: [main.go], [app/cmd/process.go] and
      [version.go]. [Start]: [start] of [app/cmd/start.go]. [Shutdown]: its group
      of servers, until all have stopped.

    A definition has the name of the function it models; [V1_] and [V2_] mark
    the methods of the two data engines, [Block_] those of block disks, and the
    name of the client those of a client.

    ** How the code is modelled

    - The process manager is concurrent. One critical section of the code is one
      atomic action, the order of goroutines is arbitrary, and what the operating
      system, the clock and the health probes answer is arbitrary too. A
      send on an unbuffered channel is two actions: the value is offered, and the
      sender goes on when it has been received; no critical section of the code
      sends. The three loops of the manager (the monitor, [stream] of the
      broadcaster, the check of the conditions) are goroutines of the initial
      configuration and make one turn after the other. The ticks of the ticker and
      the end of the context arrive at any time.
    - The other servers keep no state of their own: a handler is the sequence of
      the calls it makes, for any answers. A deferred close ([defer]) is a call
      at the end of every path from the [defer] on. A nil pointer that is
      dereferenced is [Panic], which ends the handler after the deferred closes
      ([on_panic]). A stream is the
      list of its items.
    - A method of a client is a program of requests. Between it and the handler
      gRPC keeps the code and the text of an error and drops its wrappings
      ([FromError]); a context error inside a plain error is not told apart. The
      messages inside a request that every caller sends are taken to be present.
      The deprecated data engine of the proxy's requests equals the one in use
      and is left out.
    - Integers are [Z]; the conversions to [int32], [int64] and [uint64] are
      written out. Strings are byte strings. Go maps are [gmap]s; where the code
      ranges over a map, whose order is unspecified, the model takes one order
      or has it as a parameter, and the theorems do not depend on it unless they
      say so.
    - Errors have a code, a message and the chain of their wrappings. [%q] is
      modelled as quotes around the string, without its escapes. Lines of the
      program's own log are not modelled, but where they are all that becomes of
      an error or of what a process prints.
    - Parameters stand for code that cannot be read here or is mathematics: the
      hash of volume names, the decoder of an engine's [TaskError], the parser
      of certificates, the text formatter of the logging library. The library of
      the command line hands an action the flags it found. The roaring bitmap of
      the ports is the finite set it represents.

    ** Bounds and fuel

    [WaitCount] (600) and the 30 turns of the wait for a replacement are the
    code's own bounds, as are the 60 probes of the disk server and the 10
    failures of a watch. [find_loop] of the bitmap has one unit of fuel per element of the
    set, and [AllocateRange_correct] shows that this is enough. [trim_left]
    drops at most as many runes as the string has bytes. [health_watch] is any
    number of turns of a loop that has no exit. All other recursion is
    structural.

    ** What the theorems show

    Ports are conserved and never shared, processes are registered under their
    names with distinct UUIDs, and a process lives as its specification allows,
    clean-up included ([ManagerPorts], [ManagerSpec], [ManagerProps]); each
    call of an execution is atomic on the map of processes, whatever runs beside
    it ([ManagerLinear]), and every call returns, unless the end of the manager's
    context has left an update without a receiver ([ManagerLive]); the
    allocation of ports is exact ([Bitmap]); data engines are isolated,
    connections are closed, when a handler panics too, the list of instances is the union of what the
    services hold, and errors keep the codes they should ([InstanceProps]); the
    disk server refuses, panics or makes its one call ([Disk]); a caller of the
    proxy cannot set a variable outside the allow list ([ProxyEnv]); the proxy
    asks only the services of the engine a request names, and leaks no
    connection ([ProxyServer]); its searches over replicas give the answers they
    should ([ProxyProps], [ProxyVolumeProps]). A
    client refuses exactly the calls with a bad argument, and a call of a V2
    volume through client and proxy refines the SPDK request it stands for
    ([ProxyClientProps]); instances and disks arrive at the caller as the
    servers hold them, but for the fields the code loses
    ([InstanceClientProps]). Subscribers get the stream in order and, while they
    keep up, completely ([Broadcaster]); log streams and watches end, or hang
    where the code lets them ([ProcessLog], [InstanceWatch]); what a process
    prints is in its own log file and arrives line by line, up to a line that is
    too long ([LogFile]). A command closes its connection on every path and asks
    for nothing but what its flags say ([Cli]). The services have
    consecutive addresses, certificates are checked on both sides ([Endpoint]),
    a start runs all its servers or none ([Start]), and from the first failure
    or signal on all of them stop ([Shutdown]).

    ** Not modelled

    Keep-alive and back-off options of connections, how the library parses the
    arguments of a command and prints its help; the encoder of JSON; the debug
    server of [start]; the order of the calls that only log. In the process
    manager a request's [Spec] is taken to be present. A log file is scanned as
    it is when the stream opens it, so lines written while it is read are not
    told apart. [Now] and [UUID] are the clock and a random source. Not planned:
    generated code, types that no function uses, vendored code but the parts
    named above. *)
From stdpp Require Export prelude gmap strings list sorting.
From Stdlib Require Export ZArith Lia Ascii.

(** ** Scopes and automation *)

Declare Scope go_scope.
Delimit Scope go_scope with go.

Create HintDb go discriminated.

(** Let [simpl] compute concatenation (stdpp turns this off). *)
#[global] Arguments String.append !_ _ / : simpl nomatch.

(** Case analysis on every [match]/[if] of the goal, in order. *)
Ltac case_all := repeat (case_match; simplify_eq/=; try done).

(** Destruct the record or pair a hypothesis is about, then simplify. *)
Ltac crush := intros; simplify_eq/=; try done; naive_solver lia.

(** ** Go values *)

(** gRPC status codes ([google.golang.org/grpc/codes]): those the program names. *)
Inductive code :=
  | OK | Canceled | Unknown | InvalidArgument | DeadlineExceeded | NotFound
  | AlreadyExists | PermissionDenied | ResourceExhausted | FailedPrecondition
  | Aborted | OutOfRange | Unimplemented | Internal | Unavailable | DataLoss
  | Unauthenticated.

#[export] Instance code_eq_dec : EqDecision code.
Proof. solve_decision. Defined.

(** A Go [error]: made by [fmt.Errorf]/[errors.New], by the gRPC [status]
    package, or by [errors.Wrap]/[Wrapf] around another error. *)
Inductive error :=
  | EPlain (msg : string)
  | EStatus (c : code) (msg : string)
  | EWrap (msg : string) (cause : error).

#[export] Instance error_eq_dec : EqDecision error.
Proof. solve_decision. Defined.

(** [String] of a status code, as [codes.Code.String] prints it. *)
Definition code_string (c : code) : string :=
  match c with
  | OK => "OK" | Canceled => "Canceled" | Unknown => "Unknown"
  | InvalidArgument => "InvalidArgument" | DeadlineExceeded => "DeadlineExceeded"
  | NotFound => "NotFound" | AlreadyExists => "AlreadyExists"
  | PermissionDenied => "PermissionDenied" | ResourceExhausted => "ResourceExhausted"
  | FailedPrecondition => "FailedPrecondition" | Aborted => "Aborted"
  | OutOfRange => "OutOfRange" | Unimplemented => "Unimplemented"
  | Internal => "Internal" | Unavailable => "Unavailable" | DataLoss => "DataLoss"
  | Unauthenticated => "Unauthenticated"
  end.

(** [err.Error()]. *)
Fixpoint error_string (e : error) : string :=
  match e with
  | EPlain m => m
  | EStatus c m => "rpc error: code = " +:+ code_string c +:+ " desc = " +:+ m
  | EWrap m e' => m +:+ ": " +:+ error_string e'
  end.

(** [errors.UnwrapAll]: the innermost cause. *)
Fixpoint unwrap_all (e : error) : error :=
  match e with EWrap _ e' => unwrap_all e' | _ => e end.

(** [status.FromError]: the code of the first gRPC status in the chain of
    causes, [None] when there is none ([ok = false]). *)
Fixpoint from_error (e : error) : option code :=
  match e with
  | EPlain _ => None
  | EStatus c _ => Some c
  | EWrap _ e' => from_error e'
  end.

(** [status.Code(err)] for a non-nil [err]: [Unknown] when there is no status. *)
Definition status_code (e : error) : code := default Unknown (from_error e).

(** [errors.Wrap(err, msg)] is nil when [err] is. *)
Definition wrap (msg : string) (e : option error) : option error := EWrap msg <$> e.

(** A call that returns [(value, nil)] or [(_, err)]. *)
Inductive res (A : Type) := Ok (a : A) | Err (e : error).
Arguments Ok {_} _.
Arguments Err {_} _.

#[export] Instance res_eq_dec `{EqDecision A} : EqDecision (res A).
Proof. solve_decision. Defined.

(** What a gRPC handler returns: a possibly nil pointer and a possibly nil
    error; both may be present, and both may be absent. *)
Abbreviation reply A := (option A * option error)%type.
Definition ok {A} (a : A) : reply A := (Some a, None).
Definition fail {A} (e : error) : reply A := (None, Some e).

(** The caller of a gRPC method sees the error when there is one. *)
Definition reply_code {A} (r : reply A) : code :=
  match r.2 with None => OK | Some e => status_code e end.

Notation "'let?' x ':=' c 'in' k" :=
  (match c with Ok x => k | Err e => Err e end)
  (at level 10, x pattern, c at level 100, k at level 200) : go_scope.

(** ** Lists *)

Lemma StronglySorted_filter {A} (R : relation A) (P : A → Prop) `{!∀ x, Decision (P x)} l :
  StronglySorted R l → StronglySorted R (filter P l).
Proof.
  induction 1 as [|x l Hl IH Hx]; [constructor|]. rewrite filter_cons. case_decide; [|done].
  constructor; [done|]. apply Forall_forall. intros y [_ Hy]%list_elem_of_filter.
  by eapply Forall_forall in Hx.
Qed.

(** What a loop puts in a map: for every item a key and a value, or nothing. *)
Section collect.
Context {A V : Type} (f : A → option (string * V)).

Definition collect_one (m : gmap string V) (x : A) : gmap string V :=
  match f x with Some (u, v) => <[u := v]> m | None => m end.

(** No two items of the list have different values for a key. *)
Definition consistent (l : list A) : Prop :=
  ∀ x y u v v', x ∈ l → y ∈ l → f x = Some (u, v) → f y = Some (u, v') → v = v'.

Lemma lookup_collect l u v :
  consistent l →
  foldl collect_one ∅ l !! u = Some v ↔ ∃ x, x ∈ l ∧ f x = Some (u, v).
Proof.
  induction l as [|x l IH] using rev_ind.
  { intros _. simpl. rewrite lookup_empty. set_solver. }
  intros Hc. rewrite foldl_app. simpl. unfold collect_one at 1.
  assert (consistent l) as Hl by (intros y y' ? ? ? ? ?; apply Hc; set_solver).
  specialize (IH Hl). destruct (f x) as [[u' v']|] eqn:Hx.
  - destruct (decide (u = u')) as [<-|Hne].
    + rewrite lookup_insert_eq. split; [intros [= <-]; exists x; set_solver|].
      intros (y & Hy & Hv). f_equal. by eapply (Hc x y); [set_solver..|done|done].
    + rewrite lookup_insert_ne, IH by done. split.
      * intros (y & ? & ?). exists y. set_solver.
      * intros (y & Hy & Hv). apply elem_of_app in Hy as [Hy|Hy]; [eauto|].
        apply list_elem_of_singleton in Hy. subst y.
        congruence.
  - rewrite IH. split.
    + intros (y & ? & ?). exists y. set_solver.
    + intros (y & Hy & Hv). apply elem_of_app in Hy as [Hy|Hy]; [eauto|].
        apply list_elem_of_singleton in Hy. subst y.
      congruence.
Qed.

Lemma collect_empty l : foldl collect_one ∅ l = ∅ ↔ ∀ x, x ∈ l → f x = None.
Proof.
  induction l as [|x l IH] using rev_ind; [set_solver|].
  rewrite foldl_app. simpl. unfold collect_one at 1. destruct (f x) as [[u v]|] eqn:Hx.
  - split; [by intros ?%insert_non_empty|]. intros H. rewrite H in Hx; set_solver.
  - rewrite IH. split; [|set_solver].
    intros H y [Hy|Hy]%elem_of_app; [auto|]. apply list_elem_of_singleton in Hy. by subst.
Qed.

Lemma collect_Permutation l l' :
  consistent l → l ≡ₚ l' → foldl collect_one ∅ l = foldl collect_one ∅ l'.
Proof.
  intros Hc Hp. apply map_eq. intros u. apply option_eq. intros v.
  assert (consistent l') as Hc' by (intros x y ? ? ?; rewrite <- Hp; apply Hc).
  rewrite !lookup_collect by done. by setoid_rewrite Hp.
Qed.
End collect.

(** ** Termination *)

(** A relation whose steps make a number smaller has no infinite execution. *)
Lemma weight_sn {S} (R : relation S) (f : S → nat) :
  (∀ x y, R x y → f y < f x) → ∀ x, sn R x.
Proof.
  intros Hf x. remember (f x) as n eqn:Hn. revert x Hn.
  induction (lt_wf n) as [m _ IH]. intros x ->. constructor. intros y Hy.
  by eapply IH; [apply Hf, Hy|].
Qed.

(** ** Machine integers *)

#[local] Open Scope Z_scope.

(** Conversion to [int32]: the low 32 bits, read in two's complement. *)
Definition int32 (z : Z) : Z := (z + 2^31) `mod` 2^32 - 2^31.
(** Conversion to [int64] of a 64-bit number, and to [uint64]. *)
Definition int64 (z : Z) : Z := (z + 2^63) `mod` 2^64 - 2^63.
Definition uint64 (z : Z) : Z := z `mod` 2^64.
Definition in_int32 (z : Z) : Prop := - 2^31 ≤ z < 2^31.
Definition in_int64 (z : Z) : Prop := - 2^63 ≤ z < 2^63.

#[export] Instance in_int32_dec z : Decision (in_int32 z).
Proof. unfold in_int32. apply _. Defined.
#[export] Instance in_int64_dec z : Decision (in_int64 z).
Proof. unfold in_int64. apply _. Defined.

Lemma int32_id z : in_int32 z → int32 z = z.
Proof. unfold in_int32, int32. intros. rewrite Z.mod_small; lia. Qed.

Lemma int64_id z : in_int64 z → int64 z = z.
Proof. unfold in_int64, int64. intros. rewrite Z.mod_small; lia. Qed.

(** Reading a number of 64 bits as unsigned and back loses nothing. *)
Lemma int64_uint64 z : in_int64 z → int64 (uint64 z) = z.
Proof.
  intros Hz. unfold int64, uint64. rewrite Zplus_mod_idemp_l. fold (int64 z). by apply int64_id.
Qed.

Lemma int32_in_range z : in_int32 (int32 z).
Proof.
  unfold in_int32, int32. pose proof (Z.mod_pos_bound (z + 2^31) (2^32)). lia.
Qed.

(** Only the last conversion of a sum matters. *)
Lemma int32_add a b : int32 (int32 a + b) = int32 (a + b).
Proof.
  unfold int32. f_equal.
  replace ((a + 2^31) `mod` 2^32 - 2^31 + b + 2^31) with ((a + 2^31) `mod` 2^32 + b) by lia.
  rewrite Zplus_mod_idemp_l. f_equal. lia.
Qed.

#[export] Hint Resolve int32_in_range : go.

(** ** Ranges of integers *)

(** The integers from [lo] to [hi], both included. *)
Definition ports (lo hi : Z) : gset Z := list_to_set (seqZ lo (hi - lo + 1)).

Lemma elem_of_ports x lo hi : x ∈ ports lo hi ↔ lo ≤ x ≤ hi.
Proof. unfold ports. rewrite elem_of_list_to_set, elem_of_seqZ. lia. Qed.

#[export] Instance set_unfold_ports x lo hi : SetUnfoldElemOf x (ports lo hi) (lo ≤ x ≤ hi).
Proof. constructor. apply elem_of_ports. Qed.

Lemma ports_empty lo hi : hi < lo → ports lo hi = ∅.
Proof. intros. apply set_eq. set_unfold. lia. Qed.
