(* ===== verification/GoStrings.v ===== *)
(** * Go's string functions

    The functions of Go's [strings] and [strconv] packages that the program
    calls, on byte strings (a Go string is a sequence of bytes), with the
    lemmas about them that the components share. *)
From S2P Require Import Prelude.
From Stdlib Require Import DecimalString DecimalZ DecimalN DecimalPos.

#[local] Open Scope Z_scope.

(** ** Splitting and joining *)

(** [strings.Split(s, c)] for a one-byte separator. *)
Fixpoint split (c : ascii) (s : string) : list string :=
  match s with
  | EmptyString => [EmptyString]
  | String a s' =>
      if decide (a = c) then EmptyString :: split c s'
      else match split c s' with
           | [] => [String a EmptyString]
           | h :: t => String a h :: t
           end
  end.

(** [strings.Join(l, sep)]. *)
Fixpoint join (sep : string) (l : list string) : string :=
  match l with
  | [] => EmptyString
  | [x] => x
  | x :: l' => x +:+ sep +:+ join sep l'
  end.

(** A byte occurs in a string. *)
Fixpoint contains (c : ascii) (s : string) : bool :=
  match s with
  | EmptyString => false
  | String a s' => bool_decide (a = c) || contains c s'
  end.

(** [s[len(p):]] when [s] starts with [p]. *)
Fixpoint strip_prefix (p s : string) : option string :=
  match p, s with
  | EmptyString, _ => Some s
  | String a p', String b s' => if decide (a = b) then strip_prefix p' s' else None
  | String _ _, EmptyString => None
  end.

(** [strings.HasPrefix] and [strings.TrimPrefix]. *)
Definition has_prefix (s p : string) : bool :=
  match strip_prefix p s with Some _ => true | None => false end.
Definition trim_prefix (s p : string) : string := default s (strip_prefix p s).

(** [strings.Cut(s, sep)]: the text around the first occurrence of [sep]. *)
Fixpoint cut (sep s : string) : option (string * string) :=
  match strip_prefix sep s with
  | Some after => Some (EmptyString, after)
  | None =>
      match s with
      | EmptyString => None
      | String a s' => prod_map (String a) id <$> cut sep s'
      end
  end.

(** [strings.SplitN(s, sep, 2)]. *)
Definition split_n2 (s sep : string) : list string :=
  match cut sep s with Some (x, y) => [x; y] | None => [s] end.

Fixpoint rev_string (s acc : string) : string :=
  match s with
  | EmptyString => acc
  | String a s' => rev_string s' (String a acc)
  end.

(** [strings.HasSuffix]. *)
Definition has_suffix (s p : string) : bool :=
  has_prefix (rev_string s EmptyString) (rev_string p EmptyString).

(** ** Trimming white space *)

Definition bytes (l : list nat) : string :=
  fold_right (λ n s, String (ascii_of_nat n) s) EmptyString l.

(** The UTF-8 encodings of the characters [unicode.IsSpace] accepts. *)
Definition space_runes : list string :=
  bytes <$> ([[9]; [10]; [11]; [12]; [13]; [32]; [194; 133]; [194; 160];
             [225; 154; 128]] ++
            ((λ n, [226; 128; n]) <$> seq 128 11) ++
            [[226; 128; 168]; [226; 128; 169]; [226; 128; 175];
             [226; 129; 159]; [227; 128; 128]])%nat.

(** Remove one leading space character out of [rs]. *)
Fixpoint strip_any (rs : list string) (s : string) : option string :=
  match rs with
  | [] => None
  | r :: rs' => match strip_prefix r s with Some s' => Some s' | None => strip_any rs' s end
  end.

Fixpoint trim_left (fuel : nat) (rs : list string) (s : string) : string :=
  match fuel with
  | O => s
  | S n => match strip_any rs s with Some s' => trim_left n rs s' | None => s end
  end.

(** [strings.TrimSpace]: leading, then trailing space characters. Every round
    removes at least a byte, so the length is enough fuel. *)
Definition trim_space (s : string) : string :=
  let l := trim_left (String.length s) space_runes s in
  rev_string (trim_left (String.length l) ((λ r, rev_string r EmptyString) <$> space_runes)
                (rev_string l EmptyString)) EmptyString.

(** ** Numbers *)

Definition dquote : string := String (ascii_of_nat 34) EmptyString.
(** [%q] and [strconv.Quote] on a string that needs no escape. *)
Definition quote (s : string) : string := dquote +:+ s +:+ dquote.

(** [strconv.Itoa] and [%v]/[%d] on an integer. *)
Definition itoa (z : Z) : string :=
  match z with
  | Z0 => "0"
  | Zpos p => NilZero.string_of_uint (Pos.to_uint p)
  | Zneg p => String "-" (NilZero.string_of_uint (Pos.to_uint p))
  end.

(** [sort.Strings]. *)
Definition sort_strings : list string → list string := merge_sort String.le.

(** The digits of a signed decimal number, in the range of a 64-bit [int]. *)
Definition atoi_digits (s : string) (neg : bool) (digits : string) : res Z :=
  match NilZero.uint_of_string digits with
  | None => Err (EPlain ("strconv.Atoi: parsing " +:+ quote s +:+ ": invalid syntax"))
  | Some d =>
      let n := Z.of_N (N.of_uint d) in
      let v := if neg then - n else n in
      if decide (in_int64 v) then Ok v
      else Err (EPlain ("strconv.Atoi: parsing " +:+ quote s +:+ ": value out of range"))
  end.

(** [strconv.Atoi]: an optional sign, then at least one decimal digit. *)
Definition atoi (s : string) : res Z :=
  match s with
  | String "-" t => atoi_digits s true t
  | String "+" t => atoi_digits s false t
  | _ => atoi_digits s false s
  end.

(** ** Lemmas: prefixes and cutting *)

Lemma strip_prefix_spec p s t : strip_prefix p s = Some t ↔ s = p +:+ t.
Proof.
  revert s; induction p as [|a p IH]; intros [|b s]; simpl; try (split; congruence).
  destruct (decide (a = b)) as [->|]; [|split; congruence].
  rewrite IH. split; congruence.
Qed.

Lemma strip_prefix_app p t : strip_prefix p (p +:+ t) = Some t.
Proof. by apply strip_prefix_spec. Qed.

Lemma trim_prefix_app p t : trim_prefix (p +:+ t) p = t.
Proof. unfold trim_prefix. by rewrite strip_prefix_app. Qed.

Lemma cut_sound sep s x y : cut sep s = Some (x, y) → s = x +:+ sep +:+ y.
Proof.
  revert x; induction s as [|a s IH]; intros x; simpl;
    destruct (strip_prefix sep _) as [t|] eqn:E.
  - intros [= <- <-]. by apply strip_prefix_spec in E.
  - done.
  - intros [= <- <-]. by apply strip_prefix_spec in E.
  - destruct (cut sep s) as [[x' y']|]; simpl; [|done].
    intros [= <- <-]. simpl. by rewrite (IH x').
Qed.

(** Cutting at a byte: the part before it does not hold the byte. *)
Lemma cut_char_spec c s x y :
  cut (String c EmptyString) s = Some (x, y) ↔
  s = x +:+ String c y ∧ contains c x = false.
Proof.
  revert x; induction s as [|a s IH]; intros x; simpl.
  - split; [done|]. destruct x; simpl; intros [[=] _].
  - destruct (decide (c = a)) as [->|Hne].
    + split; [intros [= <- <-]; done|].
      destruct x as [|b x]; simpl; intros [? H]; simplify_eq/=; [done|].
      by rewrite bool_decide_true in H.
    + destruct x as [|b x]; simpl.
      * split; [by destruct (cut _ s) as [[??]|]|]. intros [? _]; simplify_eq/=.
      * specialize (IH x).
        assert (∀ o : option (string * string),
          prod_map (String a) id <$> o = Some (String b x, y) ↔ a = b ∧ o = Some (x, y)) as Hmap.
        { intros [[x' y']|]; simpl; naive_solver. }
        rewrite Hmap, IH, orb_false_iff, bool_decide_eq_false. naive_solver.
Qed.

Lemma cut_char_none c s : cut (String c EmptyString) s = None ↔ contains c s = false.
Proof.
  induction s as [|a s IH]; simpl; [done|].
  destruct (decide (c = a)) as [->|Hne]; [by rewrite bool_decide_true|].
  rewrite bool_decide_false by congruence. simpl. rewrite <- IH.
  by destruct (cut _ s) as [[??]|].
Qed.

(** ** Lemmas: splitting *)

Lemma split_no_sep c s : contains c s = false → split c s = [s].
Proof.
  induction s as [|a s IH]; simpl; [done|].
  intros [H1%bool_decide_eq_false H2]%orb_false_iff.
  rewrite decide_False by done. by rewrite IH.
Qed.

Lemma split_app_sep c x y : contains c x = false →
  split c (x +:+ String c y) = x :: split c y.
Proof.
  induction x as [|a x IH]; simpl; [by rewrite decide_True|].
  intros [H1%bool_decide_eq_false H2]%orb_false_iff.
  rewrite decide_False by done. by rewrite IH.
Qed.

Lemma split_not_nil c s : split c s ≠ [].
Proof. destruct s as [|a s]; simpl; [done|]. case_decide; [done|]. by case_match. Qed.

Lemma split_app c x y : split c (x +:+ String c y) = split c x ++ split c y.
Proof.
  induction x as [|a x IH]; simpl; [by rewrite decide_True|].
  rewrite IH. pose proof (split_not_nil c x). case_decide; [done|].
  by destruct (split c x).
Qed.

(** Joining the parts with the separator gives the string back. *)
Lemma join_split c s : join (String c EmptyString) (split c s) = s.
Proof.
  induction s as [|a s IH]; simpl; [done|].
  pose proof (split_not_nil c s). case_decide; subst.
  - destruct (split c s) as [|h t]; [done|]. simpl in *. by rewrite IH.
  - destruct (split c s) as [|h [|h' t]]; [done| |]; simpl in *; by rewrite <- IH.
Qed.

(** ** Lemmas: numbers *)

(** Every byte of the string satisfies [P]. *)
Fixpoint all_bytes (P : ascii → bool) (s : string) : bool :=
  match s with EmptyString => true | String a s' => P a && all_bytes P s' end.

Definition is_digit (a : ascii) : bool :=
  let n := nat_of_ascii a in (48 <=? n)%nat && (n <=? 57)%nat.

Lemma all_bytes_app P x y : all_bytes P (x +:+ y) = all_bytes P x && all_bytes P y.
Proof. induction x; simpl; [done|]. by rewrite IHx, andb_assoc. Qed.

Lemma all_bytes_rev P s acc :
  all_bytes P (rev_string s acc) = all_bytes P s && all_bytes P acc.
Proof.
  revert acc; induction s as [|a s IH]; intros acc; simpl; [done|].
  rewrite IH. simpl. by destruct (P a), (all_bytes P s).
Qed.

Lemma rev_string_rev s acc acc' :
  rev_string (rev_string s acc) acc' = rev_string acc (s +:+ acc').
Proof. revert acc; induction s; intros acc; simpl; [done|]. by rewrite IHs. Qed.

Lemma rev_string_acc s acc : rev_string s acc = rev_string s EmptyString +:+ acc.
Proof.
  revert acc; induction s as [|a s IH]; intros acc; simpl; [done|].
  rewrite (IH (String a acc)), (IH (String a EmptyString)).
  generalize (rev_string s EmptyString). intros r. induction r; simpl; congruence.
Qed.

Lemma string_app_assoc x y z : x +:+ (y +:+ z) = (x +:+ y) +:+ z.
Proof. induction x as [|a x IH]; simpl; [done|]. by rewrite IH. Qed.

Lemma contains_app c x y : contains c (x +:+ y) = contains c x || contains c y.
Proof. induction x as [|a x IH]; simpl; [done|]. rewrite IH. by case_bool_decide. Qed.

Lemma app_inj_l x y z : x +:+ y = x +:+ z → y = z.
Proof. induction x as [|a x IH]; simpl; [done|]. intros [= H]. auto. Qed.

Lemma length_app_string x y : String.length (x +:+ y) = (String.length x + String.length y)%nat.
Proof. induction x as [|a x IH]; simpl; [done|]. by rewrite IH. Qed.

Lemma app_inj_r x y z : x +:+ z = y +:+ z → x = y.
Proof.
  revert y. induction x as [|a x IH]; intros [|b y]; simpl; [done| | |].
  - intros H. apply (f_equal String.length) in H. simpl in H. rewrite length_app_string in H. lia.
  - intros H. apply (f_equal String.length) in H. simpl in H. rewrite length_app_string in H. lia.
  - intros [= -> H]. f_equal. auto.
Qed.

Lemma string_app_nil_r s : s +:+ EmptyString = s.
Proof. induction s; simpl; congruence. Qed.

(** The last byte of a string is the first of its reverse. *)
Lemma rev_string_last s a t :
  rev_string s EmptyString = String a t → s = rev_string t EmptyString +:+ String a EmptyString.
Proof.
  intros Hr. rewrite <- rev_string_acc. change (s = rev_string (String a t) EmptyString).
  rewrite <- Hr, rev_string_rev. by rewrite string_app_nil_r.
Qed.

Lemma rev_string_nil s : rev_string s EmptyString = EmptyString → s = EmptyString.
Proof.
  intros Hr. pose proof (rev_string_rev s EmptyString EmptyString) as H.
  rewrite Hr in H. simpl in H. by rewrite string_app_nil_r in H.
Qed.

Lemma contains_all_bytes c P s : P c = false → all_bytes P s → contains c s = false.
Proof.
  intros Hc. induction s as [|a s IH]; simpl; [done|].
  intros [Ha Hs]%andb_True. rewrite IH by done.
  rewrite bool_decide_false; [done|]. intros ->. by rewrite Hc in Ha.
Qed.

Lemma digit_not_space rs a s :
  rs ∈ [space_runes; (λ r, rev_string r EmptyString) <$> space_runes] →
  is_digit a → strip_any rs (String a s) = None.
Proof.
  intros [->|[->|[]%not_elem_of_nil]%elem_of_cons]%elem_of_cons Ha;
    destruct a as [[] [] [] [] [] [] [] []]; vm_compute in Ha |- *; done.
Qed.

Lemma trim_left_digits fuel rs s :
  rs ∈ [space_runes; (λ r, rev_string r EmptyString) <$> space_runes] →
  all_bytes is_digit s → trim_left fuel rs s = s.
Proof.
  intros Hrs Hs. destruct fuel; simpl; [done|]. destruct s as [|a s].
  - apply elem_of_cons in Hrs as [->|[->|[]%not_elem_of_nil]%elem_of_cons]; done.
  - apply andb_True in Hs as [Ha Hs]. by rewrite digit_not_space.
Qed.

Lemma trim_space_digits s : all_bytes is_digit s → trim_space s = s.
Proof.
  intros Hs. unfold trim_space.
  rewrite (trim_left_digits _ space_runes) by (done || set_solver).
  rewrite trim_left_digits by (set_solver || by rewrite all_bytes_rev, andb_true_r).
  by rewrite rev_string_rev, string_app_nil_r.
Qed.

Lemma uint_digits d : all_bytes is_digit (NilEmpty.string_of_uint d).
Proof. by induction d. Qed.

Lemma itoa_digits z : 0 ≤ z → all_bytes is_digit (itoa z).
Proof.
  destruct z as [|p|p]; simpl; [done| |lia]. intros _.
  pose proof (uint_digits (Pos.to_uint p)). by destruct (Pos.to_uint p).
Qed.

Lemma itoa_pos_head p : ∃ a s, itoa (Zpos p) = String a s ∧ is_digit a.
Proof.
  pose proof (itoa_digits (Zpos p) ltac:(lia)) as H. simpl in *.
  pose proof (DecimalPos.Unsigned.to_uint_nonnil p).
  destruct (Pos.to_uint p); simpl in *; [done|..]; by repeat eexists.
Qed.

(** Printing, then reading, gives the number back. *)
Lemma atoi_itoa z : in_int64 z → atoi (itoa z) = Ok z.
Proof.
  intros Hz.
  assert (∀ p, NilZero.uint_of_string (itoa (Zpos p)) = Some (Pos.to_uint p) ∧
               N.of_uint (Pos.to_uint p) = Npos p) as Hpos.
  { intros p. split; [apply NilZero.usu, DecimalPos.Unsigned.to_uint_nonnil|].
    apply (DecimalN.Unsigned.of_to (Npos p)). }
  destruct z as [|p|p]; [done| |]; destruct (Hpos p) as [H1 H2].
  - destruct (itoa_pos_head p) as (a & s & E & Ha). rewrite E in *.
    assert (atoi_digits (String a s) false (String a s) = Ok (Z.pos p)) as <-.
    { unfold atoi_digits. rewrite H1, H2. by rewrite decide_True. }
    by destruct a as [[] [] [] [] [] [] [] []]; vm_compute in Ha.
  - change (atoi_digits (itoa (Zneg p)) true (itoa (Zpos p)) = Ok (Z.neg p)).
    unfold atoi_digits. rewrite H1, H2. by rewrite decide_True.
Qed.

(** ** Case *)

(** [strings.ToUpper] on an ASCII string. *)
Fixpoint to_upper (x : string) : string :=
  match x with
  | EmptyString => EmptyString
  | String a x' =>
      let n := nat_of_ascii a in
      String (if (97 <=? n)%nat && (n <=? 122)%nat then ascii_of_nat (n - 32) else a) (to_upper x')
  end.

Fixpoint to_lower (x : string) : string :=
  match x with
  | EmptyString => EmptyString
  | String a x' =>
      let n := nat_of_ascii a in
      String (if (65 <=? n)%nat && (n <=? 90)%nat then ascii_of_nat (n + 32) else a) (to_lower x')
  end.

(** [bytes.EqualFold] with an ASCII word that has neither a k nor an s, the
    letters some other rune folds to. *)
Definition EqualFold (x word : string) : bool := bool_decide (to_lower x = to_lower word).
