(* ===== verification/Bitmap.v ===== *)
(** * The port bitmap

    [go-common-libs/bitmap]: the set of free ports of the process manager,
    kept as a roaring bitmap of offsets from the first port. A roaring bitmap
    is a finite set of [uint32]; its iterator lists the set in increasing
    order. The file ends with the interface ([PortAllocator]) against which the
    process manager is verified, and with the proof that the bitmap meets it. *)
From S2P Require Import Prelude GoStrings.

#[local] Open Scope Z_scope.
#[local] Open Scope go_scope.

Record Bitmap := mkBitmap {
  base : Z;
  size : Z;
  start : Z;
  data : gset Z;
}.

Definition uint32 (z : Z) : Z := z `mod` 2^32.
Definition uint64 (z : Z) : Z := z `mod` 2^64.

(** [roaring.Bitmap.AddRange] and [RemoveRange] on the half-open [lo, hi). *)
Definition AddRange (s : gset Z) (lo hi : Z) : gset Z := s ∪ ports lo (hi - 1).
Definition RemoveRange (s : gset Z) (lo hi : Z) : gset Z := s ∖ ports lo (hi - 1).

(** What is left of the iterator after [AdvanceIfNeeded(uint32(iStart))], each
    element converted to [int32] as the loop does. *)
Definition iterator (s : gset Z) (iStart : Z) : list Z :=
  int32 <$> merge_sort Z.le (elements (filter (λ x, uint32 iStart ≤ x) s)).

Definition NewBitmap (first last : Z) : res Bitmap :=
  if bool_decide (last < first) then
    Err (EPlain ("invalid range, end (" +:+ itoa last +:+ ") cannot be less than start ("
                 +:+ itoa first +:+ ")"))
  else
    let size := int32 (int32 (last - first) + 1) in
    let data := if bool_decide (size > 0) then AddRange ∅ 0 (uint64 size) else ∅ in
    Ok {| base := first; size := size; start := 0; data := data |}.

(** The inner loop of [findAt]: the elements left, the count that remains and
    the start of the run. *)
Fixpoint scan (i : list Z) (last remains bStart : Z) : list Z * Z * Z :=
  match i with
  | [] => ([], remains, bStart)
  | x :: i' =>
      if bool_decide (remains > 0) then
        if bool_decide (last < 0) then scan i' x (int32 (remains - 1)) x
        else if bool_decide (int32 (x - last) > 1) then (i', remains, bStart)
        else scan i' x (int32 (remains - 1)) bStart
      else (i, remains, bStart)
  end.

Definition no_range : error := EPlain "cannot find an empty port range".

(** The outer loop of [findAt], one unit of fuel per round; [None] when the
    fuel runs out. *)
Fixpoint find_loop (fuel : nat) (sz count : Z) (i : list Z) (bStart : Z) : option (res (Z * Z)) :=
  match fuel with
  | O => None
  | S fuel' =>
      let done := Some (Ok (bStart, int32 (int32 (bStart + count) - 1))) in
      if bool_decide (bStart ≤ sz) then
        let '(i', remains, bStart') := scan i (-1) count bStart in
        if bool_decide (remains = 0) then
          Some (Ok (bStart', int32 (int32 (bStart' + count) - 1)))
        else match i' with
             | [] => Some (Err no_range)
             | _ => find_loop fuel' sz count i' bStart'
             end
      else done
  end.

(** Every round but the last takes an element, so the number of elements and
    one more is enough fuel ([find_loop_total]). *)
Definition findAt (b : Bitmap) (count iStart : Z) : option (res (Z * Z)) :=
  let i := iterator (data b) iStart in
  find_loop (S (length i)) (size b) count i iStart.

Definition AllocateRange (b : Bitmap) (count : Z) : res (Z * Z) * Bitmap :=
  if bool_decide (count ≤ 0) then
    (Err (EPlain ("invalid request for non-positive counts: " +:+ itoa count)), b)
  else
    let r := match findAt b count (start b) with
             | Some (Ok r) => Some (Ok r)
             | Some (Err _) => findAt b count 0
             | None => None
             end in
    match r with
    | Some (Ok (rStart, rEnd)) =>
        (Ok (int32 (base b + rStart), int32 (base b + rEnd)),
         {| base := base b; size := size b; start := int32 (rEnd + 1);
            data := RemoveRange (data b) (uint64 rStart) (uint64 rEnd + 1) |})
    | _ => (Err no_range, b)
    end.

Definition ReleaseRange (b : Bitmap) (first last : Z) : option error * Bitmap :=
  if bool_decide (last < first) then
    (Some (EPlain ("invalid range: " +:+ itoa first +:+ "-" +:+ itoa last)), b)
  else if bool_decide (first = last ∧ last = 0) then (None, b)
  else
    let bStart := int32 (first - base b) in
    let bEnd := int32 (last - base b) in
    if bool_decide (bStart < 0 ∨ size b ≤ bEnd) then
      (Some (EPlain ("exceed range: " +:+ itoa first +:+ "-" +:+ itoa last +:+ " ("
                     +:+ itoa bStart +:+ "-" +:+ itoa bEnd +:+ ")")), b)
    else
      (None, {| base := base b; size := size b; start := start b;
                data := AddRange (data b) (uint64 bStart) (uint64 bEnd + 1) |}).

(** ** The iterator *)

(** Offsets in the managed range; everything the bitmap stores is below [2^31]. *)
Record wf (b : Bitmap) : Prop := {
  wf_base : 0 < base b;
  wf_size : 0 < size b;
  wf_top : base b + size b ≤ 2^31;
  wf_start : 0 ≤ start b ≤ size b;
  wf_data : ∀ x, x ∈ data b → 0 ≤ x < size b;
}.

Lemma uint32_id z : 0 ≤ z < 2^32 → uint32 z = z.
Proof. apply Z.mod_small. Qed.
Lemma uint64_id z : 0 ≤ z < 2^64 → uint64 z = z.
Proof. apply Z.mod_small. Qed.

Lemma elem_of_iterator b s x :
  wf b → 0 ≤ s ≤ size b → x ∈ iterator (data b) s ↔ x ∈ data b ∧ s ≤ x.
Proof.
  intros [] Hs. unfold iterator. rewrite uint32_id by lia.
  rewrite list_elem_of_fmap. setoid_rewrite merge_sort_Permutation.
  setoid_rewrite elem_of_elements. setoid_rewrite elem_of_filter. split.
  - intros (y & -> & Hy & Hd). rewrite int32_id; [done|].
    apply wf_data0 in Hd. unfold in_int32. lia.
  - intros [Hd Hy]. exists x. rewrite int32_id; [done|].
    apply wf_data0 in Hd. unfold in_int32. lia.
Qed.

Lemma iterator_sorted b s :
  wf b → 0 ≤ s ≤ size b → StronglySorted Z.lt (iterator (data b) s).
Proof.
  intros [] Hs. unfold iterator.
  pose proof (StronglySorted_merge_sort Z.le
    (elements (filter (λ x, uint32 s ≤ x) (data b)))) as Hsort.
  pose proof (NoDup_elements (filter (λ x, uint32 s ≤ x) (data b))) as Hnd.
  rewrite <- (merge_sort_Permutation Z.le) in Hnd.
  assert (∀ x, x ∈ merge_sort Z.le (elements (filter (λ x, uint32 s ≤ x) (data b))) →
    int32 x = x) as Hid.
  { intros x. rewrite merge_sort_Permutation, elem_of_elements, elem_of_filter.
    intros [_ Hd%wf_data0]. apply int32_id. unfold in_int32. lia. }
  revert Hsort Hnd Hid. generalize (merge_sort Z.le (elements (filter (λ x, uint32 s ≤ x) (data b)))).
  induction 1 as [|x l Hl IH Hx]; simpl; [constructor|].
  intros [Hnx Hnd]%NoDup_cons Hid. constructor; [apply IH; set_solver|].
  rewrite Forall_fmap. eapply Forall_impl; [apply Forall_and; split; [exact Hx|]|].
  { apply (Forall_forall (λ y, y ∈ l ∧ int32 y = y)). intros y Hy. split; [done|].
    apply Hid. set_solver. }
  intros y (Hxy & Hy & Hyi). simpl. rewrite Hyi, Hid by set_solver.
  assert (x ≠ y) by (intros ->; done). lia.
Qed.

(** ** The search *)

(** The elements of [i]: increasing, non-negative offsets of [D]. *)
Definition offsets (D : gset Z) (i : list Z) : Prop :=
  StronglySorted Z.lt i ∧ ∀ x, x ∈ i → x ∈ D ∧ 0 ≤ x < 2^31.

Lemma offsets_cons D x i :
  offsets D (x :: i) → offsets D i ∧ x ∈ D ∧ 0 ≤ x < 2^31 ∧ ∀ y, y ∈ i → x < y.
Proof.
  intros [Hs Hx]. apply StronglySorted_inv in Hs as [Hs Hf].
  rewrite Forall_forall in Hf. unfold offsets. set_solver.
Qed.

Lemma offsets_suffix D i i' : i' `suffix_of` i → offsets D i → offsets D i'.
Proof.
  intros [k ->] [Hs Hx]. split; [by eapply StronglySorted_app_1_r|set_solver].
Qed.

Lemma scan_suffix i last r bs : (scan i last r bs).1.1 `suffix_of` i.
Proof.
  revert last r bs. induction i as [|x i IH]; intros; simpl; [reflexivity|].
  repeat case_bool_decide; simpl; try reflexivity; apply suffix_cons_r; auto; reflexivity.
Qed.

Lemma scan_start i last r bs : (scan i last r bs).2 = bs ∨ (scan i last r bs).2 ∈ i.
Proof.
  revert last r bs. induction i as [|x i IH]; intros; simpl; [by left|].
  repeat case_bool_decide; simpl; try (by left).
  - destruct (IH x (int32 (r - 1)) x) as [->|]; set_solver.
  - destruct (IH x (int32 (r - 1)) bs) as [->|]; set_solver.
Qed.

(** Inside a run: the offsets from [bs] to [last] are in the set already. *)
Lemma scan_in_run D count i last r bs i' r' bs' :
  offsets D i → (∀ x, x ∈ i → last < x) → 0 ≤ last →
  ports bs last ⊆ D → r = count - (last - bs + 1) → 0 ≤ r < 2^31 →
  scan i last r bs = (i', r', bs') →
  bs' = bs ∧ 0 ≤ r' ∧ (r' = 0 → ports bs (bs + count - 1) ⊆ D).
Proof.
  revert last r. induction i as [|x i IH]; intros last r Hi Hlt Hl Hrun Hr Hr0; simpl.
  { intros [= <- <- <-]. split_and!; [done|lia|]. intros.
    by replace (bs + count - 1) with last by lia. }
  apply offsets_cons in Hi as (Hi & Hx & Hxr & Hgt).
  pose proof (Hlt x ltac:(set_solver)).
  case_bool_decide.
  2:{ intros [= <- <- <-]. split_and!; [done|lia|]. intros.
      by replace (bs + count - 1) with last by lia. }
  rewrite (bool_decide_false (last < 0)) by lia.
  rewrite !int32_id by (unfold in_int32; lia).
  case_bool_decide; [intros [= <- <- <-]; split_and!; [done|lia|lia]|].
  apply IH; [done|set_solver|lia| |lia|lia].
  intros y. rewrite elem_of_ports. intros.
  destruct (decide (y = x)) as [->|]; [done|]. apply Hrun, elem_of_ports. lia.
Qed.

(** From a round's start: when nothing remains, the run found is in the set. *)
Lemma scan_run D count i bs i' r' bs' :
  offsets D i → 0 < count < 2^31 →
  scan i (-1) count bs = (i', r', bs') →
  0 ≤ r' ∧ (r' = 0 → bs' ∈ i ∧ ports bs' (bs' + count - 1) ⊆ D).
Proof.
  destruct i as [|x i]; simpl; intros Hi Hc.
  { intros; simplify_eq. lia. }
  rewrite bool_decide_true by lia.
  rewrite int32_id by (unfold in_int32; lia).
  apply offsets_cons in Hi as (Hi & Hx & Hxr & Hgt).
  intros H. eapply (scan_in_run D count) in H as (-> & ? & Hr);
    [|done|done|lia| |lia|lia].
  { split; [done|]. intros. split; [set_solver|]. by apply Hr. }
  intros y. rewrite elem_of_ports. intros. by replace y with x by lia.
Qed.

(** A round that goes on took at least one element. *)
Lemma scan_progress i count bs i' r' bs' :
  0 < count → i ≠ [] → scan i (-1) count bs = (i', r', bs') →
  (length i' < length i)%nat.
Proof.
  destruct i as [|x i]; [done|]. simpl. intros. rewrite bool_decide_true in H1 by lia.
  pose proof (scan_suffix i x (int32 (count - 1)) x) as Hs. rewrite H1 in Hs.
  apply suffix_length in Hs. simpl in *. lia.
Qed.

Lemma find_loop_total fuel sz count i bs :
  0 < count → (length i < fuel)%nat → is_Some (find_loop fuel sz count i bs).
Proof.
  revert i bs. induction fuel as [|fuel IH]; intros i bs Hc Hf; [lia|]. simpl.
  case_bool_decide; [|done]. destruct (scan i (-1) count bs) as [[i' r'] bs'] eqn:E.
  case_bool_decide; [done|]. destruct i' as [|y i']; [done|].
  apply IH; [done|]. destruct i as [|x i]; [simpl in E; simplify_eq|].
  apply scan_progress in E; [|done..]. simpl in *. lia.
Qed.

Lemma find_loop_sound fuel D sz count i bs s e :
  offsets D i → (∀ x, x ∈ i → x < sz) → 0 < count < 2^31 → bs ≤ sz →
  (∀ x, x ∈ D → 0 ≤ x < sz) → sz ≤ 2^31 - 1 →
  find_loop fuel sz count i bs = Some (Ok (s, e)) →
  s ∈ i ∧ e = s + count - 1 ∧ ports s e ⊆ D.
Proof.
  intros Hi Hsz Hc Hbs HD Htop. revert i bs Hi Hsz Hbs.
  induction fuel as [|fuel IH]; intros i bs Hi Hsz Hbs; simpl; [done|].
  rewrite bool_decide_true by lia.
  destruct (scan i (-1) count bs) as [[i' r'] bs'] eqn:E.
  pose proof (scan_suffix i (-1) count bs) as Hsuf. rewrite E in Hsuf. simpl in Hsuf.
  pose proof E as Hrun. eapply scan_run in Hrun as [Hr0 Hrun]; [|done..].
  case_bool_decide as Hr; intros H.
  - apply Hrun in Hr as [Hin Hsub]. simplify_eq. split; [done|].
    assert (0 ≤ s + count - 1 < sz) by (apply HD, Hsub, elem_of_ports;
      destruct Hi as [_ Hi]; apply Hi in Hin; lia).
    destruct Hi as [_ Hi]. pose proof (Hi _ Hin) as [_ ?].
    rewrite <- Z.add_opp_r, int32_add, int32_id by (unfold in_int32; lia). done.
  - destruct i' as [|y i']; [done|].
    eapply IH in H as (? & ? & ?).
    + destruct Hsuf as [k ->]. set_solver.
    + by eapply offsets_suffix.
    + destruct Hsuf as [k ->]. set_solver.
    + destruct (scan_start i (-1) count bs) as [Hb|Hb]; rewrite E in Hb; simpl in Hb;
        [lia|]. apply Hsz in Hb. lia.
Qed.

(** ** The operations *)

Lemma iterator_offsets b s :
  wf b → 0 ≤ s ≤ size b → offsets (data b) (iterator (data b) s).
Proof.
  intros Hb Hs. split; [by apply iterator_sorted|].
  intros x [Hx ?]%elem_of_iterator; [|done..]. pose proof (wf_data b Hb x Hx).
  destruct Hb. split; [done|lia].
Qed.

Lemma findAt_total b count iStart : 0 < count → is_Some (findAt b count iStart).
Proof. intros. apply find_loop_total; lia. Qed.

Lemma findAt_sound b count iStart s e :
  wf b → 0 < count < 2^31 → 0 ≤ iStart ≤ size b →
  findAt b count iStart = Some (Ok (s, e)) →
  iStart ≤ s ∧ e = s + count - 1 ∧ ports s e ⊆ data b.
Proof.
  intros Hb Hc Hi H. pose proof (iterator_offsets b iStart Hb Hi) as Ho.
  pose proof Hb as []. eapply find_loop_sound in H as (Hs & -> & Hsub);
    [|done| |done|lia|done|lia].
  - apply elem_of_iterator in Hs as [??]; done.
  - intros x [Hx _]%elem_of_iterator; [|done..]. apply wf_data0 in Hx. lia.
Qed.

(** A single port is found whenever the iterator has one. *)
Lemma findAt_one b iStart x :
  wf b → 0 ≤ iStart ≤ size b → x ∈ data b → iStart ≤ x →
  ∃ s e, findAt b 1 iStart = Some (Ok (s, e)).
Proof.
  intros Hb Hi Hx Hle. unfold findAt.
  assert (x ∈ iterator (data b) iStart) as Hin by (by apply elem_of_iterator).
  destruct (iterator (data b) iStart) as [|y i]; [by apply elem_of_nil in Hin|].
  simpl. rewrite bool_decide_true by lia.
  destruct i as [|z i]; simpl; eauto.
Qed.

(** The free ports, and all the ports the bitmap was made for. *)
Definition free (b : Bitmap) : gset Z := set_map (Z.add (base b)) (data b).
Definition managed (b : Bitmap) : gset Z := ports (base b) (base b + size b - 1).

Lemma elem_of_free b p : p ∈ free b ↔ p - base b ∈ data b.
Proof.
  unfold free. rewrite elem_of_map. split.
  - intros (x & -> & Hx). by replace (base b + x - base b) with x by lia.
  - intros H. exists (p - base b). split; [lia|done].
Qed.

Lemma NewBitmap_spec first last b :
  0 < first → last < 2^31 → NewBitmap first last = Ok b →
  wf b ∧ free b = ports first last ∧ managed b = ports first last.
Proof.
  intros Hf Hl. unfold NewBitmap. case_bool_decide; [done|]. intros H0.
  rewrite int32_add in H0. rewrite int32_id in H0 by (unfold in_int32; lia).
  rewrite bool_decide_true in H0 by lia. rewrite uint64_id in H0 by lia.
  simplify_eq. split_and!.
  - constructor; simpl; try lia. unfold AddRange. set_unfold. lia.
  - apply set_eq. intros p. rewrite elem_of_free. simpl. unfold AddRange. set_unfold. lia.
  - unfold managed. simpl. apply set_eq. set_unfold. lia.
Qed.

Lemma AllocateRange_ok b count s e b' :
  wf b → count < 2^31 → AllocateRange b count = (Ok (s, e), b') →
  wf b' ∧ 0 < count ∧ 0 < s ∧ e = s + count - 1 ∧ e < 2^31 ∧ ports s e ⊆ free b ∧
  free b' = free b ∖ ports s e ∧ managed b' = managed b.
Proof.
  intros Hb Hc. unfold AllocateRange. case_bool_decide; [done|].
  assert (∀ i s e, 0 ≤ i ≤ size b → findAt b count i = Some (Ok (s, e)) →
    0 ≤ s ∧ e = s + count - 1 ∧ e < size b ∧ ports s e ⊆ data b) as Hfind.
  { intros i s0 e0 Hi (? & -> & Hsub)%findAt_sound; [|done|lia..].
    pose proof (wf_data b Hb (s0 + count - 1)) as He. split_and!; [lia|done| |done].
    apply He, Hsub, elem_of_ports. lia. }
  pose proof Hb as []. intros Hres.
  assert (∃ rs re, 0 ≤ rs ∧ re = rs + count - 1 ∧ re < size b ∧ ports rs re ⊆ data b ∧
    s = int32 (base b + rs) ∧ e = int32 (base b + re) ∧
    b' = {| base := base b; size := size b; start := int32 (re + 1);
            data := RemoveRange (data b) (uint64 rs) (uint64 re + 1) |})
    as (rs & re & ? & -> & ? & Hsub & -> & -> & ->).
  { repeat case_match; simplify_eq; repeat eexists; try done;
      match goal with H : findAt _ _ _ = Some (Ok _) |- _ => apply Hfind in H as (?&->&?&?) end;
      done || lia. }
  clear Hres Hfind. rewrite !int32_id by (unfold in_int32; lia).
  rewrite !uint64_id by lia.
  split_and!; try lia; try done.
  - constructor; simpl; try lia. unfold RemoveRange. intros x [Hx _]%elem_of_difference. auto.
  - intros p. rewrite elem_of_ports, elem_of_free. intros. apply Hsub, elem_of_ports. lia.
  - apply set_eq. intros p. rewrite elem_of_difference, !elem_of_free. simpl. unfold RemoveRange.
    rewrite elem_of_difference, !elem_of_ports. naive_solver lia.
Qed.

Lemma AllocateRange_err b count x b' : AllocateRange b count = (Err x, b') → b' = b.
Proof. unfold AllocateRange. intros. repeat case_match; by simplify_eq. Qed.

Lemma ReleaseRange_zero b : ReleaseRange b 0 0 = (None, b).
Proof. done. Qed.

Lemma ReleaseRange_ok b s e :
  wf b → 0 < s ≤ e → ports s e ⊆ managed b →
  ∃ b', ReleaseRange b s e = (None, b') ∧ wf b' ∧ free b' = free b ∪ ports s e ∧
        managed b' = managed b.
Proof.
  intros Hb Hse Hsub. pose proof Hb as [].
  pose proof (Hsub s) as H1. pose proof (Hsub e) as H2.
  unfold managed in H1, H2. rewrite !elem_of_ports in H1, H2.
  unfold ReleaseRange. rewrite (bool_decide_false (e < s)) by lia.
  rewrite (bool_decide_false (s = e ∧ e = 0)) by lia.
  rewrite !int32_id by (unfold in_int32; lia).
  rewrite bool_decide_false by lia. rewrite !uint64_id by lia.
  eexists. split; [done|]. split_and!; [|apply set_eq; intros p|done].
  - constructor; simpl; try lia. unfold AddRange. intros x. rewrite elem_of_union, elem_of_ports.
    intros [?%wf_data0|]; lia.
  - rewrite elem_of_union, !elem_of_free. simpl. unfold AddRange.
    rewrite elem_of_union, !elem_of_ports. naive_solver lia.
Qed.

(** ** The interface the process manager relies on *)

(** A set of free ports with the two operations of the bitmap. *)
Class PortAllocator (B : Type) := {
  alloc_range : B → Z → res (Z * Z) * B;
  release_range : B → Z → Z → option error * B;
  free_ports : B → gset Z;
  all_ports : B → gset Z;
  alloc_wf : B → Prop;
}.

(** What it promises: a range handed out was free and no longer is, a range
    given back is free again, and [0-0] stands for no port at all. *)
Class PortAllocatorLaws (B : Type) `{PortAllocator B} := {
  alloc_ok b n s e b' :
    alloc_wf b → n < 2^31 → alloc_range b n = (Ok (s, e), b') →
    alloc_wf b' ∧ 0 < n ∧ 0 < s ∧ e = s + n - 1 ∧ e < 2^31 ∧
    ports s e ⊆ free_ports b ∧ free_ports b' = free_ports b ∖ ports s e ∧
    all_ports b' = all_ports b;
  alloc_err b n x b' : alloc_range b n = (Err x, b') → b' = b;
  release_none b : release_range b 0 0 = (None, b);
  release_ok b s e :
    alloc_wf b → 0 < s ≤ e → ports s e ⊆ all_ports b →
    ∃ b', release_range b s e = (None, b') ∧ alloc_wf b' ∧
      free_ports b' = free_ports b ∪ ports s e ∧ all_ports b' = all_ports b;
}.

#[export] Instance bitmap_allocator : PortAllocator Bitmap := {
  alloc_range := AllocateRange;
  release_range := ReleaseRange;
  free_ports := free;
  all_ports := managed;
  alloc_wf := wf;
}.

#[export] Instance bitmap_allocator_laws : PortAllocatorLaws Bitmap.
Proof.
  split.
  - apply AllocateRange_ok.
  - apply AllocateRange_err.
  - apply ReleaseRange_zero.
  - apply ReleaseRange_ok.
Qed.

(** ** Properties *)

(** A bitmap for the ports 100-105, its ports taken out one by one or in pairs. *)
Definition bitmap_100_105 : Bitmap := {| base := 100; size := 6; start := 0; data := ports 0 5 |}.

Lemma bitmap_100_105_wf : wf bitmap_100_105.
Proof. constructor; simpl; try lia. set_unfold. lia. Qed.

(** C11: [AllocateRange] hands out exactly [count] consecutive ports that were
    all free, takes them and nothing else out of the free set, starts its next
    search after them, and keeps the bitmap well formed; on an error the bitmap
    is unchanged and both searches had run to their end (the loop never runs
    out of fuel). *)
Theorem AllocateRange_correct (b : Bitmap) (count : Z) (r : res (Z * Z)) (b' : Bitmap) :
  wf b → count < 2^31 → AllocateRange b count = (r, b') →
  match r with
  | Ok (s, e) =>
      0 < count ∧ e = s + count - 1 ∧ ports s e ⊆ free b ∧
      free b' = free b ∖ ports s e ∧ start b' = e + 1 - base b ∧ wf b'
  | Err x =>
      b' = b ∧
      (count ≤ 0 ∨ (x = no_range ∧ (∃ x1, findAt b count (start b) = Some (Err x1)) ∧
                    (∃ x2, findAt b count 0 = Some (Err x2))))
  end.
Proof.
  intros Hb Hc H. destruct r as [[s e]|x].
  - pose proof H as (? & ? & ? & -> & ? & ? & ? & ?)%AllocateRange_ok; [|done..].
    split_and!; try done. revert H. unfold AllocateRange. case_bool_decide; [done|].
    intros. pose proof Hb as [].
    repeat case_match; simplify_eq/=;
      match goal with H : findAt _ _ _ = Some (Ok _) |- _ =>
        apply findAt_sound in H as (? & -> & Hsub); [|done|lia..] end.
    all: match type of Hsub with ports ?rs ?re ⊆ _ =>
           pose proof (Hsub re ltac:(apply elem_of_ports; lia)) as ?%wf_data0 end.
    all: rewrite int32_id in * by (unfold in_int32; lia); try lia.
    all: rewrite !int32_id by (unfold in_int32; lia); lia.
  - pose proof H as ->%AllocateRange_err. split; [done|]. revert H. unfold AllocateRange.
    case_bool_decide; [by left|]. right.
    destruct (findAt_total b count (start b)) as [r1 E1]; [lia|].
    destruct (findAt_total b count 0) as [r2 E2]; [lia|].
    rewrite E1, E2 in *. destruct r1 as [[]|]; [done|]. destruct r2 as [[]|]; [done|].
    naive_solver.
Qed.

Theorem AllocateRange_correct_witness :
  fst (AllocateRange bitmap_100_105 2) = Ok (100, 101) ∧
  free (snd (AllocateRange bitmap_100_105 2)) = free bitmap_100_105 ∖ ports 100 101.
Proof.
  split; [by vm_compute|].
  apply (AllocateRange_correct bitmap_100_105 2 (Ok (100, 101))
    (snd (AllocateRange bitmap_100_105 2)) bitmap_100_105_wf);
    [lia|by vm_compute].
Defined.

(** A request for one port is refused only when no port is free, wherever
    the last search stopped. *)
Theorem AllocateRange_one (b : Bitmap) :
  wf b → (∃ p b', AllocateRange b 1 = (Ok (p, p), b') ∧ p ∈ free b) ↔ free b ≠ ∅.
Proof.
  intros Hb. split; [set_solver|]. intros [p Hp]%set_choose_L.
  apply elem_of_free in Hp. pose proof (wf_data b Hb _ Hp).
  destruct (findAt_one b 0 (p - base b)) as (s0 & e0 & H0); [done|lia|done|lia|].
  destruct (AllocateRange b 1) as [[[s e]|x] b'] eqn:E.
  - pose proof E as (_&_&_&->&_&Hsub&_)%AllocateRange_ok; [|done|lia].
    replace (s + 1 - 1) with s in * by lia. exists s, b'. split; [done|].
    apply Hsub, elem_of_ports. lia.
  - revert E. unfold AllocateRange. rewrite bool_decide_false by lia.
    destruct (findAt_total b 1 (start b)) as [[[]|] E1]; [lia|by rewrite E1|].
    by rewrite E1, H0.
Qed.

Theorem AllocateRange_one_witness :
  ∃ p b', AllocateRange bitmap_100_105 1 = (Ok (p, p), b') ∧ p ∈ free bitmap_100_105.
Proof.
  apply (AllocateRange_one bitmap_100_105 bitmap_100_105_wf). by vm_compute.
Defined.

(** Giving back the range that was just handed out restores the free set. *)
Theorem allocate_release (b b' : Bitmap) (count s e : Z) :
  wf b → count < 2^31 → AllocateRange b count = (Ok (s, e), b') →
  ∃ b'', ReleaseRange b' s e = (None, b'') ∧ free b'' = free b ∧ wf b''.
Proof.
  intros Hb Hc (Hb' & ? & ? & -> & ? & Hsub & Hf & Hm)%AllocateRange_ok; [|done..].
  destruct (ReleaseRange_ok b' s (s + count - 1)) as (b'' & ? & ? & Hf' & ?); [done|lia| |].
  { rewrite Hm. intros p [? ?]%Hsub%elem_of_free%(wf_data b Hb).
    apply elem_of_ports. lia. }
  exists b''. split_and!; [done| |done]. rewrite Hf', Hf.
  apply set_eq. intros p. specialize (Hsub p). rewrite elem_of_union, elem_of_difference.
  destruct (decide (p ∈ ports s (s + count - 1))); naive_solver.
Qed.

Theorem allocate_release_witness :
  ∃ b'', ReleaseRange (snd (AllocateRange bitmap_100_105 3)) 100 102 = (None, b'') ∧
         free b'' = free bitmap_100_105 ∧ wf b''.
Proof.
  apply (allocate_release bitmap_100_105 _ 3 100 102 bitmap_100_105_wf); [lia|].
  by vm_compute.
Defined.

(** The ports 101, 103 and 104 free, and the search starting at the bottom. *)
Definition gapped : Bitmap := {| base := 100; size := 6; start := 0; data := {[1; 3; 4]} |}.

(** The search can miss a range. With 101, 103 and 104 free, a request for
    two ports is refused although 103-104 is free: the element that shows the
    gap after 101 is taken from the iterator and never becomes the start of a
    run. *)
Theorem AllocateRange_misses_run :
  wf gapped ∧ ports 103 104 ⊆ free gapped ∧
  fst (AllocateRange gapped 2) = Err no_range ∧
  fst (AllocateRange {| base := 100; size := 6; start := 3; data := data gapped |} 2)
    = Ok (103, 104).
Proof.
  split_and!.
  - constructor; simpl; try lia. set_unfold. lia.
  - intros p. rewrite elem_of_ports, elem_of_free. simpl. intros. set_unfold. lia.
  - by vm_compute.
  - by vm_compute.
Qed.
