(* ===== verification/Sched.v ===== *)
(** * Concurrent programs

    A goroutine is a value of [prog]: a sequence of atomic actions on the
    shared state (a critical section of the code is one action), of questions
    to the environment (the clock, the operating system, a channel: whatever
    the program does not decide) and of [go] statements. A goroutine that
    loops for ever, until a condition fails, is a [daemon]: the program of one
    turn, and the condition. A configuration is the shared state and the
    goroutines; [step] lets any goroutine make its next action, a daemon begin
    its next turn and any client call arrive, so [reachable] covers every
    interleaving. [safe] is the proof method: a goroutine holds tokens, and
    each of its actions must preserve the invariant of the shared state and of
    all tokens whatever tokens the other goroutines hold. [exec] runs a given
    schedule, for concrete executions. *)
From S2P Require Import Prelude.

(** What the environment may answer, how the answer changes the state, and how
    an answer written in a schedule is read. *)
Class Env (W : Type) (E : Type → Type) (Ans : Type) := {
  env_ok : ∀ X, E X → W → X → Prop;
  env_upd : ∀ X, E X → X → W → W;
  env_read : ∀ X, E X → Ans → W → option X;
  env_read_ok : ∀ X (e : E X) a w x, env_read X e a w = Some x → env_ok X e w x;
}.
Arguments env_ok {_ _ _ _ _} _ _ _.
Arguments env_upd {_ _ _ _ _} _ _ _.
Arguments env_read {_ _ _ _ _} _ _ _.
Arguments env_read_ok {_ _ _ _ _} _ _ _ _ _.

Inductive prog (W : Type) (E : Type → Type) (A : Type) : Type :=
  | Ret (a : A)
  | Atomic {X : Type} (f : W → X * W) (k : X → prog W E A)
  | Ask {X : Type} (e : E X) (k : X → prog W E A)
  | Spawn (c : prog W E unit) (k : prog W E A).
Arguments Ret {_ _ _} _.
Arguments Atomic {_ _ _ _} _ _.
Arguments Ask {_ _ _ _} _ _.
Arguments Spawn {_ _ _} _ _.

Fixpoint bind {W E A B} (m : prog W E A) (f : A → prog W E B) : prog W E B :=
  match m with
  | Ret a => f a
  | Atomic g k => Atomic g (λ x, bind (k x) f)
  | Ask e k => Ask e (λ x, bind (k x) f)
  | Spawn c k => Spawn c (bind k f)
  end.

#[export] Instance prog_ret W E : MRet (prog W E) := @Ret W E.
#[export] Instance prog_bind W E : MBind (prog W E) := λ A B f m, bind m f.

Definition atomic {W E X} (f : W → X * W) : prog W E X := Atomic f Ret.
Definition ask {W E X} (e : E X) : prog W E X := Ask e Ret.
Definition go {W E} (c : prog W E unit) : prog W E unit := Spawn c (Ret tt).
(** An action with no result, and one that only reads. *)
Definition update {W E} (f : W → W) : prog W E unit := atomic (λ w, (tt, f w)).
Definition read {W E X} (f : W → X) : prog W E X := atomic (λ w, (f w, w)).

(** [for again { turn }]; and a system: its daemons, and the calls that may
    come. *)
Record daemon (W : Type) (E : Type → Type) := Daemon {
  turn : prog W E unit; again : W → bool;
}.
Arguments Daemon {_ _} _ _.
Arguments turn {_ _} _.
Arguments again {_ _} _ _.
Record system (W : Type) (E : Type → Type) := System {
  calls : prog W E unit → Prop; daemons : list (daemon W E);
}.
Arguments System {_ _} _ _.
Arguments calls {_ _} _ _.
Arguments daemons {_ _} _.

Section sched.
Context {W : Type} {E : Type → Type} {Ans : Type} `{!Env W E Ans}.

(** Configurations: the goroutines started so far and the shared state. *)
Definition config : Type := list (prog W E unit) * W.

(** One action of a goroutine: what it becomes, the goroutines it starts. *)
Inductive tstep : prog W E unit → W → prog W E unit → W → list (prog W E unit) → Prop :=
  | tstep_atomic X (f : W → X * W) k w :
      tstep (Atomic f k) w (k (f w).1) (f w).2 []
  | tstep_ask X (e : E X) k w x :
      env_ok e w x → tstep (Ask e k) w (k x) (env_upd e x w) []
  | tstep_spawn c k w :
      tstep (Spawn c k) w k w [c].

Variable sys : system W E.

Inductive step : config → config → Prop :=
  | step_run ts i p w p' w' new :
      ts !! i = Some p → tstep p w p' w' new →
      step (ts, w) (<[i:=p']> ts ++ new, w')
  | step_again ts i d w :
      daemons sys !! i = Some d → ts !! i = Some (Ret tt) → again d w = true →
      step (ts, w) (<[i:=turn d]> ts, w)
  | step_arrive ts w p :
      calls sys p → step (ts, w) (ts ++ [p], w).

(** The daemons begin their first turn. *)
Definition started (w0 : W) : config := (turn <$> daemons sys, w0).
Definition reachable (w0 : W) (c : config) : Prop := rtc step (started w0) c.

(** ** Running a schedule *)

(** A client call arrives, goroutine [i] makes its next action, with the
    environment's answer if the action is a question, or daemon [i] begins its
    next turn. *)
Inductive item :=
  | Arrive (p : prog W E unit)
  | Run (i : nat) (a : Ans)
  | Again (i : nat).

Definition exec_thread (p : prog W E unit) (a : Ans) (w : W) :
    option (prog W E unit * W * list (prog W E unit)) :=
  match p with
  | Ret _ => None
  | Atomic f k => let '(x, w') := f w in Some (k x, w', [])
  | Ask e k => x ← env_read e a w; Some (k x, env_upd e x w, [])
  | Spawn c k => Some (k, w, [c])
  end.

Definition exec_item (it : item) (c : config) : option config :=
  match it with
  | Arrive p => Some (c.1 ++ [p], c.2)
  | Run i a =>
      p ← c.1 !! i;
      '(p', w', new) ← exec_thread p a c.2;
      Some (<[i:=p']> c.1 ++ new, w')
  | Again i =>
      d ← daemons sys !! i;
      match c.1 !! i with
      | Some (Ret _) => if again d c.2 then Some (<[i:=turn d]> c.1, c.2) else None
      | _ => None
      end
  end.

Fixpoint exec (its : list item) (c : config) : option config :=
  match its with
  | [] => Some c
  | it :: its' => exec_item it c ≫= exec its'
  end.

Definition arrivals (its : list item) : list (prog W E unit) :=
  omap (λ it, match it with Arrive p => Some p | _ => None end) its.

Lemma exec_thread_sound p a w p' w' new :
  exec_thread p a w = Some (p', w', new) → tstep p w p' w' new.
Proof.
  destruct p as [|X f k|X e k|c k]; simpl; intros H; simplify_eq.
  - destruct (f w) as [x w1] eqn:Ef. simplify_eq.
    replace x with (f w).1 by (by rewrite Ef). replace w' with (f w).2 by (by rewrite Ef).
    constructor.
  - destruct (env_read e a w) as [x|] eqn:Ee; simplify_eq/=.
    constructor. by eapply env_read_ok.
  - constructor.
Qed.

Lemma exec_item_sound it c c' :
  Forall (calls sys) (arrivals [it]) → exec_item it c = Some c' → step c c'.
Proof.
  destruct c as [ts w]. destruct it as [p|i a|i]; simpl.
  - intros [Hp _]%Forall_cons H. simplify_eq. by constructor.
  - intros _ H. destruct (ts !! i) as [p|] eqn:Ei; simplify_eq/=.
    destruct (exec_thread p a w) as [[[p' w'] new]|] eqn:Ep; simplify_eq/=.
    econstructor; [done|]. by eapply exec_thread_sound.
  - intros _ H. destruct (daemons sys !! i) as [d|] eqn:Ed; simplify_eq/=.
    destruct (ts !! i) as [[[]| | |]|] eqn:Ei; simplify_eq/=.
    destruct (again d w) eqn:Ea; simplify_eq. by constructor.
Qed.

(** What a schedule computes is reachable. *)
Lemma exec_sound its c c' :
  Forall (calls sys) (arrivals its) → exec its c = Some c' → rtc step c c'.
Proof.
  revert c. induction its as [|it its IH]; intros c Ha H; simplify_eq/=; [done|].
  destruct (exec_item it c) as [c1|] eqn:E1; simplify_eq/=.
  apply rtc_l with c1.
  - eapply exec_item_sound; [|done]. destruct it; simpl in *; [|done..].
    apply Forall_cons in Ha as [??]. by constructor.
  - apply IH; [|done]. destruct it; simpl in *; [by apply Forall_cons in Ha as [_ ?]|done..].
Qed.
End sched.
Arguments item _ _ _ : clear implicits.

(** ** Programs as transition systems *)

Section acts.
Context {W : Type} {E : Type → Type} {Ans : Type} `{!Env W E Ans}.
(** A specification of what an action may do to the shared state. *)
Variable R : W → W → Prop.

(** Every action of the program, and of the goroutines it starts, is allowed
    by [R], in whatever state it happens. *)
Fixpoint acts {A : Type} (p : prog W E A) : Prop :=
  match p with
  | Ret _ => True
  | Atomic f k => ∀ w, R w (f w).2 ∧ acts (k (f w).1)
  | Ask e k => ∀ w x, env_ok e w x → R w (env_upd e x w) ∧ acts (k x)
  | Spawn c k => acts c ∧ acts k
  end.

Lemma acts_ret {A : Type} (a : A) : acts (Ret a).
Proof. done. Qed.

Lemma acts_bind {A B : Type} (p : prog W E A) (f : A → prog W E B) :
  acts p → (∀ a, acts (f a)) → acts (p ≫= f).
Proof.
  intros Hp Hf. unfold mbind, prog_bind.
  induction p as [A a|A X g k IH|A X e k IH|A c IHc k IHk]; simpl in *; [auto| | |].
  - intros w. split; [apply Hp|apply IH; [apply Hp|done]].
  - intros w x Hx. destruct (Hp w x Hx). split; [done|by apply IH].
  - naive_solver.
Qed.

Lemma acts_go (c : prog W E unit) : acts c → acts (go c).
Proof. done. Qed.

Lemma acts_atomic {X} (f : W → X * W) : (∀ w, R w (f w).2) → acts (atomic f).
Proof. done. Qed.

Lemma acts_read {X} (f : W → X) : (∀ w, R w w) → acts (read f).
Proof. done. Qed.

Lemma acts_ask {X} (e : E X) :
  (∀ w x, env_ok e w x → R w (env_upd e x w)) → acts (ask e).
Proof. intros He w x Hx. split; [by apply He|done]. Qed.

Lemma tstep_acts p w p' w' new :
  (∀ w, R w w) → tstep p w p' w' new → acts p →
  R w w' ∧ acts p' ∧ Forall acts new.
Proof.
  intros Hrefl [X f k w1|X e k w1 x Hx|c k w1] Ha; simpl in Ha.
  - split_and!; [apply Ha|apply Ha|constructor].
  - destruct (Ha w1 x Hx) as [? ?]. split_and!; [done|done|constructor].
  - split_and!; [done|apply Ha|]. constructor; [apply Ha|constructor].
Qed.

(** All goroutines of a system obey [R]. *)
Definition system_acts (sys : system W E) : Prop :=
  Forall (λ d, acts (turn d)) (daemons sys) ∧ ∀ p, calls sys p → acts p.

Lemma started_acts sys w0 : system_acts sys → Forall acts (started sys w0).1.
Proof. intros [Hd _]. by apply Forall_fmap. Qed.

(** From a configuration whose goroutines obey [R], so do all later ones, and
    the state moves along [R]. *)
Lemma steps_acts sys c c' :
  (∀ w, R w w) → system_acts sys →
  rtc (step sys) c c' → Forall acts c.1 → rtc R c.2 c'.2 ∧ Forall acts c'.1.
Proof.
  intros Hrefl [Hd Hc]. induction 1 as [c|c1 c2 c3 Hstep _ IH]; [done|]. intros Ha.
  destruct Hstep as [ts i p w p' w' new Hi Ht|ts i d w Hdi Hi _|ts w p Hp]; simpl in *.
  - assert (acts p) as Hap by (rewrite Forall_lookup in Ha; by eapply Ha).
    apply tstep_acts in Ht as (HR & Hp' & Hnew); [|done..].
    destruct IH as [IH1 IH2].
    { apply Forall_app. split; [by apply Forall_insert|done]. }
    split; [by eapply rtc_l|done].
  - apply IH, Forall_insert; [done|]. rewrite Forall_lookup in Hd. by eapply Hd.
  - apply IH, Forall_app. split; [done|]. constructor; [by apply Hc|done].
Qed.
End acts.

(** ** Goroutines that hold tokens *)

Section safety.
Context {W : Type} {E : Type → Type} {Ans : Type} `{!Env W E Ans}.
Context {T : Type} `{Countable T}.
(** The invariant of the state and of the tokens that goroutines hold. *)
Variable inv : W → gset T → Prop.

(** [safe Q h p]: started with the tokens [h], [p] preserves the invariant
    and ends with a result and tokens that satisfy [Q]. A goroutine it starts
    ends with no token. *)
Fixpoint safe {A} (Q : A → gset T → Prop) (h : gset T) (p : prog W E A) : Prop :=
  match p with
  | Ret a => Q a h
  | Atomic f k => ∀ w F, h ## F → inv w (h ∪ F) →
      ∃ h', h' ## F ∧ inv (f w).2 (h' ∪ F) ∧ safe Q h' (k (f w).1)
  | Ask e k => ∀ w x F, h ## F → inv w (h ∪ F) → env_ok e w x →
      ∃ h', h' ## F ∧ inv (env_upd e x w) (h' ∪ F) ∧ safe Q h' (k x)
  | Spawn c k => ∃ h1 h2, h = h1 ∪ h2 ∧ h1 ## h2 ∧
      safe (λ _ h, h = ∅) h1 c ∧ safe Q h2 k
  end.

Definition safe_thread (h : gset T) (p : prog W E unit) : Prop := safe (λ _ h, h = ∅) h p.

Lemma safe_bind {A B} (Q : B → gset T → Prop) (p : prog W E A) (f : A → prog W E B) h :
  safe (λ a h', safe Q h' (f a)) h p → safe Q h (p ≫= f).
Proof.
  unfold mbind, prog_bind.
  revert h. induction p as [A a|A X g k IH|A X e k IH|A c IHc k IHk]; intros h; simpl.
  - done.
  - intros Hp w F Hd Hi. destruct (Hp w F Hd Hi) as (h' & ? & ? & ?). eauto.
  - intros Hp w x F Hd Hi Hx. destruct (Hp w x F Hd Hi Hx) as (h' & ? & ? & ?). eauto.
  - intros (h1 & h2 & -> & ? & ? & ?). exists h1, h2. eauto.
Qed.

Lemma safe_weaken {A} (Q Q' : A → gset T → Prop) h p :
  (∀ a h, Q a h → Q' a h) → safe Q h p → safe Q' h p.
Proof.
  intros HQ. revert h. induction p as [A a|A X g k IH|A X e k IH|A c IHc k IHk];
    intros h; simpl; [auto| | |].
  - intros Hp w F Hd Hi. destruct (Hp w F Hd Hi) as (h' & ? & ? & ?). eauto.
  - intros Hp w x F Hd Hi Hx. destruct (Hp w x F Hd Hi Hx) as (h' & ? & ? & ?). eauto.
  - intros (h1 & h2 & -> & ? & ? & ?). exists h1, h2. eauto.
Qed.

(** Programs each of whose actions preserves the invariant whatever tokens are
    held: they need none. *)
Definition neutral {A} (p : prog W E A) : Prop :=
  acts (λ w w', ∀ F, inv w F → inv w' F) p.

Lemma neutral_ret {A} (a : A) : neutral (Ret a).
Proof. done. Qed.

Lemma neutral_bind {A B} (p : prog W E A) (f : A → prog W E B) :
  neutral p → (∀ a, neutral (f a)) → neutral (p ≫= f).
Proof. apply acts_bind. Qed.

Lemma neutral_go (c : prog W E unit) : neutral c → neutral (go c).
Proof. done. Qed.

Lemma neutral_atomic {X} (f : W → X * W) :
  (∀ w F, inv w F → inv (f w).2 F) → neutral (atomic f).
Proof. intros Hf. apply acts_atomic. auto. Qed.

Lemma neutral_update (f : W → W) : (∀ w F, inv w F → inv (f w) F) → neutral (update f).
Proof. intros Hf. by apply neutral_atomic. Qed.

Lemma neutral_read {X} (f : W → X) : neutral (read f).
Proof. by apply neutral_atomic. Qed.

Lemma neutral_ask {X} (e : E X) :
  (∀ w x F, inv w F → env_ok e w x → inv (env_upd e x w) F) → neutral (ask e).
Proof. intros He. apply acts_ask. auto. Qed.

(** They give the tokens back as they were. *)
Lemma neutral_safe_any {A} (p : prog W E A) h : neutral p → safe (λ _ h', h' = h) h p.
Proof.
  unfold neutral. revert h. induction p as [A a|A X f k IH|A X e k IH|A c IHc k IHk];
    intros h; simpl.
  - done.
  - intros Hp w F Hd Hi. destruct (Hp w) as [Hw Hk]. exists h. auto.
  - intros Hp w x F Hd Hi Hx. destruct (Hp w x Hx) as [Hw Hk]. exists h. auto.
  - intros [Hc Hk]. exists ∅, h. split_and!; [set_solver|set_solver|by apply IHc|by apply IHk].
Qed.

(** A neutral first part, then one that uses the tokens. *)
Lemma safe_neutral_bind {A B} (Q : B → gset T → Prop) (p : prog W E A) (f : A → prog W E B) h :
  neutral p → (∀ a, safe Q h (f a)) → safe Q h (p ≫= f).
Proof.
  intros Hp Hf. apply safe_bind. eapply safe_weaken; [|by apply neutral_safe_any].
  by intros a h' ->.
Qed.

(** ** Every reachable configuration satisfies the invariant *)

Definition apart (hs : list (gset T)) : Prop :=
  ∀ i j h h', i ≠ j → hs !! i = Some h → hs !! j = Some h' → h ## h'.

(** The daemons, which are the first goroutines, hold no token. *)
Definition no_daemon_holds (sys : system W E) (hs : list (gset T)) (ts : list (prog W E unit)) :
    Prop :=
  ∀ i d, daemons sys !! i = Some d →
    hs !! i = Some ∅ ∧ ∃ p, ts !! i = Some p ∧ neutral p.

(** The tokens each goroutine holds: disjoint, and the invariant holds of all. *)
Definition config_ok (sys : system W E) (c : list (prog W E unit) * W) : Prop :=
  ∃ hs : list (gset T), (Forall2 safe_thread hs c.1 ∧ no_daemon_holds sys hs c.1) ∧
    apart hs ∧
    inv c.2 (⋃ hs).

Lemma elem_of_held (hs : list (gset T)) t :
  t ∈ ⋃ hs ↔ ∃ i h, hs !! i = Some h ∧ t ∈ h.
Proof.
  rewrite elem_of_union_list. split.
  - intros (h & [i Hi]%list_elem_of_lookup & ?). eauto.
  - intros (i & h & Hi & ?). exists h. split; [|done]. by eapply list_elem_of_lookup_2.
Qed.

(** The tokens of goroutine [i], and all the others. *)
Lemma held_insert i (hs : list (gset T)) h :
  (i < length hs)%nat → ⋃ (<[i:=h]> hs) = h ∪ ⋃ (<[i:=∅]> hs).
Proof.
  intros Hi. apply set_eq. intros t. rewrite elem_of_union, !elem_of_held. split.
  - intros (j & h' & Hj & Ht). destruct (decide (i = j)) as [<-|].
    + rewrite list_lookup_insert_eq in Hj by done. simplify_eq. by left.
    + rewrite list_lookup_insert_ne in Hj by done. right. exists j, h'.
      by rewrite list_lookup_insert_ne.
  - intros [Ht|(j & h' & Hj & Ht)].
    + exists i, h. by rewrite list_lookup_insert_eq.
    + destruct (decide (i = j)) as [<-|].
      * rewrite list_lookup_insert_eq in Hj by done. simplify_eq. set_solver.
      * rewrite list_lookup_insert_ne in Hj by done. exists j, h'.
        by rewrite list_lookup_insert_ne.
Qed.

Lemma apart_rest i hs h : apart hs → hs !! i = Some h → h ## ⋃ (<[i:=∅]> hs).
Proof.
  intros Ha Hi t Ht (j & h' & Hj & Ht')%elem_of_held.
  destruct (decide (i = j)) as [<-|Hne].
  - rewrite list_lookup_insert_eq in Hj by (by eapply lookup_lt_Some). set_solver.
  - rewrite list_lookup_insert_ne in Hj by done. by eapply (Ha i j h h').
Qed.

Lemma apart_insert i hs h :
  apart hs → h ## ⋃ (<[i:=∅]> hs) → apart (<[i:=h]> hs).
Proof.
  intros Ha Hh.
  assert (∀ j h', i ≠ j → hs !! j = Some h' → h ## h') as Hj.
  { intros j h' Hne Hj t Ht Ht'. apply (Hh t Ht), elem_of_held. exists j, h'.
    by rewrite list_lookup_insert_ne. }
  intros j k hj hk Hne Hlj Hlk.
  apply list_lookup_insert_Some in Hlj as [(<- & <- & _)|[? Hlj]];
    apply list_lookup_insert_Some in Hlk as [(<- & <- & _)|[? Hlk]].
  - done.
  - by eapply Hj.
  - symmetry. by eapply Hj.
  - by eapply (Ha j k).
Qed.

Lemma apart_snoc hs h : apart hs → h ## ⋃ hs → apart (hs ++ [h]).
Proof.
  intros Ha Hh.
  assert (∀ j h', hs !! j = Some h' → h ## h') as Hj.
  { intros j h' Hj t Ht Ht'. apply (Hh t Ht), elem_of_held. eauto. }
  intros j k hj hk Hne.
  intros [[_ Hlj]|[-> <-]]%lookup_snoc_Some [[_ Hlk]|[-> <-]]%lookup_snoc_Some.
  - by eapply (Ha j k).
  - symmetry. by eapply Hj.
  - by eapply Hj.
  - done.
Qed.

(** A goroutine gives some of its tokens to one that it starts. *)
Lemma held_split i hs h1 h2 :
  apart hs → hs !! i = Some (h1 ∪ h2) → h1 ## h2 →
  apart (<[i:=h2]> hs ++ [h1]) ∧ ⋃ (<[i:=h2]> hs ++ [h1]) = ⋃ hs.
Proof.
  intros Ha Hi Hd12. pose proof (apart_rest _ _ _ Ha Hi) as Hd.
  pose proof (lookup_lt_Some _ _ _ Hi) as Hlt.
  apply disjoint_union_l in Hd as [Hd1 Hd2]. split.
  - apply apart_snoc; [by apply apart_insert|].
    rewrite held_insert by done. by apply disjoint_union_r.
  - rewrite <- (list_insert_id hs i _ Hi) at 2.
    rewrite union_list_app_L, (held_insert i hs h2), (held_insert i hs (h1 ∪ h2)) by done. simpl.
    generalize (⋃ (<[i:=∅]> hs)). set_solver.
Qed.

(** Goroutines without tokens. *)
Lemma no_tokens (n : nat) : apart (replicate n (∅ : gset T)) ∧ ⋃ replicate n (∅ : gset T) = ∅.
Proof.
  assert (∀ i h, replicate n (∅ : gset T) !! i = Some h → h = ∅) as He
    by by intros i h [-> _]%lookup_replicate.
  split.
  - intros i j h h' _ ->%He ->%He. set_solver.
  - apply set_eq. intros t. rewrite elem_of_held. split; [|set_solver].
    intros (i & h & ->%He & ?). done.
Qed.

(** A goroutine that is not a daemon makes an action. *)
Lemma config_ok_step sys i ts p w p' w' new :
  daemons sys !! i = None → ts !! i = Some p → tstep p w p' w' new →
  config_ok sys (ts, w) → config_ok sys (<[i:=p']> ts ++ new, w').
Proof.
  intros Hdi Hi Hstep (hs & [Hsafe Hds] & Ha & Hinv). simpl in *.
  destruct (Forall2_lookup_r _ _ _ _ _ Hsafe Hi) as (h & Hh & Hp).
  pose proof (apart_rest _ _ _ Ha Hh) as Hd.
  pose proof (lookup_lt_Some _ _ _ Hh) as Hlt.
  rewrite <- (list_insert_id hs i h Hh), (held_insert i hs h Hlt) in Hinv.
  assert (∀ h' hnew, no_daemon_holds sys (<[i:=h']> hs ++ hnew) (<[i:=p']> ts ++ new)) as Hds'.
  { intros h' hnew j d Hj. destruct (Hds j d Hj) as (Hhj & q & Hq & Hn).
    assert (i ≠ j) by congruence. split; [|exists q; split; [|done]];
      by rewrite lookup_app_l, list_lookup_insert_ne
        by (rewrite ?length_insert; done || by eapply lookup_lt_Some). }
  destruct Hstep as [X f k w|X e k w x Hx|c k w].
  - destruct (Hp w _ Hd Hinv) as (h' & Hd' & Hi' & Hs').
    exists (<[i:=h']> hs). specialize (Hds' h' []). rewrite app_nil_r in *. split_and!.
    + by apply Forall2_insert.
    + by rewrite app_nil_r in Hds'.
    + by apply apart_insert.
    + by rewrite held_insert.
  - destruct (Hp w x _ Hd Hinv Hx) as (h' & Hd' & Hi' & Hs').
    exists (<[i:=h']> hs). specialize (Hds' h' []). rewrite app_nil_r in *. split_and!.
    + by apply Forall2_insert.
    + by rewrite app_nil_r in Hds'.
    + by apply apart_insert.
    + by rewrite held_insert.
  - destruct Hp as (h1 & h2 & -> & Hd12 & Hc & Hk).
    destruct (held_split _ _ _ _ Ha Hh Hd12) as [Ha' Heq].
    exists (<[i:=h2]> hs ++ [h1]). split_and!; [|by apply Hds'|done|].
    + apply Forall2_app; [by apply Forall2_insert|]. by repeat constructor.
    + simpl. by rewrite Heq, <- (list_insert_id hs i _ Hh), (held_insert i hs (h1 ∪ h2)).
Qed.

(** A daemon does. *)
Lemma config_ok_daemon sys i d ts p w p' w' new :
  daemons sys !! i = Some d → ts !! i = Some p → tstep p w p' w' new →
  config_ok sys (ts, w) → config_ok sys (<[i:=p']> ts ++ new, w').
Proof.
  intros Hdi Hi Hstep (hs & [Hsafe Hds] & Ha & Hinv). simpl in *.
  destruct (Hds i d Hdi) as (Hh & q & Hq & Hn). assert (q = p) as -> by congruence.
  destruct (tstep_acts _ _ _ _ _ _ (λ w F Hw, Hw) Hstep Hn) as (Hw & Hn' & Hnew).
  exists (hs ++ replicate (length new) ∅).
  destruct (no_tokens (length new)) as [_ He].
  pose proof (lookup_lt_Some _ _ _ Hh) as Hlt. split_and!.
  - apply Forall2_app.
    + rewrite <- (list_insert_id hs i ∅ Hh). apply Forall2_insert; [done|].
      by apply neutral_safe_any.
    + clear -Hnew. induction Hnew; simpl; constructor; [by apply neutral_safe_any|done].
  - intros j e Hj. destruct (Hds j e Hj) as (Hhj & q & Hq' & Hnq).
    simpl. rewrite !lookup_app_l by (rewrite ?length_insert; by eapply lookup_lt_Some).
    split; [done|]. destruct (decide (i = j)) as [<-|].
    + rewrite list_lookup_insert_eq by (by eapply lookup_lt_Some). eauto.
    + rewrite list_lookup_insert_ne by done. eauto.
  - clear -Ha. generalize (length new). intros n. induction n as [|n IH]; simpl.
    + by rewrite app_nil_r.
    + rewrite replicate_cons_app, (assoc_L (++)). apply apart_snoc; [done|]. set_solver.
  - rewrite union_list_app_L, He, (right_id_L ∅ (∪)). by apply Hw.
Qed.

(** The method: if the initial state satisfies the invariant, the daemons need no
    tokens, and every client call is safe when it starts without tokens, then in
    every reachable configuration the invariant holds of the state and of the
    tokens the goroutines hold. *)
Theorem reachable_ok sys w0 c :
  inv w0 ∅ → Forall (λ d, neutral (turn d)) (daemons sys) →
  (∀ p, calls sys p → safe_thread ∅ p) →
  reachable sys w0 c → config_ok sys c.
Proof.
  intros H0 Hd Hc Hr. rewrite Forall_lookup in Hd.
  assert (config_ok sys (started sys w0)) as Hok.
  { destruct (no_tokens (length (daemons sys))) as [Ha He].
    exists (replicate (length (daemons sys)) ∅). split_and!; [| |done|by rewrite He].
    - apply Forall2_same_length_lookup_2; [simpl; by rewrite length_replicate, length_fmap|].
      intros i h p [-> _]%lookup_replicate. simpl. rewrite list_lookup_fmap.
      intros (d & Hdi & ->)%fmap_Some. by apply neutral_safe_any, (Hd i).
    - intros i d Hi. split; [apply lookup_replicate; split; [done|by eapply lookup_lt_Some]|].
      exists (turn d). simpl. rewrite list_lookup_fmap, Hi. split; [done|]. by apply (Hd i). }
  revert Hok. unfold reachable in Hr.
  induction Hr as [|? ? ? Hstep _ IH]; [done|]. intros Hok. apply IH.
  destruct Hstep as [ts i p w p' w' new Hi Ht|ts i d w Hdi Hi _|ts w p Hp].
  - destruct (daemons sys !! i) as [d|] eqn:Hdi; [by eapply config_ok_daemon|].
    by eapply config_ok_step.
  - destruct Hok as (hs & [Hsafe Hds] & Ha & Hinv). exists hs. split_and!; [| |done..]; simpl in *.
    + destruct (Hds i d Hdi) as [Hh _].
      rewrite <- (list_insert_id hs i ∅ Hh). apply Forall2_insert; [done|].
      by apply neutral_safe_any, (Hd i).
    + intros j e Hj. destruct (Hds j e Hj) as (Hh & q & Hq & Hn). split; [done|].
      destruct (decide (i = j)) as [<-|]; [|rewrite list_lookup_insert_ne by done; eauto].
      rewrite list_lookup_insert_eq by (by eapply lookup_lt_Some). exists (turn d).
      split; [done|]. by apply (Hd i).
  - destruct Hok as (hs & [Hsafe Hds] & Ha & Hinv). exists (hs ++ [∅]). simpl in *. split_and!.
    + apply Forall2_app; [done|]. repeat constructor. by apply Hc.
    + intros j e Hj. destruct (Hds j e Hj) as (Hh & q & Hq & Hn).
      rewrite !lookup_app_l by (by eapply lookup_lt_Some). eauto.
    + apply apart_snoc; [done|]. set_solver.
    + rewrite union_list_app_L. simpl. by rewrite !(right_id_L ∅ (∪)).
Qed.

(** When all goroutines but the daemons have ended, no token is held. *)
Lemma ended_no_token sys hs ts :
  Forall2 safe_thread hs ts → no_daemon_holds sys hs ts →
  Forall (λ p, p = Ret tt) (drop (length (daemons sys)) ts) → ⋃ hs = ∅.
Proof.
  intros Hsafe Hd He. apply set_eq. intros t. split; [|set_solver].
  intros (i & h & Hh & Ht)%elem_of_held.
  destruct (Forall2_lookup_l _ _ _ _ _ Hsafe Hh) as (p & Hp & Hsp).
  destruct (daemons sys !! i) as [d|] eqn:Hi.
  - destruct (Hd i d Hi) as [Hh' _]. simplify_eq. set_solver.
  - apply lookup_ge_None in Hi. rewrite Forall_lookup in He.
    rewrite (He (i - length (daemons sys)) p) in Hsp; cycle 1.
    { rewrite lookup_drop. by rewrite Nat.add_comm, Nat.sub_add. }
    simpl in Hsp. rewrite Hsp in Ht. by apply elem_of_empty in Ht.
Qed.
End safety.

(** Neutrality of a program from that of its parts: the structure of the
    program, case analysis, and the lemmas of the database for its calls. *)
Create HintDb neutral discriminated.
Ltac solve_neutral :=
  repeat first
    [ progress intros
    | solve [eauto 2 with neutral]
    | apply neutral_ret
    | apply neutral_read
    | apply neutral_bind
    | match goal with |- neutral _ (go _) => apply neutral_go end
    | progress case_match ].

(** A schedule that reaches a configuration with a decidable property. *)
Lemma exec_witness {W E Ans} `{!Env W E Ans} (sys : system W E)
    (its : list (item W E Ans)) w0 (f : list (prog W E unit) * W → bool) :
  Forall (calls sys) (arrivals its) →
  from_option f false (exec sys its (started sys w0)) = true →
  ∃ c, reachable sys w0 c ∧ f c = true.
Proof.
  intros Hc Hf. destruct (exec sys its (started sys w0)) as [c|] eqn:Hx; [|done].
  exists c. split; [|done]. by eapply exec_sound.
Qed.

(** All goroutines have ended. *)
Definition all_ended {W E} (ts : list (prog W E unit)) : bool :=
  forallb (λ t, match t with Ret _ => true | _ => false end) ts.

Lemma all_ended_spec {W E} (ts : list (prog W E unit)) :
  all_ended ts = true → Forall (λ t, t = Ret tt) ts.
Proof.
  unfold all_ended. rewrite forallb_forall, Forall_forall. intros H t Ht.
  apply list_elem_of_In, H in Ht. by destruct t as [[]| | |].
Qed.
