(* ===== verification/Rely.v ===== *)
(** * One goroutine among others

    What a handler does while the other goroutines run: [runs_to R p w h a w']
    says that the program [p], started in the state [w], may return [a] in the
    state [w'] after the actions [h] (the state before and after each one),
    when the others may move the state along [R] before each of its actions.
    [adequacy] connects it to [Sched]: every call that has returned in an
    interleaved execution is such a run, with the actions of its goroutine
    in that execution. [solo] computes a run with one given interference, for
    concrete inputs. *)
From S2P Require Import Prelude Sched.

Section rely.
Context {W : Type} {E : Type → Type} {Ans : Type} `{!Env W E Ans}.

(** Own actions: the states before and after. *)
Abbreviation history := (list (W * W)) (only parsing).

Fixpoint runs_to (R : W → W → Prop) {A : Type} (p : prog W E A) (w : W) (h : history)
    (a : A) (w' : W) : Prop :=
  match p with
  | Ret b => a = b ∧ h = [] ∧ w' = w
  | Atomic f k => ∃ w1 h', R w w1 ∧ h = (w1, (f w1).2) :: h' ∧
      runs_to R (k (f w1).1) (f w1).2 h' a w'
  | Ask e k => ∃ w1 x h', R w w1 ∧ env_ok e w1 x ∧ h = (w1, env_upd e x w1) :: h' ∧
      runs_to R (k x) (env_upd e x w1) h' a w'
  | Spawn c k => ∃ w1 h', R w w1 ∧ h = (w1, w1) :: h' ∧ runs_to R k w1 h' a w'
  end.

Lemma runs_to_bind R {A B : Type} (p : prog W E A) (f : A → prog W E B) w h b w' :
  runs_to R (p ≫= f) w h b w' →
  ∃ h1 h2 a w1, h = h1 ++ h2 ∧ runs_to R p w h1 a w1 ∧ runs_to R (f a) w1 h2 b w'.
Proof.
  unfold mbind, prog_bind. revert w h b w' f.
  induction p as [A a|A X g k IH|A X e k IH|A c _ k IH]; intros w h b w' f; simpl.
  - intros Hf. exists [], h, a, w. done.
  - intros (w1 & h' & HR & -> & Ho). apply IH in Ho as (h1 & h2 & a & w2 & -> & ? & ?).
    exists ((w1, (g w1).2) :: h1), h2, a, w2. eauto 10.
  - intros (w1 & x & h' & HR & Hx & -> & Ho). apply IH in Ho as (h1 & h2 & a & w2 & -> & ? & ?).
    exists ((w1, env_upd e x w1) :: h1), h2, a, w2. eauto 12.
  - intros (w1 & h' & HR & -> & Ho). apply IH in Ho as (h1 & h2 & a & w2 & -> & ? & ?).
    exists ((w1, w1) :: h1), h2, a, w2. eauto 10.
Qed.

(** The first action of a program. *)
Lemma runs_ret R {A : Type} (b : A) w h a w' :
  runs_to R (mret b) w h a w' → a = b ∧ h = [] ∧ w' = w.
Proof. done. Qed.

Lemma runs_atomic R {A X : Type} (f : W → X * W) (k : X → prog W E A) w h a w' :
  runs_to R (atomic f ≫= k) w h a w' →
  ∃ w1 h', R w w1 ∧ h = (w1, (f w1).2) :: h' ∧ runs_to R (k (f w1).1) (f w1).2 h' a w'.
Proof. done. Qed.

Lemma runs_update R {A : Type} (f : W → W) (k : unit → prog W E A) w h a w' :
  runs_to R (update f ≫= k) w h a w' →
  ∃ w1 h', R w w1 ∧ h = (w1, f w1) :: h' ∧ runs_to R (k tt) (f w1) h' a w'.
Proof. done. Qed.

Lemma runs_read R {A X : Type} (f : W → X) (k : X → prog W E A) w h a w' :
  runs_to R (read f ≫= k) w h a w' →
  ∃ w1 h', R w w1 ∧ h = (w1, w1) :: h' ∧ runs_to R (k (f w1)) w1 h' a w'.
Proof. done. Qed.

Lemma runs_ask R {A X : Type} (e : E X) (k : X → prog W E A) w h a w' :
  runs_to R (ask e ≫= k) w h a w' →
  ∃ w1 x h', R w w1 ∧ env_ok e w1 x ∧ h = (w1, env_upd e x w1) :: h' ∧
    runs_to R (k x) (env_upd e x w1) h' a w'.
Proof. done. Qed.

Lemma acts_weaken (S S' : W → W → Prop) {A : Type} (p : prog W E A) :
  (∀ w w', S w w' → S' w w') → acts S p → acts S' p.
Proof.
  intros HS. induction p as [A a|A X g k IH|A X e k IH|A c IHc k IHk]; simpl; [done|..].
  - intros Hp w. destruct (Hp w). eauto.
  - intros Hp w x Hx. destruct (Hp w x Hx). eauto.
  - intros [? ?]. eauto.
Qed.

(** Each action of a program whose actions obey [S] is allowed by [S], and so
    the state moves along [S] when the interference does. *)
Lemma runs_to_acts (R S : W → W → Prop) {A : Type} (p : prog W E A) w h a w' :
  (∀ w, S w w) → (∀ w w', R w w' → rtc S w w') → acts S p → runs_to R p w h a w' →
  rtc S w w' ∧ Forall (λ x, S x.1 x.2 ∧ rtc S w x.1 ∧ rtc S x.2 w') h.
Proof.
  intros HS HR. revert w h.
  induction p as [A b|A X g k IH|A X e k IH|A c _ k IH]; intros w h Hp; simpl in Hp |- *.
  - intros (-> & -> & ->). by split.
  - intros (w1 & h' & H1 & -> & Ho). destruct (Hp w1) as [Hs Hk].
    apply IH in Ho as [Ho Hh]; [|done]. apply HR in H1. split.
    + etrans; [done|]. by eapply rtc_l.
    + constructor; [done|]. eapply Forall_impl; [exact Hh|]. intros x (? & ? & ?).
      split_and!; [done| |done]. etrans; [exact H1|]. by eapply rtc_l.
  - intros (w1 & x & h' & H1 & Hx & -> & Ho). destruct (Hp w1 x Hx) as [Hs Hk].
    apply IH in Ho as [Ho Hh]; [|done]. apply HR in H1. split.
    + etrans; [done|]. by eapply rtc_l.
    + constructor; [done|]. eapply Forall_impl; [exact Hh|]. intros y (? & ? & ?).
      split_and!; [done| |done]. etrans; [exact H1|]. by eapply rtc_l.
  - intros (w1 & h' & H1 & -> & Ho). destruct Hp as [_ Hk].
    apply IH in Ho as [Ho Hh]; [|done]. apply HR in H1. split.
    + by etrans.
    + constructor; [done|]. eapply Forall_impl; [exact Hh|]. intros y (? & ? & ?).
      split_and!; [done| |done]. by etrans.
Qed.

(** ** What a program does itself *)

(** Every action of the program, without those of the goroutines it starts. *)
Fixpoint owns_only (P : W → W → Prop) {A : Type} (p : prog W E A) : Prop :=
  match p with
  | Ret _ => True
  | Atomic f k => ∀ w, P w (f w).2 ∧ owns_only P (k (f w).1)
  | Ask e k => ∀ w x, env_ok e w x → P w (env_upd e x w) ∧ owns_only P (k x)
  | Spawn c k => (∀ w, P w w) ∧ owns_only P k
  end.

Lemma owns_runs (R P : W → W → Prop) {A : Type} (p : prog W E A) w h a w' :
  owns_only P p → runs_to R p w h a w' → Forall (λ x, P x.1 x.2) h.
Proof.
  revert w h. induction p as [A b|A X g k IH|A X e k IH|A c _ k IH]; intros w h Hp; simpl in *.
  - by intros (_ & -> & _).
  - intros (w1 & h' & _ & -> & Ho). destruct (Hp w1). constructor; [done|eauto].
  - intros (w1 & x & h' & _ & Hx & -> & Ho). destruct (Hp w1 x Hx). constructor; [done|eauto].
  - intros (w1 & h' & _ & -> & Ho). destruct Hp. constructor; [done|eauto].
Qed.

Section owns.
Variable P : W → W → Prop.

Lemma owns_ret {A : Type} (a : A) : owns_only P (Ret a).
Proof. done. Qed.

Lemma owns_bind {A B : Type} (p : prog W E A) (f : A → prog W E B) :
  owns_only P p → (∀ a, owns_only P (f a)) → owns_only P (p ≫= f).
Proof.
  intros Hp Hf. unfold mbind, prog_bind.
  induction p as [A a|A X g k IH|A X e k IH|A c _ k IH]; simpl in *; [auto| | |].
  - intros w. split; [apply Hp|apply IH; [apply Hp|done]].
  - intros w x Hx. destruct (Hp w x Hx). split; [done|by apply IH].
  - naive_solver.
Qed.

Lemma owns_go (c : prog W E unit) : (∀ w, P w w) → owns_only P (go c).
Proof. done. Qed.

Lemma owns_atomic {X} (f : W → X * W) : (∀ w, P w (f w).2) → owns_only P (atomic f).
Proof. done. Qed.

Lemma owns_read {X} (f : W → X) : (∀ w, P w w) → owns_only P (read f).
Proof. done. Qed.

Lemma owns_ask {X} (e : E X) :
  (∀ w x, env_ok e w x → P w (env_upd e x w)) → owns_only P (ask e).
Proof. intros He w x Hx. split; [by apply He|done]. Qed.
End owns.

(** ** Computing a run *)

(** A run in which the others do [others], if that is allowed, before each of
    the program's actions. *)
Fixpoint solo (ok : W → bool) (others : W → W) {A : Type} (p : prog W E A) (w0 : W)
    (ans : list Ans) : option (A * list (W * W) * W) :=
  let w := others w0 in
  match p with
  | Ret a => match ans with [] => Some (a, [], w0) | _ => None end
  | Atomic f k =>
      match ans with
      | _ :: ans' =>
          if ok w0 then
            '(a, h, w') ← solo ok others (k (f w).1) (f w).2 ans'; Some (a, (w, (f w).2) :: h, w')
          else None
      | [] => None
      end
  | Ask e k =>
      match ans with
      | y :: ans' =>
          if ok w0 then
            x ← env_read e y w;
            '(a, h, w') ← solo ok others (k x) (env_upd e x w) ans';
            Some (a, (w, env_upd e x w) :: h, w')
          else None
      | [] => None
      end
  | Spawn c k =>
      match ans with
      | _ :: ans' =>
          if ok w0 then '(a, h, w') ← solo ok others k w ans'; Some (a, (w, w) :: h, w') else None
      | [] => None
      end
  end.

Lemma solo_runs (R : W → W → Prop) ok others {A : Type} (p : prog W E A) w ans a h w' :
  (∀ w, ok w = true → R w (others w)) → solo ok others p w ans = Some (a, h, w') →
  runs_to R p w h a w'.
Proof.
  intros HR. revert w ans h.
  induction p as [A b|A X g k IH|A X e k IH|A c _ k IH]; intros w [|y ans] h Hs;
    simplify_eq/=; try done.
  - destruct (ok w) eqn:Ew; [|done].
    destruct (solo ok _ _ _ ans) as [[[a1 h1] w1]|] eqn:E1; simplify_eq/=.
    exists (others w), h1. split_and!; [auto|done|by eapply IH].
  - destruct (ok w) eqn:Ew; [|done].
    destruct (env_read e y _) as [x|] eqn:Ex; simplify_eq/=.
    destruct (solo ok _ _ _ ans) as [[[a1 h1] w1]|] eqn:E1; simplify_eq/=.
    exists (others w), x, h1. split_and!; [auto|by eapply env_read_ok|done|by eapply IH].
  - destruct (ok w) eqn:Ew; [|done].
    destruct (solo ok _ _ _ ans) as [[[a1 h1] w1]|] eqn:E1; simplify_eq/=.
    exists (others w), h1. split_and!; [auto|done|by eapply IH].
Qed.

(** ** Executions and their actions *)

(** An execution with the actions of the goroutines, each with its number and
    the states before and after. *)
Inductive trace (sys : system W E) :
    list (prog W E unit) * W → list (nat * (W * W)) → list (prog W E unit) * W → Prop :=
  | trace_nil c : trace sys c [] c
  | trace_run ts i p w p' w' new tr c :
      ts !! i = Some p → tstep p w p' w' new →
      trace sys (<[i:=p']> ts ++ new, w') tr c →
      trace sys (ts, w) ((i, (w, w')) :: tr) c
  | trace_again ts i d w tr c :
      daemons sys !! i = Some d → ts !! i = Some (Ret tt) → again d w = true →
      trace sys (<[i:=turn d]> ts, w) tr c → trace sys (ts, w) tr c
  | trace_arrive ts w p tr c :
      calls sys p → trace sys (ts ++ [p], w) tr c → trace sys (ts, w) tr c.

Lemma trace_steps sys c c' :
  rtc (step sys) c c' ↔ ∃ tr, trace sys c tr c'.
Proof.
  split.
  - induction 1 as [c|c1 c2 c3 Hs _ [tr IH]]; [exists []; constructor|].
    destruct Hs; eexists; by econstructor.
  - intros [tr Ht]. induction Ht; [done|..]; (eapply rtc_l; [|done]); by econstructor.
Qed.

(** Goroutines that obey [R] do so in every action of an execution. *)
Lemma trace_acts sys (R : W → W → Prop) c tr c' :
  (∀ w, R w w) → system_acts R sys → Forall (acts R) c.1 →
  trace sys c tr c' → Forall (λ x, R x.2.1 x.2.2) tr.
Proof.
  intros HR [Hd Hc] Ha Ht. revert Ha.
  induction Ht as [c|ts i p w p' w' new tr c Hi Hs _ IH|ts i d w tr c Hdi Hi _ _ IH
    |ts w p tr c Hp _ IH]; intros Ha; simpl in *.
  - constructor.
  - assert (acts R p) as Hp by (rewrite Forall_lookup in Ha; by eapply Ha).
    apply (tstep_acts R) in Hs as (Hw & Hp' & Hnew); [|done..].
    constructor; [done|]. apply IH, Forall_app. split; [by apply Forall_insert|done].
  - apply IH, Forall_insert; [done|]. rewrite Forall_lookup in Hd. by eapply Hd.
  - apply IH, Forall_app. split; [done|]. constructor; [by apply Hc|done].
Qed.

(** The actions of goroutine [i]. *)
Definition actions (i : nat) (tr : list (nat * (W * W))) : history :=
  (filter (λ x, x.1 = i) tr).*2.

Lemma tstep_inv p w p' w' new :
  tstep p w p' w' new →
  match p with
  | Ret _ => False
  | Atomic f k => p' = k (f w).1 ∧ w' = (f w).2
  | Ask e k => ∃ x, env_ok e w x ∧ p' = k x ∧ w' = env_upd e x w
  | Spawn c k => p' = k ∧ w' = w
  end.
Proof. intros []; eauto. Qed.

(** One action of a call that has not returned. *)
Lemma call_step (R : W → W → Prop) {A : Type} (p : prog W E A) (q : prog W E unit) w0 w w' new :
  R w0 w → tstep (p ≫= λ _, Ret tt) w q w' new →
  ∃ p', q = (p' ≫= λ _, Ret tt) ∧
    ∀ h a w1, runs_to R p' w' h a w1 → runs_to R p w0 ((w, w') :: h) a w1.
Proof.
  intros HR Ht%tstep_inv. destruct p as [b|X f k|X e k|c k]; simpl in Ht; [done| | |].
  - destruct Ht as [-> ->]. exists (k (f w).1). split; [done|]. simpl. eauto 10.
  - destruct Ht as (x & Hx & -> & ->). exists (k x). split; [done|]. simpl. eauto 10.
  - destruct Ht as [-> ->]. exists k. split; [done|]. simpl. eauto 10.
Qed.

(** The states of an execution satisfy [G] and its actions are moves of [R]:
    then each call that has returned is a run, with the actions that its
    goroutine has made. *)
Lemma adequacy sys (G : W → Prop) (R : W → W → Prop) {A : Type} c tr c' i (p : prog W E A) :
  (∀ w, G w → R w w) → (∀ w1 w2 w3, R w1 w2 → R w2 w3 → R w1 w3) →
  trace sys c tr c' → daemons sys !! i = None →
  G c.2 → Forall (λ x, R x.2.1 x.2.2 ∧ G x.2.2) tr →
  c.1 !! i = Some (p ≫= λ _, Ret tt) → c'.1 !! i = Some (Ret tt) →
  ∃ a w', runs_to R p c.2 (actions i tr) a w'.
Proof.
  intros Hrefl Htrans Ht Hid HG Htr Hp He.
  assert (∀ w0, R w0 c.2 → ∃ a w', runs_to R p w0 (actions i tr) a w') as Hgen; [|by eauto].
  revert p HG Htr Hp.
  induction Ht as [c|ts j q w q' w' new tr c Hj Hs _ IH|ts j d w tr c Hdj Hj _ _ IH
    |ts w q tr c _ _ IH]; intros p HG Htr Hp w0 Hw0; simpl in *.
  - rewrite He in Hp. destruct p; simplify_eq/=. eauto.
  - apply Forall_cons in Htr as [[HR HG'] Htr]. simpl in *.
    pose proof (lookup_lt_Some _ _ _ Hj) as Hlt.
    destruct (decide (j = i)) as [->|Hne].
    + rewrite Hj in Hp. simplify_eq.
      apply (call_step R p q' w0) in Hs as (p' & -> & Hout); [|done].
      destruct (IH He p' HG' Htr) with (w0 := w') as (a & w1 & Ho).
      * rewrite lookup_app_l by (by rewrite length_insert). by rewrite list_lookup_insert_eq.
      * by apply Hrefl.
      * exists a, w1. unfold actions. rewrite filter_cons_True by done. simpl. by apply Hout.
    + unfold actions. rewrite filter_cons_False by done. apply (IH He p); [done..| |by eauto].
      rewrite lookup_app_l by (rewrite length_insert; by eapply lookup_lt_Some).
      by rewrite list_lookup_insert_ne.
  - apply (IH He p); [done..| |done]. rewrite list_lookup_insert_ne; [done|]. congruence.
  - apply (IH He p); [done..| |done]. rewrite lookup_app_l; [done|by eapply lookup_lt_Some].
Qed.
End rely.
Arguments runs_to : simpl never.
