(* ===== verification/Progress.v ===== *)
(** * Programs that end

    Two facts about the goroutines of [Sched]. Without new calls every
    interleaved execution is finite, whatever the environment answers, when each
    daemon begins its turn by taking a piece of work and makes work only for the
    daemons after it ([quiet_finite]): the program of a goroutine is a
    well-founded tree, and a goroutine it starts is a smaller one. And a
    goroutine that is [live] is never stuck ([live_reachable]): it has ended, or
    it can make its next action, or it waits where the program says that it may.
    [live] is a weakest precondition over two kinds of knowledge: what the
    goroutine knew of the state at its last action and what stays true of it
    along [R], and tokens that it holds alone. *)
From S2P Require Import Prelude Sched.

(** ** Executions without arrivals are finite *)

Section finite.
Context {W : Type} {E : Type → Type} {Ans : Type} `{!Env W E Ans}.

Abbreviation goroutine := (prog W E unit).

Lemma goroutine_ind (P : goroutine → Prop) :
  (∀ a, P (Ret a)) →
  (∀ X (f : W → X * W) k, (∀ x, P (k x)) → P (Atomic f k)) →
  (∀ X (e : E X) k, (∀ x, P (k x)) → P (Ask e k)) →
  (∀ c k, P c → P k → P (Spawn c k)) →
  ∀ p, P p.
Proof.
  intros H1 H2 H3 H4. refine (fix F (p : goroutine) := _).
  destruct p as [a|X f k|X e k|c k]; [apply H1|apply H2; intros x; apply F|
    apply H3; intros x; apply F|apply H4; apply F].
Qed.

(** What a goroutine may become in one action, whatever the state. *)
Definition child (p p' : goroutine) (new : list goroutine) : Prop :=
  match p with
  | Ret _ => False
  | Atomic _ k | Ask _ k => ∃ x, p' = k x ∧ new = []
  | Spawn c k => p' = k ∧ new = [c]
  end.

Lemma tstep_child p w p' w' new : tstep p w p' w' new → child p p' new.
Proof. intros []; simpl; eauto. Qed.

(** A step of the goroutines, in any order and whatever the state. *)
Definition next (ts' ts : list goroutine) : Prop :=
  ∃ p p' new rest, ts ≡ₚ p :: rest ∧ child p p' new ∧ ts' ≡ₚ p' :: new ++ rest.

Lemma next_perm ts ts' : ts ≡ₚ ts' → Acc next ts → Acc next ts'.
Proof.
  intros Hp [Ha]. constructor. intros us (p & p' & new & rest & Hts & Hc & Hus).
  apply Ha. exists p, p', new, rest. by rewrite Hp.
Qed.

(** A goroutine beside others whose executions are finite. *)
Definition ends_with_any (p : goroutine) : Prop :=
  ∀ rest, Acc next rest → Acc next (p :: rest).

Lemma ends_children p :
  (∀ p' new, child p p' new → ends_with_any p' ∧ Forall ends_with_any new) → ends_with_any p.
Proof.
  intros Hp rest Hrest. induction Hrest as [rest Hr IH].
  constructor. intros us (q & q' & new & rest' & Hts & Hc & Hus).
  eapply next_perm; [symmetry; exact Hus|].
  assert (q = p ∧ rest ≡ₚ rest' ∨ ∃ r2, rest ≡ₚ q :: r2 ∧ rest' ≡ₚ p :: r2) as [[-> Hr']|(r2 & H1 & H2)].
  { assert (q ∈ p :: rest) as [->|Hq]%elem_of_cons by (rewrite Hts; by left).
    - left. split; [done|]. by apply (inj (cons p)).
    - right. apply elem_of_Permutation in Hq as [r2 H1]. exists r2. split; [done|].
      rewrite H1 in Hts. apply (inj (cons q)). rewrite <- Hts. apply Permutation_swap. }
  - destruct (Hp q' new Hc) as [Hq' Hnew]. apply Hq'.
    apply (next_perm (new ++ rest)); [by rewrite Hr'|].
    clear -Hnew Hr. induction Hnew as [|c new Hc _ IH]; simpl; [by constructor|by apply Hc].
  - apply (next_perm (p :: q' :: new ++ r2)).
    { rewrite H2, <- Permutation_middle. apply Permutation_swap. }
    apply IH. exists q, q', new, r2. done.
Qed.

Lemma all_end p : ends_with_any p.
Proof.
  induction p as [a|X f k IH|X e k IH|c k IHc IHk] using goroutine_ind; apply ends_children;
    intros p' new; simpl; [done|intros (x & -> & ->)..|intros [-> ->]]; eauto.
Qed.

Lemma all_finite ts : Acc next ts.
Proof.
  induction ts as [|p ts IH]; [|by apply all_end].
  constructor. intros us (p & p' & new & rest & Hts & _).
  by apply Permutation_nil_cons in Hts.
Qed.

Lemma insert_next ts i p p' new :
  ts !! i = Some p → child p p' new → next (<[i:=p']> ts ++ new) ts.
Proof.
  intros Hi Hc. pose proof (delete_Permutation ts i p Hi) as Hp.
  exists p, p', new, (delete i ts). split_and!; [done|done|].
  rewrite (Permutation_app_comm new), app_comm_cons. f_equiv.
  rewrite insert_take_drop by (by eapply lookup_lt_Some).
  rewrite delete_take_drop. by rewrite Permutation_middle.
Qed.

(** ** Daemons that wait for work *)

(** The questions by which a daemon takes its work, and how much work there is
    for each daemon. *)
Variable takes : ∀ X, E X → bool.
Variable work : nat → W → nat.
Variable sys : system W E.
Arguments takes {_} _.

(** The action makes no work for the first [n] daemons, and revives none. *)
Definition no_more (n : nat) (w w' : W) : Prop :=
  ∀ j, j < n → work j w' ≤ work j w ∧
    ∀ d, daemons sys !! j = Some d → again d w' = true → again d w = true.

(** In no state do the actions of daemon [i] make work for it or for those
    before it; when it takes work there is less of it, or the daemon has ended
    its last turn; and it starts no goroutine. *)
Fixpoint serves (i : nat) (p : goroutine) : Prop :=
  match p with
  | Ret _ => True
  | Atomic f k => ∀ w, no_more (S i) w (f w).2 ∧ serves i (k (f w).1)
  | Ask e k => ∀ w x, env_ok e w x →
      no_more (S i) w (env_upd e x w) ∧
      (takes e = true → work i (env_upd e x w) < work i w ∨
         ∀ d, daemons sys !! i = Some d → again d (env_upd e x w) = false) ∧
      serves i (k x)
  | Spawn _ _ => False
  end.

Definition takes_work (p : goroutine) : bool :=
  match p with Ask e _ => takes e | _ => false end.

Lemma serves_step i p w p' w' new :
  serves i p → tstep p w p' w' new →
  new = [] ∧ child p p' [] ∧ no_more (S i) w w' ∧ serves i p' ∧
  (takes_work p = true → work i w' < work i w ∨
     ∀ d, daemons sys !! i = Some d → again d w' = false).
Proof.
  intros Hs Ht. pose proof (tstep_child _ _ _ _ _ Ht) as Hc.
  destruct Ht as [X f k w|X e k w x Hx|c k w]; simpl in Hs; [|destruct (Hs w x Hx) as (?&?&?)|done].
  - destruct (Hs w). done.
  - done.
Qed.

(** Parts of a daemon's turn in which it takes no work. *)
Fixpoint works (n : nat) {A : Type} (p : prog W E A) : Prop :=
  match p with
  | Ret _ => True
  | Atomic f k => ∀ w, no_more n w (f w).2 ∧ works n (k (f w).1)
  | Ask e k => takes e = false ∧
      ∀ w x, env_ok e w x → no_more n w (env_upd e x w) ∧ works n (k x)
  | Spawn _ _ => False
  end.

Lemma works_bind n {A B : Type} (p : prog W E A) (f : A → prog W E B) :
  works n p → (∀ a, works n (f a)) → works n (p ≫= f).
Proof.
  intros Hp Hf. unfold mbind, prog_bind.
  induction p as [A a|A X g k IH|A X e k IH|A c _ k _]; simpl in *; [auto|..].
  - intros w. destruct (Hp w). auto.
  - destruct Hp as [He Hp]. split; [done|]. intros w x Hx. destruct (Hp w x Hx). auto.
  - done.
Qed.

Lemma works_serves i (p : goroutine) : works (S i) p → serves i p.
Proof.
  induction p as [a|X f k IH|X e k IH|c k _ _] using goroutine_ind; simpl; [done| | |done].
  - intros Hp w. destruct (Hp w). auto.
  - intros [He Hp] w x Hx. destruct (Hp w x Hx). rewrite He. naive_solver.
Qed.

(** The order in which a daemon moves: its last turn comes last, and before the
    next turn it takes work. *)
Definition turns (d : daemon W E) (p' p : goroutine) : Prop :=
  (child p p' [] ∧ takes_work p = false) ∨ (p = Ret tt ∧ p' = turn d).

Definition moves_on (d : daemon W E) (x' x : bool * goroutine) : Prop :=
  match x'.1, x.1 with
  | false, true => True
  | true, true => turns d x'.2 x.2
  | false, false => child x.2 x'.2 []
  | true, false => False
  end.

Definition less_work (d : daemon W E) (x' x : nat * (bool * goroutine)) : Prop :=
  x'.1 < x.1 ∨ (x'.1 = x.1 ∧ moves_on d x'.2 x.2).

Lemma child_acc p : Acc (λ p' p, child p p' []) p.
Proof.
  induction p as [a|X f k IH|X e k IH|c k _ _] using goroutine_ind; constructor; intros p'; simpl;
    [done|intros (x & -> & _); apply IH..|by intros [_ ?]].
Qed.

Lemma turns_acc d p : takes_work (turn d) = true → Acc (turns d) p.
Proof.
  intros Hd. assert (Acc (turns d) (turn d)) as Ht.
  { constructor. intros p' [[_ Hf]|[He _]]; [congruence|]. by rewrite He in Hd. }
  induction p as [a|X f k IH|X e k IH|c k _ _] using goroutine_ind; constructor;
    intros p' [[Hc _]|[He ->]].
  1: by destruct Hc. 1: exact Ht. 2, 4, 6: discriminate He.
  - destruct Hc as (x & -> & _). apply IH.
  - destruct Hc as (x & -> & _). apply IH.
  - by destruct Hc.
Qed.

Lemma less_work_acc d x : takes_work (turn d) = true → Acc (less_work d) x.
Proof.
  intros Hd. destruct x as [n [b p]]. revert b p.
  induction (lt_wf n) as [n _ IH]. intros b p.
  assert (∀ p, Acc (less_work d) (n, (false, p))) as Hf.
  { intros q. induction (child_acc q) as [q _ IHq]. constructor.
    intros [n' [b' q']] [Hlt|[Heq Hm]]; simpl in *; [by apply IH|subst n'].
    destruct b'; [done|]. by apply IHq. }
  destruct b; [|done]. induction (turns_acc d p Hd) as [q _ IHq]. constructor.
  intros [n' [b' q']] [Hlt|[Heq Hm]]; simpl in *; [by apply IH|subst n'].
  destruct b'; [by apply IHq|done].
Qed.

(** The first daemon for which something changes moves on. *)
Fixpoint progress (ds : list (daemon W E)) (l' l : list (nat * (bool * goroutine))) : Prop :=
  match ds, l', l with
  | d :: ds, x' :: l', x :: l => less_work d x' x ∨ (x' = x ∧ progress ds l' l)
  | _, _, _ => False
  end.

Definition daemons_take : Prop :=
  Forall (λ d, takes_work (turn d) = true) (daemons sys).

Lemma progress_acc ds l : Forall (λ d, takes_work (turn d) = true) ds → Acc (progress ds) l.
Proof.
  intros Hd. revert l. induction Hd as [|d ds Hd _ IH]; intros l.
  { constructor. by intros []. }
  destruct l as [|x l]; [constructor; by intros []|].
  revert l. induction (less_work_acc d x Hd) as [x _ IHx]. intros l.
  induction (IH l) as [l _ IHl]. constructor.
  intros [|x' l'] Hp; [done|]. destruct Hp as [Hx|[-> Hl]]; [by apply IHx|by apply IHl].
Qed.

Fixpoint levels (i : nat) (ds : list (daemon W E)) (ts : list goroutine) (w : W) :
    list (nat * (bool * goroutine)) :=
  match ds, ts with
  | d :: ds, p :: ts => (work i w, (again d w, p)) :: levels (S i) ds ts w
  | _, _ => []
  end.

Lemma levels_progress i0 ds ts w w' i d p p' :
  ds !! i = Some d → ts !! i = Some p →
  (∀ j d, j < i → ds !! j = Some d →
     work (i0 + j) w' ≤ work (i0 + j) w ∧ (again d w' = true → again d w = true)) →
  less_work d (work (i0 + i) w', (again d w', p')) (work (i0 + i) w, (again d w, p)) →
  progress ds (levels i0 ds (<[i:=p']> ts) w') (levels i0 ds ts w).
Proof.
  revert i0 ds ts. induction i as [|i IH]; intros i0 [|e ds] [|q ts] Hd Hp Hj Hl; simplify_eq/=.
  - left. by rewrite Nat.add_0_r in Hl.
  - destruct (Hj 0 e ltac:(lia) eq_refl) as [Hw Ha]. rewrite Nat.add_0_r in Hw.
    apply Nat.lt_eq_cases in Hw as [Hw|Hw]; [by left; left|].
    destruct (again e w') eqn:E1, (again e w) eqn:E2; try (by specialize (Ha eq_refl)).
    2: { left. right. done. }
    all: right; split; [by rewrite Hw|]; assert (∀ k, S i0 + k = i0 + S k) as He by lia;
      apply IH; [done|done| |by rewrite He];
      intros j d' Hlt Hd'; rewrite He; apply (Hj (S j) d'); [lia|done].
Qed.

(** ** Executions without new calls *)

Definition quiet : system W E := System (λ _, False) (daemons sys).

(** The daemons are the first goroutines. *)
Definition daemons_at (c : config) : Prop :=
  ∀ i d, daemons sys !! i = Some d → ∃ p, c.1 !! i = Some p ∧ serves i p.

Definition daemons_serve : Prop := ∀ i d, daemons sys !! i = Some d → serves i (turn d).

Lemma daemons_at_step sys' c c' :
  daemons sys' = daemons sys → daemons_serve → step sys' c c' → daemons_at c → daemons_at c'.
Proof.
  intros Heq Hs Hstep Ha i d Hd. destruct (Ha i d Hd) as (p & Hp & Hsp).
  pose proof (lookup_lt_Some _ _ _ Hp) as Hlt.
  destruct Hstep as [ts j q w q' w' new Hj Ht|ts j e w He Hj _|ts w q _]; simpl in *.
  - rewrite lookup_app_l by (by rewrite length_insert).
    destruct (decide (j = i)) as [->|Hne]; [|by rewrite list_lookup_insert_ne by done; eauto].
    rewrite list_lookup_insert_eq by done. exists q'. split; [done|].
    assert (q = p) as -> by congruence. by apply (serves_step i p w q' w' new).
  - destruct (decide (j = i)) as [->|Hne]; [|by rewrite list_lookup_insert_ne by done; eauto].
    rewrite list_lookup_insert_eq by done. rewrite Heq in He. eauto.
  - rewrite lookup_app_l by done. eauto.
Qed.

Lemma reachable_daemons_at w0 c : daemons_serve → reachable sys w0 c → daemons_at c.
Proof.
  intros Hs Hr. assert (daemons_at (started sys w0)) as H0.
  { intros i d Hd. exists (turn d). simpl. rewrite list_lookup_fmap, Hd. eauto. }
  revert H0. unfold reachable in Hr. induction Hr as [|c1 c2 c3 Hst _ IH]; [done|]. intros H1.
  apply IH. by eapply daemons_at_step.
Qed.

(** A step of a daemon, or of another goroutine. *)
Definition rank (c : config) : list goroutine * list (nat * (bool * goroutine)) :=
  (drop (length (daemons sys)) c.1, levels 0 (daemons sys) c.1 c.2).
Definition lower (r' r : list goroutine * list (nat * (bool * goroutine))) : Prop :=
  next r'.1 r.1 ∨ (r'.1 = r.1 ∧ progress (daemons sys) r'.2 r.2).

Lemma lower_acc r : daemons_take → Acc lower r.
Proof.
  intros Hd. destruct r as [ts l]. revert l. induction (all_finite ts) as [ts _ IH]. intros l.
  induction (progress_acc (daemons sys) l Hd) as [l _ IHl]. constructor.
  intros [ts' l'] [Hn|[He Hp]]; simpl in *; [by apply IH|]. subst ts'. by apply IHl.
Qed.

(** A move of daemon [i]. *)
Lemma daemon_lower i d ts p p' w w' :
  daemons sys !! i = Some d → ts !! i = Some p → no_more i w w' →
  less_work d (work i w', (again d w', p')) (work i w, (again d w, p)) →
  lower (rank (<[i:=p']> ts, w')) (rank (ts, w)).
Proof.
  intros Hd Hp Hn Hl. right. unfold rank. simpl.
  pose proof (lookup_lt_Some _ _ _ Hd) as Hlt. split.
  - rewrite drop_insert_lt by done. done.
  - apply (levels_progress 0 _ _ _ _ i d p); [done|done| |done].
    intros j e Hj He. destruct (Hn j Hj) as [? Ha]. eauto.
Qed.

Lemma step_lower c c' : daemons_at c → step quiet c c' → lower (rank c') (rank c).
Proof.
  intros Ha Hs. destruct Hs as [ts i p w p' w' new Hi Ht|ts i d w Hd Hi Hw|]; [| |done].
  - destruct (daemons sys !! i) as [d|] eqn:Hd.
    + destruct (Ha i d Hd) as (p1 & Hp1 & Hs). simpl in Hp1. simplify_eq.
      destruct (serves_step i p w p' w' new Hs Ht) as (-> & Hc & Hn & _ & Htake).
      rewrite app_nil_r. apply (daemon_lower i d ts p); [done|done|intros j Hj; apply Hn; lia|].
      destruct (Hn i ltac:(lia)) as [Hle Hag]. specialize (Hag d Hd).
      unfold less_work. simpl. apply Nat.lt_eq_cases in Hle as [|He]; [by left|]. right. split; [done|].
      unfold moves_on. simpl. destruct (again d w') eqn:E1, (again d w) eqn:E2; try done.
      * left. split; [done|]. destruct (takes_work p) eqn:E3; [|done].
        destruct (Htake eq_refl) as [?|Hf]; [lia|]. by rewrite (Hf d Hd) in E1.
      * by specialize (Hag eq_refl).
    + left. apply lookup_ge_None in Hd. unfold rank. simpl.
      pose proof (lookup_lt_Some _ _ _ Hi) as Hlt.
      rewrite drop_app_le, drop_insert_ge by (rewrite ?length_insert; lia).
      apply (insert_next _ _ p); [|by eapply tstep_child].
      rewrite lookup_drop. by rewrite Nat.add_comm, Nat.sub_add.
  - apply (daemon_lower i d ts (Ret tt)); [done|done|by intros j _|].
    right. split; [done|]. unfold moves_on. simpl in *. rewrite Hw. by right.
Qed.

(** Whatever the state, an execution without new calls is finite. *)
Theorem quiet_finite w0 c :
  daemons_take → daemons_serve → reachable sys w0 c → Acc (λ c' c, step quiet c c') c.
Proof.
  intros Ht Hs Hr. apply reachable_daemons_at in Hr; [|done].
  pose proof (lower_acc (rank c) Ht) as Ha. remember (rank c) as r eqn:Hrk. revert c Hrk Hr.
  induction Ha as [r _ IH]. intros c -> Hc. constructor. intros c' Hst.
  eapply IH; [by apply step_lower|done|]. by apply (daemons_at_step quiet c).
Qed.
End finite.

(** ** Goroutines that are never stuck *)

Section live.
Context {W : Type} {E : Type → Type} {Ans : Type} `{!Env W E Ans}.
Context {T : Type} `{Countable T}.
(** The invariant of the state and of all tokens, what one action may do to
    the state, and the questions that may remain without answer in the calls and
    the goroutines they start. *)
Variable inv : W → gset T → Prop.
Variable R : W → W → Prop.
Variable waits : ∀ X, E X → W → Prop.
Context `{!PreOrder R}.

(** [live own Q h w p]: a goroutine that holds the tokens [h] and last saw the
    state [w] makes each action of [p] when it comes to it, unless it waits as
    [own] allows, keeps the invariant, and ends with [Q]. *)
Fixpoint live (own : ∀ X, E X → W → Prop) {A : Type} (Q : A → gset T → W → Prop) (h : gset T) (w : W) (p : prog W E A) : Prop :=
  match p with
  | Ret a => Q a h w
  | Atomic f k => ∀ w1 F, R w w1 → h ## F → inv w1 (h ∪ F) →
      ∃ h', h' ## F ∧ inv (f w1).2 (h' ∪ F) ∧ live own Q h' (f w1).2 (k (f w1).1)
  | Ask e k => ∀ w1 F, R w w1 → h ## F → inv w1 (h ∪ F) →
      (own _ e w1 ∨ ∃ x, env_ok e w1 x) ∧
      ∀ x, env_ok e w1 x →
        ∃ h', h' ## F ∧ inv (env_upd e x w1) (h' ∪ F) ∧ live own Q h' (env_upd e x w1) (k x)
  | Spawn c k => ∃ h1 h2, h = h1 ∪ h2 ∧ h1 ## h2 ∧
      live waits (λ _ h _, h = ∅) h1 w c ∧ live own Q h2 w k
  end.

(** Postconditions that stay true. *)
Definition stable {A : Type} (Q : A → gset T → W → Prop) : Prop :=
  ∀ a h w w', R w w' → Q a h w → Q a h w'.

Lemma live_later own {A : Type} (Q : A → gset T → W → Prop) h w w' p :
  stable Q → R w w' → live own Q h w p → live own Q h w' p.
Proof.
  revert own h w w'. induction p as [A a|A X f k IH|A X e k IH|A c IHc k IHk];
    intros own h w w' HQ HR; cbn [live].
  - by apply HQ.
  - intros Hp w1 F H1. apply Hp. by etrans.
  - intros Hp w1 F H1. apply Hp. by etrans.
  - intros (h1 & h2 & -> & Hd & Hc & Hk). exists h1, h2.
    split_and!; [done|done|eapply (IHc _ waits); [by intros ????|done|done]|by eapply IHk].
Qed.

Lemma live_weaken own {A : Type} (Q Q' : A → gset T → W → Prop) h w p :
  (∀ a h w, Q a h w → Q' a h w) → live own Q h w p → live own Q' h w p.
Proof.
  intros HQ. revert h w. induction p as [A a|A X f k IH|A X e k IH|A c _ k IHk];
    intros h w; cbn [live]; [auto| | |].
  - intros Hp w1 F H1 H2 H3. destruct (Hp w1 F H1 H2 H3) as (h' & ? & ? & ?). eauto.
  - intros Hp w1 F H1 H2 H3. destruct (Hp w1 F H1 H2 H3) as [Hx Hk]. split; [done|].
    intros x Hok. destruct (Hk x Hok) as (h' & ? & ? & ?). eauto.
  - intros (h1 & h2 & -> & ? & ? & ?). exists h1, h2. eauto.
Qed.

(** A goroutine that may wait in more states. *)
Lemma live_waits (own own' : ∀ X, E X → W → Prop) {A : Type} (Q : A → gset T → W → Prop) h w p :
  (∀ X (e : E X) w, own X e w → own' X e w) → live own Q h w p → live own' Q h w p.
Proof.
  intros Ho. revert h w. induction p as [A a|A X f k IH|A X e k IH|A c _ k IHk];
    intros h w; cbn [live]; [done| | |].
  - intros Hp w1 F H1 H2 H3. destruct (Hp w1 F H1 H2 H3) as (h' & ? & ? & ?). eauto.
  - intros Hp w1 F H1 H2 H3. destruct (Hp w1 F H1 H2 H3) as [Hx Hk].
    split; [destruct Hx; eauto|].
    intros x Hok. destruct (Hk x Hok) as (h' & ? & ? & ?). eauto.
  - intros (h1 & h2 & -> & ? & ? & ?). exists h1, h2. eauto.
Qed.

Lemma live_bind own {A C : Type} (Q : C → gset T → W → Prop) h w (p : prog W E A)
    (f : A → prog W E C) :
  live own (λ a h' w', live own Q h' w' (f a)) h w p → live own Q h w (p ≫= f).
Proof.
  unfold mbind, prog_bind.
  revert h w. induction p as [A a|A X g k IH|A X e k IH|A c _ k IHk];
    intros h w; cbn [live bind]; [auto| | |].
  - intros Hp w1 F H1 H2 H3. destruct (Hp w1 F H1 H2 H3) as (h' & ? & ? & ?). eauto.
  - intros Hp w1 F H1 H2 H3. destruct (Hp w1 F H1 H2 H3) as [Hx Hk]. split; [done|].
    intros x Hok. destruct (Hk x Hok) as (h' & ? & ? & ?). eauto.
  - intros (h1 & h2 & -> & ? & ? & ?). exists h1, h2. eauto.
Qed.

(** What a goroutine can do now. *)
Definition moves (w : W) (p : prog W E unit) : Prop := ∃ p' w' new, tstep p w p' w' new.
Definition waiting (own : ∀ X, E X → W → Prop) (w : W) (p : prog W E unit) : Prop :=
  match p with Ask e _ => own _ e w | _ => False end.
Definition not_stuck (own : ∀ X, E X → W → Prop) (w : W) (p : prog W E unit) : Prop :=
  p = Ret tt ∨ moves w p ∨ waiting own w p.

Definition live_thread (own : ∀ X, E X → W → Prop) (w : W) (h : gset T) (p : prog W E unit) :
    Prop := live own (λ _ h _, h = ∅) h w p.

(** The goroutines of a list, by their numbers, with their tokens. *)
Definition each (P : nat → gset T → prog W E unit → Prop) (hs : list (gset T))
    (ts : list (prog W E unit)) : Prop :=
  length hs = length ts ∧ ∀ i h p, hs !! i = Some h → ts !! i = Some p → P i h p.

Lemma each_insert P hs ts i h p :
  each P hs ts → P i h p → each P (<[i:=h]> hs) (<[i:=p]> ts).
Proof.
  intros [Hl He] Hp. split; [by rewrite !length_insert|].
  intros j h' p' [(<- & <- & _)|[? Hh]]%list_lookup_insert_Some
    [(? & <- & _)|[? Hq]]%list_lookup_insert_Some; simplify_eq; eauto.
Qed.

Lemma each_snoc P hs ts h p :
  each P hs ts → P (length ts) h p → each P (hs ++ [h]) (ts ++ [p]).
Proof.
  intros [Hl He] Hp. split; [rewrite !length_app; simpl; lia|].
  intros j h' p' [[_ Hh]|[-> <-]]%lookup_snoc_Some [[Hlt Hq]|[Hj <-]]%lookup_snoc_Some;
    [by apply He| | |by rewrite Hl].
  - apply lookup_lt_Some in Hh. lia.
  - lia.
Qed.

Lemma each_weaken P P' hs ts : (∀ i h p, P i h p → P' i h p) → each P hs ts → each P' hs ts.
Proof. intros HP [Hl He]. split; [done|]. eauto. Qed.

Lemma each_lookup P hs ts i p :
  each P hs ts → ts !! i = Some p → ∃ h, hs !! i = Some h ∧ P i h p.
Proof.
  intros [Hl He] Hp. destruct (lookup_lt_is_Some_2 hs i) as [h Hh];
    [rewrite Hl; by eapply lookup_lt_Some|]. eauto.
Qed.

(** Where each goroutine may wait: the daemons have places of their own. *)
Variable may : nat → ∀ X, E X → W → Prop.
Variable sys : system W E.
Hypothesis may_calls : ∀ i, length (daemons sys) ≤ i → may i = waits.
Hypothesis live_turns : ∀ i d, daemons sys !! i = Some d →
  acts R (turn d) ∧ ∀ w, live_thread (may i) w ∅ (turn d).
Hypothesis live_calls : ∀ p, calls sys p → acts R p ∧ ∀ w, live_thread waits w ∅ p.

Definition live_config (c : list (prog W E unit) * W) : Prop :=
  length (daemons sys) ≤ length c.1 ∧
  ∃ hs, each (λ i, live_thread (may i) c.2) hs c.1 ∧ apart hs ∧ inv c.2 (⋃ hs).

Lemma live_thread_later own w w' h p :
  R w w' → live_thread own w h p → live_thread own w' h p.
Proof. intros HR. apply live_later; [by intros ????|done]. Qed.

Lemma live_config_step i ts p w p' w' new :
  ts !! i = Some p → tstep p w p' w' new → R w w' →
  live_config (ts, w) → live_config (<[i:=p']> ts ++ new, w').
Proof.
  intros Hi Hstep HR [Hn (hs & Hlive & Ha & Hinv)]. simpl in *.
  destruct (each_lookup _ _ _ _ _ Hlive Hi) as (h & Hh & Hp).
  pose proof (apart_rest _ _ _ Ha Hh) as Hd.
  pose proof (lookup_lt_Some _ _ _ Hh) as Hlt.
  apply (each_weaken _ (λ i, live_thread (may i) w')) in Hlive;
    [|intros ???; by apply live_thread_later].
  rewrite <- (list_insert_id hs i h Hh), (held_insert i hs h Hlt) in Hinv.
  split; [simpl; rewrite length_app, length_insert; lia|].
  unfold live_thread in Hp. destruct Hstep as [X f k w|X e k w x Hx|c k w]; cbn [live] in Hp.
  - destruct (Hp w _ ltac:(done) Hd Hinv) as (h' & Hd' & Hi' & Hl').
    exists (<[i:=h']> hs). rewrite app_nil_r. split_and!.
    + by apply each_insert.
    + by apply apart_insert.
    + by rewrite held_insert.
  - destruct (Hp w _ ltac:(done) Hd Hinv) as [_ Hk].
    destruct (Hk x Hx) as (h' & Hd' & Hi' & Hl').
    exists (<[i:=h']> hs). rewrite app_nil_r. split_and!.
    + by apply each_insert.
    + by apply apart_insert.
    + by rewrite held_insert.
  - destruct Hp as (h1 & h2 & -> & Hd12 & Hc & Hk).
    destruct (held_split _ _ _ _ Ha Hh Hd12) as [Ha' Heq].
    exists (<[i:=h2]> hs ++ [h1]). split_and!; [|done|].
    + apply each_snoc; [by apply each_insert|]. by rewrite may_calls by (by rewrite length_insert).
    + simpl. by rewrite Heq, <- (list_insert_id hs i _ Hh), (held_insert i hs (h1 ∪ h2)).
Qed.

Lemma live_not_stuck c i p : live_config c → c.1 !! i = Some p → not_stuck (may i) c.2 p.
Proof.
  intros [_ (hs & Hlive & Ha & Hinv)] Hi. destruct c as [ts w]. simpl in *.
  destruct (each_lookup _ _ _ _ _ Hlive Hi) as (h & Hh & Hp).
  pose proof (apart_rest _ _ _ Ha Hh) as Hd.
  rewrite <- (list_insert_id hs i h Hh), held_insert in Hinv by (by eapply lookup_lt_Some).
  unfold live_thread in Hp. destruct p as [[]|X f k|X e k|c k]; cbn [live] in Hp.
  - by left.
  - right; left. eexists _, _, _. constructor.
  - destruct (Hp w _ ltac:(done) Hd Hinv) as [[?|[x Hx]] _]; [by right; right|].
    right; left. eexists _, _, _. by constructor.
  - right; left. eexists _, _, _. constructor.
Qed.

Lemma live_started w0 : inv w0 ∅ → live_config (started sys w0).
Proof.
  intros H0. destruct (no_tokens (T := T) (length (daemons sys))) as [Ha He]. split.
  { simpl. by rewrite length_fmap. }
  exists (replicate (length (daemons sys)) ∅). split_and!; [|done|by rewrite He].
  split; [simpl; by rewrite length_replicate, length_fmap|].
  intros i h p [-> _]%lookup_replicate. simpl. rewrite list_lookup_fmap.
  intros (d & Hd & ->)%fmap_Some. by apply live_turns.
Qed.

(** The method: if the turns of the daemons and the calls are live when they
    begin, whatever the state, then in every reachable configuration no
    goroutine is stuck. *)
Theorem live_reachable w0 c i p :
  inv w0 ∅ → reachable sys w0 c → c.1 !! i = Some p → not_stuck (may i) c.2 p.
Proof.
  intros H0 Hr. apply live_not_stuck.
  assert (Forall (acts R (A:=unit)) (started sys w0).1) as Ha.
  { apply Forall_fmap, Forall_lookup. intros j d Hd. by apply (live_turns j). }
  pose proof (live_started w0 H0) as Hok. unfold reachable in Hr. revert Hok Ha.
  induction Hr as [|? ? ? Hstep _ IH]; [done|]. intros Hok Ha.
  destruct Hstep as [ts j q w q' w' new Hi Ht|ts j d w Hd Hi _|ts w q Hp]; simpl in *; apply IH.
  - assert (acts R q) as Hq by (rewrite Forall_lookup in Ha; by eapply Ha).
    pose proof Ht as (HR & Hq' & Hnew)%(tstep_acts R); [|done..].
    by eapply live_config_step.
  - assert (acts R q) as Hq by (rewrite Forall_lookup in Ha; by eapply Ha).
    pose proof Ht as (HR & Hq' & Hnew)%(tstep_acts R); [|done..].
    apply Forall_app. split; [by apply Forall_insert|done].
  - destruct Hok as [Hn (hs & Hlive & Hap & Hinv)]. split; [simpl; by rewrite length_insert|].
    exists hs. split_and!; [|done..]. simpl in *.
    destruct (each_lookup _ _ _ _ _ Hlive Hi) as (h & Hh & Hq). change (h = ∅) in Hq. subst h.
    rewrite <- (list_insert_id hs j ∅ Hh). apply each_insert; [done|]. by apply live_turns.
  - apply Forall_insert; [done|]. by apply (live_turns j).
  - destruct Hok as [Hn (hs & Hlive & Hap & Hinv)]. simpl in *.
    split; [simpl; rewrite length_app; lia|]. exists (hs ++ [∅]). split_and!.
    + apply each_snoc; [done|]. rewrite may_calls by done. by apply live_calls.
    + apply apart_snoc; [done|]. set_solver.
    + rewrite union_list_app_L. simpl. by rewrite !(right_id_L ∅ (∪)).
  - apply Forall_app. split; [done|]. constructor; [by apply live_calls|constructor].
Qed.
End live.
Arguments live : simpl never.
