(* ===== verification/Calls.v ===== *)
(** * Handlers that call other services

    A gRPC handler of the instance, disk and proxy servers is a value of
    [free]: a sequence of calls to clients (of the process manager, of the SPDK
    service, of an engine), each continued with what the callee answers, that
    ends with a reply or a panic. The calls a handler may make form an event
    type of the component. [eval] runs a handler against given answers and
    records its calls; [disc] is the discipline of clients: opened before it is
    used, closed exactly once on every branch, nothing left open at the end. *)
From S2P Require Import Prelude.

Inductive free (E : Type → Type) (A : Type) : Type :=
  | Pure (a : A)
  | Panic
  | Call {X : Type} (e : E X) (k : X → free E A).
Arguments Pure {_ _} _.
Arguments Panic {_ _}.
Arguments Call {_ _ _} _ _.

Fixpoint fbind {E A B} (m : free E A) (f : A → free E B) : free E B :=
  match m with
  | Pure a => f a
  | Panic => Panic
  | Call e k => Call e (λ x, fbind (k x) f)
  end.

#[export] Instance free_ret E : MRet (free E) := @Pure E.
#[export] Instance free_bind E : MBind (free E) := λ A B f m, fbind m f.

Definition call {E X} (e : E X) : free E X := Call e Pure.

(** A nil pointer that is dereferenced panics. *)
Definition deref {E A} (o : option A) : free E A :=
  match o with Some a => Pure a | None => Panic end.

(** What a program does before a panic leaves it: [cleanup] is run in the place
    of the panic. *)
Fixpoint on_panic {E A} (cleanup p : free E A) : free E A :=
  match p with
  | Pure a => Pure a
  | Panic => cleanup
  | Call e k => Call e (λ x, on_panic cleanup (k x))
  end.

(** [defer]: [close] is run when the rest of the function returns, and while a
    panic of it unwinds the stack, which then goes on. *)
Definition defer {E A X} (close : free E X) (body : free E A) : free E A :=
  x ← on_panic (close;; Panic) body; close;; mret x.

(** A call whose error is the handler's. *)
Definition try {E A B} (m : free E (res A)) (k : A → free E (reply B)) : free E (reply B) :=
  r ← m; match r with Ok a => k a | Err e => mret (fail e) end.

(** A program over some calls, as one over more. *)
Fixpoint lift {E F : Type → Type} {A} (f : ∀ X, E X → F X) (p : free E A) : free F A :=
  match p with
  | Pure a => Pure a
  | Panic => Panic
  | Call e k => Call (f _ e) (λ x, lift f (k x))
  end.

(** ** Running a handler *)

(** An event with its answer type, as an entry of a log of calls. *)
Definition logged (E : Type → Type) : Type := sigT E.
Definition log {E : Type → Type} {X} (e : E X) : logged E := existT X e.

(** The result ([None] for a panic) and the calls, given the answer to each. *)
Fixpoint eval {E A} (o : ∀ X, E X → X) (p : free E A) : option A * list (logged E) :=
  match p with
  | Pure a => (Some a, [])
  | Panic => (None, [])
  | Call e k => let '(r, l) := eval o (k (o _ e)) in (r, log e :: l)
  end.

Lemma eval_bind {E A B} o (m : free E A) (f : A → free E B) :
  eval o (m ≫= f) =
    match eval o m with
    | (Some a, l) => ((eval o (f a)).1, l ++ (eval o (f a)).2)
    | (None, l) => (None, l)
    end.
Proof.
  unfold mbind, free_bind. induction m as [a| |X e k IH]; simpl; [by destruct (eval o (f a))|done|].
  rewrite IH. destruct (eval o (k (o X e))) as [[a|] l]; [|done].
  by destruct (eval o (f a)).
Qed.

(** What a deferred program does, whether the body panics or not. *)
Lemma eval_defer_prog {E A X} o (close : free E X) (body : free E A) :
  eval o (defer close body) =
    (match (eval o close).1 with Some _ => (eval o body).1 | None => None end,
     (eval o body).2 ++ (eval o close).2).
Proof.
  unfold defer. rewrite eval_bind.
  assert (eval o (on_panic (close;; Panic) body) =
    ((eval o body).1, (eval o body).2 ++
       match (eval o body).1 with Some _ => [] | None => (eval o close).2 end)) as ->.
  { induction body as [a| |Y f k IH]; simpl; [done| |].
    - rewrite eval_bind. destruct (eval o close) as [[x|] l]; simpl; by rewrite ?app_nil_r.
    - rewrite IH. by destruct (eval o (k (o Y f))). }
  destruct (eval o body) as [[a|] l]; simpl.
  - rewrite eval_bind, app_nil_r. destruct (eval o close) as [[x|] lc]; simpl; by rewrite ?app_nil_r.
  - by destruct (eval o close) as [[x|] lc].
Qed.

Lemma eval_defer {E A X} o (e : E X) (body : free E A) :
  eval o (defer (call e) body) = ((eval o body).1, (eval o body).2 ++ [log e]).
Proof. by rewrite eval_defer_prog. Qed.

Lemma eval_call {E X} o (e : E X) : eval o (call e) = (Some (o X e), [log e]).
Proof. done. Qed.

(** Running a program on a service with a state of type [S]. *)
Fixpoint exec {E S A} (h : ∀ X, E X → S → X * S) (p : free E A) (s : S) : option A * S :=
  match p with
  | Pure a => (Some a, s)
  | Panic => (None, s)
  | Call e k => let '(x, s') := h _ e s in exec h (k x) s'
  end.

Lemma exec_bind {E S A B} (h : ∀ X, E X → S → X * S) (m : free E A) (f : A → free E B) s :
  exec h (m ≫= f) s =
    match exec h m s with (Some a, s') => exec h (f a) s' | (None, s') => (None, s') end.
Proof.
  unfold mbind, free_bind. revert s. induction m as [a| |X e k IH]; intros s; simpl; [done|done|].
  by destruct (h X e s).
Qed.

(** A call with an answer to it. *)
Definition answered (E : Type → Type) : Type := sigT (λ X, (E X * X)%type).
Definition answer {E : Type → Type} {X} (e : E X) (x : X) : answered E := existT X (e, x).

(** [runs p l r]: the program may make the calls of [l], answered so, and end
    with [r]. The same call may be answered differently at different times. *)
Fixpoint runs {E A} (p : free E A) (l : list (answered E)) (r : option A) : Prop :=
  match p with
  | Pure a => l = [] ∧ r = Some a
  | Panic => l = [] ∧ r = None
  | Call e k => ∃ x l', l = answer e x :: l' ∧ runs (k x) l' r
  end.

Lemma runs_bind {E A B} (m : free E A) (f : A → free E B) l r :
  runs (m ≫= f) l r ↔
    (∃ a l1 l2, l = l1 ++ l2 ∧ runs m l1 (Some a) ∧ runs (f a) l2 r) ∨
    (runs m l None ∧ r = None).
Proof.
  unfold mbind, free_bind. revert l. induction m as [a| |X e k IH]; intros l; simpl.
  - split.
    + intros H. left. by exists a, [], l.
    + by intros [(a0 & l1 & l2 & -> & [-> [= ->]] & Hr)|[[? ?] ?]].
  - split.
    + intros [-> ->]. by right.
    + by intros [(? & ? & ? & ? & [? ?] & ?)|[[-> _] ->]].
  - split.
    + intros (x & l' & -> & H). apply IH in H as [(a & l1 & l2 & -> & H1 & H2)|[H ->]].
      * left. exists a, (answer e x :: l1), l2. split_and!; [done| |done]. by exists x, l1.
      * right. split; [|done]. by exists x, l'.
    + intros [(a & l1 & l2 & -> & (x & l' & -> & H1) & H2)|[(x & l' & -> & H) ->]].
      * exists x, (l' ++ l2). split; [done|]. apply IH. left. by exists a, l', l2.
      * exists x, l'. split; [done|]. apply IH. by right.
Qed.

(** Every call of the program, whatever the answers, satisfies [P]. *)
Fixpoint calls_only {E A} (P : ∀ X, E X → Prop) (p : free E A) : Prop :=
  match p with
  | Pure _ | Panic => True
  | Call e k => P _ e ∧ ∀ x, calls_only P (k x)
  end.

Lemma calls_bind {E A B} P (m : free E A) (f : A → free E B) :
  calls_only P m → (∀ a, calls_only P (f a)) → calls_only P (m ≫= f).
Proof.
  intros Hm Hf. unfold mbind, free_bind.
  induction m as [a| |X e k IH]; simpl in *; naive_solver.
Qed.

Lemma calls_weaken {E A} (P P' : ∀ X, E X → Prop) (p : free E A) :
  (∀ X e, P X e → P' X e) → calls_only P p → calls_only P' p.
Proof. intros HP. induction p; simpl; naive_solver. Qed.

Lemma calls_call {E X} (P : ∀ X, E X → Prop) (e : E X) : P X e → calls_only P (call e).
Proof. intros He. by split. Qed.

Lemma calls_deref {E A} (P : ∀ X, E X → Prop) (o : option A) : calls_only P (deref (E := E) o).
Proof. by destruct o. Qed.

Lemma calls_defer {E A X} (P : ∀ X, E X → Prop) (close : free E X) (body : free E A) :
  calls_only P close → calls_only P body → calls_only P (defer close body).
Proof.
  intros Hc Hb. apply calls_bind; [|intros a; by apply calls_bind].
  induction body as [a| |Y f k IH]; simpl in *; [done|by apply calls_bind|naive_solver].
Qed.

(** What the calls are, they are in every log. *)
Lemma calls_only_eval {E A} (P : ∀ X, E X → Prop) o (p : free E A) :
  calls_only P p → Forall (λ l, P (projT1 l) (projT2 l)) (eval o p).2.
Proof.
  induction p as [a| |X e k IH]; simpl; [by constructor..|].
  intros [He Hk]. specialize (IH (o X e) (Hk _)). destruct (eval o (k (o X e))).
  by constructor.
Qed.

(** ** Clients *)

(** What a call does to the clients, named by [C]: it opens one (if the answer
    says so), closes one, uses one or two, or concerns none. *)
Inductive role (C X : Type) :=
  | Opens (c : C) (opened : X → bool)
  | Closes (c : C)
  | Uses (c : C)
  | UsesBoth (c c' : C)
  | Plain.
Arguments Opens {_ _} _ _.
Arguments Closes {_ _} _.
Arguments Uses {_ _} _.
Arguments UsesBoth {_ _} _ _.
Arguments Plain {_ _}.

Class Roles (E : Type → Type) (C : Type) := role_of : ∀ X, E X → role C X.
Arguments role_of {_ _ _ _} _.

Section discipline.
Context {E : Type → Type} {C : Type} `{!EqDecision C, !Roles E C}.

(** Take one occurrence off. *)
Fixpoint remove_one (c : C) (l : list C) : list C :=
  match l with
  | [] => []
  | c' :: l' => if decide (c = c') then l' else c' :: remove_one c l'
  end.

(** [disc Q cs p]: with the clients [cs] open, [p] uses and closes only open
    clients, and ends with a result, or with a panic, which is [None], and open
    clients that satisfy [Q]. *)
Fixpoint disc {A} (Q : option A → list C → Prop) (cs : list C) (p : free E A) : Prop :=
  match p with
  | Pure a => Q (Some a) cs
  | Panic => Q None cs
  | Call e k =>
      match role_of e with
      | Opens c opened => ∀ x, disc Q (if opened x then c :: cs else cs) (k x)
      | Closes c => c ∈ cs ∧ ∀ x, disc Q (remove_one c cs) (k x)
      | Uses c => c ∈ cs ∧ ∀ x, disc Q cs (k x)
      | UsesBoth c c' => c ∈ cs ∧ c' ∈ cs ∧ ∀ x, disc Q cs (k x)
      | Plain => ∀ x, disc Q cs (k x)
      end
  end.

Lemma disc_bind {A B} (Q : option B → list C → Prop) (m : free E A) (f : A → free E B) cs :
  disc (λ r cs', match r with Some a => disc Q cs' (f a) | None => Q None cs' end) cs m →
  disc Q cs (m ≫= f).
Proof.
  unfold mbind, free_bind. revert cs.
  induction m as [a| |X e k IH]; intros cs; simpl; [done|done|].
  destruct (role_of e); naive_solver.
Qed.

Lemma disc_on_panic {A} (Q : option A → list C → Prop) (cleanup p : free E A) cs :
  disc (λ r cs', match r with Some a => Q (Some a) cs' | None => disc Q cs' cleanup end) cs p →
  disc Q cs (on_panic cleanup p).
Proof.
  revert cs. induction p as [a| |X e k IH]; intros cs; simpl; [done|done|].
  destruct (role_of e); naive_solver.
Qed.

Lemma disc_weaken {A} (Q Q' : option A → list C → Prop) cs (p : free E A) :
  (∀ r cs, Q r cs → Q' r cs) → disc Q cs p → disc Q' cs p.
Proof.
  intros HQ. revert cs. induction p as [a| |X e k IH]; intros cs; simpl; [auto|auto|].
  destruct (role_of e); naive_solver.
Qed.

(** [p] leaves the open clients as they are, given that [c], if any, is open,
    when it returns and when it panics. *)
Definition keeps {A} (c : option C) (p : free E A) : Prop :=
  ∀ cs, (∀ x, c = Some x → x ∈ cs) → disc (λ _ cs', cs' = cs) cs p.

(** A handler that leaves nothing open. *)
Definition tidy {A} (p : free E A) : Prop := keeps None p.

Lemma keeps_pure {A} c (a : A) : keeps c (Pure a).
Proof. by intros cs _. Qed.

Lemma keeps_panic {A} c : keeps c (Panic (A := A)).
Proof. by intros cs _. Qed.

Lemma keeps_bind {A B} c (m : free E A) (f : A → free E B) :
  keeps c m → (∀ a, keeps c (f a)) → keeps c (m ≫= f).
Proof.
  intros Hm Hf cs Hc. apply disc_bind. eapply disc_weaken; [|by apply Hm].
  intros [a|] cs' ->; [by apply Hf|done].
Qed.

Lemma keeps_deref {A} c (o : option A) : keeps c (deref o).
Proof. destruct o; [apply keeps_pure|apply keeps_panic]. Qed.

Lemma keeps_use {X} c (e : E X) : role_of e = Uses c → keeps (Some c) (call e).
Proof. intros He cs Hc. simpl. rewrite He. split; [by apply Hc|done]. Qed.

Lemma keeps_plain {X} c (e : E X) : role_of e = Plain → keeps c (call e).
Proof. intros He cs Hc. simpl. by rewrite He. Qed.

Lemma keeps_try {A B} c (m : free E (res A)) (k : A → free E (reply B)) :
  keeps c m → (∀ a, keeps c (k a)) → keeps c (try m k).
Proof. intros. unfold try. apply keeps_bind; [done|]. intros [a|e]; [done|apply keeps_pure]. Qed.

(** A tidy program may be run while other clients are open. *)
Lemma keeps_tidy {A} c (p : free E A) : tidy p → keeps c p.
Proof. intros Hp cs _. by apply Hp. Qed.

(** Open a client, run the body, close it: the pattern of the handlers, whose
    [defer] closes the client on every path and only logs the error of it. *)
Definition with_client {B} (new : E (res unit)) (close : E (option error))
    (on_error : error → error) (body : free E (reply B)) : free E (reply B) :=
  r ← call new;
  match r with
  | Err e => mret (fail (on_error e))
  | Ok _ => defer (call close) body
  end.

Lemma disc_open {X B} (Q : option B → list C → Prop) (e : E X) k c op cs :
  role_of e = Opens c op → (∀ x, disc Q (if op x then c :: cs else cs) (k x)) →
  disc Q cs (call e ≫= k).
Proof. intros He Hk. unfold call, mbind, free_bind. cbn [fbind disc]. by rewrite He. Qed.

Lemma disc_close {X B} (Q : option B → list C → Prop) (e : E X) k c cs :
  role_of e = Closes c → c ∈ cs → (∀ x, disc Q (remove_one c cs) (k x)) →
  disc Q cs (call e ≫= k).
Proof. intros He Hc Hk. unfold call, mbind, free_bind. cbn [fbind disc]. by rewrite He. Qed.

(** A deferred program that closes what was opened before the body. *)
Lemma disc_defer {A X} (close : free E X) (body : free E A) cs cs1 :
  disc (λ r cs', cs' = cs) cs1 close →
  disc (λ _ cs', cs' = cs1) cs1 body →
  disc (λ _ cs', cs' = cs) cs1 (defer close body).
Proof.
  intros Hc Hb. apply disc_bind, disc_on_panic. eapply disc_weaken; [|exact Hb].
  intros [a|] ? ->; apply disc_bind; (eapply disc_weaken; [|exact Hc]); by intros [x|] ? ->.
Qed.

Lemma with_client_keeps {B} c0 c new close on_error (body : free E (reply B)) :
  role_of new = Opens c (λ r, match r with Ok _ => true | Err _ => false end) →
  role_of close = Closes c →
  (∀ cs, c ∈ cs → disc (λ _ cs', cs' = cs) cs body) →
  keeps c0 (with_client new close on_error body).
Proof.
  intros Hn Hc Hb cs _. unfold with_client. eapply disc_open; [exact Hn|].
  intros [u|e]; [|done]. apply disc_defer; [|apply Hb; set_solver].
  simpl. rewrite Hc. split; [set_solver|]. intros _. by rewrite decide_True.
Qed.

(** A client opened, used for one call or a program that does not panic, and
    closed in the middle of a program, which goes on with what the closing
    answered. *)
Lemma keeps_scope_err {A B} c0 c new close (failed : error → free E B) (body : free E A)
    (k : A → option error → free E B) :
  role_of new = Opens c (λ r, match r with Ok _ => true | Err _ => false end) →
  role_of close = Closes c →
  (∀ cs, c ∈ cs → disc (λ r cs', is_Some r ∧ cs' = cs) cs body) →
  (∀ e, keeps c0 (failed e)) → (∀ a e, keeps c0 (k a e)) →
  keeps c0 (r ← call (new : E (res unit));
            match r with
            | Err e => failed e
            | Ok _ => x ← body; e ← call (close : E (option error)); k x e
            end).
Proof.
  intros Hn Hc Hb Hf Hk cs Hcs. eapply disc_open; [exact Hn|].
  intros [u|e]; [|by apply Hf]. apply disc_bind. eapply disc_weaken; [|apply Hb; set_solver].
  intros [a|] cs' [[] ->]; [|done]. eapply disc_close; [exact Hc|set_solver|].
  intros ce. simpl. rewrite decide_True by done. by apply Hk.
Qed.

Lemma keeps_scope {A B} c0 c new close (failed : error → free E B) (body : free E A)
    (k : A → free E B) :
  role_of new = Opens c (λ r, match r with Ok _ => true | Err _ => false end) →
  role_of close = Closes c →
  (∀ cs, c ∈ cs → disc (λ r cs', is_Some r ∧ cs' = cs) cs body) →
  (∀ e, keeps c0 (failed e)) → (∀ a, keeps c0 (k a)) →
  keeps c0 (r ← call (new : E (res unit));
            match r with
            | Err e => failed e
            | Ok _ => x ← body; (call (close : E (option error));; k x)
            end).
Proof. intros. by apply (keeps_scope_err c0 c new close failed body (λ a _, k a)). Qed.

Lemma with_client_keeps' {B} c0 c new close on_error (body : free E (reply B)) :
  role_of new = Opens c (λ r, match r with Ok _ => true | Err _ => false end) →
  role_of close = Closes c → keeps (Some c) body →
  keeps c0 (with_client new close on_error body).
Proof.
  intros Hn Hc Hb. eapply with_client_keeps; [done..|].
  intros cs Hin. apply Hb. by intros x [= <-].
Qed.

Lemma with_client_tidy {B} c new close on_error (body : free E (reply B)) :
  role_of new = Opens c (λ r, match r with Ok _ => true | Err _ => false end) →
  role_of close = Closes c → keeps (Some c) body →
  tidy (with_client new close on_error body).
Proof. apply with_client_keeps'. Qed.
End discipline.

(** What a handler with a client replies, and its log. *)
Lemma eval_with_client {E : Type → Type} {B} o new close on_error (body : free E (reply B)) :
  eval o (with_client new close on_error body) =
    match o _ new with
    | Err e => (Some (fail (on_error e)), [log new])
    | Ok _ => ((eval o body).1, log new :: (eval o body).2 ++ [log close])
    end.
Proof.
  unfold with_client. rewrite eval_bind, eval_call.
  destruct (o _ new) as [u|e]; [|done]. by rewrite eval_defer.
Qed.

(** The result alone of a handler, call by call. *)
Lemma result_bind {E : Type → Type} {A B} (o : ∀ X, E X → X) (m : free E A) (f : A → free E B) :
  (eval o (m ≫= f)).1 = (eval o m).1 ≫= (λ a, (eval o (f a)).1).
Proof. rewrite eval_bind. by destruct (eval o m) as [[a|] l]. Qed.

Lemma result_step {E : Type → Type} {A B} (o : ∀ X, E X → X) (m : free E A) (f : A → free E B) a :
  (eval o m).1 = Some a → (eval o (m ≫= f)).1 = (eval o (f a)).1.
Proof. intros Hm. by rewrite result_bind, Hm. Qed.

Lemma result_try {E : Type → Type} {X B} (o : ∀ X, E X → X) (e : E (res X)) (k : X → free E (reply B)) x :
  o _ e = Ok x → (eval o (try (call e) k)).1 = (eval o (k x)).1.
Proof. intros He. unfold try. by rewrite result_bind, eval_call, He. Qed.

Lemma result_with_client {E : Type → Type} {B} (o : ∀ X, E X → X) new close on_error (body : free E (reply B)) :
  o _ new = Ok tt →
  (eval o (with_client new close on_error body)).1 = (eval o body).1.
Proof. intros Hn. by rewrite eval_with_client, Hn. Qed.

Lemma calls_with_client {E : Type → Type} {B} (P : ∀ X, E X → Prop) new close on_error
    (body : free E (reply B)) :
  P _ new → P _ close → calls_only P body → calls_only P (with_client new close on_error body).
Proof.
  intros Hn Hc Hb. unfold with_client. apply calls_bind; [by apply calls_call|].
  intros [u|e]; [|done]. apply calls_defer; [by apply calls_call|done].
Qed.

Lemma calls_try {E : Type → Type} {A B} P (m : free E (res A)) (k : A → free E (reply B)) :
  calls_only P m → (∀ a, calls_only P (k a)) → calls_only P (try m k).
Proof. intros. unfold try. apply calls_bind; [done|]. by intros [a|e]. Qed.

(** One step of a proof that a program keeps its connections, or that it makes
    only certain calls: the structure of the program, then case analysis. *)
Ltac keeps_step :=
  first
    [ progress intros
    | apply keeps_pure
    | apply keeps_panic
    | apply keeps_deref
    | apply keeps_use; reflexivity
    | apply keeps_plain; reflexivity
    | assumption
    | apply keeps_bind
    | progress case_match ].
Ltac solve_keeps := repeat keeps_step.

Ltac calls_step :=
  first
    [ progress intros
    | exact I
    | apply calls_deref
    | apply calls_call; done
    | assumption
    | apply calls_bind
    | progress case_match ].
Ltac solve_calls := repeat calls_step.
