(* ===== verification/Grpc.v ===== *)
(** * From a handler to its caller

    What gRPC does to the reply of a handler ([google.golang.org/grpc]:
    [status.FromError] and the end of a unary call), and programs whose calls
    are programs themselves: a client run against the server it calls. *)
From S2P Require Import Prelude Calls.

(** [status.FromError]: the status that is sent for an error. The error of a
    handler is the status itself, wraps one, or has none. *)
Definition FromError (e : error) : error :=
  match e with
  | EStatus c m => EStatus c m
  | _ => EStatus (status_code e) (error_string e)
  end.

(** The caller gets the error if there is one. A nil response is sent as the
    empty message, [empty]. *)
Definition over_grpc {A} (empty : A) (r : reply A) : res A :=
  match r with
  | (_, Some e) => Err (FromError e)
  | (Some a, None) => Ok a
  | (None, None) => Ok empty
  end.

Lemma FromError_code e : status_code (FromError e) = status_code e.
Proof. by destruct e. Qed.
Lemma FromError_idemp e : FromError (FromError e) = FromError e.
Proof. by destruct e. Qed.
Lemma over_grpc_ok {A} (empty a : A) : over_grpc empty (ok a) = Ok a.
Proof. done. Qed.
Lemma over_grpc_fail {A} (empty : A) e : over_grpc empty (fail e) = Err (FromError e).
Proof. done. Qed.

(** A program whose calls are made by programs over other calls. *)
Fixpoint interp {E F : Type → Type} {A} (h : ∀ X, E X → free F X) (p : free E A) : free F A :=
  match p with
  | Pure a => Pure a
  | Panic => Panic
  | Call e k => h _ e ≫= λ x, interp h (k x)
  end.

Section interp.
Context {E F : Type → Type} (h : ∀ X, E X → free F X).

Lemma eval_interp_bind {A B} (o : ∀ X, F X → X) (m : free E A) (f : A → free E B) :
  eval o (interp h (m ≫= f)) = eval o (interp h m ≫= λ a, interp h (f a)).
Proof.
  rewrite eval_bind. unfold mbind at 1, free_bind at 1.
  induction m as [a| |X e k IH]; cbn [fbind interp].
  - simpl. by destruct (eval o (interp h (f a))).
  - done.
  - rewrite !eval_bind. destruct (eval o (h X e)) as [[x|] l]; [|done]. cbn [fst snd].
    rewrite IH. destruct (eval o (interp h (k x))) as [[a|] l']; [|done].
    simpl. by rewrite app_assoc.
Qed.

Lemma eval_interp_call {X} (o : ∀ X, F X → X) (e : E X) :
  eval o (interp h (call e)) = eval o (h X e).
Proof. simpl. rewrite eval_bind. by destruct (eval o (h X e)) as [[x|] l]; simpl; rewrite ?app_nil_r. Qed.

Lemma calls_interp {A} (R : ∀ X, E X → Prop) (P : ∀ X, F X → Prop) (p : free E A) :
  calls_only R p → (∀ X e, R X e → calls_only P (h X e)) → calls_only P (interp h p).
Proof.
  intros Hp Hh. induction p as [a| |X e k IH]; [done..|]. destruct Hp as [He Hk].
  apply calls_bind; [by apply Hh|]. intros x. by apply IH.
Qed.

Lemma keeps_interp {C A} `{!EqDecision C, !Roles F C} (R : ∀ X, E X → Prop) (c : option C)
    (p : free E A) :
  calls_only R p → (∀ X e, R X e → keeps c (h X e)) → keeps c (interp h p).
Proof.
  intros Hp Hh. induction p as [a| |X e k IH]; [apply keeps_pure|apply keeps_panic|].
  destruct Hp as [He Hk]. apply keeps_bind; [by apply Hh|]. intros x. by apply IH.
Qed.
End interp.

(** ** What a program can end with *)

Fixpoint returns {E A} (Q : A → Prop) (p : free E A) : Prop :=
  match p with
  | Pure a => Q a
  | Panic => True
  | Call e k => ∀ x, returns Q (k x)
  end.

Lemma returns_eval {E A} (Q : A → Prop) o (p : free E A) a :
  returns Q p → (eval o p).1 = Some a → Q a.
Proof.
  induction p as [a'| |X e k IH]; simpl; [by intros ? [= ->]|done|].
  intros H. specialize (IH (o X e) (H _)). by destruct (eval o (k (o X e))).
Qed.

Lemma returns_bind {E A B} (R : A → Prop) (Q : B → Prop) (m : free E A) (f : A → free E B) :
  returns R m → (∀ a, R a → returns Q (f a)) → returns Q (m ≫= f).
Proof.
  intros Hm Hf. unfold mbind, free_bind.
  induction m as [a| |X e k IH]; simpl in *; [by apply Hf|done|]. intros x. by apply IH.
Qed.

Lemma returns_any {E A B} (Q : B → Prop) (m : free E A) (f : A → free E B) :
  (∀ a, returns Q (f a)) → returns Q (m ≫= f).
Proof.
  intros Hf. unfold mbind, free_bind.
  induction m as [a| |X e k IH]; simpl in *; [by apply Hf|done|]. intros x. by apply IH.
Qed.

Lemma returns_call {E X} (Q : X → Prop) (e : E X) : (∀ x, Q x) → returns Q (call e).
Proof. intros H. exact H. Qed.

Lemma returns_defer {E A X} (Q : A → Prop) (close : free E X) (body : free E A) :
  returns Q body → returns Q (defer close body).
Proof.
  intros Hb. apply (returns_bind Q).
  - induction body as [a| |Y e k IH]; simpl in *; [done|by apply returns_any|]. intros x. by apply IH.
  - intros a Ha. by apply returns_any.
Qed.

Lemma returns_with_client {E : Type → Type} {B} (Q : reply B → Prop) (new : E (res unit))
    (close : E (option error)) on_error (body : free E (reply B)) :
  (∀ e, Q (fail (on_error e))) → returns Q body →
  returns Q (with_client new close on_error body).
Proof.
  intros He Hb. unfold with_client. apply returns_any. intros [a|e]; [|apply He].
  by apply returns_defer.
Qed.

Lemma returns_try {E : Type → Type} {A B} (Q : reply B → Prop) (m : free E (res A)) k :
  (∀ e, Q (fail e)) → (∀ a, returns Q (k a)) → returns Q (try m k).
Proof. intros He Hk. apply returns_any. intros [a|e]; [apply Hk|apply He]. Qed.

(** The program never panics, and ends with a [Q]. *)
Fixpoint total {E A} (Q : A → Prop) (p : free E A) : Prop :=
  match p with
  | Pure a => Q a
  | Panic => False
  | Call e k => ∀ x, total Q (k x)
  end.

Lemma total_bind {E A B} (R : A → Prop) (Q : B → Prop) (m : free E A) (f : A → free E B) :
  total R m → (∀ a, R a → total Q (f a)) → total Q (m ≫= f).
Proof.
  intros Hm Hf. unfold mbind, free_bind.
  induction m as [a| |X e k IH]; simpl in *; [by apply Hf|done|]. intros x. by apply IH.
Qed.

Lemma total_defer {E A X} (Q : A → Prop) (close : free E X) (body : free E A) :
  total (λ _, True) close → total Q body → total Q (defer close body).
Proof.
  intros Hc Hb. apply (total_bind Q).
  - induction body as [a| |Y e k IH]; simpl in *; [done..|]. intros x. by apply IH.
  - intros a Ha. by apply (total_bind (λ _, True)).
Qed.

Lemma total_with_client {E : Type → Type} {B} (Q : reply B → Prop) (new : E (res unit))
    (close : E (option error)) on_error (body : free E (reply B)) :
  (∀ e, Q (fail (on_error e))) → total Q body → total Q (with_client new close on_error body).
Proof.
  intros He Hb. unfold with_client. apply (total_bind (λ _, True)); [by intros x|].
  intros [a|e] _; [|apply He]. apply total_defer; [by intros x|done].
Qed.

Lemma total_eval {E A} (Q : A → Prop) o (p : free E A) :
  total Q p → ∃ a, (eval o p).1 = Some a ∧ Q a.
Proof.
  induction p as [a| |X e k IH]; simpl; [eauto|done|]. intros H.
  destruct (IH (o X e) (H _)) as (a & Ha & Hq). destruct (eval o (k (o X e))). eauto.
Qed.

(** ** What a program has called when it ends *)

(** After the calls [l] the program never panics, and ends with a result and a
    log that satisfy [Q]. *)
Fixpoint after {E A} (Q : A → list (logged E) → Prop) (p : free E A) (l : list (logged E)) : Prop :=
  match p with
  | Pure a => Q a l
  | Panic => False
  | Call e k => ∀ x, after Q (k x) (l ++ [log e])
  end.

Lemma after_bind {E A B} (R : A → list (logged E) → Prop) (Q : B → list (logged E) → Prop)
    (m : free E A) (f : A → free E B) l :
  after R m l → (∀ a l', R a l' → after Q (f a) l') → after Q (m ≫= f) l.
Proof.
  intros Hm Hf. revert l Hm. unfold mbind, free_bind.
  induction m as [a| |X e k IH]; simpl; intros l Hm; [by apply Hf|done|].
  intros x. by apply IH.
Qed.

Lemma after_weaken {E A} (Q Q' : A → list (logged E) → Prop) (p : free E A) l :
  after Q p l → (∀ a l', Q a l' → Q' a l') → after Q' p l.
Proof.
  intros Hp HQ. revert l Hp.
  induction p as [a| |X e k IH]; simpl; intros l Hp; [by apply HQ|done|]. intros x. by apply IH.
Qed.

Lemma after_call {E X} (Q : X → list (logged E) → Prop) (e : E X) l :
  (∀ x, Q x (l ++ [log e])) → after Q (call e) l.
Proof. intros H. exact H. Qed.

(** [e] is one of the calls. *)
Definition called {E : Type → Type} {X} (e : E X) (l : list (logged E)) : Prop :=
  ∃ l1 l2, l = l1 ++ log e :: l2.

Lemma called_last {E : Type → Type} {X} (e : E X) l : called e (l ++ [log e]).
Proof. by exists l, []. Qed.

Lemma called_app {E : Type → Type} {X} (e : E X) l l' : called e l → called e (l ++ l').
Proof. intros (l1 & l2 & ->). exists l1, (l2 ++ l'). by rewrite <- app_assoc. Qed.

Lemma Forall_last {A} (P : A → Prop) l x : Forall P l → P x → Forall P (l ++ [x]).
Proof. induction 1; simpl; intros; by repeat constructor; auto. Qed.

(** A program over some of the calls, that never panics. *)
Lemma after_lift {E F : Type → Type} {A} (f : ∀ X, E X → F X) (P : logged F → Prop)
    (R : A → Prop) (p : free E A) l :
  (∀ X (e : E X), P (log (f X e))) → total R p → Forall P l →
  after (λ a l', R a ∧ Forall P l' ∧ ∃ l2, l' = l ++ l2) (lift f p) l.
Proof.
  intros HP Ht Hl. cut (∀ l1, (∃ l2, l1 = l ++ l2) → Forall P l1 →
    after (λ a l', R a ∧ Forall P l' ∧ ∃ l2, l' = l ++ l2) (lift f p) l1).
  { intros H. apply H; [|done]. exists []. by rewrite app_nil_r. }
  induction p as [a| |X e k IH]; simpl; intros l1 [l2 ->] Hl1; [eauto|done|].
  intros x. apply IH; [done|exists (l2 ++ [log (f X e)]); by rewrite app_assoc|].
  by apply Forall_last.
Qed.

Lemma after_eval {E A} (Q : A → list (logged E) → Prop) o (p : free E A) :
  after Q p [] → ∃ a, (eval o p).1 = Some a ∧ Q a (eval o p).2.
Proof.
  cut (∀ l, after Q p l → ∃ a, (eval o p).1 = Some a ∧ Q a (l ++ (eval o p).2)).
  { intros H Ha. apply (H []), Ha. }
  induction p as [a| |X e k IH]; simpl; intros l Ha; [|done|].
  - exists a. by rewrite app_nil_r.
  - destruct (IH (o X e) _ (Ha _)) as (a & Hr & Hq). destruct (eval o (k (o X e))) as [r l'].
    exists a. split; [done|]. by rewrite <- app_assoc in Hq.
Qed.
