(* ===== verification/Process.v ===== *)
(** * Processes and the state the process manager shares

    [pkg/process/process.go], [command.go] and the string helpers of
    [pkg/util/util.go]: the [Process] record and what its methods do to it
    under the process lock, the commands of the executor, and the world: the
    manager's map, the processes and commands by address, the port allocator,
    the update channel and the log files. *)
From S2P Require Import Prelude GoStrings Bitmap Sched.

#[local] Open Scope Z_scope.
#[local] Open Scope go_scope.

(** ** Data *)

Inductive State := StateStarting | StateRunning | StateStopping | StateStopped | StateError.

#[export] Instance State_eq_dec : EqDecision State.
Proof. solve_decision. Defined.

Definition state_string (s : State) : string :=
  match s with
  | StateRunning => "running" | StateStarting => "starting" | StateStopped => "stopped"
  | StateStopping => "stopping" | StateError => "error"
  end.

(** Signals by the names the code gives them. *)
Inductive Signal := SIGINT | SIGHUP | SIGKILL.

#[export] Instance Signal_eq_dec : EqDecision Signal.
Proof. solve_decision. Defined.

(** Pointers are indices: of a process in the heap of processes, of a command
    in the list of commands, of a writer in the list of log files. *)
Abbreviation ptr := nat (only parsing).

Record Process := mkProcess {
  Name : string;
  Binary : string;
  Args : list string;
  PortCount : Z;
  PortArgs : list string;
  UUID : string;
  PState : State;
  ErrorMsg : string;
  Conditions : gmap string bool;
  PortStart : Z;
  PortEnd : Z;
  DeletionTimestamp : option Z;
  cmd : option ptr;
  UpdateCh : bool;
  logger : ptr;
}.

#[export] Instance Process_inhabited : Inhabited Process :=
  populate {| Name := ""; Binary := ""; Args := []; PortCount := 0; PortArgs := []; UUID := "";
              PState := StateStarting; ErrorMsg := ""; Conditions := ∅; PortStart := 0;
              PortEnd := 0; DeletionTimestamp := None; cmd := None; UpdateCh := false;
              logger := 0%nat |}.

(** Assignments to fields. *)
Definition with_state (s : State) (e : string) (d : option Z) (p : Process) : Process :=
  {| Name := Name p; Binary := Binary p; Args := Args p; PortCount := PortCount p;
     PortArgs := PortArgs p; UUID := UUID p; PState := s; ErrorMsg := e;
     Conditions := Conditions p; PortStart := PortStart p; PortEnd := PortEnd p;
     DeletionTimestamp := d; cmd := cmd p; UpdateCh := UpdateCh p; logger := logger p |}.
Definition with_ports (s e : Z) (args : list string) (p : Process) : Process :=
  {| Name := Name p; Binary := Binary p; Args := args; PortCount := PortCount p;
     PortArgs := PortArgs p; UUID := UUID p; PState := PState p; ErrorMsg := ErrorMsg p;
     Conditions := Conditions p; PortStart := s; PortEnd := e;
     DeletionTimestamp := DeletionTimestamp p; cmd := cmd p; UpdateCh := UpdateCh p;
     logger := logger p |}.
Definition with_chan (c : option ptr) (u : bool) (cs : gmap string bool) (p : Process) : Process :=
  {| Name := Name p; Binary := Binary p; Args := Args p; PortCount := PortCount p;
     PortArgs := PortArgs p; UUID := UUID p; PState := PState p; ErrorMsg := ErrorMsg p;
     Conditions := cs; PortStart := PortStart p; PortEnd := PortEnd p;
     DeletionTimestamp := DeletionTimestamp p; cmd := c; UpdateCh := u; logger := logger p |}.

Definition set_state (s : State) (p : Process) : Process :=
  with_state s (ErrorMsg p) (DeletionTimestamp p) p.
Definition set_error (msg : string) (p : Process) : Process :=
  with_state StateError msg (DeletionTimestamp p) p.
Definition set_cmd (c : ptr) (p : Process) : Process :=
  with_chan (Some c) (UpdateCh p) (Conditions p) p.
Definition set_update_ch (p : Process) : Process := with_chan (cmd p) true (Conditions p) p.
Definition set_condition (k : string) (b : bool) (p : Process) : Process :=
  with_chan (cmd p) (UpdateCh p) (<[k := b]> (Conditions p)) p.

(** An operating-system process run through [exec.Cmd]: [Process] is set when
    it has been started, [ProcessState] when it has been waited for. *)
Record BinaryCommand := mkCommand {
  Path : string;
  CmdArgs : list string;
  Pdeathsig : Signal;
  CmdProcess : bool;
  CmdProcessState : bool;
  CmdOutput : option ptr;
  signals : list Signal;
}.

#[export] Instance BinaryCommand_inhabited : Inhabited BinaryCommand :=
  populate {| Path := ""; CmdArgs := []; Pdeathsig := SIGKILL; CmdProcess := false;
              CmdProcessState := false; CmdOutput := None; signals := [] |}.

Definition with_cmd (pr st : bool) (out : option ptr) (sigs : list Signal)
    (c : BinaryCommand) : BinaryCommand :=
  {| Path := Path c; CmdArgs := CmdArgs c; Pdeathsig := Pdeathsig c; CmdProcess := pr;
     CmdProcessState := st; CmdOutput := out; signals := sigs |}.

(** The command [NewBinaryCommand] makes of a resolved binary. *)
Definition new_command (path : string) (args : list string) : BinaryCommand :=
  {| Path := path; CmdArgs := args; Pdeathsig := SIGKILL; CmdProcess := false;
     CmdProcessState := false; CmdOutput := None; signals := [] |}.

(** Methods of [BinaryCommand], each under its own lock. *)
Definition SetOutput (l : ptr) (c : BinaryCommand) : BinaryCommand :=
  with_cmd (CmdProcess c) (CmdProcessState c) (Some l) (signals c) c.
Definition IsRunning (c : BinaryCommand) : bool := CmdProcess c && negb (CmdProcessState c).
Definition CmdStopWithSignal (s : Signal) (c : BinaryCommand) : BinaryCommand :=
  if CmdProcess c then
    with_cmd true (CmdProcessState c) (CmdOutput c) (signals c ++ [s]) c
  else c.
Definition Kill (c : BinaryCommand) : BinaryCommand := CmdStopWithSignal SIGKILL c.

(** ** Requests and responses *)

Record ProcessSpec := mkSpec {
  SName : string; SBinary : string; SArgs : list string; SPortCount : Z;
  SPortArgs : list string;
}.
Record ProcessStatus := mkStatus {
  StState : string; StErrorMsg : string; StPortStart : Z; StPortEnd : Z;
  StConditions : gmap string bool; StUuid : string;
}.
Record ProcessResponse := mkResponse {
  Spec : ProcessSpec; Status : ProcessStatus; Deleted : bool;
}.

(** The [Process] that [ProcessCreate] and [ProcessReplace] build. *)
Definition new_process (spec : ProcessSpec) (uuid : string) (l : ptr) : Process :=
  {| Name := SName spec; Binary := SBinary spec; Args := SArgs spec;
     PortCount := SPortCount spec; PortArgs := SPortArgs spec; UUID := uuid;
     PState := StateStarting; ErrorMsg := ""; Conditions := ∅; PortStart := 0; PortEnd := 0;
     DeletionTimestamp := None; cmd := None; UpdateCh := false; logger := l |}.

(** [Process.RPCResponse], with a copy of the conditions. *)
Definition RPCResponse (p : Process) : ProcessResponse :=
  {| Spec := {| SName := Name p; SBinary := Binary p; SArgs := Args p;
                SPortCount := PortCount p; SPortArgs := PortArgs p |};
     Status := {| StState := state_string (PState p); StErrorMsg := ErrorMsg p;
                  StPortStart := PortStart p; StPortEnd := PortEnd p;
                  StConditions := Conditions p; StUuid := UUID p |};
     Deleted := false |}.
Definition mark_deleted (d : bool) (r : ProcessResponse) : ProcessResponse :=
  {| Spec := Spec r; Status := Status r; Deleted := d || Deleted r |}.

Definition IsStopped (p : Process) : bool :=
  bool_decide (PState p = StateStopped ∨ PState p = StateError).

(** [types.WaitCount] and [types.WaitInterval], in nanoseconds. *)
Definition WaitCount : nat := 600.
Definition WaitInterval : Z := 100 * 1000000.

(** The critical section of [StopWithSignal] at the time [now]: the process
    after it, and [needStop], [needTimeoutKill], [needCloseLogger]. *)
Definition stop_section (now : Z) (p : Process) : bool * bool * bool * Process :=
  let needStop := negb (bool_decide (PState p = StateStopping ∨ PState p = StateStopped
                                     ∨ PState p = StateError)) in
  let p' := if needStop then with_state StateStopping (ErrorMsg p) (Some now) p else p in
  let needTimeoutKill :=
    match DeletionTimestamp p' with
    | Some t => negb needStop &&
        bool_decide (t + WaitInterval * Z.of_nat WaitCount < now)
    | None => false
    end in
  let needCloseLogger :=
    negb needStop && negb needTimeoutKill && bool_decide (DeletionTimestamp p' = None) &&
    bool_decide (PState p' = StateStopped ∨ PState p' = StateError) in
  (needStop, needTimeoutKill, needCloseLogger, p').

(** ** Names *)

(** [util.GetURL]: [net.JoinHostPort] puts a host with a colon in brackets. *)
Definition GetURL (host : string) (port : Z) : string :=
  if contains ":" host then "[" +:+ host +:+ "]:" +:+ itoa port
  else host +:+ ":" +:+ itoa port.

(** The regular expression [.+?-e-[^-]*$] finds a match: the name ends in
    [-e-] and a part without dash, after at least one character that is not a
    newline. *)
Definition IsEngineProcess (name : string) : bool :=
  match rev (split "-" name) with
  | _ :: "e" :: rest =>
      match rev_string (join "-" (rev rest)) EmptyString with
      | EmptyString => false
      | String a _ => negb (bool_decide (a = ascii_of_nat 10))
      end
  | _ => false
  end.

(** [util.ProcessNameToVolumeName]: all but the last two dash-separated parts;
    [None] where slicing panics. *)
Definition ProcessNameToVolumeName (name : string) : option string :=
  let parts := split "-" name in
  if bool_decide (2 ≤ length parts)%nat
  then Some (join "-" (take (length parts - 2) parts)) else None.

(** A mount point ([k8s.io/mount-utils]): its path and options. *)
Record MountPoint := mkMount { MPath : string; MOpts : list string }.

(** [go-common-libs/kubernetes.IsMountPointReadOnly]. *)
Definition IsMountPointReadOnly (mp : MountPoint) : bool :=
  existsb (λ o, bool_decide (o = "ro" ∨ o = "emergency_ro")) (MOpts mp).

(** [util.IsMountPointReadOnly], which knows one option less. *)
Definition util_IsMountPointReadOnly (mp : MountPoint) : bool :=
  existsb (λ o, bool_decide (o = "ro")) (MOpts mp).

(** [util.GetVolumeNameSHAStrFromPath]; [None] where indexing panics. *)
Definition GetVolumeNameSHAStrFromPath (path : string) : option string :=
  let parts := split "/" path in
  if bool_decide (2 ≤ length parts)%nat then parts !! (length parts - 2)%nat else None.

(** [util.GetVolumeMountPointMap] of the mount points listed: those whose path
    has [/globalmount] at its end, by the path element before it. *)
Definition GetVolumeMountPointMap (mps : list MountPoint) : gmap string MountPoint :=
  fold_left (λ m mp,
    if has_suffix (MPath mp) "/globalmount" then
      match GetVolumeNameSHAStrFromPath (MPath mp) with
      | Some sha => <[sha := mp]> m
      | None => m
      end
    else m) mps ∅.
