(* ===== verification/ProxyEnv.v ===== *)
(** * The environment of a backup

    [pkg/proxy/env_allowlist.go] and [setEnv] of [pkg/proxy/backup.go]: the
    environment variables a caller of the proxy may set in the process of the
    instance manager. The environment is the state [os.Setenv] changes. *)
From S2P Require Import Prelude GoStrings Calls.

Definition NUL : ascii := "000"%char.
Definition EQ : string := "=".

(** ** The allow list *)

Definition backupEnvAllowlist : list string :=
  ["AWS_ACCESS_KEY_ID"; "AWS_SECRET_ACCESS_KEY"; "AWS_ENDPOINTS"; "AWS_CERT";
   "VIRTUAL_HOSTED_STYLE"; "AWS_SIGN_ACCEPT_ENCODING"; "CIFS_USERNAME"; "CIFS_PASSWORD";
   "AZBLOB_ACCOUNT_NAME"; "AZBLOB_ACCOUNT_KEY"; "AZBLOB_ENDPOINT"; "AZBLOB_CERT";
   "HTTPS_PROXY"; "HTTP_PROXY"; "NO_PROXY"].

Definition isBackupEnvAllowed (key : string) : bool := bool_decide (key ∈ backupEnvAllowlist).

Fixpoint validateBackupEnv (envs : list string) : option error :=
  match envs with
  | [] => None
  | env :: envs' =>
      match cut EQ env with
      | None => Some (EPlain ("malformed env entry " +:+ quote env +:+ ": expected KEY=VALUE"))
      | Some (key, _) =>
          if bool_decide (key = "") then
            Some (EPlain ("malformed env entry " +:+ quote env +:+ ": empty key"))
          else if negb (isBackupEnvAllowed key) then
            Some (EPlain ("env key " +:+ quote key +:+
                          " is not permitted by the backup env allowlist"))
          else validateBackupEnv envs'
      end
  end.

(** ** Setting variables *)

Inductive osE : Type → Type :=
  | Setenv (key value : string) : osE (option error).

Abbreviation environ := (gmap string string).

(** [os.Setenv]: [EINVAL] for a key that is empty or holds [=] or a NUL, and for
    a value that holds a NUL. *)
Definition os_handle (X : Type) (e : osE X) (m : environ) : X * environ :=
  match e in osE X return X * environ with
  | Setenv key value =>
      if bool_decide (key = "") || contains "=" key || contains NUL key || contains NUL value
      then (Some (EPlain "setenv: invalid argument"), m)
      else (None, <[key := value]> m)
  end.

Fixpoint set_all (envs : list string) : free osE (option error) :=
  match envs with
  | [] => mret None
  | env :: envs' =>
      match cut EQ env with
      | None =>
          mret (Some (EPlain ("invalid environment entry " +:+ quote env +:+
                              ": expected KEY=VALUE")))
      | Some (key, value) =>
          e ← call (Setenv key value);
          match e with Some e => mret (Some e) | None => set_all envs' end
      end
  end.

Definition setEnv (envs : list string) : free osE (option error) :=
  match validateBackupEnv envs with
  | Some e => mret (Some e)
  | None => set_all envs
  end.

(** ** Properties *)

Definition entry (key value : string) : string := key +:+ "=" +:+ value.

(** An entry that the list lets through. *)
Definition permitted (env : string) : Prop :=
  ∃ key value, cut EQ env = Some (key, value) ∧ key ∈ backupEnvAllowlist.

(** The last value that the entries give to a key. *)
Definition given (envs : list string) (key : string) : option string :=
  foldl (λ acc env, match cut EQ env with
                    | Some (k, v) => if decide (k = key) then Some v else acc
                    | None => acc
                    end) None envs.

Definition storable (env : string) : Prop :=
  ∀ key value, cut EQ env = Some (key, value) → contains NUL value = false.

Lemma cut_entry key value : contains "=" key = false → cut EQ (entry key value) = Some (key, value).
Proof. intros H. by apply cut_char_spec. Qed.

(** The keys of the list can all be set. *)
Lemma allowed_key key :
  key ∈ backupEnvAllowlist →
  bool_decide (key = "") || contains "=" key || contains NUL key = false.
Proof.
  intros H. unfold backupEnvAllowlist in H.
  repeat (apply elem_of_cons in H as [->|H]; [reflexivity|]). by apply elem_of_nil in H.
Qed.

Lemma validate_permitted envs : validateBackupEnv envs = None ↔ Forall permitted envs.
Proof.
  induction envs as [|env envs IH]; simpl; [done|].
  rewrite Forall_cons. unfold permitted at 1. destruct (cut EQ env) as [[k v]|] eqn:Hc.
  - case_bool_decide as He; [subst k|].
    { split; [done|]. intros [(? & ? & [= <- <-] & H) _]. by apply allowed_key in H. }
    unfold isBackupEnvAllowed. case_bool_decide as Ha; simpl; [rewrite IH; naive_solver|].
    split; [done|]. naive_solver.
  - split; [done|]. naive_solver.
Qed.

Lemma handle_allowed key value m :
  key ∈ backupEnvAllowlist →
  os_handle _ (Setenv key value) m =
    if contains NUL value then (Some (EPlain "setenv: invalid argument"), m)
    else (None, <[key := value]> m).
Proof. intros H. simpl. by rewrite allowed_key. Qed.

(** One entry of the loop. *)
Lemma exec_set_all env envs key value m :
  cut EQ env = Some (key, value) → key ∈ backupEnvAllowlist →
  exec os_handle (set_all (env :: envs)) m =
    if contains NUL value then (Some (Some (EPlain "setenv: invalid argument")), m)
    else exec os_handle (set_all envs) (<[key := value]> m).
Proof.
  intros Hc Hk. cbn [set_all]. rewrite Hc. unfold call, mbind, free_bind. cbn [fbind exec].
  rewrite handle_allowed by done. by destruct (contains NUL value).
Qed.

(** C3: a caller of the proxy cannot set a variable that is not on the allow
    list. Whatever the entries of a request, and whether it succeeds or fails,
    every other variable of the process keeps its value; the loader variables
    are among those. *)
Theorem setEnv_confined (envs : list string) (m : environ) (key : string) :
  key ∉ backupEnvAllowlist →
  (exec os_handle (setEnv envs) m).2 !! key = m !! key ∧
  Forall (λ k, k ∉ backupEnvAllowlist) ["LD_PRELOAD"; "LD_LIBRARY_PATH"; "LD_AUDIT"; "PATH"].
Proof.
  intros Hk. split; [|by apply (bool_decide_unpack _)].
  unfold setEnv. destruct (validateBackupEnv envs) eqn:Hv; [done|].
  apply validate_permitted in Hv. revert m.
  induction Hv as [|env envs (k & v & Hc & Ha) _ IH]; intros m; [done|].
  rewrite (exec_set_all _ _ k v) by done. destruct (contains NUL v); [done|].
  rewrite IH. apply lookup_insert_ne. by intros ->.
Qed.

Theorem setEnv_confined_witness :
  (exec os_handle (setEnv ["AWS_CERT=x"; "LD_PRELOAD=/tmp/a.so"]) ∅).2 !! "LD_PRELOAD" = None.
Proof.
  refine (proj1 (setEnv_confined ["AWS_CERT=x"; "LD_PRELOAD=/tmp/a.so"] ∅ "LD_PRELOAD" _)).
  by apply (bool_decide_unpack _).
Defined.

Lemma given_cons env envs k v key :
  cut EQ env = Some (k, v) →
  given (env :: envs) key =
    match given envs key with
    | Some v' => Some v'
    | None => if decide (k = key) then Some v else None
    end.
Proof.
  intros Hc. unfold given. simpl. rewrite Hc. generalize (if decide (k = key) then Some v else None).
  intros acc. revert acc. induction envs as [|env' envs IH] using rev_ind; intros acc; [done|].
  rewrite !foldl_app. simpl. destruct (cut EQ env') as [[k' v']|]; [|apply IH].
  case_decide; [done|apply IH].
Qed.

(** The entries before the first whose value [os.Setenv] refuses, for it holds a
    NUL byte. *)
Fixpoint before_nul (envs : list string) : list string :=
  match envs with
  | [] => []
  | env :: envs' =>
      match cut EQ env with
      | Some (_, value) => if contains NUL value then [] else env :: before_nul envs'
      | None => env :: before_nul envs'
      end
  end.

(** C39: setting the environment of a request. If any entry is malformed or its
    key is not permitted, the request is refused and the environment stays as
    it is. If all are permitted, each variable gets the last value that the
    entries give it, or else keeps its own; the request succeeds unless a value
    holds a NUL byte: then it fails with [EINVAL] at the first such entry, and
    the entries before that one, and no others, are set. *)
Theorem setEnv_correct (envs : list string) (m : environ) :
  (¬ Forall permitted envs → ∃ e, exec os_handle (setEnv envs) m = (Some (Some e), m)) ∧
  (Forall permitted envs → ∃ m',
     exec os_handle (setEnv envs) m =
       (Some (if decide (before_nul envs = envs) then None
              else Some (EPlain "setenv: invalid argument")), m') ∧
     ∀ key, m' !! key = match given (before_nul envs) key with
                        | Some v => Some v
                        | None => m !! key
                        end).
Proof.
  unfold setEnv. split.
  - intros Hn. destruct (validateBackupEnv envs) as [e|] eqn:Hv; [by exists e|].
    by apply validate_permitted in Hv.
  - intros Hp. destruct (validateBackupEnv envs) eqn:Hv.
    { apply validate_permitted in Hp. by rewrite Hp in Hv. }
    clear Hv. revert m. induction Hp as [|env envs (k & v & Hc & Ha) _ IH]; intros m.
    { by exists m. }
    rewrite (exec_set_all _ _ k v) by done. cbn [before_nul]. rewrite Hc.
    destruct (contains NUL v).
    { exists m. by rewrite decide_False. }
    destruct (IH (<[k := v]> m)) as (m' & -> & Hm'). exists m'. split.
    { repeat case_decide; congruence. }
    intros key. rewrite Hm', (given_cons _ _ k v) by done.
    destruct (given (before_nul envs) key); [done|]. clear IH Hm'. case_decide; subst; by simplify_map_eq.
Qed.

Theorem setEnv_correct_witness :
  (∃ e, exec os_handle (setEnv ["AWS_CERT=x"; "PATH=/tmp"]) ∅ = (Some (Some e), ∅)) ∧
  (∃ m', exec os_handle (setEnv ["NO_PROXY=a"; "NO_PROXY=b"]) ∅ = (Some None, m') ∧
         m' !! "NO_PROXY" = Some "b") ∧
  (∃ e m', exec os_handle (setEnv ["AWS_CERT=x"; entry "NO_PROXY" (String NUL ""); "AWS_CERT=y"]) ∅ =
         (Some (Some e), m') ∧ m' !! "AWS_CERT" = Some "x").
Proof.
  split_and!.
  - apply (setEnv_correct ["AWS_CERT=x"; "PATH=/tmp"] ∅).
    rewrite <- validate_permitted. vm_compute. discriminate.
  - destruct (proj2 (setEnv_correct ["NO_PROXY=a"; "NO_PROXY=b"] ∅)) as (m' & He & Hm).
    + apply validate_permitted. reflexivity.
    + exists m'. split; [exact He|]. by rewrite Hm.
  - destruct (proj2 (setEnv_correct ["AWS_CERT=x"; entry "NO_PROXY" (String NUL ""); "AWS_CERT=y"] ∅))
      as (m' & He & Hm).
    + apply validate_permitted. reflexivity.
    + eexists _, m'. split; [exact He|]. by rewrite Hm.
Defined.

(** The validation does not make [setEnv] atomic. A permitted key whose value
    holds a NUL byte passes it and is refused by [os.Setenv]: the request fails,
    and the entries before it are set. *)
Theorem setEnv_not_atomic (before : list string) (m : environ) (key v : string) :
  Forall permitted before → Forall storable before →
  key ∈ backupEnvAllowlist → contains NUL v = true →
  ∃ m', exec os_handle (setEnv before) m = (Some None, m') ∧
        exec os_handle (setEnv (before ++ [entry key v])) m =
          (Some (Some (EPlain "setenv: invalid argument")), m').
Proof.
  intros Hp Hs Hk Hv.
  assert (contains "=" key = false) as Hq.
  { apply allowed_key in Hk. destruct (contains "=" key); [|done].
    by rewrite orb_true_r in Hk. }
  unfold setEnv.
  rewrite (proj2 (validate_permitted before) Hp).
  rewrite (proj2 (validate_permitted (before ++ [entry key v]))).
  2:{ apply Forall_app; split; [done|]. apply Forall_singleton. exists key, v.
      split; [by apply cut_entry|done]. }
  revert m. induction Hp as [|env envs (k & w & Hc & Ha) _ IH]; intros m.
  { exists m. split; [done|]. cbn [app].
    rewrite (exec_set_all _ _ key v) by (try apply cut_entry; done). by rewrite Hv. }
  apply Forall_cons in Hs as [Hs1 Hs]. cbn [app].
  rewrite !(exec_set_all _ _ k w) by done. rewrite (Hs1 k w) by done. by apply IH.
Qed.

Theorem setEnv_not_atomic_witness :
  ∃ m', exec os_handle (setEnv ["AWS_CERT=x"]) ∅ = (Some None, m') ∧
        exec os_handle (setEnv (["AWS_CERT=x"] ++ [entry "NO_PROXY" (String NUL "")])) ∅ =
          (Some (Some (EPlain "setenv: invalid argument")), m').
Proof.
  apply (setEnv_not_atomic ["AWS_CERT=x"] ∅ "NO_PROXY" (String NUL "")).
  - apply validate_permitted. reflexivity.
  - repeat constructor; intros k v [= <- <-]; reflexivity.
  - by apply (bool_decide_unpack _).
  - reflexivity.
Defined.
