(* ===== verification/Messages.v ===== *)
(** * Messages

    The messages of the services the servers call: the SPDK service's objects
    ([spdkapi], [spdkrpc]), those of the engine of a V1 volume ([enginerpc], the
    [sync] and [types] packages of longhorn-engine), and the ones both share.
    They carry the fields the program reads or writes. Where a message of the
    engine, one of the SPDK service and the proxy's answer have the same fields,
    one record stands for all. Numbers of protobuf enumerations are [Z]: an
    unknown number is a legal value. *)
From S2P Require Import Prelude.

#[local] Open Scope Z_scope.

(** ** Messages of the SPDK service ([spdkapi], [spdkrpc]) *)

Record Replica := mkReplica {
  RName : string; RLvsName : string; RLvsUUID : string; RSpecSize : Z; RActualSize : Z;
  RPortStart : Z; RPortEnd : Z; RState : string; RErrorMsg : string; RUUID : string;
}.
(** A logical volume: a snapshot, or the head of an engine. *)
Record Lvol := mkLvol {
  LvName : string; LvActualSize : Z; LvParent : string; LvChildren : gmap string bool;
  LvCreationTime : string; LvUserCreated : bool; LvSnapshotTimestamp : string;
}.
(** The client makes the maps of an engine, so they are not nil; the head may
    be. *)
Record Engine := mkEngine {
  EName : string; EVolumeName : string; EPort : Z; EState : string; EErrorMsg : string;
  EUUID : string; EReplicaModeMap : gmap string string;
  EReplicaAddressMap : gmap string string; ESpecSize : Z; EFrontend : string;
  EEndpoint : string; EIsExpanding : bool; ELastExpansionError : string;
  ELastExpansionFailedAt : string; ESnapshotMaxCount : Z; EHead : option Lvol;
  ESnapshots : gmap string Lvol;
}.
Record NvmeTcpPath := mkPath {
  TargetIP : string; TargetPort : Z; PEngineName : string; NQN : string; NGUID : string;
  ANAState : string;
}.
Record EngineFrontend := mkFrontend {
  FName : string; FEngineName : string; FTargetPort : Z; FActivePath : string;
  FPreferredPath : string; FPaths : list (option NvmeTcpPath); FFrontend : string;
  FEndpoint : string; FUUID : string; FUblkID : Z; FState : string; FErrorMsg : string;
  FSpecSize : Z; FIsExpanding : bool; FLastExpansionError : string;
  FLastExpansionFailedAt : string;
}.
Record Shard := mkShard {
  ShardID : string; SState : string; SErrorMsg : string; SIP : string; SPort : Z;
  SNvmfNqn : string; SUUID : string;
}.
Record ShardGroup := mkShardGroup {
  GName : string; GVolumeName : string; GProcessState : string; GErrorMsg : string;
  GIp : string; GPort : Z; GNvmfNqn : string; GHeadLvolUuid : string;
}.
Record ShardEndpoint := mkEndpoint { ShAddress : string; ShSlotIndex : Z }.

Record Disk := mkDisk {
  DId : string; DName : string; DUuid : string; DPath : string; DType : string;
  DDriver : string; DTotalSize : Z; DFreeSize : Z; DTotalBlocks : Z; DFreeBlocks : Z;
  DBlockSize : Z; DClusterSize : Z; DState : string; DMessage : string;
}.
Record DiskHealth := mkHealth {
  ModelNumber : string; SerialNumber : string; FirmwareRevision : string; Traddr : string;
  CriticalWarning : Z; TemperatureCelsius : Z; AvailableSparePercentage : Z;
  AvailableSpareThresholdPercentage : Z; PercentageUsed : Z; DataUnitsRead : Z;
  DataUnitsWritten : Z; HostReadCommands : Z; HostWriteCommands : Z; ControllerBusyTime : Z;
  PowerCycles : Z; PowerOnHours : Z; UnsafeShutdowns : Z; MediaErrors : Z;
  NumErrLogEntries : Z; WarningTemperatureTimeMinutes : Z;
  CriticalCompositeTemperatureTimeMinutes : Z;
}.
Record Metrics := mkMetrics {
  ReadThroughput : Z; WriteThroughput : Z; ReadLatency : Z; WriteLatency : Z; ReadIOPS : Z;
  WriteIOPS : Z;
}.

(** A backup's status: the messages of the SPDK service and of an engine's
    replica, [BackupStatusInfo], and the proxy's answer have the same fields. *)
Record BackupStatus := mkBackupStatus {
  BsUrl : string; BsError : string; BsProgress : Z; BsSnapshot : string; BsState : string;
  BsReplica : string;
}.
Record BackupCreated := mkBackupCreated {
  BcBackup : string; BcReplica : string; BcIncremental : bool;
}.
Record BackupCreateRequest := mkBackupCreate {
  BrBackup : string; BrSnapshot : string; BrVolume : string; BrEngine : string;
  BrTarget : string; BrStorageClass : string; BrBackingImage : string;
  BrBackingImageChecksum : string; BrCompression : string; BrLimit : Z;
  BrLabels : list string; BrParameters : gmap string string;
  BrCredential : gmap string string;
}.
(** The status of a restoration, in the engine's and in the SPDK service's
    terms. *)
Record RestoreStatus := mkRestoreStatus {
  RsIsRestoring : bool; RsLastRestored : string; RsCurrent : string; RsProgress : Z;
  RsError : string; RsFilename : string; RsState : string; RsUrl : string;
}.
Record SpdkRestoreStatus := mkSpdkRestoreStatus {
  SrIsRestoring : bool; SrLastRestored : string; SrCurrent : string; SrProgress : Z;
  SrError : string; SrDestFileName : string; SrState : string; SrUrl : string;
}.
Record SpdkRestoreStatuses := mkSpdkRestoreStatuses {
  SrStatus : gmap string SpdkRestoreStatus; SrEngineError : string;
}.
(** An error of the task library with its JSON form; [None] when it has none.
    Errors without exported fields have the form [{}]. *)
Definition task_error : Type := error * option string.

(** ** Messages about volumes *)

(** [types.VolumeInfo] of the engine and [enginerpc.Volume]. *)
Record Volume := mkVolume {
  VoName : string; VoSize : Z; VoReplicaCount : Z; VoEndpoint : string; VoFrontend : string;
  VoFrontendState : string; VoIsExpanding : bool; VoLastExpansionError : string;
  VoLastExpansionFailedAt : string; VoUnmapMarkSnapChainRemoved : bool;
  VoSnapshotMaxCount : Z; VoSnapshotMaxSize : Z;
}.
(** [types.DiskInfo] of the engine and [EngineSnapshotDiskInfo]. *)
Record SnapshotDisk := mkSnapshotDisk {
  SdName : string; SdParent : string; SdChildren : gmap string bool; SdRemoved : bool;
  SdUserCreated : bool; SdCreated : string; SdSize : string; SdLabels : gmap string string;
}.
(** The status of a clone: [sync.SnapshotCloneStatus], the SPDK service's
    [ReplicaSnapshotCloneDstStatus] and [SnapshotCloneStatusResponse]. *)
Record CloneStatus := mkCloneStatus {
  CsIsCloning : bool; CsError : string; CsProgress : Z; CsState : string;
  CsFromReplicaAddress : string; CsSnapshotName : string;
}.
Record PurgeStatus := mkPurgeStatus {
  PsIsPurging : bool; PsError : string; PsProgress : Z; PsState : string;
}.
Record HashStatus := mkHashStatus {
  HsState : string; HsChecksum : string; HsError : string; HsSilentlyCorrupted : bool;
}.
Record RebuildStatus := mkRebuildStatus {
  RbError : string; RbIsRebuilding : bool; RbProgress : Z; RbState : string;
  RbFromReplicaAddressList : list string;
}.
(** The SPDK service's [ReplicaRebuildingStatus]. *)
Record ShallowCopyStatus := mkShallowCopy {
  ScError : string; ScTotalState : string; ScTotalProgress : Z; ScSrcReplicaAddress : string;
}.
Record LinkedCloneSource := mkLinkedClone {
  LcReplicaName : string; LcEngineName : string; LcEngineAddress : string;
}.
Record FileLocalSync := mkLocalSync { SourcePath : string; TargetPath : string }.
Record VersionOutput := mkVersionOutput {
  Version : string; GitCommit : string; BuildDate : string; CLIAPIVersion : Z;
  CLIAPIMinVersion : Z; ControllerAPIVersion : Z; ControllerAPIMinVersion : Z;
  DataFormatVersion : Z; DataFormatMinVersion : Z;
}.
Record BackingImage := mkBackingImage {
  BiName : string; BiBackingImageUUID : string; BiLvsUUID : string; BiSize : Z;
  BiExpectedChecksum : string; BiProgress : Z; BiState : string; BiCurrentChecksum : string;
  BiErrorMsg : string;
}.
