(* ===== verification/Services.v ===== *)
(** * The services the servers call

    The clients that the instance, disk and proxy servers use, as events: the
    process manager ([pmE], through [pkg/client]), the SPDK service ([spdkE],
    through longhorn-spdk-engine's client), the engines and replicas of V1
    volumes ([engineE]), local libraries ([localE]), and the dialling and
    closing of connections. *)
From S2P Require Import Prelude GoStrings Sched Process Calls ProxyEnv Messages.

#[local] Open Scope Z_scope.

(** ** Calls *)

(** A call whose only result is an error. *)
Abbreviation err := (option error).

Inductive pmE : Type → Type :=
  | RpcProcessCreate (spec : ProcessSpec) : pmE (res ProcessResponse)
  | RpcProcessDelete (name uuid : string) : pmE (res ProcessResponse)
  | RpcProcessGet (name : string) : pmE (res ProcessResponse)
  | RpcProcessList : pmE (res (gmap string ProcessResponse))
  | RpcProcessReplace (spec : ProcessSpec) (terminateSignal : string) : pmE (res ProcessResponse)
  (** the lines of the stream, then its end: EOF or an error *)
  | RpcProcessLog (name : string) : pmE (res (list string * err)).

Inductive spdkE : Type → Type :=
  | EngineCreate (name volumeName frontend : string) (specSize : Z)
      (replicaAddressMap : gmap string string) (portCount : Z) (salvageRequested : bool)
      (snapshotMaxCount dataLayoutType : Z) : spdkE (res Engine)
  | EngineFrontendCreate (name volumeName engineName frontend : string) (specSize : Z)
      (targetAddress : string) (ublkQueueDepth ublkNumberOfQueue nvmeTcpNrIoQueues : Z) :
      spdkE (res EngineFrontend)
  | ReplicaCreate (name lvsName lvsUUID : string) (specSize portCount : Z)
      (backingImageName : string) : spdkE (res Replica)
  | ShardCreate (volumeName : string) (slotIndex sizeBytes : Z) (lvsName lvsUUID : string)
      (portCount : Z) : spdkE (res Shard)
  | ShardGroupCreate (name volumeName : string) (specSize dataChunks parityChunks stripSizeKb : Z)
      (shards : gmap string ShardEndpoint) (portCount : Z) (salvageRequested : bool) :
      spdkE (res ShardGroup)
  | EngineDelete (name : string) : spdkE err
  | EngineFrontendDelete (name : string) : spdkE err
  | ReplicaDelete (name : string) (cleanupRequired : bool) : spdkE err
  | ShardDelete (name : string) (cleanupRequired : bool) : spdkE err
  | ShardGroupDelete (name : string) (cleanupRequired : bool) : spdkE err
  | EngineGet (name : string) : spdkE (res Engine)
  | EngineFrontendGet (name : string) : spdkE (res EngineFrontend)
  | ReplicaGet (name : string) : spdkE (res Replica)
  | ShardGet (name : string) : spdkE (res Shard)
  | ShardGroupGet (name : string) : spdkE (res ShardGroup)
  | ReplicaList : spdkE (res (gmap string Replica))
  | EngineList : spdkE (res (gmap string Engine))
  | EngineFrontendList : spdkE (res (gmap string EngineFrontend))
  | ShardList : spdkE (res (gmap string Shard))
  | ShardGroupList : spdkE (res (gmap string ShardGroup))
  | EngineFrontendSuspend (name : string) : spdkE err
  | EngineFrontendResume (name : string) : spdkE err
  | EngineFrontendSwitchOver (name newEngineName newTargetAddress switchoverPhase : string) :
      spdkE err
  | EngineDeleteTarget (name : string) : spdkE err
  | SpdkLogSetLevel (level : string) : spdkE err
  | SpdkLogSetFlags (flags : string) : spdkE err
  | SpdkLogGetFlags : spdkE (res string)
  | SpdkDiskCreate (diskName diskUUID diskPath diskDriver : string) (blockSize : Z) :
      spdkE (res Disk)
  | SpdkDiskGet (diskName diskPath diskDriver : string) : spdkE (res Disk)
  | SpdkDiskDelete (diskName diskUUID diskPath diskDriver : string) : spdkE err
  | SpdkDiskHealthGet (diskName diskPath diskDriver : string) : spdkE (res DiskHealth)
  | SpdkMetricsGet (name : string) : spdkE (res Metrics)
  | EngineBackupCreate (req : BackupCreateRequest) : spdkE (res BackupCreated)
  (** the status may be nil *)
  | EngineBackupStatus (backup engine replica : string) : spdkE (res (option BackupStatus))
  | EngineBackupRestore (url engine : string) (credential : gmap string string) (limit : Z) :
      spdkE (option task_error)
  | EngineRestoreStatus (engine : string) : spdkE (res SpdkRestoreStatuses)
  (** volumes *)
  | EngineFrontendExpand (frontend : string) (size : Z) : spdkE err
  | EngineSnapshotMaxCountSet (engine : string) (count : Z) : spdkE err
  | EngineFrontendReplicaAdd (frontend replica address : string) (fastSync : bool)
      (source : option LinkedCloneSource) : spdkE err
  | EngineReplicaDelete (engine replica address : string) : spdkE err
  | ReplicaRebuildingDstShallowCopyCheck (replica : string) : spdkE (res ShallowCopyStatus)
  | ReplicaRebuildingDstSetQosLimit (replica : string) (limit : Z) : spdkE err
  (** the name of the snapshot *)
  | EngineFrontendSnapshotCreate (frontend snapshot : string) : spdkE (res string)
  | EngineFrontendSnapshotRevert (frontend snapshot : string) : spdkE err
  | EngineFrontendSnapshotPurge (frontend : string) : spdkE err
  | EngineFrontendSnapshotDelete (frontend snapshot : string) : spdkE err
  | EngineSnapshotClone (engine snapshot fromEngine fromAddress : string) (mode : Z)
      (pairs : gmap string string) : spdkE err
  (** the status may be nil *)
  | ReplicaSnapshotCloneDstStatusCheck (replica : string) : spdkE (res (option CloneStatus))
  | EngineSnapshotHash (engine snapshot : string) (rehash : bool) : spdkE err
  | EngineSnapshotHashStatus (engine snapshot : string) : spdkE (res (gmap string HashStatus))
  | BackingImageCreate (name uuid diskUuid : string) (size : Z)
      (checksum fromAddress srcLvsUuid : string) : spdkE (res BackingImage)
  | BackingImageDelete (name diskUuid : string) : spdkE err
  | BackingImageGet (name diskUuid : string) : spdkE (res BackingImage)
  | BackingImageList : spdkE (res (gmap string BackingImage)).

(** A connection: to which service, at which address. *)
Inductive service :=
  | ProcessManagerService
  | SPDKService
  | ControllerService (volume engine : string)
  | ReplicaService (volume instance : string).
#[export] Instance service_eq_dec : EqDecision service.
Proof. solve_decision. Defined.
Definition conn : Type := service * string.

(** Requests to the engine or the replica process at the end of a connection.
    A replica is listed with its address and its mode. *)
Inductive engineE : Type → Type :=
  | ControllerReplicaList : engineE (res (list (string * string)))
  | ReplicaBackupStatus (backup : string) : engineE (res BackupStatus)
  | ControllerVersionDetailGet : engineE (res VersionOutput)
  | ControllerMetricsGet : engineE (res Metrics)
  | ControllerVolumeGet : engineE (res Volume)
  | ControllerVolumeExpand (size : Z) : engineE err
  | ControllerVolumeFrontendStart (frontend : string) : engineE err
  | ControllerVolumeFrontendShutdown : engineE err
  | ControllerVolumeUnmapMarkSnapChainRemovedSet (enabled : bool) : engineE err
  | ControllerVolumeSnapshotMaxCountSet (count : Z) : engineE err
  | ControllerVolumeSnapshotMaxSizeSet (size : Z) : engineE err
  | ControllerVolumeSnapshot (name : string) (labels : gmap string string) (freeze : bool) :
      engineE (res string)
  | ControllerVolumeRevert (snapshot : string) : engineE err
  | ControllerReplicaDelete (address : string) : engineE err
  | ControllerReplicaUpdate (address mode : string) : engineE (res (string * string))
  | ControllerSyncLimitSet (limit : Z) : engineE err
  | ControllerSyncLimitGet : engineE (res Z)
  (** [esync.CloneStatus] *)
  | ControllerCloneStatus (volume : string) : engineE (res (gmap string CloneStatus))
  (** [esync.CloneSnapshot], which uses the source's connection too *)
  | ControllerCloneSnapshot (from : conn) (volume fromVolume snapshot : string)
      (export : bool) (fileSyncTimeout grpcTimeout : Z) : engineE err.

(** A task of [longhorn-engine]'s [sync] package: the address, volume and name
    of the engine. It closes its client when the request ends. *)
Definition task : Type := string * string * string.

(** The methods of a task. *)
Inductive taskE : Type → Type :=
  | CreateBackup (req : BackupCreateRequest) : taskE (res BackupCreated)
  | RestoreBackup (url : string) (credential : gmap string string) (limit : Z)
      (needCorrectEncryptedVolumeSize : bool) : taskE (option task_error)
  | TaskRestoreStatus : taskE (res (gmap string RestoreStatus))
  | AddRestoreReplica (size currentSize : Z) (address name : string) : taskE err
  | AddReplica (size currentSize : Z) (address name : string) (fileSyncTimeout : Z)
      (fastSync : bool) (localSync : option FileLocalSync) (grpcTimeout : Z) : taskE err
  | TaskRebuildStatus : taskE (res (gmap string RebuildStatus))
  | VerifyRebuildReplica (address name : string) : taskE err
  | CancelSnapshotHashJob (address : string) (snapshots : list string) : taskE err
  | PurgeSnapshots (skipIfInProgress : bool) : taskE err
  | PurgeSnapshotStatus : taskE (res (gmap string PurgeStatus))
  | DeleteSnapshot (name : string) : taskE err
  | HashSnapshot (name : string) (rehash : bool) : taskE err
  | HashSnapshotStatus (name : string) : taskE (res (gmap string HashStatus)).

Inductive localE : Type → Type :=
  | NewTask (t : task) : localE (res unit)
  | OnTask (t : task) {X} (e : taskE X) : localE X
  (** [esync.GetSnapshotsInfo] of listed replicas, which asks the replicas *)
  | GetSnapshotsInfo (replicas : list (string * string)) (volume : string) :
      localE (res (gmap string SnapshotDisk))
  (** [butil.GetBackupCredential], which reads the environment *)
  | GetBackupCredential (target : string) : localE (res (gmap string string))
  | CleanUpAllMounts : localE err
  | NewUUID : localE string
  (** the mount points of [util.GetVolumeMountPointMap], a namespace executor,
      and its [mount] of a path with options *)
  | ListMountPoints : localE (res (list MountPoint))
  | NewNamespaceExecutor : localE err
  | NsMount (args : list string) : localE err
  | OS {X} (e : osE X) : localE X.

(** The levels of the logging library, and their names. *)
Inductive Level :=
  | PanicLevel | FatalLevel | ErrorLevel | WarnLevel | InfoLevel | DebugLevel | TraceLevel.

#[export] Instance Level_eq_dec : EqDecision Level.
Proof. solve_decision. Defined.

Definition Level_String (level : Level) : string :=
  match level with
  | TraceLevel => "trace" | DebugLevel => "debug" | InfoLevel => "info" | WarnLevel => "warning"
  | ErrorLevel => "error" | FatalLevel => "fatal" | PanicLevel => "panic"
  end.

Definition ParseLevel (lvl : string) : res Level :=
  if EqualFold lvl "panic" then Ok PanicLevel
  else if EqualFold lvl "fatal" then Ok FatalLevel
  else if EqualFold lvl "error" then Ok ErrorLevel
  else if EqualFold lvl "warn" || EqualFold lvl "warning" then Ok WarnLevel
  else if EqualFold lvl "info" then Ok InfoLevel
  else if EqualFold lvl "debug" then Ok DebugLevel
  else if EqualFold lvl "trace" then Ok TraceLevel
  else Err (EPlain ("not a valid logrus Level: " +:+ quote lvl)).

Inductive callE : Type → Type :=
  | Dial (c : conn) : callE (res unit)
  | Hangup (c : conn) : callE err
  | PM (addr : string) {X} (e : pmE X) : callE X
  | SPDK (addr : string) {X} (e : spdkE X) : callE X
  | Eng (c : conn) {X} (e : engineE X) : callE X
  | Local {X} (e : localE X) : callE X
  (** one attempt to connect to the socket of [spdk_tgt] *)
  | ProbeTgt : callE bool
  (** one message sent to the caller's stream *)
  | SendLine (line : string) : callE err
  (** the log level of this process *)
  | SetLogrusLevel (level : Level) : callE unit
  | GetLogrusLevel : callE Level.

#[export] Instance call_roles : Roles callE conn := λ X e,
  match e in callE X return role conn X with
  | Dial c => Opens c (λ r, match r with Ok _ => true | Err _ => false end)
  | Hangup c => Closes c
  | PM addr _ => Uses (ProcessManagerService, addr)
  | SPDK addr _ => Uses (SPDKService, addr)
  | Eng c q =>
      match q with
      | ControllerCloneSnapshot from _ _ _ _ _ _ => UsesBoth c from
      | _ => Uses c
      end
  | Local _ | ProbeTgt | SendLine _ | SetLogrusLevel _ | GetLogrusLevel => Plain
  end.

Abbreviation handler A := (free callE (reply A)).

(** [grpcstatus.Error(code, errors.Wrapf(err, msg).Error())]. *)
Definition status_wrap (c : code) (msg : string) (e : error) : error :=
  EStatus c (error_string (EWrap msg e)).

(** Reply with a value, or with the error of a call. *)
Definition reply_of {A B} (f : A → B) (r : res A) : reply B :=
  match r with Ok a => ok (f a) | Err e => fail e end.

(** [return &emptypb.Empty{}, nil] unless the call failed. *)
Definition reply_empty (wrap : error → error) (e : err) : reply unit :=
  match e with None => ok tt | Some e => fail (wrap e) end.

(** ** Data engines *)

Definition DATA_ENGINE_V1 : Z := 0.
Definition DATA_ENGINE_V2 : Z := 1.

(** [DataEngine.String]. *)
Definition data_engine_string (e : Z) : string :=
  if bool_decide (e = 0) then "DATA_ENGINE_V1"
  else if bool_decide (e = 1) then "DATA_ENGINE_V2"
  else if bool_decide (e = 2) then "DATA_ENGINE_LOCAL"
  else itoa e.

Definition invalid {B} (msg : string) : handler B := mret (fail (EStatus InvalidArgument msg)).
Definition unimplemented {B} (msg : string) : handler B := mret (fail (EStatus Unimplemented msg)).
(** [s.ops[dataEngine]] and [p.ops[dataEngine]]: the two engines of the table, or the error. *)
Definition dispatch {B} (dataEngine : Z) (v1 v2 : handler B) : handler B :=
  if bool_decide (dataEngine = DATA_ENGINE_V1) then v1
  else if bool_decide (dataEngine = DATA_ENGINE_V2) then v2
  else unimplemented ("unsupported data engine " +:+ data_engine_string dataEngine).

Lemma keeps_dispatch {B} c e (v1 v2 : handler B) :
  keeps c v1 → keeps c v2 → keeps c (dispatch e v1 v2).
Proof. intros. unfold dispatch. repeat case_match; [done..|apply keeps_pure]. Qed.

Lemma dispatch_v1 {B} (v1 v2 : handler B) : dispatch DATA_ENGINE_V1 v1 v2 = v1.
Proof. done. Qed.
Lemma dispatch_v2 {B} (v1 v2 : handler B) : dispatch DATA_ENGINE_V2 v1 v2 = v2.
Proof. done. Qed.
Lemma dispatch_other {B} e (v1 v2 : handler B) :
  e ≠ DATA_ENGINE_V1 → e ≠ DATA_ENGINE_V2 →
  dispatch e v1 v2 = unimplemented ("unsupported data engine " +:+ data_engine_string e).
Proof. intros. unfold dispatch. by rewrite !bool_decide_false. Qed.

Lemma calls_dispatch {B} P e (v1 v2 : handler B) :
  calls_only P v1 → calls_only P v2 → calls_only P (dispatch e v1 v2).
Proof. intros. unfold dispatch. by repeat case_match. Qed.

(** ** The client of the process manager ([pkg/client/process_manager.go]) *)

Definition missing_required : error :=
  EPlain "failed to start process: missing required parameter".

Definition ProcessManagerClient_ProcessCreate (addr name binary : string) (portCount : Z)
    (args portArgs : list string) : free callE (res ProcessResponse) :=
  if bool_decide (name = "" ∨ binary = "") then mret (Err missing_required)
  else call (PM addr (RpcProcessCreate
         {| SName := name; SBinary := binary; SArgs := args; SPortCount := int32 portCount;
            SPortArgs := portArgs |})).

Definition ProcessManagerClient_ProcessDelete (addr name uuid : string) :
    free callE (res ProcessResponse) :=
  if bool_decide (name = "") then
    mret (Err (EPlain "failed to delete process: missing required parameter name"))
  else call (PM addr (RpcProcessDelete name uuid)).

Definition ProcessManagerClient_ProcessGet (addr name : string) :
    free callE (res ProcessResponse) :=
  if bool_decide (name = "") then
    mret (Err (EPlain "failed to get process: missing required parameter name"))
  else call (PM addr (RpcProcessGet name)).

Definition ProcessManagerClient_ProcessList (addr : string) :
    free callE (res (gmap string ProcessResponse)) :=
  r ← call (PM addr RpcProcessList);
  mret (match r with Ok m => Ok m | Err e => Err (EWrap "failed to list processes" e) end).

Definition ProcessManagerClient_ProcessLog (addr name : string) :
    free callE (res (list string * err)) :=
  if bool_decide (name = "") then
    mret (Err (EPlain "failed to get process: missing required parameter name"))
  else
    r ← call (PM addr (RpcProcessLog name));
    mret (match r with
          | Ok s => Ok s
          | Err e => Err (EWrap ("failed to get process log of " +:+ name) e)
          end).

Definition ProcessManagerClient_ProcessReplace (addr name binary : string) (portCount : Z)
    (args portArgs : list string) (terminateSignal : string) :
    free callE (res ProcessResponse) :=
  if bool_decide (name = "" ∨ binary = "") then mret (Err missing_required)
  else if bool_decide (terminateSignal ≠ "SIGHUP") then
    mret (Err (EPlain ("unsupported terminate signal " +:+ terminateSignal)))
  else call (PM addr (RpcProcessReplace
         {| SName := name; SBinary := binary; SArgs := args; SPortCount := int32 portCount;
            SPortArgs := portArgs |} terminateSignal)).

(** ** Services for the examples *)

(** Services that can be dialled and list nothing, find nothing, and answer
    [e] to a request that has no result but an error. *)
Definition empty_services (e : err) (X : Type) (c : callE X) : X :=
  match c in callE X return X with
  | Dial _ => Ok tt
  | Hangup _ | SendLine _ => None
  | SetLogrusLevel _ => tt
  | GetLogrusLevel => InfoLevel
  | ProbeTgt => true
  | Eng _ q =>
      match q in engineE X return X with
      | ControllerReplicaList => Ok []
      | ControllerVolumeExpand _ | ControllerVolumeFrontendStart _
      | ControllerVolumeFrontendShutdown | ControllerVolumeUnmapMarkSnapChainRemovedSet _
      | ControllerVolumeSnapshotMaxCountSet _ | ControllerVolumeSnapshotMaxSizeSet _
      | ControllerVolumeRevert _ | ControllerReplicaDelete _ | ControllerSyncLimitSet _
      | ControllerCloneSnapshot _ _ _ _ _ _ _ => e
      | _ => Err (EStatus NotFound "no volume")
      end
  | Local q =>
      match q in localE X return X with
      | NewTask _ => Ok tt
      | OnTask _ q =>
          match q in taskE X return X with
          | RestoreBackup _ _ _ _ => None
          | CreateBackup _ => Err (EStatus NotFound "no volume")
          | TaskRestoreStatus => Ok ∅
          | TaskRebuildStatus => Ok ∅
          | PurgeSnapshotStatus => Ok ∅
          | HashSnapshotStatus _ => Ok ∅
          | AddRestoreReplica _ _ _ _ | AddReplica _ _ _ _ _ _ _ _ | VerifyRebuildReplica _ _
          | CancelSnapshotHashJob _ _ | PurgeSnapshots _ | DeleteSnapshot _
          | HashSnapshot _ _ => e
          end
      | GetSnapshotsInfo _ _ => Ok ∅
      | ListMountPoints => Ok []
      | NewNamespaceExecutor | NsMount _ => e
      | GetBackupCredential _ => Ok ∅
      | CleanUpAllMounts => e
      | NewUUID => "00000000-0000-0000-0000-000000000000"
      | OS q => match q in osE X return X with Setenv _ _ => None end
      end
  | PM _ q =>
      match q in pmE X return X with
      | RpcProcessList => Ok ∅
      | RpcProcessLog _ => Ok ([], None)
      | RpcProcessCreate _ | RpcProcessDelete _ _ | RpcProcessGet _ | RpcProcessReplace _ _ =>
          Err (EStatus NotFound "no process")
      end
  | SPDK _ q =>
      match q in spdkE X return X with
      | ReplicaList => Ok ∅ | EngineList => Ok ∅ | EngineFrontendList => Ok ∅
      | ShardList => Ok ∅ | ShardGroupList => Ok ∅ | SpdkLogGetFlags => Ok ""
      | EngineDelete _ | EngineFrontendDelete _ | ReplicaDelete _ _ | ShardDelete _ _
      | ShardGroupDelete _ _ | EngineFrontendSuspend _ | EngineFrontendResume _
      | EngineFrontendSwitchOver _ _ _ _ | EngineDeleteTarget _ | SpdkLogSetLevel _
      | SpdkLogSetFlags _ | SpdkDiskDelete _ _ _ _ | EngineFrontendExpand _ _
      | EngineSnapshotMaxCountSet _ _ | EngineFrontendReplicaAdd _ _ _ _ _
      | EngineReplicaDelete _ _ _ | ReplicaRebuildingDstSetQosLimit _ _
      | EngineFrontendSnapshotRevert _ _ | EngineFrontendSnapshotPurge _
      | EngineFrontendSnapshotDelete _ _ | EngineSnapshotClone _ _ _ _ _ _
      | EngineSnapshotHash _ _ _ | BackingImageDelete _ _ => e
      | BackingImageList => Ok ∅
      | EngineBackupRestore _ _ _ _ => None
      | EngineBackupStatus _ _ _ => Ok None
      | _ => Err (EStatus NotFound "no object")
      end
  end.
