(* ===== verification/Instance.v ===== *)
(** * The instance server

    [pkg/instance/instance.go] and [log.go]: instances of both data engines
    behind one API. A V1 instance is a process of the process manager, a V2
    instance an object of the SPDK service. Each gRPC method looks the data
    engine up in the table of operations and dispatches; each operation opens
    a client, makes its calls, converts the answer and closes the client. *)
From S2P Require Import Prelude GoStrings Sched Process Calls Messages Services.

#[local] Open Scope Z_scope.

(** ** Messages *)

Definition DATA_LAYOUT_TYPE_REPLICATED : Z := 0.
Definition DATA_LAYOUT_TYPE_SHARDED : Z := 1.
Definition BackendStoreDriver_v1 : Z := 0.
Definition BackendStoreDriver_v2 : Z := 1.

Definition InstanceTypeEngine : string := "engine".
Definition InstanceTypeReplica : string := "replica".
Definition InstanceTypeEngineFrontend : string := "engine-frontend".
Definition InstanceTypeShard : string := "shard".
Definition InstanceTypeShardGroup : string := "shardgroup".

Record ProcessInstanceSpec := mkProcessInstance { PIBinary : string; PIArgs : list string }.

Record ShardGroupSpec := mkShardGroupSpec {
  DataChunks : Z; ParityChunks : Z; StripSizeKb : Z;
  Shards : gmap string (option ShardEndpoint); GSalvageRequested : bool;
}.
Record SpdkInstanceSpec := mkSpdkInstance {
  ReplicaAddressMap : gmap string string; DiskName : string; DiskUuid : string; Size : Z;
  Frontend : string; SalvageRequested : bool; BackingImageName : string;
  UblkQueueDepth : Z; UblkNumberOfQueue : Z; NvmeTcpNrIoQueues : Z; SnapshotMaxCount : Z;
  SlotIndex : Z; LvsName : string; LvsUuid : string; ShardGroup_ : option ShardGroupSpec;
  ExposeRequired : bool;
}.
Record InstanceSpec := mkInstanceSpec {
  IName : string; IType : string; IVolumeName : string; IBackendStoreDriver : Z;
  IDataEngine : Z; IProcess : option ProcessInstanceSpec; ISpdk : option SpdkInstanceSpec;
  IPortCount : Z; IPortArgs : list string; ITargetAddress : string; IEngineName : string;
  IUpgradeRequired : bool; IInitiatorAddress : string;
}.
Record InstanceStatus := mkInstanceStatus {
  IState : string; IErrorMsg : string; IPortStart : Z; IPortEnd : Z;
  IConditions : gmap string bool; ITargetPortStart : Z; ITargetPortEnd : Z;
  IStandbyTargetPortStart : Z; IStandbyTargetPortEnd : Z; IUblkId : Z; IUuid : string;
  IStEngineName : string; IEndpoint : string; IFrontend : string; IActivePath : string;
  IPreferredPath : string; IPaths : list NvmeTcpPath;
}.
Record InstanceResponse := mkInstanceResponse {
  ISpec : option InstanceSpec; IStatus : InstanceStatus; IDeleted : bool;
}.

(** A spec of which only the fields of a response are set. *)
Definition response_spec (name type volume : string) (driver engine : Z)
    (process : option ProcessInstanceSpec) (portCount : Z) (portArgs : list string) :
    InstanceSpec :=
  {| IName := name; IType := type; IVolumeName := volume; IBackendStoreDriver := driver;
     IDataEngine := engine; IProcess := process; ISpdk := None; IPortCount := portCount;
     IPortArgs := portArgs; ITargetAddress := ""; IEngineName := "";
     IUpgradeRequired := false; IInitiatorAddress := "" |}.
Definition response_status (state msg : string) (ps pe : Z) (conditions : gmap string bool)
    (uuid endpoint : string) : InstanceStatus :=
  {| IState := state; IErrorMsg := msg; IPortStart := ps; IPortEnd := pe;
     IConditions := conditions; ITargetPortStart := 0; ITargetPortEnd := 0;
     IStandbyTargetPortStart := 0; IStandbyTargetPortEnd := 0; IUblkId := 0; IUuid := uuid;
     IStEngineName := ""; IEndpoint := endpoint; IFrontend := ""; IActivePath := "";
     IPreferredPath := ""; IPaths := [] |}.

(** ** Conversions *)

Definition processResponseToInstanceResponse (processType : string) (p : ProcessResponse) :
    InstanceResponse :=
  let st := Status p in
  let engine := bool_decide (processType = InstanceTypeEngine) in
  {| ISpec := Some (response_spec (SName (Spec p)) processType "" BackendStoreDriver_v1
       DATA_ENGINE_V1
       (Some {| PIBinary := SBinary (Spec p); PIArgs := SArgs (Spec p) |})
       (int32 (SPortCount (Spec p))) (SPortArgs (Spec p)));
     IStatus :=
       {| IState := StState st; IErrorMsg := StErrorMsg st; IPortStart := StPortStart st;
          IPortEnd := StPortEnd st; IConditions := StConditions st;
          ITargetPortStart := if engine then StPortStart st else 0;
          ITargetPortEnd := if engine then StPortEnd st else 0;
          IStandbyTargetPortStart := 0; IStandbyTargetPortEnd := 0; IUblkId := 0;
          IUuid := StUuid st; IStEngineName := ""; IEndpoint := ""; IFrontend := "";
          IActivePath := ""; IPreferredPath := ""; IPaths := [] |};
     IDeleted := Deleted p |}.

Definition v2_spec (name type volume : string) : option InstanceSpec :=
  Some (response_spec name type volume BackendStoreDriver_v2 DATA_ENGINE_V2 None 0 []).

Definition replicaResponseToInstanceResponse (r : Replica) : InstanceResponse :=
  {| ISpec := v2_spec (RName r) InstanceTypeReplica "";
     IStatus := response_status (RState r) (RErrorMsg r) (RPortStart r) (RPortEnd r) ∅ (RUUID r) "";
     IDeleted := false |}.

Definition engineResponseToInstanceResponse (e : Engine) : InstanceResponse :=
  {| ISpec := v2_spec (EName e) InstanceTypeEngine "";
     IStatus := response_status (EState e) (EErrorMsg e) (EPort e) (EPort e) ∅ (EUUID e) "";
     IDeleted := false |}.

Definition engineFrontendResponseToInstanceResponse (e : EngineFrontend) : InstanceResponse :=
  {| ISpec := v2_spec (FName e) InstanceTypeEngineFrontend "";
     IStatus :=
       {| IState := FState e; IErrorMsg := FErrorMsg e; IPortStart := 0; IPortEnd := 0;
          IConditions := ∅; ITargetPortStart := int32 (FTargetPort e);
          ITargetPortEnd := int32 (FTargetPort e); IStandbyTargetPortStart := 0;
          IStandbyTargetPortEnd := 0; IUblkId := int32 (FUblkID e); IUuid := FUUID e;
          IStEngineName := FEngineName e; IEndpoint := FEndpoint e; IFrontend := FFrontend e;
          IActivePath := FActivePath e; IPreferredPath := FPreferredPath e;
          IPaths := omap id (FPaths e) |};
     IDeleted := false |}.

Definition shardResponseToInstanceResponse (s : Shard) : InstanceResponse :=
  {| ISpec := v2_spec (ShardID s) InstanceTypeShard "";
     IStatus := response_status (SState s) (SErrorMsg s) (SPort s) (SPort s) ∅ (SUUID s) (SNvmfNqn s);
     IDeleted := false |}.

Definition shardGroupResponseToInstanceResponse (g : ShardGroup) : InstanceResponse :=
  {| ISpec := v2_spec (GName g) InstanceTypeShardGroup (GVolumeName g);
     IStatus := response_status (GProcessState g) (GErrorMsg g) (GPort g) (GPort g) ∅
       (GHeadLvolUuid g) (GNvmfNqn g);
     IDeleted := false |}.

Definition convertIMDataLayoutTypeToSPDKDataLayoutType (layout : Z) : Z :=
  if bool_decide (layout = DATA_LAYOUT_TYPE_SHARDED) then DATA_LAYOUT_TYPE_SHARDED
  else DATA_LAYOUT_TYPE_REPLICATED.

(** [toSPDKGRPCError]: the code of the innermost error when it is a status. *)
Definition toSPDKGRPCError (err : error) (defaultCode : code) (msg : string) : error :=
  EStatus (default defaultCode (from_error (unwrap_all err))) (error_string (EWrap msg err)).

(** ** The server *)

(** The addresses of the two services, and whether the V2 data engine is on. *)
Record Server := mkServer {
  processManagerServiceAddress : string;
  spdkServiceAddress : string;
  v2DataEngineEnabled : bool;
}.

(** [NewServer]; the goroutine it starts only waits for the context to end. *)
Definition NewInstanceServer (processManagerServiceAddress spdkServiceAddress : string)
    (v2DataEngineEnabled : bool) : Server :=
  mkServer processManagerServiceAddress spdkServiceAddress v2DataEngineEnabled.

Section ops.
Context (s : Server).

Definition pm_conn : conn := (ProcessManagerService, "tcp://" +:+ processManagerServiceAddress s).
Definition spdk_conn : conn := (SPDKService, spdkServiceAddress s).
Definition pm_addr : string := pm_conn.2.
Definition spdk {X} (e : spdkE X) : free callE X := call (SPDK (spdkServiceAddress s) e).

Definition with_pm {B} (body : handler B) : handler B :=
  with_client (Dial pm_conn) (Hangup pm_conn)
    (status_wrap Internal "failed to create ProcessManagerClient") body.
Definition with_spdk {B} (body : handler B) : handler B :=
  with_client (Dial spdk_conn) (Hangup spdk_conn)
    (status_wrap Internal "failed to create SPDK client") body.
(** [InstanceSuspend], [InstanceResume] and [InstanceSwitchOverTarget] keep the
    code of the dialling error. *)
Definition with_spdk_code {B} (body : handler B) : handler B :=
  with_client (Dial spdk_conn) (Hangup spdk_conn)
    (λ e, toSPDKGRPCError e Internal "failed to create SPDK client") body.

Definition unknown_type {B} (type : string) : handler B :=
  invalid ("unknown instance type " +:+ type).

(** ** Create *)

Record InstanceCreateRequest := mkCreate { CSpec : InstanceSpec; CDataLayoutType : Z }.

Definition V1_InstanceCreate (req : InstanceCreateRequest) : handler InstanceResponse :=
  let spec := CSpec req in
  if bool_decide (CDataLayoutType req = DATA_LAYOUT_TYPE_SHARDED) then
    invalid "data_layout_type SHARDED is not supported on the V1 data engine"
  else match IProcess spec with
  | None => invalid "ProcessInstanceSpec is required for longhorn data engine"
  | Some ps =>
      with_pm (
        r ← ProcessManagerClient_ProcessCreate pm_addr (IName spec) (PIBinary ps)
              (IPortCount spec) (PIArgs ps) (IPortArgs spec);
        mret (reply_of (processResponseToInstanceResponse (IType spec)) r))
  end.

(** The shard endpoints of the request, copied; a nil entry panics. *)
Definition shard_endpoints (shards : gmap string (option ShardEndpoint)) :
    free callE (gmap string ShardEndpoint) :=
  if decide (map_Forall (λ _ e, is_Some e) shards) then mret (omap id shards) else Panic.

Definition V2_InstanceCreate (req : InstanceCreateRequest) : handler InstanceResponse :=
  let spec := CSpec req in
  let type := IType spec in
  with_spdk (
    if bool_decide (type = InstanceTypeEngine) then
      sp ← deref (ISpdk spec);
      r ← spdk (EngineCreate (IName spec) (IVolumeName spec) (Frontend sp) (Size sp)
            (ReplicaAddressMap sp) (IPortCount spec) (SalvageRequested sp) (SnapshotMaxCount sp)
            (convertIMDataLayoutTypeToSPDKDataLayoutType (CDataLayoutType req)));
      mret (reply_of engineResponseToInstanceResponse r)
    else if bool_decide (type = InstanceTypeEngineFrontend) then
      sp ← deref (ISpdk spec);
      r ← spdk (EngineFrontendCreate (IName spec) (IVolumeName spec) (IEngineName spec)
            (Frontend sp) (Size sp) (ITargetAddress spec) (int32 (UblkQueueDepth sp))
            (int32 (UblkNumberOfQueue sp)) (int32 (NvmeTcpNrIoQueues sp)));
      mret (reply_of engineFrontendResponseToInstanceResponse r)
    else if bool_decide (type = InstanceTypeReplica) then
      sp ← deref (ISpdk spec);
      r ← spdk (ReplicaCreate (IName spec) (DiskName sp) (DiskUuid sp) (Size sp) (IPortCount spec)
            (BackingImageName sp));
      mret (reply_of replicaResponseToInstanceResponse r)
    else if bool_decide (type = InstanceTypeShard) then
      sp ← deref (ISpdk spec);
      let derivedName := IVolumeName spec +:+ "-" +:+ itoa (SlotIndex sp) in
      if bool_decide (IName spec ≠ "" ∧ IName spec ≠ derivedName) then
        invalid ("shard instance name " +:+ quote (IName spec) +:+
                 " does not match derived form " +:+ quote derivedName)
      else
        r ← spdk (ShardCreate (IVolumeName spec) (SlotIndex sp) (Size sp) (LvsName sp) (LvsUuid sp)
              (IPortCount spec));
        mret (reply_of shardResponseToInstanceResponse r)
    else if bool_decide (type = InstanceTypeShardGroup) then
      sp ← deref (ISpdk spec);
      match ShardGroup_ sp with
      | None => invalid ("shard_group_spec is required for shardgroup instance " +:+ IName spec)
      | Some g =>
          if bool_decide (Shards g = ∅) then
            invalid ("shard_group_spec.shards is empty for shardgroup instance " +:+ IName spec)
          else
            shards ← shard_endpoints (Shards g);
            r ← spdk (ShardGroupCreate (IName spec) (IVolumeName spec) (Size sp) (DataChunks g)
                  (ParityChunks g) (StripSizeKb g) shards (IPortCount spec) (GSalvageRequested g));
            mret (reply_of shardGroupResponseToInstanceResponse r)
      end
    else unknown_type type).

Definition InstanceCreate (req : InstanceCreateRequest) : handler InstanceResponse :=
  dispatch (IDataEngine (CSpec req)) (V1_InstanceCreate req) (V2_InstanceCreate req).

(** ** Delete *)

Record InstanceDeleteRequest := mkDelete {
  DelName : string; DelUuid : string; DelType : string; DelDataEngine : Z;
  DelCleanupRequired : bool; DelDiskUuid : string;
}.

Definition V1_InstanceDelete (req : InstanceDeleteRequest) : handler InstanceResponse :=
  with_pm (
    r ← ProcessManagerClient_ProcessDelete pm_addr (DelName req) (DelUuid req);
    mret (reply_of (processResponseToInstanceResponse (DelType req)) r)).

Definition deleted_response (name : string) : InstanceResponse :=
  {| ISpec := Some (response_spec name "" "" 0 0 None 0 []);
     IStatus := response_status "stopped" "" 0 0 ∅ "" "";
     IDeleted := true |}.

Definition V2_InstanceDelete (req : InstanceDeleteRequest) : handler InstanceResponse :=
  let name := DelName req in
  let type := DelType req in
  with_spdk (
    e ← (if bool_decide (type = InstanceTypeEngine) then
           if DelCleanupRequired req then spdk (EngineDelete name) else mret None
         else if bool_decide (type = InstanceTypeEngineFrontend) then
           spdk (EngineFrontendDelete name)
         else if bool_decide (type = InstanceTypeReplica) then
           spdk (ReplicaDelete name (DelCleanupRequired req))
         else if bool_decide (type = InstanceTypeShard) then
           spdk (ShardDelete name (DelCleanupRequired req))
         else if bool_decide (type = InstanceTypeShardGroup) then
           spdk (ShardGroupDelete name (DelCleanupRequired req))
         else mret (Some (EStatus InvalidArgument ("unknown instance type " +:+ type))));
    mret (match e with Some e => fail e | None => ok (deleted_response name) end)).

Definition InstanceDelete (req : InstanceDeleteRequest) : handler InstanceResponse :=
  dispatch (DelDataEngine req) (V1_InstanceDelete req) (V2_InstanceDelete req).

(** ** Get and list *)

(** The requests that name an instance: get, log, suspend, resume, delete
    target. *)
Record InstanceRequest := mkRequest { QName : string; QType : string; QDataEngine : Z }.

Definition V1_InstanceGet (req : InstanceRequest) : handler InstanceResponse :=
  with_pm (
    r ← ProcessManagerClient_ProcessGet pm_addr (QName req);
    mret (reply_of (processResponseToInstanceResponse (QType req)) r)).

Definition V2_InstanceGet (req : InstanceRequest) : handler InstanceResponse :=
  let name := QName req in
  let type := QType req in
  with_spdk (
    if bool_decide (type = InstanceTypeEngine) then
      r ← spdk (EngineGet name); mret (reply_of engineResponseToInstanceResponse r)
    else if bool_decide (type = InstanceTypeEngineFrontend) then
      r ← spdk (EngineFrontendGet name);
      mret (reply_of engineFrontendResponseToInstanceResponse r)
    else if bool_decide (type = InstanceTypeReplica) then
      r ← spdk (ReplicaGet name); mret (reply_of replicaResponseToInstanceResponse r)
    else if bool_decide (type = InstanceTypeShard) then
      r ← spdk (ShardGet name); mret (reply_of shardResponseToInstanceResponse r)
    else if bool_decide (type = InstanceTypeShardGroup) then
      r ← spdk (ShardGroupGet name); mret (reply_of shardGroupResponseToInstanceResponse r)
    else unknown_type type).

Definition InstanceGet (req : InstanceRequest) : handler InstanceResponse :=
  dispatch (QDataEngine req) (V1_InstanceGet req) (V2_InstanceGet req).

Abbreviation instances := (gmap string InstanceResponse).

(** [for _, x := range xs { instances[name(x)] = conv(x) }]. Two entries of
    [xs] with one name would be stored in the order of the range. *)
Definition add_all {X} (name : X → string) (conv : X → InstanceResponse) (xs : gmap string X)
    (m : instances) : instances :=
  map_fold (λ _ x m, <[name x := conv x]> m) m xs.

Definition process_type (p : ProcessResponse) : string :=
  if IsEngineProcess (SName (Spec p)) then InstanceTypeEngine else InstanceTypeReplica.

(** The operations fill the map they are given. *)
Definition V1_InstanceList (m : instances) : handler instances :=
  with_pm (
    r ← ProcessManagerClient_ProcessList pm_addr;
    mret (reply_of (λ ps, add_all (λ p, SName (Spec p))
                            (λ p, processResponseToInstanceResponse (process_type p) p) ps m) r)).

Definition V2_InstanceList (m : instances) : handler instances :=
  with_spdk (
    try (spdk ReplicaList) (λ replicas,
    let m := add_all RName replicaResponseToInstanceResponse replicas m in
    try (spdk EngineList) (λ engines,
    let m := add_all EName engineResponseToInstanceResponse engines m in
    try (spdk EngineFrontendList) (λ frontends,
    let m := add_all FName engineFrontendResponseToInstanceResponse frontends m in
    try (spdk ShardList) (λ shards,
    let m := add_all ShardID shardResponseToInstanceResponse shards m in
    try (spdk ShardGroupList) (λ groups,
    mret (ok (add_all GName shardGroupResponseToInstanceResponse groups m)))))))).

Definition InstanceList : handler instances :=
  r ← V1_InstanceList ∅;
  match r with
  | (_, Some e) => mret (fail e)
  | (m, None) =>
      if v2DataEngineEnabled s then
        r ← V2_InstanceList (default ∅ m);
        match r with
        | (_, Some e) => mret (fail e)
        | (m, None) => mret (ok (default ∅ m))
        end
      else mret (ok (default ∅ m))
  end.

(** ** Replace and log *)

Record InstanceReplaceRequest := mkReplace { RSpec : InstanceSpec; RTerminateSignal : string }.

Definition V1_InstanceReplace (req : InstanceReplaceRequest) : handler InstanceResponse :=
  let spec := RSpec req in
  match IProcess spec with
  | None => invalid "ProcessInstanceSpec is required for longhorn data engine"
  | Some ps =>
      with_pm (
        r ← ProcessManagerClient_ProcessReplace pm_addr (IName spec) (PIBinary ps)
              (IPortCount spec) (PIArgs ps) (IPortArgs spec) (RTerminateSignal req);
        mret (reply_of (processResponseToInstanceResponse (IType spec)) r))
  end.

Definition InstanceReplace (req : InstanceReplaceRequest) : handler InstanceResponse :=
  dispatch (IDataEngine (RSpec req)) (V1_InstanceReplace req)
    (unimplemented "v2 data engine instance replace is not supported").

(** Forward the lines of the stream to the caller, then its end. *)
Fixpoint forward_lines (lines : list string) (last : err) : handler unit :=
  match lines with
  | [] => mret (match last with Some e => fail e | None => ok tt end)
  | line :: lines' =>
      e ← call (SendLine line);
      match e with Some e => mret (fail e) | None => forward_lines lines' last end
  end.

Definition V1_InstanceLog (req : InstanceRequest) : handler unit :=
  with_pm (
    try (ProcessManagerClient_ProcessLog pm_addr (QName req)) (λ stream,
    forward_lines stream.1 stream.2)).

Definition InstanceLog (req : InstanceRequest) : handler unit :=
  dispatch (QDataEngine req) (V1_InstanceLog req)
    (unimplemented "v2 data engine instance log is not supported").

(** ** Suspend, resume, switch over, delete target *)

Definition replica_like (type : string) : bool :=
  bool_decide (type = InstanceTypeReplica ∨ type = InstanceTypeShard ∨
               type = InstanceTypeShardGroup).

Definition V2_InstanceSuspend (req : InstanceRequest) : handler unit :=
  let type := QType req in
  with_spdk_code (
    if bool_decide (type = InstanceTypeEngine) then
      unimplemented "suspend is not supported for instance type engine"
    else if bool_decide (type = InstanceTypeEngineFrontend) then
      e ← spdk (EngineFrontendSuspend (QName req));
      mret (reply_empty (λ e, toSPDKGRPCError e Internal
        ("failed to suspend engine frontend " +:+ QName req)) e)
    else if replica_like type then
      invalid ("suspend is not supported for instance type " +:+ type)
    else unknown_type type).

Definition InstanceSuspend (req : InstanceRequest) : handler unit :=
  dispatch (QDataEngine req)
    (unimplemented "v1 data engine instance suspend is not supported") (V2_InstanceSuspend req).

Definition V2_InstanceResume (req : InstanceRequest) : handler unit :=
  let type := QType req in
  with_spdk_code (
    if bool_decide (type = InstanceTypeEngine) then
      unimplemented "resume is not supported for instance type engine"
    else if bool_decide (type = InstanceTypeEngineFrontend) then
      e ← spdk (EngineFrontendResume (QName req));
      mret (reply_empty (λ e, toSPDKGRPCError e Internal
        ("failed to resume engine frontend " +:+ QName req)) e)
    else if replica_like type then
      invalid ("resume is not supported for instance type " +:+ type)
    else unknown_type type).

Definition InstanceResume (req : InstanceRequest) : handler unit :=
  dispatch (QDataEngine req)
    (unimplemented "v1 data engine instance resume is not supported") (V2_InstanceResume req).

Record InstanceSwitchOverTargetRequest := mkSwitchOver {
  WName : string; WType : string; WDataEngine : Z; WEngineName : string;
  WTargetAddress : string; WSwitchoverPhase : string;
}.

Definition V2_InstanceSwitchOverTarget (req : InstanceSwitchOverTargetRequest) : handler unit :=
  let type := WType req in
  with_spdk_code (
    if bool_decide (type = InstanceTypeEngine) then
      unimplemented "switch over target for engine has been replaced by engine frontend switch over"
    else if bool_decide (type = InstanceTypeEngineFrontend) then
      e ← spdk (EngineFrontendSwitchOver (WName req) (WEngineName req) (WTargetAddress req)
            (WSwitchoverPhase req));
      mret (reply_empty (λ e, toSPDKGRPCError e Internal
        ("failed to switch over target for engine frontend " +:+ WName req)) e)
    else if replica_like type then
      invalid ("target switch over is not supported for instance type " +:+ type)
    else unknown_type type).

Definition InstanceSwitchOverTarget (req : InstanceSwitchOverTargetRequest) : handler unit :=
  dispatch (WDataEngine req)
    (unimplemented "v1 data engine instance target switch over is not supported")
    (V2_InstanceSwitchOverTarget req).

Definition V2_InstanceDeleteTarget (req : InstanceRequest) : handler unit :=
  let type := QType req in
  with_spdk (
    if bool_decide (type = InstanceTypeEngine) then
      e ← spdk (EngineDeleteTarget (QName req));
      mret (reply_empty (status_wrap Internal
        ("failed to delete target for engine " +:+ QName req)) e)
    else if replica_like type then
      invalid ("target deletion is not supported for instance type " +:+ type)
    else unknown_type type).

Definition InstanceDeleteTarget (req : InstanceRequest) : handler unit :=
  dispatch (QDataEngine req)
    (unimplemented "v1 data engine instance target delete is not supported")
    (V2_InstanceDeleteTarget req).

(** ** Log level and flags ([log.go]) *)

(** The level of this process; an equal one is not set again. *)
Definition logSetLevel (level : string) : free callE err :=
  match ParseLevel level with
  | Err e => mret (Some e)
  | Ok newLevel =>
      oldLevel ← call GetLogrusLevel;
      if decide (oldLevel ≠ newLevel) then call (SetLogrusLevel newLevel);; mret None
      else mret None
  end.

Definition V1_LogSetLevel (level : string) : handler unit :=
  e ← logSetLevel level; mret (reply_empty id e).

Definition V2_LogSetLevel (level : string) : handler unit :=
  with_spdk (
    e ← spdk (SpdkLogSetLevel (to_upper level));
    mret (reply_empty (status_wrap Internal "failed to set v2 data engine log level") e)).

Definition LogSetLevel (dataEngine : Z) (level : string) : handler unit :=
  dispatch dataEngine (V1_LogSetLevel level) (V2_LogSetLevel level).

Definition V1_LogSetFlags (flags : string) : handler unit := mret (ok tt).

Definition V2_LogSetFlags (flags : string) : handler unit :=
  with_spdk (
    e ← spdk (SpdkLogSetFlags flags);
    mret (reply_empty (status_wrap Internal "failed to set log flags") e)).

Definition LogSetFlags (dataEngine : Z) (flags : string) : handler unit :=
  dispatch dataEngine (V1_LogSetFlags flags) (V2_LogSetFlags flags).

Definition V1_LogGetLevel : handler string := l ← call GetLogrusLevel; mret (ok (Level_String l)).
Definition V2_LogGetLevel : handler string := l ← call GetLogrusLevel; mret (ok (Level_String l)).

Definition LogGetLevel (dataEngine : Z) : handler string :=
  dispatch dataEngine V1_LogGetLevel V2_LogGetLevel.

Definition V1_LogGetFlags : handler string := mret (ok EmptyString).

Definition V2_LogGetFlags : handler string :=
  with_spdk (
    r ← spdk SpdkLogGetFlags;
    mret (match r with
          | Ok flags => ok flags
          | Err e => fail (status_wrap Internal "failed to get log flags" e)
          end)).

Definition LogGetFlags (dataEngine : Z) : handler string :=
  dispatch dataEngine V1_LogGetFlags V2_LogGetFlags.

(** ** All the methods *)

(** A request to the instance server, with the type of its reply. *)
Inductive request : Type → Type :=
  | QCreate (req : InstanceCreateRequest) : request InstanceResponse
  | QDelete (req : InstanceDeleteRequest) : request InstanceResponse
  | QGet (req : InstanceRequest) : request InstanceResponse
  | QList : request instances
  | QReplace (req : InstanceReplaceRequest) : request InstanceResponse
  | QLog (req : InstanceRequest) : request unit
  | QSuspend (req : InstanceRequest) : request unit
  | QResume (req : InstanceRequest) : request unit
  | QSwitchOver (req : InstanceSwitchOverTargetRequest) : request unit
  | QDeleteTarget (req : InstanceRequest) : request unit
  | QLogSetLevel (dataEngine : Z) (level : string) : request unit
  | QLogSetFlags (dataEngine : Z) (flags : string) : request unit
  | QLogGetLevel (dataEngine : Z) : request string
  | QLogGetFlags (dataEngine : Z) : request string.

Definition serve {X} (q : request X) : handler X :=
  match q in request X return handler X with
  | QCreate req => InstanceCreate req
  | QDelete req => InstanceDelete req
  | QGet req => InstanceGet req
  | QList => InstanceList
  | QReplace req => InstanceReplace req
  | QLog req => InstanceLog req
  | QSuspend req => InstanceSuspend req
  | QResume req => InstanceResume req
  | QSwitchOver req => InstanceSwitchOverTarget req
  | QDeleteTarget req => InstanceDeleteTarget req
  | QLogSetLevel e l => LogSetLevel e l
  | QLogSetFlags e f => LogSetFlags e f
  | QLogGetLevel e => LogGetLevel e
  | QLogGetFlags e => LogGetFlags e
  end.

(** The data engine a request is for; a list is for all. *)
Definition engine_of {X} (q : request X) : option Z :=
  match q with
  | QCreate req => Some (IDataEngine (CSpec req))
  | QDelete req => Some (DelDataEngine req)
  | QGet req | QLog req | QSuspend req | QResume req | QDeleteTarget req =>
      Some (QDataEngine req)
  | QList => None
  | QReplace req => Some (IDataEngine (RSpec req))
  | QSwitchOver req => Some (WDataEngine req)
  | QLogSetLevel e _ | QLogSetFlags e _ | QLogGetLevel e | QLogGetFlags e => Some e
  end.
End ops.
