(* ===== verification/Disk.v ===== *)
(** * The disk server

    [pkg/disk/disk.go]: disks, their replicas and metrics. Block disks are those
    of the SPDK service, asked through one client that the server opens when it
    starts, if SPDK is enabled; file-system disks support nothing. *)
From S2P Require Import Prelude GoStrings Sched Process Calls Messages Services.

#[local] Open Scope Z_scope.

(** ** Messages *)

Definition DiskType_filesystem : Z := 0.
Definition DiskType_block : Z := 1.

(** [DiskType.String]. *)
Definition disk_type_string (t : Z) : string :=
  if bool_decide (t = 0) then "filesystem"
  else if bool_decide (t = 1) then "block"
  else if bool_decide (t = 2) then "lvm"
  else itoa t.

(** The fields of the requests; a request that has no such field leaves it
    empty. *)
Record DiskRequest := mkDiskRequest {
  DqType : Z; DqName : string; DqUuid : string; DqPath : string; DqDriver : string;
}.

(** [imrpc.Disk], as opposed to the SPDK service's [Disk]. *)
Record ImDisk := mkImDisk {
  IdId : string; IdName : string; IdUuid : string; IdPath : string; IdType : string;
  IdDriver : string; IdTotalSize : Z; IdFreeSize : Z; IdTotalBlocks : Z; IdFreeBlocks : Z;
  IdBlockSize : Z; IdClusterSize : Z; IdState : string; IdMessage : string;
}.
Record ImDiskHealth := mkImHealth {
  IhModelNumber : string; IhSerialNumber : string; IhFirmwareRevision : string;
  IhTraddr : string; IhCriticalWarning : Z; IhTemperatureCelsius : Z;
  IhAvailableSparePercentage : Z; IhAvailableSpareThresholdPercentage : Z;
  IhPercentageUsed : Z; IhDataUnitsRead : Z; IhDataUnitsWritten : Z; IhHostReadCommands : Z;
  IhHostWriteCommands : Z; IhControllerBusyTime : Z; IhPowerCycles : Z; IhPowerOnHours : Z;
  IhUnsafeShutdowns : Z; IhMediaErrors : Z; IhNumErrLogEntries : Z;
  IhWarningTemperatureTimeMinutes : Z; IhCriticalCompositeTemperatureTimeMinutes : Z;
}.
Record ReplicaInstance := mkReplicaInstance {
  RiName : string; RiUuid : string; RiDiskName : string; RiDiskUuid : string;
  RiSpecSize : Z; RiActualSize : Z;
}.
(** [enginerpc.Metrics]. *)
Record ImMetrics := mkImMetrics {
  ImReadThroughput : Z; ImWriteThroughput : Z; ImReadLatency : Z; ImWriteLatency : Z;
  ImReadIOPS : Z; ImWriteIOPS : Z;
}.

Definition spdkDiskToDisk (d : Disk) : ImDisk :=
  {| IdId := DId d; IdName := DName d; IdUuid := DUuid d; IdPath := DPath d;
     IdType := DType d; IdDriver := DDriver d; IdTotalSize := DTotalSize d;
     IdFreeSize := DFreeSize d; IdTotalBlocks := DTotalBlocks d;
     IdFreeBlocks := DFreeBlocks d; IdBlockSize := DBlockSize d;
     IdClusterSize := DClusterSize d; IdState := DState d; IdMessage := DMessage d |}.

Definition replicaToReplicaInstance (r : Replica) : ReplicaInstance :=
  {| RiName := RName r; RiUuid := ""; RiDiskName := RLvsName r; RiDiskUuid := RLvsUUID r;
     RiSpecSize := RSpecSize r; RiActualSize := RActualSize r |}.

Definition health_response (h : DiskHealth) : ImDiskHealth :=
  {| IhModelNumber := ModelNumber h; IhSerialNumber := SerialNumber h;
     IhFirmwareRevision := FirmwareRevision h; IhTraddr := Traddr h;
     IhCriticalWarning := CriticalWarning h; IhTemperatureCelsius := TemperatureCelsius h;
     IhAvailableSparePercentage := AvailableSparePercentage h;
     IhAvailableSpareThresholdPercentage := AvailableSpareThresholdPercentage h;
     IhPercentageUsed := PercentageUsed h; IhDataUnitsRead := DataUnitsRead h;
     IhDataUnitsWritten := DataUnitsWritten h; IhHostReadCommands := HostReadCommands h;
     IhHostWriteCommands := HostWriteCommands h;
     IhControllerBusyTime := ControllerBusyTime h; IhPowerCycles := PowerCycles h;
     IhPowerOnHours := PowerOnHours h; IhUnsafeShutdowns := UnsafeShutdowns h;
     IhMediaErrors := MediaErrors h; IhNumErrLogEntries := NumErrLogEntries h;
     IhWarningTemperatureTimeMinutes := WarningTemperatureTimeMinutes h;
     IhCriticalCompositeTemperatureTimeMinutes := CriticalCompositeTemperatureTimeMinutes h |}.

Definition metrics_reply (m : Metrics) : ImMetrics :=
  {| ImReadThroughput := ReadThroughput m; ImWriteThroughput := WriteThroughput m;
     ImReadLatency := ReadLatency m; ImWriteLatency := WriteLatency m;
     ImReadIOPS := ReadIOPS m; ImWriteIOPS := WriteIOPS m |}.

(** ** The server *)

(** The address its SPDK client is connected to; [None] for the nil client. *)
Record DiskServer := mkDiskServer { spdkClient : option string }.

(** [IsSPDKTgtReady]: one attempt a second. *)
Fixpoint IsSPDKTgtReady (timeout : nat) : free callE bool :=
  match timeout with
  | O => mret false
  | S timeout' =>
      b ← call ProbeTgt;
      if b : bool then mret true else IsSPDKTgtReady timeout'
  end.

Definition spdkTgtReadinessProbeTimeout : nat := 60.

Definition NewServer (spdkEnabled : bool) (addr : string) : free callE (res DiskServer) :=
  if spdkEnabled then
    ready ← IsSPDKTgtReady spdkTgtReadinessProbeTimeout;
    if ready : bool then
      r ← call (Dial (SPDKService, addr));
      mret (match r with
            | Err e => Err (status_wrap Internal "failed to create SPDK client" e)
            | Ok _ => Ok {| spdkClient := Some addr |}
            end)
    else mret (Err (EPlain "spdk_tgt is not ready in 1m0s"))
  else mret (Ok {| spdkClient := None |}).

Section disk_ops.
Context (s : DiskServer).

(** A method of the SPDK client: it reads the connection out of the client,
    which panics when there is none. *)
Definition client {X} (e : spdkE X) : free callE X :=
  addr ← deref (spdkClient s); call (SPDK addr e).

Definition unsupported {B} (t : Z) : handler B :=
  mret (fail (EStatus Unimplemented ("unsupported disk type " +:+ disk_type_string t))).

(** [s.ops[req.DiskType]]; every method of [FilesystemDiskOps] is
    [unsupported]. *)
Definition disk_ops {B} (t : Z) (block : handler B) : handler B :=
  if bool_decide (t = DiskType_filesystem) then unsupported t
  else if bool_decide (t = DiskType_block) then block
  else unsupported t.

(** The checks of the arguments. *)
Definition required {B} (missing : bool) (msg : string) (k : handler B) : handler B :=
  if missing then mret (fail (EStatus InvalidArgument (msg +:+ " required"))) else k.

Definition internal {A B} (f : A → B) (r : res A) : reply B :=
  match r with
  | Ok a => ok (f a)
  | Err e => fail (EStatus Internal (error_string e))
  end.

Definition is_empty (x : string) : bool := bool_decide (x = "").

Definition Block_DiskCreate (req : DiskRequest) (blockSize : Z) : handler ImDisk :=
  r ← client (SpdkDiskCreate (DqName req) (DqUuid req) (DqPath req) (DqDriver req) blockSize);
  mret (internal spdkDiskToDisk r).
Definition DiskCreate (req : DiskRequest) (blockSize : Z) : handler ImDisk :=
  required (is_empty (DqName req) || is_empty (DqPath req)) "disk name and disk path are"
    (disk_ops (DqType req) (Block_DiskCreate req blockSize)).

(** The reply is there whatever the error. *)
Definition Block_DiskDelete (req : DiskRequest) : handler unit :=
  e ← client (SpdkDiskDelete (DqName req) (DqUuid req) (DqPath req) (DqDriver req));
  mret (Some tt, e).
Definition DiskDelete (req : DiskRequest) : handler unit :=
  required (is_empty (DqName req)) "disk name is"
    (disk_ops (DqType req) (Block_DiskDelete req)).

Definition Block_DiskGet (req : DiskRequest) : handler ImDisk :=
  r ← client (SpdkDiskGet (DqName req) (DqPath req) (DqDriver req));
  mret (internal spdkDiskToDisk r).
Definition DiskGet (req : DiskRequest) : handler ImDisk :=
  required (is_empty (DqName req)) "disk name is"
    (disk_ops (DqType req) (Block_DiskGet req)).

Definition Block_DiskHealthGet (req : DiskRequest) : handler ImDiskHealth :=
  r ← client (SpdkDiskHealthGet (DqName req) (DqPath req) (DqDriver req));
  mret (internal health_response r).
Definition DiskHealthGet (req : DiskRequest) : handler ImDiskHealth :=
  required (is_empty (DqName req)) "disk name is"
    (disk_ops (DqType req) (Block_DiskHealthGet req)).

Definition Block_DiskReplicaInstanceList : handler (gmap string ReplicaInstance) :=
  r ← client ReplicaList;
  mret (internal (λ rs : gmap string Replica, replicaToReplicaInstance <$> rs) r).
Definition DiskReplicaInstanceList (req : DiskRequest) : handler (gmap string ReplicaInstance) :=
  required (is_empty (DqName req)) "disk name is"
    (disk_ops (DqType req) Block_DiskReplicaInstanceList).

Definition Block_DiskReplicaInstanceDelete (replica : string) : handler unit :=
  e ← client (ReplicaDelete replica true);
  mret (reply_empty (λ e, EStatus Internal (error_string e)) e).
Definition DiskReplicaInstanceDelete (req : DiskRequest) (replica : string) : handler unit :=
  required (is_empty (DqName req) || is_empty (DqUuid req) || is_empty replica)
    "disk name, disk UUID and replica instance name are"
    (disk_ops (DqType req) (Block_DiskReplicaInstanceDelete replica)).

Definition Block_MetricsGet (req : DiskRequest) : handler ImMetrics :=
  r ← client (SpdkMetricsGet (DqName req)); mret (internal metrics_reply r).
Definition MetricsGet (req : DiskRequest) : handler ImMetrics :=
  required (is_empty (DqName req)) "disk name is"
    (disk_ops (DqType req) (Block_MetricsGet req)).

(** ** All the methods *)

Inductive disk_method : Type → Type :=
  | MDiskCreate (blockSize : Z) : disk_method ImDisk
  | MDiskDelete : disk_method unit
  | MDiskGet : disk_method ImDisk
  | MDiskHealthGet : disk_method ImDiskHealth
  | MReplicaList : disk_method (gmap string ReplicaInstance)
  | MReplicaDelete (replica : string) : disk_method unit
  | MMetricsGet : disk_method ImMetrics.

Definition disk_serve {X} (m : disk_method X) (req : DiskRequest) : handler X :=
  match m in disk_method X return handler X with
  | MDiskCreate bs => DiskCreate req bs
  | MDiskDelete => DiskDelete req
  | MDiskGet => DiskGet req
  | MDiskHealthGet => DiskHealthGet req
  | MReplicaList => DiskReplicaInstanceList req
  | MReplicaDelete r => DiskReplicaInstanceDelete req r
  | MMetricsGet => MetricsGet req
  end.

End disk_ops.

(** ** Properties *)

(** The arguments a method needs are there. *)
Definition args_ok {X} (m : disk_method X) (req : DiskRequest) : Prop :=
  DqName req ≠ "" ∧
  match m with
  | MDiskCreate _ => DqPath req ≠ ""
  | MReplicaDelete r => DqUuid req ≠ "" ∧ r ≠ ""
  | _ => True
  end.
#[export] Instance args_ok_dec {X} (m : disk_method X) req : Decision (args_ok m req).
Proof. destruct m; apply _. Defined.

(** The call of a method on a block disk, the type of its answer, and the
    reply. *)
Definition disk_answer {X} (m : disk_method X) : Type :=
  match m with
  | MDiskCreate _ | MDiskGet => res Disk
  | MDiskDelete | MReplicaDelete _ => err
  | MDiskHealthGet => res DiskHealth
  | MReplicaList => res (gmap string Replica)
  | MMetricsGet => res Metrics
  end.
Definition disk_call {X} (m : disk_method X) (q : DiskRequest) : spdkE (disk_answer m) :=
  match m with
  | MDiskCreate bs => SpdkDiskCreate (DqName q) (DqUuid q) (DqPath q) (DqDriver q) bs
  | MDiskDelete => SpdkDiskDelete (DqName q) (DqUuid q) (DqPath q) (DqDriver q)
  | MDiskGet => SpdkDiskGet (DqName q) (DqPath q) (DqDriver q)
  | MDiskHealthGet => SpdkDiskHealthGet (DqName q) (DqPath q) (DqDriver q)
  | MReplicaList => ReplicaList
  | MReplicaDelete r => ReplicaDelete r true
  | MMetricsGet => SpdkMetricsGet (DqName q)
  end.
Definition answer_error {X} (m : disk_method X) : disk_answer m → option error :=
  let of_res {A} (r : res A) := match r with Ok _ => None | Err e => Some e end in
  match m with
  | MDiskCreate _ | MDiskGet | MDiskHealthGet | MReplicaList | MMetricsGet => of_res
  | MDiskDelete | MReplicaDelete _ => id
  end.
Definition is_disk_delete {X} (m : disk_method X) : bool :=
  match m with MDiskDelete => true | _ => false end.

Lemma disk_ops_other {B} t (block : handler B) :
  t ≠ DiskType_block → disk_ops t block = unsupported t.
Proof. intros. unfold disk_ops. repeat case_bool_decide; done. Qed.

Lemma required_true {B} msg (k : handler B) :
  required true msg k = mret (fail (EStatus InvalidArgument (msg +:+ " required"))).
Proof. done. Qed.

(** Which check a request passes. *)
Lemma required_cases {X} s (m : disk_method X) req :
  if decide (args_ok m req)
  then ∃ block, disk_serve s m req = disk_ops (DqType req) block
  else ∃ msg, disk_serve s m req = mret (fail (EStatus InvalidArgument msg)).
Proof.
  unfold args_ok. destruct m; simpl;
    unfold DiskCreate, DiskDelete, DiskGet, DiskHealthGet, DiskReplicaInstanceList,
      DiskReplicaInstanceDelete, MetricsGet, required, is_empty;
    repeat case_bool_decide; simpl; case_decide; try naive_solver; eauto.
Qed.

(** Without the client of the SPDK service. *)
Lemma disk_serve_disabled {X} (s : DiskServer) (m : disk_method X) (req : DiskRequest) o :
  args_ok m req → DqType req = DiskType_block → spdkClient s = None →
  eval o (disk_serve s m req) = (None, []).
Proof.
  intros Ha Ht Hc. destruct m, Ha; simpl;
    unfold DiskCreate, DiskDelete, DiskGet, DiskHealthGet, DiskReplicaInstanceList,
      DiskReplicaInstanceDelete, MetricsGet, required, is_empty;
    rewrite !bool_decide_false by naive_solver; rewrite Ht; simpl;
    unfold Block_DiskCreate, Block_DiskDelete, Block_DiskGet, Block_DiskHealthGet,
      Block_DiskReplicaInstanceList, Block_DiskReplicaInstanceDelete, Block_MetricsGet, client;
    by rewrite Hc.
Qed.

(** C37: the methods of the disk server, on every branch. Missing arguments are
    refused with [InvalidArgument] and disks that are not block disks with
    [Unimplemented], both without a call. A correct request about a block disk
    panics when SPDK is disabled, for the client is nil; otherwise it makes
    exactly one call to the SPDK service, succeeds if and only if that call
    does, and shows the caller the code [Internal] when it fails, except for the
    deletion of a disk, which passes the error on as it is. *)
Theorem disk_serve_correct {X} (s : DiskServer) (m : disk_method X) (req : DiskRequest)
    (o : ∀ X, callE X → X) :
  (¬ args_ok m req → ∃ msg,
     eval o (disk_serve s m req) = (Some (fail (EStatus InvalidArgument msg)), [])) ∧
  (args_ok m req → DqType req ≠ DiskType_block → ∃ msg,
     eval o (disk_serve s m req) = (Some (fail (EStatus Unimplemented msg)), [])) ∧
  (args_ok m req → DqType req = DiskType_block → spdkClient s = None →
     eval o (disk_serve s m req) = (None, [])) ∧
  (∀ addr, args_ok m req → DqType req = DiskType_block → spdkClient s = Some addr →
     (eval o (disk_serve s m req)).2 = [log (SPDK addr (disk_call m req))] ∧
     reply_code <$> (eval o (disk_serve s m req)).1 =
       Some (match answer_error m (o _ (SPDK addr (disk_call m req))) with
             | None => OK
             | Some e => if is_disk_delete m then status_code e else Internal
             end)).
Proof.
  pose proof (required_cases s m req) as Hr. split_and!.
  - intros Ha. rewrite decide_False in Hr by done. destruct Hr as [msg ->]. by exists msg.
  - intros Ha Ht. rewrite decide_True in Hr by done. destruct Hr as [block ->].
    rewrite disk_ops_other by done. eauto.
  - by apply disk_serve_disabled.
  - intros addr Ha Ht Hc. destruct m, Ha; simpl;
      unfold DiskCreate, DiskDelete, DiskGet, DiskHealthGet, DiskReplicaInstanceList,
        DiskReplicaInstanceDelete, MetricsGet, required, is_empty;
      rewrite !bool_decide_false by naive_solver; rewrite Ht; simpl;
      unfold Block_DiskCreate, Block_DiskDelete, Block_DiskGet, Block_DiskHealthGet,
        Block_DiskReplicaInstanceList, Block_DiskReplicaInstanceDelete, Block_MetricsGet, client;
      rewrite Hc; simpl; (split; [done|]);
      match goal with |- context [o ?T (SPDK ?a ?e)] => by destruct (o T (SPDK a e)) end.
Qed.

Definition block_disk : DiskRequest :=
  {| DqType := DiskType_block; DqName := "nvme-0"; DqUuid := "u"; DqPath := "0000:00:1e.0";
     DqDriver := "nvme" |}.

(** An SPDK service without any disk. *)
Definition no_disk : ∀ X, callE X → X := empty_services (Some (EStatus NotFound "no disk")).

Theorem disk_serve_correct_witness :
  eval no_disk (disk_serve {| spdkClient := None |} MDiskGet block_disk) = (None, []) ∧
  reply_code <$> (eval no_disk (disk_serve {| spdkClient := Some "a" |} MDiskGet block_disk)).1 =
    Some Internal ∧
  reply_code <$> (eval no_disk (disk_serve {| spdkClient := Some "a" |} MDiskDelete block_disk)).1
    = Some NotFound.
Proof.
  pose proof (disk_serve_correct {| spdkClient := None |} MDiskGet block_disk no_disk)
    as (_ & _ & H1 & _).
  pose proof (disk_serve_correct {| spdkClient := Some "a" |} MDiskGet block_disk no_disk)
    as (_ & _ & _ & H2).
  pose proof (disk_serve_correct {| spdkClient := Some "a" |} MDiskDelete block_disk no_disk)
    as (_ & _ & _ & H3).
  split_and!; [by apply H1|by apply (H2 "a")|by apply (H3 "a")].
Defined.

(** The disk in a request about replica instances is checked and then
    ignored. For any two correct requests about block disks, listing gives the
    same list, the replicas of every disk, and deleting a replica makes the same
    call, wherever the replica is stored. *)
Theorem replica_ops_ignore_disk (s : DiskServer) (req req' : DiskRequest) (replica : string) :
  DqType req = DiskType_block → DqType req' = DiskType_block →
  args_ok (MReplicaDelete replica) req → args_ok (MReplicaDelete replica) req' →
  disk_serve s MReplicaList req = disk_serve s MReplicaList req' ∧
  disk_serve s (MReplicaDelete replica) req = disk_serve s (MReplicaDelete replica) req'.
Proof.
  intros Ht Ht' (Hn & Hu & Hr) (Hn' & Hu' & _). simpl.
  unfold DiskReplicaInstanceList, DiskReplicaInstanceDelete, is_empty.
  by rewrite !bool_decide_false, Ht, Ht' by done.
Qed.

Theorem replica_ops_ignore_disk_witness :
  disk_serve {| spdkClient := Some "a" |} (MReplicaDelete "vol-r-1") block_disk =
  disk_serve {| spdkClient := Some "a" |} (MReplicaDelete "vol-r-1")
    {| DqType := 1; DqName := "other"; DqUuid := "v"; DqPath := ""; DqDriver := "" |}.
Proof.
  by apply (replica_ops_ignore_disk {| spdkClient := Some "a" |} block_disk
    {| DqType := 1; DqName := "other"; DqUuid := "v"; DqPath := ""; DqDriver := "" |} "vol-r-1").
Defined.

(** ** Conversions *)

(** The conversions of the answers of the SPDK service lose nothing and mix
    nothing up: different disks, health reports and metrics stay different, and
    two replicas that become the same instance have the same name, the same
    disk and the same sizes. *)
Theorem disk_conversions_injective :
  Inj (=) (=) spdkDiskToDisk ∧ Inj (=) (=) health_response ∧ Inj (=) (=) metrics_reply ∧
  (∀ r r', replicaToReplicaInstance r = replicaToReplicaInstance r' ↔
     RName r = RName r' ∧ RLvsName r = RLvsName r' ∧ RLvsUUID r = RLvsUUID r' ∧
     RSpecSize r = RSpecSize r' ∧ RActualSize r = RActualSize r').
Proof.
  split_and!.
  - intros [] [] H. by injection H as ?; subst.
  - intros [] [] H. by injection H as ?; subst.
  - intros [] [] H. by injection H as ?; subst.
  - intros [] []. unfold replicaToReplicaInstance. simpl. naive_solver.
Qed.

(** ** Starting *)

Lemma ready_runs n l r :
  runs (IsSPDKTgtReady n) l r ↔
    (l = replicate n (answer ProbeTgt false) ∧ r = Some false) ∨
    ∃ k, (k < n)%nat ∧ l = replicate k (answer ProbeTgt false) ++ [answer ProbeTgt true] ∧
         r = Some true.
Proof.
  revert l. induction n as [|n IH]; intros l.
  { simpl. split; [naive_solver|]. intros [?|(k & Hk & _)]; [done|lia]. }
  cbn [IsSPDKTgtReady]. unfold call, mbind, free_bind. cbn [fbind runs]. split.
  - intros ([] & l' & -> & H); cbn [runs] in H.
    + destruct H as [-> ->]. right. exists O. split; [lia|done].
    + apply IH in H as [[-> ->]|(k & Hk & -> & ->)]; [by left|].
      right. exists (S k). split; [lia|done].
  - intros [[-> ->]|([|k] & Hk & -> & ->)].
    + exists false, (replicate n (answer ProbeTgt false)). split; [done|]. apply IH. by left.
    + exists true, []. done.
    + exists false, (replicate k (answer ProbeTgt false) ++ [answer ProbeTgt true]).
      split; [done|]. apply IH. right. exists k. split; [lia|done].
Qed.

(** Starting the disk server. Without SPDK it succeeds at once and has no
    client. With SPDK it probes the target at most sixty times, until the first
    success, then dials the service once; it fails if and only if all probes
    do, or the dialling does, and otherwise it has a client for the address it
    was given. These are all the runs, and all of them can happen. *)
Theorem NewServer_correct (addr : string) l r :
  (runs (NewServer false addr) l r ↔ l = [] ∧ r = Some (Ok {| spdkClient := None |})) ∧
  (runs (NewServer true addr) l r ↔
    (l = replicate 60 (answer ProbeTgt false) ∧
     r = Some (Err (EPlain "spdk_tgt is not ready in 1m0s"))) ∨
    ∃ k d, (k < 60)%nat ∧
      l = replicate k (answer ProbeTgt false) ++
            [answer ProbeTgt true; answer (Dial (SPDKService, addr)) d] ∧
      r = Some (match d with
                | Ok _ => Ok {| spdkClient := Some addr |}
                | Err e => Err (status_wrap Internal "failed to create SPDK client" e)
                end)).
Proof.
  split; [done|]. unfold NewServer. rewrite runs_bind. setoid_rewrite ready_runs. split.
  - intros [(b & l1 & l2 & -> & Hp & H)|[[[_ ?]|(k & _ & _ & ?)] _]]; [|done|done].
    destruct Hp as [[-> [= ->]]|(k & Hk & -> & [= ->])].
    + destruct H as [-> ->]. left. by rewrite app_nil_r.
    + destruct H as (d & l' & -> & -> & ->). right. exists k, d. by rewrite <- app_assoc.
  - intros [[-> ->]|(k & d & Hk & -> & ->)]; left.
    + exists false, (replicate 60 (answer ProbeTgt false)), []. rewrite app_nil_r.
      split_and!; [done|by left|done].
    + exists true, (replicate k (answer ProbeTgt false) ++ [answer ProbeTgt true]),
        [answer (Dial (SPDKService, addr)) d].
      rewrite <- app_assoc. split_and!; [done|right; by exists k|]. by exists d, [].
Qed.
