(* ===== verification/Broadcaster.v ===== *)
(** * The broadcaster

    [pkg/util/broadcaster/broadcaster.go]: subscriptions to the stream of
    process updates. Each critical section is a function on the broadcaster's
    state, which holds the channels of the subscribers by address; [bstep] lets
    them happen in any order, together with the receipts of the streaming
    goroutine and of the subscribers. What the subscribers have received and
    what the stream has sent is recorded for the statements. *)
From S2P Require Import Prelude.

Section broadcaster.
Context {A : Type}.

(** ** State *)

(** A subscriber's channel: its buffer and whether it is closed. Recorded: how
    many items had been sent when it was made, what its subscriber has
    received, and whether an item was dropped because the buffer was full. *)
Record chan := mkChan {
  buf : list A; is_closed : bool; joined : nat; got : list A; lost : bool;
}.
Definition cap : nat := 100.

(** The goroutine of [stream]: there is none, it waits for an item, it is about
    to send one, or its input is closed. *)
Inductive stream_pc := NoStream | Receiving | Sending (x : A) | Ending.

(** [crashed]: a send on a closed channel, or a second close of one. *)
Record Broadcaster := mkBroadcaster {
  running : bool; subs : gset nat; chans : gmap nat chan; streaming : stream_pc;
  sent : list A; crashed : bool;
}.

Definition new_broadcaster : Broadcaster :=
  {| running := false; subs := ∅; chans := ∅; streaming := NoStream; sent := [];
     crashed := false |}.

Definition set_chan (s : nat) (c : chan) (b : Broadcaster) : Broadcaster :=
  {| running := running b; subs := subs b; chans := <[s := c]> (chans b);
     streaming := streaming b; sent := sent b; crashed := crashed b |}.
Definition set_subs (ss : gset nat) (b : Broadcaster) : Broadcaster :=
  {| running := running b; subs := ss; chans := chans b; streaming := streaming b;
     sent := sent b; crashed := crashed b |}.
Definition set_stream (r : bool) (pc : stream_pc) (b : Broadcaster) : Broadcaster :=
  {| running := r; subs := subs b; chans := chans b; streaming := pc; sent := sent b;
     crashed := crashed b |}.
Definition crash (b : Broadcaster) : Broadcaster :=
  {| running := running b; subs := subs b; chans := chans b; streaming := streaming b;
     sent := sent b; crashed := true |}.

Definition closed_chan (c : chan) : chan :=
  {| buf := buf c; is_closed := true; joined := joined c; got := got c; lost := lost c |}.

(** ** Critical sections *)

(** [start]: [connect] succeeds with [None]. *)
Definition start (connect : option error) (b : Broadcaster) : option error * Broadcaster :=
  match connect with
  | Some e => (Some e, b)
  | None => (None, set_stream true Receiving b)
  end.

Definition Subscribe (connect : option error) (b : Broadcaster) : res nat * Broadcaster :=
  let '(e, b) := if running b then (None, b) else start connect b in
  match e with
  | Some e => (Err e, b)
  | None =>
      let sub := fresh (dom (chans b)) in
      (Ok sub,
       set_subs ({[sub]} ∪ subs b)
         (set_chan sub {| buf := []; is_closed := false; joined := length (sent b); got := [];
                          lost := false |} b))
  end.

(** [unsub], by the goroutine that waits for the subscriber's context, by the
    one that drops a slow consumer, or at the end of the stream. *)
Definition unsub (s : nat) (b : Broadcaster) : Broadcaster :=
  if bool_decide (s ∈ subs b) then
    match chans b !! s with
    | Some c =>
        set_subs (subs b ∖ {[s]}) (if is_closed c then crash b else set_chan s (closed_chan c) b)
    | None => b
    end
  else b.

(** One subscriber of the loop: the item is buffered, or dropped when the buffer
    is full. *)
Definition deliver (x : A) (c : chan) : chan :=
  if decide (length (buf c) < cap) then
    {| buf := buf c ++ [x]; is_closed := is_closed c; joined := joined c; got := got c;
       lost := lost c |}
  else
    {| buf := buf c; is_closed := is_closed c; joined := joined c; got := got c; lost := true |}.

Definition send_to (x : A) (s : nat) (b : Broadcaster) : Broadcaster :=
  match chans b !! s with
  | Some c => if is_closed c then crash b else set_chan s (deliver x c) b
  | None => b
  end.

Definition stream_item (x : A) (b : Broadcaster) : Broadcaster :=
  let b := foldr (send_to x) b (elements (subs b)) in
  {| running := running b; subs := subs b; chans := chans b; streaming := Receiving;
     sent := sent b ++ [x]; crashed := crashed b |}.

Definition stream_end (b : Broadcaster) : Broadcaster :=
  set_stream false NoStream (foldr unsub b (elements (subs b))).

(** A subscriber receives the head of its buffer. *)
Definition receive (s : nat) (b : Broadcaster) : Broadcaster :=
  match chans b !! s with
  | Some c =>
      match buf c with
      | x :: l => set_chan s {| buf := l; is_closed := is_closed c; joined := joined c;
                                got := got c ++ [x]; lost := lost c |} b
      | [] => b
      end
  | None => b
  end.

(** ** Steps *)

Inductive bstep : Broadcaster → Broadcaster → Prop :=
  | step_subscribe connect b : bstep b (Subscribe connect b).2
  | step_unsub s b : bstep b (unsub s b)
  | step_item x b : streaming b = Receiving → bstep b (set_stream (running b) (Sending x) b)
  | step_send x b : streaming b = Sending x → bstep b (stream_item x b)
  | step_eof b : streaming b = Receiving → bstep b (set_stream (running b) Ending b)
  | step_end b : streaming b = Ending → bstep b (stream_end b)
  | step_receive s b : bstep b (receive s b).

(** ** The invariant *)

(** What a subscriber has received or has in its buffer, of the items sent since
    it subscribed: some of them, in order; without a loss, the first ones; and
    while it is subscribed, all. *)
Record chan_ok (all : list A) (subscribed : bool) (c : chan) : Prop := {
  ok_closed : is_closed c = negb subscribed;
  ok_cap : length (buf c) ≤ cap;
  ok_joined : joined c ≤ length all;
  ok_sublist : (got c ++ buf c) `sublist_of` drop (joined c) all;
  ok_prefix : lost c = false → (got c ++ buf c) `prefix_of` drop (joined c) all;
  ok_all : lost c = false → subscribed = true → got c ++ buf c = drop (joined c) all;
}.

Record binv (b : Broadcaster) : Prop := {
  inv_crash : crashed b = false;
  inv_running : running b = true ↔ streaming b ≠ NoStream;
  inv_subs : subs b ⊆ dom (chans b);
  inv_chans : ∀ s c, chans b !! s = Some c → chan_ok (sent b) (bool_decide (s ∈ subs b)) c;
}.

Lemma binv_new : binv new_broadcaster.
Proof. split; simpl; [done|done|set_solver|]. by intros s c ?%lookup_empty_Some. Qed.

Lemma binv_subscribe connect b : binv b → binv (Subscribe connect b).2.
Proof.
  intros [Hc Hr Hs Hch]. unfold Subscribe.
  assert (∀ pc, running b = true ∨ pc = Receiving →
    let b' := if running b then b else set_stream true pc b in
    let sub := fresh (dom (chans b')) in
    binv (set_subs ({[sub]} ∪ subs b')
      (set_chan sub {| buf := []; is_closed := false; joined := length (sent b'); got := [];
                       lost := false |} b'))) as Hadd.
  { intros pc Hpc b' sub.
    assert (chans b' = chans b ∧ subs b' = subs b ∧ sent b' = sent b ∧ crashed b' = false ∧
            (running b' = true ∧ streaming b' ≠ NoStream)) as (E1 & E2 & E3 & E4 & E5).
    { unfold b'. destruct (running b) eqn:Er; simpl; split_and!; try done; [by apply Hr|].
      destruct Hpc as [?| ->]; done. }
    pose proof (is_fresh (dom (chans b'))) as Hf. fold sub in Hf. rewrite E1 in Hf.
    split; simpl; rewrite ?E1, ?E2, ?E3; [done|naive_solver|set_solver|].
    intros s c [[<- <-]|[Hne Hl]]%lookup_insert_Some.
    - rewrite bool_decide_true by set_solver. split; simpl; try done; try lia.
      + by rewrite drop_all.
      + by rewrite drop_all.
      + by rewrite drop_all.
    - rewrite (bool_decide_ext _ (s ∈ subs b)) by set_solver. by apply Hch. }
  destruct (running b) eqn:Er; [by apply (Hadd Receiving); left|].
  destruct connect as [e|]; simpl; [by split; rewrite ?Er|]. by apply (Hadd Receiving); right.
Qed.

Lemma unsub_facts s b :
  binv b → binv (unsub s b) ∧ subs (unsub s b) = subs b ∖ {[s]} ∧ sent (unsub s b) = sent b ∧
    streaming (unsub s b) = streaming b.
Proof.
  intros [Hc Hr Hs Hch]. unfold unsub. case_bool_decide as Hin; [|by split_and!; [|set_solver|..]].
  destruct (chans b !! s) as [c|] eqn:Hl; [|by apply not_elem_of_dom in Hl; set_solver].
  pose proof (Hch s c Hl) as Hok. rewrite bool_decide_true in Hok by done.
  destruct Hok as [H1 H2 H3 H4 H5 H6]. rewrite H1. simpl. split_and!; try done.
  split; simpl; [done|done|set_solver|].
  intros s' c' [[<- <-]|[Hne Hl']]%lookup_insert_Some.
  - rewrite bool_decide_false by set_solver. by split.
  - rewrite (bool_decide_ext _ (s' ∈ subs b)) by set_solver. by apply Hch.
Qed.

Lemma unsub_all l b :
  binv b → binv (foldr unsub b l) ∧ subs (foldr unsub b l) = subs b ∖ list_to_set l.
Proof.
  intros Hb. induction l as [|s l [IH1 IH2]]; simpl; [split; [done|set_solver]|].
  destruct (unsub_facts s _ IH1) as (? & -> & _). split; [done|]. rewrite IH2. set_solver.
Qed.

Lemma binv_end b : binv b → binv (stream_end b).
Proof.
  intros Hb. destruct (unsub_all (elements (subs b)) b Hb) as [[H1 H2 H3 H4] _].
  split; simpl; naive_solver.
Qed.

(** The loop over the subscribers. *)
Lemma send_all x l b :
  NoDup l → (∀ s, s ∈ l → ∃ c, chans b !! s = Some c ∧ is_closed c = false) →
  let b' := foldr (send_to x) b l in
  running b' = running b ∧ subs b' = subs b ∧ streaming b' = streaming b ∧ sent b' = sent b ∧
  crashed b' = crashed b ∧
  ∀ s, chans b' !! s = if bool_decide (s ∈ l) then deliver x <$> chans b !! s else chans b !! s.
Proof.
  induction 1 as [|s l Hs Hl IH]; intros Hopen; [done|].
  destruct IH as (E1 & E2 & E3 & E4 & E5 & E6); [by intros; apply Hopen; right|].
  destruct (Hopen s) as (c & Hc & Hcl); [by left|]. simpl.
  set (b1 := foldr (send_to x) b l) in *. unfold send_to.
  assert (chans b1 !! s = Some c) as Hc1 by (by rewrite E6, bool_decide_false).
  rewrite Hc1, Hcl. simpl. split_and!; try done. intros s'.
  destruct (decide (s' = s)) as [->|Hne].
  - by rewrite lookup_insert_eq, bool_decide_true, Hc by set_solver.
  - rewrite lookup_insert_ne, E6 by done.
    by rewrite (bool_decide_ext (s' ∈ s :: l) (s' ∈ l)) by set_solver.
Qed.

Lemma chan_ok_deliver x all c :
  chan_ok all true c → chan_ok (all ++ [x]) true (deliver x c).
Proof.
  intros [H1 H2 H3 H4 H5 H6]. unfold deliver. case_decide as Hlt; split; simpl;
    rewrite ?length_app; simpl; try done; try lia;
    rewrite ?drop_app_le, ?app_assoc by done.
  - by apply sublist_app.
  - intros Hl _ || intros Hl. rewrite H6 by done. done.
  - intros Hl _. by rewrite H6.
  - by apply sublist_inserts_r.
Qed.

Lemma chan_ok_sent x all c : chan_ok all false c → chan_ok (all ++ [x]) false c.
Proof.
  intros [H1 H2 H3 H4 H5 H6]. split; rewrite ?length_app; simpl; try done; try lia;
    rewrite ?drop_app_le by done.
  - by apply sublist_inserts_r.
  - intros Hl. by apply prefix_app_r, H5.
Qed.

Lemma binv_item x b : binv b → streaming b ≠ NoStream → binv (stream_item x b).
Proof.
  intros [Hc Hr Hs Hch] Hpc. unfold stream_item.
  destruct (send_all x (elements (subs b)) b) as (E1 & E2 & E3 & E4 & E5 & E6).
  { apply NoDup_elements. }
  { intros s Hin%elem_of_elements. assert (s ∈ dom (chans b)) as [c Hl]%elem_of_dom by set_solver.
    exists c. split; [done|]. by rewrite (ok_closed _ _ _ (Hch s c Hl)), bool_decide_true. }
  split; simpl; rewrite ?E1, ?E2, ?E4, ?E5; [done| | |].
  - split; [done|]. intros _. by apply Hr.
  - intros s Hin. apply elem_of_dom. rewrite E6. apply Hs, elem_of_dom in Hin as [c ->].
    case_bool_decide; eauto.
  - intros s c. rewrite E6. rewrite (bool_decide_ext (s ∈ elements (subs b)) (s ∈ subs b))
      by apply elem_of_elements.
    case_bool_decide as Hin.
    + intros (c0 & Hl & ->)%fmap_Some. apply chan_ok_deliver.
      pose proof (Hch s c0 Hl) as H. by rewrite bool_decide_true in H.
    + intros Hl. apply chan_ok_sent.
      pose proof (Hch s c Hl) as H. by rewrite bool_decide_false in H.
Qed.

Lemma binv_receive s b : binv b → binv (receive s b).
Proof.
  intros Hb. unfold receive. destruct (chans b !! s) as [c|] eqn:Hl; [|done].
  destruct (buf c) as [|x l] eqn:Hbuf; [done|]. destruct Hb as [Hc Hr Hs Hch].
  split; simpl; [done|done|set_solver|].
  intros s' c' [[<- <-]|[Hne Hl']]%lookup_insert_Some; [|by apply Hch].
  destruct (Hch s c Hl) as [H1 H2 H3 H4 H5 H6]. rewrite Hbuf in *.
  split; simpl in *; rewrite <- ?app_assoc; try done; lia.
Qed.

Lemma binv_step b b' : binv b → bstep b b' → binv b'.
Proof.
  intros Hb Hstep. destruct Hstep as [connect b|s b|x b Hpc|x b Hpc|b Hpc|b Hpc|s b].
  - by apply binv_subscribe.
  - by apply unsub_facts.
  - destruct Hb as [? Hr ? ?]. split; simpl; [done| |done|done]. rewrite Hr. by rewrite Hpc.
  - apply binv_item; [done|by rewrite Hpc].
  - destruct Hb as [? Hr ? ?]. split; simpl; [done| |done|done]. rewrite Hr. by rewrite Hpc.
  - by apply binv_end.
  - by apply binv_receive.
Qed.

Lemma binv_reachable b : rtc bstep new_broadcaster b → binv b.
Proof.
  assert (∀ b1 b2, rtc bstep b1 b2 → binv b1 → binv b2) as H.
  { induction 1; eauto using binv_step. }
  intros. eapply H; [done|apply binv_new].
Qed.

End broadcaster.
Arguments Broadcaster : clear implicits.
Arguments chan : clear implicits.

(** ** Properties *)

(** C16: subscribers of the broadcaster. In every interleaving of subscriptions,
    cancellations, the streaming goroutine and receipts: there is never a send
    on a closed channel nor a second close; there is a streaming goroutine if
    and only if the broadcaster runs; a channel is open exactly while it is
    subscribed and buffers at most a hundred items. Of the items sent since it
    subscribed, a subscriber has received or in its buffer a subsequence, in
    order; without a drop, a prefix; and while subscribed and without a drop,
    all of them. *)
Theorem broadcast_delivery {A} (b : Broadcaster A) (s : nat) (c : chan A) :
  rtc bstep new_broadcaster b → chans b !! s = Some c →
  crashed b = false ∧ (running b = true ↔ streaming b ≠ NoStream) ∧
  is_closed c = negb (bool_decide (s ∈ subs b)) ∧ length (buf c) ≤ 100 ∧
  (got c ++ buf c) `sublist_of` drop (joined c) (sent b) ∧
  (lost c = false → (got c ++ buf c) `prefix_of` drop (joined c) (sent b)) ∧
  (lost c = false → is_closed c = false → got c ++ buf c = drop (joined c) (sent b)).
Proof.
  intros Hb Hl. destruct (binv_reachable _ Hb) as [H1 H2 H3 H4].
  destruct (H4 s c Hl) as [C1 C2 C3 C4 C5 C6]. split_and!; try done.
  intros Hlost Hc. apply C6; [done|]. rewrite C1 in Hc. by case_bool_decide.
Qed.

(** A turn of the streaming goroutine. *)
Definition turn {A} (b : Broadcaster A) (x : A) : Broadcaster A :=
  stream_item x (set_stream (running b) (Sending x) b).

Lemma turns_steps {A} (xs : list A) b :
  streaming b = Receiving → rtc bstep b (foldl turn b xs).
Proof.
  revert b. induction xs as [|x xs IH]; intros b Hb; [done|]. simpl.
  eapply rtc_l; [by apply (step_item x)|]. eapply rtc_l; [by apply (step_send x)|].
  by apply IH.
Qed.

Definition first_sub : nat := fresh (∅ : gset nat).
Definition subscribed_once : Broadcaster nat := (Subscribe None new_broadcaster).2.

Lemma subscribed_reachable xs :
  rtc bstep new_broadcaster (foldl turn subscribed_once xs).
Proof. eapply rtc_l; [apply (step_subscribe None)|]. by apply turns_steps. Qed.

Theorem broadcast_delivery_witness :
  ∃ c, chans (foldl turn subscribed_once [7; 8]) !! first_sub = Some c ∧
       got c ++ buf c = [7; 8] ∧ is_closed c = false.
Proof.
  eexists. split; [vm_compute; reflexivity|].
  match goal with |- got ?c ++ _ = _ ∧ _ =>
    pose proof (broadcast_delivery (foldl turn subscribed_once [7; 8]) first_sub c
      (subscribed_reachable _) ltac:(vm_compute; reflexivity))
      as (_ & _ & _ & _ & _ & _ & H)
  end.
  by rewrite H.
Defined.

(** A slow subscriber can miss an item and get later ones. When its buffer is
    full the item is dropped at once, but the channel is closed by another
    goroutine, later: a subscriber that makes room in between goes on receiving,
    with a gap in the stream it cannot notice. *)
Theorem slow_subscriber_gap :
  ∃ (b : Broadcaster nat) (s : nat) (c : chan nat),
    rtc bstep new_broadcaster b ∧ chans b !! s = Some c ∧ s ∈ subs b ∧
    sent b = seq 0 102 ∧ got c ++ buf c = seq 0 100 ++ [101].
Proof.
  exists (turn (receive first_sub (foldl turn subscribed_once (seq 0 101))) 101), first_sub.
  eexists. split_and!.
  - etransitivity; [apply (subscribed_reachable (seq 0 101))|].
    eapply rtc_l; [apply (step_receive first_sub)|].
    by apply (turns_steps [101]).
  - vm_compute. reflexivity.
  - refine (bool_decide_unpack _ _). vm_compute. exact I.
  - vm_compute. reflexivity.
  - vm_compute. reflexivity.
Qed.

(** A failed connection leaves the broadcaster as it is, and only a
    broadcaster that does not run connects; otherwise [Subscribe] gives a new,
    open, empty channel that is subscribed, and leaves the others alone. When
    the stream ends every channel is closed, and a broadcaster that has ended
    starts again with the next subscription. *)
Theorem Subscribe_correct {A} (b : Broadcaster A) (connect : option error) :
  rtc bstep new_broadcaster b →
  (∀ e, running b = false → connect = Some e → Subscribe connect b = (Err e, b)) ∧
  (running b = true ∨ connect = None → ∃ s b',
     Subscribe connect b = (Ok s, b') ∧ (s ∉ dom (chans b)) ∧ running b' = true ∧
     subs b' = {[s]} ∪ subs b ∧ sent b' = sent b ∧
     (∃ c, chans b' !! s = Some c ∧ buf c = [] ∧ is_closed c = false) ∧
     ∀ s', s' ≠ s → chans b' !! s' = chans b !! s') ∧
  (streaming b = Ending →
     running (stream_end b) = false ∧ subs (stream_end b) = ∅ ∧
     map_Forall (λ _ c, is_closed c = true) (chans (stream_end b))).
Proof.
  intros Hb%binv_reachable. split_and!.
  - intros e Hr ->. unfold Subscribe. by rewrite Hr.
  - intros Hor. pose proof (is_fresh (dom (chans b))) as Hf. unfold Subscribe.
    destruct (running b) eqn:Hr; [|destruct Hor as [?| ->]; [done|]]; simpl;
      do 2 eexists; (split; [done|]); simpl; split_and!; try done;
      first [by eexists; rewrite lookup_insert_eq|by intros; rewrite lookup_insert_ne].
  - intros He. pose proof (binv_end b Hb) as Hend.
    destruct (unsub_all (elements (subs b)) b Hb) as [_ Hsubs].
    assert (subs (stream_end b) = ∅) as Hnone.
    { unfold stream_end. simpl. rewrite Hsubs, list_to_set_elements_L. set_solver. }
    split_and!; [done|done|]. intros s c Hl.
    rewrite (ok_closed _ _ _ (inv_chans _ Hend s c Hl)), Hnone. by rewrite bool_decide_false.
Qed.

Theorem Subscribe_correct_witness :
  ∃ s b', Subscribe None (new_broadcaster : Broadcaster nat) = (Ok s, b') ∧ running b' = true.
Proof.
  destruct (proj1 (proj2 (Subscribe_correct (new_broadcaster : Broadcaster nat) None ltac:(done))))
    as (s & b' & H & _ & Hr & _); [by right|]. by exists s, b'.
Defined.
