(* ===== verification/ProcessLog.v ===== *)
(** * Streaming the log of a process

    [ProcessLog] of [pkg/process/process_manager.go] and [StreamLog] of
    [pkg/util/log.go]: a goroutine reads the lines of the log file and hands
    them over an unbuffered channel to the handler, which sends them to the
    caller; a second unbuffered channel lets the handler stop the goroutine. The
    two are one transition system; a step on a channel is a step of both. *)
From S2P Require Import Prelude.

(** Where the handler is: receiving from [logChan], sending a line to the
    caller, sending on [doneChan] after a failed send, or returned. *)
Inductive handler_pc :=
  | HRange
  | HSend (line : string)
  | HDone (e : error)
  | HReturned (e : option error).

(** Where the goroutine is: about to scan, with the lines left; sending a line
    on [logChan]; or ended, with [logChan] closed. *)
Inductive reader_pc :=
  | RScan (rest : list string)
  | RPush (line : string) (rest : list string)
  | REnded.

Record log_state := mkLogState {
  hpc : handler_pc; rpc : reader_pc; delivered : list string; file_open : bool;
}.

(** What [ProcessLog] does first: the error it returns, or the two goroutines
    on the lines of the file. *)
Definition ProcessLog (name : string) (found : bool) (opened : option error)
    (lines : list string) : error + log_state :=
  if found then
    match opened with
    | Some e => inl e
    | None => inr {| hpc := HRange; rpc := RScan lines; delivered := []; file_open := true |}
    end
  else inl (EStatus NotFound ("cannot find process " +:+ name)).

Section log.
(** The result of each send to the caller, in order. *)
Context (sends : nat → option error).

(** [select] takes the receive from [doneChan] when the handler waits to send
    on it, and its default otherwise. *)
Inductive log_step : log_state → log_state → Prop :=
  | log_scan h line rest d f :
      (∀ e, h ≠ HDone e) →
      log_step (mkLogState h (RScan (line :: rest)) d f) (mkLogState h (RPush line rest) d f)
  | log_stop e line rest d f :
      log_step (mkLogState (HDone e) (RScan (line :: rest)) d f)
               (mkLogState (HReturned (Some e)) REnded d f)
  | log_eof h d f :
      log_step (mkLogState h (RScan []) d f) (mkLogState h REnded d false)
  | log_hand_over line rest d f :
      log_step (mkLogState HRange (RPush line rest) d f)
               (mkLogState (HSend line) (RScan rest) d f)
  | log_closed d f :
      log_step (mkLogState HRange REnded d f) (mkLogState (HReturned None) REnded d f)
  | log_sent line r d f :
      sends (length d) = None →
      log_step (mkLogState (HSend line) r d f) (mkLogState HRange r (d ++ [line]) f)
  | log_failed line r d f e :
      sends (length d) = Some e →
      log_step (mkLogState (HSend line) r d f) (mkLogState (HDone e) r d f).

Definition final (st : log_state) : Prop := ∀ st', ¬ log_step st st'.

(** ** Every execution ends *)

Definition reader_weight (r : reader_pc) : nat :=
  match r with RScan rest => 4 * length rest + 1 | RPush _ rest => 4 * length rest + 4 | REnded => 0 end.
Definition handler_weight (h : handler_pc) : nat :=
  match h with HRange | HDone _ => 1 | HSend _ => 2 | HReturned _ => 0 end.
Definition weight (st : log_state) : nat := reader_weight (rpc st) + handler_weight (hpc st).

Lemma log_step_weight st st' : log_step st st' → weight st' < weight st.
Proof. destruct 1; unfold weight; simpl; lia. Qed.

(** ** The states of an execution *)

Context (lines : list string).

(** The goroutine has [k] lines behind it. *)
Definition reader_at (k : nat) (r : reader_pc) (open : bool) : Prop :=
  match r with
  | RScan rest => rest = drop k lines ∧ open = true
  | RPush line rest => lines !! k = Some line ∧ rest = drop (S k) lines ∧ open = true
  | REnded => k = length lines ∧ open = false
  end.

Record log_inv (st : log_state) : Prop := {
  inv_delivered : delivered st = take (length (delivered st)) lines;
  inv_sends : ∀ j, j < length (delivered st) → sends j = None;
  inv_pcs :
    let i := length (delivered st) in
    match hpc st with
    | HRange => reader_at i (rpc st) (file_open st)
    | HSend line => lines !! i = Some line ∧ reader_at (S i) (rpc st) (file_open st)
    | HDone e => sends i = Some e ∧ i < length lines ∧
        reader_at (S i) (rpc st) (file_open st)
    | HReturned None => i = length lines ∧ rpc st = REnded ∧ file_open st = false
    | HReturned (Some e) => sends i = Some e ∧ S i < length lines ∧ rpc st = REnded ∧
        file_open st = true
    end;
}.

Lemma reader_scan k line rest open :
  reader_at k (RScan (line :: rest)) open → reader_at k (RPush line rest) open.
Proof.
  intros [Hd ->]. simpl. assert (lines !! k = Some line) as Hk.
  { rewrite <- (Nat.add_0_r k), <- lookup_drop, <- Hd. done. }
  split_and!; [done| |done]. rewrite (drop_S _ _ _ Hk) in Hd. by injection Hd.
Qed.

Lemma reader_eof k open : k ≤ length lines → reader_at k (RScan []) open → reader_at k REnded false.
Proof.
  intros Hk [Hd _]. split; [|done]. symmetry in Hd. apply (f_equal length) in Hd.
  rewrite length_drop in Hd. simpl in Hd. lia.
Qed.

Lemma log_inv_step st st' : log_inv st → log_step st st' → log_inv st'.
Proof.
  intros [H1 H2 H3] Hst.
  destruct Hst as [h line rest d f Hh|e line rest d f|h d f|line rest d f|d f|line r d f Hs
                  |line r d f e Hs]; simpl in *.
  - split; simpl; [done|done|]. destruct h as [|l|e|[e|]].
    + by apply reader_scan.
    + destruct H3. split; [done|]. by apply reader_scan.
    + by destruct (Hh e).
    + naive_solver.
    + naive_solver.
  - destruct H3 as (He & Hi & [Hr ->]). split; simpl; [done|done|]. split_and!; try done.
    apply (f_equal length) in Hr. rewrite length_drop in Hr. simpl in Hr. lia.
  - assert (length d ≤ length lines) as Hlen by (rewrite H1, length_take; lia).
    split; simpl; [done|done|]. destruct h as [|l|e|[e|]]; [| | |naive_solver|naive_solver].
    + by eapply reader_eof.
    + destruct H3 as [Hl H3]. split; [done|]. apply lookup_lt_Some in Hl. eapply reader_eof; [lia|done].
    + destruct H3 as (? & ? & H3). split; [done|]. split; [done|]. eapply reader_eof; [lia|done].
  - destruct H3 as (Hl & -> & ->). by split.
  - destruct H3 as [Hd ->]. by split.
  - destruct H3 as [Hl Hr]. split; simpl; rewrite ?length_app; simpl.
    + rewrite Nat.add_1_r, (take_S_r _ _ _ Hl). by f_equal.
    + intros j Hj. destruct (decide (j = length d)) as [->|]; [done|]. apply H2. lia.
    + by rewrite Nat.add_1_r.
  - destruct H3 as [Hl Hr]. split; simpl; [done|done|]. split_and!; [done| |done].
    by eapply lookup_lt_Some.
Qed.

Definition log_init : log_state :=
  {| hpc := HRange; rpc := RScan lines; delivered := []; file_open := true |}.

Lemma log_inv_reachable st : rtc log_step log_init st → log_inv st.
Proof.
  assert (log_inv log_init) as H0.
  { split; simpl; [done|lia|done]. }
  intros Hr. revert H0. by induction Hr; eauto using log_inv_step.
Qed.

Lemma final_blocked e l r d f : final (mkLogState (HDone e) (RPush l r) d f).
Proof. intros st Hst. inversion Hst; subst; naive_solver. Qed.

Lemma final_ended e d f : final (mkLogState (HDone e) REnded d f).
Proof. intros st Hst. inversion Hst. Qed.
End log.

Lemma first_failure (sends : nat → option error) i k e e' :
  (∀ j, j < i → sends j = None) → (∀ j, j < k → sends j = None) →
  sends i = Some e → sends k = Some e' → i = k.
Proof.
  intros Hi Hk Hei Hek. destruct (lt_eq_lt_dec i k) as [[?|?]|?]; [|done|].
  - by rewrite Hk in Hei.
  - by rewrite Hi in Hek.
Qed.

(** How an execution has ended, by where the handler is. *)
Lemma log_final sends lines st :
  rtc (log_step sends) (log_init lines) st → final sends st →
  let i := length (delivered st) in
  delivered st = take i lines ∧ i ≤ length lines ∧ (∀ j, j < i → sends j = None) ∧
  match hpc st with
  | HReturned None => i = length lines ∧ file_open st = false
  | HReturned (Some e) => sends i = Some e ∧ S i < length lines ∧ file_open st = true
  | HDone e => sends i = Some e ∧ i < length lines
  | _ => False
  end.
Proof.
  intros Hr Hfin. destruct (log_inv_reachable sends lines st Hr) as [H1 H2 H3].
  destruct st as [h r d f]. simpl in *.
  assert (length d ≤ length lines) as Hlen by (rewrite H1, length_take; lia).
  split_and!; [done..|]. destruct h as [|line|e|[e|]].
  - destruct r as [[|l rest]|l rest|].
    + eapply Hfin, log_eof.
    + eapply Hfin, log_scan. done.
    + eapply Hfin, log_hand_over.
    + eapply Hfin, log_closed.
  - destruct (sends (length d)) eqn:Hs; [by eapply Hfin, log_failed|by eapply Hfin, log_sent].
  - by destruct H3 as (? & ? & _).
  - by destruct H3 as (? & ? & _ & ?).
  - by destruct H3 as (? & _ & ?).
Qed.

(** The caller takes every line: then it gets them all. *)
Lemma log_all_sent sends lines st :
  rtc (log_step sends) (log_init lines) st → final sends st →
  (∀ i, i < length lines → sends i = None) →
  hpc st = HReturned None ∧ delivered st = lines ∧ file_open st = false.
Proof.
  intros Hr Hfin Hall. destruct (log_final sends lines st Hr Hfin) as (Hd & Hle & _ & H).
  destruct (hpc st) as [|line|e|[e|]]; try done.
  - destruct H as [Hs ?]. by rewrite Hall in Hs.
  - destruct H as (Hs & ? & _). rewrite Hall in Hs; [done|lia].
  - destruct H as [Hi Hf]. by rewrite Hi, firstn_all in Hd.
Qed.

(** ** Properties *)

(** The handler waits for ever to send on [doneChan]. *)
Definition blocked_for_ever (st : log_state) : Prop :=
  ∃ e, hpc st = HDone e.

(** C17: how the streaming of a log can end. Every execution is finite. If all
    sends to the caller succeed, it ends with all lines delivered in order, a
    return without error and the file closed. If a send fails, the lines before
    it have been delivered, and then either the handler returns that error and
    the file is never closed, or the handler is blocked for ever; after the
    last line only the latter is possible. *)
Theorem ProcessLog_outcomes (sends : nat → option error) (lines : list string) (st : log_state) :
  (∀ st0, sn (log_step sends) st0) ∧
  (rtc (log_step sends) (log_init lines) st → final sends st →
   ((∀ i, i < length lines → sends i = None) →
      hpc st = HReturned None ∧ delivered st = lines ∧ file_open st = false) ∧
   (∀ i e, i < length lines → sends i = Some e → (∀ j, j < i → sends j = None) →
      delivered st = take i lines ∧
      ((hpc st = HReturned (Some e) ∧ file_open st = true ∧ S i < length lines) ∨
       blocked_for_ever st))).
Proof.
  split; [apply (weight_sn _ weight), log_step_weight|].
  intros Hr Hfin. split; [by apply log_all_sent|].
  intros i e Hi Hs Hbefore.
  destruct (log_final sends lines st Hr Hfin) as (Hd & Hle & Hsent & H).
  assert (∀ e', sends (length (delivered st)) = Some e' → i = length (delivered st)) as Heq.
  { intros e' He'. by eapply first_failure. }
  destruct (hpc st) as [|line|e'|[e'|]] eqn:Hh; try done.
  - destruct H as [He' _]. rewrite (Heq _ He'). split; [done|]. right. by exists e'.
  - destruct H as (He' & Hlt & Hf). pose proof (Heq _ He') as ->. split; [done|]. left.
    split_and!; [congruence|done|done].
  - destruct H as [Hall _]. rewrite Hsent in Hs by lia. done.
Qed.

(** A caller that goes away can hang the handler. If the send of some line
    fails, whatever the line, there is an execution that ends with the handler
    blocked for ever: the goroutine has ended, or waits to hand over the next
    line, and neither receives from [doneChan]. *)
Theorem ProcessLog_can_hang (sends : nat → option error) (lines : list string) (i : nat) (e : error) :
  i < length lines → sends i = Some e → (∀ j, j < i → sends j = None) →
  ∃ st, rtc (log_step sends) (log_init lines) st ∧ final sends st ∧ blocked_for_ever st.
Proof.
  intros Hi Hs Hbefore.
  assert (∀ k, k ≤ i → rtc (log_step sends) (log_init lines)
            (mkLogState HRange (RScan (drop k lines)) (take k lines) true)) as Hk.
  { induction k as [|k IH]; intros Hk; [done|]. etransitivity; [apply IH; lia|].
    destruct (lookup_lt_is_Some_2 lines k) as [l Hl]; [lia|].
    rewrite (drop_S _ _ _ Hl), (take_S_r _ _ _ Hl).
    eapply rtc_l; [by apply log_scan|]. eapply rtc_l; [apply log_hand_over|].
    eapply rtc_once, log_sent. rewrite length_take_le by lia. apply Hbefore. lia. }
  destruct (lookup_lt_is_Some_2 lines i Hi) as [l Hl].
  assert (rtc (log_step sends) (log_init lines)
            (mkLogState (HSend l) (RScan (drop (S i) lines)) (take i lines) true)) as Hsend.
  { etransitivity; [by apply Hk|]. rewrite (drop_S _ _ _ Hl).
    eapply rtc_l; [by apply log_scan|]. apply rtc_once, log_hand_over. }
  assert (sends (length (take i lines)) = Some e) as Hfail by (rewrite length_take_le by lia; done).
  destruct (drop (S i) lines) as [|l' rest].
  - exists (mkLogState (HDone e) REnded (take i lines) false). split_and!; [|apply final_ended|by exists e].
    etransitivity; [exact Hsend|]. eapply rtc_l; [apply log_eof|]. by apply rtc_once, log_failed.
  - exists (mkLogState (HDone e) (RPush l' rest) (take i lines) true).
    split_and!; [|apply final_blocked|by exists e].
    etransitivity; [exact Hsend|]. eapply rtc_l; [by apply log_scan|]. by apply rtc_once, log_failed.
Qed.

(** The caller goes away after one line of two. *)
Definition gone_after_one (i : nat) : option error :=
  if decide (i = 1) then Some (EStatus Unavailable "transport is closing") else None.

Theorem ProcessLog_can_hang_witness :
  ∃ st, rtc (log_step gone_after_one) (log_init ["a"; "b"]) st ∧ final gone_after_one st ∧
        blocked_for_ever st.
Proof.
  apply (ProcessLog_can_hang gone_after_one ["a"; "b"] 1 (EStatus Unavailable "transport is closing"));
    [simpl; lia|done|].
  intros j Hj. unfold gone_after_one. by rewrite decide_False by lia.
Defined.

(** An execution on one line, to its end. *)
Definition one_line_done : log_state := mkLogState (HReturned None) REnded ["a"] false.

Lemma one_line_run : rtc (log_step (λ _, None)) (log_init ["a"]) one_line_done.
Proof.
  eapply rtc_l; [by apply log_scan|]. eapply rtc_l; [apply log_hand_over|].
  eapply rtc_l; [by apply log_sent|]. eapply rtc_l; [apply log_eof|].
  apply rtc_once, log_closed.
Qed.

Theorem ProcessLog_outcomes_witness :
  sn (log_step (λ _, None)) (log_init ["a"]) ∧ delivered one_line_done = ["a"].
Proof.
  pose proof (ProcessLog_outcomes (λ _, None) ["a"] one_line_done) as [Hsn H].
  split; [apply Hsn|].
  apply (proj1 (H one_line_run ltac:(intros st Hst; inversion Hst))). done.
Defined.
