(* ===== verification/LogFile.v ===== *)
(** * The log files of the processes

    [pkg/util/log.go]: a [LonghornWriter] appends what a process prints to its
    own file in the directory of logs, and hands it to the program's logger;
    the formatter of that logger; the lines that [StreamLog] scans. The paths
    are those of [path/filepath]. [fs_call] is a file system, for whole runs. *)
From S2P Require Import Prelude GoStrings Calls ProcessLog.

#[local] Open Scope Z_scope.
#[local] Open Scope go_scope.

(** ** Paths ([path/filepath] on Unix) *)

(** One element of a path, on the elements before it, the last one first. *)
Definition clean_step (rooted : bool) (out : list string) (c : string) : list string :=
  if bool_decide (c = "" ∨ c = ".") then out
  else if bool_decide (c = "..") then
    match out with
    | [] => if rooted then [] else [".."]
    | x :: out' => if bool_decide (x = "..") then ".." :: out else out'
    end
  else c :: out.

Definition IsAbs (p : string) : bool := has_prefix p "/".

Definition Clean (p : string) : string :=
  let out := join "/" (rev (fold_left (clean_step (IsAbs p)) (split "/" p) [])) in
  if IsAbs p then "/" +:+ out else if bool_decide (out = "") then "." else out.

Fixpoint Join (elems : list string) : string :=
  match elems with
  | [] => ""
  | e :: elems' => if bool_decide (e = "") then Join elems' else Clean (join "/" elems)
  end.

(** [path.Base]: the last element that is not empty. *)
Definition Base (p : string) : string :=
  if bool_decide (p = "") then "."
  else default "/" (last (filter (λ c, c ≠ "") (split "/" p))).

(** ** The operating system and the logger *)

Inductive open_flag := O_RDONLY | O_WRONLY | O_CREATE | O_APPEND.

#[export] Instance open_flag_eq_dec : EqDecision open_flag.
Proof. solve_decision. Defined.

Inductive fileE : Type → Type :=
  | Getwd : fileE (res string)
  | MkdirAll (path : string) : fileE (option error)
  | OpenFile (path : string) (flags : list open_flag) : fileE (res nat)
  | FileWrite (f : nat) (input : string) : fileE (res Z)
  | FileSync (f : nat) : fileE (option error)
  | FileClose (f : nat) : fileE (option error)
  | Println (component msg : string) : fileE unit
  | SetReportCaller (b : bool) : fileE unit
  | SetFormatter (logsDir : string) : fileE unit.

Definition Abs (p : string) : free fileE (res string) :=
  if IsAbs p then mret (Ok (Clean p))
  else
    wd ← call Getwd;
    mret (match wd with Ok wd => Ok (Join [wd; p]) | Err e => Err e end).

(** ** The writer *)

Record LonghornWriter := mkWriter { WFile : nat; WName : string; WPath : string }.

Definition NewLonghornWriter (name logsDir : string) : free fileE (res LonghornWriter) :=
  r ← Abs (Join [logsDir; name +:+ ".log"]);
  match r with
  | Err e => mret (Err e)
  | Ok logPath =>
      r ← call (OpenFile logPath [O_CREATE; O_WRONLY; O_APPEND]);
      mret (match r with
            | Err e => Err e
            | Ok file => Ok {| WFile := file; WName := name; WPath := logPath |}
            end)
  end.

Definition LonghornWriter_Close (l : LonghornWriter) : free fileE (option error) :=
  call (FileClose (WFile l)).

(** The number of bytes written, and the error. *)
Definition LonghornWriter_Write (l : LonghornWriter) (input : string) :
    free fileE (Z * option error) :=
  call (Println (WName l) input);;
  r ← call (FileWrite (WFile l) input);
  match r with
  | Err e => mret (0, Some e)
  | Ok outLen =>
      e ← call (FileSync (WFile l));
      mret (match e with Some e => (0, Some e) | None => (outLen, None) end)
  end.

(** The start of [StreamLog]: the file opened for reading. *)
Definition StreamLog_open (l : LonghornWriter) : free fileE (res nat) :=
  call (OpenFile (WPath l) [O_RDONLY]).

(** ** The logger *)

Section logger.
(** [os.IsPermission], and [TextFormatter.Format] of the logging library. *)
Context (IsPermission : error → bool).

Definition SetUpLogger (logsDir : string) : free fileE (option error) :=
  e ← call (MkdirAll logsDir);
  match e with
  | Some e => mret (Some e)
  | None =>
      r ← Abs logsDir;
      match r with
      | Err e => mret (Some e)
      | Ok logsDir =>
          r ← call (OpenFile (Join [logsDir; "test"]) [O_WRONLY; O_CREATE]);
          match r with
          | Err e =>
              if IsPermission e then mret (Some e)
              else call (SetReportCaller true);; call (SetFormatter logsDir);; mret None
          | Ok _ => call (SetReportCaller true);; call (SetFormatter logsDir);; mret None
          end
      end
  end.

(** A field of a log entry: a string, or a value of another type. *)
Inductive field := FString (s : string) | FOther.

Record Entry := mkEntry { EntryData : gmap string field; EntryMessage : string }.

Context (TextFormat : Entry → res string).

Definition LogComponentField : string := "component".
Definition default_component : string := "longhorn-instance-manager".

Definition Format (entry : Entry) : res string :=
  match default (FString default_component) (EntryData entry !! LogComponentField) with
  | FOther => Err (EPlain "field component must be a string")
  | FString component =>
      let prefix := "[" +:+ component +:+ "] " in
      if bool_decide (component = default_component) then
        match TextFormat entry with
        | Err e => Err e
        | Ok msg => Ok (prefix +:+ msg)
        end
      else Ok (prefix +:+ EntryMessage entry)
  end.
End logger.

(** [CallerPrettyfier] of the formatter, and of [main]: the function and the
    place of a call. *)
Definition CallerPrettyfier (file : string) (line : Z) (function : string) : string * string :=
  (Base function, Base file +:+ ":" +:+ itoa line).

(** ** The lines of a file ([bufio.Scanner]) *)

Definition newline : ascii := ascii_of_nat 10.
Definition carriage_return : ascii := ascii_of_nat 13.
Definition MaxScanTokenSize : Z := 64 * 1024.

Definition drop_cr (line : string) : string :=
  match rev_string line "" with
  | String a r => if bool_decide (a = carriage_return) then rev_string r "" else line
  | EmptyString => line
  end.

(** A line and its newline have to fit the buffer; the scan ends at the first
    line that does not, without a word to [StreamLog]. *)
Fixpoint scan_tokens (raw : list string) : list string :=
  match raw with
  | [] => []
  | line :: raw' =>
      if bool_decide (Z.of_nat (String.length line) < MaxScanTokenSize)
      then drop_cr line :: scan_tokens raw' else []
  end.

(** Nothing comes after a last newline. *)
Fixpoint drop_last_empty (raw : list string) : list string :=
  match raw with
  | [] => []
  | [line] => if bool_decide (line = "") then [] else [line]
  | line :: raw' => line :: drop_last_empty raw'
  end.

Definition scan_lines (content : string) : list string :=
  scan_tokens (drop_last_empty (split newline content)).

(** ** A file system *)

(** The contents of the files by path, and the paths of the open files, which
    are open for appending. *)
Record files := mkFiles { contents : gmap string string; opened : list string }.

Definition fs_call (X : Type) (e : fileE X) (s : files) : X * files :=
  match e in fileE X return X * files with
  | Getwd => (Ok "/", s)
  | MkdirAll _ => (None, s)
  | OpenFile p flags =>
      if bool_decide (O_CREATE ∈ flags) || bool_decide (is_Some (contents s !! p)) then
        (Ok (length (opened s)),
         {| contents := <[p := default "" (contents s !! p)]> (contents s);
            opened := opened s ++ [p] |})
      else (Err (EPlain ("open " +:+ p +:+ ": no such file or directory")), s)
  | FileWrite f input =>
      match opened s !! f with
      | Some p =>
          (Ok (Z.of_nat (String.length input)),
           {| contents := <[p := default "" (contents s !! p) +:+ input]> (contents s);
              opened := opened s |})
      | None => (Err (EPlain "file already closed"), s)
      end
  | FileSync _ => (None, s)
  | FileClose _ => (None, s)
  | Println _ _ => (tt, s)
  | SetReportCaller _ => (tt, s)
  | SetFormatter _ => (tt, s)
  end.

(** A process prints [chunks] to its writer, until a write fails. *)
Fixpoint write_all (l : LonghornWriter) (chunks : list string) : free fileE (option error) :=
  match chunks with
  | [] => mret None
  | c :: chunks' =>
      r ← LonghornWriter_Write l c;
      match r.2 with Some e => mret (Some e) | None => write_all l chunks' end
  end.

(** A process of this name runs and prints [chunks]. *)
Definition write_log (dir name : string) (chunks : list string) : free fileE (option error) :=
  r ← NewLonghornWriter name dir;
  match r with Err e => mret (Some e) | Ok l => write_all l chunks end.

(** ** The path of a log file *)

(** An element of a clean path. *)
Definition normal (c : string) : Prop := c ≠ "" ∧ c ≠ "." ∧ c ≠ ".." ∧ contains "/" c = false.

(** A clean absolute path. *)
Definition clean_dir (dir : string) : Prop :=
  ∃ cs, cs ≠ [] ∧ Forall normal cs ∧ dir = "/" +:+ join "/" cs.

Lemma fold_normal cs out :
  Forall normal cs → fold_left (clean_step true) cs out = rev cs ++ out.
Proof.
  intros Hcs. revert out. induction Hcs as [|c cs (H1 & H2 & H3 & _) _ IH]; intros out; [done|].
  cbn [fold_left rev]. rewrite IH. unfold clean_step. rewrite !bool_decide_false by naive_solver.
  by rewrite <- app_assoc.
Qed.

Lemma split_join cs :
  cs ≠ [] → Forall (λ c, contains "/" c = false) cs → split "/" (join "/" cs) = cs.
Proof.
  intros Hne Hcs. induction Hcs as [|c cs Hc Hcs IH]; [done|].
  destruct cs as [|c' cs]; [by apply split_no_sep|].
  change (join "/" (c :: c' :: cs)) with (c +:+ String "/" (join "/" (c' :: cs))).
  rewrite split_app_sep by done. f_equal. by apply IH.
Qed.

Lemma Clean_normal cs :
  cs ≠ [] → Forall normal cs → Clean ("/" +:+ join "/" cs) = "/" +:+ join "/" cs.
Proof.
  intros Hne Hcs. unfold Clean. change (IsAbs ("/" +:+ join "/" cs)) with true. cbn iota.
  change ("/" +:+ join "/" cs) with (String "/" (join "/" cs)).
  change (split "/" (String "/" (join "/" cs))) with (split "/" ("" +:+ String "/" (join "/" cs))).
  rewrite split_app_sep, split_join; [|done| |done].
  - cbn [fold_left]. change (clean_step true [] "") with (@nil string).
    by rewrite fold_normal, app_nil_r, rev_involutive.
  - eapply Forall_impl; [exact Hcs|]. by intros c (_ & _ & _ & ?).
Qed.

Lemma join_snoc cs c : cs ≠ [] → join "/" (cs ++ [c]) = join "/" cs +:+ "/" +:+ c.
Proof.
  intros Hne. induction cs as [|x cs IH]; [done|]. destruct cs as [|y cs]; [done|].
  change (join "/" ((x :: y :: cs) ++ [c])) with (x +:+ "/" +:+ join "/" ((y :: cs) ++ [c])).
  rewrite IH by done. change (join "/" (x :: y :: cs)) with (x +:+ "/" +:+ join "/" (y :: cs)).
  by rewrite !string_app_assoc.
Qed.

Lemma normal_log name : contains "/" name = false → normal (name +:+ ".log").
Proof.
  intros Hn. split_and!.
  - by destruct name.
  - destruct name as [|a [|b name]]; [done|intros [=]..].
  - destruct name as [|a [|b [|c name]]]; [done|intros [=]..].
  - by rewrite contains_app, Hn.
Qed.

Lemma log_path dir name :
  clean_dir dir → contains "/" name = false →
  Abs (Join [dir; name +:+ ".log"]) = mret (Ok (dir +:+ "/" +:+ name +:+ ".log")).
Proof.
  intros (cs & Hne & Hcs & ->) Hn.
  assert (Forall normal (cs ++ [name +:+ ".log"])) as Hall.
  { apply Forall_app. split; [done|]. constructor; [by apply normal_log|constructor]. }
  assert (cs ++ [name +:+ ".log"] ≠ []) as Hne' by (by destruct cs).
  assert (Join ["/" +:+ join "/" cs; name +:+ ".log"] = "/" +:+ join "/" cs +:+ "/" +:+ name +:+ ".log") as ->.
  { cbn [Join]. rewrite bool_decide_false by done.
    change (join "/" ["/" +:+ join "/" cs; name +:+ ".log"]) with
      ("/" +:+ (join "/" cs +:+ "/" +:+ (name +:+ ".log"))).
    rewrite <- join_snoc by done. by rewrite Clean_normal, join_snoc. }
  unfold Abs.
  change (IsAbs ("/" +:+ join "/" cs +:+ "/" +:+ name +:+ ".log")) with true. cbn iota.
  rewrite <- join_snoc by done. rewrite Clean_normal by done. by rewrite join_snoc.
Qed.

(** ** The lines of a log *)

(** A line that is scanned as it is. *)
Definition plain_line (line : string) : Prop :=
  contains newline line = false ∧ drop_cr line = line ∧
  Z.of_nat (String.length line) < MaxScanTokenSize.

Fixpoint unlines (lines : list string) : string :=
  match lines with [] => "" | line :: lines' => line +:+ String newline (unlines lines') end.

Lemma split_unlines lines rest :
  Forall (λ l, contains newline l = false) lines →
  split newline (unlines lines +:+ rest) = lines ++ split newline rest.
Proof.
  induction 1 as [|l lines Hl _ IH]; [done|]. cbn [unlines].
  rewrite <- string_app_assoc. change (String newline (unlines lines) +:+ rest)
    with (String newline (unlines lines +:+ rest)).
  rewrite split_app_sep by done. by rewrite IH.
Qed.

Lemma drop_last_empty_snoc lines : drop_last_empty (lines ++ [""]) = lines.
Proof.
  induction lines as [|l lines IH]; [done|].
  assert (drop_last_empty ((l :: lines) ++ [""]) = l :: drop_last_empty (lines ++ [""])) as ->
    by by destruct lines.
  by rewrite IH.
Qed.

Lemma scan_tokens_app lines rest :
  Forall plain_line lines → scan_tokens (lines ++ rest) = lines ++ scan_tokens rest.
Proof.
  induction 1 as [|l lines (_ & Hcr & Hlen) _ IH]; [done|]. cbn [app scan_tokens].
  by rewrite bool_decide_true, Hcr, IH.
Qed.

Lemma scan_unlines lines : Forall plain_line lines → scan_lines (unlines lines) = lines.
Proof.
  intros Hl. unfold scan_lines. rewrite <- (string_app_nil_r (unlines lines)).
  rewrite split_unlines by (eapply Forall_impl; [exact Hl|]; by intros ? [? _]).
  change (split newline "") with [""]. rewrite drop_last_empty_snoc.
  pose proof (scan_tokens_app lines [] Hl) as H. by rewrite !app_nil_r in H.
Qed.

(** A line that is too long, and all lines after it, are not scanned. *)
Lemma scan_too_long lines long rest :
  Forall plain_line lines → contains newline long = false →
  MaxScanTokenSize ≤ Z.of_nat (String.length long) →
  scan_lines (unlines lines +:+ long +:+ String newline rest) = lines.
Proof.
  intros Hl Hlong Hlen. unfold scan_lines.
  rewrite split_unlines by (eapply Forall_impl; [exact Hl|]; by intros ? [? _]).
  rewrite split_app_sep by done.
  assert (∃ tl, drop_last_empty (lines ++ long :: split newline rest) = lines ++ long :: tl)
    as [tl ->].
  { clear. pose proof (split_not_nil newline rest). destruct (split newline rest) as [|x xs]; [done|].
    exists (drop_last_empty (x :: xs)). induction lines as [|l lines IH]; [done|].
    cbn [app]. rewrite <- IH. by destruct lines. }
  rewrite scan_tokens_app by done. cbn [scan_tokens].
  rewrite bool_decide_false by lia. apply app_nil_r.
Qed.

(** ** The file of a process *)

Fixpoint concat_all (chunks : list string) : string :=
  match chunks with [] => "" | c :: chunks' => c +:+ concat_all chunks' end.

Lemma exec_write_all l chunks p old s :
  opened s !! WFile l = Some p → contents s !! p = Some old →
  exec fs_call (write_all l chunks) s =
    (Some None, {| contents := <[p := old +:+ concat_all chunks]> (contents s);
                   opened := opened s |}).
Proof.
  revert s old. induction chunks as [|c chunks IH]; intros s old Ho Hc.
  - simpl. rewrite string_app_nil_r, insert_id by done. by destruct s.
  - cbn [write_all]. rewrite exec_bind. unfold LonghornWriter_Write.
    rewrite exec_bind. cbn [call exec fs_call]. rewrite exec_bind. cbn [call exec fs_call].
    rewrite Ho. cbn [call exec fs_call]. rewrite exec_bind. cbn. rewrite Hc.
    cbn [default]. erewrite IH; [|exact Ho|by cbn; rewrite lookup_insert_eq].
    cbn. by rewrite insert_insert_eq, string_app_assoc.
Qed.

(** All of what a process prints is in its file, and in no other. *)
Lemma exec_write_log dir name chunks s :
  clean_dir dir → contains "/" name = false →
  let path := dir +:+ "/" +:+ name +:+ ".log" in
  (exec fs_call (write_log dir name chunks) s).1 = Some None ∧
  contents (exec fs_call (write_log dir name chunks) s).2 =
    <[path := default "" (contents s !! path) +:+ concat_all chunks]> (contents s).
Proof.
  intros Hd Hn path. unfold write_log, NewLonghornWriter. rewrite (log_path dir name) by done.
  fold path. cbn -[write_all fs_call]. cbn [fs_call].
  rewrite bool_decide_true by (by left). cbn [orb].
  rewrite (exec_write_all _ _ path (default "" (contents s !! path))); cbn.
  - split; [done|]. by rewrite insert_insert_eq.
  - by rewrite lookup_app_r, Nat.sub_diag.
  - by rewrite lookup_insert_eq.
Qed.

Lemma unlines_app xs ys : unlines (xs ++ ys) = unlines xs +:+ unlines ys.
Proof.
  induction xs as [|x xs IH]; [done|]. cbn [app unlines]. rewrite IH.
  by rewrite <- string_app_assoc.
Qed.

Definition log_file (dir name : string) : string := dir +:+ "/" +:+ name +:+ ".log".

Lemma log_file_inj dir n n' : log_file dir n = log_file dir n' → n = n'.
Proof. intros H. do 2 apply app_inj_l in H. by apply app_inj_r in H. Qed.

(** A name with a slash takes the log out of the directory of logs. *)
Theorem log_path_escapes :
  Abs (Join ["/var/log/instances"; "../../tmp/x" +:+ ".log"]) = mret (Ok "/var/tmp/x.log") ∧
  Abs (Join ["/var/log/instances"; "../../../etc/cron.d/x" +:+ ".log"]) = mret (Ok "/etc/cron.d/x.log").
Proof. by split; vm_compute. Qed.

(** A text that begins with plain lines and goes on with nothing, or with a
    line that does not fit the scanner's buffer. *)
Definition scanned_as (text : string) (lines : list string) : Prop :=
  Forall plain_line lines ∧
  (text = unlines lines ∨
   ∃ long rest, text = unlines lines +:+ long +:+ String newline rest ∧
     contains newline long = false ∧ MaxScanTokenSize ≤ Z.of_nat (String.length long)).

(** C18: the log of a process, from what it prints to the caller of [ProcessLog].
    A process whose name has no slash prints some chunks, however they cut its
    lines: they are all added to its own log file, whatever was in it, and the
    logs of all other names are left alone. When the log is then streamed and
    the caller takes every line, it gets the lines of the file in order, and
    the call ends without an error. But the lines are those before the first one
    of 64 KiB or more: that one and all after it are missing, without an error. *)
Theorem log_end_to_end (dir name : string) (chunks lines : list string) (s : files)
    (sends : nat → option error) (st : log_state) :
  clean_dir dir → contains "/" name = false →
  let before := default "" (contents s !! log_file dir name) in
  let s' := (exec fs_call (write_log dir name chunks) s).2 in
  let after := default "" (contents s' !! log_file dir name) in
  after = before +:+ concat_all chunks ∧
  (∀ other, other ≠ name → contents s' !! log_file dir other = contents s !! log_file dir other) ∧
  (scanned_as after lines → rtc (log_step sends) (log_init (scan_lines after)) st →
   final sends st → (∀ i, (i < length lines)%nat → sends i = None) →
   delivered st = lines ∧ hpc st = HReturned None).
Proof.
  intros Hd Hn before s' after.
  destruct (exec_write_log dir name chunks s Hd Hn) as [_ Hc]. fold s' in Hc.
  change (dir +:+ "/" +:+ name +:+ ".log") with (log_file dir name) in Hc. split_and!.
  - unfold after. by rewrite Hc, lookup_insert_eq.
  - intros other Hne. rewrite Hc, lookup_insert_ne; [done|].
    intros H. by apply log_file_inj in H.
  - intros [Hl Htext] Hr Hfin Hs.
    assert (scan_lines after = lines) as Hscan.
    { destruct Htext as [->|(long & rest & -> & ? & ?)]; [by apply scan_unlines|].
      by apply scan_too_long. }
    rewrite Hscan in Hr. by destruct (log_all_sent sends lines st Hr Hfin Hs) as (? & ? & _).
Qed.

Theorem log_end_to_end_witness :
  let s' := (exec fs_call (write_log "/var/log/instances" "vol-e-0" ["a"; bytes [10%nat]])
               {| contents := ∅; opened := [] |}).2 in
  default "" (contents s' !! log_file "/var/log/instances" "vol-e-0") = unlines ["a"] ∧
  delivered one_line_done = ["a"].
Proof.
  assert (clean_dir "/var/log/instances") as Hd.
  { exists ["var"; "log"; "instances"]. split_and!; [done| |done].
    repeat constructor; done. }
  destruct (log_end_to_end "/var/log/instances" "vol-e-0" ["a"; bytes [10%nat]] ["a"]
    {| contents := ∅; opened := [] |} (λ _, None) one_line_done Hd eq_refl) as (Ha & _ & H).
  split; [by rewrite Ha|]. apply H.
  - split; [by repeat constructor|]. left. by rewrite Ha.
  - rewrite Ha. exact one_line_run.
  - intros st Hst. inversion Hst.
  - done.
Defined.

(** The formatter refuses exactly the entries whose component is not a string,
    and those that the text formatter refuses; the line of a process is its
    name in brackets and what it printed. *)
Theorem Format_process (TextFormat : Entry → res string) (entry : Entry) (name : string) :
  EntryData entry !! LogComponentField = Some (FString name) → name ≠ default_component →
  Format TextFormat entry = Ok ("[" +:+ name +:+ "] " +:+ EntryMessage entry).
Proof.
  intros He Hn. unfold Format. rewrite He. cbn [from_option id].
  rewrite bool_decide_false by done. by rewrite <- !string_app_assoc.
Qed.
