(* ===== verification/Mock.v ===== *)
(** * The mock executor

    [MockExecutor] and [MockCommand] of [pkg/process/command.go], and the mock
    health checker: a command that runs until it is stopped. [Run] receives from
    an unbuffered channel on which [Stop] sends, so one [Stop] ends one [Run]. *)
From S2P Require Import Prelude.

Record MockCommand := mkMock {
  McBinary : string; McArgs : list string; McIsRunning : bool; McStopped : bool;
}.

Definition NewMockCommand (name : string) (arg : list string) : MockCommand :=
  {| McBinary := name; McArgs := arg; McIsRunning := false; McStopped := false |}.

(** The hook of the executor, if there is one, is given the command. *)
Definition MockExecutor_NewCommand (CreationHook : option (MockCommand → res MockCommand))
    (name : string) (arg : list string) : res MockCommand :=
  match CreationHook with
  | None => Ok (NewMockCommand name arg)
  | Some hook => hook (NewMockCommand name arg)
  end.

Definition mock_IsRunning (mc : MockCommand) : bool := McIsRunning mc.
(** [SetOutput] and [Kill] do nothing. *)
Definition mock_SetOutput (mc : MockCommand) : MockCommand := mc.
Definition mock_Kill (mc : MockCommand) : MockCommand := mc.

(** The critical sections of [Run] and of [Stop]. *)
Definition mock_start (mc : MockCommand) : MockCommand :=
  {| McBinary := McBinary mc; McArgs := McArgs mc; McIsRunning := true;
     McStopped := McStopped mc |}.
Definition mock_stop (mc : MockCommand) : MockCommand :=
  {| McBinary := McBinary mc; McArgs := McArgs mc; McIsRunning := McIsRunning mc;
     McStopped := true |}.

(** [MockHealthChecker]. *)
Definition MockHealthChecker_IsRunning (address : string) : bool := true.
Definition MockHealthChecker_WaitForRunning (address name : string) : bool := true.

(** A command with the calls of [Run] that receive, those of [Stop] (or
    [StopWithSignal]) that send, and how many of each have returned. *)
Record mock_state := mkMockState {
  mock : MockCommand; running : nat; stopping : nat; run_done : nat; stop_done : nat;
}.

Inductive mock_step : mock_state → mock_state → Prop :=
  | mock_run c r s rd sd :
      mock_step (mkMockState c r s rd sd) (mkMockState (mock_start c) (S r) s rd sd)
  | mock_stop_call c r s rd sd :
      mock_step (mkMockState c r s rd sd) (mkMockState (mock_stop c) r (S s) rd sd)
  | mock_meet c r s rd sd :
      mock_step (mkMockState c (S r) (S s) rd sd) (mkMockState c r s (S rd) (S sd)).

Definition mock_init (c : MockCommand) : mock_state := mkMockState c 0 0 0 0.

(** A [Run] returns only with a [Stop], each with one of its own; the command
    says that it has been stopped, and still that it runs. *)
Lemma mock_pairs name arg st :
  rtc mock_step (mock_init (NewMockCommand name arg)) st →
  run_done st = stop_done st ∧
  (run_done st + running st > 0 → McIsRunning (mock st) = true) ∧
  (stop_done st + stopping st > 0 → McStopped (mock st) = true) ∧
  (McIsRunning (mock st) = true → run_done st + running st > 0).
Proof.
  cut (∀ st0, (run_done st0 = stop_done st0 ∧
    (run_done st0 + running st0 > 0 → McIsRunning (mock st0) = true) ∧
    (stop_done st0 + stopping st0 > 0 → McStopped (mock st0) = true) ∧
    (McIsRunning (mock st0) = true → run_done st0 + running st0 > 0)) →
    rtc mock_step st0 st →
    run_done st = stop_done st ∧
    (run_done st + running st > 0 → McIsRunning (mock st) = true) ∧
    (stop_done st + stopping st > 0 → McStopped (mock st) = true) ∧
    (McIsRunning (mock st) = true → run_done st + running st > 0)).
  { intros H Hr. apply (H _) in Hr; [done|]. simpl. split_and!; [done|lia|lia|done]. }
  intros st0 H0 Hr. revert H0.
  induction Hr as [|st1 st2 st3 Hs _ IH]; [done|]. intros (H1 & H2 & H3 & H4). apply IH.
  destruct Hs; simpl in *; split_and!; try done; try lia.
  - intros _. apply H2. lia.
  - intros _. apply H3. lia.
Qed.
