(* ===== verification/Watch.v ===== *)
(** * Watch loops

    The six [watch*] methods of [pkg/instance/instance.go] and
    [watchSPDKBackingImage] of [pkg/proxy/backing_image.go]: one loop that
    receives from a stream and notifies, with a bound on failures. The loop is
    run on the list of what each of its turns meets. [handleNotify] and the
    [ProcessWatch] of the process manager send on what they get. *)
From S2P Require Import Prelude GoStrings.

(** What one turn of the loop meets: the context is done, or [Recv] returns an
    item or an error. *)
Inductive turn :=
  | CtxDone
  | Received
  | RecvFailed (e : error).

Definition maxMonitorRetryCount : nat := 10.

Definition ctx_err : error := EPlain "context canceled".

Definition continuously (what : string) : error :=
  EPlain ("continuously receiving errors for " +:+ itoa 10 +:+ " times, stopping watching " +:+ what).

(** The loop from [failureCount] on: how many notifications it sends and, if
    it stops within these turns, the error it returns. *)
Fixpoint watch_loop (what : string) (failureCount : nat) (turns : list turn) : nat * option error :=
  if decide (maxMonitorRetryCount ≤ failureCount) then (0, Some (continuously what))
  else match turns with
  | [] => (0, None)
  | CtxDone :: _ => (0, Some ctx_err)
  | Received :: turns' =>
      let '(n, r) := watch_loop what failureCount turns' in (S n, r)
  | RecvFailed e :: turns' =>
      if decide (from_error e = Some Canceled) then (0, Some e)
      else watch_loop what (S failureCount) turns'
  end.

(** A watch method: the error of opening the stream, or the loop. *)
Definition watch (opening what : string) (opened : option error) (turns : list turn) :
    nat * option error :=
  match opened with
  | Some e => (0, Some (EWrap ("failed to create " +:+ opening +:+ " watch notifier") e))
  | None => watch_loop what 0 turns
  end.

Definition watchSPDKReplica := watch "SPDK replica" "SPDK replicas".
Definition watchSPDKEngine := watch "SPDK engine" "SPDK engines".
Definition watchSPDKEngineFrontend := watch "SPDK engine frontend" "SPDK engine frontends".
Definition watchSPDKShard := watch "SPDK shard" "SPDK shards".
Definition watchSPDKShardGroup := watch "SPDK shardgroup" "SPDK shardgroups".
Definition watchProcess := watch "process" "processes".
(** The stream of the backing images is opened with the text of the replicas. *)
Definition watchSPDKBackingImage := watch "SPDK replica" "SPDK backing images".

(** [handleNotify] of both files: each notification is sent to the caller until
    the context is done or a send fails. *)
Inductive notice := NotifyCtxDone | Notified (sent : option error).

Fixpoint handle_notices (what : string) (notices : list notice) : nat * option error :=
  match notices with
  | [] => (0, None)
  | NotifyCtxDone :: _ => (0, Some ctx_err)
  | Notified (Some e) :: _ => (0, Some (EWrap ("failed to send " +:+ what +:+ " response") e))
  | Notified None :: ns => let '(n, r) := handle_notices what ns in (S n, r)
  end.

Definition handleNotify := handle_notices "instance".
Definition Proxy_handleNotify := handle_notices "backing image".

(** [ProcessWatch] of [pkg/process/process_manager.go]: what the subscription
    yields until it is closed, each item with the result of sending it on. The
    items sent, and the error that ends the watch. *)
Fixpoint forward {A} (items : list (A * option error)) : list A * option error :=
  match items with
  | [] => ([], None)
  | (_, Some e) :: _ => ([], Some e)
  | (x, None) :: items' => let '(l, r) := forward items' in (x :: l, r)
  end.

Definition ProcessWatch {A} (subscribed : option error) (items : list (A * option error)) :
    list A * option error :=
  match subscribed with Some e => ([], Some e) | None => forward items end.

(** ** Properties *)

(** A watch of processes sends on what it gets, in order: everything, or what
    comes before the first send that fails. *)
Lemma forward_spec {A} (items : list (A * option error)) :
  (forward items).1 `prefix_of` items.*1 ∧
  ((forward items).2 = None ↔ (forward items).1 = items.*1) ∧
  ((forward items).2 = None ↔ Forall (λ i, i.2 = None) items).
Proof.
  induction items as [|[x [e|]] items (Hp & Hi & Hf)]; simpl.
  - by repeat constructor.
  - split; [apply prefix_nil|]. split; [done|]. split; [done|]. by inversion 1.
  - destruct (forward items) as [l r]. simpl in *. split; [by apply prefix_cons|].
    split; [rewrite Hi; split; [by intros ->|by intros [= ->]]|]. by rewrite Forall_cons, Hf; naive_solver.
Qed.

(** A turn that neither ends the watch nor is a cancellation. *)
Definition benign (t : turn) : bool :=
  match t with
  | CtxDone => false
  | Received => true
  | RecvFailed e => negb (bool_decide (from_error e = Some Canceled))
  end.
Definition failed (t : turn) : bool := match t with RecvFailed _ => true | _ => false end.

Definition failures (ts : list turn) : nat := length (List.filter failed ts).

Lemma watch_loop_benign what ts k :
  forallb benign ts = true → k < maxMonitorRetryCount →
  if decide (k + failures ts < maxMonitorRetryCount)
  then watch_loop what k ts = (length ts - failures ts, None)
  else (watch_loop what k ts).2 = Some (continuously what).
Proof.
  revert k. induction ts as [|t ts IH]; intros k Hb Hk.
  { unfold failures. simpl. repeat case_decide; done || lia. }
  simpl in Hb. apply andb_prop in Hb as [Ht Hb]. simpl.
  rewrite !(decide_False (P := maxMonitorRetryCount ≤ k)) by lia.
  assert (failures ts ≤ length ts) as Hle by apply List.filter_length_le.
  destruct t as [| |e]; [done| |]; unfold failures in *; simpl in *.
  - specialize (IH k Hb Hk). destruct (watch_loop what k ts) as [n r].
    case_decide; simplify_eq/=; [|done]. f_equal. lia.
  - apply negb_true_iff, bool_decide_eq_false in Ht.
    rewrite !(decide_False (P := from_error e = Some Canceled)) by done.
    destruct (decide (S k < maxMonitorRetryCount)) as [Hlt|Hge].
    + specialize (IH (S k) Hb Hlt). rewrite <- plus_n_Sm. rewrite <- plus_Sn_m.
      case_decide; [|done]. by rewrite IH.
    + rewrite decide_False by lia. destruct ts; simpl; by rewrite decide_True by lia.
Qed.

Lemma watch_loop_ten what ts :
  forallb benign ts = true → 10 ≤ failures ts →
  (watch_loop what 0 ts).2 = Some (continuously what).
Proof.
  intros Hb Hf. pose proof (watch_loop_benign what ts 0 Hb) as H.
  unfold maxMonitorRetryCount in H. specialize (H ltac:(lia)).
  by rewrite decide_False in H by lia.
Qed.

(** A watch stops with the "continuously" error exactly when it has met ten
    errors in all: on any run of turns without cancellation, it sends one
    notification per item and goes on while there are fewer than ten errors,
    and it returns the error as soon as there are ten, however many items came
    in between. *)
Theorem watch_stops_after_ten (what : string) (ts : list turn) :
  forallb benign ts = true →
  (failures ts < 10 → watch_loop what 0 ts = (length ts - failures ts, None)) ∧
  (10 ≤ failures ts → (watch_loop what 0 ts).2 = Some (continuously what)).
Proof.
  intros Hb. pose proof (watch_loop_benign what ts 0 Hb) as H.
  unfold maxMonitorRetryCount in H. specialize (H ltac:(lia)).
  split; intros Hf; [|by apply watch_loop_ten].
  by rewrite decide_True in H by lia.
Qed.

Definition eof : error := EStatus Unavailable "connection lost".

Theorem watch_stops_after_ten_witness :
  watch_loop "processes" 0 [Received; RecvFailed eof; Received] = (2, None).
Proof.
  apply (watch_stops_after_ten "processes" [Received; RecvFailed eof; Received]);
    [done|vm_compute; lia].
Defined.

(** The failures of a watch need not be continuous, although its error says
    so: a stream that delivers a thousand items after each failure is given up
    at the tenth failure, because the count is never reset. *)
Theorem watch_not_continuous (what : string) :
  let ts := concat (replicate 10 (RecvFailed eof :: replicate 1000 Received)) in
  (watch_loop what 0 ts).2 = Some (continuously what).
Proof.
  cbv zeta. apply watch_loop_ten; [by vm_compute|].
  apply Nat.leb_le. by vm_compute.
Qed.
