(* ===== verification/InstanceWatch.v ===== *)
(** * The fan-in of [InstanceWatch] and [SPDKBackingImageWatch]

    [InstanceWatch] of [pkg/instance/instance.go] and [SPDKBackingImageWatch] of
    [pkg/proxy/backing_image.go]: the watchers of [Watch] push
    notifications into one buffered channel, [handleNotify] takes them out and
    sends them to the caller, and an error group cancels all of them when one
    returns. A further goroutine waits for the handler to end and closes the
    clients, which is what wakes up the watchers: they wait for their streams
    with a context that is never cancelled. The method, the watchers, the
    handler, the closing goroutine, the channel and the group's context are one
    transition system. Its steps are the program's own or those of its
    environment: what a stream yields, the end of a [Send], the shutdown. The
    environment need not do any of them. *)
From S2P Require Import Prelude GoStrings Calls Services Instance Watch.



(** A watcher: opening its stream, at the head of its loop, receiving, sending
    a notification, or returned. *)
Inductive watcher :=
  | WOpen
  | WSelect (failureCount : nat)
  | WRecv (failureCount : nat)
  | WNotify (failureCount : nat)
  | WReturned (e : error).

(** [handleNotify] and its deferred [done <- struct{}{}]; [NNone] before the
    group is started. *)
Inductive notifier :=
  | NNone
  | NSelect
  | NSend
  | NDefer (e : error)
  | NReturned (e : error).

(** The method: at [done <- struct{}{}] of an early return, in [g.Wait], or
    returned. *)
Inductive method_state :=
  | MFailed (e : error)
  | MWait
  | MReturned (e : error).

(** The goroutine at [<-done], in its range over the clients, or ended. *)
Inductive closer_state := CWait | CClosing | CDone.

(** [watchers] have the connections of their streams; [queued] counts the
    notifications in [notifyChan]; [cancelled] says that the group's context is
    done, or that there is no group; [first_error] is what the group remembers;
    [clients] are the open ones, [closings] those closed so far. *)
Record watch_state := mkWatch {
  method : method_state; watchers : list (conn * watcher); notify : notifier; queued : nat;
  cancelled : bool; first_error : option error;
  closer : closer_state; clients : list conn; closings : list conn;
}.

Definition notify_cap : nat := 1024.

(** An early return, and the start of the goroutines of the group. *)
Definition watch_refuses (e : error) (clients : list conn) : watch_state :=
  mkWatch (MFailed e) [] NNone 0 true None CWait clients [].
Definition watch_starts (clients streams : list conn) : watch_state :=
  mkWatch MWait ((λ c, (c, WOpen)) <$> streams) NSelect 0 false None CWait clients [].

(** What [InstanceWatch] starts, given the error of each client it creates: one
    watcher of processes, and five of SPDK objects with V2 on. *)
Definition InstanceWatch (s : Server) (pmClient spdkClient : option error) : watch_state :=
  match pmClient with
  | Some e =>
      watch_refuses
        (EStatus Internal (error_string (EWrap "failed to create ProcessManagerClient" e))) []
  | None =>
      if v2DataEngineEnabled s then
        match spdkClient with
        | Some e =>
            watch_refuses
              (EStatus Internal (error_string (EWrap "failed to create SPDK client" e)))
              [pm_conn s]
        | None =>
            watch_starts [pm_conn s; spdk_conn s] (pm_conn s :: repeat (spdk_conn s) 5)
        end
      else watch_starts [pm_conn s] [pm_conn s]
  end.

(** The same with the one watcher of the backing images; [local] is the address
    of the SPDK service. *)
Definition SPDKBackingImageWatch (local : string) (spdkClient : option error) : watch_state :=
  match spdkClient with
  | Some e =>
      watch_refuses (EStatus Internal (error_string (EWrap "failed to create SPDK client" e))) []
  | None => watch_starts [(SPDKService, local)] [(SPDKService, local)]
  end.

(** Whose step it is. *)
Inductive actor := Own | Env.

(** One step of a watcher, with the queue before and after. The stream of an
    open client yields what the environment sends; on a client that is closed
    the call of the watcher fails by itself. *)
Inductive watcher_step (cancel closed : bool) : actor → watcher → nat → watcher → nat → Prop :=
  | watch_open q : watcher_step cancel closed Env WOpen q (WSelect 0) q
  | watch_open_failed a e q :
      a = Env ∨ closed = true → watcher_step cancel closed a WOpen q (WReturned e) q
  | watch_give_up n what q :
      maxMonitorRetryCount ≤ n →
      watcher_step cancel closed Own (WSelect n) q (WReturned (continuously what)) q
  | watch_cancelled n q :
      n < maxMonitorRetryCount → cancel = true →
      watcher_step cancel closed Own (WSelect n) q (WReturned ctx_err) q
  | watch_default n q :
      n < maxMonitorRetryCount → cancel = false →
      watcher_step cancel closed Own (WSelect n) q (WRecv n) q
  | watch_received n q : watcher_step cancel closed Env (WRecv n) q (WNotify n) q
  | watch_failed a n q :
      a = Env ∨ closed = true → watcher_step cancel closed a (WRecv n) q (WSelect (S n)) q
  | watch_canceled a n e q :
      a = Env ∨ closed = true → from_error e = Some Canceled →
      watcher_step cancel closed a (WRecv n) q (WReturned e) q
  | watch_notify n q :
      q < notify_cap → watcher_step cancel closed Own (WNotify n) q (WSelect n) (S q).

(** A goroutine that returns an error cancels the context of the group, which
    keeps the first one. *)
Definition returned (w : watcher) : bool := match w with WReturned _ => true | _ => false end.
Definition keep_first (f : option error) (w : watcher) : option error :=
  match f, w with None, WReturned e => Some e | _, _ => f end.

(** [m ws h q c f cl cs ds] are the fields of the record, in order. *)
Inductive watch_step : actor → watch_state → watch_state → Prop :=
  | step_watcher a m ws1 cn w ws2 h q c f cl cs ds w' q' :
      watcher_step c (bool_decide (cn ∉ cs)) a w q w' q' →
      watch_step a (mkWatch m (ws1 ++ (cn, w) :: ws2) h q c f cl cs ds)
        (mkWatch m (ws1 ++ (cn, w') :: ws2) h q' (c || returned w') (keep_first f w') cl cs ds)
  | step_notified m ws q c f cl cs ds :
      watch_step Own (mkWatch m ws NSelect (S q) c f cl cs ds) (mkWatch m ws NSend q c f cl cs ds)
  | step_ctx_done m ws q f cl cs ds :
      watch_step Own (mkWatch m ws NSelect q true f cl cs ds)
        (mkWatch m ws (NDefer ctx_err) q true f cl cs ds)
  | step_sent m ws q c f cl cs ds :
      watch_step Env (mkWatch m ws NSend q c f cl cs ds) (mkWatch m ws NSelect q c f cl cs ds)
  | step_send_failed m ws q c f cl cs ds what e :
      watch_step Env (mkWatch m ws NSend q c f cl cs ds)
        (mkWatch m ws (NDefer (EWrap ("failed to send " +:+ what +:+ " response") e)) q c f cl cs ds)
  (** the handler's deferred [done <- struct{}{}], received; it returns *)
  | step_done m ws q c f cs ds e :
      watch_step Own (mkWatch m ws (NDefer e) q c f CWait cs ds)
        (mkWatch m ws (NReturned e) q true (keep_first f (WReturned e)) CClosing cs ds)
  (** the same of an early return *)
  | step_refused ws h q c f cs ds e :
      watch_step Own (mkWatch (MFailed e) ws h q c f CWait cs ds)
        (mkWatch (MReturned e) ws h q c f CClosing cs ds)
  (** the range over the clients takes them in any order *)
  | step_close m ws h q c f cs1 cn cs2 ds :
      watch_step Own (mkWatch m ws h q c f CClosing (cs1 ++ cn :: cs2) ds)
        (mkWatch m ws h q c f CClosing (cs1 ++ cs2) (ds ++ [cn]))
  | step_closed m ws h q c f ds :
      watch_step Own (mkWatch m ws h q c f CClosing [] ds) (mkWatch m ws h q c f CDone [] ds)
  (** [g.Wait] returns *)
  | step_wait ws q c f cl cs ds what e :
      Forall (λ w, returned w.2 = true) ws →
      watch_step Own (mkWatch MWait ws (NReturned e) q c (Some f) cl cs ds)
        (mkWatch (MReturned (EWrap ("failed to watch " +:+ what) f)) ws (NReturned e) q c (Some f)
           cl cs ds)
  | step_shutdown m ws h q f cl cs ds :
      watch_step Env (mkWatch m ws h q false f cl cs ds) (mkWatch m ws h q true f cl cs ds).

Definition any_step (st st' : watch_state) : Prop := ∃ a, watch_step a st st'.

(** The program can do nothing more by itself. *)
Definition watch_final (st : watch_state) : Prop := ∀ st', ¬ watch_step Own st st'.

(** The method has returned and every client is closed. *)
Definition watch_ended (st : watch_state) : Prop :=
  (∃ e, method st = MReturned e) ∧ closer st = CDone ∧ clients st = [].

(** A [Send] to the caller has not returned. *)
Definition watch_sending (st : watch_state) : Prop := notify st = NSend.

(** A watcher waits for room in a channel nobody receives from any more; the
    clients are closed none the less. *)
Definition watch_hangs (st : watch_state) : Prop :=
  ((∃ e, notify st = NReturned e) ∧ notify_cap ≤ queued st ∧
    ∃ cn n, (cn, WNotify n) ∈ watchers st) ∧ method st = MWait.

(** ** What holds all the time *)

Definition watch_inv (opened : list conn) (st : watch_state) : Prop :=
  closings st ++ clients st ≡ₚ opened ∧ (closer st = CDone → clients st = []) ∧
  match method st with
  | MFailed _ => closer st = CWait ∧ notify st = NNone
  | MWait =>
      match notify st with
      | NNone => False
      | NReturned _ => closer st ≠ CWait ∧ is_Some (first_error st)
      | _ => closer st = CWait
      end
  | MReturned _ =>
      closer st ≠ CWait ∧ (notify st = NNone ∨ ∃ e, notify st = NReturned e)
  end.

Lemma keep_first_some f w : is_Some f → is_Some (keep_first f w).
Proof. by intros [e ->]. Qed.

Lemma watch_inv_step opened st st' : any_step st st' → watch_inv opened st → watch_inv opened st'.
Proof.
  intros [a Hst] (Hp & Hc & Hm). unfold watch_inv. destruct Hst; simpl in *.
  8: { split; [|split; [done|]].
       - rewrite <- Hp, <- app_assoc. simpl. by rewrite Permutation_middle.
       - destruct m; naive_solver. }
  all: split; [done|split; [done|]].
  all: try (destruct m; naive_solver).
  - destruct m; [done| |naive_solver]. destruct h; try done.
    destruct Hm. split; [done|by apply keep_first_some].
  - destruct m; [naive_solver| |naive_solver]. split; [done|]. by destruct f.
  - split; [done|]. left. apply Hm.
  - destruct m as [?| |?]; [naive_solver| |naive_solver]. destruct h; naive_solver.
  - naive_solver.
Qed.

Lemma watch_inv_steps opened st st' : rtc any_step st st' → watch_inv opened st → watch_inv opened st'.
Proof. induction 1; eauto using watch_inv_step. Qed.

Lemma watch_inv_refuses e cs : watch_inv cs (watch_refuses e cs).
Proof. by split_and!. Qed.
Lemma watch_inv_starts cs ws : watch_inv cs (watch_starts cs ws).
Proof. by split_and!. Qed.

(** ** After the cancellation *)

Definition watcher_weight (w : watcher) : nat :=
  match w with
  | WOpen => 6 | WRecv _ => 5 | WNotify _ => 4 | WSelect _ => 1 | WReturned _ => 0
  end.
Definition notifier_weight (h : notifier) : nat :=
  match h with NSend => 3 | NSelect => 2 | NDefer _ => 1 | NReturned _ | NNone => 0 end.
Definition closer_weight (c : closer_state) : nat :=
  match c with CWait => 2 | CClosing => 1 | CDone => 0 end.
Definition method_weight (m : method_state) : nat := match m with MReturned _ => 0 | _ => 1 end.
Definition watch_weight (st : watch_state) : nat :=
  sum_list_with (λ w, watcher_weight w.2) (watchers st) + notifier_weight (notify st) +
  2 * queued st + closer_weight (closer st) + length (clients st) + method_weight (method st).

(** Steps of a system whose context is cancelled. *)
Definition cancelled_step (st st' : watch_state) : Prop :=
  cancelled st = true ∧ any_step st st'.

Lemma cancelled_stays st st' : any_step st st' → cancelled st = true → cancelled st' = true.
Proof. intros [a Hst]. destruct Hst; simpl; try done. by intros ->. Qed.

Lemma cancelled_weight st st' : cancelled_step st st' → watch_weight st' < watch_weight st.
Proof.
  intros [Hc [a Hst]].
  destruct Hst as [a m ws1 cn w ws2 h q c f cl cs ds w' q' Hw| | | | | | | | | |]; simpl in Hc;
    try done; unfold watch_weight; simpl; rewrite ?length_app; simpl; try lia.
  rewrite !sum_list_with_app. simpl. subst c.
  destruct Hw; simpl; try done; lia.
Qed.

(** Where an execution can stop. *)
Lemma closer_final opened st :
  watch_final st → watch_inv opened st → closer st ≠ CWait → closer st = CDone ∧ clients st = [].
Proof.
  intros Hf (_ & Hd & _) Hw. destruct st as [m ws h q c f cl cs ds]; simpl in *.
  destruct cl; [done| |auto]. exfalso. destruct cs as [|cn cs].
  - eapply Hf, step_closed.
  - eapply Hf, (step_close _ _ _ _ _ _ [] cn cs).
Qed.

Lemma watcher_final opened st cn w :
  watch_final st → watch_inv opened st → cancelled st = true → closer st ≠ CWait →
  (cn, w) ∈ watchers st → returned w = false → notify_cap ≤ queued st ∧ ∃ n, w = WNotify n.
Proof.
  intros Hf Hi Hc Hw Hin Hr. destruct (closer_final _ _ Hf Hi Hw) as [_ Hcs].
  destruct st as [m ws h q c f cl cs ds]; simpl in *. subst c cs.
  apply list_elem_of_split in Hin as (ws1 & ws2 & ->).
  assert (∀ w' q', ¬ watcher_step true true Own w q w' q') as Hstuck.
  { intros w' q' Hst. eapply Hf, step_watcher. rewrite bool_decide_true by set_solver. exact Hst. }
  destruct w as [|n|n|n|e]; [exfalso..| |done].
  - eapply (Hstuck (WReturned ctx_err)). constructor. by right.
  - destruct (decide (maxMonitorRetryCount ≤ n)).
    + by eapply (Hstuck (WReturned (continuously "")) q); constructor.
    + eapply (Hstuck (WReturned ctx_err) q). constructor; [lia|done].
  - eapply (Hstuck (WSelect (S n))). constructor. by right.
  - split; [|by exists n]. destruct (decide (q < notify_cap)) as [Hq|Hq]; [|lia].
    destruct (Hstuck (WSelect n) (S q)). by constructor.
Qed.

Lemma watch_final_cases opened st :
  watch_final st → watch_inv opened st → cancelled st = true →
  watch_ended st ∨ watch_sending st ∨ watch_hangs st.
Proof.
  intros Hf Hi Hc. pose proof Hi as (Hp & Hd & Hm). unfold watch_ended, watch_sending, watch_hangs.
  destruct (method st) as [e| |e] eqn:Em.
  - exfalso. destruct Hm as [Hcl Hn]. destruct st as [m ws h q c f cl cs ds]; simpl in *. subst.
    eapply Hf, step_refused.
  - destruct (notify st) as [| | |e|e] eqn:En; [done|exfalso|auto|exfalso|].
    + destruct st; simpl in *; subst. eapply Hf, step_ctx_done.
    + destruct st; simpl in *; subst. eapply Hf, step_done.
    + destruct Hm as [Hcl [f Hfe]]. right. right.
      destruct (decide (Forall (λ w, returned w.2 = true) (watchers st))) as [Ha|Ha].
      { exfalso. destruct st; simpl in *; subst. by eapply (Hf _), (step_wait _ _ _ _ _ _ _ ""). }
      apply not_Forall_Exists in Ha; [|apply _]. apply Exists_exists in Ha as ([cn w] & Hin & Hw).
      simpl in Hw. apply not_true_is_false in Hw.
      destruct (watcher_final _ _ _ _ Hf Hi Hc Hcl Hin Hw) as [Hq [n ->]].
      split; [|done]. split_and!; [by eexists|done|by exists cn, n].
  - left. destruct Hm as [Hcl _]. split; [by eexists|]. by eapply closer_final.
Qed.

(** The clients are closed wherever the handler is not in a [Send]. *)
Lemma watch_final_closed opened st :
  watch_final st → watch_inv opened st → cancelled st = true →
  watch_sending st ∨ clients st = [] ∧ closings st ≡ₚ opened.
Proof.
  intros Hf Hi Hc. assert (closer st ≠ CWait → clients st = [] ∧ closings st ≡ₚ opened) as H.
  { intros Hcl. destruct (closer_final _ _ Hf Hi Hcl) as [_ Hcs]. destruct Hi as (Hp & _).
    rewrite Hcs, app_nil_r in Hp. done. }
  destruct (watch_final_cases _ _ Hf Hi Hc) as [(_ & Hcl & _)|[Hs|[((e & Hn) & _) Hm]]]; [|by left|].
  - right. apply H. by rewrite Hcl.
  - right. apply H. destruct Hi as (_ & _ & Hi). rewrite Hm, Hn in Hi. apply Hi.
Qed.

(** Watchers that may still push a notification after the cancellation. *)
Definition may_push (w : conn * watcher) : nat :=
  match w.2 with WRecv _ | WNotify _ => 1 | _ => 0 end.
Definition demand (st : watch_state) : nat := queued st + sum_list_with may_push (watchers st).

Lemma cancelled_demand st st' : cancelled_step st st' → demand st' ≤ demand st.
Proof.
  intros [Hc [a Hst]].
  destruct Hst as [a m ws1 cn w ws2 h q c f cl cs ds w' q' Hw| | | | | | | | | |]; simpl in Hc;
    try done; unfold demand; simpl; try lia.
  rewrite !sum_list_with_app. unfold may_push. simpl. subst c. destruct Hw; simpl; try done; lia.
Qed.

Lemma pusher_demand cn n ws : (cn, WNotify n) ∈ ws → 1 ≤ sum_list_with may_push ws.
Proof.
  intros (ws1 & ws2 & ->)%list_elem_of_split. rewrite sum_list_with_app. simpl. lia.
Qed.

(** A hang is for ever. *)
Lemma hang_step st st' : any_step st st' → watch_hangs st → watch_hangs st'.
Proof.
  intros [a Hst] (((e & Hn) & Hq & cn & n & Hin) & Hm).
  destruct Hst as [a m ws1 cn' w ws2 h q c f cl cs ds w' q' Hw| | | | | | | | |ws q c f cl cs ds what e' Ha|];
    simpl in *; try done.
  2, 3, 5: split; [split_and!; [by exists e|done|by exists cn, n]|done].
  - assert (notify_cap ≤ q') as Hq' by (by destruct Hw; try lia).
    split; [|done]. split_and!; [by exists e|done|]. exists cn, n. simpl.
    apply elem_of_app in Hin as [Hin|[Heq|Hin]%elem_of_cons]; [set_solver| |set_solver].
    simplify_eq. inversion Hw; subst. lia.
  - rewrite Forall_forall in Ha. by apply Ha in Hin.
Qed.

Lemma hang_steps st st' : rtc any_step st st' → watch_hangs st → watch_hangs st'.
Proof. induction 1; eauto using hang_step. Qed.

(** ** Properties *)

(** The two methods, as they start, and the clients they have opened: those
    whose creation was tried and did not fail. *)
Definition instance_clients (s : Server) (pmClient spdkClient : option error) : list conn :=
  match pmClient with
  | Some _ => []
  | None =>
      pm_conn s ::
      (if v2DataEngineEnabled s then match spdkClient with Some _ => [] | None => [spdk_conn s] end
       else [])
  end.
Inductive watch_start : watch_state → list conn → Prop :=
  | start_instances s pmClient spdkClient :
      watch_start (InstanceWatch s pmClient spdkClient) (instance_clients s pmClient spdkClient)
  | start_backing_images local spdkClient :
      watch_start (SPDKBackingImageWatch local spdkClient)
        match spdkClient with Some _ => [] | None => [(SPDKService, local)] end.

Lemma watch_start_inv st0 opened : watch_start st0 opened → watch_inv opened st0.
Proof.
  destruct 1; unfold InstanceWatch, instance_clients, SPDKBackingImageWatch; repeat case_match;
    apply watch_inv_refuses || apply watch_inv_starts.
Qed.

(** Once the context is done the end comes; what the two properties below share. *)
Lemma watch_ends st0 opened st st' :
  watch_start st0 opened → rtc any_step st0 st → cancelled st = true →
  rtc any_step st st' → watch_final st' →
  watch_inv opened st' ∧ cancelled st' = true ∧ demand st' ≤ demand st.
Proof.
  intros Hs H0 Hc Hr Hf. split.
  { eapply watch_inv_steps; [exact Hr|]. eapply watch_inv_steps; [exact H0|].
    by apply watch_start_inv. }
  clear Hf H0. induction Hr as [|st st1 st2 H1 _ IH]; [done|].
  pose proof (cancelled_demand st st1 (conj Hc H1)).
  destruct IH as [? ?]; [by eapply cancelled_stays|]. split; [done|lia].
Qed.

(** A watch closes no client twice, and none that it has not opened; when its
    context is done and it has no step left, all are closed, unless a [Send] has
    not returned. *)
Definition watch_tidy (st0 : watch_state) (opened : list conn) : Prop :=
  ∀ st, rtc any_step st0 st →
    closings st ++ clients st ≡ₚ opened ∧
    (cancelled st = true → watch_final st →
     watch_sending st ∨ closings st ≡ₚ opened ∧ clients st = []).

Lemma watch_start_tidy st0 opened : watch_start st0 opened → watch_tidy st0 opened.
Proof.
  intros Hs st Hr.
  assert (watch_inv opened st) as Hi by (eapply watch_inv_steps; [done|by apply watch_start_inv]).
  split; [apply Hi|]. intros Hc Hf.
  destruct (watch_final_closed _ _ Hf Hi Hc) as [|[? ?]]; auto.
Qed.

(** C19: the end of a watch. Once its context is cancelled, by the caller's
    failure, by a watcher that gives up or by the shutdown, every execution is
    finite, whatever the services do; and where the program itself has no step
    left, although the streams of the watchers need not have yielded anything,
    either the method has returned, or a [Send] to the caller has not, or a
    watcher is blocked on the full channel after the handler has gone. The last
    cannot happen when, at the cancellation, the channel has room for one more
    notification of each watcher that is receiving or notifying. *)
Theorem InstanceWatch_ends st0 opened st :
  watch_start st0 opened → rtc any_step st0 st → cancelled st = true →
  sn cancelled_step st ∧
  ∀ st', rtc any_step st st' → watch_final st' →
    (watch_ended st' ∨ watch_sending st' ∨ watch_hangs st') ∧
    (demand st ≤ notify_cap → watch_ended st' ∨ watch_sending st').
Proof.
  intros Hs H0 Hc. split; [apply (weight_sn _ watch_weight), cancelled_weight|].
  intros st' Hr Hf. destruct (watch_ends _ _ _ _ Hs H0 Hc Hr Hf) as (Hi & Hc' & Hd).
  pose proof (watch_final_cases _ _ Hf Hi Hc') as Hcases. split; [done|].
  intros Hroom. destruct Hcases as [|[|((_ & Hq & cn & n & Hin) & _)]]; [by left|by right|].
  apply pusher_demand in Hin. unfold demand in *. lia.
Qed.

(** A watch of processes whose context is cancelled while its watcher waits for
    the stream, and its end: the closing of the client wakes the watcher up. *)
Definition v1_server : Server :=
  {| processManagerServiceAddress := "10.0.0.1:8500"; spdkServiceAddress := "10.0.0.1:8504";
     v2DataEngineEnabled := false |}.
Definition pm : conn := (ProcessManagerService, "tcp://10.0.0.1:8500").
Definition stopping : watch_state :=
  mkWatch MWait [(pm, WRecv 0)] NSelect 0 true None CWait [pm] [].
Definition stopped : watch_state :=
  mkWatch (MReturned (EWrap "failed to watch instances" ctx_err)) [(pm, WReturned ctx_err)]
    (NReturned ctx_err) 0 true (Some ctx_err) CDone [] [pm].

Lemma watcher_own m w h q c f cl cs ds w' q' :
  watcher_step c (bool_decide (pm ∉ cs)) Own w q w' q' →
  any_step (mkWatch m [(pm, w)] h q c f cl cs ds)
    (mkWatch m [(pm, w')] h q' (c || returned w') (keep_first f w') cl cs ds).
Proof. intros H. exists Own. apply (step_watcher Own m [] pm w [] h q c f cl cs ds w' q' H). Qed.

Lemma watcher_env m w h q c f cl cs ds w' q' :
  watcher_step c (bool_decide (pm ∉ cs)) Env w q w' q' →
  any_step (mkWatch m [(pm, w)] h q c f cl cs ds)
    (mkWatch m [(pm, w')] h q' (c || returned w') (keep_first f w') cl cs ds).
Proof. intros H. exists Env. apply (step_watcher Env m [] pm w [] h q c f cl cs ds w' q' H). Qed.

Lemma own_step st st' : watch_step Own st st' → any_step st st'.
Proof. by exists Own. Qed.
Lemma env_step st st' : watch_step Env st st' → any_step st st'.
Proof. by exists Env. Qed.

Lemma reach_stopping : rtc any_step (InstanceWatch v1_server None None) stopping.
Proof.
  eapply rtc_l; [apply watcher_env, watch_open|].
  eapply rtc_l; [apply watcher_own, watch_default; [unfold maxMonitorRetryCount; lia|done]|].
  eapply rtc_l; [apply env_step, step_shutdown|]. apply rtc_refl.
Qed.

Lemma reach_stopped : rtc any_step stopping stopped.
Proof.
  eapply rtc_l; [apply own_step, step_ctx_done|].
  eapply rtc_l; [apply own_step, step_done|].
  eapply rtc_l; [apply own_step, (step_close _ _ _ _ _ _ [] pm [])|].
  eapply rtc_l; [apply watcher_own, watch_failed; by right|].
  eapply rtc_l; [apply watcher_own, watch_cancelled; [unfold maxMonitorRetryCount; lia|done]|].
  eapply rtc_l; [apply own_step, step_closed|].
  eapply rtc_l; [apply own_step, (step_wait _ _ _ _ _ _ _ "instances"); by repeat constructor|].
  apply rtc_refl.
Qed.

Lemma stopped_final : watch_final stopped.
Proof.
  intros st' Hst. inversion Hst as [a m ws1 cn w ws2 h q c f cl cs ds w' q' Hw Heq| | | | | | | | | |]; subst.
  destruct ws1 as [|? ws1]; simplify_eq/=; [inversion Hw|by destruct ws1].
Qed.

Theorem InstanceWatch_ends_witness :
  demand stopping ≤ notify_cap ∧ (watch_ended stopped ∨ watch_sending stopped).
Proof.
  assert (demand stopping ≤ notify_cap) as Hd by (unfold demand, notify_cap; simpl; lia).
  split; [done|].
  exact (proj2 (proj2 (InstanceWatch_ends _ _ stopping (start_instances v1_server None None)
    reach_stopping eq_refl) stopped reach_stopped stopped_final) Hd).
Defined.

(** A slow caller can hang a watch. While one send to the caller takes long,
    the watcher can fill the channel and wait for room; if the send then fails,
    the handler is gone, and the watcher and with it [InstanceWatch] never
    return. *)
Theorem InstanceWatch_can_hang :
  ∃ st, rtc any_step (InstanceWatch v1_server None None) st ∧
    ∀ st', rtc any_step st st' → watch_hangs st' ∧ ¬ watch_ended st'.
Proof.
  set (st q h w := mkWatch MWait [(pm, w)] h q false None CWait [pm] []).
  assert (∀ q, q ≤ notify_cap →
    rtc any_step (st 0 NSend (WSelect 0)) (st q NSend (WSelect 0))) as Hfill.
  { induction q as [|q IH]; intros Hq; [done|]. etransitivity; [apply IH; lia|].
    eapply rtc_l; [apply watcher_own, watch_default; [unfold maxMonitorRetryCount; lia|done]|].
    eapply rtc_l; [apply watcher_env, watch_received|].
    eapply rtc_once. apply watcher_own. constructor. lia. }
  eexists (mkWatch MWait [(pm, WNotify 0)] (NReturned _) notify_cap true (Some _) CClosing [pm] []).
  split.
  - eapply rtc_l; [apply watcher_env, watch_open|].
    eapply rtc_l; [apply watcher_own, watch_default; [unfold maxMonitorRetryCount; lia|done]|].
    eapply rtc_l; [apply watcher_env, watch_received|].
    eapply rtc_l; [apply watcher_own, watch_notify; unfold notify_cap; lia|].
    eapply rtc_l; [apply own_step, step_notified|].
    etransitivity; [apply (Hfill notify_cap); done|].
    eapply rtc_l; [apply watcher_own, watch_default; [unfold maxMonitorRetryCount; lia|done]|].
    eapply rtc_l; [apply watcher_env, watch_received|].
    eapply rtc_l; [apply env_step, (step_send_failed _ _ _ _ _ _ _ _ "instance" ctx_err)|].
    eapply rtc_once, own_step. apply (step_done MWait [(pm, WNotify 0)] notify_cap false None [pm] []).
  - intros st' Hr.
    assert (watch_hangs st') as Hh.
    { eapply hang_steps; [done|]. split; [|done]. split_and!; [by eexists|done|].
      exists pm, 0. simpl. set_solver. }
    split; [done|]. intros [[e He] _]. destruct Hh as [_ Hm]. congruence.
Qed.
