(* ===== verification/InstanceProps.v ===== *)
(** * Properties of the instance server

    Connections, isolation of the data engines, error codes, the merged list,
    the panics on incomplete requests, and what a client can recover from the
    answers. *)
From S2P Require Import Prelude GoStrings Sched Process Calls Messages Services Instance InstanceWatch.

#[local] Open Scope Z_scope.

(** ** Connections *)

Section connections.
Context (s : Server).

Lemma with_pm_tidy {B} (body : handler B) :
  keeps (Some (pm_conn s)) body → tidy (with_pm s body).
Proof. by apply with_client_tidy. Qed.

Lemma with_spdk_tidy {B} (body : handler B) :
  keeps (Some (spdk_conn s)) body → tidy (with_spdk s body).
Proof. by apply with_client_tidy. Qed.

Lemma with_spdk_code_tidy {B} (body : handler B) :
  keeps (Some (spdk_conn s)) body → tidy (with_spdk_code s body).
Proof. by apply with_client_tidy. Qed.

Lemma keeps_forward c lines last : keeps c (forward_lines lines last).
Proof.
  induction lines as [|l lines IH]; cbn [forward_lines]; solve_keeps.
Qed.

Lemma keeps_pm_client {X} (e : pmE X) :
  keeps (Some (pm_conn s)) (call (PM (pm_addr s) e)).
Proof. by apply keeps_use. Qed.
End connections.

Ltac tidy_step :=
  first [ apply keeps_dispatch | apply with_pm_tidy | apply with_spdk_tidy
        | apply with_spdk_code_tidy | apply keeps_forward | apply keeps_try | keeps_step ].

(** Unfold the methods down to their calls. *)
Ltac unfold_methods :=
  unfold InstanceCreate, V1_InstanceCreate, V2_InstanceCreate, InstanceDelete,
    V1_InstanceDelete, V2_InstanceDelete, InstanceGet, V1_InstanceGet, V2_InstanceGet,
    InstanceList, V1_InstanceList, V2_InstanceList, InstanceReplace, V1_InstanceReplace,
    InstanceLog, V1_InstanceLog, InstanceSuspend, V2_InstanceSuspend, InstanceResume,
    V2_InstanceResume, InstanceSwitchOverTarget, V2_InstanceSwitchOverTarget,
    InstanceDeleteTarget, V2_InstanceDeleteTarget, LogSetLevel, V1_LogSetLevel, V2_LogSetLevel,
    logSetLevel, LogSetFlags, V1_LogSetFlags, V2_LogSetFlags, LogGetLevel, V1_LogGetLevel, V2_LogGetLevel,
    LogGetFlags, V1_LogGetFlags, V2_LogGetFlags, spdk, shard_endpoints,
    ProcessManagerClient_ProcessCreate, ProcessManagerClient_ProcessDelete,
    ProcessManagerClient_ProcessGet, ProcessManagerClient_ProcessList,
    ProcessManagerClient_ProcessLog, ProcessManagerClient_ProcessReplace, invalid,
    unimplemented, unknown_type.

Lemma request_tidy (s : Server) X (q : request X) : tidy (serve s q).
Proof. destruct q; unfold serve, tidy; unfold_methods; repeat tidy_step. Qed.

(** C22: no connection leaks. Whatever the request and whatever the services
    answer, every method of the instance server but [InstanceWatch] uses a
    connection only while it is open, closes each connection it opened exactly
    once, and has none open when it returns and when it panics. [InstanceWatch]
    closes a client it opened at most once and no other, and has closed all of
    them when its context is done and it has nothing left to do, on every
    interleaving of its goroutines, unless a [Send] to the caller never returns;
    also when it fails because the second of its clients cannot be created. *)
Theorem serve_tidy (s : Server) :
  (∀ X (q : request X), tidy (serve s q)) ∧
  ∀ pmClient spdkClient,
    watch_tidy (InstanceWatch s pmClient spdkClient) (instance_clients s pmClient spdkClient).
Proof.
  split; [by apply request_tidy|]. intros. apply watch_start_tidy, start_instances.
Qed.

(** ** Isolation of the data engines *)

(** The call concerns no other service than [sv]. *)
Definition only_service (sv : service) (X : Type) (e : callE X) : Prop :=
  match e with
  | Dial c | Hangup c => c.1 = sv
  | PM _ _ => sv = ProcessManagerService
  | SPDK _ _ => sv = SPDKService
  | _ => True
  end.

Lemma calls_forward sv lines last : calls_only (only_service sv) (forward_lines lines last).
Proof. induction lines; cbn [forward_lines]; solve_calls. Qed.

Ltac unfold_dispatch :=
  unfold InstanceCreate, InstanceDelete, InstanceGet, InstanceReplace, InstanceLog,
    InstanceSuspend, InstanceResume, InstanceSwitchOverTarget, InstanceDeleteTarget,
    LogSetLevel, LogSetFlags, LogGetLevel, LogGetFlags.
Ltac isolation_step :=
  first [ apply calls_with_client; [reflexivity|reflexivity|] | apply calls_try
        | apply calls_forward | calls_step ].

(** C23: the data engines are isolated. A request for the V1 engine makes no call
    to the SPDK service, one for the V2 engine none to the process manager; a
    request for another engine makes no call at all and is answered
    [Unimplemented]. *)
Theorem engine_isolation (s : Server) X (q : request X) (e : Z) :
  engine_of q = Some e →
  (e = DATA_ENGINE_V1 → calls_only (only_service ProcessManagerService) (serve s q)) ∧
  (e = DATA_ENGINE_V2 → calls_only (only_service SPDKService) (serve s q)) ∧
  (e ≠ DATA_ENGINE_V1 → e ≠ DATA_ENGINE_V2 → ∀ o,
     eval o (serve s q) =
       (Some (fail (EStatus Unimplemented ("unsupported data engine " +:+ data_engine_string e))),
        [])).
Proof.
  intros He. split_and!.
  - intros ->. destruct q; simpl in He; try discriminate He; injection He as He; unfold serve;
      unfold_dispatch; rewrite He, dispatch_v1; unfold with_pm; unfold_methods;
      repeat isolation_step.
  - intros ->. destruct q; simpl in He; try discriminate He; injection He as He; unfold serve;
      unfold_dispatch; rewrite He, dispatch_v2; unfold with_spdk, with_spdk_code; unfold_methods;
      repeat isolation_step.
  - intros H1 H2 o. destruct q; simpl in He; try discriminate He; injection He as He;
      unfold serve; unfold_dispatch; by rewrite He, dispatch_other.
Qed.

(** An instance server, and a replica request without its SPDK spec. *)
Definition a_server : Server :=
  {| processManagerServiceAddress := "10.0.0.1:8500"; spdkServiceAddress := "10.0.0.1:8504";
     v2DataEngineEnabled := true |}.
Definition bare_request (engine : Z) (type : string) : InstanceCreateRequest :=
  {| CSpec := {| IName := "vol-r-1"; IType := type; IVolumeName := "vol";
                 IBackendStoreDriver := 0; IDataEngine := engine; IProcess := None;
                 ISpdk := None; IPortCount := 1; IPortArgs := []; ITargetAddress := "";
                 IEngineName := ""; IUpgradeRequired := false; IInitiatorAddress := "" |};
     CDataLayoutType := DATA_LAYOUT_TYPE_REPLICATED |}.

Theorem engine_isolation_witness :
  engine_of (QCreate (bare_request DATA_ENGINE_V2 "replica")) = Some DATA_ENGINE_V2 ∧
  calls_only (only_service SPDKService)
    (serve a_server (QCreate (bare_request DATA_ENGINE_V2 "replica"))).
Proof.
  split; [done|].
  by apply (engine_isolation a_server _ (QCreate (bare_request DATA_ENGINE_V2 "replica"))
    DATA_ENGINE_V2).
Defined.

(** ** Incomplete requests *)

Definition v2_types : list string :=
  [InstanceTypeEngine; InstanceTypeEngineFrontend; InstanceTypeReplica; InstanceTypeShard;
   InstanceTypeShardGroup].

(** A request without the spec of its data engine. The V1 engine refuses it
    with [InvalidArgument] before any call; the V2 engine, which does not check,
    dials the SPDK service and then dereferences the nil [SpdkInstanceSpec]: the
    server panics, for every known instance type, and closes the connection while
    the panic unwinds. *)
Theorem missing_spec (s : Server) (req : InstanceCreateRequest)
    (o : ∀ X, callE X → X) :
  o _ (Dial (spdk_conn s)) = Ok tt →
  (IProcess (CSpec req) = None → CDataLayoutType req ≠ DATA_LAYOUT_TYPE_SHARDED →
   eval o (V1_InstanceCreate s req) =
     (Some (fail (EStatus InvalidArgument "ProcessInstanceSpec is required for longhorn data engine")),
      [])) ∧
  (ISpdk (CSpec req) = None → IType (CSpec req) ∈ v2_types →
   eval o (V2_InstanceCreate s req) = (None, [log (Dial (spdk_conn s)); log (Hangup (spdk_conn s))])).
Proof.
  intros Hdial. split.
  - intros Hp Hl. unfold V1_InstanceCreate. by rewrite bool_decide_false, Hp.
  - intros Hs Ht. unfold V2_InstanceCreate, with_spdk. rewrite eval_with_client, Hdial, Hs.
    unfold v2_types in Ht.
    repeat (apply elem_of_cons in Ht as [Ht|Ht]; [by rewrite Ht|]).
    by apply not_elem_of_nil in Ht.
Qed.

(** Services that do what they are asked and hold nothing. *)
Definition no_error : ∀ X, callE X → X := empty_services None.

Theorem missing_spec_witness :
  eval no_error (serve a_server (QCreate (bare_request DATA_ENGINE_V2 "replica"))) =
    (None, [log (Dial (spdk_conn a_server)); log (Hangup (spdk_conn a_server))]) ∧
  (eval no_error (serve a_server (QCreate (bare_request DATA_ENGINE_V1 "replica")))).2 = [].
Proof.
  pose proof (missing_spec a_server (bare_request DATA_ENGINE_V2 "replica") no_error eq_refl)
    as [_ H2].
  pose proof (missing_spec a_server (bare_request DATA_ENGINE_V1 "replica") no_error eq_refl)
    as [H1 _].
  split; [apply H2; [done|unfold v2_types; set_solver]|].
  change ((eval no_error
    (V1_InstanceCreate a_server (bare_request DATA_ENGINE_V1 "replica"))).2 = []).
  by rewrite H1.
Defined.

(** ** Error codes *)

(** The code a client sees for an error that [toSPDKGRPCError] passes on. *)
Definition spdk_code (e : error) : code := default Internal (from_error e).

Lemma from_error_unwrap e : from_error (unwrap_all e) = from_error e.
Proof. by induction e. Qed.

Lemma toSPDKGRPCError_code e msg :
  status_code (toSPDKGRPCError e Internal msg) = spdk_code e.
Proof. unfold toSPDKGRPCError, status_code, spdk_code. by rewrite from_error_unwrap. Qed.

(** The methods that keep the code of the SPDK service, with the call they
    make for an engine frontend. *)
Definition frontend_call {X} (q : request X) : option (spdkE err) :=
  match q with
  | QSuspend req => Some (EngineFrontendSuspend (QName req))
  | QResume req => Some (EngineFrontendResume (QName req))
  | QSwitchOver req =>
      Some (EngineFrontendSwitchOver (WName req) (WEngineName req) (WTargetAddress req)
              (WSwitchoverPhase req))
  | _ => None
  end.
Definition frontend_request {X} (q : request X) : Prop :=
  engine_of q = Some DATA_ENGINE_V2 ∧
  match q with
  | QSuspend req | QResume req => QType req = InstanceTypeEngineFrontend
  | QSwitchOver req => WType req = InstanceTypeEngineFrontend
  | _ => False
  end.

(** Suspend, resume and switch over of an engine frontend make the one SPDK
    call they are for, between dialling and closing; the caller sees success
    exactly when the call succeeded, and otherwise the gRPC code the SPDK
    service gave, however deeply it is wrapped, or [Internal] when it gave
    none. A failed dial is reported in the same way and calls nothing. *)
Theorem frontend_codes (s : Server) X (q : request X) (e : spdkE err)
    (o : ∀ X, callE X → X) :
  frontend_request q → frontend_call q = Some e →
  match o _ (Dial (spdk_conn s)) with
  | Ok _ =>
      (eval o (serve s q)).2 =
        [log (Dial (spdk_conn s)); log (SPDK (spdkServiceAddress s) e);
         log (Hangup (spdk_conn s))] ∧
      reply_code <$> (eval o (serve s q)).1 =
        Some (match o _ (SPDK (spdkServiceAddress s) e) with
              | None => OK | Some x => spdk_code x end)
  | Err x =>
      (eval o (serve s q)).2 = [log (Dial (spdk_conn s))] ∧
      reply_code <$> (eval o (serve s q)).1 = Some (spdk_code x)
  end.
Proof.
  intros [He Ht] Hc.
  destruct q; try done; simpl in He, Ht, Hc; injection He as He; injection Hc as <-;
    unfold serve; unfold_dispatch; rewrite He, dispatch_v2;
    unfold V2_InstanceSuspend, V2_InstanceResume, V2_InstanceSwitchOverTarget, with_spdk_code;
    rewrite eval_with_client, Ht, (bool_decide_false (_ = InstanceTypeEngine)),
      bool_decide_true by done; unfold spdk;
    (destruct (o _ (Dial (spdk_conn s))) as [u|x];
     [rewrite eval_bind, eval_call; simpl;
      destruct (o (option error) _); simpl; split; try done; unfold reply_code; simpl;
      by rewrite toSPDKGRPCError_code
     |split; [done|]; simpl; unfold reply_code; simpl; by rewrite toSPDKGRPCError_code]).
Qed.

Definition suspend_request : InstanceRequest :=
  {| QName := "vol-e-0"; QType := InstanceTypeEngineFrontend; QDataEngine := DATA_ENGINE_V2 |}.

Theorem frontend_codes_witness :
  reply_code <$> (eval no_error (serve a_server (QSuspend suspend_request))).1 = Some OK.
Proof.
  apply (frontend_codes a_server _ (QSuspend suspend_request)
    (EngineFrontendSuspend "vol-e-0") no_error); done.
Defined.

(** ** The list of instances *)

(** The entries of a list are stored under their own names. *)
Definition keyed {X} (name : X → string) (xs : gmap string X) : Prop :=
  map_Forall (λ k x, name x = k) xs.

Lemma add_all_union {X} (name : X → string) conv xs m :
  keyed name xs → add_all name conv xs m = (conv <$> xs) ∪ m.
Proof.
  unfold add_all, keyed. revert m.
  induction xs as [|k x xs Hk Hfirst IH] using map_first_key_ind; intros m Hkey.
  { by rewrite map_fold_empty, fmap_empty, (left_id_L ∅ (∪)). }
  apply map_Forall_insert in Hkey as [Hx Hkey]; [|done].
  rewrite map_fold_insert_first_key by done. rewrite IH by done.
  by rewrite Hx, fmap_insert, insert_union_l.
Qed.

(** What the two services hold. *)
Record inventory := {
  inv_processes : gmap string ProcessResponse; inv_replicas : gmap string Replica;
  inv_engines : gmap string Engine; inv_frontends : gmap string EngineFrontend;
  inv_shards : gmap string Shard; inv_groups : gmap string ShardGroup;
}.
Definition inventory_keyed (i : inventory) : Prop :=
  keyed (λ p, SName (Spec p)) (inv_processes i) ∧ keyed RName (inv_replicas i) ∧
  keyed EName (inv_engines i) ∧ keyed FName (inv_frontends i) ∧
  keyed ShardID (inv_shards i) ∧ keyed GName (inv_groups i).

(** The services of [s] are up and list [i]. *)
Definition lists (s : Server) (o : ∀ X, callE X → X) (i : inventory) : Prop :=
  o _ (Dial (pm_conn s)) = Ok tt ∧ o _ (Dial (spdk_conn s)) = Ok tt ∧
  o _ (PM (pm_addr s) RpcProcessList) = Ok (inv_processes i) ∧
  o _ (SPDK (spdkServiceAddress s) ReplicaList) = Ok (inv_replicas i) ∧
  o _ (SPDK (spdkServiceAddress s) EngineList) = Ok (inv_engines i) ∧
  o _ (SPDK (spdkServiceAddress s) EngineFrontendList) = Ok (inv_frontends i) ∧
  o _ (SPDK (spdkServiceAddress s) ShardList) = Ok (inv_shards i) ∧
  o _ (SPDK (spdkServiceAddress s) ShardGroupList) = Ok (inv_groups i).

Definition process_instances (i : inventory) : gmap string InstanceResponse :=
  (λ p, processResponseToInstanceResponse (process_type p) p) <$> inv_processes i.

(** C32: the list of instances. When all services answer, the reply holds the
    instance of every process and, with the V2 engine on, of every replica,
    engine, engine frontend, shard and shard group, each converted and under
    its own name. Where two of them share a name the later of this order hides
    the earlier: a V2 object hides a process, a shard group everything. *)
Theorem InstanceList_union (s : Server) (o : ∀ X, callE X → X) (i : inventory) :
  lists s o i → inventory_keyed i →
  (eval o (InstanceList s)).1 =
    Some (ok (if v2DataEngineEnabled s then
                (shardGroupResponseToInstanceResponse <$> inv_groups i) ∪
                ((shardResponseToInstanceResponse <$> inv_shards i) ∪
                ((engineFrontendResponseToInstanceResponse <$> inv_frontends i) ∪
                ((engineResponseToInstanceResponse <$> inv_engines i) ∪
                ((replicaResponseToInstanceResponse <$> inv_replicas i) ∪
                 process_instances i))))
              else process_instances i)).
Proof.
  intros (Hp & Hd & Lp & Lr & Le & Lf & Ls & Lg) (Kp & Kr & Ke & Kf & Ks & Kg).
  assert ((eval o (V1_InstanceList s ∅)).1 = Some (ok (process_instances i))) as H1.
  { unfold V1_InstanceList, with_pm, ProcessManagerClient_ProcessList.
    rewrite result_with_client, !result_bind, eval_call by done. simpl. rewrite Lp. simpl.
    rewrite add_all_union by done. by rewrite (right_id_L ∅ (∪)). }
  assert (∀ m, (eval o (V2_InstanceList s m)).1 =
    Some (ok ((shardGroupResponseToInstanceResponse <$> inv_groups i) ∪
              ((shardResponseToInstanceResponse <$> inv_shards i) ∪
              ((engineFrontendResponseToInstanceResponse <$> inv_frontends i) ∪
              ((engineResponseToInstanceResponse <$> inv_engines i) ∪
              ((replicaResponseToInstanceResponse <$> inv_replicas i) ∪ m))))))) as H2.
  { intros m. unfold V2_InstanceList, with_spdk, spdk. rewrite result_with_client by done.
    rewrite (result_try _ _ _ _ Lr), (result_try _ _ _ _ Le), (result_try _ _ _ _ Lf),
      (result_try _ _ _ _ Ls), (result_try _ _ _ _ Lg).
    by rewrite !add_all_union by done. }
  unfold InstanceList. rewrite (result_step _ _ _ _ H1).
  destruct (v2DataEngineEnabled s); [|done]. exact (result_step _ _ _ _ (H2 _)).
Qed.

(** Two processes, an engine with the name of the one, a replica and a shard
    with that of the other, and services that list them. *)
Definition some_process (name : string) : ProcessResponse :=
  {| Spec := {| SName := name; SBinary := "/bin/longhorn"; SArgs := ["controller"];
                SPortCount := 1; SPortArgs := ["--listen,localhost:"] |};
     Status := {| StState := "running"; StErrorMsg := ""; StPortStart := 10000;
                  StPortEnd := 10000; StConditions := ∅; StUuid := "u" |};
     Deleted := false |}.
Definition some_engine : Engine :=
  {| EName := "vol-e-0"; EVolumeName := "vol"; EPort := 20001; EState := "running";
     EErrorMsg := ""; EUUID := "e"; EReplicaModeMap := ∅; EReplicaAddressMap := ∅;
     ESpecSize := 0; EFrontend := ""; EEndpoint := ""; EIsExpanding := false;
     ELastExpansionError := ""; ELastExpansionFailedAt := ""; ESnapshotMaxCount := 0;
     EHead := None; ESnapshots := ∅ |}.
Definition some_replica : Replica :=
  {| RName := "vol-r-1"; RLvsName := "lvs"; RLvsUUID := "l"; RSpecSize := 1; RActualSize := 1;
     RPortStart := 20002; RPortEnd := 20003; RState := "running"; RErrorMsg := "";
     RUUID := "r" |}.
Definition some_shard : Shard :=
  {| ShardID := "vol-r-1"; SState := "stopped"; SErrorMsg := ""; SIP := ""; SPort := 20004;
     SNvmfNqn := "nqn"; SUUID := "s" |}.
Definition some_inventory : inventory :=
  {| inv_processes := <["vol-e-0" := some_process "vol-e-0"]>
       {["vol-e-1" := some_process "vol-e-1"]};
     inv_replicas := {["vol-r-1" := some_replica]};
     inv_engines := {["vol-e-0" := some_engine]}; inv_frontends := ∅;
     inv_shards := {["vol-r-1" := some_shard]}; inv_groups := ∅ |}.

Definition inventory_services (i : inventory) (X : Type) (c : callE X) : X :=
  match c in callE X return X with
  | PM addr q =>
      match q in pmE X return X with
      | RpcProcessList => Ok (inv_processes i)
      | q => no_error _ (PM addr q)
      end
  | SPDK addr q =>
      match q in spdkE X return X with
      | ReplicaList => Ok (inv_replicas i)
      | EngineList => Ok (inv_engines i)
      | EngineFrontendList => Ok (inv_frontends i)
      | ShardList => Ok (inv_shards i)
      | ShardGroupList => Ok (inv_groups i)
      | q => no_error _ (SPDK addr q)
      end
  | c => no_error _ c
  end.

Theorem InstanceList_union_witness :
  ∃ m, (eval (inventory_services some_inventory) (InstanceList a_server)).1 = Some (ok m) ∧
    m !! "vol-e-0" = Some (engineResponseToInstanceResponse some_engine) ∧
    m !! "vol-e-1" = Some (processResponseToInstanceResponse "engine" (some_process "vol-e-1")) ∧
    m !! "vol-r-1" = Some (shardResponseToInstanceResponse some_shard) ∧
    m !! "vol-r-2" = None.
Proof.
  eexists. split.
  - apply (InstanceList_union a_server _ some_inventory).
    + repeat split.
    + unfold inventory_keyed, keyed. simpl.
      split_and!; repeat first [apply map_Forall_empty | by apply map_Forall_singleton
                               | apply map_Forall_insert_2; [done|]].
  - split_and!; vm_compute; reflexivity.
Defined.

(** ** Deleting *)

(** The SPDK call that deletes an instance: none keeps an engine that is not to
    be cleaned up. *)
Definition delete_call (req : InstanceDeleteRequest) : option (option (spdkE err)) :=
  let type := DelType req in
  let name := DelName req in
  if bool_decide (type = InstanceTypeEngine) then
    Some (if DelCleanupRequired req then Some (EngineDelete name) else None)
  else if bool_decide (type = InstanceTypeEngineFrontend) then
    Some (Some (EngineFrontendDelete name))
  else if bool_decide (type = InstanceTypeReplica) then
    Some (Some (ReplicaDelete name (DelCleanupRequired req)))
  else if bool_decide (type = InstanceTypeShard) then
    Some (Some (ShardDelete name (DelCleanupRequired req)))
  else if bool_decide (type = InstanceTypeShardGroup) then
    Some (Some (ShardGroupDelete name (DelCleanupRequired req)))
  else None.

(** C35: deleting a V2 instance makes the one deletion of its type between
    dialling and closing, and none for an engine without clean-up; it reports a
    deleted, stopped instance of that name if and only if the deletion
    succeeded, and the error of the SPDK service, unchanged, otherwise. An
    unknown type is refused after dialling. *)
Theorem V2_delete_correct (s : Server) (req : InstanceDeleteRequest)
    (o : ∀ X, callE X → X) :
  DelDataEngine req = DATA_ENGINE_V2 → o _ (Dial (spdk_conn s)) = Ok tt →
  eval o (InstanceDelete s req) =
    match delete_call req with
    | None =>
        (Some (fail (EStatus InvalidArgument ("unknown instance type " +:+ DelType req))),
         [log (Dial (spdk_conn s)); log (Hangup (spdk_conn s))])
    | Some None =>
        (Some (ok (deleted_response (DelName req))),
         [log (Dial (spdk_conn s)); log (Hangup (spdk_conn s))])
    | Some (Some e) =>
        (Some (match o _ (SPDK (spdkServiceAddress s) e) with
               | None => ok (deleted_response (DelName req))
               | Some x => fail x
               end),
         [log (Dial (spdk_conn s)); log (SPDK (spdkServiceAddress s) e);
          log (Hangup (spdk_conn s))])
    end.
Proof.
  intros He Hd. unfold InstanceDelete. rewrite He, dispatch_v2.
  unfold V2_InstanceDelete, with_spdk, delete_call. rewrite eval_with_client, Hd, eval_bind.
  unfold spdk.
  repeat (match goal with |- context [bool_decide ?P] => destruct (bool_decide P) end);
    try destruct (DelCleanupRequired req); simpl; try done; by destruct (o (option error) _).
Qed.

Definition replica_delete : InstanceDeleteRequest :=
  {| DelName := "vol-r-1"; DelUuid := ""; DelType := "replica";
     DelDataEngine := DATA_ENGINE_V2; DelCleanupRequired := true; DelDiskUuid := "" |}.

Theorem V2_delete_correct_witness :
  (eval no_error (InstanceDelete a_server replica_delete)).1 =
    Some (ok (deleted_response "vol-r-1")).
Proof. by rewrite (V2_delete_correct a_server replica_delete no_error). Defined.

(** ** What a client can recover *)

(** The process an instance of the V1 engine stands for. *)
Definition instance_process (r : InstanceResponse) : option ProcessResponse :=
  spec ← ISpec r;
  p ← IProcess spec;
  Some {| Spec := {| SName := IName spec; SBinary := PIBinary p; SArgs := PIArgs p;
                     SPortCount := IPortCount spec; SPortArgs := IPortArgs spec |};
          Status := {| StState := IState (IStatus r); StErrorMsg := IErrorMsg (IStatus r);
                       StPortStart := IPortStart (IStatus r); StPortEnd := IPortEnd (IStatus r);
                       StConditions := IConditions (IStatus r); StUuid := IUuid (IStatus r) |};
          Deleted := IDeleted r |}.

(** Nothing of a process is lost in its instance. From the instance that
    stands for a process, whatever its type, the process can be rebuilt. *)
Theorem process_roundtrip (type : string) (p : ProcessResponse) :
  in_int32 (SPortCount (Spec p)) →
  instance_process (processResponseToInstanceResponse type p) = Some p.
Proof.
  intros Hc. destruct p as [[] []]. unfold processResponseToInstanceResponse, instance_process.
  simpl in *. by rewrite int32_id.
Qed.

Definition a_process : ProcessResponse :=
  {| Spec := {| SName := "vol-e-0"; SBinary := "/bin/longhorn"; SArgs := ["controller"];
                SPortCount := 1; SPortArgs := ["--listen,localhost:"] |};
     Status := {| StState := "running"; StErrorMsg := ""; StPortStart := 10000;
                  StPortEnd := 10000; StConditions := ∅; StUuid := "u" |};
     Deleted := false |}.

Theorem process_roundtrip_witness :
  instance_process (processResponseToInstanceResponse "engine" a_process) = Some a_process.
Proof. by apply (process_roundtrip "engine" a_process). Defined.

(** The log level of the V2 engine can be set but not read: setting it calls
    the SPDK service with the level in upper case, reading it makes no call to
    that service and answers the level of the instance manager itself. *)
Theorem v2_log_level_not_read (s : Server) (level : string) (o : ∀ X, callE X → X) :
  eval o (LogGetLevel DATA_ENGINE_V2) =
    (Some (ok (Level_String (o _ GetLogrusLevel))), [log GetLogrusLevel]) ∧
  (o _ (Dial (spdk_conn s)) = Ok tt →
   (eval o (LogSetLevel s DATA_ENGINE_V2 level)).2 =
     [log (Dial (spdk_conn s)); log (SPDK (spdkServiceAddress s) (SpdkLogSetLevel (to_upper level)));
      log (Hangup (spdk_conn s))]).
Proof.
  split; [done|]. intros Hd. unfold LogSetLevel. rewrite dispatch_v2.
  unfold V2_LogSetLevel, with_spdk, spdk. by rewrite eval_with_client, Hd.
Qed.

Theorem v2_log_level_not_read_witness :
  (eval no_error (LogSetLevel a_server DATA_ENGINE_V2 "debug")).2 =
    [log (Dial (spdk_conn a_server));
     log (SPDK "10.0.0.1:8504" (SpdkLogSetLevel "DEBUG"));
     log (Hangup (spdk_conn a_server))].
Proof.
  pose proof (v2_log_level_not_read a_server "debug" no_error) as [_ H]. by apply H.
Defined.

(** A process with a log level, the services as in the examples. *)
Definition with_level (X : Type) (e : callE X) (level : Level) : X * Level :=
  match e in callE X return X * Level with
  | SetLogrusLevel l => (tt, l)
  | GetLogrusLevel => (level, level)
  | e => (empty_services None _ e, level)
  end.

Lemma ParseLevel_String l : ParseLevel (Level_String l) = Ok l.
Proof. by destruct l. Qed.

(** The level of the V1 engine is set and read back: a text that names a level,
    in any case, is taken and answered as the name of this level from then on,
    whose own name it is; any other text is refused and changes nothing. *)
Theorem log_level_roundtrip (s : Server) (text : string) (level : Level) :
  let '(r, level') := exec with_level (LogSetLevel s DATA_ENGINE_V1 text) level in
  match ParseLevel text with
  | Ok l => r = Some (ok tt) ∧ level' = l
  | Err e => r = Some (fail e) ∧ level' = level
  end ∧
  ∃ name, (exec with_level (LogGetLevel DATA_ENGINE_V1) level').1 = Some (ok name) ∧
    ParseLevel name = Ok level'.
Proof.
  unfold LogSetLevel. rewrite dispatch_v1. unfold V1_LogSetLevel, logSetLevel.
  destruct (ParseLevel text) as [l|e]; simpl.
  - case_decide as Hl; simpl;
      (split; [split; [done|]|eexists; split; [done|apply ParseLevel_String]]).
    + done.
    + done.
  - split; [done|]. eexists. split; [done|apply ParseLevel_String].
Qed.
