(* ===== verification/Proxy.v ===== *)
(** * The proxy: addresses and replicas

    [pkg/proxy/proxy.go] and [ReplicaList] of [pkg/proxy/replica.go]: the proxy
    forwards requests about a volume to its engine. For the V1 engine the
    request's address is that of the engine's controller; for the V2 engine the
    SPDK service on the same host is asked. *)
From S2P Require Import Prelude GoStrings Sched Process Calls ProxyEnv Messages Services.

#[local] Open Scope Z_scope.

(** ** Addresses ([net.SplitHostPort], [net.JoinHostPort]) *)

(** The text around the last occurrence of a byte. *)
Fixpoint cut_last (c : ascii) (s : string) : option (string * string) :=
  match s with
  | EmptyString => None
  | String a s' =>
      match cut_last c s' with
      | Some (x, y) => Some (String a x, y)
      | None => if decide (a = c) then Some ("", s') else None
      end
  end.

Definition addr_error (addr why : string) : error :=
  EPlain ("address " +:+ addr +:+ ": " +:+ why).

(** No bracket where none is allowed: [before] and [after] are the parts that
    are searched for an opening and for a closing one. *)
Definition no_brackets (hostport before after host port : string) : res (string * string) :=
  if contains "[" before then Err (addr_error hostport "unexpected '[' in address")
  else if contains "]" after then Err (addr_error hostport "unexpected ']' in address")
  else Ok (host, port).

Definition SplitHostPort (hostport : string) : res (string * string) :=
  match cut_last ":" hostport with
  | None => Err (addr_error hostport "missing port in address")
  | Some (before, port) =>
      match strip_prefix "[" hostport with
      | Some rest =>
          match cut "]" rest with
          | None => Err (addr_error hostport "missing ']' in address")
          | Some (host, EmptyString) => Err (addr_error hostport "missing port in address")
          | Some (host, String a post) =>
              if decide (a = ":"%char) then
                if contains ":" post then Err (addr_error hostport "too many colons in address")
                else no_brackets hostport rest (String a post) host port
              else Err (addr_error hostport "missing port in address")
          end
      | None =>
          if contains ":" before then Err (addr_error hostport "too many colons in address")
          else no_brackets hostport hostport hostport before port
      end
  end.

Definition JoinHostPort (host port : string) : string :=
  if contains ":" host then "[" +:+ host +:+ "]:" +:+ port else host +:+ ":" +:+ port.

Definition InstanceManagerSpdkServiceDefaultPort : Z := 8504.

(** ** Clients *)

Record ProxyEngineRequest := mkProxyRequest {
  PqAddress : string; PqEngineName : string; PqVolumeName : string; PqDataEngine : Z;
  PqEngineFrontendName : string;
}.

(** [getSPDKClientFromAddress], the deferred close and the error of the
    methods that use it. *)
Definition with_spdk_err {B} (on_error : error → error) (address : string)
    (body : string → handler B) : handler B :=
  match SplitHostPort address with
  | Err e => mret (fail (on_error e))
  | Ok (host, _) =>
      let addr := JoinHostPort host (itoa InstanceManagerSpdkServiceDefaultPort) in
      with_client (Dial (SPDKService, addr)) (Hangup (SPDKService, addr)) on_error (body addr)
  end.

Definition with_spdk_at {B} (address : string) (body : string → handler B) : handler B :=
  with_spdk_err (status_wrap Internal ("failed to get SPDK client from engine address " +:+ address))
    address body.

(** The client of another address in the middle of a method: what to do without
    it, the call to make with it, and what to do after it is closed. *)
Definition spdk_scope {A B} (address : string) (failed : error → free callE B)
    (q : string → callE A) (k : A → err → free callE B) : free callE B :=
  match SplitHostPort address with
  | Err e => failed e
  | Ok (host, _) =>
      let addr := JoinHostPort host (itoa InstanceManagerSpdkServiceDefaultPort) in
      r ← call (Dial (SPDKService, addr));
      match r with
      | Err e => failed e
      | Ok _ => x ← call (q addr); e ← call (Hangup (SPDKService, addr)); k x e
      end
  end.

(** A method that makes one request without a result to the SPDK service. *)
Definition spdk_forward (wrap : error → error) (address : string) (q : spdkE err) :
    handler unit :=
  with_spdk_at address (λ addr, e ← call (SPDK addr q); mret (reply_empty wrap e)).

Definition controller (req : ProxyEngineRequest) : conn :=
  (ControllerService (PqVolumeName req) (PqEngineName req), PqAddress req).

Definition with_controller {B} (req : ProxyEngineRequest) (body : handler B) : handler B :=
  with_client (Dial (controller req)) (Hangup (controller req)) id body.

(** A method that makes one request without a result to the controller. *)
Definition control (req : ProxyEngineRequest) (q : engineE err) : handler unit :=
  with_controller req (e ← call (Eng (controller req) q); mret (reply_empty id e)).

(** [ServerVersionGet] asks the engine, whatever the data engine is. *)
Definition ServerVersionGet (req : ProxyEngineRequest) : handler VersionOutput :=
  with_controller req (
    try (call (Eng (controller req) ControllerVersionDetailGet)) (λ recv, mret (ok recv))).

(** [NewProxy] opens the client of the local SPDK service, at [local], that is
    used for the backing images. *)
Definition NewProxy (local : string) : handler unit :=
  r ← call (Dial (SPDKService, local));
  mret (match r with
        | Err e => fail (status_wrap Internal "failed to create SPDK client" e)
        | Ok _ => ok tt
        end).

(** ** Replicas *)

Definition ReplicaMode_WO : Z := 0.
Definition ReplicaMode_RW : Z := 1.
Definition ReplicaMode_ERR : Z := 2.

(** [enginerpc.ControllerReplica]. *)
Record ControllerReplica := mkControllerReplica {
  CrAddress : string; CrInstanceName : string; CrMode : Z;
}.

(** [ReplicaModeToGRPCReplicaMode] of the engine and [replicaModeToGRPCReplicaMode]
    of the proxy. *)
Definition replicaModeToGRPCReplicaMode (mode : string) : Z :=
  if bool_decide (mode = "WO") then ReplicaMode_WO
  else if bool_decide (mode = "RW") then ReplicaMode_RW
  else ReplicaMode_ERR.
Definition GRPCReplicaModeToReplicaMode (mode : Z) : string :=
  if bool_decide (mode = ReplicaMode_WO) then "WO"
  else if bool_decide (mode = ReplicaMode_RW) then "RW"
  else "ERR".

Definition AddTcpPrefixForAddress (address : string) : string :=
  if bool_decide (address = "") then "" else "tcp://" +:+ address.

Definition V1_ReplicaList (req : ProxyEngineRequest) : handler (list ControllerReplica) :=
  with_controller req (
    try (call (Eng (controller req) ControllerReplicaList)) (λ recv,
    mret (ok ((λ '(address, mode),
      {| CrAddress := address; CrInstanceName := "";
         CrMode := replicaModeToGRPCReplicaMode mode |}) <$> recv)))).

(** The loop over the modes, in the order of the range. *)
Fixpoint v2_replicas (addresses : gmap string string) (modes : list (string * string)) :
    res (list ControllerReplica) :=
  match modes with
  | [] => Ok []
  | (name, mode) :: modes' =>
      match addresses !! name with
      | None => Err (EStatus Internal ("failed to get replica address for " +:+ name))
      | Some address =>
          let? rs := v2_replicas addresses modes' in
          Ok ({| CrAddress := AddTcpPrefixForAddress address; CrInstanceName := "";
                 CrMode := replicaModeToGRPCReplicaMode mode |} :: rs)
      end
  end%go.

Definition V2_ReplicaList (req : ProxyEngineRequest) : handler (list ControllerReplica) :=
  with_spdk_at (PqAddress req) (λ addr,
    r ← call (SPDK addr (EngineGet (PqEngineName req)));
    mret (match r with
          | Err e => fail (status_wrap Internal ("failed to get engine " +:+ PqEngineName req) e)
          | Ok e =>
              reply_of id (v2_replicas (EReplicaAddressMap e) (map_to_list (EReplicaModeMap e)))
          end)).

Definition Proxy_ReplicaList (req : ProxyEngineRequest) : handler (list ControllerReplica) :=
  dispatch (PqDataEngine req) (V1_ReplicaList req) (V2_ReplicaList req).

(** ** Properties *)

Lemma keeps_with_spdk_err {B} c on_error address (body : string → handler B) :
  (∀ addr, keeps (Some (SPDKService, addr)) (body addr)) →
  keeps c (with_spdk_err on_error address body).
Proof.
  intros Hb. unfold with_spdk_err. destruct (SplitHostPort address) as [[h p]|e]; [|apply keeps_pure].
  by eapply with_client_keeps'.
Qed.

Lemma keeps_with_spdk_at {B} c address (body : string → handler B) :
  (∀ addr, keeps (Some (SPDKService, addr)) (body addr)) → keeps c (with_spdk_at address body).
Proof. apply keeps_with_spdk_err. Qed.

Lemma keeps_spdk_scope {A B} c address (failed : error → free callE B)
    (q : string → callE A) k :
  (∀ e, keeps c (failed e)) → (∀ addr, role_of (q addr) = Uses (SPDKService, addr)) →
  (∀ a e, keeps c (k a e)) → keeps c (spdk_scope address failed q k).
Proof.
  intros Hf Hb Hk. unfold spdk_scope. destruct (SplitHostPort address) as [[h p]|e]; [|done].
  eapply keeps_scope_err; [done..| |done|done]. intros cs Hcs. simpl. rewrite Hb. eauto.
Qed.

Lemma keeps_spdk_forward c wrap address q : keeps c (spdk_forward wrap address q).
Proof.
  apply keeps_with_spdk_at. intros addr. apply keeps_bind; [by apply keeps_use|].
  intros. apply keeps_pure.
Qed.

Lemma keeps_with_controller {B} c req (body : handler B) :
  keeps (Some (controller req)) body → keeps c (with_controller req body).
Proof. intros Hb. by eapply with_client_keeps'. Qed.

Lemma cut_last_spec c x y :
  contains c y = false → cut_last c (x +:+ String c y) = Some (x, y).
Proof.
  intros Hy. assert (cut_last c y = None) as Hn.
  { induction y as [|a y IH]; [done|]. simpl in *. apply orb_false_iff in Hy as [Ha Hy].
    rewrite IH by done. apply bool_decide_eq_false in Ha. by rewrite decide_False. }
  induction x as [|a x IH]; simpl; [by rewrite Hn, decide_True|by rewrite IH].
Qed.

(** Joining a host and a port and splitting them again gives them back, for
    names, IPv4 and IPv6 addresses alike: hosts without brackets, ports without
    colons and brackets. *)
Theorem SplitHostPort_JoinHostPort (host port : string) :
  contains "[" host = false → contains "]" host = false →
  contains ":" port = false → contains "[" port = false → contains "]" port = false →
  SplitHostPort (JoinHostPort host port) = Ok (host, port).
Proof.
  intros Ho Hc Pp Po Pc. unfold JoinHostPort. destruct (contains ":" host) eqn:Hp.
  - unfold SplitHostPort.
    assert (cut_last ":" ("[" +:+ host +:+ "]:" +:+ port) = Some ("[" +:+ host +:+ "]", port)) as ->.
    { rewrite <- (cut_last_spec ":" ("[" +:+ host +:+ "]") port) by done.
      f_equal. rewrite <- !string_app_assoc. done. }
    change ("[" +:+ host +:+ "]:" +:+ port) with (String "[" (host +:+ String "]" (String ":" port))).
    cbn [strip_prefix]. rewrite decide_True by done.
    rewrite (proj2 (cut_char_spec "]" (host +:+ String "]" (String ":" port)) host _)) by done.
    lazy beta iota. rewrite decide_True, Pp by done. unfold no_brackets.
    rewrite contains_app, Ho. simpl. by rewrite Po, Pc.
  - unfold SplitHostPort. change (":" +:+ port) with (String ":" port).
    rewrite cut_last_spec by done.
    destruct (strip_prefix "[" (host +:+ String ":" port)) as [rest|] eqn:Hs.
    { apply strip_prefix_spec in Hs. destruct host as [|a host]; [done|].
      simpl in Hs. injection Hs as -> _. by simpl in Ho. }
    rewrite Hp. unfold no_brackets. rewrite !contains_app, Ho, Hc. simpl. by rewrite Po, Pc.
Qed.

Theorem SplitHostPort_JoinHostPort_witness :
  SplitHostPort "[fd00::1]:8504" = Ok ("fd00::1", "8504").
Proof. by apply (SplitHostPort_JoinHostPort "fd00::1" "8504"). Defined.

Lemma AddTcpPrefix_inj a b : AddTcpPrefixForAddress a = AddTcpPrefixForAddress b → a = b.
Proof.
  unfold AddTcpPrefixForAddress. do 2 case_bool_decide; intros Heq; subst; try done.
  by injection Heq.
Qed.

(** ** Running with an SPDK client *)

Section reach.
Context (o : ∀ X, callE X → X).

(** The address of the SPDK service on the host of an address, if it can be
    dialled. *)
Definition reach (address : string) : res string :=
  match SplitHostPort address with
  | Err e => Err e
  | Ok (host, _) =>
      let addr := JoinHostPort host "8504" in
      match o _ (Dial (SPDKService, addr)) with Ok _ => Ok addr | Err e => Err e end
  end.

Definition dial_log (address : string) : list (logged callE) :=
  match SplitHostPort address with
  | Err _ => []
  | Ok (host, _) => [log (Dial (SPDKService, JoinHostPort host "8504"))]
  end.

Lemma eval_with_spdk_err {B} on_error address (body : string → handler B) :
  eval o (with_spdk_err on_error address body) =
    match reach address with
    | Err e => (Some (fail (on_error e)), dial_log address)
    | Ok addr =>
        ((eval o (body addr)).1,
         dial_log address ++ (eval o (body addr)).2 ++ [log (Hangup (SPDKService, addr))])
    end.
Proof.
  unfold with_spdk_err, reach, dial_log. destruct (SplitHostPort address) as [[h p]|e]; [|done].
  rewrite eval_with_client. change (itoa InstanceManagerSpdkServiceDefaultPort) with "8504".
  by destruct (o _ (Dial _)).
Qed.

Lemma eval_spdk_scope {A B} address (failed : error → free callE B) (q : string → callE A)
    (k : A → err → free callE B) :
  eval o (spdk_scope address failed q k) =
    match reach address with
    | Err e => ((eval o (failed e)).1, dial_log address ++ (eval o (failed e)).2)
    | Ok addr =>
        let r := eval o (k (o _ (q addr)) (o _ (Hangup (SPDKService, addr)))) in
        (r.1, dial_log address ++ log (q addr) :: log (Hangup (SPDKService, addr)) :: r.2)
    end.
Proof.
  unfold spdk_scope, reach, dial_log. destruct (SplitHostPort address) as [[h p]|e].
  2: { by destruct (eval o (failed e)). }
  change (itoa InstanceManagerSpdkServiceDefaultPort) with "8504".
  rewrite eval_bind, eval_call. destruct (o _ (Dial _)) as [u|e].
  - rewrite !eval_bind, eval_call. simpl. by destruct (eval o (k _ _)).
  - by destruct (eval o (failed e)).
Qed.

(** The result alone of a method that has reached the SPDK service. *)
Lemma result_with_spdk_at {B} address addr (body : string → handler B) :
  reach address = Ok addr →
  (eval o (with_spdk_at address body)).1 = (eval o (body addr)).1.
Proof. intros Hr. unfold with_spdk_at. by rewrite eval_with_spdk_err, Hr. Qed.

Lemma result_spdk_call {X B} address addr (q : string → callE X) (k : string → X → handler B) :
  reach address = Ok addr →
  (eval o (with_spdk_at address (λ a, x ← call (q a); k a x))).1 =
    (eval o (k addr (o _ (q addr)))).1.
Proof. intros Hr. rewrite (result_with_spdk_at _ addr) by done. by rewrite result_bind, eval_call. Qed.
End reach.
