(* ===== verification/ProxyBackup.v ===== *)
(** * Backups through the proxy

    [pkg/proxy/backup.go]: backing up a snapshot, asking for the status of a
    backup, restoring one and asking for the status of that, for both data
    engines. Ranges over a map go in the order of [map_to_list], where the
    code's order is unspecified. *)
From S2P Require Import Prelude GoStrings Sched Process Calls ProxyEnv Messages Services Proxy.

#[local] Open Scope Z_scope.

(** ** Backing up *)

Definition CleanupBackupMountPoints : handler unit :=
  e ← call (Local CleanUpAllMounts);
  mret (Some tt, match e with
                 | Some e => Some (EStatus Internal
                     ("failed to unmount all mount points: " +:+ error_string e))
                 | None => None
                 end).

Definition getLabels (labels : gmap string string) : list string :=
  (λ '(k, v), k +:+ "=" +:+ v) <$> map_to_list labels.

Record SnapshotBackupRequest := mkSnapshotBackup {
  SbRequest : ProxyEngineRequest; SbEnvs : list string; SbBackup : string;
  SbSnapshot : string; SbTarget : string; SbStorageClass : string; SbBackingImage : string;
  SbBackingImageChecksum : string; SbCompression : string; SbLimit : Z;
  SbLabels : gmap string string; SbParameters : gmap string string;
}.

(** What [SnapshotBackup] and [BackupRestore] do first: set the environment,
    read the credential. *)
Definition with_credential {B} (envs : list string) (target : string)
    (k : gmap string string → handler B) : handler B :=
  e ← lift (λ X e, Local (OS e)) (setEnv envs);
  match e with
  | Some e => mret (fail (status_wrap Internal "failed to set envs" e))
  | None =>
      r ← call (Local (GetBackupCredential target));
      match r with
      | Err e => mret (fail (EStatus InvalidArgument
          ("failed to get backup credential: " +:+ error_string e)))
      | Ok credential => k credential
      end
  end.

Definition task_of (req : ProxyEngineRequest) : task :=
  (PqAddress req, PqVolumeName req, PqEngineName req).

(** A task knows its volume and its engine. *)
Definition V1_SnapshotBackup (req : SnapshotBackupRequest) (credential : gmap string string)
    (labels : list string) : handler BackupCreated :=
  let t := task_of (SbRequest req) in
  r ← call (Local (NewTask t));
  match r with
  | Err e => mret (fail (status_wrap Internal "failed to create task" e))
  | Ok _ =>
      r ← call (Local (OnTask t (CreateBackup
        {| BrBackup := SbBackup req; BrSnapshot := SbSnapshot req; BrVolume := "";
           BrEngine := ""; BrTarget := SbTarget req; BrStorageClass := SbStorageClass req;
           BrBackingImage := SbBackingImage req;
           BrBackingImageChecksum := SbBackingImageChecksum req;
           BrCompression := SbCompression req; BrLimit := SbLimit req; BrLabels := labels;
           BrParameters := SbParameters req; BrCredential := credential |})));
      mret (match r with
            | Err e => fail (status_wrap Internal "failed to create backup" e)
            | Ok recv => ok recv
            end)
  end.

Definition V2_SnapshotBackup (req : SnapshotBackupRequest) (credential : gmap string string)
    (labels : list string) : handler BackupCreated :=
  let q := SbRequest req in
  with_spdk_at (PqAddress q) (λ addr,
    name ← (if bool_decide (SbSnapshot req = "") then call (Local NewUUID)
            else mret (SbSnapshot req));
    r ← call (SPDK addr (EngineBackupCreate
      {| BrBackup := SbBackup req; BrSnapshot := name; BrVolume := PqVolumeName q;
         BrEngine := PqEngineName q; BrTarget := SbTarget req;
         BrStorageClass := SbStorageClass req; BrBackingImage := SbBackingImage req;
         BrBackingImageChecksum := SbBackingImageChecksum req;
         BrCompression := SbCompression req; BrLimit := SbLimit req; BrLabels := labels;
         BrParameters := SbParameters req; BrCredential := credential |}));
    mret (match r with
          | Err e => fail (status_wrap Internal "failed to create backup" e)
          | Ok recv => ok recv
          end)).

Definition SnapshotBackup (req : SnapshotBackupRequest) : handler BackupCreated :=
  with_credential (SbEnvs req) (SbTarget req) (λ credential,
    let labels := getLabels (SbLabels req) in
    dispatch (PqDataEngine (SbRequest req)) (V1_SnapshotBackup req credential labels)
      (V2_SnapshotBackup req credential labels)).

(** ** The status of a backup *)

Record BackupStatusRequest := mkBackupStatusRequest {
  StRequest : ProxyEngineRequest; StBackup : string; StReplicaAddress : string;
  StReplicaName : string;
}.

(** [esync.FetchBackupStatus]: a failed request is a status with an error. *)
Definition FetchBackupStatus (c : conn) (backup replicaAddr : string) :
    free callE (res BackupStatus) :=
  r ← call (Eng c (ReplicaBackupStatus backup));
  mret (Ok (match r with
    | Err e =>
        {| BsUrl := ""; BsError := "Failed to get backup status on " +:+ replicaAddr +:+
             " for " +:+ backup +:+ ": " +:+ error_string e;
           BsProgress := 0; BsSnapshot := ""; BsState := ""; BsReplica := "" |}
    | Ok bs =>
        {| BsUrl := BsUrl bs; BsError := BsError bs; BsProgress := BsProgress bs;
           BsSnapshot := BsSnapshot bs; BsState := BsState bs; BsReplica := replicaAddr |}
    end)).

Definition is_RW (r : ControllerReplica) : bool :=
  bool_decide (GRPCReplicaModeToReplicaMode (CrMode r) = "RW").

Definition replica_conn (volume instance address : string) : conn :=
  (ReplicaService volume instance, address).

(** The search for a replica that has the backup; empty when there is none. *)
Fixpoint find_replica (volume backup : string) (rs : list ControllerReplica) :
    free callE string :=
  match rs with
  | [] => mret ""
  | r :: rs' =>
      if negb (is_RW r) then find_replica volume backup rs'
      else
        let c := replica_conn volume (CrInstanceName r) (CrAddress r) in
        d ← call (Dial c);
        match d with
        | Err _ => find_replica volume backup rs'
        | Ok _ =>
            s ← FetchBackupStatus c backup (CrAddress r);
            call (Hangup c);;
            match s with
            | Ok _ => mret (CrAddress r)
            | Err _ => find_replica volume backup rs'
            end
        end
  end.

Definition status_response (replicaAddress : string) (s : BackupStatus) : BackupStatus :=
  {| BsUrl := BsUrl s; BsError := BsError s; BsProgress := int32 (BsProgress s);
     BsSnapshot := BsSnapshot s; BsState := BsState s; BsReplica := replicaAddress |}.

Definition no_replica_with (backup : string) : error :=
  EPlain ("failed to find a replica with backup " +:+ backup).

Definition V1_SnapshotBackupStatus (req : BackupStatusRequest) : handler BackupStatus :=
  let q := StRequest req in
  with_controller q (
    r ← V1_ReplicaList q;
    match r with
    | (_, Some e) => mret (fail e)
    | (None, None) => Panic
    | (Some replicas, None) =>
        address ← (if bool_decide (StReplicaAddress req = "")
                   then find_replica (PqVolumeName q) (StBackup req) replicas
                   else mret (StReplicaAddress req));
        if bool_decide (address = "") then mret (fail (no_replica_with (StBackup req)))
        else if existsb (λ r, bool_decide (CrAddress r = address) && negb (is_RW r)) replicas
        then mret (fail (EPlain ("failed to get backup " +:+ StBackup req +:+
               " status on unknown replica " +:+ address)))
        else
          let c := replica_conn (PqVolumeName q) (StReplicaName req) address in
          with_client (Dial c) (Hangup c)
            (EWrap ("failed to create Replica client with " +:+ address))
            (r ← FetchBackupStatus c (StBackup req) address;
             mret (reply_of (status_response address) r))
    end).

Definition findV2BackupReplicaAddresses (modes addresses : gmap string string) : list string :=
  omap (λ name,
    if bool_decide (modes !! name = Some "RW") then
      match addresses !! name with
      | Some a => if bool_decide (a = "") then None else Some a
      | None => None
      end
    else None) (sort_strings (map_to_list modes).*1).

(** The loop over the addresses, with the two errors remembered. *)
Fixpoint v2_status_loop (addr backup engine : string) (firstErr notFoundErr : err)
    (replicas : list string) : free callE (option BackupStatus * string * err) :=
  match replicas with
  | [] => mret (None, "", match firstErr with Some _ => firstErr | None => notFoundErr end)
  | replica :: replicas' =>
      r ← call (SPDK addr (EngineBackupStatus backup engine replica));
      let retry e :=
        if decide (status_code e = NotFound) then
          v2_status_loop addr backup engine firstErr (Some e) replicas'
        else
          v2_status_loop addr backup engine
            (match firstErr with Some _ => firstErr | None => Some e end) notFoundErr replicas' in
      match r with
      | Ok (Some status) => mret (Some status, replica, None)
      | Ok None => retry (EPlain ("received an empty backup status from replica " +:+ replica))
      | Err e => retry e
      end
  end.

Definition getV2BackupStatusFromReplicas (addr backup engine : string) (replicas : list string) :
    free callE (option BackupStatus * string * err) :=
  v2_status_loop addr backup engine None None replicas.

Definition V2_SnapshotBackupStatus (req : BackupStatusRequest) : handler BackupStatus :=
  let q := StRequest req in
  let engine := PqEngineName q in
  let backup := StBackup req in
  let respond status address :=
    match status with
    | None => mret (fail (EPlain ("received an empty backup status from replica address " +:+
                                  quote address)))
    | Some s =>
        let address := if bool_decide (BsReplica s = "") then address else BsReplica s in
        mret (ok (status_response address s))
    end in
  with_spdk_at (PqAddress q) (λ addr,
    if bool_decide (StReplicaAddress req = "") then
      r ← call (SPDK addr (EngineGet engine));
      match r with
      | Err e => mret (fail (EStatus Internal ("failed to get engine " +:+ engine +:+
                   " for backup status recovery: " +:+ error_string e)))
      | Ok e =>
          '(status, address, er) ← getV2BackupStatusFromReplicas addr backup engine
            (findV2BackupReplicaAddresses (EReplicaModeMap e) (EReplicaAddressMap e));
          match er with
          | Some e =>
              if decide (status_code e = NotFound) then
                if bool_decide (address = "") then mret (fail (no_replica_with backup))
                else respond status address
              else mret (fail e)
          | None =>
              if bool_decide (address = "") then mret (fail (no_replica_with backup))
              else respond status address
          end
      end
    else
      r ← call (SPDK addr (EngineBackupStatus backup engine (StReplicaAddress req)));
      match r with
      | Err e => mret (fail (EStatus Internal ("failed to get backup status: " +:+ error_string e)))
      | Ok status => respond status (StReplicaAddress req)
      end).

Definition SnapshotBackupStatus (req : BackupStatusRequest) : handler BackupStatus :=
  dispatch (PqDataEngine (StRequest req)) (V1_SnapshotBackupStatus req)
    (V2_SnapshotBackupStatus req).

(** ** Restoring *)

Record BackupRestoreRequest := mkRestore {
  ReRequest : ProxyEngineRequest; ReEnvs : list string; ReUrl : string; ReTarget : string;
  ReLimit : Z; ReNeedCorrect : bool; ReVolumeName : string;
}.

(** The errors the proxy makes itself have no exported fields. *)
Definition plain_task_error (e : error) : task_error := (e, Some "{}").

Definition V1_BackupRestore (req : BackupRestoreRequest) (credential : gmap string string) :
    free callE (option task_error) :=
  let t := task_of (ReRequest req) in
  r ← call (Local (NewTask t));
  match r with
  | Err e => mret (Some (plain_task_error e))
  | Ok _ => call (Local (OnTask t (RestoreBackup (ReUrl req) credential (ReLimit req)
                           (ReNeedCorrect req))))
  end.

(** [with_spdk_at] replies with a value or an error; the value here is the
    error of the restoration. *)
Definition V2_BackupRestore (req : BackupRestoreRequest) (credential : gmap string string) :
    free callE (option task_error) :=
  let q := ReRequest req in
  r ← with_spdk_at (PqAddress q) (λ addr,
        e ← call (SPDK addr (EngineBackupRestore (ReUrl req) (PqEngineName q) credential
              (ReLimit req)));
        mret (ok e));
  mret (match r with
        | (_, Some e) => Some (plain_task_error e)
        | (Some e, None) => e
        | (None, None) => None
        end).

(** The [TaskError] of the response. *)
Definition task_error_bytes (r : option task_error) : string :=
  match r with
  | None => ""
  | Some (e, json) =>
      let errInfo := default "" json in
      if bool_decide (errInfo = "{}") then error_string e else errInfo
  end.

Definition BackupRestore (req : BackupRestoreRequest) : handler string :=
  with_credential (ReEnvs req) (ReTarget req) (λ credential,
    let run op := r ← op; mret (ok (task_error_bytes r)) in
    dispatch (PqDataEngine (ReRequest req)) (run (V1_BackupRestore req credential))
      (run (V2_BackupRestore req credential))).

(** ** The status of a restoration *)

Record RestoreStatuses := mkRestoreStatuses {
  RtStatus : gmap string RestoreStatus; RtEngineError : string;
}.

Definition V1_BackupRestoreStatus (req : ProxyEngineRequest) : handler RestoreStatuses :=
  let t := task_of req in
  try (call (Local (NewTask t))) (λ _,
  try (call (Local (OnTask t TaskRestoreStatus))) (λ recv,
  mret (ok
    {| RtStatus := (λ v,
         {| RsIsRestoring := RsIsRestoring v; RsLastRestored := RsLastRestored v;
            RsCurrent := RsCurrent v; RsProgress := int32 (RsProgress v);
            RsError := RsError v; RsFilename := RsFilename v; RsState := RsState v;
            RsUrl := RsUrl v |}) <$> recv;
       RtEngineError := "" |}))).

Definition convert_status (v : SpdkRestoreStatus) : RestoreStatus :=
  {| RsIsRestoring := SrIsRestoring v; RsLastRestored := SrLastRestored v;
     RsCurrent := SrCurrent v; RsProgress := int32 (SrProgress v); RsError := SrError v;
     RsFilename := SrDestFileName v; RsState := SrState v; RsUrl := SrUrl v |}.

Definition convertRestoreStatusToProxyResponse (r : SpdkRestoreStatuses) : RestoreStatuses :=
  {| RtStatus := map_fold (λ address v m, <["tcp://" +:+ address := convert_status v]> m) ∅
       (SrStatus r);
     RtEngineError := SrEngineError r |}.

Definition V2_BackupRestoreStatus (req : ProxyEngineRequest) : handler RestoreStatuses :=
  with_spdk_at (PqAddress req) (λ addr,
    r ← call (SPDK addr (EngineRestoreStatus (PqEngineName req)));
    mret (match r with
          | Err e => fail (EStatus Internal ("failed to get restore status: " +:+ error_string e))
          | Ok recv => ok (convertRestoreStatusToProxyResponse recv)
          end)).

Definition BackupRestoreStatus (req : ProxyEngineRequest) : handler RestoreStatuses :=
  dispatch (PqDataEngine req) (V1_BackupRestoreStatus req) (V2_BackupRestoreStatus req).
