(* ===== verification/ProxyVolume.v ===== *)
(** * Volumes through the proxy

    [pkg/proxy/volume.go], [metrics.go] and the requests of [backing_image.go]:
    reading a volume and its metrics, expanding it, its frontend and its limits,
    remounting it, and the backing images of the local SPDK service. *)
From S2P Require Import Prelude GoStrings Sched Process Calls ProxyEnv Messages Services Proxy.

#[local] Open Scope Z_scope.

(** ** Reading a volume *)

Definition V1_VolumeGet (req : ProxyEngineRequest) : handler Volume :=
  with_controller req (
    try (call (Eng (controller req) ControllerVolumeGet)) (λ recv,
    mret (ok
      {| VoName := VoName recv; VoSize := VoSize recv;
         VoReplicaCount := int32 (VoReplicaCount recv); VoEndpoint := VoEndpoint recv;
         VoFrontend := VoFrontend recv; VoFrontendState := VoFrontendState recv;
         VoIsExpanding := VoIsExpanding recv;
         VoLastExpansionError := VoLastExpansionError recv;
         VoLastExpansionFailedAt := VoLastExpansionFailedAt recv;
         VoUnmapMarkSnapChainRemoved := VoUnmapMarkSnapChainRemoved recv;
         VoSnapshotMaxCount := int32 (VoSnapshotMaxCount recv);
         VoSnapshotMaxSize := VoSnapshotMaxSize recv |}))).

(** The volume of an engine, and of its frontend when that is known. *)
Definition v2_volume (engine : Engine) (frontend : option EngineFrontend) : Volume :=
  {| VoName := EName engine;
     VoSize := int64 (match frontend with Some f => FSpecSize f | None => ESpecSize engine end);
     VoReplicaCount := int32 (Z.of_nat (size (EReplicaAddressMap engine)));
     VoEndpoint := match frontend with Some f => FEndpoint f | None => EEndpoint engine end;
     VoFrontend := match frontend with Some f => FFrontend f | None => EFrontend engine end;
     VoFrontendState := "";
     VoIsExpanding := match frontend with
                      | Some f => EIsExpanding engine || FIsExpanding f
                      | None => EIsExpanding engine
                      end;
     VoLastExpansionError :=
       match frontend with
       | Some f => if bool_decide (FLastExpansionError f = "") then ELastExpansionError engine
                   else FLastExpansionError f
       | None => ELastExpansionError engine
       end;
     VoLastExpansionFailedAt :=
       match frontend with
       | Some f => if bool_decide (FLastExpansionError f = "") then ELastExpansionFailedAt engine
                   else FLastExpansionFailedAt f
       | None => ELastExpansionFailedAt engine
       end;
     VoUnmapMarkSnapChainRemoved := false;
     VoSnapshotMaxCount := ESnapshotMaxCount engine;
     VoSnapshotMaxSize := 0 |}.

(** The engine is asked at [local], the address of the SPDK service of this
    instance manager; the frontend at the host of the request. *)
Definition V2_VolumeGet (local : string) (req : ProxyEngineRequest) : handler Volume :=
  with_client (Dial (SPDKService, local)) (Hangup (SPDKService, local))
    (status_wrap Internal ("failed to create local SPDK client for address " +:+ local)) (
    r ← call (SPDK local (EngineGet (PqEngineName req)));
    match r with
    | Err e => mret (fail (status_wrap Internal ("failed to get engine " +:+ PqEngineName req) e))
    | Ok engine =>
        let engine_only := mret (ok (v2_volume engine None)) in
        if bool_decide (PqEngineFrontendName req = "") then engine_only
        else
          spdk_scope (PqAddress req) (λ _, engine_only)
            (λ addr, SPDK addr (EngineFrontendGet (PqEngineFrontendName req)))
            (λ f _, match f with
                    | Ok f => mret (ok (v2_volume engine (Some f)))
                    | Err _ => engine_only
                    end)
    end).

Definition VolumeGet (local : string) (req : ProxyEngineRequest) : handler Volume :=
  dispatch (PqDataEngine req) (V1_VolumeGet req) (V2_VolumeGet local req).

(** ** Changing a volume *)

Definition V1_VolumeExpand (req : ProxyEngineRequest) (size : Z) : handler unit :=
  control req (ControllerVolumeExpand size).
Definition V2_VolumeExpand (req : ProxyEngineRequest) (size : Z) : handler unit :=
  spdk_forward id (PqAddress req)
    (EngineFrontendExpand (PqEngineFrontendName req) (uint64 size)).
Definition VolumeExpand (req : ProxyEngineRequest) (size : Z) : handler unit :=
  dispatch (PqDataEngine req) (V1_VolumeExpand req size) (V2_VolumeExpand req size).

Definition V1_VolumeFrontendStart (req : ProxyEngineRequest) (frontend : string) : handler unit :=
  control req (ControllerVolumeFrontendStart frontend).
Definition V2_VolumeFrontendStart : handler unit :=
  unimplemented "VolumeFrontendStart is not yet implemented for V2 engine".
Definition VolumeFrontendStart (req : ProxyEngineRequest) (frontend : string) : handler unit :=
  dispatch (PqDataEngine req) (V1_VolumeFrontendStart req frontend) V2_VolumeFrontendStart.

Definition V1_VolumeFrontendShutdown (req : ProxyEngineRequest) : handler unit :=
  control req ControllerVolumeFrontendShutdown.
Definition V2_VolumeFrontendShutdown : handler unit :=
  unimplemented "VolumeFrontendShutdown is not yet implemented for V2 engine".
Definition VolumeFrontendShutdown (req : ProxyEngineRequest) : handler unit :=
  dispatch (PqDataEngine req) (V1_VolumeFrontendShutdown req) V2_VolumeFrontendShutdown.

Definition V1_VolumeUnmapMarkSnapChainRemovedSet (req : ProxyEngineRequest) (enabled : bool) :
    handler unit :=
  control req (ControllerVolumeUnmapMarkSnapChainRemovedSet enabled).
Definition V2_VolumeUnmapMarkSnapChainRemovedSet : handler unit :=
  unimplemented "VolumeUnmapMarkSnapChainRemovedSet is not yet implemented for V2 engine".
Definition VolumeUnmapMarkSnapChainRemovedSet (req : ProxyEngineRequest) (enabled : bool) :
    handler unit :=
  dispatch (PqDataEngine req) (V1_VolumeUnmapMarkSnapChainRemovedSet req enabled)
    V2_VolumeUnmapMarkSnapChainRemovedSet.

Definition V1_VolumeSnapshotMaxCountSet (req : ProxyEngineRequest) (count : Z) : handler unit :=
  control req (ControllerVolumeSnapshotMaxCountSet count).
Definition V2_VolumeSnapshotMaxCountSet (req : ProxyEngineRequest) (count : Z) : handler unit :=
  spdk_forward id (PqAddress req) (EngineSnapshotMaxCountSet (PqEngineName req) count).
Definition VolumeSnapshotMaxCountSet (req : ProxyEngineRequest) (count : Z) : handler unit :=
  dispatch (PqDataEngine req) (V1_VolumeSnapshotMaxCountSet req count)
    (V2_VolumeSnapshotMaxCountSet req count).

Definition V1_VolumeSnapshotMaxSizeSet (req : ProxyEngineRequest) (size : Z) : handler unit :=
  control req (ControllerVolumeSnapshotMaxSizeSet size).
Definition V2_VolumeSnapshotMaxSizeSet : handler unit :=
  unimplemented "VolumeSnapshotMaxSizeSet is not yet implemented for V2 engine".
Definition VolumeSnapshotMaxSizeSet (req : ProxyEngineRequest) (size : Z) : handler unit :=
  dispatch (PqDataEngine req) (V1_VolumeSnapshotMaxSizeSet req size) V2_VolumeSnapshotMaxSizeSet.

(** ** Remounting a volume *)

Section remount.
(** [hex.EncodeToString(sha256.Sum256(..))]. *)
Context (sha256_hex : string → string).

Definition RemountReadOnlyVolume (volumeName : string) : handler unit :=
  r ← call (Local ListMountPoints);
  match r with
  | Err e => mret (Some tt, Some e)
  | Ok mps =>
      e ← call (Local NewNamespaceExecutor);
      match e with
      | Some e => mret (Some tt, Some e)
      | None =>
          match GetVolumeMountPointMap mps !! sha256_hex volumeName with
          | None => mret (ok tt)
          | Some mp =>
              e ← call (Local (NsMount ["-o"; "remount,rw"; MPath mp]));
              mret (reply_empty (λ e, EStatus Internal
                ("remount failed with error: " +:+ error_string e)) e)
          end
      end
  end.
End remount.

(** ** Metrics *)

Definition V1_MetricsGet (req : ProxyEngineRequest) : handler Metrics :=
  with_controller req (
    try (call (Eng (controller req) ControllerMetricsGet)) (λ m, mret (ok m))).

Definition V2_MetricsGet (req : ProxyEngineRequest) : handler Metrics :=
  with_spdk_at (PqAddress req) (λ addr,
    r ← call (SPDK addr (SpdkMetricsGet (PqEngineName req)));
    mret (match r with
          | Err e => fail (status_wrap Internal ("failed to get engine " +:+ PqEngineName req) e)
          | Ok m => ok m
          end)).

Definition Proxy_MetricsGet (req : ProxyEngineRequest) : handler Metrics :=
  dispatch (PqDataEngine req) (V1_MetricsGet req) (V2_MetricsGet req).

(** ** Backing images

    They are asked through the client of the local SPDK service that the proxy
    opens when it starts and never closes; [local] is its address. *)

Record SPDKBackingImageSpec := mkBackingImageSpec {
  BiSpecName : string; BiSpecUuid : string; BiSpecDiskUuid : string; BiSpecSize : Z;
  BiSpecChecksum : string;
}.
Record SPDKBackingImageStatus := mkBackingImageStatus {
  BiStProgress : Z; BiStState : string; BiStChecksum : string; BiStErrorMsg : string;
}.
Record SPDKBackingImageResponse := mkBackingImageResponse {
  BiSpec : option SPDKBackingImageSpec; BiStatus : option SPDKBackingImageStatus;
}.

Definition spdkBackingImageToBackingImageResponse (bi : BackingImage) :
    SPDKBackingImageResponse :=
  {| BiSpec := Some
       {| BiSpecName := BiName bi; BiSpecUuid := BiBackingImageUUID bi;
          BiSpecDiskUuid := BiLvsUUID bi; BiSpecSize := BiSize bi;
          BiSpecChecksum := BiExpectedChecksum bi |};
     BiStatus := Some
       {| BiStProgress := BiProgress bi; BiStState := BiState bi;
          BiStChecksum := BiCurrentChecksum bi; BiStErrorMsg := BiErrorMsg bi |} |}.

(** [grpcstatus.Error(grpccodes.Internal, err.Error())]. *)
Definition as_internal (e : error) : error := EStatus Internal (error_string e).

Definition answer_or_internal {A B} (f : A → B) (r : res A) : reply B :=
  match r with Ok a => ok (f a) | Err e => fail (as_internal e) end.

Section backing_images.
Context (local : string).

Definition SPDKBackingImageCreate (name uuid diskUuid : string) (size : Z)
    (checksum fromAddress srcLvsUuid : string) : handler SPDKBackingImageResponse :=
  r ← call (SPDK local (BackingImageCreate name uuid diskUuid size checksum fromAddress srcLvsUuid));
  mret (answer_or_internal spdkBackingImageToBackingImageResponse r).

Definition SPDKBackingImageDelete (name diskUuid : string) : handler unit :=
  e ← call (SPDK local (BackingImageDelete name diskUuid)); mret (Some tt, e).

Definition SPDKBackingImageGet (name diskUuid : string) : handler SPDKBackingImageResponse :=
  r ← call (SPDK local (BackingImageGet name diskUuid));
  mret (answer_or_internal spdkBackingImageToBackingImageResponse r).

Definition SPDKBackingImageList : handler (gmap string SPDKBackingImageResponse) :=
  r ← call (SPDK local BackingImageList);
  mret (answer_or_internal (λ m : gmap string BackingImage,
    spdkBackingImageToBackingImageResponse <$> m) r).
End backing_images.

(** ** Properties *)

