(* ===== verification/ProxySnapshot.v ===== *)
(** * Snapshots through the proxy

    [pkg/proxy/snapshot.go]: making, listing, cloning, reverting to, purging,
    removing and hashing snapshots, for both data engines. *)
From S2P Require Import Prelude GoStrings Sched Process Calls ProxyEnv Messages Services Proxy ProxyBackup.

#[local] Open Scope Z_scope.

(** A method that runs one method of a task. *)
Definition with_task {B} (req : ProxyEngineRequest) (k : task → handler B) : handler B :=
  try (call (Local (NewTask (task_of req)))) (λ _, k (task_of req)).

Definition task_forward (req : ProxyEngineRequest) (q : taskE err) : handler unit :=
  with_task req (λ t, e ← call (Local (OnTask t q)); mret (reply_empty id e)).

(** ** Making a snapshot *)

Definition V1_VolumeSnapshot (req : ProxyEngineRequest) (name : string)
    (labels : gmap string string) (freeze : bool) : handler string :=
  with_controller req (
    try (call (Eng (controller req) (ControllerVolumeSnapshot name labels freeze))) (λ recv,
    mret (ok recv))).

Definition V2_VolumeSnapshot (req : ProxyEngineRequest) (name : string) : handler string :=
  with_spdk_at (PqAddress req) (λ addr,
    snapshotName ← (if bool_decide (name = "") then call (Local NewUUID) else mret name);
    r ← call (SPDK addr (EngineFrontendSnapshotCreate (PqEngineFrontendName req) snapshotName));
    mret (match r with
          | Err e => fail (status_wrap Internal ("failed to create snapshot " +:+ snapshotName) e)
          | Ok _ => ok snapshotName
          end)).

Definition VolumeSnapshot (req : ProxyEngineRequest) (name : string)
    (labels : gmap string string) (freeze : bool) : handler string :=
  dispatch (PqDataEngine req) (V1_VolumeSnapshot req name labels freeze)
    (V2_VolumeSnapshot req name).

(** ** Listing *)

(** The engine's disks are copied field by field. *)
Definition V1_SnapshotList (req : ProxyEngineRequest) : handler (gmap string SnapshotDisk) :=
  with_controller req (
    try (call (Eng (controller req) ControllerReplicaList)) (λ recv,
    try (call (Local (GetSnapshotsInfo recv (PqVolumeName req)))) (λ disks,
    mret (ok disks)))).

Definition lvol_disk (snapshot : Lvol) : SnapshotDisk :=
  {| SdName := LvName snapshot; SdParent := LvParent snapshot; SdChildren := LvChildren snapshot;
     SdRemoved := false; SdUserCreated := LvUserCreated snapshot;
     SdCreated := if bool_decide (LvSnapshotTimestamp snapshot = "")
                  then LvCreationTime snapshot else LvSnapshotTimestamp snapshot;
     SdSize := itoa (LvActualSize snapshot); SdLabels := ∅ |}.

Definition engine_disks (engine : Engine) : gmap string Lvol :=
  match EHead engine with
  | Some head => <[LvName head := head]> (ESnapshots engine)
  | None => ESnapshots engine
  end.

Definition V2_SnapshotList (req : ProxyEngineRequest) : handler (gmap string SnapshotDisk) :=
  with_spdk_err (EWrap ("failed to get SPDK client from engine address " +:+ PqAddress req))
    (PqAddress req) (λ addr,
    r ← call (SPDK addr (EngineGet (PqEngineName req)));
    mret (match r with
          | Err e => fail (EWrap ("failed to get engine " +:+ PqEngineName req) e)
          | Ok engine => ok (lvol_disk <$> engine_disks engine)
          end)).

Definition SnapshotList (req : ProxyEngineRequest) : handler (gmap string SnapshotDisk) :=
  dispatch (PqDataEngine req) (V1_SnapshotList req) (V2_SnapshotList req).

(** ** Cloning *)

Record SnapshotCloneRequest := mkSnapshotClone {
  ScRequest : ProxyEngineRequest; ScFromEngineAddress : string; ScFromEngineName : string;
  ScFromVolumeName : string; ScSnapshotName : string; ScExportBackingImageIfExist : bool;
  ScFileSyncHttpClientTimeout : Z; ScGrpcTimeoutSeconds : Z; ScCloneMode : Z;
  ScReplicaPairMap : gmap string string;
}.

Definition source_controller (req : SnapshotCloneRequest) : conn :=
  (ControllerService (ScFromVolumeName req) (ScFromEngineName req), ScFromEngineAddress req).

Definition V1_SnapshotClone (req : SnapshotCloneRequest) : handler unit :=
  let from := source_controller req in
  let to := ScRequest req in
  with_client (Dial from) (Hangup from) id (
  with_controller to (
    e ← call (Eng (controller to) (ControllerCloneSnapshot from (PqVolumeName to)
          (ScFromVolumeName req) (ScSnapshotName req) (ScExportBackingImageIfExist req)
          (ScFileSyncHttpClientTimeout req) (ScGrpcTimeoutSeconds req)));
    mret (reply_empty id e))).

Definition V2_SnapshotClone (req : SnapshotCloneRequest) : handler unit :=
  spdk_forward (status_wrap Internal ("failed to do clone snapshot " +:+ ScSnapshotName req))
    (PqAddress (ScRequest req))
    (EngineSnapshotClone (PqEngineName (ScRequest req)) (ScSnapshotName req)
       (ScFromEngineName req) (ScFromEngineAddress req) (ScCloneMode req) (ScReplicaPairMap req)).

Definition SnapshotClone (req : SnapshotCloneRequest) : handler unit :=
  dispatch (PqDataEngine (ScRequest req)) (V1_SnapshotClone req) (V2_SnapshotClone req).

(** The answer has the status' fields, the progress in 32 bits. *)
Definition clone_response (s : CloneStatus) : CloneStatus :=
  {| CsIsCloning := CsIsCloning s; CsError := CsError s; CsProgress := int32 (CsProgress s);
     CsState := CsState s; CsFromReplicaAddress := CsFromReplicaAddress s;
     CsSnapshotName := CsSnapshotName s |}.

Definition no_clone_status : CloneStatus :=
  {| CsIsCloning := false; CsError := ""; CsProgress := 0; CsState := "";
     CsFromReplicaAddress := ""; CsSnapshotName := "" |}.

Definition V1_SnapshotCloneStatus (req : ProxyEngineRequest) : handler (gmap string CloneStatus) :=
  with_controller req (
    try (call (Eng (controller req) (ControllerCloneStatus (PqVolumeName req)))) (λ recv,
    mret (ok (clone_response <$> recv)))).

(** The loop over the replicas: the statuses found and the replicas that have
    been reached and have not started cloning. *)
Fixpoint clone_status_loop (addresses : gmap string string) (modes : list (string * string))
    (status : gmap string CloneStatus) (reachableNoState : list string) :
    free callE (gmap string CloneStatus * list string) :=
  match modes with
  | [] => mret (status, reachableNoState)
  | (rName, mode) :: modes' =>
      let continue := clone_status_loop addresses modes' in
      if bool_decide (mode ≠ "RW") then continue status reachableNoState
      else
        match addresses !! rName with
        | None => continue status reachableNoState
        | Some address =>
            spdk_scope address (λ _, continue status reachableNoState)
              (λ addr, SPDK addr (ReplicaSnapshotCloneDstStatusCheck rName))
              (λ r closeErr,
                match r with
                | Err _ | Ok None => continue status reachableNoState
                | Ok (Some s) =>
                    if bool_decide (CsState s = "") then
                      continue status (match closeErr with
                                       | None => reachableNoState ++ [rName]
                                       | Some _ => reachableNoState
                                       end)
                    else
                      continue (<[AddTcpPrefixForAddress address := clone_response s]> status)
                        reachableNoState
                end)
        end
  end.

(** What is answered after the loop. *)
Definition clone_status_answer (addresses : gmap string string) (status : gmap string CloneStatus)
    (reachableNoState : list string) : reply (gmap string CloneStatus) :=
  let status :=
    if bool_decide (status = ∅) then
      match sort_strings reachableNoState with
      | name :: _ =>
          <[AddTcpPrefixForAddress (default "" (addresses !! name)) := no_clone_status]> status
      | [] => status
      end
    else status in
  if bool_decide (status = ∅)
  then fail (EStatus Internal "cannot get clone status from any replica")
  else ok status.

Section range.
(** The order in which a range goes over a map. *)
Context (range : gmap string string → list (string * string)).

Definition V2_SnapshotCloneStatus (req : ProxyEngineRequest) : handler (gmap string CloneStatus) :=
  with_spdk_at (PqAddress req) (λ addr,
    r ← call (SPDK addr (EngineGet (PqEngineName req)));
    match r with
    | Err e => mret (fail (status_wrap Internal ("failed to get engine " +:+ PqEngineName req) e))
    | Ok recv =>
        '(status, reachableNoState) ←
          clone_status_loop (EReplicaAddressMap recv) (range (EReplicaModeMap recv)) ∅ [];
        mret (clone_status_answer (EReplicaAddressMap recv) status reachableNoState)
    end).

Definition SnapshotCloneStatus (req : ProxyEngineRequest) : handler (gmap string CloneStatus) :=
  dispatch (PqDataEngine req) (V1_SnapshotCloneStatus req) (V2_SnapshotCloneStatus req).
End range.

(** ** Reverting and purging *)

Definition V1_SnapshotRevert (req : ProxyEngineRequest) (name : string) : handler unit :=
  control req (ControllerVolumeRevert name).
Definition V2_SnapshotRevert (req : ProxyEngineRequest) (name : string) : handler unit :=
  spdk_forward (status_wrap Internal ("failed to create snapshot " +:+ name)) (PqAddress req)
    (EngineFrontendSnapshotRevert (PqEngineFrontendName req) name).
Definition SnapshotRevert (req : ProxyEngineRequest) (name : string) : handler unit :=
  dispatch (PqDataEngine req) (V1_SnapshotRevert req name) (V2_SnapshotRevert req name).

Definition V1_SnapshotPurge (req : ProxyEngineRequest) (skipIfInProgress : bool) : handler unit :=
  task_forward req (PurgeSnapshots skipIfInProgress).

(** The error of the purge is assigned and not returned. *)
Definition V2_SnapshotPurge (req : ProxyEngineRequest) : handler unit :=
  with_spdk_at (PqAddress req) (λ addr,
    call (SPDK addr (EngineFrontendSnapshotPurge (PqEngineFrontendName req)));; mret (ok tt)).
Definition SnapshotPurge (req : ProxyEngineRequest) (skipIfInProgress : bool) : handler unit :=
  dispatch (PqDataEngine req) (V1_SnapshotPurge req skipIfInProgress) (V2_SnapshotPurge req).

Definition V1_SnapshotPurgeStatus (req : ProxyEngineRequest) : handler (gmap string PurgeStatus) :=
  with_task req (λ t,
    try (call (Local (OnTask t PurgeSnapshotStatus))) (λ recv,
    mret (ok ((λ v, {| PsIsPurging := PsIsPurging v; PsError := PsError v;
                       PsProgress := int32 (PsProgress v); PsState := PsState v |}) <$> recv)))).
Definition V2_SnapshotPurgeStatus : handler (gmap string PurgeStatus) := mret (ok ∅).
Definition SnapshotPurgeStatus (req : ProxyEngineRequest) : handler (gmap string PurgeStatus) :=
  dispatch (PqDataEngine req) (V1_SnapshotPurgeStatus req) V2_SnapshotPurgeStatus.

(** ** Removing *)

(** Every snapshot is tried; the last error is the method's. *)
Fixpoint remove_loop (delete : string → free callE err) (names : list string) (lastErr : err) :
    free callE err :=
  match names with
  | [] => mret lastErr
  | name :: names' =>
      e ← delete name;
      remove_loop delete names' (match e with Some e => Some e | None => lastErr end)
  end.

Definition V1_SnapshotRemove (req : ProxyEngineRequest) (names : list string) : handler unit :=
  with_task req (λ t,
    lastErr ← remove_loop (λ name, call (Local (OnTask t (DeleteSnapshot name)))) names None;
    mret (Some tt, lastErr)).
Definition V2_SnapshotRemove (req : ProxyEngineRequest) (names : list string) : handler unit :=
  with_spdk_at (PqAddress req) (λ addr,
    lastErr ← remove_loop (λ name,
      call (SPDK addr (EngineFrontendSnapshotDelete (PqEngineFrontendName req) name))) names None;
    mret (Some tt, lastErr)).
Definition SnapshotRemove (req : ProxyEngineRequest) (names : list string) : handler unit :=
  dispatch (PqDataEngine req) (V1_SnapshotRemove req names) (V2_SnapshotRemove req names).

(** ** Hashing *)

Definition V1_SnapshotHash (req : ProxyEngineRequest) (name : string) (rehash : bool) :
    handler unit :=
  task_forward req (HashSnapshot name rehash).
Definition V2_SnapshotHash (req : ProxyEngineRequest) (name : string) (rehash : bool) :
    handler unit :=
  with_spdk_at (PqAddress req) (λ addr,
    e ← call (SPDK addr (EngineSnapshotHash (PqEngineName req) name rehash)); mret (Some tt, e)).
Definition SnapshotHash (req : ProxyEngineRequest) (name : string) (rehash : bool) : handler unit :=
  dispatch (PqDataEngine req) (V1_SnapshotHash req name rehash) (V2_SnapshotHash req name rehash).

Definition V1_SnapshotHashStatus (req : ProxyEngineRequest) (name : string) :
    handler (gmap string HashStatus) :=
  with_task req (λ t,
    try (call (Local (OnTask t (HashSnapshotStatus name)))) (λ recv, mret (ok recv))).
Definition V2_SnapshotHashStatus (req : ProxyEngineRequest) (name : string) :
    handler (gmap string HashStatus) :=
  with_spdk_at (PqAddress req) (λ addr,
    try (call (SPDK addr (EngineSnapshotHashStatus (PqEngineName req) name))) (λ recv,
    mret (ok recv))).
Definition SnapshotHashStatus (req : ProxyEngineRequest) (name : string) :
    handler (gmap string HashStatus) :=
  dispatch (PqDataEngine req) (V1_SnapshotHashStatus req name) (V2_SnapshotHashStatus req name).
