(* ===== verification/ProxyReplica.v ===== *)
(** * Replicas through the proxy

    The methods of [pkg/proxy/replica.go] but [ReplicaList]: adding and removing
    replicas, watching and throttling their rebuilding, changing their mode. *)
From S2P Require Import Prelude GoStrings Sched Process Calls ProxyEnv Messages Services Proxy ProxyBackup ProxySnapshot.

#[local] Open Scope Z_scope.

(** ** Adding *)

Record ReplicaAddRequest := mkReplicaAdd {
  RaRequest : ProxyEngineRequest; RaReplicaName : string; RaReplicaAddress : string;
  RaRestore : bool; RaSize : Z; RaCurrentSize : Z; RaFileSyncHttpClientTimeout : Z;
  RaFastSync : bool; RaLocalSync : option FileLocalSync; RaGrpcTimeoutSeconds : Z;
  RaLinkedCloneSource : option LinkedCloneSource;
}.

Definition V1_ReplicaAdd (req : ReplicaAddRequest) : handler unit :=
  task_forward (RaRequest req)
    (if RaRestore req then
       AddRestoreReplica (RaSize req) (RaCurrentSize req) (RaReplicaAddress req)
         (RaReplicaName req)
     else
       AddReplica (RaSize req) (RaCurrentSize req) (RaReplicaAddress req) (RaReplicaName req)
         (RaFileSyncHttpClientTimeout req) (RaFastSync req) (RaLocalSync req)
         (RaGrpcTimeoutSeconds req)).

Definition V2_ReplicaAdd (req : ReplicaAddRequest) : handler unit :=
  let replicaAddress := trim_prefix (RaReplicaAddress req) "tcp://" in
  spdk_forward (status_wrap Internal ("failed to add replica " +:+ replicaAddress))
    (PqAddress (RaRequest req))
    (EngineFrontendReplicaAdd (PqEngineFrontendName (RaRequest req)) (RaReplicaName req)
       replicaAddress (RaFastSync req) (RaLinkedCloneSource req)).

Definition ReplicaAdd (req : ReplicaAddRequest) : handler unit :=
  dispatch (PqDataEngine (RaRequest req)) (V1_ReplicaAdd req) (V2_ReplicaAdd req).

(** ** Rebuilding *)

Definition V1_ReplicaRebuildingStatus (req : ProxyEngineRequest) :
    handler (gmap string RebuildStatus) :=
  with_task req (λ t,
    try (call (Local (OnTask t TaskRebuildStatus))) (λ recv,
    mret (ok ((λ v,
      {| RbError := RbError v; RbIsRebuilding := RbIsRebuilding v;
         RbProgress := int32 (RbProgress v); RbState := RbState v;
         RbFromReplicaAddressList := RbFromReplicaAddressList v |}) <$> recv)))).

Definition ProgressStateInProgress : string := "in_progress".

Definition rebuild_response (s : ShallowCopyStatus) : RebuildStatus :=
  {| RbError := ScError s;
     RbIsRebuilding := bool_decide (ScTotalState s = ProgressStateInProgress);
     RbProgress := int32 (ScTotalProgress s); RbState := ScTotalState s;
     RbFromReplicaAddressList := [AddTcpPrefixForAddress (ScSrcReplicaAddress s)] |}.

(** The address of a replica that is being rebuilt. *)
Definition rebuilding_address (addresses : gmap string string) (name mode : string) :
    option string :=
  if bool_decide (mode = "WO") then
    let address := default "" (addresses !! name) in
    if bool_decide (address = "") then None else Some address
  else None.

Fixpoint rebuild_status_loop (addresses : gmap string string) (modes : list (string * string))
    (status : gmap string RebuildStatus) : handler (gmap string RebuildStatus) :=
  match modes with
  | [] => mret (ok status)
  | (replicaName, mode) :: modes' =>
      match rebuilding_address addresses replicaName mode with
      | None => rebuild_status_loop addresses modes' status
      | Some address =>
          spdk_scope address
            (λ e, mret (fail (status_wrap Internal
               ("failed to get SPDK client from replica address " +:+ address) e)))
            (λ addr, SPDK addr (ReplicaRebuildingDstShallowCopyCheck replicaName))
            (λ r _, match r with
                    | Err e => mret (fail e)
                    | Ok s => rebuild_status_loop addresses modes'
                        (<[AddTcpPrefixForAddress address := rebuild_response s]> status)
                    end)
      end
  end.

(** The limit is set where it can be; a failure is logged and ignored. *)
Fixpoint qos_loop (addresses : gmap string string) (limit : Z) (modes : list (string * string)) :
    handler unit :=
  match modes with
  | [] => mret (ok tt)
  | (replicaName, mode) :: modes' =>
      match rebuilding_address addresses replicaName mode with
      | None => qos_loop addresses limit modes'
      | Some address =>
          spdk_scope address (λ _, qos_loop addresses limit modes')
            (λ addr, SPDK addr (ReplicaRebuildingDstSetQosLimit replicaName limit))
            (λ _ _, qos_loop addresses limit modes')
      end
  end.

Section range.
(** The order in which a range goes over a map. *)
Context (range : gmap string string → list (string * string)).

(** A method that gets the engine and goes over its replicas. *)
Definition over_replicas {B} (req : ProxyEngineRequest)
    (loop : gmap string string → list (string * string) → handler B) : handler B :=
  with_spdk_at (PqAddress req) (λ addr,
    r ← call (SPDK addr (EngineGet (PqEngineName req)));
    match r with
    | Err e => mret (fail (status_wrap Internal ("failed to get engine " +:+ PqEngineName req) e))
    | Ok e => loop (EReplicaAddressMap e) (range (EReplicaModeMap e))
    end).

Definition V2_ReplicaRebuildingStatus (req : ProxyEngineRequest) :
    handler (gmap string RebuildStatus) :=
  over_replicas req (λ addresses modes, rebuild_status_loop addresses modes ∅).

Definition ReplicaRebuildingStatus (req : ProxyEngineRequest) :
    handler (gmap string RebuildStatus) :=
  dispatch (PqDataEngine req) (V1_ReplicaRebuildingStatus req) (V2_ReplicaRebuildingStatus req).

Definition V1_ReplicaRebuildingQosSet (req : ProxyEngineRequest) : handler unit :=
  unimplemented ("unsupported data engine " +:+ data_engine_string (PqDataEngine req)).

Definition V2_ReplicaRebuildingQosSet (req : ProxyEngineRequest) (limit : Z) : handler unit :=
  over_replicas req (λ addresses modes, qos_loop addresses limit modes).

Definition ReplicaRebuildingQosSet (req : ProxyEngineRequest) (limit : Z) : handler unit :=
  dispatch (PqDataEngine req) (V1_ReplicaRebuildingQosSet req) (V2_ReplicaRebuildingQosSet req limit).
End range.

Definition V1_ReplicaVerifyRebuild (req : ProxyEngineRequest) (address name : string) :
    handler unit :=
  task_forward req (VerifyRebuildReplica address name).
Definition V2_ReplicaVerifyRebuild : handler unit := unimplemented "not implemented".
Definition ReplicaVerifyRebuild (req : ProxyEngineRequest) (address name : string) :
    handler unit :=
  dispatch (PqDataEngine req) (V1_ReplicaVerifyRebuild req address name) V2_ReplicaVerifyRebuild.

(** ** Removing *)

(** The names of the snapshots go in the order of [map_to_list]. *)
Definition cancelSnapshotHashesForReplica (req : ProxyEngineRequest) (replicaAddress : string) :
    free callE err :=
  r ← call (Eng (controller req) ControllerReplicaList);
  match r with
  | Err e => mret (Some e)
  | Ok recv =>
      r ← call (Local (GetSnapshotsInfo recv (PqVolumeName req)));
      match r with
      | Err e => mret (Some e)
      | Ok disks =>
          let snapshots := (λ kv, SdName kv.2) <$> map_to_list disks in
          r ← call (Local (NewTask (task_of req)));
          match r with
          | Err e => mret (Some e)
          | Ok _ => call (Local (OnTask (task_of req)
                      (CancelSnapshotHashJob replicaAddress snapshots)))
          end
      end
  end.

(** The reply is nil with and without an error. *)
Definition V1_ReplicaRemove (req : ProxyEngineRequest) (address : string) : handler unit :=
  with_controller req (
    cancelSnapshotHashesForReplica req address;;
    e ← call (Eng (controller req) (ControllerReplicaDelete address));
    mret (None, e)).

Definition V2_ReplicaRemove (req : ProxyEngineRequest) (name address : string) : handler unit :=
  with_spdk_at (PqAddress req) (λ addr,
    e ← call (SPDK addr (EngineReplicaDelete (PqEngineName req) name
          (trim_prefix address "tcp://")));
    mret (None, e)).

Definition ReplicaRemove (req : ProxyEngineRequest) (name address : string) : handler unit :=
  dispatch (PqDataEngine req) (V1_ReplicaRemove req address) (V2_ReplicaRemove req name address).

(** ** Modes and limits *)

Definition V1_ReplicaModeUpdate (req : ProxyEngineRequest) (address : string) (mode : Z) :
    handler unit :=
  with_controller req (
    try (call (Eng (controller req)
           (ControllerReplicaUpdate address (GRPCReplicaModeToReplicaMode mode)))) (λ _,
    mret (ok tt))).
Definition V2_ReplicaModeUpdate : handler unit := unimplemented "not implemented".
Definition ReplicaModeUpdate (req : ProxyEngineRequest) (address : string) (mode : Z) :
    handler unit :=
  dispatch (PqDataEngine req) (V1_ReplicaModeUpdate req address mode) V2_ReplicaModeUpdate.

Definition V1_ReplicaRebuildConcurrentSyncLimitSet (req : ProxyEngineRequest) (limit : Z) :
    handler unit :=
  control req (ControllerSyncLimitSet limit).
Definition V2_ReplicaRebuildConcurrentSyncLimitSet : handler unit :=
  unimplemented "not implemented".
Definition ReplicaRebuildConcurrentSyncLimitSet (req : ProxyEngineRequest) (limit : Z) :
    handler unit :=
  dispatch (PqDataEngine req) (V1_ReplicaRebuildConcurrentSyncLimitSet req limit)
    V2_ReplicaRebuildConcurrentSyncLimitSet.

Definition V1_ReplicaRebuildConcurrentSyncLimitGet (req : ProxyEngineRequest) : handler Z :=
  with_controller req (
    try (call (Eng (controller req) ControllerSyncLimitGet)) (λ limit, mret (ok (int32 limit)))).
Definition V2_ReplicaRebuildConcurrentSyncLimitGet : handler Z := unimplemented "not implemented".
Definition ReplicaRebuildConcurrentSyncLimitGet (req : ProxyEngineRequest) : handler Z :=
  dispatch (PqDataEngine req) (V1_ReplicaRebuildConcurrentSyncLimitGet req)
    V2_ReplicaRebuildConcurrentSyncLimitGet.
