(* ===== verification/Client.v ===== *)
(** * What the clients share

    [pkg/client/types.go], the checks of a client's method before it makes its
    request, and the time it gives the request ([pkg/client/proxy.go]). A method
    is a program that may make one request and ends with a value or an error. *)
From S2P Require Import Prelude GoStrings Calls Grpc ProxyEnv Messages Services.

#[local] Open Scope Z_scope.

(** ** Data engines and clone modes ([types.go]) *)

(** [strings.ToLower] on ASCII letters. No other character has an ASCII letter
    or digit of [v2] as its lower case. *)
Fixpoint to_lower (x : string) : string :=
  match x with
  | EmptyString => EmptyString
  | String a x' =>
      let n := nat_of_ascii a in
      String (if (65 <=? n)%nat && (n <=? 90)%nat then ascii_of_nat (n + 32) else a)
        (to_lower x')
  end.

(** The names [v1] and [v2] of the API, and every longer name that ends like the
    latter, in the terms of the messages. *)
Definition getDataEngine (dataEngine : string) : string :=
  if has_suffix (to_lower dataEngine) "v2" then data_engine_string DATA_ENGINE_V2
  else data_engine_string DATA_ENGINE_V1.

(** [rpc.DataEngine_value]. *)
Definition DataEngine_value (name : string) : option Z :=
  if bool_decide (name = "DATA_ENGINE_V1") then Some 0
  else if bool_decide (name = "DATA_ENGINE_V2") then Some 1
  else if bool_decide (name = "DATA_ENGINE_LOCAL") then Some 2
  else None.

Definition CLONE_MODE_FULL_COPY : Z := 0.
Definition CLONE_MODE_LINKED_CLONE : Z := 1.

Definition getCloneMode (cloneMode : string) : Z :=
  if bool_decide (cloneMode = "linked-clone") then CLONE_MODE_LINKED_CLONE
  else CLONE_MODE_FULL_COPY.

(** ** The steps of a method *)

Section steps.
Context {E : Type → Type}.

(** [return nil, err]. *)
Definition refuse {A} (e : error) : free E (res A) := mret (Err e).

(** The early return of a check. *)
Definition require {A} (failed : bool) (msg : string) (k : free E (res A)) : free E (res A) :=
  if failed then refuse (EPlain msg) else k.

(** The number of the data engine, or the error [msg: invalid data engine]. *)
Definition with_driver {A} (dataEngine msg : string) (k : Z → free E (res A)) :
    free E (res A) :=
  match DataEngine_value (getDataEngine dataEngine) with
  | None => refuse (EPlain (msg +:+ ": invalid data engine " +:+ dataEngine))
  | Some driver => k driver
  end.

(** The request, its error wrapped, its answer converted. *)
Definition request_as {X A} (wrap : error → error) (e : E (res X)) (conv : X → A) :
    free E (res A) :=
  r ← call e; mret (match r with Ok x => Ok (conv x) | Err er => Err (wrap er) end).

(** The same with a conversion that may panic. *)
Definition request_deref {X A} (wrap : error → error) (e : E (res X))
    (conv : X → option A) : free E (res A) :=
  r ← call e;
  match r with Ok x => a ← deref (conv x); mret (Ok a) | Err er => refuse (wrap er) end.

(** The deferred wrapping of whatever error the rest of a method returns. *)
Definition deferred {A} (msg : string) (m : free E (res A)) : free E (res A) :=
  r ← m; mret (match r with Ok a => Ok a | Err e => Err (EWrap msg e) end).
End steps.

(** ** Timeouts ([getContextWithGRPCTimeout], [getContextWithGRPCLongTimeout])

    In nanoseconds, as [time.Duration] has them. The constants are
    [GRPCServiceCommonTimeout] and [GRPCServiceLongTimeout] of longhorn-engine,
    three minutes and a day, which its own clients use in the same way. *)

Definition second : Z := 1000000000.
Definition GRPCServiceCommonTimeout : Z := 3 * 60 * second.
Definition EngineLongTimeout : Z := 24 * 60 * 60 * second.
Definition GRPCServiceTimeout : Z := int64 (GRPCServiceCommonTimeout * 2).
Definition GRPCServiceLongTimeout : Z := int64 (EngineLongTimeout + GRPCServiceTimeout).

Definition grpc_long_timeout (grpcTimeoutSeconds : Z) : Z :=
  if bool_decide (0 < grpcTimeoutSeconds) then
    int64 (int64 (second * grpcTimeoutSeconds) + GRPCServiceTimeout)
  else GRPCServiceLongTimeout.

(** The timeout of the engine's own request ([longhorn-engine]'s replica client). *)
Definition engine_long_timeout (grpcTimeoutSeconds : Z) : Z :=
  if bool_decide (0 < grpcTimeoutSeconds) then int64 (second * grpcTimeoutSeconds)
  else EngineLongTimeout.

(** ** Properties *)

(** The engine a client's name stands for. *)
Definition engine_number (dataEngine : string) : Z :=
  if has_suffix (to_lower dataEngine) "v2" then DATA_ENGINE_V2 else DATA_ENGINE_V1.

Lemma DataEngine_value_get dataEngine :
  DataEngine_value (getDataEngine dataEngine) = Some (engine_number dataEngine).
Proof. unfold getDataEngine, engine_number. by destruct (has_suffix _ _). Qed.

Lemma with_driver_eq {E A} dataEngine msg (k : Z → free E (res A)) :
  with_driver dataEngine msg k = k (engine_number dataEngine).
Proof. unfold with_driver. by rewrite DataEngine_value_get. Qed.

Lemma engine_number_known dataEngine :
  engine_number dataEngine = DATA_ENGINE_V1 ∨ engine_number dataEngine = DATA_ENGINE_V2.
Proof. unfold engine_number. destruct (has_suffix _ _); auto. Qed.

(** C40: a proxy client waits longer than the engine it waits for. For every
    timeout up to about 292 years, the default included, the client's request
    ends six minutes after the engine's own; from there on the sum overflows and
    the deadline of the client's request has passed before it is sent. *)
Theorem client_outlasts_engine (s : Z) :
  in_int64 s →
  (s ≤ 9223371676 → grpc_long_timeout s = engine_long_timeout s + 360 * second ∧
     0 < engine_long_timeout s) ∧
  (9223371677 ≤ s ≤ 9223372036 → 0 < engine_long_timeout s ∧ grpc_long_timeout s < 0).
Proof.
  intros Hs. unfold grpc_long_timeout, engine_long_timeout.
  assert (GRPCServiceTimeout = 360 * second) as -> by done. split; intros Hb.
  - case_bool_decide; [|done]. unfold second in *.
    rewrite (int64_id (1000000000 * s)) by (unfold in_int64; lia).
    rewrite int64_id by (unfold in_int64; lia). lia.
  - rewrite bool_decide_true by lia. unfold second in *.
    rewrite (int64_id (1000000000 * s)) by (unfold in_int64; lia). split; [lia|].
    unfold int64.
    replace (1000000000 * s + 360 * 1000000000 + 2^63)
      with ((1000000000 * s + 360 * 1000000000 - 2^63) + 1 * 2^64) by lia.
    rewrite Z.mod_add, Z.mod_small by lia. lia.
Qed.

Theorem client_outlasts_engine_witness :
  in_int64 9223371677 ∧ grpc_long_timeout 9223371676 = 9223371676 * second + 360 * second ∧
  grpc_long_timeout 9223371677 < 0.
Proof.
  assert (in_int64 9223371677) as H by (unfold in_int64; lia).
  assert (in_int64 9223371676) as H' by (unfold in_int64; lia).
  split; [exact H|]. split.
  - apply (client_outlasts_engine 9223371676 H'). lia.
  - apply (client_outlasts_engine 9223371677 H). lia.
Defined.
