(* ===== verification/Labels.v ===== *)
(** * Qualified names

    [IsQualifiedName] of longhorn-engine's [pkg/util/validation.go], which the
    proxy client checks the keys of labels with. The two regular expressions are
    written as the predicates they decide. *)
From S2P Require Import Prelude GoStrings.

Definition in_range (lo hi : nat) (a : ascii) : bool :=
  (lo <=? nat_of_ascii a)%nat && (nat_of_ascii a <=? hi)%nat.
Definition lower_alnum (a : ascii) : bool := in_range 97 122 a || in_range 48 57 a.
(** [A-Za-z0-9] *)
Definition qnameChar (a : ascii) : bool := lower_alnum a || in_range 65 90 a.
(** [-A-Za-z0-9_.] *)
Definition qnameExtChar (a : ascii) : bool :=
  qnameChar a || bool_decide (a = "-"%char) || bool_decide (a = "_"%char) ||
  bool_decide (a = "."%char).

(** The text is not empty, begins and ends with a character of [edge], and has
    only characters of [mid]: [(edge mid* )?edge] where [edge] is part of [mid]. *)
Fixpoint all_chars (p : ascii → bool) (s : string) : bool :=
  match s with EmptyString => true | String a s' => p a && all_chars p s' end.
Fixpoint ends_in (p : ascii → bool) (s : string) : bool :=
  match s with
  | EmptyString => false
  | String a EmptyString => p a
  | String _ s' => ends_in p s'
  end.
Definition starts_in (p : ascii → bool) (s : string) : bool :=
  match s with EmptyString => false | String a _ => p a end.
Definition bounded_by (edge mid : ascii → bool) (s : string) : bool :=
  starts_in edge s && ends_in edge s && all_chars mid s.

Definition qualifiedNameRegexp (s : string) : bool := bounded_by qnameChar qnameExtChar s.
Definition dns1123LabelChar (a : ascii) : bool := lower_alnum a || bool_decide (a = "-"%char).
Definition dns1123SubdomainRegexp (s : string) : bool :=
  forallb (bounded_by lower_alnum dns1123LabelChar) (split "." s).

Definition qualifiedNameMaxLength : nat := 63.
Definition DNS1123SubdomainMaxLength : nat := 253.

Definition EmptyError : string := "must be non-empty".
Definition MaxLenError (length : string) : string :=
  "must be no more than " +:+ length +:+ " characters".

Definition dns1123LabelFmt : string := "[a-z0-9]([-a-z0-9]*[a-z0-9])?".
Definition dns1123_error : string :=
  "a DNS-1123 subdomain must consist of lower case alphanumeric characters, '-' or '.', and must start and end with an alphanumeric character (e.g. 'example.com', regex used for validation is '"
  +:+ dns1123LabelFmt +:+ "(\." +:+ dns1123LabelFmt +:+ ")*')".
Definition qualified_error : string :=
  "must consist of alphanumeric characters, '-', '_' or '.', and must start and end with an alphanumeric character (e.g. 'MyName',  or 'my.name',  or '123-abc', regex used for validation is '([A-Za-z0-9][-A-Za-z0-9_.]*)?[A-Za-z0-9]')".

Definition IsDNS1123Subdomain (value : string) : list string :=
  (if (DNS1123SubdomainMaxLength <? String.length value)%nat then [MaxLenError "253"] else []) ++
  (if dns1123SubdomainRegexp value then [] else [dns1123_error]).

(** The checks of the name part. *)
Definition name_errors (name : string) : list string :=
  (if bool_decide (name = "") then ["name part " +:+ EmptyError]
   else if (qualifiedNameMaxLength <? String.length name)%nat then
     ["name part " +:+ MaxLenError "63"]
   else []) ++
  (if qualifiedNameRegexp name then [] else ["name part " +:+ qualified_error]).

Definition IsQualifiedName (value : string) : list string :=
  match split "/" value with
  | [name] => name_errors name
  | [prefix; name] =>
      (if bool_decide (prefix = "") then ["prefix part " +:+ EmptyError]
       else (λ m, "prefix part " +:+ m) <$> IsDNS1123Subdomain prefix) ++ name_errors name
  | _ =>
      ["a qualified name " +:+ qualified_error +:+
       " with an optional DNS subdomain prefix and '/' (e.g. 'example.com/MyName')"]
  end.

(** ** Properties *)

(** A name: one to 63 characters of the permitted kind. *)
Definition is_name (name : string) : Prop :=
  qualifiedNameRegexp name = true ∧ (String.length name ≤ 63)%nat.
Definition is_subdomain (prefix : string) : Prop :=
  dns1123SubdomainRegexp prefix = true ∧ (String.length prefix ≤ 253)%nat.

Lemma name_errors_nil name : name_errors name = [] ↔ is_name name.
Proof.
  unfold name_errors, is_name. rewrite app_nil. case_bool_decide as He.
  { subst. split; [by intros [[=] _]|by intros [[=] _]]. }
  destruct (Nat.ltb_spec qualifiedNameMaxLength (String.length name)) as [Hl|Hl];
    unfold qualifiedNameMaxLength in Hl.
  - split; [by intros [[=] _]|intros [_ ?]; lia].
  - destruct (qualifiedNameRegexp name); split; naive_solver.
Qed.

Lemma subdomain_errors_nil prefix : IsDNS1123Subdomain prefix = [] ↔ is_subdomain prefix.
Proof.
  unfold IsDNS1123Subdomain, is_subdomain. rewrite app_nil.
  destruct (Nat.ltb_spec DNS1123SubdomainMaxLength (String.length prefix)) as [Hl|Hl];
    unfold DNS1123SubdomainMaxLength in Hl.
  - split; [by intros [[=] _]|intros [_ ?]; lia].
  - destruct (dns1123SubdomainRegexp prefix); split; naive_solver.
Qed.

(** The check accepts exactly a name, or a name after a DNS subdomain and a
    slash. *)
Lemma IsQualifiedName_nil value :
  IsQualifiedName value = [] ↔
    (∃ name, split "/" value = [name] ∧ is_name name) ∨
    (∃ prefix name, split "/" value = [prefix; name] ∧ is_subdomain prefix ∧ is_name name).
Proof.
  unfold IsQualifiedName. destruct (split "/" value) as [|x [|y [|z l]]].
  - naive_solver.
  - rewrite name_errors_nil. naive_solver.
  - rewrite app_nil, name_errors_nil. case_bool_decide as He.
    + subst. split; [by intros [[=] _]|]. intros [(?&[=]&_)|(?&?&[= <- <-]&[[=] _]&_)].
    + pose proof (subdomain_errors_nil x) as Hs. clear He.
      destruct (IsDNS1123Subdomain x); simpl; naive_solver.
  - naive_solver.
Qed.

Example label_ok : IsQualifiedName "longhorn.io/backup-1" = [].
Proof. reflexivity. Qed.
Example label_bad : IsQualifiedName "Longhorn.io/x" ≠ [].
Proof. by vm_compute. Qed.
