(* ===== verification/Api.v ===== *)
(** * API objects

    [pkg/api]: the objects the clients give to their callers, and the conversions
    of messages to them. A conversion that dereferences a nil pointer, and so
    panics, is [None]. *)
From S2P Require Import Prelude GoStrings Sched Process Calls Messages Services Instance Disk Proxy ProxyBackup ProxyVolume.

#[local] Open Scope Z_scope.

(** ** Processes ([process.go]) *)

Record ApiProcessStatus := mkApiProcessStatus {
  ApsState : string; ApsErrorMsg : string; ApsConditions : gmap string bool;
  ApsPortStart : Z; ApsPortEnd : Z; ApsUUID : string;
}.
Record ApiProcess := mkApiProcess {
  ApName : string; ApBinary : string; ApArgs : list string; ApPortCount : Z;
  ApPortArgs : list string; ApStatus : ApiProcessStatus; ApDeleted : bool;
}.

Definition RPCToProcessStatus (obj : ProcessStatus) : ApiProcessStatus :=
  {| ApsState := StState obj; ApsErrorMsg := StErrorMsg obj; ApsConditions := StConditions obj;
     ApsPortStart := StPortStart obj; ApsPortEnd := StPortEnd obj; ApsUUID := StUuid obj |}.

Definition RPCToProcess (obj : ProcessResponse) : ApiProcess :=
  {| ApName := SName (Spec obj); ApBinary := SBinary (Spec obj); ApArgs := SArgs (Spec obj);
     ApPortCount := SPortCount (Spec obj); ApPortArgs := SPortArgs (Spec obj);
     ApStatus := RPCToProcessStatus (Status obj); ApDeleted := false |}.

Definition RPCToProcessList (obj : gmap string ProcessResponse) : gmap string ApiProcess :=
  RPCToProcess <$> obj.

(** ** Instances ([instance.go]) *)

Record ApiInstanceStatus := mkApiInstanceStatus {
  AisState : string; AisErrorMsg : string; AisConditions : gmap string bool;
  AisPortStart : Z; AisPortEnd : Z; AisTargetPortStart : Z; AisTargetPortEnd : Z;
  AisStandbyTargetPortStart : Z; AisStandbyTargetPortEnd : Z; AisUblkID : Z;
  AisUUID : string; AisEndpoint : string; AisFrontend : string; AisActivePath : string;
  AisPreferredPath : string; AisPaths : list NvmeTcpPath;
}.
Record ApiInstance := mkApiInstance {
  AiName : string; AiType : string; AiDataEngine : string; AiPortCount : Z;
  AiPortArgs : list string; AiStatus : ApiInstanceStatus; AiDeleted : bool;
  AiProcessSpec : option ProcessInstanceSpec; AiBackendStoreDriver : string;
}.

(** [BackendStoreDriver.String]. *)
Definition driver_string (d : Z) : string :=
  if bool_decide (d = 0) then "v1" else if bool_decide (d = 1) then "v2" else itoa d.

(** The table [dataEngines]; an engine that is not in it has the empty name. *)
Definition dataEngines (engine : string) : string :=
  if bool_decide (engine = "DATA_ENGINE_V1") then "v1"
  else if bool_decide (engine = "DATA_ENGINE_V2") then "v2"
  else "".

(** The paths of a message that has been received are not nil. *)
Definition RPCToInstanceStatus (obj : InstanceStatus) : ApiInstanceStatus :=
  {| AisState := IState obj; AisErrorMsg := IErrorMsg obj; AisConditions := IConditions obj;
     AisPortStart := IPortStart obj; AisPortEnd := IPortEnd obj;
     AisTargetPortStart := ITargetPortStart obj; AisTargetPortEnd := ITargetPortEnd obj;
     AisStandbyTargetPortStart := IStandbyTargetPortStart obj;
     AisStandbyTargetPortEnd := IStandbyTargetPortEnd obj; AisUblkID := IUblkId obj;
     AisUUID := IUuid obj; AisEndpoint := IEndpoint obj; AisFrontend := IFrontend obj;
     AisActivePath := IActivePath obj; AisPreferredPath := IPreferredPath obj;
     AisPaths := IPaths obj |}.

Definition RPCToInstance (obj : InstanceResponse) : option ApiInstance :=
  spec ← ISpec obj;
  Some
    {| AiName := IName spec; AiType := IType spec;
       AiDataEngine := dataEngines (data_engine_string (IDataEngine spec));
       AiPortCount := IPortCount spec; AiPortArgs := IPortArgs spec;
       AiStatus := RPCToInstanceStatus (IStatus obj); AiDeleted := false;
       AiProcessSpec := IProcess spec;
       AiBackendStoreDriver := driver_string (IBackendStoreDriver spec) |}.

Definition RPCToInstanceList (obj : gmap string InstanceResponse) :
    option (gmap string ApiInstance) :=
  if bool_decide (map_Forall (λ _ p, is_Some (RPCToInstance p)) obj) then
    Some (omap RPCToInstance obj)
  else None.

(** ** Backing images ([backing_image.go]) *)

Record ApiBackingImageStatus := mkApiBackingImageStatus {
  AbsProgress : Z; AbsState : string; AbsCurrentChecksum : string; AbsErrorMsg : string;
}.
Record ApiBackingImage := mkApiBackingImage {
  AbName : string; AbUUID : string; AbDiskUUID : string; AbSize : Z;
  AbExpectedChecksum : string; AbStatus : ApiBackingImageStatus;
}.

(** The response is not nil when a call has succeeded; its spec may be. *)
Definition RPCToBackingImage (obj : SPDKBackingImageResponse) : option (res ApiBackingImage) :=
  match BiSpec obj with
  | None => Some (Err (EPlain "backing image spec is nil"))
  | Some spec =>
      status ← BiStatus obj;
      Some (Ok
        {| AbName := BiSpecName spec; AbUUID := BiSpecUuid spec;
           AbDiskUUID := BiSpecDiskUuid spec; AbSize := BiSpecSize spec;
           AbExpectedChecksum := BiSpecChecksum spec;
           AbStatus :=
             {| AbsProgress := BiStProgress status; AbsState := BiStState status;
                AbsCurrentChecksum := BiStChecksum status;
                AbsErrorMsg := BiStErrorMsg status |} |})
  end.

(** An entry that cannot be converted is nil in the list. *)
Definition RPCToBackingImageList (obj : gmap string SPDKBackingImageResponse) :
    option (gmap string (option ApiBackingImage)) :=
  if bool_decide (map_Forall (λ _ bi, is_Some (RPCToBackingImage bi)) obj) then
    Some ((λ bi, match RPCToBackingImage bi with Some (Ok a) => Some a | _ => None end) <$> obj)
  else None.

(** ** Disks ([disk.go]) *)

Record ApiDiskInfo := mkApiDiskInfo {
  AdID : string; AdName : string; AdUUID : string; AdPath : string; AdType : string;
  AdDriver : string; AdTotalSize : Z; AdFreeSize : Z; AdTotalBlocks : Z; AdFreeBlocks : Z;
  AdBlockSize : Z; AdClusterSize : Z; AdState : string; AdMessage : string;
}.
Record ReplicaStorageInstance := mkReplicaStorageInstance {
  ArName : string; ArUUID : string; ArDiskName : string; ArDiskUUID : string;
  ArSpecSize : Z; ArActualSize : Z;
}.
Record ApiDiskMetrics := mkApiDiskMetrics {
  AmReadThroughput : Z; AmWriteThroughput : Z; AmReadLatency : Z; AmWriteLatency : Z;
  AmReadIOPS : Z; AmWriteIOPS : Z;
}.
Record ApiDiskHealth := mkApiDiskHealth {
  AhModelNumber : string; AhSerialNumber : string; AhFirmwareRevision : string;
  AhTraddr : string; AhCriticalWarning : Z; AhTemperatureCelsius : Z;
  AhAvailableSparePercentage : Z; AhAvailableSpareThresholdPercentage : Z;
  AhPercentageUsed : Z; AhDataUnitsRead : Z; AhDataUnitsWritten : Z; AhHostReadCommands : Z;
  AhHostWriteCommands : Z; AhControllerBusyTime : Z; AhPowerCycles : Z; AhPowerOnHours : Z;
  AhUnsafeShutdowns : Z; AhMediaErrors : Z; AhNumErrLogEntries : Z;
  AhWarningTemperatureTimeMinutes : Z; AhCriticalCompositeTemperatureTimeMinutes : Z;
}.

(** ** Properties *)

Lemma lookup_RPCToInstanceList (obj : gmap string InstanceResponse) m name :
  RPCToInstanceList obj = Some m → m !! name = obj !! name ≫= RPCToInstance.
Proof.
  unfold RPCToInstanceList. case_bool_decide; [|done]. intros [= <-]. by rewrite lookup_omap.
Qed.

Lemma RPCToInstance_is_Some obj : is_Some (RPCToInstance obj) ↔ is_Some (ISpec obj).
Proof. unfold RPCToInstance. destruct (ISpec obj); simpl; [by split|done]. Qed.

Lemma RPCToInstanceList_total (obj : gmap string InstanceResponse) :
  map_Forall (λ _ p, is_Some (ISpec p)) obj → is_Some (RPCToInstanceList obj).
Proof.
  intros H. unfold RPCToInstanceList. rewrite bool_decide_true; [done|].
  intros name p Hp. apply RPCToInstance_is_Some. exact (H name p Hp).
Qed.

(** A backing image of the SPDK service arrives whole. *)
Lemma RPCToBackingImage_spdk bi :
  RPCToBackingImage (spdkBackingImageToBackingImageResponse bi) = Some (Ok
    {| AbName := BiName bi; AbUUID := BiBackingImageUUID bi; AbDiskUUID := BiLvsUUID bi;
       AbSize := BiSize bi; AbExpectedChecksum := BiExpectedChecksum bi;
       AbStatus := {| AbsProgress := BiProgress bi; AbsState := BiState bi;
                      AbsCurrentChecksum := BiCurrentChecksum bi;
                      AbsErrorMsg := BiErrorMsg bi |} |}).
Proof. done. Qed.

(** ** Streams *)

(** A stream of a client: the items to come, and the error it ends with. *)
Record stream (A : Type) := mkStream { Items : list A; End : error }.
Arguments mkStream {A} _ _.
Arguments Items {A} _.
Arguments End {A} _.

Definition stream_Recv {A} (s : stream A) : res A * stream A :=
  match Items s with
  | [] => (Err (End s), s)
  | a :: items => (Ok a, mkStream items (End s))
  end.

(** The wrappers hold a stream and forward its [Recv]; the one of logs gives
    the line of a message. *)
Definition InstanceStream := stream unit.
Definition NewInstanceStream (s : stream unit) : InstanceStream := s.
Definition InstanceStream_Recv (s : InstanceStream) : res unit * InstanceStream := stream_Recv s.

Definition ReplicaStream := stream unit.
Definition NewReplicaStream (s : stream unit) : ReplicaStream := s.
Definition ReplicaStream_Recv (s : ReplicaStream) : res unit * ReplicaStream := stream_Recv s.

Definition EngineStream := stream unit.
Definition NewEngineStream (s : stream unit) : EngineStream := s.
Definition EngineStream_Recv (s : EngineStream) : res unit * EngineStream := stream_Recv s.

Definition BackingImageStream := stream unit.
Definition NewBackingImageStream (s : stream unit) : BackingImageStream := s.
Definition BackingImageStream_Recv (s : BackingImageStream) : res unit * BackingImageStream :=
  stream_Recv s.

Definition ProcessStream := stream ProcessResponse.
Definition NewProcessStream (s : stream ProcessResponse) : ProcessStream := s.
Definition ProcessStream_Recv (s : ProcessStream) : res ProcessResponse * ProcessStream :=
  stream_Recv s.

Record LogResponse := mkLogResponse { Line : string }.

Definition LogStream := stream LogResponse.
Definition NewLogStream (s : stream LogResponse) : LogStream := s.
Definition LogStream_Recv (s : LogStream) : res string * LogStream :=
  let '(r, s') := stream_Recv s in
  (match r with Err e => Err e | Ok resp => Ok (Line resp) end, s').

(** The loop of a caller, that receives until there is an error. *)
Fixpoint recv_all {A B} (Recv : stream A → res B * stream A) (n : nat) (s : stream A) :
    option (list B * error) :=
  match n with
  | O => None
  | S n' =>
      match Recv s with
      | (Err e, _) => Some ([], e)
      | (Ok b, s') =>
          match recv_all Recv n' s' with Some (l, e) => Some (b :: l, e) | None => None end
      end
  end.

(** A caller of a log stream gets every line and then the error. *)
Lemma LogStream_lines (lines : list string) (e : error) n :
  (length lines < n)%nat →
  recv_all LogStream_Recv n (NewLogStream (mkStream (map mkLogResponse lines) e)) = Some (lines, e).
Proof.
  revert n. induction lines as [|line lines IH]; intros [|n] Hn; simpl in Hn; try lia; [done|].
  cbn [map recv_all]. unfold LogStream_Recv at 1. cbn. unfold NewLogStream in IH.
  rewrite IH by lia. done.
Qed.
