(* ===== verification/InstanceClient.v ===== *)
(** * The clients of the instance and disk servers

    [pkg/client/instance.go] and [disk.go]. Each method checks its arguments,
    makes one request and converts the answer to an API object. *)
From S2P Require Import Prelude GoStrings Sched Process Calls Grpc ProxyEnv Messages Services Instance Disk Client Api.

#[local] Open Scope Z_scope.

(** ** The instance client *)

(** A request to the instance server: its answer, or the error of the call.
    Opening the stream of a log or of updates does not wait for the handler. *)
Inductive instanceE : Type → Type :=
  | InstanceRpc {X} (q : request X) : instanceE (res X)
  | OpenInstanceLog (req : InstanceRequest) : instanceE (res unit)
  | OpenInstanceWatch : instanceE (res unit).

Record EngineCreateRequest := mkEngineCreate {
  EcReplicaAddressMap : gmap string string; EcFrontend : string; EcUblkQueueDepth : Z;
  EcUblkNumberOfQueue : Z; EcInitiatorAddress : string; EcTargetAddress : string;
  EcUpgradeRequired : bool; EcSalvageRequested : bool; EcSnapshotMaxCount : Z;
}.
Record EngineFrontendCreateRequest := mkEngineFrontendCreate {
  FcFrontend : string; FcUblkQueueDepth : Z; FcUblkNumberOfQueue : Z;
  FcNvmeTcpNrIoQueues : Z; FcTargetAddress : string; FcEngineName : string;
}.
Record ReplicaCreateRequest := mkReplicaCreate {
  RcDiskName : string; RcDiskUUID : string; RcExposeRequired : bool;
  RcBackingImageName : string;
}.
Record ShardCreateRequest := mkShardCreate {
  HcLvsName : string; HcLvsUUID : string; HcSlotIndex : Z;
}.
(** [ClientCreateRequest] is [InstanceCreateRequest] of the client, as opposed
    to the message. *)
Record ClientCreateRequest := mkClientCreate {
  CcDataEngine : string; CcName : string; CcInstanceType : string; CcVolumeName : string;
  CcSize : Z; CcPortCount : Z; CcPortArgs : list string; CcBinary : string;
  CcBinaryArgs : list string; CcEngine : EngineCreateRequest;
  CcEngineFrontend : EngineFrontendCreateRequest; CcReplica : ReplicaCreateRequest;
  CcShard : ShardCreateRequest; CcShardGroup : ShardGroupSpec; CcDataLayoutType : Z;
}.

(** An SPDK spec of which only the size is set. *)
Definition sized_spec (size : Z) : SpdkInstanceSpec :=
  {| ReplicaAddressMap := ∅; DiskName := ""; DiskUuid := ""; Size := size; Frontend := "";
     SalvageRequested := false; BackingImageName := ""; UblkQueueDepth := 0;
     UblkNumberOfQueue := 0; NvmeTcpNrIoQueues := 0; SnapshotMaxCount := 0; SlotIndex := 0;
     LvsName := ""; LvsUuid := ""; ShardGroup_ := None; ExposeRequired := false |}.

(** The SPDK spec of a request for a V2 instance, by its type. *)
Definition spdk_spec (req : ClientCreateRequest) : res SpdkInstanceSpec :=
  let type := CcInstanceType req in
  let size := CcSize req in
  if bool_decide (type = InstanceTypeEngine) then
    let e := CcEngine req in
    Ok {| ReplicaAddressMap := EcReplicaAddressMap e; DiskName := ""; DiskUuid := "";
          Size := size; Frontend := EcFrontend e; SalvageRequested := EcSalvageRequested e;
          BackingImageName := ""; UblkQueueDepth := int32 (EcUblkQueueDepth e);
          UblkNumberOfQueue := int32 (EcUblkNumberOfQueue e); NvmeTcpNrIoQueues := 0;
          SnapshotMaxCount := int32 (EcSnapshotMaxCount e); SlotIndex := 0; LvsName := "";
          LvsUuid := ""; ShardGroup_ := None; ExposeRequired := false |}
  else if bool_decide (type = InstanceTypeEngineFrontend) then
    let f := CcEngineFrontend req in
    Ok {| ReplicaAddressMap := ∅; DiskName := ""; DiskUuid := ""; Size := size;
          Frontend := FcFrontend f; SalvageRequested := false; BackingImageName := "";
          UblkQueueDepth := int32 (FcUblkQueueDepth f);
          UblkNumberOfQueue := int32 (FcUblkNumberOfQueue f);
          NvmeTcpNrIoQueues := int32 (FcNvmeTcpNrIoQueues f); SnapshotMaxCount := 0;
          SlotIndex := 0; LvsName := ""; LvsUuid := ""; ShardGroup_ := None;
          ExposeRequired := false |}
  else if bool_decide (type = InstanceTypeReplica) then
    let r := CcReplica req in
    Ok {| ReplicaAddressMap := ∅; DiskName := RcDiskName r; DiskUuid := RcDiskUUID r;
          Size := size; Frontend := ""; SalvageRequested := false;
          BackingImageName := RcBackingImageName r; UblkQueueDepth := 0;
          UblkNumberOfQueue := 0; NvmeTcpNrIoQueues := 0; SnapshotMaxCount := 0;
          SlotIndex := 0; LvsName := ""; LvsUuid := ""; ShardGroup_ := None;
          ExposeRequired := RcExposeRequired r |}
  else if bool_decide (type = InstanceTypeShard) then
    let h := CcShard req in
    Ok {| ReplicaAddressMap := ∅; DiskName := ""; DiskUuid := ""; Size := size;
          Frontend := ""; SalvageRequested := false; BackingImageName := "";
          UblkQueueDepth := 0; UblkNumberOfQueue := 0; NvmeTcpNrIoQueues := 0;
          SnapshotMaxCount := 0; SlotIndex := HcSlotIndex h; LvsName := HcLvsName h;
          LvsUuid := HcLvsUUID h; ShardGroup_ := None; ExposeRequired := false |}
  else if bool_decide (type = InstanceTypeShardGroup) then
    Ok {| ReplicaAddressMap := ∅; DiskName := ""; DiskUuid := ""; Size := size;
          Frontend := ""; SalvageRequested := false; BackingImageName := "";
          UblkQueueDepth := 0; UblkNumberOfQueue := 0; NvmeTcpNrIoQueues := 0;
          SnapshotMaxCount := 0; SlotIndex := 0; LvsName := ""; LvsUuid := "";
          ShardGroup_ := Some (CcShardGroup req); ExposeRequired := false |}
  else Err (EPlain ("failed to create instance: invalid instance type " +:+ type)).

(** The two specs of a request, one of them nil. *)
Definition create_specs (driver : Z) (req : ClientCreateRequest) :
    res (option ProcessInstanceSpec * option SpdkInstanceSpec) :=
  if bool_decide (driver = DATA_ENGINE_V1) then
    Ok (Some {| PIBinary := CcBinary req; PIArgs := CcBinaryArgs req |}, None)
  else match spdk_spec req with Ok sp => Ok (None, Some sp) | Err e => Err e end.

Definition create_message (driver : Z) (req : ClientCreateRequest)
    (process : option ProcessInstanceSpec) (spdk : option SpdkInstanceSpec) :
    Instance.InstanceCreateRequest :=
  let frontend := bool_decide (CcInstanceType req = InstanceTypeEngineFrontend) in
  {| CSpec :=
       {| IName := CcName req; IType := CcInstanceType req; IVolumeName := CcVolumeName req;
          IBackendStoreDriver := driver; IDataEngine := driver; IProcess := process;
          ISpdk := spdk; IPortCount := int32 (CcPortCount req); IPortArgs := CcPortArgs req;
          ITargetAddress := if frontend then FcTargetAddress (CcEngineFrontend req)
                            else EcTargetAddress (CcEngine req);
          IEngineName := if frontend then FcEngineName (CcEngineFrontend req) else "";
          IUpgradeRequired := EcUpgradeRequired (CcEngine req);
          IInitiatorAddress := EcInitiatorAddress (CcEngine req) |};
     CDataLayoutType := CcDataLayoutType req |}.

Definition InstanceClient_InstanceCreate (req : ClientCreateRequest) :
    free instanceE (res ApiInstance) :=
  require (is_empty (CcName req) || is_empty (CcInstanceType req))
    "failed to create instance: missing required parameter" (
  with_driver (CcDataEngine req) "failed to delete instance" (λ driver,
  match create_specs driver req with
  | Err e => refuse e
  | Ok (process, spdk) =>
      request_deref (EWrap "failed to create instance")
        (InstanceRpc (QCreate (create_message driver req process spdk))) RPCToInstance
  end)).

Definition InstanceClient_InstanceDelete (dataEngine name uuid instanceType diskUUID : string)
    (cleanupRequired : bool) : free instanceE (res ApiInstance) :=
  require (is_empty name) "failed to delete instance: missing required parameter name" (
  with_driver dataEngine "failed to delete instance" (λ driver,
  request_deref (EWrap ("failed to delete instance " +:+ name))
    (InstanceRpc (QDelete
      {| DelName := name; DelUuid := uuid; DelType := instanceType; DelDataEngine := driver;
         DelCleanupRequired := cleanupRequired; DelDiskUuid := diskUUID |})) RPCToInstance)).

Definition named (name instanceType : string) (driver : Z) : InstanceRequest :=
  {| QName := name; QType := instanceType; QDataEngine := driver |}.

Definition InstanceClient_InstanceGet (dataEngine name instanceType : string) :
    free instanceE (res ApiInstance) :=
  require (is_empty name) "failed to get instance: missing required parameter name" (
  with_driver dataEngine "failed to get instance" (λ driver,
  request_deref (EWrap ("failed to get instance " +:+ name))
    (InstanceRpc (QGet (named name instanceType driver))) RPCToInstance)).

Definition InstanceClient_InstanceList : free instanceE (res (gmap string ApiInstance)) :=
  request_deref (EWrap "failed to list instances") (InstanceRpc QList) RPCToInstanceList.

Definition InstanceClient_InstanceLog (dataEngine name instanceType : string) :
    free instanceE (res unit) :=
  require (is_empty name) "failed to get instance: missing required parameter name" (
  with_driver dataEngine "failed to log instance" (λ driver,
  request_as (EWrap ("failed to get instance log of " +:+ name))
    (OpenInstanceLog (named name instanceType driver)) id)).

Definition InstanceClient_InstanceWatch : free instanceE (res unit) :=
  request_as (EWrap "failed to open instance update stream") OpenInstanceWatch id.

Definition InstanceClient_InstanceReplace (dataEngine name instanceType binary : string)
    (portCount : Z) (args portArgs : list string) (terminateSignal : string) :
    free instanceE (res ApiInstance) :=
  require (is_empty name || is_empty binary)
    "failed to replace instance: missing required parameter" (
  with_driver dataEngine "failed to replace instance" (λ driver,
  require (bool_decide (terminateSignal ≠ "SIGHUP"))
    ("unsupported terminate signal " +:+ terminateSignal) (
  request_deref (EWrap "failed to replace instance")
    (InstanceRpc (QReplace
      {| RSpec := response_spec name instanceType "" driver driver
           (Some {| PIBinary := binary; PIArgs := args |}) (int32 portCount) portArgs;
         RTerminateSignal := terminateSignal |})) RPCToInstance))).

Definition InstanceClient_InstanceSuspend (dataEngine name instanceType : string) :
    free instanceE (res unit) :=
  require (is_empty name) "failed to suspend instance: missing required parameter name" (
  with_driver dataEngine "failed to suspend instance" (λ driver,
  request_as (EWrap ("failed to suspend instance " +:+ name))
    (InstanceRpc (QSuspend (named name instanceType driver))) id)).

Definition InstanceClient_InstanceResume (dataEngine name instanceType : string) :
    free instanceE (res unit) :=
  require (is_empty name) "failed to resume instance: missing required parameter name" (
  with_driver dataEngine "failed to resume instance" (λ driver,
  request_as (EWrap ("failed to resume instance " +:+ name))
    (InstanceRpc (QResume (named name instanceType driver))) id)).

Definition InstanceClient_InstanceSwitchOverTarget
    (dataEngine name instanceType targetAddress engineName switchoverPhase : string) :
    free instanceE (res unit) :=
  require (is_empty name)
    "failed to switch over target for instance: missing required parameter name" (
  require (is_empty targetAddress)
    "failed to switch over target for instance: missing required parameter target address" (
  with_driver dataEngine "failed to switch over target instance" (λ driver,
  request_as (EWrap ("failed to switch over target for instance " +:+ name))
    (InstanceRpc (QSwitchOver
      {| WName := name; WType := instanceType; WDataEngine := driver;
         WEngineName := engineName; WTargetAddress := targetAddress;
         WSwitchoverPhase := switchoverPhase |})) id))).

Definition InstanceClient_InstanceDeleteTarget (dataEngine name instanceType : string) :
    free instanceE (res unit) :=
  require (is_empty name) "failed to delete target for instance: missing required parameter name" (
  with_driver dataEngine "failed to delete target instance" (λ driver,
  request_as (EWrap ("failed to delete target for instance " +:+ name))
    (InstanceRpc (QDeleteTarget (named name instanceType driver))) id)).

(** The argument [service] of the log methods is not used. *)
Definition InstanceClient_LogSetLevel (dataEngine service level : string) :
    free instanceE (res unit) :=
  with_driver dataEngine "failed to set log level" (λ driver,
  request_as id (InstanceRpc (QLogSetLevel driver level)) id).
Definition InstanceClient_LogSetFlags (dataEngine service flags : string) :
    free instanceE (res unit) :=
  with_driver dataEngine "failed to set log flags" (λ driver,
  request_as id (InstanceRpc (QLogSetFlags driver flags)) id).
Definition InstanceClient_LogGetLevel (dataEngine service : string) :
    free instanceE (res string) :=
  with_driver dataEngine "failed to get log level" (λ driver,
  request_as id (InstanceRpc (QLogGetLevel driver)) id).
Definition InstanceClient_LogGetFlags (dataEngine service : string) :
    free instanceE (res string) :=
  with_driver dataEngine "failed to get log flags" (λ driver,
  request_as id (InstanceRpc (QLogGetFlags driver)) id).

(** ** The disk client *)

Inductive diskE : Type → Type :=
  | DiskRpc {X} (m : disk_method X) (req : DiskRequest) : diskE (res X).

(** [rpc.DiskType_value]. *)
Definition DiskType_value (diskType : string) : option Z :=
  if bool_decide (diskType = "filesystem") then Some 0
  else if bool_decide (diskType = "block") then Some 1
  else if bool_decide (diskType = "lvm") then Some 2
  else None.

(** An unknown name reads as zero where the code does not look whether it was
    found. *)
Definition disk_type (diskType : string) : Z := default 0 (DiskType_value diskType).

Definition with_disk_type {A} (diskType msg : string) (k : Z → free diskE (res A)) :
    free diskE (res A) :=
  match DiskType_value diskType with
  | None => refuse (EPlain (msg +:+ ": invalid disk type " +:+ diskType))
  | Some t => k t
  end.

(** The API objects of the answers, as the methods make them. *)
Definition disk_info (resp : ImDisk) : ApiDiskInfo :=
  {| AdID := IdId resp; AdName := IdName resp; AdUUID := IdUuid resp; AdPath := IdPath resp;
     AdType := IdType resp; AdDriver := IdDriver resp; AdTotalSize := IdTotalSize resp;
     AdFreeSize := IdFreeSize resp; AdTotalBlocks := IdTotalBlocks resp;
     AdFreeBlocks := IdFreeBlocks resp; AdBlockSize := IdBlockSize resp;
     AdClusterSize := IdClusterSize resp; AdState := IdState resp; AdMessage := IdMessage resp |}.

Definition disk_health (resp : ImDiskHealth) : ApiDiskHealth :=
  {| AhModelNumber := IhModelNumber resp; AhSerialNumber := IhSerialNumber resp;
     AhFirmwareRevision := IhFirmwareRevision resp; AhTraddr := IhTraddr resp;
     AhCriticalWarning := IhCriticalWarning resp;
     AhTemperatureCelsius := IhTemperatureCelsius resp;
     AhAvailableSparePercentage := IhAvailableSparePercentage resp;
     AhAvailableSpareThresholdPercentage := IhAvailableSpareThresholdPercentage resp;
     AhPercentageUsed := IhPercentageUsed resp; AhDataUnitsRead := IhDataUnitsRead resp;
     AhDataUnitsWritten := IhDataUnitsWritten resp;
     AhHostReadCommands := IhHostReadCommands resp;
     AhHostWriteCommands := IhHostWriteCommands resp;
     AhControllerBusyTime := IhControllerBusyTime resp; AhPowerCycles := IhPowerCycles resp;
     AhPowerOnHours := IhPowerOnHours resp; AhUnsafeShutdowns := IhUnsafeShutdowns resp;
     AhMediaErrors := IhMediaErrors resp; AhNumErrLogEntries := IhNumErrLogEntries resp;
     AhWarningTemperatureTimeMinutes := IhWarningTemperatureTimeMinutes resp;
     AhCriticalCompositeTemperatureTimeMinutes := IhCriticalCompositeTemperatureTimeMinutes resp |}.

Definition storage_instance (instance : ReplicaInstance) : ReplicaStorageInstance :=
  {| ArName := RiName instance; ArUUID := RiUuid instance; ArDiskName := RiDiskName instance;
     ArDiskUUID := RiDiskUuid instance; ArSpecSize := RiSpecSize instance;
     ArActualSize := RiActualSize instance |}.

Definition disk_metrics (m : ImMetrics) : ApiDiskMetrics :=
  {| AmReadThroughput := ImReadThroughput m; AmWriteThroughput := ImWriteThroughput m;
     AmReadLatency := ImReadLatency m; AmWriteLatency := ImWriteLatency m;
     AmReadIOPS := ImReadIOPS m; AmWriteIOPS := ImWriteIOPS m |}.

Definition DiskClient_DiskCreate (diskType diskName diskUUID diskPath diskDriver : string)
    (blockSize : Z) : free diskE (res ApiDiskInfo) :=
  require (is_empty diskName || is_empty diskPath)
    "failed to create disk: missing required parameters" (
  with_disk_type diskType "failed to get disk info" (λ t,
  request_as id (DiskRpc (MDiskCreate blockSize)
    {| DqType := t; DqName := diskName; DqUuid := diskUUID; DqPath := diskPath;
       DqDriver := diskDriver |}) disk_info)).

Definition located (t : Z) (diskName diskPath diskDriver : string) : DiskRequest :=
  {| DqType := t; DqName := diskName; DqUuid := ""; DqPath := diskPath;
     DqDriver := diskDriver |}.

Definition DiskClient_DiskGet (diskType diskName diskPath diskDriver : string) :
    free diskE (res ApiDiskInfo) :=
  require (is_empty diskName) "failed to get disk info: missing required parameter diskName" (
  with_disk_type diskType "failed to get disk info" (λ t,
  request_as id (DiskRpc MDiskGet (located t diskName diskPath diskDriver)) disk_info)).

Definition DiskClient_DiskHealthGet (diskType diskName diskPath diskDriver : string) :
    free diskE (res ApiDiskHealth) :=
  require (is_empty diskName)
    "failed to get disk health info: missing required parameter diskName" (
  with_disk_type diskType "failed to get disk health info" (λ t,
  request_as id (DiskRpc MDiskHealthGet (located t diskName diskPath diskDriver)) disk_health)).

Definition DiskClient_DiskDelete (diskType diskName diskUUID diskPath diskDriver : string) :
    free diskE (res unit) :=
  require (is_empty diskName) "failed to delete disk: missing required diskName" (
  request_as id (DiskRpc MDiskDelete
    {| DqType := disk_type diskType; DqName := diskName; DqUuid := diskUUID;
       DqPath := diskPath; DqDriver := diskDriver |}) id).

Definition DiskClient_DiskReplicaInstanceList (diskType diskName diskDriver : string) :
    free diskE (res (gmap string ReplicaStorageInstance)) :=
  require (is_empty diskName)
    "failed to list replica instances on disk: missing required parameter" (
  request_as id (DiskRpc MReplicaList (located (disk_type diskType) diskName "" diskDriver))
    (fmap storage_instance)).

Definition DiskClient_DiskReplicaInstanceDelete
    (diskType diskName diskUUID diskDriver replicaInstanceName : string) :
    free diskE (res unit) :=
  require (is_empty diskName || is_empty diskUUID || is_empty replicaInstanceName)
    "failed to delete replica instance on disk: missing required parameters" (
  request_as id (DiskRpc (MReplicaDelete replicaInstanceName)
    {| DqType := disk_type diskType; DqName := diskName; DqUuid := diskUUID; DqPath := "";
       DqDriver := diskDriver |}) id).

Definition DiskClient_MetricsGet (diskType diskName diskPath diskDriver : string) :
    free diskE (res ApiDiskMetrics) :=
  require (is_empty diskName) "failed to get disk metrics: missing required parameter diskName" (
  with_disk_type diskType "failed to get disk metrics" (λ t,
  request_as id (DiskRpc MMetricsGet (located t diskName diskPath diskDriver)) disk_metrics)).
