(* ===== verification/InstanceClientProps.v ===== *)
(** * The instance and disk clients against their servers

    What a caller of the client's methods gets when the server of [Instance] or
    [Disk] answers them over gRPC. *)
From S2P Require Import Prelude GoStrings Sched Process Calls Grpc ProxyEnv Messages Services Instance InstanceProps Disk Client Api InstanceClient.

#[local] Open Scope Z_scope.

(** ** Steps of a method *)

Section steps.
Context {E : Type → Type} (P : ∀ X, E X → Prop).

Lemma calls_require {A} failed msg (k : free E (res A)) :
  (failed = false → calls_only P k) → calls_only P (require failed msg k).
Proof. intros Hk. unfold require. destruct failed; [done|by apply Hk]. Qed.

Lemma calls_with_driver {A} dataEngine msg (k : Z → free E (res A)) :
  calls_only P (k (engine_number dataEngine)) → calls_only P (with_driver dataEngine msg k).
Proof. by rewrite with_driver_eq. Qed.

Lemma calls_request_as {X A} wrap (e : E (res X)) (conv : X → A) :
  P _ e → calls_only P (request_as wrap e conv).
Proof. intros He. by apply calls_bind; [apply calls_call|]. Qed.

Lemma calls_request_deref {X A} wrap (e : E (res X)) (conv : X → option A) :
  P _ e → calls_only P (request_deref wrap e conv).
Proof.
  intros He. apply calls_bind; [by apply calls_call|]. intros [x|er]; [|done].
  by apply calls_bind; [apply calls_deref|].
Qed.
End steps.

(** ** The instance server *)

(** The empty message of an answer. *)
Definition empty_answer {X} (q : request X) : X :=
  let response := {| ISpec := None; IStatus := response_status "" "" 0 0 ∅ "" "";
                     IDeleted := false |} in
  match q in request X return X with
  | QCreate _ | QDelete _ | QGet _ | QReplace _ => response
  | QList => ∅
  | QLog _ | QSuspend _ | QResume _ | QSwitchOver _ | QDeleteTarget _
  | QLogSetLevel _ _ | QLogSetFlags _ _ => tt
  | QLogGetLevel _ | QLogGetFlags _ => ""
  end.

(** The server at the other end of the connection. *)
Definition instance_link (s : Server) (X : Type) (e : instanceE X) : free callE X :=
  match e in instanceE X return free callE X with
  | InstanceRpc q => r ← serve s q; mret (over_grpc (empty_answer q) r)
  | OpenInstanceLog _ | OpenInstanceWatch => mret (Ok tt)
  end.

Section served.
Context (s : Server) (o : ∀ X, callE X → X).

(** What a caller gets. *)
Definition client_result {A} (p : free instanceE A) : option A :=
  (eval o (interp (instance_link s) p)).1.
Definition server_result {X} (q : request X) : option (reply X) := (eval o (serve s q)).1.

Lemma result_request_deref {X A} wrap (q : request X) (conv : X → option A) :
  client_result (request_deref wrap (InstanceRpc q) conv) =
    match over_grpc (empty_answer q) <$> server_result q with
    | None => None
    | Some (Ok x) => Ok <$> conv x
    | Some (Err e) => Some (Err (wrap e))
    end.
Proof.
  unfold client_result, server_result, request_deref.
  rewrite eval_interp_bind, eval_bind, eval_interp_call. unfold instance_link.
  rewrite eval_bind. destruct (eval o (serve s q)) as [[r|] l]; [|done]. simpl.
  destruct (over_grpc _ r) as [x|e]; [|done]. by destruct (conv x).
Qed.
End served.

(** ** A list of instances *)

(** The types of the instances of an engine. *)
Definition types_of (dataEngine : Z) : list string :=
  if bool_decide (dataEngine = DATA_ENGINE_V1) then [InstanceTypeEngine; InstanceTypeReplica]
  else v2_types.

Definition typed_response (name : string) (r : InstanceResponse) : Prop :=
  match ISpec r with
  | None => False
  | Some spec =>
      IName spec = name ∧ IBackendStoreDriver spec = IDataEngine spec ∧
      (IDataEngine spec = DATA_ENGINE_V1 ∨ IDataEngine spec = DATA_ENGINE_V2) ∧
      IType spec ∈ types_of (IDataEngine spec)
  end.

Lemma add_all_typed {X} (name : X → string) conv (xs : gmap string X) m :
  (∀ x, typed_response (name x) (conv x)) → map_Forall typed_response m →
  map_Forall typed_response (add_all name conv xs m).
Proof.
  intros Hc Hm. unfold add_all.
  apply (map_fold_weak_ind (λ m' _, map_Forall typed_response m')); [done|].
  intros i x m' r _ Hr. by apply map_Forall_insert_2.
Qed.

Lemma process_typed p :
  typed_response (SName (Spec p)) (processResponseToInstanceResponse (process_type p) p).
Proof.
  unfold typed_response. simpl. split_and!; [done|done|by left|].
  unfold process_type. case_match; set_solver.
Qed.

Definition typed_reply (r : reply (gmap string InstanceResponse)) : Prop :=
  match r with (Some m, None) => map_Forall typed_response m | (_, Some _) => True | _ => False end.

Lemma V1_list_typed s m :
  map_Forall typed_response m → returns typed_reply (V1_InstanceList s m).
Proof.
  intros Hm. apply returns_with_client; [done|]. apply returns_any. intros [ps|e]; [|done].
  apply add_all_typed; [apply process_typed|done].
Qed.

Lemma V2_list_typed s m :
  map_Forall typed_response m → returns typed_reply (V2_InstanceList s m).
Proof.
  intros Hm. apply returns_with_client; [done|].
  do 5 (apply returns_try; [done|]; intros ?). simpl.
  repeat (apply add_all_typed; [intros ?; unfold typed_response, types_of; simpl;
    split_and!; [done|done|by right|set_solver]|]). done.
Qed.

Lemma list_typed s : returns typed_reply (serve s QList).
Proof.
  change (returns typed_reply (InstanceList s)). unfold InstanceList.
  apply (returns_bind typed_reply _ (V1_InstanceList s ∅));
    [apply V1_list_typed, map_Forall_empty|].
  intros [[m|] [e|]] Hm; try done. destruct (v2DataEngineEnabled s); [|done].
  apply (returns_bind typed_reply _ (V2_InstanceList s m)); [by apply V2_list_typed|]. by intros [[m'|] [e|]] Hm'.
Qed.

(** C33: listing the instances, from the services to the caller. The client does
    not panic unless the server does. When the server makes a list, the caller
    gets every instance of it and no others, each under its own name, with its
    status, an engine that is [v1] or [v2], the same in both fields, and a type
    of that engine. When a service fails, the caller gets an error with its
    code. *)
Theorem InstanceList_end_to_end (s : Server) (o : ∀ X, callE X → X) :
  match (eval o (serve s QList)).1 with
  | None => client_result s o InstanceClient_InstanceList = None
  | Some (_, Some e) => ∃ e', client_result s o InstanceClient_InstanceList = Some (Err e') ∧
      status_code e' = status_code e
  | Some (None, None) => False
  | Some (Some m, None) =>
      ∃ l, client_result s o InstanceClient_InstanceList = Some (Ok l) ∧ dom l = dom m ∧
        ∀ name a, l !! name = Some a → AiName a = name ∧ AiBackendStoreDriver a = AiDataEngine a ∧
          (AiDataEngine a = "v1" ∧ AiType a ∈ types_of DATA_ENGINE_V1 ∨
           AiDataEngine a = "v2" ∧ AiType a ∈ types_of DATA_ENGINE_V2) ∧
          ∃ r, m !! name = Some r ∧ AiStatus a = RPCToInstanceStatus (IStatus r)
  end.
Proof.
  unfold InstanceClient_InstanceList. rewrite result_request_deref. unfold server_result.
  destruct (eval o (serve s QList)).1 as [r|] eqn:Hr; [|done]. cbn [fmap option_fmap option_map].
  pose proof (returns_eval _ _ _ _ (list_typed s) Hr) as Ht. destruct r as [[m|] [e|]]; try done.
  - eexists. split; [done|]. apply FromError_code.
  - simpl in Ht. assert (is_Some (RPCToInstanceList m)) as [l Hl].
    { apply RPCToInstanceList_total. intros name r Hm. specialize (Ht name r Hm).
      unfold typed_response in Ht. by destruct (ISpec r). }
    exists l. simpl. rewrite Hl. split; [done|].
    assert (∀ name, l !! name = m !! name ≫= RPCToInstance) as Hlk
      by (intros; by apply lookup_RPCToInstanceList).
    split.
    + apply set_eq. intros name. rewrite !elem_of_dom, Hlk.
      destruct (m !! name) as [r|] eqn:Hm; [|by simpl; split; intros []]. simpl.
      rewrite RPCToInstance_is_Some. specialize (Ht name r Hm). unfold typed_response in Ht.
      by destruct (ISpec r).
    + intros name a Ha. rewrite Hlk in Ha. destruct (m !! name) as [r|] eqn:Hm; [|done].
      simpl in Ha. specialize (Ht name r Hm). unfold typed_response, RPCToInstance in *.
      destruct (ISpec r) as [spec|]; [|done]. injection Ha as <-. simpl.
      destruct Ht as (Hn & Hd & He & Hty). rewrite Hd.
      destruct He as [He|He]; rewrite He in *; eauto 10.
  - eexists. split; [done|]. apply FromError_code.
Qed.

(** ** A deletion *)

Definition delete_reply (engine : Z) (name : string) (r : reply InstanceResponse) : Prop :=
  match r with
  | (Some x, None) => is_Some (ISpec x) ∧ (engine = DATA_ENGINE_V2 → x = deleted_response name)
  | _ => True
  end.

Lemma delete_replies s (req : InstanceDeleteRequest) :
  returns (delete_reply (DelDataEngine req) (DelName req)) (serve s (QDelete req)).
Proof.
  change (returns (delete_reply (DelDataEngine req) (DelName req)) (InstanceDelete s req)).
  unfold InstanceDelete, dispatch. case_bool_decide as H1; [|case_bool_decide as H2; [|done]].
  - apply returns_with_client; [done|]. apply returns_any. intros [p|e]; [|done].
    simpl. split; [done|]. by rewrite H1.
  - apply returns_with_client; [done|]. apply returns_any. by intros [e|].
Qed.

(** What the caller of a deletion is told. When the server answers with a
    response, the caller gets an instance whose [Deleted] is false, although the
    V2 server always says that the instance is deleted: the field of the API
    object is never set. A deleted V2 instance is stopped, has no type, and is
    reported as one of the V1 engine, for the response does not name its
    engine. *)
Theorem InstanceDelete_end_to_end (s : Server) (o : ∀ X, callE X → X)
    (dataEngine name uuid type disk : string) (cleanup : bool) (r : InstanceResponse) :
  name ≠ "" →
  server_result s o (QDelete
    {| DelName := name; DelUuid := uuid; DelType := type;
       DelDataEngine := engine_number dataEngine; DelCleanupRequired := cleanup;
       DelDiskUuid := disk |}) = Some (ok r) →
  ∃ a, client_result s o (InstanceClient_InstanceDelete dataEngine name uuid type disk cleanup) =
         Some (Ok a) ∧ RPCToInstance r = Some a ∧ AiDeleted a = false ∧
    (engine_number dataEngine = DATA_ENGINE_V2 →
       IDeleted r = true ∧ AiName a = name ∧ AiType a = "" ∧ AiDataEngine a = "v1" ∧
       AisState (AiStatus a) = "stopped").
Proof.
  intros Hn Hr. unfold InstanceClient_InstanceDelete, require, is_empty.
  rewrite bool_decide_false, with_driver_eq, result_request_deref, Hr by done.
  pose proof (returns_eval _ _ _ _ (delete_replies s _) Hr) as [Hs H2]. simpl in Hs, H2.
  apply RPCToInstance_is_Some in Hs as [a Ha]. exists a. simpl. rewrite Ha. split_and!; [done..| |].
  - revert Ha. unfold RPCToInstance. destruct (ISpec r); [|done]. simpl. by intros [= <-].
  - intros He. rewrite (H2 He) in *. simpl in Ha. injection Ha as <-. done.
Qed.

Theorem InstanceDelete_end_to_end_witness :
  ∃ a, client_result a_server (empty_services None)
         (InstanceClient_InstanceDelete "v2" "vol-r-1" "" "replica" "" true) = Some (Ok a) ∧
    AiDeleted a = false ∧ AiDataEngine a = "v1".
Proof.
  destruct (InstanceDelete_end_to_end a_server (empty_services None) "v2" "vol-r-1" "" "replica"
    "" true (deleted_response "vol-r-1")) as (a & Ha & _ & Hd & H2);
    [done|vm_compute; reflexivity|].
  exists a. split; [exact Ha|]. split; [exact Hd|]. by apply H2.
Defined.

(** ** A creation *)

(** A reply of the server that a client can convert. *)
Definition spec_reply (r : reply InstanceResponse) : Prop :=
  match r with (Some x, None) => is_Some (ISpec x) | (_, Some _) => True | (None, None) => False end.

Lemma spec_reply_of {X} (conv : X → InstanceResponse) (r : res X) :
  (∀ x, is_Some (ISpec (conv x))) → spec_reply (reply_of conv r).
Proof. by destruct r; simpl. Qed.

(** The message has the spec its engine needs. *)
Definition complete (msg : Instance.InstanceCreateRequest) : Prop :=
  let spec := CSpec msg in
  (IDataEngine spec = DATA_ENGINE_V2 → IType spec ∈ v2_types →
     ∃ sp, ISpdk spec = Some sp ∧
       ∀ g, ShardGroup_ sp = Some g → map_Forall (λ _ e, is_Some e) (Shards g)).

Lemma total_request {X} (q : callE (res X)) (conv : X → InstanceResponse) :
  (∀ x, is_Some (ISpec (conv x))) →
  total spec_reply (r ← call q; mret (reply_of conv r)).
Proof. intros Hc x. by apply spec_reply_of. Qed.

Lemma create_total (s : Server) (msg : Instance.InstanceCreateRequest) :
  complete msg → total spec_reply (serve s (QCreate msg)).
Proof.
  intros Hm. change (total spec_reply (InstanceCreate s msg)). unfold InstanceCreate, dispatch.
  case_bool_decide as H1; [|case_bool_decide as H2; [|done]].
  - unfold V1_InstanceCreate. case_bool_decide; [done|]. destruct (IProcess (CSpec msg)); [|done].
    apply total_with_client; [done|]. unfold ProcessManagerClient_ProcessCreate.
    case_bool_decide; [done|]. by apply total_request.
  - unfold V2_InstanceCreate. apply total_with_client; [done|]. specialize (Hm H2). unfold spdk.
    repeat (case_bool_decide as Ht;
      [destruct Hm as (sp & Hsp & Hg); [rewrite Ht; unfold v2_types; set_solver|]; rewrite Hsp|clear Ht]); [..|done].
    1-3: by apply total_request.
    + simpl. case_bool_decide; [done|]. by apply total_request.
    + simpl. destruct (ShardGroup_ sp) as [g|] eqn:Hsg; [|done]. case_bool_decide; [done|].
      unfold shard_endpoints. rewrite decide_True by auto. by apply total_request.
Qed.

(** Every message the client sends is complete. *)
Lemma create_specs_complete (req : ClientCreateRequest) (driver : Z) process spdk :
  map_Forall (λ _ e, is_Some e) (Shards (CcShardGroup req)) →
  create_specs driver req = Ok (process, spdk) →
  complete (create_message driver req process spdk).
Proof.
  intros Hs Hc He Hty. simpl in *. unfold create_specs in Hc.
  rewrite bool_decide_false in Hc by (rewrite He; done).
  unfold spdk_spec in Hc. repeat case_bool_decide; simplify_eq/=; eexists; (split; [done|]);
    intros g [=]; by subst.
Qed.

(** C34: creating an instance, from the client to the services. A request without
    a name or a type is refused, and so is a V2 instance of a type that does not
    exist, without a request. Otherwise the request that is made never panics
    the server, whatever the services answer, for it has the spec that its
    engine needs and its shards are not nil; the caller gets the instance of the
    server's response or an error with the server's code. *)
Theorem InstanceCreate_end_to_end (s : Server) (o : ∀ X, callE X → X)
    (req : ClientCreateRequest) :
  map_Forall (λ _ e, is_Some e) (Shards (CcShardGroup req)) →
  let p := InstanceClient_InstanceCreate req in
  let driver := engine_number (CcDataEngine req) in
  (CcName req = "" ∨ CcInstanceType req = "" ∨
     driver = DATA_ENGINE_V2 ∧ CcInstanceType req ∉ v2_types →
   ∃ e, ∀ o', eval o' p = (Some (Err e), [])) ∧
  (CcName req ≠ "" → CcInstanceType req ≠ "" →
     (driver = DATA_ENGINE_V2 → CcInstanceType req ∈ v2_types) →
   ∃ msg r, (∀ o', (eval o' p).2 = [log (InstanceRpc (QCreate msg))]) ∧
     IName (CSpec msg) = CcName req ∧ IType (CSpec msg) = CcInstanceType req ∧
     IDataEngine (CSpec msg) = driver ∧ server_result s o (QCreate msg) = Some r ∧
     match r with
     | (_, Some e) => ∃ e', client_result s o p = Some (Err e') ∧ status_code e' = status_code e
     | (Some x, None) => ∃ a, client_result s o p = Some (Ok a) ∧ RPCToInstance x = Some a
     | (None, None) => False
     end).
Proof.
  intros Hs p driver. subst p. unfold InstanceClient_InstanceCreate, require, is_empty.
  split.
  - destruct (bool_decide (CcName req = "") || bool_decide (CcInstanceType req = "")) eqn:Hb.
    { intros _. by eexists. }
    apply orb_false_iff in Hb as [Hn%bool_decide_eq_false Ht%bool_decide_eq_false].
    intros [?|[?|[Hd Hty]]]; [done..|]. rewrite with_driver_eq. fold driver.
    unfold create_specs. rewrite bool_decide_false by (rewrite Hd; done). unfold spdk_spec.
    rewrite !bool_decide_false by (intros Hx; apply Hty; rewrite Hx; unfold v2_types; set_solver). by eexists.
  - intros Hn Ht Hty. rewrite !bool_decide_false, with_driver_eq by done. fold driver.
    assert (∃ process spdk, create_specs driver req = Ok (process, spdk)) as (ps & sp & Hc).
    { unfold create_specs. case_bool_decide as Hd; [eauto|].
      assert (CcInstanceType req ∈ v2_types) as Hin
        by (apply Hty; destruct (engine_number_known (CcDataEngine req)); [done|done]).
      unfold spdk_spec. repeat (case_bool_decide; [eauto|]). unfold v2_types in Hin. set_solver. }
    rewrite Hc. simpl orb. cbv iota. set (msg := create_message driver req ps sp).
    pose proof (create_total s msg (create_specs_complete _ _ _ _ Hs Hc)) as Htot.
    apply (total_eval _ o) in Htot as (r & Hr & Hspec). exists msg, r. split_and!; try done.
    { intros o'. unfold request_deref. rewrite eval_bind, eval_call. cbn [fst snd].
      destruct (o' _ _) as [x|e]; [|done]. by destruct (RPCToInstance x). }
    rewrite result_request_deref. unfold server_result. rewrite Hr.
    destruct r as [[x|] [e|]]; try done.
    + eexists. split; [done|]. apply FromError_code.
    + simpl in Hspec. apply RPCToInstance_is_Some in Hspec as [a Ha]. exists a.
      split; [|done]. simpl. by rewrite Ha.
    + eexists. split; [done|]. apply FromError_code.
Qed.

Definition a_shard : ClientCreateRequest :=
  {| CcDataEngine := "v2"; CcName := "vol-0"; CcInstanceType := "shard"; CcVolumeName := "vol";
     CcSize := 4096; CcPortCount := 1; CcPortArgs := []; CcBinary := ""; CcBinaryArgs := [];
     CcEngine := {| EcReplicaAddressMap := ∅; EcFrontend := ""; EcUblkQueueDepth := 0;
                    EcUblkNumberOfQueue := 0; EcInitiatorAddress := ""; EcTargetAddress := "";
                    EcUpgradeRequired := false; EcSalvageRequested := false;
                    EcSnapshotMaxCount := 0 |};
     CcEngineFrontend := {| FcFrontend := ""; FcUblkQueueDepth := 0; FcUblkNumberOfQueue := 0;
                            FcNvmeTcpNrIoQueues := 0; FcTargetAddress := ""; FcEngineName := "" |};
     CcReplica := {| RcDiskName := ""; RcDiskUUID := ""; RcExposeRequired := false;
                     RcBackingImageName := "" |};
     CcShard := {| HcLvsName := "disk"; HcLvsUUID := "u"; HcSlotIndex := 0 |};
     CcShardGroup := {| DataChunks := 0; ParityChunks := 0; StripSizeKb := 0; Shards := ∅;
                        GSalvageRequested := false |};
     CcDataLayoutType := DATA_LAYOUT_TYPE_SHARDED |}.

Theorem InstanceCreate_end_to_end_witness :
  ∃ msg, (∀ o', (eval o' (InstanceClient_InstanceCreate a_shard)).2 =
            [log (InstanceRpc (QCreate msg))]) ∧ IName (CSpec msg) = "vol-0".
Proof.
  destruct (InstanceCreate_end_to_end a_server (empty_services None) a_shard) as [_ H].
  - apply map_Forall_empty.
  - destruct H as (msg & r & Hl & Hn & _); [done|done|intros _; unfold v2_types; set_solver|].
    exists msg. split; [exact Hl|exact Hn].
Defined.

(** ** The disk client *)

(** The server at the other end, and a caller of the client. *)
Definition empty_disk_answer {X} (m : disk_method X) : X :=
  match m in disk_method X return X with
  | MDiskCreate _ | MDiskGet =>
      {| IdId := ""; IdName := ""; IdUuid := ""; IdPath := ""; IdType := ""; IdDriver := "";
         IdTotalSize := 0; IdFreeSize := 0; IdTotalBlocks := 0; IdFreeBlocks := 0;
         IdBlockSize := 0; IdClusterSize := 0; IdState := ""; IdMessage := "" |}
  | MDiskDelete | MReplicaDelete _ => tt
  | MDiskHealthGet =>
      {| IhModelNumber := ""; IhSerialNumber := ""; IhFirmwareRevision := ""; IhTraddr := "";
         IhCriticalWarning := 0; IhTemperatureCelsius := 0; IhAvailableSparePercentage := 0;
         IhAvailableSpareThresholdPercentage := 0; IhPercentageUsed := 0;
         IhDataUnitsRead := 0; IhDataUnitsWritten := 0; IhHostReadCommands := 0;
         IhHostWriteCommands := 0; IhControllerBusyTime := 0; IhPowerCycles := 0;
         IhPowerOnHours := 0; IhUnsafeShutdowns := 0; IhMediaErrors := 0;
         IhNumErrLogEntries := 0; IhWarningTemperatureTimeMinutes := 0;
         IhCriticalCompositeTemperatureTimeMinutes := 0 |}
  | MReplicaList => ∅
  | MMetricsGet =>
      {| ImReadThroughput := 0; ImWriteThroughput := 0; ImReadLatency := 0; ImWriteLatency := 0;
         ImReadIOPS := 0; ImWriteIOPS := 0 |}
  end.

Definition disk_link (s : DiskServer) (X : Type) (e : diskE X) : free callE X :=
  match e in diskE X return free callE X with
  | DiskRpc m req => r ← disk_serve s m req; mret (over_grpc (empty_disk_answer m) r)
  end.

(** The methods of the client, with the arguments of all of them. *)
Record disk_args := mkDiskArgs {
  DaType : string; DaName : string; DaUUID : string; DaPath : string; DaDriver : string;
}.
(** What a method makes of the answer to its request. *)
Definition api_type {X} (m : disk_method X) : Type :=
  match m with
  | MDiskCreate _ | MDiskGet => ApiDiskInfo
  | MDiskHealthGet => ApiDiskHealth
  | MReplicaList => gmap string ReplicaStorageInstance
  | MMetricsGet => ApiDiskMetrics
  | MDiskDelete | MReplicaDelete _ => unit
  end.
Definition api_object {X} (m : disk_method X) : X → api_type m :=
  match m in disk_method X return X → api_type m with
  | MDiskCreate _ | MDiskGet => disk_info
  | MDiskHealthGet => disk_health
  | MReplicaList => fmap storage_instance
  | MMetricsGet => disk_metrics
  | MDiskDelete | MReplicaDelete _ => id
  end.

Definition disk_client {X} (m : disk_method X) (a : disk_args) : free diskE (res (api_type m)) :=
  match m in disk_method X return free diskE (res (api_type m)) with
  | MDiskCreate bs => DiskClient_DiskCreate (DaType a) (DaName a) (DaUUID a) (DaPath a) (DaDriver a) bs
  | MDiskDelete => DiskClient_DiskDelete (DaType a) (DaName a) (DaUUID a) (DaPath a) (DaDriver a)
  | MDiskGet => DiskClient_DiskGet (DaType a) (DaName a) (DaPath a) (DaDriver a)
  | MDiskHealthGet => DiskClient_DiskHealthGet (DaType a) (DaName a) (DaPath a) (DaDriver a)
  | MReplicaList => DiskClient_DiskReplicaInstanceList (DaType a) (DaName a) (DaDriver a)
  | MReplicaDelete r =>
      DiskClient_DiskReplicaInstanceDelete (DaType a) (DaName a) (DaUUID a) (DaDriver a) r
  | MMetricsGet => DiskClient_MetricsGet (DaType a) (DaName a) (DaPath a) (DaDriver a)
  end.

(** The methods that look whether the name of the type is known. *)
Definition checks_type {X} (m : disk_method X) : bool :=
  match m with MDiskDelete | MReplicaList | MReplicaDelete _ => false | _ => true end.

(** The request the client sends, with the arguments it needs. *)
Definition disk_message {X} (m : disk_method X) (a : disk_args) : DiskRequest :=
  {| DqType := disk_type (DaType a); DqName := DaName a;
     DqUuid := match m with MDiskCreate _ | MDiskDelete | MReplicaDelete _ => DaUUID a | _ => "" end;
     DqPath := match m with MReplicaList | MReplicaDelete _ => "" | _ => DaPath a end;
     DqDriver := DaDriver a |}.

Lemma disk_client_shape {X} (m : disk_method X) (a : disk_args) :
  (args_ok m (disk_message m a) → (checks_type m = true → is_Some (DiskType_value (DaType a))) →
   disk_client m a = request_as id (DiskRpc m (disk_message m a)) (api_object m)) ∧
  (¬ args_ok m (disk_message m a) ∨
     checks_type m = true ∧ DiskType_value (DaType a) = None →
   ∃ msg, disk_client m a = refuse (EPlain msg)).
Proof.
  unfold args_ok, disk_message, disk_type. destruct m; simpl;
    unfold DiskClient_DiskCreate, DiskClient_DiskDelete, DiskClient_DiskGet,
      DiskClient_DiskHealthGet, DiskClient_DiskReplicaInstanceList,
      DiskClient_DiskReplicaInstanceDelete, DiskClient_MetricsGet, located, disk_type,
      with_disk_type, require, is_empty;
    repeat case_bool_decide; simpl; destruct (DiskType_value (DaType a)) as [t|]; simpl;
    split; eauto; try naive_solver; intros ? Ht; by destruct (Ht eq_refl).
Qed.

(** The fields of the API objects, from those of the SPDK service. *)
Definition disk_fields (d : Disk) (a : ApiDiskInfo) : Prop :=
  AdID a = DId d ∧ AdName a = DName d ∧ AdUUID a = DUuid d ∧ AdPath a = DPath d ∧
  AdType a = DType d ∧ AdDriver a = DDriver d ∧ AdTotalSize a = DTotalSize d ∧
  AdFreeSize a = DFreeSize d ∧ AdTotalBlocks a = DTotalBlocks d ∧
  AdFreeBlocks a = DFreeBlocks d ∧ AdBlockSize a = DBlockSize d ∧
  AdClusterSize a = DClusterSize d ∧ AdState a = DState d ∧ AdMessage a = DMessage d.
Definition health_fields (h : DiskHealth) (a : ApiDiskHealth) : Prop :=
  AhModelNumber a = ModelNumber h ∧ AhSerialNumber a = SerialNumber h ∧
  AhFirmwareRevision a = FirmwareRevision h ∧ AhTraddr a = Traddr h ∧
  AhCriticalWarning a = CriticalWarning h ∧ AhTemperatureCelsius a = TemperatureCelsius h ∧
  AhAvailableSparePercentage a = AvailableSparePercentage h ∧
  AhAvailableSpareThresholdPercentage a = AvailableSpareThresholdPercentage h ∧
  AhPercentageUsed a = PercentageUsed h ∧ AhDataUnitsRead a = DataUnitsRead h ∧
  AhDataUnitsWritten a = DataUnitsWritten h ∧ AhHostReadCommands a = HostReadCommands h ∧
  AhHostWriteCommands a = HostWriteCommands h ∧
  AhControllerBusyTime a = ControllerBusyTime h ∧ AhPowerCycles a = PowerCycles h ∧
  AhPowerOnHours a = PowerOnHours h ∧ AhUnsafeShutdowns a = UnsafeShutdowns h ∧
  AhMediaErrors a = MediaErrors h ∧ AhNumErrLogEntries a = NumErrLogEntries h ∧
  AhWarningTemperatureTimeMinutes a = WarningTemperatureTimeMinutes h ∧
  AhCriticalCompositeTemperatureTimeMinutes a = CriticalCompositeTemperatureTimeMinutes h.
Definition metrics_fields (m : Metrics) (a : ApiDiskMetrics) : Prop :=
  AmReadThroughput a = ReadThroughput m ∧ AmWriteThroughput a = WriteThroughput m ∧
  AmReadLatency a = ReadLatency m ∧ AmWriteLatency a = WriteLatency m ∧
  AmReadIOPS a = ReadIOPS m ∧ AmWriteIOPS a = WriteIOPS m.
(** The UUID of the replica is not passed on. *)
Definition storage_fields (r : Replica) (a : ReplicaStorageInstance) : Prop :=
  ArName a = RName r ∧ ArUUID a = "" ∧ ArDiskName a = RLvsName r ∧ ArDiskUUID a = RLvsUUID r ∧
  ArSpecSize a = RSpecSize r ∧ ArActualSize a = RActualSize r.
Definition same_entries (rs : gmap string Replica) (l : gmap string ReplicaStorageInstance) : Prop :=
  ∀ name, match rs !! name, l !! name with
          | Some r, Some a => storage_fields r a
          | None, None => True
          | _, _ => False
          end.

(** What the caller of the client gets when the SPDK service answers so. *)
Definition got {X A} (fields : X → A → Prop) (answer : res X) (r : option (res A)) : Prop :=
  match answer with
  | Ok x => ∃ a, r = Some (Ok a) ∧ fields x a
  | Err _ => ∃ e, r = Some (Err e) ∧ status_code e = Internal
  end.
Definition delivers {X} (m : disk_method X) : disk_answer m → option (res (api_type m)) → Prop :=
  match m in disk_method X return disk_answer m → option (res (api_type m)) → Prop with
  | MDiskCreate _ | MDiskGet => got disk_fields
  | MDiskHealthGet => got health_fields
  | MReplicaList => got same_entries
  | MMetricsGet => got metrics_fields
  | MDiskDelete => λ answer r,
      match answer with
      | None => r = Some (Ok tt)
      | Some e => ∃ e', r = Some (Err e') ∧ status_code e' = status_code e
      end
  | MReplicaDelete _ => λ answer r,
      match answer with
      | None => r = Some (Ok tt)
      | Some _ => ∃ e', r = Some (Err e') ∧ status_code e' = Internal
      end
  end.

(** What a request that passes the checks of the client comes to on a block disk. *)
Lemma disk_delivers {X} (m : disk_method X) addr q (o : ∀ X, callE X → X) :
  args_ok m q → DqType q = DiskType_block →
  let s := {| spdkClient := Some addr |} in
  delivers m (o _ (SPDK addr (disk_call m q)))
    (eval o (interp (disk_link s) (request_as id (DiskRpc m q) (api_object m)))).1.
Proof.
  intros Ha Ht s. unfold request_as.
  rewrite eval_interp_bind, eval_bind, eval_interp_call. unfold disk_link.
  destruct m, Ha as [Hn Ha]; simpl;
    unfold DiskCreate, DiskDelete, DiskGet, DiskHealthGet, DiskReplicaInstanceList,
      DiskReplicaInstanceDelete, MetricsGet, required, is_empty;
    rewrite !bool_decide_false by naive_solver; rewrite Ht; simpl;
    match goal with |- context [o ?T (SPDK ?a ?e)] => destruct (o T (SPDK a e)) as [x|] end;
    simpl; eauto; try (eexists; split; [reflexivity|]); try reflexivity;
    try (by split_and!); try apply FromError_code.
  intros name. rewrite !lookup_fmap. by destruct (x !! name).
Qed.

(** C38: the disk client, the server and the SPDK service behind it agree. A
    method makes at most one request: the client refuses what lacks an argument
    without one. So the server never refuses a request for a missing argument:
    for a disk that is not a block disk the caller gets [Unimplemented], and for
    a block disk what the one call to the SPDK service answers, every field of
    the API object being that of the service's, and its error, as [Internal]
    except for the deletion of a disk; with SPDK disabled the server panics. A
    type that does not exist is refused by the client too, but not by the three
    methods that delete or list: the server is asked about a filesystem disk. *)
Theorem disk_client_correct {X} (s : DiskServer) (m : disk_method X) (a : disk_args)
    (o : ∀ X, callE X → X) :
  let q := disk_message m a in
  let r := (eval o (interp (disk_link s) (disk_client m a))).1 in
  let known := is_Some (DiskType_value (DaType a)) in
  (¬ args_ok m q ∨ checks_type m = true ∧ ¬ known →
     ∃ msg, ∀ o', eval o' (disk_client m a) = (Some (Err (EPlain msg)), [])) ∧
  (args_ok m q → checks_type m = false ∨ known →
     (∀ o', (eval o' (disk_client m a)).2 = [log (DiskRpc m q)]) ∧
     (DqType q ≠ DiskType_block → ∃ msg, r = Some (Err (EStatus Unimplemented msg))) ∧
     (DqType q = DiskType_block →
        match spdkClient s with
        | None => r = None
        | Some addr => delivers m (o _ (SPDK addr (disk_call m q))) r
        end)) ∧
  (args_ok m q → checks_type m = false → ¬ known → DqType q = DiskType_filesystem).
Proof.
  intros q r known. destruct (disk_client_shape m a) as [Hok Hno]. fold q in Hok, Hno.
  assert (known ∨ DiskType_value (DaType a) = None) as Hk
    by (unfold known; destruct (DiskType_value _); eauto).
  split_and!.
  - intros H. destruct Hno as [msg ->]; [|by exists msg]. naive_solver.
  - intros Ha Ht. unfold r.
    rewrite Hok; [|done|intros Hc; destruct Ht; [congruence|done]]. split_and!.
    + intros o'. unfold request_as. by rewrite eval_bind, eval_call.
    + intros Hb. pose proof (required_cases s m q) as Hr. rewrite decide_True in Hr by done.
      destruct Hr as [block Hr]. unfold request_as.
      rewrite eval_interp_bind, eval_bind, eval_interp_call. unfold disk_link.
      rewrite Hr, disk_ops_other by done. by eexists.
    + intros Hb. destruct s as [[addr|]]; simpl; [by apply disk_delivers|].
      unfold request_as. simpl. by rewrite !eval_bind, disk_serve_disabled.
  - intros _ _ Hn. destruct Hk as [|Hk]; [done|]. unfold q, disk_message, disk_type. simpl.
    by rewrite Hk.
Qed.

(** A replica on a block disk, and an unknown type of disk. *)
Definition lists_replica (X : Type) (q : callE X) : X :=
  match q in callE X return X with
  | SPDK addr q =>
      match q in spdkE X return X with
      | ReplicaList => Ok {["vol-r-1" := some_replica]}
      | q => no_disk _ (SPDK addr q)
      end
  | q => no_disk _ q
  end.
Definition a_disk (type : string) : disk_args :=
  {| DaType := type; DaName := "d"; DaUUID := ""; DaPath := ""; DaDriver := "" |}.

Theorem disk_client_correct_witness :
  (∃ msg, ∀ o', eval o' (disk_client MDiskGet (a_disk "tape")) = (Some (Err (EPlain msg)), [])) ∧
  (∃ msg, (eval no_disk (interp (disk_link {| spdkClient := Some "a" |})
      (disk_client MDiskDelete (a_disk "tape")))).1 = Some (Err (EStatus Unimplemented msg))) ∧
  ∃ l, (eval lists_replica (interp (disk_link {| spdkClient := Some "a" |})
      (disk_client MReplicaList (a_disk "block")))).1 = Some (Ok l) ∧
    same_entries {["vol-r-1" := some_replica]} l.
Proof.
  pose proof (disk_client_correct {| spdkClient := None |} MDiskGet (a_disk "tape") no_disk)
    as (H1 & _ & _).
  pose proof (disk_client_correct {| spdkClient := Some "a" |} MDiskDelete (a_disk "tape") no_disk)
    as (_ & H2 & _).
  pose proof (disk_client_correct {| spdkClient := Some "a" |} MReplicaList (a_disk "block")
    lists_replica) as (_ & H3 & _).
  split_and!.
  - apply H1. right. split; [done|]. by intros [? ?].
  - destruct H2 as (_ & H2 & _); [done|by left|]. by apply H2.
  - destruct H3 as (_ & _ & H3); [done|by left|]. exact (H3 eq_refl).
Defined.
