(* ===== verification/ProxyProps.v ===== *)
(** * Properties of backups through the proxy

    Connections, where the requests of the V2 engine go, the guard on the
    environment, the choice of the replica that is asked for a backup, and what
    the caller learns of a restoration. *)
From S2P Require Import Prelude GoStrings Sched Process Calls ProxyEnv Messages Services Proxy ProxyBackup.

#[local] Open Scope Z_scope.

(** ** All the methods *)

Inductive backup_request : Type → Type :=
  | QCleanup : backup_request unit
  | QBackup (req : SnapshotBackupRequest) : backup_request BackupCreated
  | QStatus (req : BackupStatusRequest) : backup_request BackupStatus
  | QRestore (req : BackupRestoreRequest) : backup_request string
  | QRestoreStatus (req : ProxyEngineRequest) : backup_request RestoreStatuses
  | QReplicaList (req : ProxyEngineRequest) : backup_request (list ControllerReplica).

Definition proxy_serve {X} (q : backup_request X) : handler X :=
  match q in backup_request X return handler X with
  | QCleanup => CleanupBackupMountPoints
  | QBackup req => SnapshotBackup req
  | QStatus req => SnapshotBackupStatus req
  | QRestore req => BackupRestore req
  | QRestoreStatus req => BackupRestoreStatus req
  | QReplicaList req => Proxy_ReplicaList req
  end.

Definition proxy_request {X} (q : backup_request X) : option ProxyEngineRequest :=
  match q with
  | QCleanup => None
  | QBackup req => Some (SbRequest req)
  | QStatus req => Some (StRequest req)
  | QRestore req => Some (ReRequest req)
  | QRestoreStatus req | QReplicaList req => Some req
  end.

(** ** Connections *)

Lemma keeps_set_all c envs : keeps c (lift (λ X e, Local (OS e)) (set_all envs)).
Proof.
  induction envs as [|env envs IH]; [apply keeps_pure|]. cbn [set_all].
  destruct (cut EQ env) as [[k v]|]; [|apply keeps_pure].
  intros cs Hc. simpl. intros [e|]; [done|]. by apply IH.
Qed.

Lemma keeps_with_credential {B} c envs target (k : gmap string string → handler B) :
  (∀ cr, keeps c (k cr)) → keeps c (with_credential envs target k).
Proof.
  intros Hk. unfold with_credential. apply keeps_bind.
  { unfold setEnv. destruct (validateBackupEnv envs); [apply keeps_pure|apply keeps_set_all]. }
  intros [e|]; [apply keeps_pure|]. apply keeps_bind; [by apply keeps_plain|].
  intros [cr|e]; [done|apply keeps_pure].
Qed.

Lemma keeps_fetch c backup addr : keeps (Some c) (FetchBackupStatus c backup addr).
Proof. unfold FetchBackupStatus. solve_keeps. Qed.

Lemma keeps_find c volume backup rs : keeps c (find_replica volume backup rs).
Proof.
  induction rs as [|r rs IH]; [apply keeps_pure|]. cbn [find_replica].
  destruct (negb (is_RW r)); [done|].
  eapply keeps_scope; [done..| |done|].
  { intros cs Hcs. simpl. split; [done|]. intros x. split; [by eexists|done]. }
  intros [s|e]; [apply keeps_pure|done].
Qed.

Lemma keeps_loop addr backup engine first nf rs :
  keeps (Some (SPDKService, addr)) (v2_status_loop addr backup engine first nf rs).
Proof.
  revert first nf. induction rs as [|r rs IH]; intros first nf; [apply keeps_pure|].
  cbn [v2_status_loop]. apply keeps_bind; [by apply keeps_use|].
  intros [[s|]|e]; [apply keeps_pure|..]; case_decide; apply IH.
Qed.

Lemma keeps_V1_ReplicaList c req : keeps c (V1_ReplicaList req).
Proof.
  apply keeps_with_controller, keeps_try; [by apply keeps_use|]. intros. apply keeps_pure.
Qed.

Ltac proxy_step :=
  first [ apply keeps_dispatch | apply keeps_with_spdk_at | apply keeps_with_controller
        | apply keeps_with_credential | apply keeps_find | apply keeps_loop | apply keeps_try
        | apply keeps_V1_ReplicaList
        | eapply with_client_keeps'; [reflexivity|reflexivity|]
        | apply keeps_fetch | keeps_step ].

Ltac unfold_proxy :=
  unfold CleanupBackupMountPoints, SnapshotBackup, V1_SnapshotBackup, V2_SnapshotBackup,
    SnapshotBackupStatus, V1_SnapshotBackupStatus, V2_SnapshotBackupStatus,
    getV2BackupStatusFromReplicas, BackupRestore, V1_BackupRestore, V2_BackupRestore,
    BackupRestoreStatus, V1_BackupRestoreStatus, V2_BackupRestoreStatus, Proxy_ReplicaList,
    V2_ReplicaList.

Lemma backup_tidy X (q : backup_request X) : tidy (proxy_serve q).
Proof. destruct q; unfold proxy_serve, tidy; unfold_proxy; repeat proxy_step. Qed.

(** ** Where the requests of the V2 engine go *)

(** The SPDK service of the host of an address. *)
Definition spdk_service_of (host : string) : string := JoinHostPort host "8504".

(** The call concerns the SPDK service at [addr], or no other process. *)
Definition only_spdk_at (addr : string) (X : Type) (e : callE X) : Prop :=
  match e with
  | Dial c | Hangup c => c = (SPDKService, addr)
  | SPDK a _ => a = addr
  | PM _ _ | Eng _ _ => False
  | Local (NewTask _) | Local (OnTask _ _) | Local (GetSnapshotsInfo _ _) => False
  | _ => True
  end.

Lemma calls_with_spdk_err {B} host port on_error address (body : string → handler B) :
  SplitHostPort address = Ok (host, port) →
  calls_only (only_spdk_at (spdk_service_of host)) (body (spdk_service_of host)) →
  calls_only (only_spdk_at (spdk_service_of host)) (with_spdk_err on_error address body).
Proof. intros Ha Hb. unfold with_spdk_err. rewrite Ha. by apply calls_with_client. Qed.

Lemma calls_loop addr backup engine first nf rs :
  calls_only (only_spdk_at addr) (v2_status_loop addr backup engine first nf rs).
Proof.
  revert first nf. induction rs as [|r rs IH]; intros first nf; [done|]. cbn [v2_status_loop].
  apply calls_bind; [by apply calls_call|]. intros [[s|]|e]; [done|..]; case_decide; apply IH.
Qed.

Lemma calls_with_credential {B} addr envs target (k : gmap string string → handler B) :
  (∀ cr, calls_only (only_spdk_at addr) (k cr)) →
  calls_only (only_spdk_at addr) (with_credential envs target k).
Proof.
  intros Hk. unfold with_credential. apply calls_bind.
  - unfold setEnv. destruct (validateBackupEnv envs); [done|].
    induction envs as [|env envs IH]; [done|]. cbn [set_all].
    destruct (cut EQ env) as [[a v]|]; [|done]. split; [done|]. by intros [e|].
  - intros [e|]; [done|]. apply calls_bind; [by apply calls_call|]. by intros [cr|e].
Qed.

Lemma backup_on_host X (q : backup_request X) (req : ProxyEngineRequest)
    (host port : string) :
  proxy_request q = Some req → PqDataEngine req = DATA_ENGINE_V2 →
  SplitHostPort (PqAddress req) = Ok (host, port) →
  calls_only (only_spdk_at (spdk_service_of host)) (proxy_serve q).
Proof.
  intros Hq He Ha.
  destruct q; simpl in Hq; try done; injection Hq as Hq; unfold proxy_serve; unfold_proxy;
    try apply calls_with_credential; intros; rewrite Hq, He, dispatch_v2;
    try (eapply calls_bind; [|by intros]; cbn beta; unfold V2_BackupRestore;
         eapply calls_bind; [|by intros; solve_calls]);
    (eapply calls_with_spdk_err; [by rewrite ?Hq|]).
  all: repeat first [apply calls_loop | calls_step].
Qed.

Definition v2_engine : ProxyEngineRequest :=
  {| PqAddress := "[fd00::1]:20001"; PqEngineName := "vol-e-0"; PqVolumeName := "vol";
     PqDataEngine := DATA_ENGINE_V2; PqEngineFrontendName := "vol-ef-0" |}.

(** ** The environment of a request *)

(** No request gets past a bad environment. If any of its entries is
    malformed or not on the allow list, backing up and restoring make no call,
    so that neither the environment is touched nor the engine asked, and the
    caller gets [Internal]. *)
Theorem bad_env_makes_no_call (envs : list string) (b : SnapshotBackupRequest)
    (r : BackupRestoreRequest) (o : ∀ X, callE X → X) :
  ¬ Forall permitted envs → SbEnvs b = envs → ReEnvs r = envs →
  ∃ msg,
    eval o (SnapshotBackup b) = (Some (fail (EStatus Internal msg)), []) ∧
    eval o (BackupRestore r) = (Some (fail (EStatus Internal msg)), []).
Proof.
  intros Hn Hb Hr. destruct (validateBackupEnv envs) as [e|] eqn:Hv.
  - exists (error_string (EWrap "failed to set envs" e)).
    unfold SnapshotBackup, BackupRestore, with_credential, setEnv. by rewrite Hb, Hr, Hv.
  - by apply validate_permitted in Hv.
Qed.

Definition preload_backup : SnapshotBackupRequest :=
  {| SbRequest := v2_engine; SbEnvs := ["LD_PRELOAD=/tmp/a.so"]; SbBackup := "b";
     SbSnapshot := "s"; SbTarget := "s3://b@r/"; SbStorageClass := ""; SbBackingImage := "";
     SbBackingImageChecksum := ""; SbCompression := "lz4"; SbLimit := 1; SbLabels := ∅;
     SbParameters := ∅ |}.
Definition preload_restore : BackupRestoreRequest :=
  {| ReRequest := v2_engine; ReEnvs := ["LD_PRELOAD=/tmp/a.so"]; ReUrl := "s3://b@r/";
     ReTarget := "s3://b@r/"; ReLimit := 1; ReNeedCorrect := false;
     ReVolumeName := "vol" |}.

Theorem bad_env_makes_no_call_witness :
  ∃ msg, eval (empty_services None) (SnapshotBackup preload_backup) =
    (Some (fail (EStatus Internal msg)), []).
Proof.
  destruct (bad_env_makes_no_call ["LD_PRELOAD=/tmp/a.so"] preload_backup preload_restore
    (empty_services None)) as (msg & H & _); [|done|done|by exists msg].
  rewrite <- validate_permitted. vm_compute. discriminate.
Defined.

(** ** The replica that is asked, V1 *)

(** A replica that the search would ask: it is RW and can be dialled. *)
Definition reachable_RW (o : ∀ X, callE X → X) (volume : string) (r : ControllerReplica) : bool :=
  is_RW r &&
  match o _ (Dial (replica_conn volume (CrInstanceName r) (CrAddress r))) with
  | Ok _ => true
  | Err _ => false
  end.

(** The search of the V1 engine for the replica that has a backup does not
    look for the backup. Whatever the replicas answer about it, the search takes
    the first replica that is RW and can be dialled, for every backup name, and
    fails only when there is none: [FetchBackupStatus] turns a failed request
    into a status and never returns an error, so the check on its error is
    dead. *)
Theorem v1_search_ignores_backup (o : ∀ X, callE X → X) (volume backup : string)
    (rs : list ControllerReplica) :
  (eval o (find_replica volume backup rs)).1 =
    Some (match List.find (reachable_RW o volume) rs with
          | Some r => CrAddress r
          | None => ""
          end).
Proof.
  induction rs as [|r rs IH]; [done|]. cbn [find_replica List.find].
  unfold reachable_RW at 1. destruct (is_RW r); [|done]. cbn [negb andb].
  rewrite result_bind, eval_call. cbn [mbind option_bind fst].
  destruct (o _ (Dial _)) as [u|e]; [|done].
  unfold FetchBackupStatus. rewrite !result_bind, eval_call. done.
Qed.

(** The replicas of an engine, of which only the second has the backup "b". *)
Definition two_replicas (X : Type) (e : callE X) : X :=
  match e in callE X return X with
  | Eng c q =>
      match q in engineE X return X with
      | ControllerReplicaList => Ok [("tcp://r1:10000", "RW"); ("tcp://r2:10000", "RW")]
      | ReplicaBackupStatus _ =>
          if bool_decide (c.2 = "tcp://r2:10000") then
            Ok {| BsUrl := "s3://b"; BsError := ""; BsProgress := 100; BsSnapshot := "s";
                  BsState := "complete"; BsReplica := "" |}
          else Err (EStatus NotFound "no backup b")
      | q => empty_services None _ (Eng c q)
      end
  | e => empty_services None _ e
  end.

Definition v1_status_of (replica : string) : BackupStatusRequest :=
  {| StRequest := {| PqAddress := "e:10001"; PqEngineName := "vol-e-0"; PqVolumeName := "vol";
                     PqDataEngine := DATA_ENGINE_V1; PqEngineFrontendName := "" |};
     StBackup := "b"; StReplicaAddress := replica; StReplicaName := "" |}.

(** A finished backup can be reported as failed. With two RW replicas of
    which the second has the backup and the first does not know it, the status
    without a replica address is that of the first, an error with no state,
    although asking the second gives the finished backup. *)
Theorem v1_status_of_wrong_replica :
  (∃ s, (eval two_replicas (SnapshotBackupStatus (v1_status_of ""))).1 = Some (ok s) ∧
        BsReplica s = "tcp://r1:10000" ∧ BsState s = "" ∧ BsError s ≠ "") ∧
  (∃ s, (eval two_replicas (SnapshotBackupStatus (v1_status_of "tcp://r2:10000"))).1 = Some (ok s)
        ∧ BsState s = "complete" ∧ BsProgress s = 100 ∧ BsError s = "").
Proof. split; eexists; (split; [vm_compute; reflexivity|]); repeat split; discriminate. Qed.

(** ** The replica that is asked, V2 *)

Section v2_search.
Context (o : ∀ X, callE X → X) (addr backup engine : string).

(** What the replica at an address answers: a status, or an error. *)
Definition ask (replica : string) : BackupStatus + error :=
  match o _ (SPDK addr (EngineBackupStatus backup engine replica)) with
  | Ok (Some s) => inl s
  | Ok None => inr (EPlain ("received an empty backup status from replica " +:+ replica))
  | Err e => inr e
  end.
Definition ask_log (replica : string) : logged callE :=
  log (SPDK addr (EngineBackupStatus backup engine replica)).

Definition not_found (e : error) : bool := bool_decide (status_code e = NotFound).

(** The error of the whole search: the first that is not [NotFound], else the
    last. *)
Definition search_error (es : list error) : option error :=
  match List.find (λ e, negb (not_found e)) es with
  | Some e => Some e
  | None => last es
  end.

(** One turn of the loop. *)
Lemma loop_step r rs first nf :
  eval o (v2_status_loop addr backup engine first nf (r :: rs)) =
    match ask r with
    | inl s => (Some (Some s, r, None), [ask_log r])
    | inr e =>
        let rest :=
          if not_found e then v2_status_loop addr backup engine first (Some e) rs
          else v2_status_loop addr backup engine
                 (match first with Some _ => first | None => Some e end) nf rs in
        ((eval o rest).1, ask_log r :: (eval o rest).2)
    end.
Proof.
  cbn [v2_status_loop]. rewrite eval_bind, eval_call. unfold ask, not_found.
  destruct (o _ _) as [[s|]|e]; [done|..];
    match goal with |- context [decide ?P] => destruct (decide P) as [H|H] end;
    [rewrite bool_decide_true by done|rewrite bool_decide_false by done
    |rewrite bool_decide_true by done|rewrite bool_decide_false by done]; done.
Qed.

Lemma loop_found (rs1 : list string) r rs2 first nf (es : list error) s :
  ask <$> rs1 = inr <$> es → ask r = inl s →
  eval o (v2_status_loop addr backup engine first nf (rs1 ++ r :: rs2)) =
    (Some (Some s, r, None), List.map ask_log (rs1 ++ [r])).
Proof.
  intros Hes Hr. revert first nf es Hes. induction rs1 as [|r1 rs1 IH]; intros first nf es Hes.
  - cbn [app]. by rewrite loop_step, Hr.
  - destruct es as [|e es]; [done|]. injection Hes as He Hes.
    cbn [app]. rewrite loop_step, He. destruct (not_found e); cbv zeta iota; by rewrite (IH _ _ es).
Qed.

Lemma loop_none (rs : list string) first nf (es : list error) :
  ask <$> rs = inr <$> es →
  eval o (v2_status_loop addr backup engine first nf rs) =
    (Some (None, "",
       match first with
       | Some _ => first
       | None =>
           match List.find (λ e, negb (not_found e)) es with
           | Some e => Some e
           | None => match last es with Some e => Some e | None => nf end
           end
       end), List.map ask_log rs).
Proof.
  revert first nf es. induction rs as [|r rs IH]; intros first nf [|e es] Hes; try done.
  injection Hes as He Hes. rewrite loop_step, He. cbn [List.find List.map].
  destruct (not_found e); cbv zeta iota; rewrite (IH _ _ es Hes); simpl; [|by destruct first].
  destruct first; [done|]. destruct (List.find _ es); [done|].
  rewrite (last_cons e es). by destruct (last es).
Qed.
End v2_search.

(** C30: the search of the V2 engine. It asks the replicas in order until one
    gives a status, and returns that status with that replica's address; the
    replicas before it, whatever their errors, do not matter and those after it
    are not asked. When none gives a status it returns the first error that is
    not [NotFound], or else the last [NotFound], or no error for no replica. *)
Theorem v2_search_correct (o : ∀ X, callE X → X) (addr backup engine : string)
    (rs : list string) :
  (∀ rs1 r rs2 es s, rs = rs1 ++ r :: rs2 →
     ask o addr backup engine <$> rs1 = inr <$> es → ask o addr backup engine r = inl s →
     eval o (getV2BackupStatusFromReplicas addr backup engine rs) =
       (Some (Some s, r, None), List.map (ask_log addr backup engine) (rs1 ++ [r]))) ∧
  (∀ es, ask o addr backup engine <$> rs = inr <$> es →
     eval o (getV2BackupStatusFromReplicas addr backup engine rs) =
       (Some (None, "", search_error es), List.map (ask_log addr backup engine) rs)).
Proof.
  unfold getV2BackupStatusFromReplicas. split.
  - intros rs1 r rs2 es s -> H1 H2. by eapply loop_found.
  - intros es H. rewrite (loop_none _ _ _ _ _ _ _ es) by done. unfold search_error.
    by repeat case_match.
Qed.

(** The second of three replicas has the backup. *)
Definition some_replicas (X : Type) (e : callE X) : X :=
  match e in callE X return X with
  | SPDK a q =>
      match q in spdkE X return X with
      | EngineBackupStatus _ _ replica =>
          if bool_decide (replica = "r2:1") then
            Ok (Some {| BsUrl := ""; BsError := ""; BsProgress := 5; BsSnapshot := "s";
                        BsState := "in_progress"; BsReplica := "" |})
          else Err (EStatus Unavailable "gone")
      | q => empty_services None _ (SPDK a q)
      end
  | e => empty_services None _ e
  end.

Theorem v2_search_correct_witness :
  (∃ s, eval some_replicas (getV2BackupStatusFromReplicas "a" "b" "e" ["r1:1"; "r2:1"; "r3:1"]) =
    (Some (Some s, "r2:1", None), List.map (ask_log "a" "b" "e") ["r1:1"; "r2:1"])) ∧
  eval some_replicas (getV2BackupStatusFromReplicas "a" "b" "e" ["r1:1"]) =
    (Some (None, "", Some (EStatus Unavailable "gone")), List.map (ask_log "a" "b" "e") ["r1:1"]).
Proof.
  split.
  - eexists. by apply (proj1 (v2_search_correct some_replicas "a" "b" "e" ["r1:1"; "r2:1"; "r3:1"])
      ["r1:1"] "r2:1" ["r3:1"] [EStatus Unavailable "gone"]).
  - by apply (proj2 (v2_search_correct some_replicas "a" "b" "e" ["r1:1"])
      [EStatus Unavailable "gone"]).
Defined.

(** The replicas the V2 search goes through are exactly the ones that are RW
    and have an address, once each, in the order of their names, whatever the
    order of the maps. *)
Theorem findV2BackupReplicaAddresses_correct (modes addresses : gmap string string) :
  ∃ names,
    findV2BackupReplicaAddresses modes addresses = (λ n, addresses !!! n) <$> names ∧
    StronglySorted String.le names ∧ NoDup names ∧
    ∀ n, n ∈ names ↔ modes !! n = Some "RW" ∧ ∃ a, addresses !! n = Some a ∧ a ≠ "".
Proof.
  set (good n := modes !! n = Some "RW" ∧ default "" (addresses !! n) ≠ "").
  exists (filter good (sort_strings (map_to_list modes).*1)). split_and!.
  - unfold findV2BackupReplicaAddresses.
    induction (sort_strings _) as [|n ns IH]; [done|]. rewrite filter_cons. cbn [omap list_omap].
    unfold good in *. case_bool_decide as Hm; [|rewrite decide_False by naive_solver; done].
    destruct (addresses !! n) as [a|] eqn:Ha; simpl.
    + case_bool_decide; [by rewrite decide_False by naive_solver|].
      rewrite decide_True by done. simpl. rewrite lookup_total_alt, Ha. simpl. by f_equal.
    + by rewrite decide_False by naive_solver.
  - apply StronglySorted_filter, (StronglySorted_merge_sort _).
  - apply NoDup_filter. unfold sort_strings. rewrite (merge_sort_Permutation _ _). apply NoDup_fst_map_to_list.
  - intros n. rewrite list_elem_of_filter. unfold sort_strings, good.
    rewrite (merge_sort_Permutation _ _), list_elem_of_fmap.
    destruct (addresses !! n) as [a|]; simpl.
    + split; [naive_solver|]. intros (H & ? & [= <-] & ?). split; [done|].
      exists (n, "RW"). by rewrite elem_of_map_to_list.
    + naive_solver.
Qed.

(** ** Restoring *)

(** The environment of the request is accepted, its variables are set, and the
    credential read. *)
Lemma eval_set_all (o : ∀ X, callE X → X) envs :
  (∀ k v, o _ (Local (OS (Setenv k v))) = None) → Forall permitted envs →
  (eval o (lift (λ X e, Local (OS e)) (setEnv envs))).1 = Some None.
Proof.
  intros Ho Hp. unfold setEnv. rewrite (proj2 (validate_permitted envs) Hp).
  induction Hp as [|env envs (k & v & Hc & _) _ IH]; [done|].
  cbn [set_all]. rewrite Hc. cbn. rewrite Ho. simpl.
  by destruct (eval o (lift _ (set_all envs))).
Qed.

(** What the engine is asked to restore, and its answer. *)
Definition restore_answer (o : ∀ X, callE X → X) (req : BackupRestoreRequest)
    (credential : gmap string string) : option task_error :=
  match (eval o (if bool_decide (PqDataEngine (ReRequest req) = DATA_ENGINE_V1)
                 then V1_BackupRestore req credential
                 else V2_BackupRestore req credential)).1 with
  | Some r => r
  | None => None
  end.

(** An error whose JSON form and message are there and not empty. *)
Definition reportable (r : task_error) : Prop :=
  r.2 ≠ None ∧ r.2 ≠ Some "" ∧ error_string r.1 ≠ "".

(** What the caller learns of a restoration. Once the environment is set and
    the credential read, the method succeeds for both engines whatever the
    engine answers; its error is in the response, which is empty exactly when
    the restoration was accepted, provided the errors have a JSON form. An error
    that cannot be put in JSON is reported as none. *)
Theorem BackupRestore_reports (o : ∀ X, callE X → X) (req : BackupRestoreRequest)
    (credential : gmap string string) :
  (∀ k v, o _ (Local (OS (Setenv k v))) = None) → Forall permitted (ReEnvs req) →
  o _ (Local (GetBackupCredential (ReTarget req))) = Ok credential →
  PqDataEngine (ReRequest req) = DATA_ENGINE_V1 ∨ PqDataEngine (ReRequest req) = DATA_ENGINE_V2 →
  let r := restore_answer o req credential in
  (eval o (BackupRestore req)).1 = Some (ok (task_error_bytes r)) ∧
  ((∀ e, r = Some e → reportable e) → (task_error_bytes r = "" ↔ r = None)) ∧
  (∀ e, r = Some (e, None) → task_error_bytes r = "").
Proof.
  intros Ho Hp Hc He r. split_and!.
  - unfold BackupRestore, with_credential.
    rewrite (result_step _ _ _ _ (eval_set_all o _ Ho Hp)).
    rewrite result_bind, eval_call. cbn [mbind option_bind fst]. rewrite Hc.
    unfold r, restore_answer. destruct He as [->| ->]; rewrite ?dispatch_v1, ?dispatch_v2;
      cbn [bool_decide]; rewrite result_bind.
    + rewrite bool_decide_true by done. unfold V1_BackupRestore.
      rewrite result_bind, eval_call. cbn [mbind option_bind fst].
      by destruct (o _ (Local (NewTask _))).
    + rewrite bool_decide_false by done. unfold V2_BackupRestore, with_spdk_at, with_spdk_err.
      destruct (SplitHostPort _) as [[host port]|]; [|done]. rewrite result_bind, eval_with_client.
      by destruct (o _ (Dial _)).
  - intros Hr. unfold task_error_bytes. destruct r as [[e json]|]; [|done].
    split; [|done]. destruct (Hr _ eq_refl) as (H1 & H2 & H3). simpl in *.
    destruct json as [j|]; [|done]. simpl. case_bool_decide; intros Hx; [by apply H3 in Hx|by rewrite Hx in H2].
  - by intros e ->.
Qed.

Definition v1_restore : BackupRestoreRequest :=
  {| ReRequest := StRequest (v1_status_of ""); ReEnvs := ["AWS_CERT=x"]; ReUrl := "s3://b@r/";
     ReTarget := "s3://b@r/"; ReLimit := 1; ReNeedCorrect := false;
     ReVolumeName := "vol" |}.

Theorem BackupRestore_reports_witness :
  (eval (empty_services None) (BackupRestore v1_restore)).1 = Some (ok "").
Proof.
  pose proof (BackupRestore_reports (empty_services None) v1_restore ∅) as H.
  simpl in H. destruct H as [H _]; [done|by apply validate_permitted|done|by left|]. done.
Defined.

(** The status of a V2 restoration. The response has, under [tcp://] and its
    address, the converted status of each replica, and no others; the error of
    the engine is passed on. *)
Theorem convertRestoreStatus_correct (r : SpdkRestoreStatuses) (url : string) :
  RtEngineError (convertRestoreStatusToProxyResponse r) = SrEngineError r ∧
  RtStatus (convertRestoreStatusToProxyResponse r) !! url =
    match strip_prefix "tcp://" url with
    | Some address => convert_status <$> SrStatus r !! address
    | None => None
    end.
Proof.
  split; [done|]. unfold convertRestoreStatusToProxyResponse. cbn [RtStatus].
  induction (SrStatus r) as [|k v m Hk Hfirst IH] using map_first_key_ind.
  { rewrite map_fold_empty. by destruct (strip_prefix "tcp://" url); rewrite ?lookup_empty. }
  rewrite map_fold_insert_first_key by done.
  destruct (decide (url = "tcp://" +:+ k)) as [->|Hne].
  - by rewrite lookup_insert_eq, strip_prefix_app, lookup_insert_eq.
  - rewrite lookup_insert_ne, IH by done.
    destruct (strip_prefix "tcp://" url) as [a|] eqn:Ha; [|done].
    apply strip_prefix_spec in Ha. rewrite lookup_insert_ne; [done|]. by intros ->.
Qed.
