(* ===== verification/ProxyServer.v ===== *)
(** * The proxy server

    All the methods of the proxy that forward a request to an engine, as one
    server: it closes every connection it opens, and sends a request only to the
    services of its data engine. *)
From S2P Require Import Prelude GoStrings Sched Process Calls ProxyEnv Messages Services Proxy ProxyBackup ProxyVolume ProxySnapshot ProxyReplica ProxyProps InstanceWatch.

#[local] Open Scope Z_scope.

Inductive proxy_method : Type → Type :=
  | MVersion (req : ProxyEngineRequest) : proxy_method VersionOutput
  | MBackup {X} (q : backup_request X) : proxy_method X
  | MMetricsGet (req : ProxyEngineRequest) : proxy_method Metrics
  | MVolumeGet (req : ProxyEngineRequest) : proxy_method Volume
  | MVolumeExpand (req : ProxyEngineRequest) (size : Z) : proxy_method unit
  | MVolumeFrontendStart (req : ProxyEngineRequest) (frontend : string) : proxy_method unit
  | MVolumeFrontendShutdown (req : ProxyEngineRequest) : proxy_method unit
  | MVolumeUnmapMarkSnapChainRemovedSet (req : ProxyEngineRequest) (enabled : bool) :
      proxy_method unit
  | MVolumeSnapshotMaxCountSet (req : ProxyEngineRequest) (count : Z) : proxy_method unit
  | MVolumeSnapshotMaxSizeSet (req : ProxyEngineRequest) (size : Z) : proxy_method unit
  | MVolumeSnapshot (req : ProxyEngineRequest) (name : string) (labels : gmap string string)
      (freeze : bool) : proxy_method string
  | MSnapshotList (req : ProxyEngineRequest) : proxy_method (gmap string SnapshotDisk)
  | MSnapshotClone (req : SnapshotCloneRequest) : proxy_method unit
  | MSnapshotCloneStatus (req : ProxyEngineRequest) : proxy_method (gmap string CloneStatus)
  | MSnapshotRevert (req : ProxyEngineRequest) (name : string) : proxy_method unit
  | MSnapshotPurge (req : ProxyEngineRequest) (skip : bool) : proxy_method unit
  | MSnapshotPurgeStatus (req : ProxyEngineRequest) : proxy_method (gmap string PurgeStatus)
  | MSnapshotRemove (req : ProxyEngineRequest) (names : list string) : proxy_method unit
  | MSnapshotHash (req : ProxyEngineRequest) (name : string) (rehash : bool) : proxy_method unit
  | MSnapshotHashStatus (req : ProxyEngineRequest) (name : string) :
      proxy_method (gmap string HashStatus)
  | MReplicaAdd (req : ReplicaAddRequest) : proxy_method unit
  | MReplicaRebuildingStatus (req : ProxyEngineRequest) :
      proxy_method (gmap string RebuildStatus)
  | MReplicaRebuildingQosSet (req : ProxyEngineRequest) (limit : Z) : proxy_method unit
  | MReplicaVerifyRebuild (req : ProxyEngineRequest) (address name : string) : proxy_method unit
  | MReplicaRemove (req : ProxyEngineRequest) (name address : string) : proxy_method unit
  | MReplicaModeUpdate (req : ProxyEngineRequest) (address : string) (mode : Z) :
      proxy_method unit
  | MReplicaRebuildConcurrentSyncLimitSet (req : ProxyEngineRequest) (limit : Z) :
      proxy_method unit
  | MReplicaRebuildConcurrentSyncLimitGet (req : ProxyEngineRequest) : proxy_method Z.

(** The methods about backing images. *)
Inductive image_method : Type → Type :=
  | MImageCreate (name uuid diskUuid : string) (size : Z) (checksum fromAddress srcLvsUuid : string) :
      image_method SPDKBackingImageResponse
  | MImageDelete (name diskUuid : string) : image_method unit
  | MImageGet (name diskUuid : string) : image_method SPDKBackingImageResponse
  | MImageList : image_method (gmap string SPDKBackingImageResponse).

(** The engine request of a method that goes to its data engine. *)
Definition method_request {X} (m : proxy_method X) : option ProxyEngineRequest :=
  match m with
  | MVersion _ => None
  | MBackup q => proxy_request q
  | MMetricsGet req | MVolumeGet req | MVolumeExpand req _ | MVolumeFrontendStart req _
  | MVolumeFrontendShutdown req | MVolumeUnmapMarkSnapChainRemovedSet req _
  | MVolumeSnapshotMaxCountSet req _ | MVolumeSnapshotMaxSizeSet req _
  | MVolumeSnapshot req _ _ _ | MSnapshotList req | MSnapshotCloneStatus req
  | MSnapshotRevert req _ | MSnapshotPurge req _ | MSnapshotPurgeStatus req
  | MSnapshotRemove req _ | MSnapshotHash req _ _ | MSnapshotHashStatus req _
  | MReplicaRebuildingStatus req | MReplicaRebuildingQosSet req _
  | MReplicaVerifyRebuild req _ _ | MReplicaRemove req _ _ | MReplicaModeUpdate req _ _
  | MReplicaRebuildConcurrentSyncLimitSet req _
  | MReplicaRebuildConcurrentSyncLimitGet req => Some req
  | MSnapshotClone req => Some (ScRequest req)
  | MReplicaAdd req => Some (RaRequest req)
  end.

Ltac unfold_server :=
  unfold ServerVersionGet, Proxy_MetricsGet, V1_MetricsGet, V2_MetricsGet,
    VolumeGet, V1_VolumeGet, V2_VolumeGet, VolumeExpand, V1_VolumeExpand, V2_VolumeExpand,
    VolumeFrontendStart, V1_VolumeFrontendStart, V2_VolumeFrontendStart,
    VolumeFrontendShutdown, V1_VolumeFrontendShutdown, V2_VolumeFrontendShutdown,
    VolumeUnmapMarkSnapChainRemovedSet, V1_VolumeUnmapMarkSnapChainRemovedSet,
    V2_VolumeUnmapMarkSnapChainRemovedSet, VolumeSnapshotMaxCountSet,
    V1_VolumeSnapshotMaxCountSet, V2_VolumeSnapshotMaxCountSet, VolumeSnapshotMaxSizeSet,
    V1_VolumeSnapshotMaxSizeSet, V2_VolumeSnapshotMaxSizeSet, VolumeSnapshot, V1_VolumeSnapshot,
    V2_VolumeSnapshot, SnapshotList, V1_SnapshotList, V2_SnapshotList, SnapshotClone,
    V2_SnapshotClone, SnapshotCloneStatus, V1_SnapshotCloneStatus, V2_SnapshotCloneStatus,
    SnapshotRevert, V1_SnapshotRevert, V2_SnapshotRevert, SnapshotPurge, V1_SnapshotPurge,
    V2_SnapshotPurge, SnapshotPurgeStatus, V1_SnapshotPurgeStatus, V2_SnapshotPurgeStatus,
    SnapshotRemove, V1_SnapshotRemove, V2_SnapshotRemove, SnapshotHash, V1_SnapshotHash,
    V2_SnapshotHash, SnapshotHashStatus, V1_SnapshotHashStatus, V2_SnapshotHashStatus,
    ReplicaAdd, V1_ReplicaAdd, V2_ReplicaAdd, ReplicaRebuildingStatus,
    V1_ReplicaRebuildingStatus, V2_ReplicaRebuildingStatus, ReplicaRebuildingQosSet,
    V1_ReplicaRebuildingQosSet, V2_ReplicaRebuildingQosSet, over_replicas,
    ReplicaVerifyRebuild, V1_ReplicaVerifyRebuild, V2_ReplicaVerifyRebuild, ReplicaRemove,
    V1_ReplicaRemove, V2_ReplicaRemove, cancelSnapshotHashesForReplica, ReplicaModeUpdate,
    V1_ReplicaModeUpdate, V2_ReplicaModeUpdate, ReplicaRebuildConcurrentSyncLimitSet,
    V1_ReplicaRebuildConcurrentSyncLimitSet, V2_ReplicaRebuildConcurrentSyncLimitSet,
    ReplicaRebuildConcurrentSyncLimitGet, V1_ReplicaRebuildConcurrentSyncLimitGet,
    V2_ReplicaRebuildConcurrentSyncLimitGet, task_forward, control, unimplemented.

Section server.
(** The address of the local SPDK service, and the order of a range. *)
Context (local : string) (range : gmap string string → list (string * string)).

Definition serve_proxy {X} (m : proxy_method X) : handler X :=
  match m in proxy_method X return handler X with
  | MVersion req => ServerVersionGet req
  | MBackup q => proxy_serve q
  | MMetricsGet req => Proxy_MetricsGet req
  | MVolumeGet req => VolumeGet local req
  | MVolumeExpand req size => VolumeExpand req size
  | MVolumeFrontendStart req frontend => VolumeFrontendStart req frontend
  | MVolumeFrontendShutdown req => VolumeFrontendShutdown req
  | MVolumeUnmapMarkSnapChainRemovedSet req b => VolumeUnmapMarkSnapChainRemovedSet req b
  | MVolumeSnapshotMaxCountSet req count => VolumeSnapshotMaxCountSet req count
  | MVolumeSnapshotMaxSizeSet req size => VolumeSnapshotMaxSizeSet req size
  | MVolumeSnapshot req name labels freeze => VolumeSnapshot req name labels freeze
  | MSnapshotList req => SnapshotList req
  | MSnapshotClone req => SnapshotClone req
  | MSnapshotCloneStatus req => SnapshotCloneStatus range req
  | MSnapshotRevert req name => SnapshotRevert req name
  | MSnapshotPurge req skip => SnapshotPurge req skip
  | MSnapshotPurgeStatus req => SnapshotPurgeStatus req
  | MSnapshotRemove req names => SnapshotRemove req names
  | MSnapshotHash req name rehash => SnapshotHash req name rehash
  | MSnapshotHashStatus req name => SnapshotHashStatus req name
  | MReplicaAdd req => ReplicaAdd req
  | MReplicaRebuildingStatus req => ReplicaRebuildingStatus range req
  | MReplicaRebuildingQosSet req limit => ReplicaRebuildingQosSet range req limit
  | MReplicaVerifyRebuild req address name => ReplicaVerifyRebuild req address name
  | MReplicaRemove req name address => ReplicaRemove req name address
  | MReplicaModeUpdate req address mode => ReplicaModeUpdate req address mode
  | MReplicaRebuildConcurrentSyncLimitSet req limit =>
      ReplicaRebuildConcurrentSyncLimitSet req limit
  | MReplicaRebuildConcurrentSyncLimitGet req => ReplicaRebuildConcurrentSyncLimitGet req
  end.

Definition serve_image {X} (m : image_method X) : handler X :=
  match m in image_method X return handler X with
  | MImageCreate n u d s c f l => SPDKBackingImageCreate local n u d s c f l
  | MImageDelete n d => SPDKBackingImageDelete local n d
  | MImageGet n d => SPDKBackingImageGet local n d
  | MImageList => SPDKBackingImageList local
  end.

(** ** Connections *)

Lemma keeps_clone_loop c addresses modes status reached :
  keeps c (clone_status_loop addresses modes status reached).
Proof.
  revert status reached. induction modes as [|[name mode] modes IH]; intros; [apply keeps_pure|].
  cbn [clone_status_loop]. case_bool_decide; [apply IH|].
  destruct (addresses !! name); [|apply IH].
  apply keeps_spdk_scope; [intros; apply IH|done|].
  intros [[x|]|e] ce; [|apply IH..]. case_bool_decide; apply IH.
Qed.

Lemma keeps_rebuild_loop c addresses modes status :
  keeps c (rebuild_status_loop addresses modes status).
Proof.
  revert status. induction modes as [|[name mode] modes IH]; intros; [apply keeps_pure|].
  cbn [rebuild_status_loop]. destruct (rebuilding_address _ _ _); [|apply IH].
  apply keeps_spdk_scope; [intros; apply keeps_pure|done|].
  intros [x|e] ce; [apply IH|apply keeps_pure].
Qed.

Lemma keeps_qos_loop c addresses limit modes : keeps c (qos_loop addresses limit modes).
Proof.
  induction modes as [|[name mode] modes IH]; intros; [apply keeps_pure|].
  cbn [qos_loop]. destruct (rebuilding_address _ _ _); [|apply IH].
  apply keeps_spdk_scope; [intros; apply IH|done|intros; apply IH].
Qed.

Lemma keeps_remove_loop c delete names lastErr :
  (∀ name, keeps c (delete name)) → keeps c (remove_loop delete names lastErr).
Proof.
  intros Hd. revert lastErr. induction names as [|name names IH]; intros; [apply keeps_pure|].
  cbn [remove_loop]. apply keeps_bind; [done|]. intros. apply IH.
Qed.

Lemma keeps_with_task {B} c req (k : task → handler B) :
  (∀ t, keeps c (k t)) → keeps c (with_task req k).
Proof. intros Hk. apply keeps_try; [by apply keeps_plain|done]. Qed.

(** Both controllers of a clone are open when it is made. *)
Lemma keeps_V1_SnapshotClone c req : keeps c (V1_SnapshotClone req).
Proof.
  unfold V1_SnapshotClone. eapply with_client_keeps; [reflexivity|reflexivity|].
  intros cs Hfrom. unfold with_controller, with_client. eapply disc_open; [reflexivity|].
  intros [u|e]; [|done]. apply disc_defer.
  - simpl. split; [left|]. intros _. by rewrite decide_True.
  - cbn [disc call mbind free_bind fbind role_of call_roles].
    split; [left|]. split; [by right|]. done.
Qed.

Ltac server_step :=
  first [ apply keeps_clone_loop | apply keeps_rebuild_loop | apply keeps_qos_loop
        | apply keeps_remove_loop | apply keeps_with_task | apply keeps_V1_SnapshotClone
        | apply keeps_spdk_forward | apply keeps_spdk_scope | apply keeps_with_spdk_err
        | proxy_step | reflexivity ].

Lemma serve_proxy_keeps X (m : proxy_method X) : tidy (serve_proxy m).
Proof.
  destruct m; unfold serve_proxy, tidy; try apply backup_tidy.
  all: unfold_server; repeat server_step.
Qed.

Lemma image_keeps X (m : image_method X) :
  keeps (Some (SPDKService, local)) (serve_image m).
Proof.
  destruct m; unfold serve_image, SPDKBackingImageCreate, SPDKBackingImageDelete,
    SPDKBackingImageGet, SPDKBackingImageList; solve_keeps.
Qed.

Lemma remount_tidy sha256_hex volume : tidy (RemountReadOnlyVolume sha256_hex volume).
Proof. unfold RemountReadOnlyVolume, tidy. solve_keeps. Qed.

(** C24: no connection leaks in the proxy. Whatever the request, the answers and
    the order of a range, the methods of the proxy use a client only while it is
    open, close each that they opened exactly once, and have none open when they
    return and when they panic; those of the backing images use the one client
    that the proxy keeps open and leave it so; the watch of the backing images
    has closed its client when its context is done and it has nothing left to do,
    unless a [Send] to its caller never returns. *)
Theorem serve_proxy_tidy :
  (∀ X (m : proxy_method X), tidy (serve_proxy m)) ∧
  (∀ sha256_hex volume, tidy (RemountReadOnlyVolume sha256_hex volume)) ∧
  (∀ X (m : image_method X), keeps (Some (SPDKService, local)) (serve_image m)) ∧
  (∀ spdkClient, watch_tidy (SPDKBackingImageWatch local spdkClient)
     match spdkClient with Some _ => [] | None => [(SPDKService, local)] end).
Proof.
  split_and!; [apply serve_proxy_keeps|apply remount_tidy|apply image_keeps|].
  intros r. apply watch_start_tidy, start_backing_images.
Qed.

(** ** Where requests go *)

(** Only engines of V1 volumes, and only the SPDK services of V2 volumes. *)
Definition v1_only (X : Type) (e : callE X) : Prop :=
  match e with
  | Dial c | Hangup c =>
      match c.1 with ControllerService _ _ | ReplicaService _ _ => True | _ => False end
  | SPDK _ _ | PM _ _ => False
  | _ => True
  end.
Definition v2_only (X : Type) (e : callE X) : Prop :=
  match e with
  | Dial c | Hangup c => c.1 = SPDKService
  | PM _ _ | Eng _ _ => False
  | Local (NewTask _) | Local (OnTask _ _) | Local (GetSnapshotsInfo _ _) => False
  | _ => True
  end.
(** No other process at all: only the environment of this one. *)
Definition local_only (X : Type) (e : callE X) : Prop :=
  match e with
  | Local (OS _) | Local (GetBackupCredential _) => True
  | _ => False
  end.

(** The methods that ask the replicas of an engine at addresses of their own. *)
Definition several_hosts {X} (m : proxy_method X) : bool :=
  match m with
  | MSnapshotCloneStatus _ | MReplicaRebuildingStatus _ | MReplicaRebuildingQosSet _ _ => true
  | _ => false
  end.

(** The call is for the SPDK service on [host], or, if the method is
    [VolumeGet], for that of the proxy itself. *)
Definition on_host {X} (m : proxy_method X) (host : string) (Y : Type) (e : callE Y) : Prop :=
  only_spdk_at (spdk_service_of host) Y e ∨
  match m with MVolumeGet _ => only_spdk_at local Y e | _ => False end.

Section calls.
Context (P : ∀ X, callE X → Prop).

Lemma calls_only_with_spdk {B} on_error address (body : string → handler B) :
  (∀ addr, P _ (Dial (SPDKService, addr))) → (∀ addr, P _ (Hangup (SPDKService, addr))) →
  (∀ addr, calls_only P (body addr)) → calls_only P (with_spdk_err on_error address body).
Proof.
  intros Hd Hh Hb. unfold with_spdk_err. destruct (SplitHostPort address) as [[h p]|]; [|done].
  by apply calls_with_client.
Qed.

Lemma calls_spdk_scope {A B} address (failed : error → free callE B)
    (q : string → callE A) k :
  (∀ addr, P _ (Dial (SPDKService, addr))) → (∀ addr, P _ (Hangup (SPDKService, addr))) →
  (∀ e, calls_only P (failed e)) → (∀ addr, P _ (q addr)) →
  (∀ a e, calls_only P (k a e)) → calls_only P (spdk_scope address failed q k).
Proof.
  intros Hd Hh Hf Hb Hk. unfold spdk_scope. destruct (SplitHostPort address) as [[h p]|]; [|done].
  apply calls_bind; [by apply calls_call|]. intros [u|e]; [|done].
  apply calls_bind; [by apply calls_call|]. intros a. apply calls_bind; [by apply calls_call|done].
Qed.

Lemma calls_remove_loop delete names lastErr :
  (∀ name, calls_only P (delete name)) → calls_only P (remove_loop delete names lastErr).
Proof.
  intros Hd. revert lastErr. induction names as [|name names IH]; intros; [done|].
  cbn [remove_loop]. apply calls_bind; [done|]. intros. apply IH.
Qed.

Lemma calls_set_all envs :
  (∀ X (e : osE X), P _ (Local (OS e))) →
  calls_only P (lift (λ X e, Local (OS e)) (set_all envs)).
Proof.
  intros Ho. induction envs as [|env envs IH]; [done|]. cbn [set_all].
  destruct (cut EQ env) as [[a v]|]; [|done]. split; [apply Ho|]. by intros [e|].
Qed.

Lemma calls_credential {B} envs target (k : gmap string string → handler B) :
  (∀ X (e : osE X), P _ (Local (OS e))) → P _ (Local (GetBackupCredential target)) →
  (∀ cr, calls_only P (k cr)) → calls_only P (with_credential envs target k).
Proof.
  intros Ho Hc Hk. unfold with_credential. apply calls_bind.
  - unfold setEnv. destruct (validateBackupEnv envs); [done|by apply calls_set_all].
  - intros [e|]; [done|]. apply calls_bind; [by apply calls_call|]. by intros [cr|e].
Qed.
End calls.

Lemma calls_clone_loop addresses modes status reached :
  calls_only v2_only (clone_status_loop addresses modes status reached).
Proof.
  revert status reached. induction modes as [|[name mode] modes IH]; intros; [done|].
  cbn [clone_status_loop]. case_bool_decide; [apply IH|].
  destruct (addresses !! name); [|apply IH].
  apply calls_spdk_scope; [done|done|intros; apply IH|done|].
  intros [[x|]|e] ce; [|apply IH..]. case_bool_decide; apply IH.
Qed.

Lemma calls_rebuild_loop addresses modes status :
  calls_only v2_only (rebuild_status_loop addresses modes status).
Proof.
  revert status. induction modes as [|[name mode] modes IH]; intros; [done|].
  cbn [rebuild_status_loop]. destruct (rebuilding_address _ _ _); [|apply IH].
  apply calls_spdk_scope; [done|done|done|done|].
  intros [x|e] ce; [apply IH|done].
Qed.

Lemma calls_qos_loop addresses limit modes : calls_only v2_only (qos_loop addresses limit modes).
Proof.
  induction modes as [|[name mode] modes IH]; intros; [done|].
  cbn [qos_loop]. destruct (rebuilding_address _ _ _); [|apply IH].
  apply calls_spdk_scope; [done|done|intros; apply IH|done|intros; apply IH].
Qed.

Lemma calls_status_loop addr backup engine first nf rs :
  calls_only v2_only (v2_status_loop addr backup engine first nf rs).
Proof.
  revert first nf. induction rs as [|r rs IH]; intros first nf; [done|]. cbn [v2_status_loop].
  apply calls_bind; [by apply calls_call|]. intros [[x|]|e]; [done|..]; case_decide; apply IH.
Qed.

Lemma calls_find volume backup rs : calls_only v1_only (find_replica volume backup rs).
Proof.
  induction rs as [|r rs IH]; [done|]. cbn [find_replica]. destruct (negb (is_RW r)); [done|].
  unfold FetchBackupStatus. solve_calls.
Qed.

Ltac route_step :=
  first [ apply calls_clone_loop | apply calls_rebuild_loop | apply calls_qos_loop
        | apply calls_status_loop | apply calls_find
        | apply calls_remove_loop; [intros; apply calls_call; done]
        | apply calls_only_with_spdk; [done|done|]
        | apply calls_spdk_scope; [done|done| | |]
        | apply calls_credential; [done|done|]
        | apply calls_with_client; [done|done|]
        | apply calls_try
        | calls_step ].
Ltac unfold_routes :=
  unfold serve_proxy, proxy_serve; unfold_server; unfold_proxy;
  unfold with_spdk_at, spdk_forward, with_controller, with_task, V1_SnapshotClone,
    getV2BackupStatusFromReplicas, FetchBackupStatus, V1_ReplicaList.

Lemma v1_routes X (m : proxy_method X) req :
  method_request m = Some req → PqDataEngine req = DATA_ENGINE_V1 →
  calls_only v1_only (serve_proxy m).
Proof.
  intros Hm He. destruct m; try destruct q; simpl in Hm; try done; injection Hm as <-;
    unfold_routes; rewrite ?He, ?dispatch_v1.
  all: repeat route_step.
Qed.

Lemma v2_routes X (m : proxy_method X) req :
  method_request m = Some req → PqDataEngine req = DATA_ENGINE_V2 →
  calls_only v2_only (serve_proxy m).
Proof.
  intros Hm He. destruct m; try destruct q; simpl in Hm; try done; injection Hm as <-;
    unfold_routes; rewrite ?He, ?dispatch_v2.
  all: repeat route_step.
Qed.

Lemma volume_get_hosts req host port :
  PqDataEngine req = DATA_ENGINE_V2 → SplitHostPort (PqAddress req) = Ok (host, port) →
  calls_only (on_host (MVolumeGet req) host) (serve_proxy (MVolumeGet req)).
Proof.
  intros He Ha. unfold serve_proxy, VolumeGet, V2_VolumeGet. rewrite He, dispatch_v2.
  assert (∀ Y e, only_spdk_at local Y e → on_host (MVolumeGet req) host Y e) as Hl by (by right).
  assert (∀ Y e, only_spdk_at (spdk_service_of host) Y e →
    on_host (MVolumeGet req) host Y e) as Hh by (by left).
  unfold spdk_scope. rewrite Ha.
  apply calls_with_client; [by apply Hl..|]. apply calls_bind; [by apply calls_call, Hl|].
  intros [engine|e]; [|done]. case_bool_decide; [done|].
  apply calls_bind; [by apply calls_call, Hh|]. intros [u|e]; [|done].
  apply calls_bind; [by apply calls_call, Hh|]. intros f.
  apply calls_bind; [by apply calls_call, Hh|]. by destruct f.
Qed.

Lemma v2_routes_host X (m : proxy_method X) req host port :
  method_request m = Some req → PqDataEngine req = DATA_ENGINE_V2 →
  SplitHostPort (PqAddress req) = Ok (host, port) → several_hosts m = false →
  calls_only (on_host m host) (serve_proxy m).
Proof.
  intros Hm He Ha Hs.
  destruct m; simpl in Hm, Hs; try done; try injection Hm as <-;
    try (by eapply volume_get_hosts);
    apply (calls_weaken (only_spdk_at (spdk_service_of host))); try (by left);
    try (by eapply backup_on_host); unfold_routes; rewrite ?He, ?dispatch_v2.
  all: try (eapply calls_with_spdk_err; [exact Ha|]); repeat route_step.
Qed.

Lemma other_routes X (m : proxy_method X) req :
  method_request m = Some req → PqDataEngine req ≠ DATA_ENGINE_V1 →
  PqDataEngine req ≠ DATA_ENGINE_V2 → calls_only local_only (serve_proxy m).
Proof.
  intros Hm H1 H2. destruct m; try destruct q; simpl in Hm; try done; injection Hm as <-;
    unfold serve_proxy, proxy_serve; unfold_server; unfold_proxy.
  all: repeat first [apply calls_credential; [done|done|]
                    | rewrite dispatch_other by done; exact I | calls_step].
Qed.

Lemma serve_proxy_routes X (m : proxy_method X) (req : ProxyEngineRequest) :
  method_request m = Some req →
  (PqDataEngine req = DATA_ENGINE_V1 → calls_only v1_only (serve_proxy m)) ∧
  (PqDataEngine req = DATA_ENGINE_V2 → calls_only v2_only (serve_proxy m) ∧
     ∀ host port, SplitHostPort (PqAddress req) = Ok (host, port) → several_hosts m = false →
       calls_only (on_host m host) (serve_proxy m)) ∧
  (PqDataEngine req ≠ DATA_ENGINE_V1 → PqDataEngine req ≠ DATA_ENGINE_V2 →
     calls_only local_only (serve_proxy m)).
Proof.
  intros Hm. split_and!.
  - by apply v1_routes.
  - intros He. split; [by eapply v2_routes|]. intros. by eapply v2_routes_host.
  - by apply other_routes.
Qed.

(** C25: a request reaches only the services of its data engine. For the V1 engine
    the proxy dials controllers and replicas and never an SPDK service; for the
    V2 engine only SPDK services, and but for the three methods that ask the
    replicas of a volume at their own addresses, only the one on the host of the
    request's address, at the default port, whatever port it was given, and for
    [VolumeGet] also the one the proxy itself is configured with; for any other
    engine it contacts no other process. *)
Theorem proxy_routing X (m : proxy_method X) (req : ProxyEngineRequest) :
  method_request m = Some req →
  (PqDataEngine req = DATA_ENGINE_V1 → calls_only v1_only (serve_proxy m)) ∧
  (PqDataEngine req = DATA_ENGINE_V2 → calls_only v2_only (serve_proxy m) ∧
     ∀ host port, SplitHostPort (PqAddress req) = Ok (host, port) → several_hosts m = false →
       calls_only (on_host m host) (serve_proxy m)) ∧
  (PqDataEngine req ≠ DATA_ENGINE_V1 → PqDataEngine req ≠ DATA_ENGINE_V2 →
     calls_only local_only (serve_proxy m)).
Proof. apply serve_proxy_routes. Qed.
End server.

Theorem proxy_routing_witness :
  calls_only (only_spdk_at "[fd00::1]:8504")
    (serve_proxy "[::1]:8504" map_to_list (MBackup (QReplicaList v2_engine))).
Proof.
  destruct (proxy_routing "[::1]:8504" map_to_list _ (MBackup (QReplicaList v2_engine)) v2_engine)
    as (_ & H & _); [done|]. destruct (H eq_refl) as [_ Hh].
  eapply calls_weaken; [|by apply (Hh "fd00::1" "20001")].
  by intros X e [He|[]].
Defined.
