(* ===== verification/ProxyVolumeProps.v ===== *)
(** * Properties of volumes, snapshots and replicas through the proxy

    What the V2 methods that ask several services answer, for any answers of
    these: the status of a clone over all replicas, whatever the order in which
    they are asked; the status and the throttling of a rebuilding; a volume whose
    frontend may be on another host. And what the methods do when some of their
    requests fail. *)
From S2P Require Import Prelude GoStrings Sched Process Calls ProxyEnv Messages Services Proxy ProxyBackup ProxyVolume ProxySnapshot ProxyReplica.

#[local] Open Scope Z_scope.

(** An order in which a range may go over a map. *)
Definition range_order (range : gmap string string → list (string * string)) : Prop :=
  ∀ m, range m ≡ₚ map_to_list m.

Lemma range_order_to_list : range_order map_to_list.
Proof. by intros m. Qed.

(** ** The status of a clone *)

Section clone_status.
Context (o : ∀ X, callE X → X) (addresses : gmap string string).

(** What asking a replica comes to. *)
Inductive clone_outcome :=
  | Unreached
  | NotStarted
  | Started (s : CloneStatus).

Definition clone_outcome_of (name mode : string) : clone_outcome :=
  if bool_decide (mode ≠ "RW") then Unreached
  else
    match addresses !! name with
    | None => Unreached
    | Some address =>
        match reach o address with
        | Err _ => Unreached
        | Ok addr =>
            match o _ (SPDK addr (ReplicaSnapshotCloneDstStatusCheck name)) with
            | Err _ | Ok None => Unreached
            | Ok (Some s) =>
                if bool_decide (CsState s = "") then
                  match o _ (Hangup (SPDKService, addr)) with
                  | None => NotStarted
                  | Some _ => Unreached
                  end
                else Started s
            end
        end
    end.

Definition url_of (name : string) : string :=
  AddTcpPrefixForAddress (default "" (addresses !! name)).

(** What a replica adds to the answer. *)
Definition started_status (kv : string * string) : option (string * CloneStatus) :=
  match clone_outcome_of kv.1 kv.2 with
  | Started s => Some (url_of kv.1, clone_response s)
  | _ => None
  end.

Definition not_started (kv : string * string) : option string :=
  match clone_outcome_of kv.1 kv.2 with NotStarted => Some kv.1 | _ => None end.

Lemma clone_loop_result modes status reached :
  (eval o (clone_status_loop addresses modes status reached)).1 =
    Some (foldl (collect_one started_status) status modes, reached ++ omap not_started modes).
Proof.
  revert status reached. induction modes as [|[name mode] modes IH]; intros status reached.
  { by rewrite app_nil_r. }
  cbn [clone_status_loop foldl omap list_omap].
  unfold collect_one at 2, started_status at 2, not_started at 1, clone_outcome_of, url_of. cbn [fst snd].
  case_bool_decide; [apply IH|]. destruct (addresses !! name) as [address|]; [|apply IH].
  rewrite eval_spdk_scope. destruct (reach o address) as [addr|e]; [|apply IH].
  cbn zeta. destruct (o _ (SPDK _ _)) as [[s|]|e]; [|apply IH..].
  case_bool_decide; [|apply IH]. destruct (o _ (Hangup _)); [apply IH|].
  cbn [fst]. by rewrite IH, <- app_assoc.
Qed.

(** No two replicas have the same address. *)
Definition distinct_addresses : Prop :=
  ∀ n n' a, addresses !! n = Some a → addresses !! n' = Some a → n = n'.

Lemma url_of_inj n n' a a' :
  distinct_addresses → addresses !! n = Some a → addresses !! n' = Some a' →
  url_of n = url_of n' → n = n'.
Proof.
  intros Hd Ha Ha'. unfold url_of. rewrite Ha, Ha'. simpl.
  intros He%AddTcpPrefix_inj. subst. by eapply Hd.
Qed.

(** Replicas with different addresses do not overwrite each other's entries. *)
Lemma consistent_by_url {V} (f : string → string → option V) (modes : list (string * string)) :
  distinct_addresses → NoDup modes.*1 →
  (∀ n m v, f n m = Some v → is_Some (addresses !! n)) →
  consistent (λ kv, (λ v, (url_of kv.1, v)) <$> f kv.1 kv.2) modes.
Proof.
  intros Hd Hn Hf [n m] [n' m'] u v v' Hx Hy Hv Hv'. simpl in *.
  destruct (f n m) as [w|] eqn:Hw; [|done]. destruct (f n' m') as [w'|] eqn:Hw'; [|done].
  simplify_eq/=. destruct (Hf _ _ _ Hw) as [a Ha], (Hf _ _ _ Hw') as [a' Ha'].
  assert (n = n') as <- by by eapply url_of_inj.
  assert (m = m') as <-; [|congruence].
  apply list_elem_of_lookup in Hx as [i Hi], Hy as [j Hj].
  assert (i = j) as <-; [|congruence].
  eapply (NoDup_lookup modes.*1 i j n); [done|..]; by rewrite list_lookup_fmap, ?Hi, ?Hj.
Qed.

Lemma started_consistent modes :
  distinct_addresses → NoDup modes.*1 → consistent started_status modes.
Proof.
  intros Hd Hn x y u v v' Hx Hy.
  set (f n m := match clone_outcome_of n m with Started s => Some (clone_response s) | _ => None end).
  assert (∀ kv, started_status kv = (λ v, (url_of kv.1, v)) <$> f kv.1 kv.2) as Heq.
  { intros kv. unfold started_status, f. by destruct (clone_outcome_of kv.1 kv.2). }
  rewrite !Heq. apply (consistent_by_url f modes Hd Hn); [|done..].
  intros n m w. unfold f, clone_outcome_of. case_bool_decide; [done|].
  destruct (addresses !! n); [eauto|done].
Qed.
End clone_status.

(** The least string of a list is the first one when it is sorted. *)
Lemma sort_strings_head (l : list string) n :
  n ∈ l → (∀ n', n' ∈ l → String.le n n') → ∃ l', sort_strings l = n :: l'.
Proof.
  intros Hin Hmin. pose proof (StronglySorted_merge_sort String.le l) as Hs.
  pose proof (merge_sort_Permutation String.le l) as Hp. fold (sort_strings l) in Hs, Hp.
  destruct (sort_strings l) as [|n' l'].
  { apply Permutation_nil in Hp. subst. by apply elem_of_nil in Hin. }
  exists l'. f_equal. apply (anti_symm String.le).
  - apply StronglySorted_inv in Hs as [_ Hs]. rewrite <- Hp in Hin.
    apply elem_of_cons in Hin as [->|Hin]; [done|]. by eapply Forall_forall in Hs.
  - apply Hmin. rewrite <- Hp. left.
Qed.

Lemma sort_strings_Permutation l l' : l ≡ₚ l' → sort_strings l = sort_strings l'.
Proof.
  intros Hl. apply (StronglySorted_unique String.le); [apply StronglySorted_merge_sort; apply _..|].
  unfold sort_strings. by rewrite !merge_sort_Permutation.
Qed.

Lemma clone_answer_empty addresses reached :
  clone_status_answer addresses ∅ reached =
    match sort_strings reached with
    | n :: _ => ok {[url_of addresses n := no_clone_status]}
    | [] => fail (EStatus Internal "cannot get clone status from any replica")
    end.
Proof.
  unfold clone_status_answer. destruct (sort_strings reached) as [|n l]; [done|].
  rewrite (bool_decide_true (∅ = _)) by done. rewrite bool_decide_false; [done|].
  apply insert_non_empty.
Qed.

Lemma clone_answer_found addresses status reached :
  status ≠ ∅ → clone_status_answer addresses status reached = ok status.
Proof.
  intros Hs. unfold clone_status_answer.
  rewrite (bool_decide_false (status = ∅)) by done. by rewrite bool_decide_false.
Qed.

Section clone_answer.
Context (o : ∀ X, callE X → X) (req : ProxyEngineRequest) (addr : string) (e : Engine).
Context (Hengine : PqDataEngine req = DATA_ENGINE_V2)
  (Hreach : reach o (PqAddress req) = Ok addr)
  (Hget : o _ (SPDK addr (EngineGet (PqEngineName req))) = Ok e).

(** What asking the replica of a name comes to. *)
Definition outcome (n : string) : clone_outcome :=
  match EReplicaModeMap e !! n with
  | Some m => clone_outcome_of o (EReplicaAddressMap e) n m
  | None => Unreached
  end.

Lemma clone_status_result range :
  (eval o (SnapshotCloneStatus range req)).1 =
    Some (clone_status_answer (EReplicaAddressMap e)
      (foldl (collect_one (started_status o (EReplicaAddressMap e))) ∅ (range (EReplicaModeMap e)))
      (omap (not_started o (EReplicaAddressMap e)) (range (EReplicaModeMap e)))).
Proof.
  unfold SnapshotCloneStatus, V2_SnapshotCloneStatus. rewrite Hengine, dispatch_v2.
  rewrite (result_spdk_call _ _ _ _ _ Hreach), Hget. rewrite (result_step _ _ _ _ (clone_loop_result _ _ _ _ _)).
  done.
Qed.

Context (range : gmap string string → list (string * string)) (Hrange : range_order range).

Lemma range_nodup m : NoDup (range m).*1.
Proof. rewrite (Hrange m). apply NoDup_fst_map_to_list. Qed.

Lemma elem_of_range m k v : (k, v) ∈ range m ↔ m !! k = Some v.
Proof. rewrite (Hrange m). apply elem_of_map_to_list. Qed.

Lemma elem_of_not_started n :
  n ∈ omap (not_started o (EReplicaAddressMap e)) (range (EReplicaModeMap e)) ↔
    outcome n = NotStarted.
Proof.
  rewrite list_elem_of_omap. unfold not_started, outcome. split.
  - intros ([n' m] & Hin%elem_of_range & Ho). cbn [fst snd] in Ho.
    case_match eqn:Hc; simplify_eq. by rewrite Hin.
  - intros Ho. destruct (EReplicaModeMap e !! n) as [m|] eqn:Hm; [|done].
    exists (n, m). rewrite elem_of_range. cbn [fst snd]. by rewrite Ho.
Qed.

Lemma elem_of_started u v :
  (∃ kv, kv ∈ range (EReplicaModeMap e) ∧
     started_status o (EReplicaAddressMap e) kv = Some (u, v)) ↔
  ∃ n s, outcome n = Started s ∧ u = url_of (EReplicaAddressMap e) n ∧ v = clone_response s.
Proof.
  unfold started_status, outcome. split.
  - intros ([n m] & Hin%elem_of_range & Hs). cbn [fst snd] in Hs. case_match eqn:Hc; simplify_eq.
    exists n. eexists. rewrite Hin. split_and!; [exact Hc|done|done].
  - intros (n & s & Hs & -> & ->). destruct (EReplicaModeMap e !! n) as [m|] eqn:Hm; [|done].
    exists (n, m). rewrite elem_of_range. cbn [fst snd]. by rewrite Hs.
Qed.
End clone_answer.

(** C28: the status of a clone of a V2 volume, over all its replicas. Once the
    engine is known: when some RW replica has started cloning, the answer has
    the status of every such replica under its address and nothing else;
    otherwise, when some has been reached, one entry without a state, for the
    least of their names; and an error when no replica tells. Replicas that
    cannot be reached, asked or closed do not make it fail. *)
Theorem SnapshotCloneStatus_correct (o : ∀ X, callE X → X)
    (range : gmap string string → list (string * string)) (req : ProxyEngineRequest)
    (addr : string) (e : Engine) :
  range_order range → PqDataEngine req = DATA_ENGINE_V2 →
  reach o (PqAddress req) = Ok addr → o _ (SPDK addr (EngineGet (PqEngineName req))) = Ok e →
  distinct_addresses (EReplicaAddressMap e) →
  let r := (eval o (SnapshotCloneStatus range req)).1 in
  let url := url_of (EReplicaAddressMap e) in
  (∀ n0 s0, outcome o e n0 = Started s0 → ∃ status, r = Some (ok status) ∧
     ∀ u v, status !! u = Some v ↔
       ∃ n s, outcome o e n = Started s ∧ u = url n ∧ v = clone_response s) ∧
  (∀ n, (∀ n' s, outcome o e n' ≠ Started s) → outcome o e n = NotStarted →
     (∀ n', outcome o e n' = NotStarted → String.le n n') →
     r = Some (ok {[url n := no_clone_status]})) ∧
  ((∀ n, outcome o e n = Unreached) →
     r = Some (fail (EStatus Internal "cannot get clone status from any replica"))).
Proof.
  intros Hr He Ha Hg Hd r url. subst r url. rewrite (clone_status_result o req addr e) by done.
  set (modes := range (EReplicaModeMap e)). set (addresses := EReplicaAddressMap e) in *.
  set (status := foldl (collect_one (started_status o addresses)) ∅ modes).
  assert (∀ u v, status !! u = Some v ↔
    ∃ n s, outcome o e n = Started s ∧ u = url_of addresses n ∧ v = clone_response s) as Hstatus.
  { intros u v. unfold status.
    rewrite lookup_collect by (apply started_consistent; [done|by apply range_nodup]).
    by apply elem_of_started. }
  assert ((∀ n' s, outcome o e n' ≠ Started s) → status = ∅) as Hemp.
  { intros Hn. apply map_empty. intros u. apply eq_None_not_Some.
    intros [v (n & s & Hs & _)%Hstatus]. by eapply Hn. }
  split_and!.
  - intros n0 s0 Hs. rewrite clone_answer_found; [by eexists|]. intros Hem.
    assert (status !! url_of addresses n0 = Some (clone_response s0)) as H by (apply Hstatus; eauto).
    by rewrite Hem, lookup_empty in H.
  - intros n Hn Hns Hmin. rewrite Hemp, clone_answer_empty by done.
    destruct (sort_strings_head (omap (not_started o addresses) modes) n) as [l' ->]; [..|done].
    + by apply elem_of_not_started.
    + intros n' Hn'. apply Hmin. by apply (elem_of_not_started o e range Hr).
  - intros Hn. rewrite Hemp, clone_answer_empty by (intros n s; by rewrite Hn).
    assert (omap (not_started o addresses) modes = []) as ->; [|done].
    apply elem_of_nil_inv. intros n Hin%(elem_of_not_started o e range Hr). by rewrite Hn in Hin.
Qed.

(** The order in which Go ranges over the replicas does not matter for the
    status of a clone: with distinct addresses any two orders give the same
    answer, the fallback of an idle volume included. *)
Theorem SnapshotCloneStatus_order_free (o : ∀ X, callE X → X)
    (range range' : gmap string string → list (string * string)) (req : ProxyEngineRequest) :
  range_order range → range_order range' →
  (∀ addr e, o _ (SPDK addr (EngineGet (PqEngineName req))) = Ok e →
     distinct_addresses (EReplicaAddressMap e)) →
  (eval o (SnapshotCloneStatus range req)).1 = (eval o (SnapshotCloneStatus range' req)).1.
Proof.
  intros Hr Hr' Hd. unfold SnapshotCloneStatus, dispatch. repeat case_bool_decide; try done.
  unfold V2_SnapshotCloneStatus. destruct (reach o (PqAddress req)) as [addr|e] eqn:Ha.
  2: { unfold with_spdk_at. by rewrite !eval_with_spdk_err, Ha. }
  rewrite !(result_spdk_call _ _ _ _ _ Ha).
  destruct (o _ (SPDK addr _)) as [e|] eqn:Hg; [|done]. specialize (Hd _ _ Hg).
  rewrite !(result_step _ _ _ _ (clone_loop_result _ _ _ _ _)). cbn [app eval fst].
  assert (range (EReplicaModeMap e) ≡ₚ range' (EReplicaModeMap e)) as Hp by (by rewrite (Hr _), (Hr' _)).
  unfold clone_status_answer. rewrite (sort_strings_Permutation _ _ (omap_Permutation _ _ _ Hp)).
  rewrite (collect_Permutation _ _ _ (started_consistent o _ _ Hd (range_nodup _ Hr _)) Hp). done.
Qed.

(** ** Rebuilding *)

Section rebuilding.
Context (o : ∀ X, callE X → X) (addresses : gmap string string).

(** What a rebuilding replica answers about its progress; [None] for a replica
    that is not being rebuilt. *)
Definition rebuild_answer (name mode : string) : option (res ShallowCopyStatus) :=
  match rebuilding_address addresses name mode with
  | None => None
  | Some address => Some
      match reach o address with
      | Err e => Err (status_wrap Internal
          ("failed to get SPDK client from replica address " +:+ address) e)
      | Ok addr => o _ (SPDK addr (ReplicaRebuildingDstShallowCopyCheck name))
      end
  end.

Definition rebuild_status (kv : string * string) : option (string * RebuildStatus) :=
  match rebuild_answer kv.1 kv.2 with
  | Some (Ok s) => Some (url_of addresses kv.1, rebuild_response s)
  | _ => None
  end.

Definition rebuild_error (kv : string * string) : option error :=
  match rebuild_answer kv.1 kv.2 with Some (Err e) => Some e | _ => None end.

Lemma rebuilding_url name mode address :
  rebuilding_address addresses name mode = Some address →
  addresses !! name = Some address ∧ url_of addresses name = AddTcpPrefixForAddress address.
Proof.
  unfold rebuilding_address, url_of. case_bool_decide; [|done].
  destruct (addresses !! name) as [a|]; simpl; [|done].
  case_bool_decide; [done|]. by intros [= ->].
Qed.

Lemma rebuild_loop_result modes status :
  (eval o (rebuild_status_loop addresses modes status)).1 =
    Some (match omap rebuild_error modes with
          | [] => ok (foldl (collect_one rebuild_status) status modes)
          | e :: _ => fail e
          end).
Proof.
  revert status. induction modes as [|[name mode] modes IH]; intros status; [done|].
  cbn [rebuild_status_loop foldl omap list_omap].
  unfold collect_one at 2, rebuild_status at 2, rebuild_error at 1, rebuild_answer. cbn [fst snd].
  destruct (rebuilding_address addresses name mode) as [address|] eqn:Hr; [|apply IH].
  apply rebuilding_url in Hr as [_ ->]. rewrite eval_spdk_scope.
  destruct (reach o address) as [addr|e]; [|done]. cbn zeta.
  by destruct (o _ (SPDK _ _)); [rewrite IH|].
Qed.

(** The limits that are set: the address asked, the replica, the limit. *)
Fixpoint qos_requests (l : list (logged callE)) : list (string * string * Z) :=
  match l with
  | [] => []
  | c :: l' =>
      match projT2 c with
      | SPDK a q =>
          match q with
          | ReplicaRebuildingDstSetQosLimit n limit => [(a, n, limit)]
          | _ => []
          end
      | _ => []
      end ++ qos_requests l'
  end.

Lemma qos_requests_app l l' : qos_requests (l ++ l') = qos_requests l ++ qos_requests l'.
Proof. induction l as [|c l IH]; [done|]. simpl. by rewrite IH, app_assoc. Qed.

Definition qos_target (limit : Z) (kv : string * string) : option (string * string * Z) :=
  match rebuilding_address addresses kv.1 kv.2 with
  | Some address =>
      match reach o address with Ok addr => Some (addr, kv.1, limit) | Err _ => None end
  | None => None
  end.

Lemma qos_dial_log address : qos_requests (dial_log address) = [].
Proof. unfold dial_log. by destruct (SplitHostPort address) as [[h p]|]. Qed.

Lemma qos_loop_eval limit modes :
  (eval o (qos_loop addresses limit modes)).1 = Some (ok tt) ∧
  qos_requests (eval o (qos_loop addresses limit modes)).2 = omap (qos_target limit) modes.
Proof.
  induction modes as [|[name mode] modes [IH1 IH2]]; [done|].
  cbn [qos_loop omap list_omap]. unfold qos_target at 1. cbn [fst snd].
  destruct (rebuilding_address addresses name mode) as [address|]; [|done].
  rewrite eval_spdk_scope. destruct (reach o address) as [addr|e]; cbn [fst snd].
  - split; [done|]. rewrite qos_requests_app, qos_dial_log. simpl. by rewrite IH2.
  - split; [done|]. by rewrite qos_requests_app, qos_dial_log.
Qed.
End rebuilding.

Lemma rebuild_consistent o addresses modes :
  distinct_addresses addresses → NoDup modes.*1 → consistent (rebuild_status o addresses) modes.
Proof.
  intros Hd Hn x y u v v' Hx Hy.
  set (f n m := match rebuild_answer o addresses n m with
                | Some (Ok s) => Some (rebuild_response s)
                | _ => None
                end).
  assert (∀ kv, rebuild_status o addresses kv =
    (λ v, (url_of addresses kv.1, v)) <$> f kv.1 kv.2) as Heq.
  { intros kv. unfold rebuild_status, f. by destruct (rebuild_answer _ _ _ _) as [[]|]. }
  rewrite !Heq. apply (consistent_by_url addresses f modes Hd Hn); [|done..].
  intros n m w. unfold f, rebuild_answer.
  destruct (rebuilding_address addresses n m) as [a|] eqn:Ha; [|done].
  by apply rebuilding_url in Ha as [-> _].
Qed.

Lemma rebuilding_result o req addr e range :
  PqDataEngine req = DATA_ENGINE_V2 → reach o (PqAddress req) = Ok addr →
  o _ (SPDK addr (EngineGet (PqEngineName req))) = Ok e →
  (eval o (ReplicaRebuildingStatus range req)).1 =
    Some (match omap (rebuild_error o (EReplicaAddressMap e)) (range (EReplicaModeMap e)) with
          | [] => ok (foldl (collect_one (rebuild_status o (EReplicaAddressMap e))) ∅
                       (range (EReplicaModeMap e)))
          | er :: _ => fail er
          end).
Proof.
  intros He Ha Hg. unfold ReplicaRebuildingStatus, V2_ReplicaRebuildingStatus, over_replicas.
  rewrite He, dispatch_v2. rewrite (result_spdk_call _ _ _ _ _ Ha), Hg. apply rebuild_loop_result.
Qed.

(** Throttling a rebuilding is best effort. Once the engine is known, the
    method succeeds whatever the replicas answer; it asks every rebuilding
    replica that has an address and whose host can be dialled, once, in the
    order of the range, and no other. *)
Theorem ReplicaRebuildingQosSet_best_effort (o : ∀ X, callE X → X)
    (range : gmap string string → list (string * string)) (req : ProxyEngineRequest)
    (limit : Z) (addr : string) (e : Engine) :
  PqDataEngine req = DATA_ENGINE_V2 → reach o (PqAddress req) = Ok addr →
  o _ (SPDK addr (EngineGet (PqEngineName req))) = Ok e →
  let run := eval o (ReplicaRebuildingQosSet range req limit) in
  run.1 = Some (ok tt) ∧
  qos_requests run.2 =
    omap (qos_target o (EReplicaAddressMap e) limit) (range (EReplicaModeMap e)).
Proof.
  intros He Ha Hg run. subst run.
  unfold ReplicaRebuildingQosSet, V2_ReplicaRebuildingQosSet, over_replicas, with_spdk_at.
  rewrite He, dispatch_v2, eval_with_spdk_err, Ha, eval_bind, eval_call, Hg.
  destruct (qos_loop_eval o (EReplicaAddressMap e) limit (range (EReplicaModeMap e))) as [H1 H2].
  cbn [fst snd]. rewrite H1. split; [done|].
  rewrite !qos_requests_app, qos_dial_log. simpl. rewrite H2. simpl. by rewrite app_nil_r.
Qed.

(** The status of a rebuilding. It has the progress of every replica that is
    being rebuilt and has an address, under that address, and no other; if one
    of them cannot be asked the method fails, with the error of one of them. *)
Theorem ReplicaRebuildingStatus_correct (o : ∀ X, callE X → X)
    (range : gmap string string → list (string * string)) (req : ProxyEngineRequest)
    (addr : string) (e : Engine) :
  range_order range → PqDataEngine req = DATA_ENGINE_V2 →
  reach o (PqAddress req) = Ok addr → o _ (SPDK addr (EngineGet (PqEngineName req))) = Ok e →
  distinct_addresses (EReplicaAddressMap e) →
  let r := (eval o (ReplicaRebuildingStatus range req)).1 in
  let answer n m := rebuild_answer o (EReplicaAddressMap e) n m in
  ((∀ n m er, EReplicaModeMap e !! n = Some m → answer n m ≠ Some (Err er)) →
     ∃ status, r = Some (ok status) ∧
     ∀ u v, status !! u = Some v ↔
       ∃ n m s, EReplicaModeMap e !! n = Some m ∧ answer n m = Some (Ok s) ∧
         u = url_of (EReplicaAddressMap e) n ∧ v = rebuild_response s) ∧
  (∀ n m er, EReplicaModeMap e !! n = Some m → answer n m = Some (Err er) →
     ∃ n' m' er', EReplicaModeMap e !! n' = Some m' ∧ answer n' m' = Some (Err er') ∧
       r = Some (fail er')).
Proof.
  intros Hr He Ha Hg Hd r answer. subst r answer. cbn beta.
  rewrite (rebuilding_result o req addr e) by done.
  set (addresses := EReplicaAddressMap e) in *. set (modes := range (EReplicaModeMap e)).
  assert (∀ er, er ∈ omap (rebuild_error o addresses) modes ↔
    ∃ n m, EReplicaModeMap e !! n = Some m ∧ rebuild_answer o addresses n m = Some (Err er)) as Herr.
  { intros er. rewrite list_elem_of_omap. unfold rebuild_error, modes. split.
    - intros ([n m] & Hin%elem_of_range & Hs); [|done]. exists n, m. split; [done|].
      cbn [fst snd] in Hs. by repeat case_match; simplify_eq.
    - intros (n & m & Hm & Hs). exists (n, m). cbn [fst snd]. by rewrite elem_of_range, Hs. }
  destruct (omap (rebuild_error o addresses) modes) as [|er ers].
  - split.
    + intros _. eexists. split; [done|]. intros u v.
      rewrite lookup_collect by (apply rebuild_consistent; [done|by apply range_nodup]).
      unfold rebuild_status, modes. split.
      * intros ([n m] & Hin%elem_of_range & Hs); [|done]. cbn [fst snd] in Hs.
        repeat case_match; simplify_eq. by eexists n, m, _.
      * intros (n & m & s & Hm & Hs & -> & ->). exists (n, m). cbn [fst snd].
        by rewrite elem_of_range, Hs.
    + intros n m er Hm Hs. exfalso. apply (not_elem_of_nil er). apply Herr. by exists n, m.
  - destruct (proj1 (Herr er)) as (n & m & Hm & Hs); [left|]. split.
    + intros Hno. by destruct (Hno n m er).
    + intros _ _ _ _ _. by exists n, m, er.
Qed.


(** ** Volumes and snapshots *)

(** C36: reading a V2 volume degrades instead of failing. Once the local SPDK
    service has answered for the engine, the method succeeds; the frontend's
    values are used exactly when the request names a frontend and the SPDK
    service of its host can be dialled and knows it; an expansion under way or
    an expansion error of either is never hidden. *)
Theorem VolumeGet_degrades (o : ∀ X, callE X → X) (local : string) (req : ProxyEngineRequest)
    (e : Engine) :
  PqDataEngine req = DATA_ENGINE_V2 → o _ (Dial (SPDKService, local)) = Ok tt →
  o _ (SPDK local (EngineGet (PqEngineName req))) = Ok e →
  ∃ f v, (eval o (VolumeGet local req)).1 = Some (ok v) ∧ v = v2_volume e f ∧
    (∀ fr, f = Some fr ↔
       PqEngineFrontendName req ≠ "" ∧ ∃ addr, reach o (PqAddress req) = Ok addr ∧
         o _ (SPDK addr (EngineFrontendGet (PqEngineFrontendName req))) = Ok fr) ∧
    (VoIsExpanding v = false ↔
       EIsExpanding e = false ∧ ∀ fr, f = Some fr → FIsExpanding fr = false) ∧
    (VoLastExpansionError v = "" ↔
       ELastExpansionError e = "" ∧ ∀ fr, f = Some fr → FLastExpansionError fr = "").
Proof.
  intros He Hd Hg.
  set (f := if bool_decide (PqEngineFrontendName req = "") then None
            else match reach o (PqAddress req) with
                 | Err _ => None
                 | Ok addr =>
                     match o _ (SPDK addr (EngineFrontendGet (PqEngineFrontendName req))) with
                     | Ok fr => Some fr
                     | Err _ => None
                     end
                 end).
  exists f, (v2_volume e f). split_and!.
  - unfold VolumeGet, V2_VolumeGet. rewrite He, dispatch_v2, result_with_client by done.
    rewrite result_bind, eval_call. cbn [mbind option_bind fst]. rewrite Hg. unfold f.
    case_bool_decide; [done|]. rewrite eval_spdk_scope.
    destruct (reach o (PqAddress req)) as [addr|er]; [|done].
    cbn zeta. by destruct (o _ (SPDK addr _)).
  - done.
  - intros fr. unfold f. case_bool_decide; [by split; [|intros [? _]]|].
    destruct (reach o (PqAddress req)) as [addr|er].
    2: { split; [done|]. by intros (_ & ? & ? & _). }
    destruct (o _ (SPDK addr _)) as [fr'|er] eqn:Hf.
    + split; [intros [= ->]; split; [done|]; by exists addr|].
      intros (_ & addr' & [= <-] & Hf'). congruence.
    + split; [done|]. intros (_ & addr' & [= <-] & Hf'). congruence.
  - destruct f as [fr|]; simpl; [rewrite orb_false_iff|]; naive_solver.
  - destruct f as [fr|]; simpl; [case_bool_decide|]; naive_solver.
Qed.

(** The loop asks for every name and remembers the last error. *)
Lemma remove_loop_eval (o : ∀ X, callE X → X) (q : string → callE err) names lastErr :
  eval o (remove_loop (λ name, call (q name)) names lastErr) =
    (Some (match last (omap (λ name, o _ (q name)) names) with
           | Some e => Some e
           | None => lastErr
           end),
     List.map (λ name, log (q name)) names).
Proof.
  revert lastErr. induction names as [|name names IH]; intros lastErr; [done|].
  cbn [remove_loop]. rewrite eval_bind, eval_call, IH. cbn [omap list_omap List.map fst snd].
  destruct (o _ (q name)) as [e|]; [|done].
  rewrite last_cons. by destruct (last (omap _ names)).
Qed.

(** Removing snapshots. Every snapshot of the request is asked for, once and
    in order, also after one could not be removed; the error of the method is
    that of the last one that could not, and there is none exactly when all
    could. *)
Theorem SnapshotRemove_correct (o : ∀ X, callE X → X) (req : ProxyEngineRequest)
    (names : list string) :
  (∀ addr, PqDataEngine req = DATA_ENGINE_V2 → reach o (PqAddress req) = Ok addr →
     let q name := SPDK addr (EngineFrontendSnapshotDelete (PqEngineFrontendName req) name) in
     eval o (SnapshotRemove req names) =
       (Some (Some tt, last (omap (λ name, o _ (q name)) names)),
        dial_log (PqAddress req) ++ List.map (λ name, log (q name)) names ++
          [log (Hangup (SPDKService, addr))])) ∧
  (PqDataEngine req = DATA_ENGINE_V1 → o _ (Local (NewTask (task_of req))) = Ok tt →
     let q name := Local (OnTask (task_of req) (DeleteSnapshot name)) in
     eval o (SnapshotRemove req names) =
       (Some (Some tt, last (omap (λ name, o _ (q name)) names)),
        log (Local (NewTask (task_of req))) :: List.map (λ name, log (q name)) names)) ∧
  (∀ f : string → err, last (omap f names) = None ↔ Forall (λ name, f name = None) names).
Proof.
  assert (∀ x : err, match x with Some e => Some e | None => None end = x) as Heta by by intros [].
  split; [|split].
  - intros addr He Ha q. unfold SnapshotRemove, V2_SnapshotRemove, with_spdk_at.
    rewrite He, dispatch_v2, eval_with_spdk_err, Ha, eval_bind.
    rewrite (remove_loop_eval o q). cbn [fst snd eval mret free_ret]. by rewrite Heta, app_nil_r.
  - intros He Ht q. unfold SnapshotRemove, V1_SnapshotRemove, with_task, try.
    rewrite He, dispatch_v1, eval_bind, eval_call, Ht, eval_bind.
    rewrite (remove_loop_eval o q). cbn [fst snd eval mret free_ret app]. by rewrite Heta, app_nil_r.
  - intros f. rewrite last_None. induction names as [|n names IH]; [done|].
    cbn [omap list_omap]. rewrite Forall_cons, <- IH. destruct (f n); naive_solver.
Qed.

(** The V2 purge hides its errors. Whatever the SPDK service answers to the
    purge, the caller is told that it succeeded, while the V1 engine's error is
    the method's. *)
Theorem SnapshotPurge_hides_errors (o : ∀ X, callE X → X) (req : ProxyEngineRequest)
    (skip : bool) (er : error) :
  (∀ addr, PqDataEngine req = DATA_ENGINE_V2 → reach o (PqAddress req) = Ok addr →
     o _ (SPDK addr (EngineFrontendSnapshotPurge (PqEngineFrontendName req))) = Some er →
     (eval o (SnapshotPurge req skip)).1 = Some (ok tt)) ∧
  (PqDataEngine req = DATA_ENGINE_V1 → o _ (Local (NewTask (task_of req))) = Ok tt →
     o _ (Local (OnTask (task_of req) (PurgeSnapshots skip))) = Some er →
     (eval o (SnapshotPurge req skip)).1 = Some (fail er)).
Proof.
  unfold SnapshotPurge. split.
  - intros addr He Ha _. rewrite He, dispatch_v2. unfold V2_SnapshotPurge.
    by rewrite (result_with_spdk_at o _ addr).
  - intros He Ht Hp. rewrite He, dispatch_v1.
    unfold V1_SnapshotPurge, task_forward, with_task, try.
    rewrite result_bind, eval_call. cbn [mbind option_bind fst]. rewrite Ht.
    rewrite result_bind, eval_call. cbn [mbind option_bind fst]. by rewrite Hp.
Qed.

(** Removing a V1 replica. Stopping the hashing of its snapshots may fail in
    any way; the replica is then still asked to be deleted, as the last request
    before the controller's client is closed, and the error of the method is
    that of the deletion. *)
Theorem ReplicaRemove_despite_hashes (o : ∀ X, callE X → X) (req : ProxyEngineRequest)
    (name address : string) :
  PqDataEngine req = DATA_ENGINE_V1 → o _ (Dial (controller req)) = Ok tt →
  let delete := Eng (controller req) (ControllerReplicaDelete address) in
  ∃ before, eval o (ReplicaRemove req name address) =
    (Some (None, o _ delete), before ++ [log delete; log (Hangup (controller req))]).
Proof.
  intros He Hd delete. unfold ReplicaRemove, V1_ReplicaRemove, with_controller.
  rewrite He, dispatch_v1, eval_with_client, Hd, eval_bind.
  assert (∃ x l, eval o (cancelSnapshotHashesForReplica req address) = (Some x, l)) as (x & l & ->).
  { unfold cancelSnapshotHashesForReplica.
    repeat (rewrite eval_bind, eval_call; case_match); eauto. }
  rewrite eval_bind, eval_call. cbn [fst snd eval mret free_ret app].
  exists (log (Dial (controller req)) :: l). simpl. by rewrite <- app_assoc.
Qed.

(** The list of the snapshots of a V2 volume. It has the snapshots of the
    engine and its head, which takes the place of a snapshot of the same name,
    and nothing else; each is dated with its timestamp or, for one that has
    none, with its creation. *)
Theorem SnapshotList_correct (o : ∀ X, callE X → X) (req : ProxyEngineRequest) (addr : string)
    (e : Engine) :
  PqDataEngine req = DATA_ENGINE_V2 → reach o (PqAddress req) = Ok addr →
  o _ (SPDK addr (EngineGet (PqEngineName req))) = Ok e →
  ∃ disks, (eval o (SnapshotList req)).1 = Some (ok disks) ∧
    ∀ n d, disks !! n = Some d ↔ ∃ lv, d = lvol_disk lv ∧
      (EHead e = Some lv ∧ n = LvName lv ∨
       ESnapshots e !! n = Some lv ∧ ∀ h, EHead e = Some h → n ≠ LvName h) ∧
      (SdCreated d = LvSnapshotTimestamp lv ∧ LvSnapshotTimestamp lv ≠ "" ∨
       SdCreated d = LvCreationTime lv ∧ LvSnapshotTimestamp lv = "").
Proof.
  intros He Ha Hg. exists (lvol_disk <$> engine_disks e). split.
  { unfold SnapshotList, V2_SnapshotList. rewrite He, dispatch_v2, eval_with_spdk_err, Ha.
    rewrite result_bind, eval_call. cbn [mbind option_bind fst]. by rewrite Hg. }
  assert (∀ lv, SdCreated (lvol_disk lv) = LvSnapshotTimestamp lv ∧ LvSnapshotTimestamp lv ≠ "" ∨
    SdCreated (lvol_disk lv) = LvCreationTime lv ∧ LvSnapshotTimestamp lv = "") as Hc.
  { intros lv. simpl. case_bool_decide; auto. }
  intros n d. rewrite lookup_fmap_Some. unfold engine_disks. split.
  - intros (lv & <- & Hl). exists lv. split; [done|]. split; [|apply Hc].
    destruct (EHead e) as [h|]; [|by right; split].
    apply lookup_insert_Some in Hl as [[<- <-]|[Hne Hl]]; [by left|right].
    split; [done|]. intros h' [= <-]. congruence.
  - intros (lv & -> & Hlv & _). exists lv. split; [done|].
    destruct Hlv as [[-> ->]|[Hl Hne]]; [by rewrite lookup_insert_eq|].
    destruct (EHead e) as [h|]; [|done]. rewrite lookup_insert_ne; [done|].
    specialize (Hne h eq_refl). congruence.
Qed.

(** ** Examples *)

(** A volume with four replicas: one has been cloned, one is being rebuilt, one
    is idle, one is on a host that is down. *)
Definition example_engine : Engine :=
  {| EName := "vol-e-0"; EVolumeName := "vol"; EPort := 20001; EState := "running";
     EErrorMsg := ""; EUUID := "u";
     EReplicaModeMap := {["r1" := "RW"; "r2" := "WO"; "r3" := "RW"; "r4" := "RW"]};
     EReplicaAddressMap := {["r1" := "10.0.0.1:20001"; "r2" := "10.0.0.2:20001";
                             "r3" := "10.0.0.3:20001"; "r4" := "10.0.0.4:20001"]};
     ESpecSize := 1073741824; EFrontend := ""; EEndpoint := ""; EIsExpanding := false;
     ELastExpansionError := "no space"; ELastExpansionFailedAt := "t0"; ESnapshotMaxCount := 250;
     EHead := Some {| LvName := "volume-head"; LvActualSize := 0; LvParent := "s1";
                      LvChildren := ∅; LvCreationTime := "t1"; LvUserCreated := false;
                      LvSnapshotTimestamp := "" |};
     ESnapshots := {["s1" := {| LvName := "s1"; LvActualSize := 4096; LvParent := "";
                                LvChildren := {["volume-head" := true]}; LvCreationTime := "t0";
                                LvUserCreated := true; LvSnapshotTimestamp := "t2" |}]} |}.

Definition example_request : ProxyEngineRequest :=
  {| PqAddress := "10.0.0.9:8501"; PqEngineName := "vol-e-0"; PqVolumeName := "vol";
     PqDataEngine := DATA_ENGINE_V2; PqEngineFrontendName := "vol-ef-0" |}.

Definition cloned : CloneStatus :=
  {| CsIsCloning := false; CsError := ""; CsProgress := 100; CsState := "complete";
     CsFromReplicaAddress := "10.0.0.7:20001"; CsSnapshotName := "s0" |}.

Definition example_services (X : Type) (c : callE X) : X :=
  match c in callE X return X with
  | Dial c => if bool_decide (c.2 = "10.0.0.4:8504") then Err (EStatus Unavailable "down") else Ok tt
  | SPDK _ q =>
      match q in spdkE X return X with
      | EngineGet _ => Ok example_engine
      | ReplicaSnapshotCloneDstStatusCheck r =>
          Ok (Some (if bool_decide (r = "r1") then cloned else no_clone_status))
      | ReplicaRebuildingDstShallowCopyCheck _ =>
          Ok {| ScError := ""; ScTotalState := "in_progress"; ScTotalProgress := 40;
                ScSrcReplicaAddress := "10.0.0.1:20001" |}
      | EngineFrontendSnapshotDelete _ s =>
          if bool_decide (s = "s2") then Some (EStatus NotFound "s2") else None
      | EngineFrontendSnapshotPurge _ => Some (EStatus FailedPrecondition "rebuilding")
      | q => empty_services None _ (SPDK "" q)
      end
  | c => empty_services None _ c
  end.

Lemma example_distinct : distinct_addresses (EReplicaAddressMap example_engine).
Proof.
  assert (map_Forall (λ n a, map_Forall (λ n' a', a = a' → n = n')
    (EReplicaAddressMap example_engine)) (EReplicaAddressMap example_engine)) as H.
  { apply (bool_decide_unpack _). by vm_compute. }
  intros n n' a Hn Hn'. by apply (H n a Hn n' a Hn').
Qed.

Theorem SnapshotCloneStatus_correct_witness :
  ∃ status, (eval example_services (SnapshotCloneStatus map_to_list example_request)).1 =
    Some (ok status) ∧ status !! "tcp://10.0.0.1:20001" = Some cloned.
Proof.
  destruct (SnapshotCloneStatus_correct example_services map_to_list example_request
    "10.0.0.9:8504" example_engine) as [H _]; [apply range_order_to_list|reflexivity|
    vm_compute; reflexivity|reflexivity|apply example_distinct|].
  destruct (H "r1" cloned) as (status & Hr & Hs); [vm_compute; reflexivity|].
  exists status. split; [exact Hr|]. apply Hs. exists "r1", cloned.
  split_and!; vm_compute; reflexivity.
Defined.

Theorem SnapshotCloneStatus_order_free_witness :
  (eval example_services (SnapshotCloneStatus map_to_list example_request)).1 =
    (eval example_services (SnapshotCloneStatus (λ m, reverse (map_to_list m)) example_request)).1.
Proof.
  apply (SnapshotCloneStatus_order_free example_services map_to_list
    (λ m, reverse (map_to_list m)) example_request).
  - apply range_order_to_list.
  - intros m. apply reverse_Permutation.
  - intros addr e [= <-]. apply example_distinct.
Defined.

Theorem ReplicaRebuildingQosSet_best_effort_witness :
  (eval example_services (ReplicaRebuildingQosSet map_to_list example_request 100)).1 =
    Some (ok tt) ∧
  qos_requests (eval example_services
    (ReplicaRebuildingQosSet map_to_list example_request 100)).2 = [("10.0.0.2:8504", "r2", 100)].
Proof.
  destruct (ReplicaRebuildingQosSet_best_effort example_services map_to_list example_request 100
    "10.0.0.9:8504" example_engine) as [H1 H2]; [reflexivity|vm_compute; reflexivity|reflexivity|].
  split; [exact H1|]. rewrite H2. vm_compute. reflexivity.
Defined.

Theorem ReplicaRebuildingStatus_correct_witness :
  ∃ status, (eval example_services (ReplicaRebuildingStatus map_to_list example_request)).1 =
    Some (ok status) ∧ RbProgress <$> status !! "tcp://10.0.0.2:20001" = Some 40.
Proof.
  destruct (ReplicaRebuildingStatus_correct example_services map_to_list example_request
    "10.0.0.9:8504" example_engine) as [H _]; [apply range_order_to_list|reflexivity|
    vm_compute; reflexivity|reflexivity|apply example_distinct|].
  destruct H as (status & Hr & Hs).
  - intros n m er Hm He.
    assert (map_Forall (λ n m, Is_true match rebuild_answer example_services
      (EReplicaAddressMap example_engine) n m with Some (Err _) => false | _ => true end)
      (EReplicaModeMap example_engine)) as H.
    { apply (bool_decide_unpack _). vm_compute. exact I. }
    apply H in Hm. by rewrite He in Hm.
  - exists status. split; [exact Hr|].
    rewrite (proj2 (Hs "tcp://10.0.0.2:20001" (rebuild_response
      {| ScError := ""; ScTotalState := "in_progress"; ScTotalProgress := 40;
         ScSrcReplicaAddress := "10.0.0.1:20001" |}))); [reflexivity|].
    eexists "r2", "WO", _. split_and!; [vm_compute; reflexivity..|reflexivity].
Defined.

Theorem VolumeGet_degrades_witness :
  ∃ v, (eval example_services (VolumeGet "10.0.0.8:8504" example_request)).1 = Some (ok v) ∧
    VoLastExpansionError v ≠ "".
Proof.
  destruct (VolumeGet_degrades example_services "10.0.0.8:8504" example_request example_engine)
    as (f & v & Hr & _ & _ & _ & Hv); [reflexivity..|].
  exists v. split; [exact Hr|]. rewrite Hv. by intros [? _].
Defined.

Theorem SnapshotRemove_correct_witness :
  (eval example_services (SnapshotRemove example_request ["s1"; "s2"; "s3"])).1 =
    Some (Some tt, Some (EStatus NotFound "s2")).
Proof.
  destruct (SnapshotRemove_correct example_services example_request ["s1"; "s2"; "s3"]) as [H _].
  rewrite (H "10.0.0.9:8504"); [reflexivity|reflexivity|vm_compute; reflexivity].
Defined.

Theorem SnapshotPurge_hides_errors_witness :
  (eval example_services (SnapshotPurge example_request false)).1 = Some (ok tt).
Proof.
  refine (proj1 (SnapshotPurge_hides_errors example_services example_request false
    (EStatus FailedPrecondition "rebuilding")) "10.0.0.9:8504" _ _ _);
    [reflexivity|vm_compute; reflexivity|reflexivity].
Defined.

Definition example_v1_request : ProxyEngineRequest :=
  {| PqAddress := "10.0.0.9:10001"; PqEngineName := "vol-e-0"; PqVolumeName := "vol";
     PqDataEngine := DATA_ENGINE_V1; PqEngineFrontendName := "" |}.

Theorem ReplicaRemove_despite_hashes_witness :
  ∃ before, eval example_services (ReplicaRemove example_v1_request "r1" "tcp://10.0.0.1:10000") =
    (Some (None, None), before ++
      [log (Eng (controller example_v1_request) (ControllerReplicaDelete "tcp://10.0.0.1:10000"));
       log (Hangup (controller example_v1_request))]).
Proof.
  by apply (ReplicaRemove_despite_hashes example_services example_v1_request "r1"
    "tcp://10.0.0.1:10000").
Defined.

Theorem SnapshotList_correct_witness :
  ∃ disks, (eval example_services (SnapshotList example_request)).1 = Some (ok disks) ∧
    SdCreated <$> disks !! "s1" = Some "t2".
Proof.
  destruct (SnapshotList_correct example_services example_request "10.0.0.9:8504" example_engine)
    as (disks & Hr & Hd); [reflexivity|vm_compute; reflexivity|reflexivity|].
  exists disks. split; [exact Hr|]. rewrite (proj2 (Hd "s1" (lvol_disk
    {| LvName := "s1"; LvActualSize := 4096; LvParent := ""; LvChildren := {["volume-head" := true]};
       LvCreationTime := "t0"; LvUserCreated := true; LvSnapshotTimestamp := "t2" |})));
    [reflexivity|].
  eexists. split; [reflexivity|]. split; [right|left; by split]. split; [vm_compute; reflexivity|].
  by intros h [= <-].
Defined.
