(* ===== verification/ProxyClient.v ===== *)
(** * The client of the proxy

    [pkg/client/proxy*.go]: each method checks its parameters, makes one request
    and converts the answer; whatever fails after the checks is wrapped with the
    addresses of the proxy and of the engine. *)
From S2P Require Import Prelude GoStrings Sched Process Calls Grpc ProxyEnv Messages Services Instance Disk Proxy ProxyBackup ProxyVolume ProxySnapshot ProxyReplica ProxyProps ProxyServer Client Labels Api.

#[local] Open Scope Z_scope.

(** ** Requests *)

Inductive proxyE : Type → Type :=
  | Rpc {X} (m : proxy_method X) : proxyE (res X)
  | RpcImage {X} (m : image_method X) : proxyE (res X)
  | RpcRemount (volume : string) : proxyE (res unit)
  | OpenImageWatch : proxyE (res unit).

(** ** The client's types ([proxy_types.go]) *)

Record SnapshotCloneStatusInfo := mkCloneInfo {
  ClIsCloning : bool; ClError : string; ClProgress : Z; ClState : string;
  ClFromReplicaAddress : string; ClSnapshotName : string;
}.
Record SnapshotPurgeStatusInfo := mkPurgeInfo {
  ClpError : string; ClpIsPurging : bool; ClpProgress : Z; ClpState : string;
}.
Record SnapshotBackupStatusInfo := mkBackupInfo {
  ClbProgress : Z; ClbBackupURL : string; ClbError : string; ClbSnapshotName : string;
  ClbState : string; ClbReplicaAddress : string;
}.
Record BackupRestoreStatusInfo := mkRestoreInfo {
  ClrIsRestoring : bool; ClrLastRestored : string; ClrCurrentRestoringBackup : string;
  ClrProgress : Z; ClrError : string; ClrFilename : string; ClrState : string;
  ClrBackupURL : string;
}.
Record BackupRestoreStatusResponse := mkRestoreResponse {
  ClrStatus : gmap string BackupRestoreStatusInfo; ClrEngineError : string;
}.
Record ReplicaRebuildStatusInfo := mkRebuildInfo {
  CleError : string; CleIsRebuilding : bool; CleProgress : Z; CleState : string;
  CleFromReplicaAddress : string; CleFromReplicaAddressList : list string;
  CleAppliedRebuildingMBps : Z;
}.
Record SnapshotHashStatusInfo := mkHashInfo {
  ClhState : string; ClhChecksum : string; ClhError : string; ClhSilentlyCorrupted : bool;
}.
Record ClientMetrics := mkClientMetrics {
  ClmReadThroughput : Z; ClmWriteThroughput : Z; ClmReadLatency : Z; ClmWriteLatency : Z;
  ClmReadIOPS : Z; ClmWriteIOPS : Z;
}.

(** What the methods make of the messages. *)
Definition clone_status (v : CloneStatus) : SnapshotCloneStatusInfo :=
  {| ClIsCloning := CsIsCloning v; ClError := CsError v; ClProgress := CsProgress v;
     ClState := CsState v; ClFromReplicaAddress := CsFromReplicaAddress v;
     ClSnapshotName := CsSnapshotName v |}.

Definition purge_status (v : PurgeStatus) : SnapshotPurgeStatusInfo :=
  {| ClpError := PsError v; ClpIsPurging := PsIsPurging v; ClpProgress := PsProgress v;
     ClpState := PsState v |}.

Definition backup_status (recv : BackupStatus) : SnapshotBackupStatusInfo :=
  {| ClbProgress := BsProgress recv; ClbBackupURL := BsUrl recv; ClbError := BsError recv;
     ClbSnapshotName := BsSnapshot recv; ClbState := BsState recv;
     ClbReplicaAddress := BsReplica recv |}.

Definition restore_status (v : RestoreStatus) : BackupRestoreStatusInfo :=
  {| ClrIsRestoring := RsIsRestoring v; ClrLastRestored := RsLastRestored v;
     ClrCurrentRestoringBackup := RsCurrent v; ClrProgress := RsProgress v;
     ClrError := RsError v; ClrFilename := RsFilename v; ClrState := RsState v;
     ClrBackupURL := RsUrl v |}.

Definition convertProxyResponseToBackupRestoreStatus (proxyResp : RestoreStatuses) :
    BackupRestoreStatusResponse :=
  {| ClrStatus := restore_status <$> RtStatus proxyResp; ClrEngineError := RtEngineError proxyResp |}.

Definition rebuild_status (v : RebuildStatus) : ReplicaRebuildStatusInfo :=
  {| CleError := RbError v; CleIsRebuilding := RbIsRebuilding v; CleProgress := RbProgress v;
     CleState := RbState v; CleFromReplicaAddress := "";
     CleFromReplicaAddressList := RbFromReplicaAddressList v; CleAppliedRebuildingMBps := 0 |}.

Definition hash_status (v : HashStatus) : SnapshotHashStatusInfo :=
  {| ClhState := HsState v; ClhChecksum := HsChecksum v; ClhError := HsError v;
     ClhSilentlyCorrupted := HsSilentlyCorrupted v |}.

Definition client_metrics (m : Metrics) : ClientMetrics :=
  {| ClmReadThroughput := ReadThroughput m; ClmWriteThroughput := WriteThroughput m;
     ClmReadLatency := ReadLatency m; ClmWriteLatency := WriteLatency m;
     ClmReadIOPS := ReadIOPS m; ClmWriteIOPS := WriteIOPS m |}.

(** ** The steps of a method *)

Section client.
(** The URL of the proxy, the order of a range, and the decoder of a
    [TaskError], a list of addresses with messages ([json.Unmarshal]). *)
Context (ServiceURL : string) (range : gmap string string → list (string * string))
  (unmarshal : string → res (list (string * string))).

Fixpoint first_missing (input : list (string * string)) : err :=
  match input with
  | [] => None
  | (k, v) :: input' =>
      if bool_decide (v = "") then Some (EPlain ("missing required " +:+ k +:+ " parameter"))
      else first_missing input'
  end.

Definition validateProxyMethodParameters (input : gmap string string) : err :=
  first_missing (range input).

Definition getProxyErrorPrefix (destination : string) : string :=
  "proxyServer=" +:+ ServiceURL +:+ " destination=" +:+ destination +:+ ":".

Definition validated {A} (input : gmap string string) (msg : string)
    (k : free proxyE (res A)) : free proxyE (res A) :=
  match validateProxyMethodParameters input with
  | Some e => refuse (EWrap msg e)
  | None => k
  end.

(** The deferred wrapping of errors, and the request. *)
Definition wrapped {A} (serviceAddress msg : string) (m : free proxyE (res A)) :
    free proxyE (res A) :=
  deferred (getProxyErrorPrefix serviceAddress +:+ " " +:+ msg) m.

Definition rpc {X} (m : proxy_method X) : free proxyE (res X) := request_as id (Rpc m) id.
Definition rpc_as {X A} (m : proxy_method X) (conv : X → A) : free proxyE (res A) :=
  request_as id (Rpc m) conv.

Definition engine_input (engineName volumeName serviceAddress : string) : gmap string string :=
  {["engineName" := engineName; "volumeName" := volumeName;
    "serviceAddress" := serviceAddress]}.

(** The name of the frontend is required of the engine [v2], written so. *)
Definition with_frontend (dataEngine engineFrontendName : string)
    (input : gmap string string) : gmap string string :=
  if bool_decide (dataEngine = "v2") then <["engineFrontendName" := engineFrontendName]> input
  else input.

Definition engine_req (driver : Z) (engineName engineFrontendName volumeName serviceAddress : string) :
    ProxyEngineRequest :=
  {| PqAddress := serviceAddress; PqEngineName := engineName; PqVolumeName := volumeName;
     PqDataEngine := driver; PqEngineFrontendName := engineFrontendName |}.

(** ** The server's version and metrics ([proxy.go], [proxy_metrics.go]) *)

Definition ProxyClient_ServerVersionGet (serviceAddress : string) :
    free proxyE (res VersionOutput) :=
  validated {["serviceAddress" := serviceAddress]} "failed to get server version" (
  wrapped serviceAddress "failed to get server version" (
  rpc (MVersion (engine_req 0 "" "" "" serviceAddress)))).

Definition ProxyClient_MetricsGet (dataEngine engineName volumeName serviceAddress : string) :
    free proxyE (res ClientMetrics) :=
  validated (<["dataEngine" := dataEngine]> (engine_input engineName volumeName serviceAddress))
    "failed to get metrics for volume" (
  with_driver dataEngine "failed to get metrics for volume" (λ driver,
  wrapped serviceAddress "failed to get metrics for volume" (
  rpc_as (MMetricsGet (engine_req driver engineName "" volumeName serviceAddress))
    client_metrics))).

(** ** Volumes ([proxy_volume.go]) *)

Definition ProxyClient_VolumeGet
    (dataEngine engineName engineFrontendName volumeName serviceAddress : string) :
    free proxyE (res Volume) :=
  validated (engine_input engineName volumeName serviceAddress) "failed to get volume" (
  with_driver dataEngine "failed to get volume" (λ driver,
  wrapped serviceAddress "failed to get volume" (
  rpc (MVolumeGet (engine_req driver engineName engineFrontendName volumeName serviceAddress))))).

Definition ProxyClient_VolumeExpand
    (dataEngine engineName engineFrontendName volumeName serviceAddress : string) (size : Z) :
    free proxyE (res unit) :=
  validated (with_frontend dataEngine engineFrontendName
      (engine_input engineName volumeName serviceAddress)) "failed to expand volume" (
  with_driver dataEngine "failed to expand volume" (λ driver,
  wrapped serviceAddress "failed to expand volume" (
  rpc (MVolumeExpand
    (engine_req driver engineName engineFrontendName volumeName serviceAddress) size)))).

Definition ProxyClient_VolumeFrontendStart
    (dataEngine engineName volumeName serviceAddress frontendName : string) :
    free proxyE (res unit) :=
  validated (<["frontendName" := frontendName]>
      (engine_input engineName volumeName serviceAddress)) "failed to start volume frontend" (
  with_driver dataEngine "failed to start volume frontend" (λ driver,
  wrapped serviceAddress ("failed to start volume frontend " +:+ frontendName) (
  rpc (MVolumeFrontendStart
    (engine_req driver engineName "" volumeName serviceAddress) frontendName)))).

Definition ProxyClient_VolumeFrontendShutdown
    (dataEngine engineName volumeName serviceAddress : string) : free proxyE (res unit) :=
  validated (engine_input engineName volumeName serviceAddress)
    "failed to shutdown volume frontend" (
  with_driver dataEngine "failed to shutdown volume frontend" (λ driver,
  wrapped serviceAddress "failed to shutdown volume frontend" (
  rpc (MVolumeFrontendShutdown (engine_req driver engineName "" volumeName serviceAddress))))).

(** [strconv.FormatBool]. *)
Definition FormatBool (b : bool) : string := if b then "true" else "false".

Definition ProxyClient_VolumeUnmapMarkSnapChainRemovedSet
    (dataEngine engineName volumeName serviceAddress : string) (enabled : bool) :
    free proxyE (res unit) :=
  validated (<["enabled" := FormatBool enabled]>
      (engine_input engineName volumeName serviceAddress))
    "failed to set volume flag UnmapMarkSnapChainRemoved" (
  with_driver dataEngine "failed to set volume flag UnmapMarkSnapChainRemoved" (λ driver,
  wrapped serviceAddress "failed to set UnmapMarkSnapChainRemoved" (
  rpc (MVolumeUnmapMarkSnapChainRemovedSet
    (engine_req driver engineName "" volumeName serviceAddress) enabled)))).

Definition ProxyClient_VolumeSnapshotMaxCountSet
    (dataEngine engineName volumeName serviceAddress : string) (count : Z) :
    free proxyE (res unit) :=
  validated (<["count" := itoa count]> (engine_input engineName volumeName serviceAddress))
    "failed to set volume flag SnapshotMaxCount" (
  with_driver dataEngine "failed to set volume flag SnapshotMaxCount" (λ driver,
  wrapped serviceAddress "failed to set SnapshotMaxCount" (
  rpc (MVolumeSnapshotMaxCountSet
    (engine_req driver engineName "" volumeName serviceAddress) (int32 count))))).

Definition ProxyClient_VolumeSnapshotMaxSizeSet
    (dataEngine engineName volumeName serviceAddress : string) (size : Z) :
    free proxyE (res unit) :=
  validated (<["size" := itoa size]> (engine_input engineName volumeName serviceAddress))
    "failed to set volume flag SnapshotMaxSize" (
  with_driver dataEngine "failed to set volume flag SnapshotMaxSize" (λ driver,
  wrapped serviceAddress "failed to set SnapshotMaxSize" (
  rpc (MVolumeSnapshotMaxSizeSet
    (engine_req driver engineName "" volumeName serviceAddress) size)))).

Definition ProxyClient_RemountReadOnlyVolume (volumeName : string) : free proxyE (res unit) :=
  require (is_empty volumeName) "failed to remount volume, volume name is empty" (
  request_as id (RpcRemount volumeName) id).

(** ** Snapshots ([proxy_snapshot.go]) *)

(** The first label that is refused, in the order of the range. *)
Fixpoint label_error (labels : list (string * string)) : err :=
  match labels with
  | [] => None
  | (key, value) :: labels' =>
      match IsQualifiedName key with
      | e :: _ => Some (EPlain ("invalid key " +:+ key +:+ " for label: " +:+ e))
      | [] =>
          if bool_decide (value = "") then
            Some (EPlain ("invalid empty value for label with key " +:+ key))
          else label_error labels'
      end
  end.

Definition ProxyClient_VolumeSnapshot
    (dataEngine engineName engineFrontendName volumeName serviceAddress volumeSnapshotName : string)
    (labels : gmap string string) (freezeFilesystem : bool) : free proxyE (res string) :=
  validated (with_frontend dataEngine engineFrontendName
      (engine_input engineName volumeName serviceAddress)) "failed to snapshot volume" (
  with_driver dataEngine "failed to snapshot volume" (λ driver,
  wrapped serviceAddress "failed to snapshot volume" (
  match label_error (range labels) with
  | Some e => refuse e
  | None =>
      rpc (MVolumeSnapshot
        (engine_req driver engineName engineFrontendName volumeName serviceAddress)
        volumeSnapshotName labels freezeFilesystem)
  end))).

Definition ProxyClient_SnapshotList (dataEngine engineName volumeName serviceAddress : string) :
    free proxyE (res (gmap string SnapshotDisk)) :=
  validated (engine_input engineName volumeName serviceAddress) "failed to list snapshots" (
  with_driver dataEngine "failed to list snapshots" (λ driver,
  wrapped serviceAddress "failed to list snapshots" (
  rpc (MSnapshotList (engine_req driver engineName "" volumeName serviceAddress))))).

Definition ProxyClient_SnapshotClone
    (dataEngine engineName volumeName serviceAddress snapshotName fromEngineAddress
     fromVolumeName fromEngineName : string) (fileSyncHTTPClientTimeout grpcTimeoutSeconds : Z)
    (cloneMode : string) (dstReplicaSrcReplicaPairMap : gmap string string) :
    free proxyE (res unit) :=
  validated (<["snapshotName" := snapshotName]> (<["fromEngineAddress" := fromEngineAddress]>
      (<["fromVolumeName" := fromVolumeName]> (<["fromEngineName" := fromEngineName]>
      (engine_input engineName volumeName serviceAddress))))) "failed to clone snapshot" (
  with_driver dataEngine "failed to clone snapshot" (λ driver,
  wrapped serviceAddress
    ("failed to clone snapshot " +:+ snapshotName +:+ " from " +:+ fromEngineAddress) (
  rpc (MSnapshotClone
    {| ScRequest := engine_req driver engineName "" volumeName serviceAddress;
       ScFromEngineAddress := fromEngineAddress; ScFromEngineName := fromEngineName;
       ScFromVolumeName := fromVolumeName; ScSnapshotName := snapshotName;
       ScExportBackingImageIfExist := false;
       ScFileSyncHttpClientTimeout := int32 fileSyncHTTPClientTimeout;
       ScGrpcTimeoutSeconds := grpcTimeoutSeconds; ScCloneMode := getCloneMode cloneMode;
       ScReplicaPairMap := dstReplicaSrcReplicaPairMap |})))).

Definition ProxyClient_SnapshotCloneStatus
    (dataEngine engineName volumeName serviceAddress : string) :
    free proxyE (res (gmap string SnapshotCloneStatusInfo)) :=
  validated (engine_input engineName volumeName serviceAddress)
    "failed to get snapshot clone status" (
  with_driver dataEngine "failed to get snapshot clone status" (λ driver,
  wrapped serviceAddress "failed to get snapshot clone status" (
  rpc_as (MSnapshotCloneStatus (engine_req driver engineName "" volumeName serviceAddress))
    (fmap clone_status)))).

(** [VolumeHeadName] of the engine. *)
Definition VolumeHeadName : string := "volume-head".

Definition ProxyClient_SnapshotRevert
    (dataEngine engineName engineFrontendName volumeName serviceAddress name : string) :
    free proxyE (res unit) :=
  validated (with_frontend dataEngine engineFrontendName (<["name" := name]>
      (engine_input engineName volumeName serviceAddress)))
    "failed to revert volume to snapshot" (
  with_driver dataEngine "failed to revert volume to snapshot" (λ driver,
  wrapped serviceAddress ("failed to revert volume to snapshot " +:+ name) (
  require (bool_decide (name = VolumeHeadName))
    ("invalid operation: cannot revert to " +:+ VolumeHeadName) (
  rpc (MSnapshotRevert
    (engine_req driver engineName engineFrontendName volumeName serviceAddress) name))))).

Definition ProxyClient_SnapshotPurge
    (dataEngine engineName engineFrontendName volumeName serviceAddress : string)
    (skipIfInProgress : bool) : free proxyE (res unit) :=
  validated (with_frontend dataEngine engineFrontendName
      (engine_input engineName volumeName serviceAddress)) "failed to purge snapshots" (
  with_driver dataEngine "failed to purge snapshots" (λ driver,
  wrapped serviceAddress "failed to purge snapshots" (
  rpc (MSnapshotPurge
    (engine_req driver engineName engineFrontendName volumeName serviceAddress)
    skipIfInProgress)))).

Definition ProxyClient_SnapshotPurgeStatus
    (dataEngine engineName engineFrontendName volumeName serviceAddress : string) :
    free proxyE (res (gmap string SnapshotPurgeStatusInfo)) :=
  validated (engine_input engineName volumeName serviceAddress)
    "failed to get snapshot purge status" (
  with_driver dataEngine "failed to get snapshot purge status" (λ driver,
  wrapped serviceAddress "failed to get snapshot purge status" (
  rpc_as (MSnapshotPurgeStatus
    (engine_req driver engineName engineFrontendName volumeName serviceAddress))
    (fmap purge_status)))).

(** A list of names as [fmt] prints it. *)
Definition list_string (names : list string) : string :=
  "[" +:+ String.concat " " names +:+ "]".

Definition ProxyClient_SnapshotRemove
    (dataEngine engineName engineFrontendName volumeName serviceAddress : string)
    (names : list string) : free proxyE (res unit) :=
  validated (with_frontend dataEngine engineFrontendName
      (engine_input engineName volumeName serviceAddress))
    ("failed to remove snapshot " +:+ list_string names) (
  with_driver dataEngine "failed to remove snapshot" (λ driver,
  wrapped serviceAddress ("failed to remove snapshot " +:+ list_string names) (
  rpc (MSnapshotRemove
    (engine_req driver engineName engineFrontendName volumeName serviceAddress) names)))).

Definition ProxyClient_SnapshotHash
    (dataEngine engineName volumeName serviceAddress snapshotName : string) (rehash : bool) :
    free proxyE (res unit) :=
  validated (engine_input engineName volumeName serviceAddress) "failed to hash snapshot" (
  with_driver dataEngine "failed to hash snapshot" (λ driver,
  wrapped serviceAddress "failed to hash snapshot" (
  rpc (MSnapshotHash (engine_req driver engineName "" volumeName serviceAddress)
    snapshotName rehash)))).

Definition ProxyClient_SnapshotHashStatus
    (dataEngine engineName volumeName serviceAddress snapshotName : string) :
    free proxyE (res (gmap string SnapshotHashStatusInfo)) :=
  validated (engine_input engineName volumeName serviceAddress)
    "failed to get snapshot hash status" (
  with_driver dataEngine "failed to get snapshot hash status" (λ driver,
  wrapped serviceAddress "failed to get snapshot hash status" (
  rpc_as (MSnapshotHashStatus (engine_req driver engineName "" volumeName serviceAddress)
    snapshotName) (fmap hash_status)))).

(** ** Replicas ([proxy_replica.go]) *)

Definition ProxyClient_ReplicaAdd
    (dataEngine engineName engineFrontendName volumeName serviceAddress replicaName
     replicaAddress : string) (restore : bool) (size currentSize fileSyncHTTPClientTimeout : Z)
    (fastSync : bool) (localSync : option FileLocalSync)
    (linkedCloneSource : option LinkedCloneSource) (grpcTimeoutSeconds : Z) :
    free proxyE (res unit) :=
  validated (<["replicaName" := replicaName]> (<["replicaAddress" := replicaAddress]>
      (engine_input engineName volumeName serviceAddress))) "failed to add replica for volume" (
  with_driver dataEngine "failed to add replica for volume" (λ driver,
  wrapped serviceAddress
    ((if restore then "failed to add restore replica " else "failed to add replica ") +:+
     replicaAddress +:+ " for volume") (
  rpc (MReplicaAdd
    {| RaRequest := engine_req driver engineName engineFrontendName volumeName serviceAddress;
       RaReplicaName := replicaName; RaReplicaAddress := replicaAddress; RaRestore := restore;
       RaSize := size; RaCurrentSize := currentSize;
       RaFileSyncHttpClientTimeout := int32 fileSyncHTTPClientTimeout;
       RaFastSync := fastSync; RaLocalSync := localSync;
       RaGrpcTimeoutSeconds := grpcTimeoutSeconds;
       RaLinkedCloneSource := linkedCloneSource |})))).

(** [etypes.ControllerReplicaInfo]: the address and the mode. *)
Definition replica_info (cr : ControllerReplica) : string * string :=
  (CrAddress cr, GRPCReplicaModeToReplicaMode (CrMode cr)).

Definition ProxyClient_ReplicaList (dataEngine engineName volumeName serviceAddress : string) :
    free proxyE (res (list (string * string))) :=
  validated (engine_input engineName volumeName serviceAddress)
    "failed to list replicas for volume" (
  with_driver dataEngine "failed to list replicas for volume" (λ driver,
  wrapped serviceAddress "failed to list replicas for volume" (
  rpc_as (MBackup (QReplicaList (engine_req driver engineName "" volumeName serviceAddress)))
    (fmap replica_info)))).

Definition ProxyClient_ReplicaRebuildingStatus
    (dataEngine engineName volumeName serviceAddress : string) :
    free proxyE (res (gmap string ReplicaRebuildStatusInfo)) :=
  validated (engine_input engineName volumeName serviceAddress)
    "failed to get replicas rebuilding status" (
  with_driver dataEngine "failed to get replicas rebuilding status" (λ driver,
  wrapped serviceAddress "failed to get replicas rebuilding status" (
  rpc_as (MReplicaRebuildingStatus (engine_req driver engineName "" volumeName serviceAddress))
    (fmap rebuild_status)))).

Definition ProxyClient_ReplicaRebuildingQosSet
    (dataEngine engineName volumeName serviceAddress : string) (qosLimitMbps : Z) :
    free proxyE (res unit) :=
  validated (engine_input engineName volumeName serviceAddress)
    "failed to set replicas rebuilding qos set" (
  with_driver dataEngine "failed to set replicas rebuilding qos set" (λ driver,
  wrapped serviceAddress "failed to set replicas rebuilding qos set" (
  rpc (MReplicaRebuildingQosSet (engine_req driver engineName "" volumeName serviceAddress)
    qosLimitMbps)))).

Definition ProxyClient_ReplicaVerifyRebuild
    (dataEngine engineName volumeName serviceAddress replicaAddress replicaName : string) :
    free proxyE (res unit) :=
  validated (<["replicaAddress" := replicaAddress]> (<["replicaName" := replicaName]>
      (engine_input engineName volumeName serviceAddress))) "failed to verify replica rebuild" (
  with_driver dataEngine "failed to verify replica rebuild" (λ driver,
  wrapped serviceAddress ("failed to verify replica " +:+ replicaAddress +:+ " rebuild") (
  rpc (MReplicaVerifyRebuild (engine_req driver engineName "" volumeName serviceAddress)
    replicaAddress replicaName)))).

Definition ProxyClient_ReplicaRemove
    (dataEngine serviceAddress engineName replicaAddress replicaName : string) :
    free proxyE (res unit) :=
  validated {["serviceAddress" := serviceAddress; "engineName" := engineName]}
    "failed to remove replica for volume" (
  require (is_empty replicaAddress && is_empty replicaName)
    "failed to remove replica for volume: replica address and name are both empty" (
  with_driver dataEngine "failed to remove replica for volume" (λ driver,
  wrapped serviceAddress ("failed to remove replica " +:+ replicaAddress +:+ " for volume") (
  rpc (MReplicaRemove (engine_req driver engineName "" "" serviceAddress)
    replicaName replicaAddress))))).

Definition ProxyClient_ReplicaModeUpdate
    (dataEngine serviceAddress replicaAddress mode : string) : free proxyE (res unit) :=
  validated {["serviceAddress" := serviceAddress; "replicaAddress" := replicaAddress]}
    "failed to remove replica for volume" (
  with_driver dataEngine "failed to remove replica for volume" (λ driver,
  wrapped serviceAddress ("failed to update replica " +:+ replicaAddress +:+ " mode for volume") (
  rpc (MReplicaModeUpdate (engine_req driver "" "" "" serviceAddress) replicaAddress
    (replicaModeToGRPCReplicaMode mode))))).

Definition ProxyClient_ReplicaRebuildConcurrentSyncLimitSet
    (dataEngine engineName volumeName serviceAddress : string) (limit : Z) :
    free proxyE (res unit) :=
  validated (engine_input engineName volumeName serviceAddress)
    "failed to set replica rebuilding concurrent sync limit" (
  with_driver dataEngine "failed to set replica rebuilding concurrent sync limit" (λ driver,
  wrapped serviceAddress "failed to set replica rebuilding concurrent sync limit" (
  rpc (MReplicaRebuildConcurrentSyncLimitSet
    (engine_req driver engineName "" volumeName serviceAddress) (int32 limit))))).

Definition ProxyClient_ReplicaRebuildConcurrentSyncLimitGet
    (dataEngine engineName volumeName serviceAddress : string) : free proxyE (res Z) :=
  validated (engine_input engineName volumeName serviceAddress)
    "failed to get replica rebuilding concurrent sync limit" (
  with_driver dataEngine "failed to get replica rebuilding concurrent sync limit" (λ driver,
  wrapped serviceAddress "failed to get replica rebuilding concurrent sync limit" (
  rpc (MReplicaRebuildConcurrentSyncLimitGet
    (engine_req driver engineName "" volumeName serviceAddress))))).

(** ** Backups ([proxy_backup.go]) *)

Definition ProxyClient_CleanupBackupMountPoints : free proxyE (res unit) := rpc (MBackup QCleanup).

(** The backup's identifier and the replica that makes it. *)
Definition ProxyClient_SnapshotBackup
    (dataEngine engineName volumeName serviceAddress backupName snapshotName backupTarget
     backingImageName backingImageChecksum compressionMethod : string) (concurrentLimit : Z)
    (storageClassName : string) (labels : gmap string string) (envs : list string)
    (parameters : gmap string string) : free proxyE (res (string * string)) :=
  validated (engine_input engineName volumeName serviceAddress) "failed to backup snapshot" (
  with_driver dataEngine "failed to backup snapshot" (λ driver,
  wrapped serviceAddress
    ("failed to backup snapshot " +:+ snapshotName +:+ " to " +:+ backupName) (
  rpc_as (MBackup (QBackup
    {| SbRequest := engine_req driver engineName "" volumeName serviceAddress;
       SbEnvs := envs; SbBackup := backupName; SbSnapshot := snapshotName;
       SbTarget := backupTarget; SbStorageClass := storageClassName;
       SbBackingImage := backingImageName; SbBackingImageChecksum := backingImageChecksum;
       SbCompression := compressionMethod; SbLimit := int32 concurrentLimit;
       SbLabels := labels; SbParameters := parameters |}))
    (λ recv, (BcBackup recv, BcReplica recv))))).

Definition ProxyClient_SnapshotBackupStatus
    (dataEngine engineName volumeName serviceAddress backupName replicaAddress replicaName :
     string) : free proxyE (res SnapshotBackupStatusInfo) :=
  validated (<["backupName" := backupName]> (engine_input engineName volumeName serviceAddress))
    "failed to get backup status" (
  with_driver dataEngine "failed to get backup status" (λ driver,
  wrapped serviceAddress ("failed to get " +:+ backupName +:+ " backup status") (
  rpc_as (MBackup (QStatus
    {| StRequest := engine_req driver engineName "" volumeName serviceAddress;
       StBackup := backupName; StReplicaAddress := replicaAddress;
       StReplicaName := replicaName |})) backup_status))).

(** The error of a restoration: that of its replicas, [TaskError], or another. *)
Inductive restore_error :=
  | TaskError (ReplicaErrors : list (string * string))
  | OtherError (e : error).

(** [TaskError.Error] and [ReplicaError.Error]. *)
Definition ReplicaError_Error (r : string * string) : string := r.1 +:+ ": " +:+ r.2.
Definition TaskError_Error (errs : list (string * string)) : string :=
  if bool_decide (errs = []) then "Unknown"
  else String.concat "; " (ReplicaError_Error <$> errs).
Definition restore_error_string (e : restore_error) : string :=
  match e with TaskError errs => TaskError_Error errs | OtherError e => error_string e end.

(** The answer's [TaskError] is nil when its bytes are empty. *)
Definition restore_result (prefix bytes : string) : option restore_error :=
  if bool_decide (bytes = "") then None
  else match unmarshal bytes with
  | Ok errs => Some (TaskError errs)
  | Err e => Some (OtherError (EWrap prefix (EWrap
      ("cannot unmarshal the restore error, maybe it's not caused by the replica restore failure: "
       +:+ bytes) e)))
  end.

Definition ProxyClient_BackupRestore
    (dataEngine engineName volumeName serviceAddress url target backupVolumeName : string)
    (envs : list string) (concurrentLimit : Z) (needCorrectEncryptedVolumeSize : bool) :
    free proxyE (option restore_error) :=
  let input := <["url" := url]> (<["target" := target]>
    (<["backupVolumeName" := backupVolumeName]>
    (engine_input engineName volumeName serviceAddress))) in
  let prefix := getProxyErrorPrefix serviceAddress +:+ " failed to restore backup " +:+ url +:+
    " to volume " +:+ volumeName in
  match validateProxyMethodParameters input with
  | Some e => mret (Some (OtherError (EWrap "failed to restore backup to volume" e)))
  | None =>
      match DataEngine_value (getDataEngine dataEngine) with
      | None => mret (Some (OtherError (EPlain
          ("failed to restore backup to volume: invalid data engine " +:+ dataEngine))))
      | Some driver =>
          r ← call (Rpc (MBackup (QRestore
            {| ReRequest := engine_req driver engineName "" volumeName serviceAddress;
               ReEnvs := envs; ReUrl := url; ReTarget := target;
               ReLimit := int32 concurrentLimit;
               ReNeedCorrect := needCorrectEncryptedVolumeSize;
               ReVolumeName := backupVolumeName |})));
          mret (match r with
                | Err e => Some (OtherError (EWrap prefix e))
                | Ok bytes => restore_result prefix bytes
                end)
      end
  end.

Definition ProxyClient_BackupRestoreStatus
    (dataEngine engineName volumeName serviceAddress : string) :
    free proxyE (res BackupRestoreStatusResponse) :=
  validated (engine_input engineName volumeName serviceAddress)
    "failed to get backup restore status" (
  with_driver dataEngine "failed to get backup restore status" (λ driver,
  wrapped serviceAddress "failed to get backup restore status" (
  rpc_as (MBackup (QRestoreStatus (engine_req driver engineName "" volumeName serviceAddress)))
    convertProxyResponseToBackupRestoreStatus))).

(** ** Backing images ([proxy_backing_image.go]) *)

(** The request and [RPCToBackingImage] of its answer. *)
Definition image_request (m : image_method SPDKBackingImageResponse) :
    free proxyE (res ApiBackingImage) :=
  r ← call (RpcImage m);
  match r with Err e => refuse e | Ok resp => deref (RPCToBackingImage resp) end.

Definition ProxyClient_SPDKBackingImageCreate
    (name backingImageUUID diskUUID checksum fromAddress srcLvsUUID : string) (size : Z) :
    free proxyE (res ApiBackingImage) :=
  validated {["name" := name; "backingImageUUID" := backingImageUUID; "checksum" := checksum;
              "diskUUID" := diskUUID]} "failed to create backing image" (
  require (bool_decide (size = 0))
    "failed to create backing image, size should not be zero" (
  image_request
    (MImageCreate name backingImageUUID diskUUID size checksum fromAddress srcLvsUUID))).

Definition ProxyClient_SPDKBackingImageDelete (name diskUUID : string) :
    free proxyE (res unit) :=
  validated {["name" := name; "diskUUID" := diskUUID]} "failed to delete backing image" (
  request_as id (RpcImage (MImageDelete name diskUUID)) id).

Definition ProxyClient_SPDKBackingImageGet (name diskUUID : string) :
    free proxyE (res ApiBackingImage) :=
  validated {["name" := name; "diskUUID" := diskUUID]} "failed to get backing image" (
  image_request (MImageGet name diskUUID)).

Definition ProxyClient_SPDKBackingImageList :
    free proxyE (res (gmap string (option ApiBackingImage))) :=
  request_deref (EWrap "failed to list backing images") (RpcImage MImageList)
    RPCToBackingImageList.

Definition ProxyClient_SPDKBackingImageWatch : free proxyE (res unit) :=
  request_as (EWrap "failed to open backing image update stream") OpenImageWatch id.
End client.

(** The methods, unfolded to their steps. *)
Create HintDb proxy_client.
#[export] Hint Unfold ProxyClient_ServerVersionGet ProxyClient_MetricsGet ProxyClient_VolumeGet
  ProxyClient_VolumeExpand ProxyClient_VolumeFrontendStart ProxyClient_VolumeFrontendShutdown
  ProxyClient_VolumeUnmapMarkSnapChainRemovedSet ProxyClient_VolumeSnapshotMaxCountSet
  ProxyClient_VolumeSnapshotMaxSizeSet ProxyClient_RemountReadOnlyVolume
  ProxyClient_VolumeSnapshot ProxyClient_SnapshotList ProxyClient_SnapshotClone
  ProxyClient_SnapshotCloneStatus ProxyClient_SnapshotRevert ProxyClient_SnapshotPurge
  ProxyClient_SnapshotPurgeStatus ProxyClient_SnapshotRemove ProxyClient_SnapshotHash
  ProxyClient_SnapshotHashStatus ProxyClient_ReplicaAdd ProxyClient_ReplicaList
  ProxyClient_ReplicaRebuildingStatus ProxyClient_ReplicaRebuildingQosSet
  ProxyClient_ReplicaVerifyRebuild ProxyClient_ReplicaRemove ProxyClient_ReplicaModeUpdate
  ProxyClient_ReplicaRebuildConcurrentSyncLimitSet
  ProxyClient_ReplicaRebuildConcurrentSyncLimitGet ProxyClient_CleanupBackupMountPoints
  ProxyClient_SnapshotBackup ProxyClient_SnapshotBackupStatus ProxyClient_BackupRestore
  ProxyClient_BackupRestoreStatus ProxyClient_SPDKBackingImageCreate
  ProxyClient_SPDKBackingImageDelete ProxyClient_SPDKBackingImageGet
  ProxyClient_SPDKBackingImageList ProxyClient_SPDKBackingImageWatch : proxy_client.
