(* ===== verification/ProxyClientProps.v ===== *)
(** * The client of the proxy, alone and against the server

    All methods of the proxy's client as one type of calls. First what a method
    does for any answer to its request, then what its caller gets when the server
    of [ProxyServer] answers it over gRPC. *)
From S2P Require Import Prelude GoStrings Sched Process Calls Grpc ProxyEnv Messages Services Instance Disk Proxy ProxyBackup ProxyVolume ProxySnapshot ProxyReplica ProxyProps ProxyServer ProxyVolumeProps Client Labels Api InstanceClientProps ProxyClient.

#[local] Open Scope Z_scope.

(** ** Calls of the client *)

(** What most methods are told about the volume they are for. *)
Record target := mkTarget {
  TEngine : string; TName : string; TFrontend : string; TVolume : string; TAddress : string;
}.

Inductive client_call : Type → Type :=
  | CMetricsGet : client_call ClientMetrics
  | CVolumeGet : client_call Volume
  | CVolumeExpand (size : Z) : client_call unit
  | CVolumeFrontendStart (frontend : string) : client_call unit
  | CVolumeFrontendShutdown : client_call unit
  | CVolumeUnmapMarkSnapChainRemovedSet (enabled : bool) : client_call unit
  | CVolumeSnapshotMaxCountSet (count : Z) : client_call unit
  | CVolumeSnapshotMaxSizeSet (size : Z) : client_call unit
  | CVolumeSnapshot (name : string) (labels : gmap string string) (freeze : bool) :
      client_call string
  | CSnapshotList : client_call (gmap string SnapshotDisk)
  | CSnapshotClone (snapshot fromAddress fromVolume fromEngine : string)
      (fileSync grpcTimeout : Z) (mode : string) (pairs : gmap string string) : client_call unit
  | CSnapshotCloneStatus : client_call (gmap string SnapshotCloneStatusInfo)
  | CSnapshotRevert (name : string) : client_call unit
  | CSnapshotPurge (skip : bool) : client_call unit
  | CSnapshotPurgeStatus : client_call (gmap string SnapshotPurgeStatusInfo)
  | CSnapshotRemove (names : list string) : client_call unit
  | CSnapshotHash (name : string) (rehash : bool) : client_call unit
  | CSnapshotHashStatus (name : string) : client_call (gmap string SnapshotHashStatusInfo)
  | CReplicaAdd (name address : string) (restore : bool) (size currentSize fileSync : Z)
      (fastSync : bool) (localSync : option FileLocalSync) (source : option LinkedCloneSource)
      (grpcTimeout : Z) : client_call unit
  | CReplicaList : client_call (list (string * string))
  | CReplicaRebuildingStatus : client_call (gmap string ReplicaRebuildStatusInfo)
  | CReplicaRebuildingQosSet (limit : Z) : client_call unit
  | CReplicaVerifyRebuild (address name : string) : client_call unit
  | CReplicaRemove (address name : string) : client_call unit
  | CReplicaModeUpdate (address mode : string) : client_call unit
  | CReplicaRebuildConcurrentSyncLimitSet (limit : Z) : client_call unit
  | CReplicaRebuildConcurrentSyncLimitGet : client_call Z
  | CSnapshotBackup (backup snapshot backupTarget image checksum compression : string)
      (limit : Z) (storageClass : string) (labels : gmap string string) (envs : list string)
      (parameters : gmap string string) : client_call (string * string)
  | CSnapshotBackupStatus (backup replicaAddress replicaName : string) :
      client_call SnapshotBackupStatusInfo
  | CBackupRestoreStatus : client_call BackupRestoreStatusResponse.

Section client.
Context (url : string) (range : gmap string string → list (string * string)).

Definition run_client {A} (t : target) (c : client_call A) : free proxyE (res A) :=
  let '(mkTarget e n f v a) := t in
  match c in client_call A return free proxyE (res A) with
  | CMetricsGet => ProxyClient_MetricsGet url range e n v a
  | CVolumeGet => ProxyClient_VolumeGet url range e n f v a
  | CVolumeExpand size => ProxyClient_VolumeExpand url range e n f v a size
  | CVolumeFrontendStart x => ProxyClient_VolumeFrontendStart url range e n v a x
  | CVolumeFrontendShutdown => ProxyClient_VolumeFrontendShutdown url range e n v a
  | CVolumeUnmapMarkSnapChainRemovedSet b =>
      ProxyClient_VolumeUnmapMarkSnapChainRemovedSet url range e n v a b
  | CVolumeSnapshotMaxCountSet x => ProxyClient_VolumeSnapshotMaxCountSet url range e n v a x
  | CVolumeSnapshotMaxSizeSet x => ProxyClient_VolumeSnapshotMaxSizeSet url range e n v a x
  | CVolumeSnapshot x labels b => ProxyClient_VolumeSnapshot url range e n f v a x labels b
  | CSnapshotList => ProxyClient_SnapshotList url range e n v a
  | CSnapshotClone x fa fv fe s g m p => ProxyClient_SnapshotClone url range e n v a x fa fv fe s g m p
  | CSnapshotCloneStatus => ProxyClient_SnapshotCloneStatus url range e n v a
  | CSnapshotRevert x => ProxyClient_SnapshotRevert url range e n f v a x
  | CSnapshotPurge b => ProxyClient_SnapshotPurge url range e n f v a b
  | CSnapshotPurgeStatus => ProxyClient_SnapshotPurgeStatus url range e n f v a
  | CSnapshotRemove xs => ProxyClient_SnapshotRemove url range e n f v a xs
  | CSnapshotHash x b => ProxyClient_SnapshotHash url range e n v a x b
  | CSnapshotHashStatus x => ProxyClient_SnapshotHashStatus url range e n v a x
  | CReplicaAdd x xa r s cs fs fast ls src g =>
      ProxyClient_ReplicaAdd url range e n f v a x xa r s cs fs fast ls src g
  | CReplicaList => ProxyClient_ReplicaList url range e n v a
  | CReplicaRebuildingStatus => ProxyClient_ReplicaRebuildingStatus url range e n v a
  | CReplicaRebuildingQosSet x => ProxyClient_ReplicaRebuildingQosSet url range e n v a x
  | CReplicaVerifyRebuild xa x => ProxyClient_ReplicaVerifyRebuild url range e n v a xa x
  | CReplicaRemove xa x => ProxyClient_ReplicaRemove url range e a n xa x
  | CReplicaModeUpdate xa m => ProxyClient_ReplicaModeUpdate url range e a xa m
  | CReplicaRebuildConcurrentSyncLimitSet x =>
      ProxyClient_ReplicaRebuildConcurrentSyncLimitSet url range e n v a x
  | CReplicaRebuildConcurrentSyncLimitGet =>
      ProxyClient_ReplicaRebuildConcurrentSyncLimitGet url range e n v a
  | CSnapshotBackup b s bt i ch co l sc labels envs p =>
      ProxyClient_SnapshotBackup url range e n v a b s bt i ch co l sc labels envs p
  | CSnapshotBackupStatus b ra rn => ProxyClient_SnapshotBackupStatus url range e n v a b ra rn
  | CBackupRestoreStatus => ProxyClient_BackupRestoreStatus url range e n v a
  end.

(** ** What a method requires *)

(** The methods that act through the frontend of a V2 volume. *)
Definition needs_frontend {A} (c : client_call A) : bool :=
  match c with
  | CVolumeExpand _ | CVolumeSnapshot _ _ _ | CSnapshotRevert _ | CSnapshotPurge _
  | CSnapshotRemove _ => true
  | _ => false
  end.

(** The arguments that must not be empty, but for the frontend. *)
Definition required_args {A} (t : target) (c : client_call A) : list string :=
  let volume := [TName t; TVolume t; TAddress t] in
  match c with
  | CMetricsGet => TEngine t :: volume
  | CVolumeFrontendStart frontend => frontend :: volume
  | CSnapshotClone snapshot fromAddress fromVolume fromEngine _ _ _ _ =>
      snapshot :: fromAddress :: fromVolume :: fromEngine :: volume
  | CSnapshotRevert name => name :: volume
  | CReplicaAdd name address _ _ _ _ _ _ _ _ => name :: address :: volume
  | CReplicaVerifyRebuild address name => address :: name :: volume
  | CReplicaRemove _ _ => [TAddress t; TName t]
  | CReplicaModeUpdate address _ => [TAddress t; address]
  | CSnapshotBackupStatus backup _ _ => backup :: volume
  | _ => volume
  end.

(** A label that is kept. *)
Definition label_ok (k v : string) : Prop := IsQualifiedName k = [] ∧ v ≠ "".

(** The other checks of a method. *)
Definition other_checks {A} (c : client_call A) : Prop :=
  match c with
  | CVolumeSnapshot _ labels _ =>
      map_Forall label_ok labels
  | CSnapshotRevert name => name ≠ "volume-head"
  | CReplicaRemove address name => address ≠ "" ∨ name ≠ ""
  | _ => True
  end.

Definition accepted {A} (t : target) (c : client_call A) : Prop :=
  Forall (λ v, v ≠ "") (required_args t c) ∧
  (needs_frontend c = true → TEngine t = "v2" → TFrontend t ≠ "") ∧ other_checks c.

(** ** Validation *)

Lemma first_missing_spec l :
  match first_missing l with
  | None => Forall (λ kv, kv.2 ≠ "") l
  | Some e => ¬ Forall (λ kv, kv.2 ≠ "") l ∧ status_code e = Unknown
  end.
Proof.
  induction l as [|[k v] l IH]; simpl; [by constructor|]. case_bool_decide as Hv.
  - split; [|done]. intros H. by inversion_clear H.
  - destruct (first_missing l).
    + split; [|by apply IH]. intros H. inversion_clear H. by apply IH.
    + by constructor.
Qed.

Context (Hrange : range_order range).

Lemma range_forall (P : string → string → Prop) m :
  Forall (λ kv, P kv.1 kv.2) (range m) ↔ map_Forall P m.
Proof.
  rewrite (Hrange m), map_Forall_to_list, !Forall_forall.
  split; intros Hf [k v] Hin; apply (Hf (k, v) Hin).
Qed.

Lemma validate_spec input :
  match validateProxyMethodParameters range input with
  | None => map_Forall (λ _ v, v ≠ "") input
  | Some e => ¬ map_Forall (λ _ v, v ≠ "") input ∧ status_code e = Unknown
  end.
Proof.
  unfold validateProxyMethodParameters. pose proof (first_missing_spec (range input)) as H.
  destruct (first_missing _); by rewrite (range_forall (λ _ v, v ≠ "")) in H.
Qed.

Lemma label_error_list l :
  match label_error l with
  | None => Forall (λ kv, label_ok kv.1 kv.2) l
  | Some e => ¬ Forall (λ kv, label_ok kv.1 kv.2) l ∧ status_code e = Unknown
  end.
Proof.
  induction l as [|[k v] l IH]; [by constructor|].
  cbn [label_error]. destruct (IsQualifiedName k) as [|e es] eqn:Hq.
  - case_bool_decide as Hv.
    + split; [|done]. intros H. inversion_clear H as [|? ? [_ Hn]]. by apply Hn.
    + destruct (label_error l).
      * split; [|by apply IH]. intros H. inversion_clear H. by apply IH.
      * constructor; [by split|done].
  - split; [|done]. intros H. inversion_clear H as [|? ? [Hn _]]. simpl in Hn. congruence.
Qed.

Lemma label_error_spec labels :
  match label_error (range labels) with
  | None => map_Forall label_ok labels
  | Some e => ¬ map_Forall label_ok labels ∧ status_code e = Unknown
  end.
Proof.
  pose proof (label_error_list (range labels)) as H.
  destruct (label_error _); by rewrite (range_forall label_ok) in H.
Qed.

(** ** What every method does *)

(** A method that is accepted makes one request, a [Q], and ends as the request
    does, with its code; one that is not ends with an error and makes none. *)
Definition method_spec (acc : Prop) (Q : ∀ X, proxy_method X → Prop) {A}
    (p : free proxyE (res A)) : Prop :=
  ∀ o : ∀ X, proxyE X → X,
    (¬ acc → ∃ e, eval o p = (Some (Err e), []) ∧ status_code e = Unknown) ∧
    (acc → ∃ X (m : proxy_method X), Q X m ∧ (eval o p).2 = [log (Rpc m)] ∧
       match o _ (Rpc m) with
       | Ok _ => ∃ a, (eval o p).1 = Some (Ok a)
       | Err er => ∃ e, (eval o p).1 = Some (Err e) ∧ status_code e = status_code er
       end).

Section spec.
Context (Q : ∀ X, proxy_method X → Prop).

Lemma spec_iff (acc acc' : Prop) {A} (p : free proxyE (res A)) :
  method_spec acc' Q p → (acc ↔ acc') → method_spec acc Q p.
Proof. intros Hp Hiff o. destruct (Hp o) as [H1 H2]. split; rewrite Hiff; auto. Qed.

Lemma spec_rpc {X A} (m : proxy_method X) (conv : X → A) :
  Q X m → method_spec True Q (rpc_as m conv).
Proof.
  intros Hq o. split; [by intros []|]. intros _. exists X, m. split; [done|].
  unfold rpc_as, request_as. rewrite eval_bind, eval_call. cbn [fst snd].
  split; [done|]. destruct (o _ (Rpc m)); simpl; eauto.
Qed.

Lemma spec_wrapped (acc : Prop) {A} address msg (p : free proxyE (res A)) :
  method_spec acc Q p → method_spec acc Q (wrapped url address msg p).
Proof.
  intros Hp o. destruct (Hp o) as [H1 H2]. unfold wrapped, deferred. split.
  - intros Ha. destruct (H1 Ha) as (e & He & Hc). rewrite eval_bind, He. eauto.
  - intros Ha. destruct (H2 Ha) as (X & m & Hq & Hl & Hr). exists X, m. split; [done|].
    rewrite eval_bind. destruct (eval o p) as [r l]. simpl in *. subst l.
    destruct (o _ (Rpc m)) as [x|er].
    + destruct Hr as [b ->]. simpl. eauto.
    + destruct Hr as (e & -> & Hc). simpl. eauto.
Qed.

Lemma spec_driver (acc : Prop) {A} dataEngine msg (k : Z → free proxyE (res A)) :
  method_spec acc Q (k (engine_number dataEngine)) →
  method_spec acc Q (with_driver dataEngine msg k).
Proof. by rewrite with_driver_eq. Qed.

Lemma spec_validated (acc : Prop) {A} input msg (p : free proxyE (res A)) :
  method_spec acc Q p →
  method_spec (map_Forall (λ _ v, v ≠ "") input ∧ acc) Q (validated range input msg p).
Proof.
  intros Hp o. destruct (Hp o) as [H1 H2]. unfold validated. pose proof (validate_spec input) as Hv.
  destruct (validateProxyMethodParameters range input) as [e|].
  - destruct Hv as [Hn Hc]. split; [|by intros [? _]]. intros _.
    exists (EWrap msg e). by split; [|].
  - split; [|by intros [_ Ha]; apply H2]. intros Hn. apply H1. naive_solver.
Qed.

Lemma spec_require (acc : Prop) {A} failed msg (p : free proxyE (res A)) :
  method_spec acc Q p → method_spec (failed = false ∧ acc) Q (require failed msg p).
Proof.
  intros Hp o. destruct (Hp o) as [H1 H2]. unfold require. destruct failed.
  - split; [|by intros [? _]]. intros _. by eexists.
  - split; [|by intros [_ Ha]; apply H2]. intros Hn. apply H1. naive_solver.
Qed.

Lemma spec_labels (acc : Prop) {A} labels (p : free proxyE (res A)) :
  method_spec acc Q p →
  method_spec (map_Forall label_ok labels ∧ acc) Q
    (match label_error (range labels) with Some e => refuse e | None => p end).
Proof.
  intros Hp o. destruct (Hp o) as [H1 H2]. pose proof (label_error_spec labels) as Hv.
  destruct (label_error (range labels)) as [e|].
  - destruct Hv as [Hn Hc]. split; [|by intros [? _]]. intros _. by exists e.
  - split; [|by intros [_ Ha]; apply H2]. intros Hn. apply H1. naive_solver.
Qed.
End spec.

Lemma nonempty_insert k v (m : gmap string string) :
  m !! k = None →
  map_Forall (λ _ v, v ≠ "") (<[k := v]> m) ↔ v ≠ "" ∧ map_Forall (λ _ v, v ≠ "") m.
Proof. intros Hk. by rewrite map_Forall_insert. Qed.

Lemma nonempty_engine_input n v a :
  map_Forall (λ _ v, v ≠ "") (engine_input n v a) ↔ n ≠ "" ∧ v ≠ "" ∧ a ≠ "".
Proof. unfold engine_input. rewrite !nonempty_insert by done. rewrite map_Forall_singleton. done. Qed.

Lemma nonempty_frontend e f m :
  m !! "engineFrontendName" = None →
  map_Forall (λ _ v, v ≠ "") (with_frontend e f m) ↔
    (e = "v2" → f ≠ "") ∧ map_Forall (λ _ v, v ≠ "") m.
Proof.
  intros Hm. unfold with_frontend. case_bool_decide; [rewrite nonempty_insert by done|]; naive_solver.
Qed.

(** The request is for the volume's address, and names the V1 or the V2 engine
    as the caller does. *)
Definition addressed (t : target) (X : Type) (m : proxy_method X) : Prop :=
  ∃ req, method_request m = Some req ∧ PqAddress req = TAddress t ∧
    PqDataEngine req = engine_number (TEngine t).

Ltac client_spec :=
  lazymatch goal with
  | |- method_spec _ _ (validated _ _ _ _) => eapply spec_validated
  | |- method_spec _ _ (with_driver _ _ _) => eapply spec_driver; cbv beta
  | |- method_spec _ _ (wrapped _ _ _ _) => eapply spec_wrapped
  | |- method_spec _ _ (require _ _ _) => eapply spec_require
  | |- method_spec _ _ (match label_error _ with _ => _ end) => eapply spec_labels
  | |- method_spec _ _ (rpc _) => unfold rpc; apply (spec_rpc _ _ id)
  | |- method_spec _ _ (rpc_as _ _) => apply spec_rpc
  end.

Lemma itoa_nonempty z : itoa z ≠ "".
Proof.
  destruct z as [|p|p]; [done| |].
  - by destruct (itoa_pos_head p) as (a & s & -> & _).
  - done.
Qed.

Lemma volume_methods {A} (t : target) (c : client_call A) :
  method_spec (accepted t c) (addressed t) (run_client t c).
Proof.
  destruct t as [e n f v a], c; unfold run_client; eapply spec_iff.
  all: autounfold with proxy_client; repeat client_spec.
  all: try (eexists; split_and!; reflexivity).
  all: unfold accepted; simpl; unfold is_empty;
    rewrite ?nonempty_frontend, ?nonempty_insert, ?nonempty_engine_input, ?map_Forall_singleton
      by done.
  all: rewrite ?Forall_cons, ?Forall_nil, ?andb_false_iff, ?bool_decide_eq_false.
  all: try match goal with |- context [itoa ?x] => pose proof (itoa_nonempty x) end.
  all: try match goal with |- context [FormatBool ?b] => assert (FormatBool b ≠ "") by by destruct b end.
  all: assert (false = true ↔ False) as Hft by done; rewrite ?Hft; clear Hft; tauto.
Qed.

(** ** The methods that are not about a volume *)

(** With the type of the request's answer and that of the method's. *)
Inductive other_call : Type → Type → Type :=
  | OServerVersionGet (address : string) : other_call VersionOutput VersionOutput
  | ORemountReadOnlyVolume (volume : string) : other_call unit unit
  | OCleanupBackupMountPoints : other_call unit unit
  | OImageCreate (name uuid diskUUID checksum fromAddress srcLvsUUID : string) (size : Z) :
      other_call SPDKBackingImageResponse ApiBackingImage
  | OImageDelete (name diskUUID : string) : other_call unit unit
  | OImageGet (name diskUUID : string) : other_call SPDKBackingImageResponse ApiBackingImage
  | OImageList :
      other_call (gmap string SPDKBackingImageResponse) (gmap string (option ApiBackingImage))
  | OImageWatch : other_call unit unit.

Definition run_other {X A} (c : other_call X A) : free proxyE (res A) :=
  match c in other_call X A return free proxyE (res A) with
  | OServerVersionGet a => ProxyClient_ServerVersionGet url range a
  | ORemountReadOnlyVolume v => ProxyClient_RemountReadOnlyVolume v
  | OCleanupBackupMountPoints => ProxyClient_CleanupBackupMountPoints
  | OImageCreate n u d s f l size => ProxyClient_SPDKBackingImageCreate range n u d s f l size
  | OImageDelete n d => ProxyClient_SPDKBackingImageDelete range n d
  | OImageGet n d => ProxyClient_SPDKBackingImageGet range n d
  | OImageList => ProxyClient_SPDKBackingImageList
  | OImageWatch => ProxyClient_SPDKBackingImageWatch
  end.

Definition other_request {X A} (c : other_call X A) : proxyE (res X) :=
  match c in other_call X A return proxyE (res X) with
  | OServerVersionGet a =>
      Rpc (MVersion {| PqAddress := a; PqEngineName := ""; PqVolumeName := ""; PqDataEngine := 0;
                       PqEngineFrontendName := "" |})
  | ORemountReadOnlyVolume v => RpcRemount v
  | OCleanupBackupMountPoints => Rpc (MBackup QCleanup)
  | OImageCreate n u d s f l size => RpcImage (MImageCreate n u d size s f l)
  | OImageDelete n d => RpcImage (MImageDelete n d)
  | OImageGet n d => RpcImage (MImageGet n d)
  | OImageList => RpcImage MImageList
  | OImageWatch => OpenImageWatch
  end.

Definition other_accepted {X A} (c : other_call X A) : Prop :=
  match c with
  | OServerVersionGet a => a ≠ ""
  | ORemountReadOnlyVolume v => v ≠ ""
  | OImageCreate n u d s _ _ size => (n ≠ "" ∧ u ≠ "" ∧ d ≠ "" ∧ s ≠ "") ∧ size ≠ 0
  | OImageDelete n d | OImageGet n d => n ≠ "" ∧ d ≠ ""
  | OCleanupBackupMountPoints | OImageList | OImageWatch => True
  end.

(** A method ends with what its request is answered. An image without a spec is
    an error, or nil in the list; one with a spec and without a status is a nil
    dereference. *)
Definition image_result (x : SPDKBackingImageResponse) (r : option (res ApiBackingImage)) : Prop :=
  match BiSpec x, BiStatus x with
  | None, _ => ∃ e, r = Some (Err e) ∧ status_code e = Unknown
  | Some _, None => r = None
  | Some sp, Some st =>
      ∃ a, r = Some (Ok a) ∧ AbName a = BiSpecName sp ∧ AbUUID a = BiSpecUuid sp ∧
        AbDiskUUID a = BiSpecDiskUuid sp ∧ AbSize a = BiSpecSize sp ∧
        AbExpectedChecksum a = BiSpecChecksum sp ∧ AbsProgress (AbStatus a) = BiStProgress st ∧
        AbsState (AbStatus a) = BiStState st ∧
        AbsCurrentChecksum (AbStatus a) = BiStChecksum st ∧
        AbsErrorMsg (AbStatus a) = BiStErrorMsg st
  end.
Definition images_result (xs : gmap string SPDKBackingImageResponse)
    (r : option (res (gmap string (option ApiBackingImage)))) : Prop :=
  (map_Forall (λ _ x, is_Some (BiSpec x) → is_Some (BiStatus x)) xs →
     ∃ m, r = Some (Ok m) ∧ dom m = dom xs ∧
       ∀ name x b, xs !! name = Some x → m !! name = Some b →
         match b with None => BiSpec x = None | Some a => image_result x (Some (Ok a)) end) ∧
  (¬ map_Forall (λ _ x, is_Some (BiSpec x) → is_Some (BiStatus x)) xs → r = None).
Definition other_result {X A} (c : other_call X A) : X → option (res A) → Prop :=
  match c in other_call X A return X → option (res A) → Prop with
  | OImageCreate _ _ _ _ _ _ _ | OImageGet _ _ => image_result
  | OImageList => images_result
  | OServerVersionGet _ => λ x r, r = Some (Ok x)
  | ORemountReadOnlyVolume _ | OCleanupBackupMountPoints | OImageDelete _ _ | OImageWatch =>
      λ x r, r = Some (Ok x)
  end.

(** The contract of such a method. *)
Definition other_spec {X A} (o : ∀ X, proxyE X → X) (acc : Prop) (q : proxyE (res X))
    (result : X → option (res A) → Prop) (p : free proxyE (res A)) : Prop :=
  (¬ acc → ∃ e, eval o p = (Some (Err e), []) ∧ status_code e = Unknown) ∧
  (acc → (eval o p).2 = [log q] ∧
     match o _ q with
     | Ok x => result x (eval o p).1
     | Err er => ∃ e, (eval o p).1 = Some (Err e) ∧ status_code e = status_code er
     end).

Section other.
Context (o : ∀ X, proxyE X → X) {X A : Type} (q : proxyE (res X))
  (result : X → option (res A) → Prop).

Lemma other_iff (acc acc' : Prop) p :
  other_spec o acc' q result p → (acc ↔ acc') → other_spec o acc q result p.
Proof. intros [H1 H2] Hiff. split; rewrite Hiff; auto. Qed.

Lemma other_validated (acc : Prop) input msg p :
  other_spec o acc q result p →
  other_spec o (map_Forall (λ _ v, v ≠ "") input ∧ acc) q result (validated range input msg p).
Proof.
  intros [H1 H2]. unfold validated. pose proof (validate_spec input) as Hv.
  destruct (validateProxyMethodParameters range input) as [e|].
  - destruct Hv as [Hn Hc]. split; [|by intros [? _]]. intros _. by exists (EWrap msg e).
  - split; [|by intros [_ Ha]; apply H2]. intros Hn. apply H1. naive_solver.
Qed.

Lemma other_require (acc : Prop) failed msg p :
  other_spec o acc q result p →
  other_spec o (failed = false ∧ acc) q result (require failed msg p).
Proof.
  intros [H1 H2]. unfold require. destruct failed.
  - split; [|by intros [? _]]. intros _. by eexists.
  - split; [|by intros [_ Ha]; apply H2]. intros Hn. apply H1. naive_solver.
Qed.

Lemma other_call_ok p (wrap : error → error) (conv : X → option (res A)) :
  (∀ e, status_code (wrap e) = status_code e) →
  eval o p = (match o _ q with Ok x => conv x | Err e => Some (Err (wrap e)) end, [log q]) →
  (∀ x, result x (conv x)) → other_spec o True q result p.
Proof.
  intros Hw He Hr. split; [by intros []|]. intros _. rewrite He. split; [done|].
  simpl. destruct (o _ q); eauto.
Qed.
End other.

Lemma image_result_spec x : image_result x (RPCToBackingImage x).
Proof.
  unfold image_result, RPCToBackingImage.
  destruct (BiSpec x) as [sp|]; [|by eexists]. destruct (BiStatus x) as [st|]; [|done].
  eexists. split; [reflexivity|]. by split_and!.
Qed.

Lemma images_result_spec xs :
  images_result xs (match RPCToBackingImageList xs with Some m => Some (Ok m) | None => None end).
Proof.
  assert (map_Forall (λ _ x, is_Some (BiSpec x) → is_Some (BiStatus x)) xs ↔
    map_Forall (λ _ bi, is_Some (RPCToBackingImage bi)) xs) as Hiff.
  { split; intros H n x Hx; specialize (H n x Hx); unfold RPCToBackingImage in *; simpl in *;
      destruct (BiSpec x), (BiStatus x); simpl in *; try done; by destruct H. }
  unfold RPCToBackingImageList, images_result. rewrite Hiff.
  case_bool_decide as Hd; (split; [intros H|intros Hn]); try done.
  eexists. split; [done|]. split; [by rewrite dom_fmap_L|].
  intros name x b Hx. rewrite lookup_fmap, Hx. intros [= <-].
  pose proof (image_result_spec x) as Hr. destruct (H name x Hx) as [r Hs]. rewrite Hs in *.
  destruct r as [a|e]; [done|]. unfold RPCToBackingImage in Hs.
  destruct (BiSpec x); [|done]. by destruct (BiStatus x).
Qed.

Lemma eval_image_request o m :
  eval o (image_request m) =
    (match o _ (RpcImage m) with Ok x => RPCToBackingImage x | Err e => Some (Err e) end,
     [log (RpcImage m)]).
Proof.
  unfold image_request. rewrite eval_bind, eval_call. cbn [fst snd].
  destruct (o _ (RpcImage m)) as [x|e]; [|done]. by destruct (RPCToBackingImage x).
Qed.

Lemma other_methods {X A} (c : other_call X A) o :
  other_spec o (other_accepted c) (other_request c) (other_result c) (run_other c).
Proof.
  destruct c; unfold run_other; autounfold with proxy_client; eapply other_iff.
  all: try eapply other_validated; try eapply other_require.
  all: try (eapply (other_call_ok _ _ _ _ id); [done|apply eval_image_request|apply image_result_spec]).
  - eapply (other_call_ok _ _ _ _ (EWrap _)
      (λ x, Some (Ok x))); [done| |done].
    unfold wrapped, deferred, rpc, request_as. rewrite !eval_bind, eval_call. simpl.
    by destruct (o _ (Rpc _)).
  - simpl. rewrite map_Forall_singleton. tauto.
  - eapply (other_call_ok _ _ _ _ id (λ x, Some (Ok x))); [done| |done].
    unfold request_as. rewrite eval_bind, eval_call. simpl. by destruct (o _ (RpcRemount _)).
  - simpl. unfold is_empty. rewrite bool_decide_eq_false. tauto.
  - eapply (other_call_ok _ _ _ _ id (λ x, Some (Ok x))); [done| |done].
    unfold rpc, request_as. rewrite eval_bind, eval_call. simpl. by destruct (o _ (Rpc _)).
  - done.
  - simpl. rewrite !nonempty_insert, map_Forall_singleton, bool_decide_eq_false by done. tauto.
  - eapply (other_call_ok _ _ _ _ id (λ x, Some (Ok x))); [done| |done].
    unfold request_as. rewrite eval_bind, eval_call. simpl. by destruct (o _ (RpcImage _)).
  - simpl. rewrite !nonempty_insert, map_Forall_singleton by done. tauto.
  - simpl. rewrite !nonempty_insert, map_Forall_singleton by done. tauto.
  - eapply (other_call_ok _ _ _ _ (EWrap _)); [done| |apply images_result_spec].
    unfold request_deref. rewrite eval_bind, eval_call. simpl.
    destruct (o _ (RpcImage _)) as [x|e]; [|done]. by destruct (RPCToBackingImageList x).
  - done.
  - eapply (other_call_ok _ _ _ _ (EWrap _) (λ x, Some (Ok x))); [done| |done].
    unfold request_as. rewrite eval_bind, eval_call. simpl. by destruct (o _ OpenImageWatch).
  - done.
Qed.

(** ** Restoring a backup, whose error is a type of its own *)

Definition restore_spec (unmarshal : string → res (list (string * string))) (t : target)
    (source backupTarget volume : string) (envs : list string) (limit : Z) (fix_size : bool) : Prop :=
  let p := ProxyClient_BackupRestore url range unmarshal (TEngine t) (TName t) (TVolume t)
    (TAddress t) source backupTarget volume envs limit fix_size in
  let acc := Forall (λ v, v ≠ "")
    [source; backupTarget; volume; TName t; TVolume t; TAddress t] in
  ∀ o : ∀ X, proxyE X → X,
    (¬ acc → ∃ e, eval o p = (Some (Some (OtherError e)), []) ∧ status_code e = Unknown) ∧
    (acc → ∃ q, addressed t _ (MBackup (QRestore q)) ∧
       (eval o p).2 = [log (Rpc (MBackup (QRestore q)))] ∧
       match o _ (Rpc (MBackup (QRestore q))) with
       | Ok bytes => ∃ r, (eval o p).1 = Some r ∧ (r = None ↔ bytes = "") ∧
           ∀ errs, bytes ≠ "" → unmarshal bytes = Ok errs → r = Some (TaskError errs)
       | Err er => ∃ e, (eval o p).1 = Some (Some (OtherError e)) ∧ status_code e = status_code er
       end).

Lemma restore_method unmarshal t source backupTarget volume envs limit fix_size :
  restore_spec unmarshal t source backupTarget volume envs limit fix_size.
Proof.
  destruct t as [en n f v a]. intros o. simpl. unfold ProxyClient_BackupRestore.
  pose proof (validate_spec (<["url" := source]> (<["target" := backupTarget]>
    (<["backupVolumeName" := volume]> (engine_input n v a))))) as Hv.
  assert (map_Forall (λ _ v, v ≠ "") (<["url" := source]> (<["target" := backupTarget]>
      (<["backupVolumeName" := volume]> (engine_input n v a)))) ↔
    Forall (λ v, v ≠ "") [source; backupTarget; volume; n; v; a]) as Hiff.
  { rewrite !nonempty_insert, nonempty_engine_input, !Forall_cons, Forall_nil by done. tauto. }
  destruct (validateProxyMethodParameters range _) as [e|]; rewrite Hiff in Hv.
  { destruct Hv as [Hn Hc]. split; [|done]. intros _. by eexists. }
  split; [done|]. intros _. rewrite DataEngine_value_get.
  exists {| ReRequest := engine_req (engine_number en) n "" v a; ReEnvs := envs; ReUrl := source;
            ReTarget := backupTarget; ReLimit := int32 limit; ReNeedCorrect := fix_size;
            ReVolumeName := volume |}.
  split; [eexists; by split_and!|].
  rewrite eval_bind, eval_call. cbn [fst snd]. split; [done|].
  destruct (o _ (Rpc _)) as [bytes|er]; simpl; [|by eexists].
  eexists. split; [done|]. unfold restore_result.
  case_bool_decide as Hb; [by split|]. split; [by destruct (unmarshal bytes)|].
  intros errs _ Hu. by rewrite Hu.
Qed.

(** C14: what every method of the proxy's client does. It is refused without a
    request exactly when a required argument is empty, the frontend's name of a
    [v2] volume is missing, or one of its other checks fails (labels, the volume
    head, a replica without address and name, an image of size 0). Otherwise it
    makes exactly one request. One that is about a volume is made to the given
    address and names the V1 or the V2 engine, so the server never answers that
    it does not support it. A method succeeds if and only if the request does,
    and its error has the code of the request's; but an image that is answered
    without a spec is an error, and one without a status a panic, and a
    restoration succeeds when the answer has no task error. *)
Theorem proxy_client_correct :
  (∀ A t (c : client_call A), method_spec (accepted t c) (addressed t) (run_client t c)) ∧
  (∀ X A (c : other_call X A) o,
     other_spec o (other_accepted c) (other_request c) (other_result c) (run_other c)) ∧
  (∀ unmarshal t source backupTarget volume envs limit fix_size,
     restore_spec unmarshal t source backupTarget volume envs limit fix_size).
Proof. split_and!; intros; [apply volume_methods|apply other_methods|apply restore_method]. Qed.

(** ** The server at the other end *)

(** The empty message of an answer. Only methods without a result answer nil. *)
Definition empty_volume : Volume :=
  {| VoName := ""; VoSize := 0; VoReplicaCount := 0; VoEndpoint := ""; VoFrontend := "";
     VoFrontendState := ""; VoIsExpanding := false; VoLastExpansionError := "";
     VoLastExpansionFailedAt := ""; VoUnmapMarkSnapChainRemoved := false;
     VoSnapshotMaxCount := 0; VoSnapshotMaxSize := 0 |}.
Definition empty_proxy_answer {X} (m : proxy_method X) : X :=
  match m in proxy_method X return X with
  | MVersion _ =>
      {| Version := ""; GitCommit := ""; BuildDate := ""; CLIAPIVersion := 0;
         CLIAPIMinVersion := 0; ControllerAPIVersion := 0; ControllerAPIMinVersion := 0;
         DataFormatVersion := 0; DataFormatMinVersion := 0 |}
  | MBackup q =>
      match q in backup_request X return X with
      | QCleanup => tt
      | QBackup _ => {| BcBackup := ""; BcReplica := ""; BcIncremental := false |}
      | QStatus _ => {| BsUrl := ""; BsError := ""; BsProgress := 0; BsSnapshot := "";
                        BsState := ""; BsReplica := "" |}
      | QRestore _ => ""
      | QRestoreStatus _ => {| RtStatus := ∅; RtEngineError := "" |}
      | QReplicaList _ => []
      end
  | MMetricsGet _ => {| ReadThroughput := 0; WriteThroughput := 0; ReadLatency := 0;
                        WriteLatency := 0; ReadIOPS := 0; WriteIOPS := 0 |}
  | MVolumeGet _ => empty_volume
  | MVolumeSnapshot _ _ _ _ => ""
  | MSnapshotList _ => ∅ | MSnapshotCloneStatus _ => ∅ | MSnapshotPurgeStatus _ => ∅
  | MSnapshotHashStatus _ _ => ∅ | MReplicaRebuildingStatus _ => ∅
  | MReplicaRebuildConcurrentSyncLimitGet _ => 0
  | MVolumeExpand _ _ | MVolumeFrontendStart _ _ | MVolumeFrontendShutdown _
  | MVolumeUnmapMarkSnapChainRemovedSet _ _ | MVolumeSnapshotMaxCountSet _ _
  | MVolumeSnapshotMaxSizeSet _ _ | MSnapshotClone _ | MSnapshotRevert _ _
  | MSnapshotPurge _ _ | MSnapshotRemove _ _ | MSnapshotHash _ _ _ | MReplicaAdd _
  | MReplicaRebuildingQosSet _ _ | MReplicaVerifyRebuild _ _ _ | MReplicaRemove _ _ _
  | MReplicaModeUpdate _ _ _ | MReplicaRebuildConcurrentSyncLimitSet _ _ => tt
  end.

Definition empty_image_answer {X} (m : image_method X) : X :=
  match m in image_method X return X with
  | MImageCreate _ _ _ _ _ _ _ | MImageGet _ _ => {| BiSpec := None; BiStatus := None |}
  | MImageDelete _ _ => tt
  | MImageList => ∅
  end.

(** The handlers of the requests; [local] is the address of the local SPDK
    service. *)
Context (local : string) (sha256_hex : string → string).

Definition proxy_link (X : Type) (e : proxyE X) : free callE X :=
  match e in proxyE X return free callE X with
  | Rpc m => r ← serve_proxy local range m; mret (over_grpc (empty_proxy_answer m) r)
  | RpcImage m => r ← serve_image local m; mret (over_grpc (empty_image_answer m) r)
  | RpcRemount volume => r ← RemountReadOnlyVolume sha256_hex volume; mret (over_grpc tt r)
  | OpenImageWatch => mret (Ok tt)
  end.

(** What the caller gets of a request, and the calls of the servers. *)
Definition delivered {X A} (wrap : error → error) (conv : X → A) (r : res X) : res A :=
  match r with Ok x => Ok (conv x) | Err e => Err (wrap e) end.

Section run.
Context (o : ∀ X, callE X → X).

Definition run {A} (p : free proxyE A) : option A * list (logged callE) :=
  eval o (interp proxy_link p).

Lemma run_rpc {X A} (m : proxy_method X) (conv : X → A) address msg :
  run (wrapped url address msg (rpc_as m conv)) =
    (delivered (EWrap (getProxyErrorPrefix url address +:+ " " +:+ msg)) conv ∘
       over_grpc (empty_proxy_answer m) <$> (eval o (serve_proxy local range m)).1,
     (eval o (serve_proxy local range m)).2).
Proof.
  unfold run, wrapped, deferred, rpc_as, request_as.
  rewrite eval_interp_bind, eval_bind, eval_interp_bind, eval_bind, eval_interp_call.
  unfold proxy_link. rewrite eval_bind.
  destruct (eval o (serve_proxy local range m)) as [[r|] l]; [|done]. simpl.
  rewrite !app_nil_r. destruct (over_grpc _ r); done.
Qed.

Lemma validated_ok {A} input msg (k : free proxyE (res A)) :
  map_Forall (λ _ v, v ≠ "") input → validated range input msg k = k.
Proof.
  intros Hi. unfold validated. pose proof (validate_spec input) as Hv.
  destruct (validateProxyMethodParameters range input); [by destruct Hv|done].
Qed.
End run.

(** ** Safety, from the client to the services *)

(** Every request of a method is [Q]. *)
Definition requests_only (Q : ∀ X, proxy_method X → Prop) (X : Type) (e : proxyE X) : Prop :=
  match e with Rpc m => Q _ m | _ => False end.

Lemma calls_run_client {A} (t : target) (c : client_call A) :
  calls_only (requests_only (addressed t)) (run_client t c).
Proof.
  destruct t as [e n f v a], c; unfold run_client; autounfold with proxy_client.
  all: unfold validated; destruct (validateProxyMethodParameters range _); [done|].
  all: try (apply calls_require; intros _).
  all: apply calls_with_driver; apply calls_bind; [|done].
  all: try (apply calls_require; intros _).
  all: try (destruct (label_error (range labels)); [done|]).
  all: apply calls_request_as; eexists; split_and!; reflexivity.
Qed.

(** C15: a call of the client, with the server that answers it. No connection is
    leaked, and the services that are asked are those of the engine that the
    caller named, however it wrote the name: controllers, replicas and the
    engine's tasks for the V1 engine, SPDK services for the V2 engine. *)
Theorem client_and_server_safe {A} (t : target) (c : client_call A) :
  let p := interp proxy_link (run_client t c) in
  tidy p ∧
  (engine_number (TEngine t) = DATA_ENGINE_V1 → calls_only v1_only p) ∧
  (engine_number (TEngine t) = DATA_ENGINE_V2 → calls_only v2_only p).
Proof.
  intros p. pose proof (calls_run_client t c) as Hc. split_and!.
  - apply (keeps_interp _ (requests_only (addressed t))); [done|].
    intros X [Y m|Y m|v|] He; try done.
    apply keeps_bind; [apply keeps_tidy, serve_proxy_keeps|]. intros r. apply keeps_pure.
  - intros He. apply (calls_interp _ (requests_only (addressed t))); [done|].
    intros X [Y m|Y m|v|] Hr; try done. destruct Hr as (req & Hm & _ & Hq).
    apply calls_bind; [|done]. apply (serve_proxy_routes local range _ m req Hm). congruence.
  - intros He. apply (calls_interp _ (requests_only (addressed t))); [done|].
    intros X [Y m|Y m|v|] Hr; try done. destruct Hr as (req & Hm & _ & Hq).
    apply calls_bind; [|done]. apply (serve_proxy_routes local range _ m req Hm). congruence.
Qed.

(** ** What a call on a V2 volume comes to *)

(** The one request to the SPDK service that a call stands for. *)
Definition v2_request {A} (t : target) (c : client_call A) : option (spdkE err) :=
  match c with
  | CVolumeExpand size => Some (EngineFrontendExpand (TFrontend t) (uint64 size))
  | CVolumeSnapshotMaxCountSet count => Some (EngineSnapshotMaxCountSet (TName t) (int32 count))
  | CSnapshotClone snapshot fromAddress _ fromEngine _ _ mode pairs =>
      Some (EngineSnapshotClone (TName t) snapshot fromEngine fromAddress (getCloneMode mode) pairs)
  | CSnapshotRevert name => Some (EngineFrontendSnapshotRevert (TFrontend t) name)
  | CSnapshotPurge _ => Some (EngineFrontendSnapshotPurge (TFrontend t))
  | CSnapshotHash name rehash => Some (EngineSnapshotHash (TName t) name rehash)
  | CReplicaAdd name address _ _ _ _ fast _ source _ =>
      Some (EngineFrontendReplicaAdd (TFrontend t) name (trim_prefix address "tcp://") fast source)
  | CReplicaRemove address name =>
      Some (EngineReplicaDelete (TName t) name (trim_prefix address "tcp://"))
  | _ => None
  end.

(** Whether the caller hears of an error, and with which code. *)
Definition v2_error {A} (c : client_call A) (er : error) : option code :=
  match c with
  | CSnapshotPurge _ => None
  | CVolumeExpand _ | CVolumeSnapshotMaxCountSet _ | CSnapshotHash _ _ | CReplicaRemove _ _ =>
      Some (status_code er)
  | _ => Some Internal
  end.

(** The abstract specification of such a call: one request to the SPDK service
    of the volume's host. *)
Definition v2_spec (o : ∀ X, callE X → X) (address : string) (q : spdkE err) :
    res err * list (logged callE) :=
  match reach o address with
  | Err e => (Err e, dial_log address)
  | Ok addr => (Ok (o _ (SPDK addr q)),
                dial_log address ++ [log (SPDK addr q); log (Hangup (SPDKService, addr))])
  end.

Definition v2_reports {A} (c : client_call A) (outcome : res err) (r : option (res A)) : Prop :=
  match outcome with
  | Err _ => ∃ e, r = Some (Err e) ∧ status_code e = Internal
  | Ok None => ∃ a, r = Some (Ok a)
  | Ok (Some er) =>
      match v2_error c er with
      | None => ∃ a, r = Some (Ok a)
      | Some code => ∃ e, r = Some (Err e) ∧ status_code e = code
      end
  end.

(** C13: the calls on a V2 volume that are one request refine that request. Client
    and server together dial the SPDK service on the host of the volume's
    address, make exactly the request that the call stands for, and close the
    connection. The caller hears of success if and only if the request succeeds,
    except for a purge, which always does; the error has the request's code
    where the proxy passes it on, and [Internal] where it wraps it or cannot
    reach the service. *)
Theorem v2_call_refines {A} (o : ∀ X, callE X → X) (t : target) (c : client_call A)
    (q : spdkE err) :
  accepted t c → engine_number (TEngine t) = DATA_ENGINE_V2 → v2_request t c = Some q →
  (run o (run_client t c)).2 = (v2_spec o (TAddress t) q).2 ∧
  v2_reports c (v2_spec o (TAddress t) q).1 (run o (run_client t c)).1.
Proof.
  destruct t as [e n f v a]. intros (Hf & Hfr & Ho) He Hq. simpl in He.
  destruct c; simpl in Hq; try done; injection Hq as <-; simpl in Hf, Hfr, Ho;
    rewrite ?Forall_cons in Hf.
  all: unfold run_client; autounfold with proxy_client.
  all: rewrite validated_ok by
    (rewrite ?nonempty_frontend, ?nonempty_insert, ?nonempty_engine_input, ?map_Forall_singleton
       by done; pose proof itoa_nonempty; naive_solver).
  all: unfold require, is_empty, VolumeHeadName;
    try (rewrite bool_decide_false by done);
    try (match goal with |- context [bool_decide (?x = "") && bool_decide (?y = "")] =>
           replace (bool_decide (x = "") && bool_decide (y = "")) with false
             by (symmetry; rewrite andb_false_iff, !bool_decide_eq_false; done) end);
    rewrite with_driver_eq, He; unfold rpc, v2_reports, v2_error, v2_spec;
    match goal with |- context [request_as id (Rpc ?m) id] => change (request_as id (Rpc m) id) with (rpc_as m id) end;
    rewrite run_rpc; unfold serve_proxy, engine_req;
    unfold VolumeExpand, VolumeSnapshotMaxCountSet, SnapshotClone, SnapshotRevert, SnapshotPurge,
      SnapshotHash, ReplicaAdd, ReplicaRemove;
    cbn [PqDataEngine PqAddress PqEngineName PqEngineFrontendName ScRequest RaRequest];
    rewrite dispatch_v2;
    unfold V2_VolumeExpand, V2_VolumeSnapshotMaxCountSet, V2_SnapshotClone, V2_SnapshotRevert,
      V2_SnapshotPurge, V2_SnapshotHash, V2_ReplicaAdd, V2_ReplicaRemove, spdk_forward, with_spdk_at;
    rewrite eval_with_spdk_err; cbn.
  all: destruct (reach o a) as [addr|er]; cbn; [|eauto].
  all: split; [done|].
  all: match goal with |- context [?h _ (SPDK ?x ?y)] => destruct (h _ (SPDK x y)) as [er|] end.
  all: eexists; try (split; [reflexivity|]); first [reflexivity|apply FromError_code].
Qed.

(** ** The list of replicas *)

(** A mode the API knows, or [ERR]. *)
Definition normal_mode (mode : string) : string :=
  if bool_decide (mode = "WO" ∨ mode = "RW") then mode else "ERR".

Lemma mode_roundtrip mode :
  GRPCReplicaModeToReplicaMode (replicaModeToGRPCReplicaMode mode) = normal_mode mode.
Proof.
  unfold normal_mode, replicaModeToGRPCReplicaMode.
  destruct (decide (mode = "WO")) as [->|]; [done|].
  destruct (decide (mode = "RW")) as [->|]; [done|].
  by rewrite !bool_decide_false by naive_solver.
Qed.

Lemma v2_replicas_infos addresses modes :
  match v2_replicas addresses modes with
  | Ok rs => Forall (λ nm, is_Some (addresses !! nm.1)) modes ∧
      replica_info <$> rs =
        (λ nm, (AddTcpPrefixForAddress (default "" (addresses !! nm.1)), normal_mode nm.2)) <$> modes
  | Err e => ¬ Forall (λ nm, is_Some (addresses !! nm.1)) modes ∧ status_code e = Internal
  end.
Proof.
  induction modes as [|[n m] modes IH]; [done|]. cbn [v2_replicas].
  destruct (addresses !! n) as [a|] eqn:Ha.
  - destruct (v2_replicas addresses modes) as [rs|e]; destruct IH as [IH1 IH2].
    + split; [constructor; [by eexists|done]|]. cbn [fmap list_fmap].
      change (list_fmap _ _ replica_info rs) with (replica_info <$> rs).
      rewrite IH2. f_equal. unfold replica_info. simpl. by rewrite mode_roundtrip, Ha.
    + split; [|done]. intros H. by inversion_clear H.
  - split; [|done]. intros H. inversion_clear H as [|? ? [x Hx] _]. simpl in Hx. congruence.
Qed.

(** C31: the list of replicas, from the engine to the caller. For the V1 engine it
    is the controller's list, in order, for the V2 engine it has every replica of
    the engine under [tcp://] and its address, and no others; modes arrive as
    they were when they are [WO] or [RW], and as [ERR] otherwise, although they
    are numbers in between. A replica without an address fails the whole list. *)
Theorem ReplicaList_end_to_end (o : ∀ X, callE X → X) (t : target) :
  accepted t CReplicaList →
  let r := (run o (run_client t CReplicaList)).1 in
  let at_ := engine_req (engine_number (TEngine t)) (TName t) "" (TVolume t) (TAddress t) in
  (∀ l, engine_number (TEngine t) = DATA_ENGINE_V1 → o _ (Dial (controller at_)) = Ok tt →
     o _ (Eng (controller at_) ControllerReplicaList) = Ok l →
     r = Some (Ok ((λ am, (am.1, normal_mode am.2)) <$> l))) ∧
  (∀ addr e, engine_number (TEngine t) = DATA_ENGINE_V2 → reach o (TAddress t) = Ok addr →
     o _ (SPDK addr (EngineGet (TName t))) = Ok e →
     (map_Forall (λ n _, is_Some (EReplicaAddressMap e !! n)) (EReplicaModeMap e) →
        ∃ l, r = Some (Ok l) ∧ ∀ x, x ∈ l ↔ ∃ n m a, EReplicaModeMap e !! n = Some m ∧
          EReplicaAddressMap e !! n = Some a ∧ x = (AddTcpPrefixForAddress a, normal_mode m)) ∧
     (¬ map_Forall (λ n _, is_Some (EReplicaAddressMap e !! n)) (EReplicaModeMap e) →
        ∃ er, r = Some (Err er) ∧ status_code er = Internal)).
Proof.
  destruct t as [en n f v a]. intros (Hf & _ & _) r at_. simpl in *.
  rewrite !Forall_cons in Hf.
  assert (r = (delivered (EWrap (getProxyErrorPrefix url a +:+ " failed to list replicas for volume"))
    (fmap replica_info) ∘ over_grpc [] <$> (eval o (Proxy_ReplicaList at_)).1)) as Hr.
  { unfold r, run_client. autounfold with proxy_client.
    rewrite validated_ok by (rewrite nonempty_engine_input; naive_solver).
    rewrite with_driver_eq, run_rpc. done. }
  clearbody r. subst r at_. unfold Proxy_ReplicaList. split.
  - intros l He. rewrite He. cbn [engine_req PqDataEngine]. rewrite dispatch_v1. intros Hd Hl.
    unfold V1_ReplicaList, with_controller.
    rewrite result_with_client by exact Hd. unfold try. rewrite result_bind, eval_call.
    cbn [mbind option_bind fst]. rewrite Hl. simpl. rewrite <- !list_fmap_compose.
    do 2 f_equal. apply list_fmap_ext. intros _ [x m] _. unfold replica_info. simpl.
    by rewrite mode_roundtrip.
  - intros addr e He Ha Hg. rewrite He. cbn [engine_req PqDataEngine]. rewrite dispatch_v2.
    unfold V2_ReplicaList.
    rewrite (result_spdk_call _ _ addr) by exact Ha. cbn [engine_req PqEngineName]. rewrite Hg.
    pose proof (v2_replicas_infos (EReplicaAddressMap e) (map_to_list (EReplicaModeMap e))) as Hv.
    assert (Forall (λ nm : string * string, is_Some (EReplicaAddressMap e !! nm.1))
        (map_to_list (EReplicaModeMap e)) ↔
      map_Forall (λ n _, is_Some (EReplicaAddressMap e !! n)) (EReplicaModeMap e)) as Hiff.
    { rewrite map_Forall_to_list, !Forall_forall.
      split; intros H [k m] Hin; exact (H (k, m) Hin). }
    destruct (v2_replicas _ _) as [rs|er]; rewrite Hiff in Hv; destruct Hv as [Hv1 Hv2].
    + split; [|done]. intros _. eexists. split; [done|]. simpl. intros x. rewrite Hv2.
      rewrite list_elem_of_fmap. split.
      * intros ([k m] & -> & Hin). apply elem_of_map_to_list in Hin.
        destruct (Hv1 k m Hin) as [b Hb]. exists k, m, b. simpl. by rewrite Hb.
      * intros (k & m & b & Hk & Hb & ->). exists (k, m). simpl. rewrite Hb.
        by rewrite elem_of_map_to_list.
    + split; [done|]. intros _. eexists. split; [done|]. simpl. by destruct er.
Qed.

(** ** A restoration *)

Section restore.
Context (unmarshal : string → res (list (string * string))).

(** A restoration, from the engine to the caller. With an acceptable
    environment and a credential, the caller hears of success if and only if the
    engine accepted the restoration, for errors that have a JSON form. A
    [TaskError] of the engine arrives as its replicas' errors, decoded from its
    JSON form; an error without a JSON form of its own arrives as a message that
    is not JSON, and the caller gets a decoding error that contains it. *)
Theorem BackupRestore_end_to_end (o : ∀ X, callE X → X) (t : target)
    (source backupTarget volume : string) (envs : list string) (limit : Z) (fix_size : bool)
    (credential : gmap string string) :
  Forall (λ v, v ≠ "") [source; backupTarget; volume; TName t; TVolume t; TAddress t] →
  (∀ k v, o _ (Local (OS (Setenv k v))) = None) → Forall permitted envs →
  o _ (Local (GetBackupCredential backupTarget)) = Ok credential →
  let req := {| ReRequest := engine_req (engine_number (TEngine t)) (TName t) "" (TVolume t)
                  (TAddress t);
                ReEnvs := envs; ReUrl := source; ReTarget := backupTarget;
                ReLimit := int32 limit; ReNeedCorrect := fix_size; ReVolumeName := volume |} in
  let answer := restore_answer o req credential in
  ∃ r, (run o (ProxyClient_BackupRestore url range unmarshal (TEngine t) (TName t) (TVolume t)
          (TAddress t) source backupTarget volume envs limit fix_size)).1 = Some r ∧
    ((∀ e, answer = Some e → reportable e) → (r = None ↔ answer = None)) ∧
    (∀ e json errs, answer = Some (e, Some json) → json ≠ "" → json ≠ "{}" →
       unmarshal json = Ok errs → r = Some (TaskError errs)) ∧
    (∀ e er, answer = Some (e, Some "{}") → error_string e ≠ "" →
       unmarshal (error_string e) = Err er →
       ∃ before after, restore_error_string <$> r = Some (before +:+ error_string e +:+ after)).
Proof.
  destruct t as [en n f v a]. simpl. intros Hf Ho Hp Hc. set (req := {| ReRequest := _ |}).
  destruct (BackupRestore_reports o req credential Ho Hp Hc (engine_number_known en))
    as (Hr & Hiff & _).
  set (ans := restore_answer o req credential) in *.
  set (prefix := getProxyErrorPrefix url a +:+ " failed to restore backup " +:+ source +:+
    " to volume " +:+ v).
  exists (restore_result unmarshal prefix (task_error_bytes ans)). split_and!.
  - unfold ProxyClient_BackupRestore. pose proof (validate_spec (<["url" := source]>
      (<["target" := backupTarget]> (<["backupVolumeName" := volume]> (engine_input n v a))))) as Hv.
    destruct (validateProxyMethodParameters range _).
    { destruct Hv as [Hv _]. destruct Hv. rewrite !nonempty_insert, nonempty_engine_input by done.
      rewrite !Forall_cons in Hf. naive_solver. }
    rewrite DataEngine_value_get. unfold run.
    rewrite eval_interp_bind, eval_bind, eval_interp_call. unfold proxy_link.
    change (serve_proxy local range (MBackup (QRestore ?q))) with (BackupRestore q).
    fold req. rewrite eval_bind. destruct (eval o (BackupRestore req)) as [r l].
    simpl in Hr. subst r. done.
  - intros Hrep. rewrite <- (Hiff Hrep). unfold restore_result.
    case_bool_decide; [done|]. by destruct (unmarshal _).
  - intros e json errs Ha Hj1 Hj2 Hu. unfold restore_result, task_error_bytes. rewrite Ha.
    simpl. rewrite (bool_decide_false (json = "{}")) by done.
    by rewrite bool_decide_false, Hu.
  - intros e er Ha Hne Hu. unfold restore_result, task_error_bytes. rewrite Ha.
    rewrite (bool_decide_true (default "" (Some "{}") = "{}")) by done.
    rewrite bool_decide_false, Hu by done.
    cbn [restore_error_string fmap option_fmap option_map error_string].
    eexists (prefix +:+ ": " +:+ "cannot unmarshal the restore error, maybe it's not caused by the replica restore failure: "),
      (": " +:+ error_string er).
    by rewrite <- !string_app_assoc.
Qed.
End restore.
End client.

(** ** Examples *)

Definition a_volume (dataEngine : string) : target :=
  {| TEngine := dataEngine; TName := "vol-e-0"; TFrontend := "vol-ef-0"; TVolume := "vol";
     TAddress := "10.0.0.9:20001" |}.

(** A label that is not a qualified name is refused without a request; a snapshot
    without labels is asked for, and an image of size 0 is refused. *)
Definition down (X : Type) (q : proxyE X) : X :=
  match q with
  | Rpc _ | RpcImage _ => Err (EPlain "down")
  | RpcRemount _ | OpenImageWatch => Ok tt
  end.

Theorem proxy_client_correct_witness :
  (∃ e, eval down
     (run_client "[::1]:8501" map_to_list (a_volume "v2")
        (CVolumeSnapshot "s" {["Backup/" := "x"]} false)) = (Some (Err e), []) ∧
     status_code e = Unknown) ∧
  (∃ X (m : proxy_method X), addressed (a_volume "v2") X m) ∧
  ∃ e, eval down
     (run_other "[::1]:8501" map_to_list (OImageCreate "bi" "u" "d" "c" "" "" 0)) = (Some (Err e), []).
Proof.
  destruct (proxy_client_correct "[::1]:8501" map_to_list range_order_to_list) as (Hc & Ho & _).
  split_and!.
  - apply (Hc _ (a_volume "v2") (CVolumeSnapshot "s" {["Backup/" := "x"]} false)).
    intros (_ & _ & H). simpl in H. rewrite map_Forall_singleton in H. destruct H as [H _].
    revert H. vm_compute. discriminate.
  - destruct (Hc _ (a_volume "v2") (CVolumeSnapshot "s" ∅ false) down) as [_ H].
    destruct H as (X & m & Hm & _); [|by exists X, m].
    split; [by repeat constructor|]. by split; [|apply map_Forall_empty].
  - destruct (Ho _ _ (OImageCreate "bi" "u" "d" "c" "" "" 0) down) as [H _].
    destruct H as (e & He & _); [|by exists e]. by intros [_ H].
Defined.

Theorem client_and_server_safe_witness :
  calls_only v2_only (interp (proxy_link map_to_list "[::1]:8504" id)
    (run_client "[::1]:8501" map_to_list (a_volume "v2") (CSnapshotRemove ["s1"; "s2"]))).
Proof.
  by apply (client_and_server_safe "[::1]:8501" map_to_list "[::1]:8504" id (a_volume "v2")
    (CSnapshotRemove ["s1"; "s2"])).
Defined.

(** The SPDK service refuses an expansion, with a code that the caller gets. *)
Theorem v2_call_refines_witness :
  ∃ e, (run map_to_list "[::1]:8504" id (empty_services (Some (EStatus NotFound "no frontend")))
     (run_client "[::1]:8501" map_to_list (a_volume "v2") (CVolumeExpand 4096))).1 =
     Some (Err e) ∧ status_code e = NotFound.
Proof.
  apply (v2_call_refines "[::1]:8501" map_to_list range_order_to_list "[::1]:8504" id
    (empty_services (Some (EStatus NotFound "no frontend"))) (a_volume "v2") (CVolumeExpand 4096)
    (EngineFrontendExpand "vol-ef-0" 4096)); [|reflexivity|reflexivity].
  split; [by repeat constructor|by split].
Defined.

(** A controller with a replica in a mode that the API does not know. *)
Definition controller_lists (X : Type) (q : callE X) : X :=
  match q in callE X return X with
  | Eng c q =>
      match q in engineE X return X with
      | ControllerReplicaList => Ok [("tcp://10.0.0.1:10000", "RW"); ("tcp://10.0.0.2:10000", "NA")]
      | q => empty_services None _ (Eng c q)
      end
  | q => empty_services None _ q
  end.

Theorem ReplicaList_end_to_end_witness :
  (run map_to_list "[::1]:8504" id controller_lists
     (run_client "[::1]:8501" map_to_list (a_volume "v1") CReplicaList)).1 =
   Some (Ok [("tcp://10.0.0.1:10000", "RW"); ("tcp://10.0.0.2:10000", "ERR")]).
Proof.
  apply (ReplicaList_end_to_end "[::1]:8501" map_to_list range_order_to_list "[::1]:8504" id
    controller_lists (a_volume "v1")) with
    (l := [("tcp://10.0.0.1:10000", "RW"); ("tcp://10.0.0.2:10000", "NA")]); try reflexivity.
  split; [by repeat constructor|by split].
Defined.

Theorem BackupRestore_end_to_end_witness :
  (run map_to_list "[::1]:8504" id (empty_services None)
     (ProxyClient_BackupRestore "[::1]:8501" map_to_list (λ _, Ok []) "v1" "vol-e-0" "vol"
        "10.0.0.9:20001" "s3://b@r/" "s3://b@r/" "vol" ["AWS_CERT=x"] 1 false)).1 = Some None.
Proof.
  destruct (BackupRestore_end_to_end "[::1]:8501" map_to_list range_order_to_list "[::1]:8504" id
    (λ _, Ok []) (empty_services None) (a_volume "v1") "s3://b@r/" "s3://b@r/" "vol"
    ["AWS_CERT=x"] 1 false ∅) as (r & Hr & Hiff & _).
  - by repeat constructor.
  - done.
  - by apply validate_permitted.
  - done.
  - etransitivity; [exact Hr|]. f_equal. apply Hiff; [|reflexivity].
    intros e He. assert (None = Some e) as H; [|discriminate H].
    etransitivity; [|exact He]. reflexivity.
Defined.
