(* ===== verification/Manager.v ===== *)
(** * The process manager

    [pkg/process/process_manager.go], [process.go], [healthchecker.go]: the
    handlers, goroutines and critical sections of the process manager, as
    programs of [Sched]. A critical section is a function on [World]; what
    the operating system, the clock and the channels answer is a [sysE]
    question. *)
From S2P Require Import Prelude GoStrings Bitmap Sched Process.

#[local] Open Scope Z_scope.
#[local] Open Scope go_scope.

Section manager.
Context {B : Type} `{PA : PortAllocator B}.

(** ** The shared state *)

(** The channels. [processUpdateCh] and [broadcastCh] are unbuffered: a value
    that is being sent, whose sender is blocked, is in [updates] or
    [broadcasts], in the order of the sends; [taken] counts the updates
    received, [streamed] are the broadcasts received. [ticked]: the ticker of
    the condition check has fired. [ctx_done]: the context of the manager is
    cancelled. Then the two variables [done] of [startMonitoring] and of
    [startInstanceConditionCheck]. *)
Record Channels := mkChannels {
  updates : list ptr;
  taken : nat;
  broadcasts : list ProcessResponse;
  streamed : list ProcessResponse;
  ticked : bool;
  ctx_done : bool;
  monitor_done : bool;
  check_done : bool;
}.

(** [Manager] and what its goroutines share: the map of processes by name,
    the processes and commands by address, the port bitmap, the channels, the
    time, the commands whose probe stop channel is closed, and the log files
    (whether each is still open). *)
Record World := mkWorld {
  processes : gmap string ptr;
  heap : list Process;
  commands : list BinaryCommand;
  availablePorts : B;
  channels : Channels;
  clock : Z;
  stopped_probes : gset ptr;
  log_files : list bool;
}.

Definition set_heap (f : list Process → list Process) (w : World) : World :=
  {| processes := processes w; heap := f (heap w); commands := commands w;
     availablePorts := availablePorts w; channels := channels w;
     clock := clock w; stopped_probes := stopped_probes w; log_files := log_files w |}.
Definition set_os (cs : list BinaryCommand) (t : Z) (sp : gset ptr) (lf : list bool)
    (w : World) : World :=
  {| processes := processes w; heap := heap w; commands := cs;
     availablePorts := availablePorts w; channels := channels w;
     clock := t; stopped_probes := sp; log_files := lf |}.
Definition set_channels (f : Channels → Channels) (w : World) : World :=
  {| processes := processes w; heap := heap w; commands := commands w;
     availablePorts := availablePorts w; channels := f (channels w);
     clock := clock w; stopped_probes := stopped_probes w; log_files := log_files w |}.
Definition set_registry (m : gmap string ptr) (b : B) (w : World) : World :=
  {| processes := m; heap := heap w; commands := commands w;
     availablePorts := b; channels := channels w;
     clock := clock w; stopped_probes := stopped_probes w; log_files := log_files w |}.

Definition with_updates (us : list ptr) (n : nat) (c : Channels) : Channels :=
  {| updates := us; taken := n; broadcasts := broadcasts c; streamed := streamed c;
     ticked := ticked c; ctx_done := ctx_done c; monitor_done := monitor_done c;
     check_done := check_done c |}.
Definition with_broadcasts (bs rs : list ProcessResponse) (c : Channels) : Channels :=
  {| updates := updates c; taken := taken c; broadcasts := bs; streamed := rs;
     ticked := ticked c; ctx_done := ctx_done c; monitor_done := monitor_done c;
     check_done := check_done c |}.
Definition with_signals (tick ctx monitor check : bool) (c : Channels) : Channels :=
  {| updates := updates c; taken := taken c; broadcasts := broadcasts c; streamed := streamed c;
     ticked := tick; ctx_done := ctx; monitor_done := monitor; check_done := check |}.

(** How many sends there have been. *)
Definition sent (w : World) : nat := taken (channels w) + length (updates (channels w)).
Definition broadcast (w : World) : nat :=
  length (streamed (channels w)) + length (broadcasts (channels w)).

Definition proc (w : World) (p : ptr) : Process := heap w !!! p.
Definition alter_proc (f : Process → Process) (p : ptr) (w : World) : World :=
  set_heap (alter f p) w.
Definition command (w : World) (c : ptr) : BinaryCommand := commands w !!! c.
Definition alter_cmd (f : BinaryCommand → BinaryCommand) (c : ptr) (w : World) : World :=
  set_os (alter f c (commands w)) (clock w) (stopped_probes w) (log_files w) w.
Definition close_logger (l : ptr) (w : World) : World :=
  set_os (commands w) (clock w) (stopped_probes w) (<[l := false]> (log_files w)) w.
Definition close_probe (c : ptr) (w : World) : World :=
  set_os (commands w) (clock w) ({[c]} ∪ stopped_probes w) (log_files w) w.
Definition add_command (c : BinaryCommand) (w : World) : ptr * World :=
  (length (commands w),
   set_os (commands w ++ [c]) (clock w) (stopped_probes w) (log_files w) w).

(** ** The environment *)

(** How a program run by [util.ExecuteWithTimeout] ends: with the error of
    [cmd.Run], or not within the timeout; then the error variable is still
    nil, unless the killed program returned before it is read. *)
Inductive exec_outcome :=
  | Finished (output stderr : string) (e : option error)
  | TimedOut (output stderr : string) (e : option error).

Inductive sysE : Type → Type :=
  | ENewLonghornWriter (name : string) : sysE (res ptr)
  | ENewProcess (mk : string → Process) : sysE (ptr * string)
  | ELookPath (binary : string) : sysE (res string)
  | EAbs (path : string) : sysE (res string)
  | ECmdStart (c : ptr) : sysE (option error)
  | ECmdWait (c : ptr) : sysE (option error)
  (** [p.UpdateCh <- p]: the value is offered, and then the sender goes on when
      the [t]-th update has been received; the same for [broadcastCh] *)
  | ESend (p : ptr) : sysE nat
  | ESent (t : nat) : sysE unit
  | EBroadcast (r : ProcessResponse) : sysE nat
  | EBroadcasted (t : nat) : sysE unit
  (** the [select] statements of [startMonitoring] ([None]: the context is done)
      and of [startInstanceConditionCheck] ([true]: a tick), and the receive of
      [stream] *)
  | ERecv : sysE (option ptr)
  | ETick : sysE bool
  | ERecvBroadcast : sysE ProcessResponse
  | ENow : sysE Z
  | ESelectStop (c : ptr) : sysE bool
  | EExecute (binary : string) (args : list string) : sysE exec_outcome
  | EMounts : sysE (res (list MountPoint))
  | ERange : sysE (list (string * ptr)).

(** The answers a schedule writes down. *)
Inductive answer :=
  | AUnit | AOk | AErr (e : error) | AStr (s : string) | AZ (z : Z) | ABool (b : bool)
  | AExec (o : exec_outcome) | AMounts (r : res (list MountPoint)).

(** What may be answered. A new process gets a UUID no process has; a send
    on a nil channel blocks for ever; a receive gets the value offered first,
    which lets its sender go on; the clock is monotonic; the stop case of the health checker's [select]
    needs a closed channel; [range] over a map goes through it in any order. *)
Definition sys_ok {X} (e : sysE X) (w : World) : X → Prop :=
  match e in sysE X return X → Prop with
  | ENewLonghornWriter _ => λ r, ∀ l, r = Ok l → l = length (log_files w)
  | ENewProcess _ => λ r,
      r.1 = length (heap w) ∧ r.2 ≠ "" ∧ Forall (λ q, UUID q ≠ r.2) (heap w)
  | ELookPath _ | EAbs _ => λ _, True
  | ECmdStart c => λ _, CmdProcess (command w c) = false
  | ECmdWait c => λ _, IsRunning (command w c) = true
  | ESend p => λ t, UpdateCh (proc w p) = true ∧ t = sent w
  | ESent t => λ _, (t < taken (channels w))%nat
  | EBroadcast _ => λ t, t = broadcast w
  | EBroadcasted t => λ _, (t < length (streamed (channels w)))%nat
  | ERecv => λ r,
      match r with
      | Some p => head (updates (channels w)) = Some p
      | None => ctx_done (channels w) = true
      end
  | ETick => λ b, if (b : bool) then ticked (channels w) = true else ctx_done (channels w) = true
  | ERecvBroadcast => λ r, head (broadcasts (channels w)) = Some r
  | ENow => λ t, clock w ≤ t
  | ESelectStop c => λ b, b = true → c ∈ stopped_probes w
  | EExecute _ _ | EMounts => λ _, True
  | ERange => λ l, l ≡ₚ map_to_list (processes w)
  end.

Definition sys_upd {X} (e : sysE X) : X → World → World :=
  match e in sysE X return X → World → World with
  | ENewLonghornWriter _ => λ r w,
      match r with
      | Ok _ => set_os (commands w) (clock w) (stopped_probes w) (log_files w ++ [true]) w
      | Err _ => w
      end
  | ENewProcess mk => λ r w, set_heap (λ h, h ++ [mk r.2]) w
  | ELookPath _ | EAbs _ => λ _ w, w
  | ECmdStart c => λ r w,
      match r with
      | None => alter_cmd (λ x, with_cmd true (CmdProcessState x) (CmdOutput x) (signals x) x) c w
      | Some _ => w
      end
  | ECmdWait c => λ _ w,
      alter_cmd (λ x, with_cmd (CmdProcess x) true (CmdOutput x) (signals x) x) c w
  | ESend p => λ _, set_channels (λ c, with_updates (updates c ++ [p]) (taken c) c)
  | EBroadcast r => λ _, set_channels (λ c, with_broadcasts (broadcasts c ++ [r]) (streamed c) c)
  | ESent _ | EBroadcasted _ => λ _ w, w
  | ERecv => λ r, set_channels (λ c,
      match r with
      | Some _ => with_updates (tail (updates c)) (S (taken c)) c
      | None => with_signals (ticked c) (ctx_done c) true (check_done c) c
      end)
  | ETick => λ b, set_channels (λ c,
      if (b : bool) then with_signals false (ctx_done c) (monitor_done c) (check_done c) c
      else with_signals (ticked c) (ctx_done c) (monitor_done c) true c)
  | ERecvBroadcast => λ r, set_channels (λ c,
      with_broadcasts (tail (broadcasts c)) (streamed c ++ [r]) c)
  | ENow => λ t w, set_os (commands w) t (stopped_probes w) (log_files w) w
  | ESelectStop _ => λ _ w, w
  | EExecute _ _ | EMounts => λ _ w, w
  | ERange => λ _ w, w
  end.

Definition sys_read {X} (e : sysE X) (a : answer) (w : World) : option X :=
  match e in sysE X return option X with
  | ENewLonghornWriter _ =>
      match a with AOk => Some (Ok (length (log_files w))) | AErr x => Some (Err x) | _ => None end
  | ENewProcess _ =>
      match a with
      | AStr u => if decide (u ≠ "" ∧ Forall (λ q, UUID q ≠ u) (heap w))
                  then Some (length (heap w), u) else None
      | _ => None
      end
  | ELookPath _ | EAbs _ =>
      match a with AStr s => Some (Ok s) | AErr x => Some (Err x) | _ => None end
  | ECmdStart c =>
      if CmdProcess (command w c) then None else
      match a with AOk => Some None | AErr x => Some (Some x) | _ => None end
  | ECmdWait c =>
      if IsRunning (command w c) then
      match a with AOk => Some None | AErr x => Some (Some x) | _ => None end else None
  | ESend p => if UpdateCh (proc w p) then Some (sent w) else None
  | ESent t => if decide (t < taken (channels w))%nat then Some tt else None
  | EBroadcast _ => Some (broadcast w)
  | EBroadcasted t => if decide (t < length (streamed (channels w)))%nat then Some tt else None
  | ERecv =>
      match a with
      | ABool false => if ctx_done (channels w) then Some None else None
      | _ => Some <$> head (updates (channels w))
      end
  | ETick =>
      match a with
      | ABool false => if ctx_done (channels w) then Some false else None
      | _ => if ticked (channels w) then Some true else None
      end
  | ERecvBroadcast => head (broadcasts (channels w))
  | ENow => match a with AZ t => if decide (clock w ≤ t) then Some t else None | _ => None end
  | ESelectStop c =>
      match a with
      | ABool true => if decide (c ∈ stopped_probes w) then Some true else None
      | ABool false => Some false
      | _ => None
      end
  | EExecute _ _ => match a with AExec o => Some o | _ => None end
  | EMounts => match a with AMounts r => Some r | _ => None end
  | ERange => Some (map_to_list (processes w))
  end.

Lemma sys_read_ok X (e : sysE X) a w x : sys_read e a w = Some x → sys_ok e w x.
Proof.
  destruct e; simpl; try done; intros Hr; try (repeat case_match; naive_solver);
    try (destruct (head _) eqn:Hd; repeat case_match; simplify_eq/=; done).
Qed.

#[export] Instance sys_env : Env World sysE answer := {
  env_ok X e w := sys_ok e w;
  env_upd X e := sys_upd e;
  env_read X e := sys_read e;
  env_read_ok := sys_read_ok;
}.

Abbreviation go_prog := (prog World sysE).

(** ** [util.Execute] and the health checker *)

Definition ExecuteWithTimeout (binary : string) (args : list string) :
    go_prog (string * option error) :=
  r ← ask (EExecute binary args);
  let what := binary +:+ " [" +:+ join " " args +:+ "], output " in
  match r with
  | TimedOut out serr e =>
      mret ("", wrap ("timeout executing: " +:+ what +:+ out +:+ ", stderr " +:+ serr) e)
  | Finished out serr (Some e) =>
      mret ("", wrap ("failed to execute: " +:+ what +:+ out +:+ ", stderr " +:+ serr) (Some e))
  | Finished out serr None => mret (out, None)
  end.

Definition Execute := ExecuteWithTimeout.

Definition GRPCHealthProbe : string := "/usr/local/bin/grpc_health_probe".

Definition GRPCServiceReadinessProbe (address : string) : go_prog bool :=
  r ← Execute GRPCHealthProbe ["-addr"; address];
  mret (match r.2 with Some _ => false | None => true end).

(** [GRPCHealthChecker.WaitForRunning]: at most [n] turns of the loop. *)
Fixpoint wait_for_running (n : nat) (address : string) (stopCh : ptr) : go_prog bool :=
  match n with
  | O => mret false
  | S n' =>
      stop ← ask (ESelectStop stopCh);
      if (stop : bool) then mret false else
      up ← GRPCServiceReadinessProbe address;
      if (up : bool) then mret true else wait_for_running n' address stopCh
  end.
Definition WaitForRunning := wait_for_running WaitCount.

(** The checkers of the other three servers: the same loop, with other logs. *)
Definition Instance_WaitForRunning := wait_for_running WaitCount.
Definition Disk_WaitForRunning := wait_for_running WaitCount.
Definition Proxy_WaitForRunning := wait_for_running WaitCount.

(** [util.RemoveFile], given whether [os.Stat] finds that there is no file. *)
Definition RemoveFile (not_exist : bool) (file : string) : go_prog (option error) :=
  if not_exist then mret None
  else
    r ← Execute "rm" [file];
    mret (wrap ("failed to remove file " +:+ file) r.2).

(** ** Stopping a process *)

(** [p.UpdateCh <- p]. *)
Definition send (p : ptr) : go_prog unit := t ← ask (ESend p); ask (ESent t).
Definition is_stopped (p : ptr) : go_prog bool := read (λ w, IsStopped (proc w p)).
Definition rpc_response (p : ptr) : go_prog ProcessResponse :=
  read (λ w, RPCResponse (proc w p)).
Definition close_log_of (p : ptr) : go_prog unit :=
  update (λ w, close_logger (logger (proc w p)) w).

(** Poll [IsStopped], at most [n] times: whether the process was seen stopped. *)
Fixpoint wait_stopped (n : nat) (p : ptr) : go_prog bool :=
  match n with
  | O => mret false
  | S n' => b ← is_stopped p; if (b : bool) then mret true else wait_stopped n' p
  end.

(** The goroutine of [StopWithSignal]. The state is read and written without
    the lock when the command does not run. *)
Definition stop_goroutine (p : ptr) (c : option ptr) (needStop : bool) (signal : Signal) :
    go_prog unit :=
  running ← read (λ w, match c with Some c => IsRunning (command w c) | None => false end);
  match c, (running : bool) with
  | Some c, true =>
      killed ← (if needStop then
                  update (alter_cmd (CmdStopWithSignal signal) c);;
                  stopped ← wait_stopped WaitCount p;
                  mret (negb stopped)
                else mret true);
      (if (killed : bool) then update (alter_cmd Kill c) else mret tt);;
      close_log_of p
  | _, _ =>
      s ← read (λ w, PState (proc w p));
      (if decide (s = StateStopped) then mret tt else
       s' ← read (λ w, PState (proc w p));
       if decide (s' = StateError) then mret tt else
       update (alter_proc (set_state StateStopped) p));;
      close_log_of p
  end.

Definition StopWithSignal (p : ptr) (signal : Signal) : go_prog unit :=
  now ← ask ENow;
  d ← atomic (λ w, ((stop_section now (proc w p)).1,
                    alter_proc (λ q, (stop_section now q).2) p w));
  let '(needStop, needTimeoutKill, needCloseLogger) := (d : bool * bool * bool) in
  if negb needStop && negb needTimeoutKill then
    if needCloseLogger then close_log_of p else mret tt
  else
    send p;;
    c ← read (λ w, cmd (proc w p));
    go (stop_goroutine p c needStop signal).

Definition Stop (p : ptr) : go_prog unit := StopWithSignal p SIGINT.

(** ** Starting a process *)

(** [NewBinaryCommand]. *)
Definition NewBinaryCommand (binary : string) (args : list string) : go_prog (res ptr) :=
  r ← ask (ELookPath binary);
  match r with
  | Err e => mret (Err e)
  | Ok path =>
      r ← ask (EAbs path);
      match r with
      | Err e => mret (Err e)
      | Ok path => c ← atomic (add_command (new_command path args)); mret (Ok c)
      end
  end.

(** [cmd.Run()]: start, then wait. *)
Definition cmd_run (c : ptr) : go_prog (option error) :=
  e ← ask (ECmdStart c);
  match e with
  | Some e => mret (Some e)
  | None => ask (ECmdWait c)
  end.

(** The goroutine of [Start] that runs the command. *)
Definition run_goroutine (p c : ptr) : go_prog unit :=
  e ← cmd_run c;
  update (close_probe c);;
  match e with
  | Some e => update (alter_proc (set_error (error_string e)) p);; send p
  | None => update (alter_proc (set_state StateStopped) p);; send p
  end.

(** The goroutine of [Start] that waits for the process to serve. *)
Definition probe_goroutine (p c : ptr) : go_prog unit :=
  port ← read (λ w, PortStart (proc w p));
  if decide (port ≠ 0) then
    let address := GetURL "localhost" port in
    up ← WaitForRunning address c;
    if (up : bool) then update (alter_proc (set_state StateRunning) p);; send p
    else
      stopped ← is_stopped p;
      if (stopped : bool) then mret tt else Stop p
  else update (alter_proc (set_state StateRunning) p);; send p.

Definition Start (p : ptr) : go_prog (option error) :=
  q ← read (λ w, proc w p);
  r ← NewBinaryCommand (Binary q) (Args q);
  match r with
  | Err e => update (alter_proc (set_error (error_string e)) p);; mret (Some e)
  | Ok c =>
      update (λ w, alter_proc (set_cmd c) p (alter_cmd (SetOutput (logger (proc w p))) c w));;
      go (run_goroutine p c);;
      go (probe_goroutine p c);;
      mret None
  end.

(** ** Ports *)

Definition allocatePorts (b : B) (portCount : Z) : res (Z * Z) * B :=
  if bool_decide (portCount < 0) then
    (Err (EPlain ("invalid port count " +:+ itoa portCount)), b)
  else if bool_decide (portCount = 0) then (Ok (0, 0), b)
  else match alloc_range b portCount with
       | (Err e, b') =>
           (Err (EWrap ("failed to allocate " +:+ itoa portCount +:+ " ports") e), b')
       | (Ok (s, e), b') => (Ok (int32 s, int32 e), b')
       end.

Definition releasePorts (b : B) (first last : Z) : option error * B :=
  if bool_decide (first < 0 ∨ last < 0) then
    (Some (EPlain ("invalid start/end port " +:+ itoa first +:+ " " +:+ itoa last)), b)
  else release_range b first last.

(** The arguments that carry ports: the [i]-th one and those after it. *)
Fixpoint fit_port_args (p : Process) (i : Z) (portArgs : list string) : option error * Process :=
  match portArgs with
  | [] => (None, p)
  | arg :: portArgs' =>
      if bool_decide (int32 (PortStart p + int32 i) > PortEnd p) then
        (Some (EPlain ("cannot fit port args " +:+ arg)), p)
      else
        fit_port_args
          (with_ports (PortStart p) (PortEnd p)
             (Args p ++ split "," (arg +:+ itoa (PortStart p + i))) p)
          (i + 1) portArgs'
  end.

(** On the process and the port bitmap. *)
Definition allocateProcessPorts (p : Process) (b : B) : option error * Process * B :=
  if bool_decide (PortCount p < Z.of_nat (length (PortArgs p))) then
    (Some (EPlain ("too many port args [" +:+ join " " (PortArgs p) +:+ "] for port count "
                   +:+ itoa (PortCount p))), p, b)
  else
    match allocatePorts b (PortCount p) with
    | (Err e, b') =>
        (Some (EWrap ("cannot allocate " +:+ itoa (PortCount p) +:+ " ports for " +:+ Name p) e),
         with_ports 0 0 (Args p) p, b')
    | (Ok (s, e), b') =>
        let '(err, p') := fit_port_args (with_ports s e (Args p) p) 0 (PortArgs p) in
        (err, p', b')
    end.

Definition releaseProcessPorts (p : ptr) (w : World) : World :=
  set_registry (processes w)
    (releasePorts (availablePorts w) (PortStart (proc w p)) (PortEnd (proc w p))).2 w.

(** ** Registration *)

(** Allocate the ports of [p] and store what that makes of it. *)
Definition alloc_step (p : ptr) (w : World) : option error * World :=
  let '(e, q, b) := allocateProcessPorts (proc w p) (availablePorts w) in
  (e, set_registry (processes w) b (alter_proc (λ _, q) p w)).

Definition registerProcess (p : ptr) (w : World) : option error * World :=
  let name := Name (proc w p) in
  match processes w !! name with
  | Some _ =>
      (Some (EStatus AlreadyExists ("process " +:+ name +:+ " already exists")), w)
  | None =>
      match alloc_step p w with
      | (Some e, w') => (Some e, w')
      | (None, w') =>
          let w' := alter_proc set_update_ch p w' in
          (None, set_registry (<[name := p]> (processes w')) (availablePorts w') w')
      end
  end.

(** The process registered under the name of [p] is [p], by UUID. *)
Definition is_registered (p : ptr) (w : World) : bool :=
  match processes w !! Name (proc w p) with
  | Some q => bool_decide (UUID (proc w q) = UUID (proc w p))
  | None => false
  end.

(** The last critical section of [unregisterProcess]. *)
Definition unregister_section (p : ptr) (w : World) : World :=
  if is_registered p w then
    releaseProcessPorts p
      (set_registry (delete (Name (proc w p)) (processes w)) (availablePorts w) w)
  else w.

Definition unregister_goroutine (p : ptr) : go_prog unit :=
  wait_stopped WaitCount p;;
  stopped ← is_stopped p;
  if (stopped : bool) then update (unregister_section p);; send p else mret tt.

Definition unregisterProcess (p : ptr) : go_prog unit :=
  mine ← read (is_registered p);
  if (mine : bool) then go (unregister_goroutine p) else mret tt.

Definition findProcess (name : string) : go_prog (option ptr) :=
  read (λ w, processes w !! name).

(** ** The handlers *)

(** Open the log file and make the process of a request. *)
Definition missing_argument (spec : ProcessSpec) : bool :=
  bool_decide (SName spec = "" ∨ SBinary spec = "").
Definition invalid_argument (msg : string) : error := EStatus InvalidArgument msg.

Definition ProcessCreate (spec : ProcessSpec) : go_prog (reply ProcessResponse) :=
  if missing_argument spec then mret (fail (invalid_argument "missing required argument"))
  else
    lg ← ask (ENewLonghornWriter (SName spec));
    match lg with
    | Err e => mret (fail e)
    | Ok lg =>
        pu ← ask (ENewProcess (λ u, new_process spec u lg));
        let p := (pu : ptr * string).1 in
        e ← atomic (registerProcess p);
        match (e : option error) with
        | Some e => update (close_logger lg);; mret (fail e)
        | None =>
            send p;;
            e ← Start p;
            (match e with Some _ => send p | None => mret tt end);;
            resp ← rpc_response p;
            mret (ok resp)
        end
    end.

Definition process_not_found (name : string) : error :=
  EStatus NotFound ("cannot find process " +:+ name).

Definition ProcessDelete (name uuid : string) : go_prog (reply ProcessResponse) :=
  p ← findProcess name;
  match (p : option ptr) with
  | None => mret (fail (process_not_found name))
  | Some p =>
      q ← read (λ w, proc w p);
      if bool_decide (uuid ≠ "" ∧ UUID q ≠ uuid) then
        mret (fail (EStatus NotFound ("cannot find process " +:+ name +:+ " with UUID " +:+ uuid)))
      else
        Stop p;;
        resp ← rpc_response p;
        unregisterProcess p;;
        mret (ok (mark_deleted true resp))
  end.

Definition ProcessGet (name : string) : go_prog (reply ProcessResponse) :=
  p ← findProcess name;
  match (p : option ptr) with
  | None => mret (fail (process_not_found name))
  | Some p => resp ← rpc_response p; mret (ok resp)
  end.

(** The responses of the processes ranged over, by name. *)
Fixpoint list_responses (l : list (string * ptr)) (m : gmap string ProcessResponse) :
    go_prog (gmap string ProcessResponse) :=
  match l with
  | [] => mret m
  | (_, p) :: l' =>
      resp ← rpc_response p; list_responses l' (<[SName (Spec resp) := resp]> m)
  end.

Definition ProcessList : go_prog (reply (gmap string ProcessResponse)) :=
  l ← ask ERange; m ← list_responses l ∅; mret (ok m).

(** ** Replacement *)

(** [initProcessReplace]: the process to replace. *)
Definition initProcessReplace (p : ptr) (w : World) : res ptr * World :=
  let name := Name (proc w p) in
  match processes w !! name with
  | None =>
      (Err (EStatus NotFound ("existing process " +:+ name +:+ " doesn't exists")), w)
  | Some old =>
      match alloc_step p w with
      | (Some e, w') => (Err e, w')
      | (None, w') => (Ok old, alter_proc set_update_ch p w')
      end
  end.

(** The last critical section of [ProcessReplace]: whether [p] took the name. *)
Definition replace_section (p old : ptr) (w : World) : bool * World :=
  let name := Name (proc w p) in
  let register w' := (true, set_registry (<[name := p]> (processes w')) (availablePorts w') w') in
  match processes w !! name with
  | None => register w
  | Some q =>
      if bool_decide (UUID (proc w q) = UUID (proc w old)) then register (releaseProcessPorts old w)
      else (false, w)
  end.

Definition cleanupReplacementProcess (p : ptr) : go_prog unit :=
  Stop p;; update (releaseProcessPorts p).

(** The loop that waits for the replacement to run, [n] turns: [false] when
    it reached another state than [starting] and [running]. *)
Fixpoint wait_replacement (n : nat) (p : ptr) : go_prog bool :=
  match n with
  | O => mret true
  | S n' =>
      resp ← rpc_response p;
      let st := StState (Status resp) in
      if bool_decide (st = state_string StateRunning) then mret true
      else if bool_decide (st ≠ state_string StateStarting) then mret false
      else wait_replacement n' p
  end.

(** From the start of the replacement [p] of [old] on. *)
Definition replace_with (p old : ptr) (name : string) : go_prog (reply ProcessResponse) :=
  e ← Start p;
  match e with
  | Some _ =>
      cleanupReplacementProcess p;;
      mret (fail (EPlain ("failed to init replacement process " +:+ name)))
  | None =>
      alive ← wait_replacement 30 p;
      if negb alive then
        cleanupReplacementProcess p;;
        mret (fail (EPlain ("failed to start replacement process " +:+ name)))
      else
        StopWithSignal old SIGHUP;;
        done ← atomic (replace_section p old);
        if (done : bool) then
          send p;;
          resp ← rpc_response p;
          mret (ok resp)
        else
          cleanupReplacementProcess p;;
          mret (fail (EStatus AlreadyExists
            ("process " +:+ name +:+ " to replace has changed in the meantime")))
  end.

Definition ProcessReplace (spec : ProcessSpec) (terminateSignal : string) :
    go_prog (reply ProcessResponse) :=
  if missing_argument spec then mret (fail (invalid_argument "missing required argument"))
  else if bool_decide (terminateSignal ≠ "SIGHUP") then
    mret (fail (invalid_argument ("doesn't support terminate signal " +:+ terminateSignal)))
  else
    lg ← ask (ENewLonghornWriter (SName spec));
    match lg with
    | Err e => mret (fail e)
    | Ok lg =>
        pu ← ask (ENewProcess (λ u, new_process spec u lg));
        let p := (pu : ptr * string).1 in
        r ← atomic (initProcessReplace p);
        match (r : res ptr) with
        | Err e => update (close_logger lg);; mret (fail e)
        | Ok old =>
            b ← read (λ w, Binary (proc w old));
            if bool_decide (b = SBinary spec) then
              update (close_logger lg);;
              update (releaseProcessPorts p);;
              resp ← rpc_response old;
              mret (ok resp)
            else replace_with p old (SName spec)
        end
    end.

(** ** The manager's own goroutines *)

(** One turn of the loop of [startMonitoring]. *)
Definition monitor_turn : go_prog unit :=
  r ← ask ERecv;
  match r with
  | None => mret tt
  | Some p =>
      resp ← rpc_response p;
      exists_ ← read (λ w, bool_decide (is_Some (processes w !! Name (proc w p))));
      t ← ask (EBroadcast (mark_deleted (negb exists_) resp));
      ask (EBroadcasted t)
  end.

Definition startMonitoring : daemon World sysE :=
  Daemon monitor_turn (λ w, negb (monitor_done (channels w))).

(** The loop of [stream] of the broadcaster, on [broadcastCh], which nobody
    closes. What a turn does with the item is [Broadcaster.stream_item]: it
    waits for nothing. *)
Definition stream : daemon World sysE :=
  Daemon (ask ERecvBroadcast;; mret tt) (λ _, true).

Definition EngineConditionFilesystemReadOnly : string := "FilesystemReadOnly".

(** [hex.EncodeToString(sha256.Sum256(..))]. *)
Context (sha256_hex : string → string).

(** What [getProcessesToUpdateConditions] does to one process under its lock:
    whether it has to be sent. *)
Definition condition_section (mounts : gmap string MountPoint) (p : ptr) (w : World) :
    bool * World :=
  let q := proc w p in
  if IsEngineProcess (Name q) && bool_decide (PState q = StateRunning) then
    match ProcessNameToVolumeName (Name q) with
    | None => (false, w)
    | Some vol =>
        match mounts !! sha256_hex vol with
        | Some mp =>
            (true, alter_proc (set_condition EngineConditionFilesystemReadOnly
                                 (IsMountPointReadOnly mp)) p w)
        | None => (false, w)
        end
    end
  else (false, w).

Fixpoint getProcessesToUpdateConditions (mounts : gmap string MountPoint)
    (l : list (string * ptr)) : go_prog (list ptr) :=
  match l with
  | [] => mret []
  | (_, p) :: l' =>
      b ← atomic (condition_section mounts p);
      ps ← getProcessesToUpdateConditions mounts l';
      mret (if (b : bool) then p :: ps else ps)
  end.

Fixpoint send_all (ps : list ptr) : go_prog unit :=
  match ps with [] => mret tt | p :: ps' => send p;; send_all ps' end.

Definition checkMountPointStatusForEngine : go_prog unit :=
  r ← ask EMounts;
  let mounts := match r with Ok mps => GetVolumeMountPointMap mps | Err _ => ∅ end in
  l ← ask ERange;
  ps ← getProcessesToUpdateConditions mounts l;
  send_all ps.

(** One turn of the loop of [startInstanceConditionCheck]. *)
Definition check_turn : go_prog unit :=
  b ← ask ETick;
  if (b : bool) then checkMountPointStatusForEngine else mret tt.

Definition startInstanceConditionCheck : daemon World sysE :=
  Daemon check_turn (λ w, negb (check_done (channels w))).

(** ** The end of the manager ([cleanup] of [app/cmd/start.go]) *)

Fixpoint delete_all (l : list (string * ProcessResponse)) : go_prog unit :=
  match l with
  | [] => mret tt
  | (_, r) :: l' => ProcessDelete (SName (Spec r)) "";; delete_all l'
  end.

Fixpoint wait_no_process (n : nat) : go_prog unit :=
  match n with
  | O => mret tt
  | S n' =>
      r ← ProcessList;
      match r with
      | (Some ps, None) => if bool_decide (ps = ∅) then mret tt else wait_no_process n'
      | _ => mret tt
      end
  end.

Definition cleanup : go_prog unit :=
  r ← ProcessList;
  match r with
  | (Some ps, None) => delete_all (map_to_list ps);; wait_no_process WaitCount
  | _ => mret tt
  end.

(** ** The clients of the manager *)

(** The calls that may arrive: the gRPC handlers (whatever the caller makes
    of the reply; a port count is an [int32]), the clean-up when its server has
    stopped, the ticks of the clock and the end of the context. *)
Inductive client : go_prog unit → Prop :=
  | client_create spec : in_int32 (SPortCount spec) → client (ProcessCreate spec;; mret tt)
  | client_delete name uuid : client (ProcessDelete name uuid;; mret tt)
  | client_replace spec sig :
      in_int32 (SPortCount spec) → client (ProcessReplace spec sig;; mret tt)
  | client_get name : client (ProcessGet name;; mret tt)
  | client_list : client (ProcessList;; mret tt)
  | client_cleanup : client cleanup
  | client_tick : client (update (set_channels (λ c,
      with_signals true (ctx_done c) (monitor_done c) (check_done c) c)))
  | client_cancel : client (update (set_channels (λ c,
      with_signals (ticked c) true (monitor_done c) (check_done c) c))).

(** [NewManager]: no process, the ports of the bitmap; and the goroutines it
    starts. *)
Definition NewManager (b : B) : World :=
  {| processes := ∅; heap := []; commands := []; availablePorts := b;
     channels := {| updates := []; taken := 0; broadcasts := []; streamed := [];
                    ticked := false; ctx_done := false; monitor_done := false;
                    check_done := false |};
     clock := 0; stopped_probes := ∅; log_files := [] |}.

Definition manager : system World sysE :=
  System client [startInstanceConditionCheck; startMonitoring; stream].
End manager.
Arguments World : clear implicits.

(** [ParsePortRange] of the process manager, and of [pkg/util]. *)
Definition ParsePortRange (portRange : string) : res (Z * Z) :=
  if bool_decide (portRange = "") then Err (EPlain "empty port range")
  else match split "-" portRange with
       | [first; last] =>
           match atoi (trim_space first) with
           | Err e => Err (EWrap "invalid start port for range" e)
           | Ok portStart =>
               match atoi (trim_space last) with
               | Err e => Err (EWrap "invalid end port for range" e)
               | Ok portEnd => Ok (int32 portStart, int32 portEnd)
               end
           end
       | _ => Err (EPlain ("invalid format for range: " +:+ portRange))
       end.

Definition util_ParsePortRange (portRange : string) : res (Z * Z) :=
  match split "-" portRange with
  | [first; last] =>
      match atoi (trim_space first) with
      | Err e => Err e
      | Ok portStart =>
          match atoi (trim_space last) with
          | Err e => Err e
          | Ok portEnd => Ok (int32 portStart, int32 portEnd)
          end
      end
  | _ => Err (EPlain ("invalid format for SPDK port range " +:+ portRange))
  end.

(** [NewManager] from the port range it is given. *)
Definition NewProcessManager (portRange : string) : res (World Bitmap) :=
  match ParsePortRange portRange with
  | Err e => Err e
  | Ok (first, last) =>
      match NewBitmap first last with
      | Err e => Err e
      | Ok b => Ok (NewManager b)
      end
  end.
