(* ===== verification/ManagerPorts.v ===== *)
(** * Port ownership in the process manager

    In every interleaving of the handlers and goroutines of [Manager], each
    port of the range is either free in the bitmap or belongs to exactly one
    process: one that is registered, or the replacement a [ProcessReplace] in
    progress has allocated ports for. The file proves it against the interface
    [PortAllocator], so for any bitmap that keeps its promises. *)
From S2P Require Import Prelude GoStrings Bitmap Sched Process Manager.

#[local] Open Scope Z_scope.

(** The ports a process has: none when the range is [0-0]. *)
Definition port_range (q : Process) : gset Z :=
  if decide (PortStart q = 0) then ∅ else ports (PortStart q) (PortEnd q).

Definition good_range (q : Process) : Prop :=
  (PortStart q = 0 ∧ PortEnd q = 0) ∨ (0 < PortStart q ≤ PortEnd q ∧ PortEnd q < 2^31).

(** The token of a goroutine that has made a process and not yet asked for its
    ports ([false]), or that has its ports and has not registered it ([true]). *)
Abbreviation token := (bool * nat)%type (only parsing).

Section ports.
Context {B : Type} `{PortAllocatorLaws B}.
Context (sha256_hex : string → string).
(** The ports the manager was made with. *)
Variable all : gset Z.

Definition owner (w : World B) (h : gset token) (p : nat) : Prop :=
  (true, p) ∈ h ∨ ∃ n, processes w !! n = Some p.

Record inv (w : World B) (h : gset token) : Prop := {
  inv_wf : alloc_wf (availablePorts w);
  inv_all : all_ports (availablePorts w) = all;
  inv_held : ∀ b p, (b, p) ∈ h → (p < length (heap w))%nat;
  inv_map : ∀ n p, processes w !! n = Some p →
    (p < length (heap w))%nat ∧ Name (proc w p) = n ∧ ∀ b, (b, p) ∉ h;
  inv_excl : ∀ p, (true, p) ∈ h → (false, p) ∉ h;
  inv_fresh : ∀ p, (false, p) ∈ h → PortStart (proc w p) = 0 ∧ PortEnd (proc w p) = 0;
  inv_uuid : ∀ p q, (p < length (heap w))%nat → (q < length (heap w))%nat →
    UUID (proc w p) = UUID (proc w q) → p = q;
  inv_uuid_set : ∀ p, (p < length (heap w))%nat → UUID (proc w p) ≠ "";
  inv_count : ∀ p, PortCount (proc w p) < 2^31;
  inv_range : ∀ p, owner w h p → good_range (proc w p);
  inv_disj : ∀ p q, owner w h p → owner w h q → p ≠ q →
    port_range (proc w p) ## port_range (proc w q);
  inv_sep : ∀ p, owner w h p → port_range (proc w p) ## free_ports (availablePorts w);
  inv_cover : ∀ x, x ∈ all ↔
    x ∈ free_ports (availablePorts w) ∨ ∃ p, owner w h p ∧ x ∈ port_range (proc w p);
}.

(** ** Updates that leave the ports alone *)

(** The parts of the state the invariant reads are the same. *)
Definition same_ports (w w' : World B) : Prop :=
  processes w' = processes w ∧ availablePorts w' = availablePorts w ∧
  length (heap w') = length (heap w) ∧
  ∀ p, Name (proc w' p) = Name (proc w p) ∧ UUID (proc w' p) = UUID (proc w p) ∧
       PortCount (proc w' p) = PortCount (proc w p) ∧
       PortStart (proc w' p) = PortStart (proc w p) ∧ PortEnd (proc w' p) = PortEnd (proc w p).

Lemma inv_same w w' h : same_ports w w' → inv w h → inv w' h.
Proof.
  intros (Hm & Hb & Hl & Hp) Hi.
  assert (∀ p, owner w' h p ↔ owner w h p) as Ho by (intros; unfold owner; by rewrite Hm).
  assert (∀ p, port_range (proc w' p) = port_range (proc w p)) as Hr.
  { intros p. unfold port_range. destruct (Hp p) as (_&_&_&->&->). done. }
  destruct Hi. constructor; rewrite ?Hb, ?Hm, ?Hl; try done; intros.
  - destruct (Hp p) as (->&_). auto.
  - destruct (Hp p) as (_&_&_&->&->). auto.
  - destruct (Hp p) as (_&Hu&_), (Hp q) as (_&Hv&_). rewrite Hu, Hv in *. auto.
  - destruct (Hp p) as (_&->&_). auto.
  - destruct (Hp p) as (_&_&->&_). auto.
  - unfold good_range. destruct (Hp p) as (_&_&_&->&->). apply inv_range0. by apply Ho.
  - rewrite !Hr. apply inv_disj0; [by apply Ho..|done].
  - rewrite Hr. apply inv_sep0. by apply Ho.
  - rewrite inv_cover0. by setoid_rewrite Hr; setoid_rewrite Ho.
Qed.

Lemma proc_alter (f : Process → Process) (p q : nat) (w : World B) :
  proc (alter_proc f p w) q =
    if decide (p = q ∧ (p < length (heap w))%nat) then f (proc w p) else proc w q.
Proof.
  unfold proc. simpl. rewrite !list_lookup_total_alt.
  case_decide as Hd; [destruct Hd as [<- Hlt]|].
  - rewrite list_lookup_alter_eq. by destruct (lookup_lt_is_Some_2 _ _ Hlt) as [x ->].
  - destruct (decide (p = q)) as [<-|]; [|by rewrite list_lookup_alter_ne].
    rewrite list_lookup_alter_eq. rewrite (lookup_ge_None_2 (heap w)) by (simpl in *; lia). done.
Qed.

(** What the code does to a process once its ports are allocated. *)
Lemma same_alter (f : Process → Process) p w :
  (∀ q, Name (f q) = Name q ∧ UUID (f q) = UUID q ∧ PortCount (f q) = PortCount q ∧
        PortStart (f q) = PortStart q ∧ PortEnd (f q) = PortEnd q) →
  same_ports w (alter_proc f p w).
Proof.
  intros Hf. split_and!; [done|done|apply length_alter|].
  intros q. rewrite proc_alter. case_decide as Hd; [destruct Hd as [<- _]; apply Hf|done].
Qed.

Lemma same_other w w' :
  processes w' = processes w → heap w' = heap w → availablePorts w' = availablePorts w →
  same_ports w w'.
Proof. intros H1 H2 H3. unfold same_ports, proc. by rewrite H1, H2, H3. Qed.

Lemma same_trans w1 w2 w3 : same_ports w1 w2 → same_ports w2 w3 → same_ports w1 w3.
Proof.
  intros (A1&A2&A3&A4) (B1&B2&B3&B4). split_and!; try congruence.
  intros p. destruct (A4 p) as (?&?&?&?&?), (B4 p) as (?&?&?&?&?). split_and!; congruence.
Qed.

(** ** Tokens *)

Lemma inv_drop_fresh w p h : inv w ({[(false, p)]} ∪ h) → inv w h.
Proof.
  intros []. assert (∀ q, owner w ({[(false, p)]} ∪ h) q ↔ owner w h q) as Ho.
  { intros q. unfold owner. set_solver. }
  constructor; try done; intros.
  - apply (inv_held0 b). set_solver.
  - destruct (inv_map0 n p0) as (?&?&?); [done|]. split_and!; [done|done|].
    intros b. set_solver.
  - set_solver.
  - apply inv_fresh0. set_solver.
  - apply inv_range0. by apply Ho.
  - apply inv_disj0; [by apply Ho..|done].
  - apply inv_sep0. by apply Ho.
  - rewrite inv_cover0. by setoid_rewrite Ho.
Qed.

(** The ports of the token's process go back to the bitmap. *)
Lemma releasePorts_owned w h p :
  inv w h → owner w h p →
  ∃ b', releasePorts (availablePorts w) (PortStart (proc w p)) (PortEnd (proc w p)) = (None, b') ∧
    alloc_wf b' ∧ all_ports b' = all ∧
    free_ports b' = free_ports (availablePorts w) ∪ port_range (proc w p).
Proof.
  intros Hi Ho. pose proof (inv_range w h Hi p Ho) as Hr. destruct Hi.
  unfold releasePorts, port_range. destruct Hr as [[-> ->]|[[Hs He] Hm]].
  - rewrite bool_decide_false by lia. rewrite release_none.
    eexists. split_and!; [done|done|done|]. case_decide; set_solver.
  - rewrite bool_decide_false by lia.
    destruct (release_ok (availablePorts w) (PortStart (proc w p)) (PortEnd (proc w p)))
      as (b' & ? & ? & Hf & ?); [done|lia| |].
    { rewrite inv_all0. intros x Hx. apply inv_cover0. right. exists p. split; [done|].
      unfold port_range. rewrite decide_False by lia. done. }
    exists b'. split_and!; [done|done|congruence|].
    rewrite decide_False by lia. done.
Qed.

Lemma inv_release w p h :
  (true, p) ∉ h → inv w ({[(true, p)]} ∪ h) → inv (releaseProcessPorts p w) h.
Proof.
  intros Hp Hi. assert (owner w ({[(true, p)]} ∪ h) p) as Hop by (left; set_solver).
  destruct (releasePorts_owned _ _ _ Hi Hop) as (b' & Hrel & Hwf & Hall & Hfree).
  unfold releaseProcessPorts. rewrite Hrel. simpl.
  destruct Hi. set (w' := set_registry _ _ w).
  assert (∀ q, proc w' q = proc w q) as Hproc by done.
  assert (∀ q, owner w ({[(true, p)]} ∪ h) q ↔ q = p ∨ owner w' h q) as Ho.
  { intros q. unfold owner, w'. simpl. set_solver. }
  assert (¬ owner w' h p) as Hnp.
  { intros [?|[n Hn]]; [done|]. destruct (inv_map0 n p Hn) as (_&_&Hb).
    apply (Hb true). set_solver. }
  constructor; try done; try setoid_rewrite Hproc; simpl; intros.
  - apply (inv_held0 b). set_solver.
  - destruct (inv_map0 n p0) as (?&?&?); [done|]. split_and!; [done|done|].
    intros b. set_solver.
  - set_solver.
  - apply inv_fresh0. set_solver.
  - apply inv_range0, Ho. by right.
  - apply inv_disj0; [apply Ho; by right..|done].
  - rewrite Hfree. apply disjoint_union_r. split; [apply inv_sep0, Ho; by right|].
    apply inv_disj0; [apply Ho; by right|done|]. by intros ->.
  - rewrite inv_cover0, Hfree, elem_of_union. setoid_rewrite Ho. naive_solver.
Qed.

(** Registering a process under its free name. *)
Lemma inv_publish w p h :
  (true, p) ∉ h → processes w !! Name (proc w p) = None → inv w ({[(true, p)]} ∪ h) →
  inv (set_registry (<[Name (proc w p) := p]> (processes w)) (availablePorts w) w) h.
Proof.
  intros Hp Hn []. set (w' := set_registry _ _ w).
  assert (∀ q, owner w' h q ↔ owner w ({[(true, p)]} ∪ h) q) as Ho.
  { intros q. unfold owner, w'. simpl. setoid_rewrite lookup_insert_Some.
    rewrite elem_of_union, elem_of_singleton. split.
    - intros [?|(n & [[<- <-]|[? ?]])]; eauto.
    - intros [[?|?]|[n Hq]]; simplify_eq; [right; by eexists; left|by left|].
      right. exists n. right. split; [congruence|done]. }
  assert (∀ q, proc w' q = proc w q) as Hproc by done.
  constructor; try done; try setoid_rewrite Hproc; simpl; intros.
  - apply (inv_held0 b). set_solver.
  - apply lookup_insert_Some in H1 as [[<- <-]|[Hne Hq]].
    + split_and!; [apply (inv_held0 true); set_solver|done|]. intros [|]; [done|].
      specialize (inv_excl0 p). set_solver.
    + destruct (inv_map0 n p0) as (?&?&?); [done|]. split_and!; [done|done|].
      intros b. set_solver.
  - set_solver.
  - apply inv_fresh0. set_solver.
  - apply inv_range0. by apply Ho.
  - apply inv_disj0; [by apply Ho..|done].
  - apply inv_sep0. by apply Ho.
  - rewrite inv_cover0. by setoid_rewrite Ho.
Qed.

(** Taking a process off the map, with its ports. *)
Lemma inv_unpublish w p n h :
  processes w !! n = Some p → inv w h →
  inv (set_registry (delete n (processes w)) (availablePorts w) w) ({[(true, p)]} ∪ h) ∧
  (true, p) ∉ h.
Proof.
  intros Hn []. pose proof (inv_map0 n p Hn) as (Hlt & Hname & Hnh). split; [|done].
  set (w' := set_registry _ _ w).
  assert (∀ q, owner w' ({[(true, p)]} ∪ h) q ↔ owner w h q) as Ho.
  { intros q. unfold owner, w'. simpl. setoid_rewrite lookup_delete_Some.
    rewrite elem_of_union, elem_of_singleton. split.
    - intros [[?|?]|(n' & ? & ?)]; simplify_eq; eauto.
    - intros [?|[n' Hq]]; [by left; right|].
      destruct (decide (n' = n)) as [->|]; [|right; by exists n'].
      left; left. congruence. }
  assert (∀ q, proc w' q = proc w q) as Hproc by done.
  constructor; try done; try setoid_rewrite Hproc; simpl; intros.
  - apply elem_of_union in H1 as [?%elem_of_singleton|]; [by simplify_eq|by eapply inv_held0].
  - apply lookup_delete_Some in H1 as [Hne Hq].
    destruct (inv_map0 n0 p0) as (?&?&?); [done|]. split_and!; [done|done|].
    intros b. assert (p0 ≠ p) by (intros ->; congruence). set_solver.
  - set_solver.
  - apply inv_fresh0. set_solver.
  - apply inv_range0. by apply Ho.
  - apply inv_disj0; [by apply Ho..|done].
  - apply inv_sep0. by apply Ho.
  - rewrite inv_cover0. by setoid_rewrite Ho.
Qed.

(** ** Allocation *)

(** The port arguments always fit: there are at most as many as ports. *)
Lemma fit_port_args_ok q i portArgs :
  0 ≤ i → 0 < PortStart q → PortEnd q < 2^31 →
  PortStart q + i + Z.of_nat (length portArgs) - 1 ≤ PortEnd q →
  ∃ args, fit_port_args q i portArgs =
    (None, with_ports (PortStart q) (PortEnd q) (Args q ++ args) q).
Proof.
  revert q i. induction portArgs as [|a portArgs IH]; intros q i Hi Hs He Hfit; simpl in *.
  - exists []. rewrite app_nil_r. by destruct q.
  - rewrite !int32_id by (unfold in_int32; rewrite ?int32_id by (unfold in_int32; lia); lia).
    rewrite bool_decide_false by lia.
    edestruct IH as [args ->]; [| | | |].
    5:{ simpl. rewrite <- app_assoc. by eexists. }
    all: simpl; lia.
Qed.

(** What [allocateProcessPorts] returns for a process without ports. *)
Lemma allocateProcessPorts_spec q b e q' b' :
  alloc_wf b → PortCount q < 2^31 → PortStart q = 0 → PortEnd q = 0 →
  allocateProcessPorts q b = (e, q', b') →
  Name q' = Name q ∧ UUID q' = UUID q ∧ PortCount q' = PortCount q ∧
  UpdateCh q' = UpdateCh q ∧
  match e with
  | Some _ => b' = b ∧ PortStart q' = 0 ∧ PortEnd q' = 0
  | None => alloc_wf b' ∧ all_ports b' = all_ports b ∧ good_range q' ∧
      port_range q' ⊆ free_ports b ∧ free_ports b' = free_ports b ∖ port_range q'
  end.
Proof.
  intros Hwf Hc Hs He. unfold allocateProcessPorts.
  case_bool_decide as Hargs; [intros; by simplify_eq|].
  unfold allocatePorts. case_bool_decide; [intros; by simplify_eq|].
  case_bool_decide as Hz.
  - rewrite Hz in *. destruct (PortArgs q); simpl in *; [|lia].
    intros; simplify_eq/=. split_and!; try done; [by left|..].
    all: unfold port_range; simpl; set_solver.
  - destruct (alloc_range b (PortCount q)) as [[[s x]|x] b1] eqn:Ea.
    + pose proof (alloc_ok _ _ _ _ _ Hwf Hc Ea) as (? & ? & ? & -> & ? & Hsub & Hfree & ?).
      rewrite !int32_id by (unfold in_int32; lia).
      destruct (fit_port_args_ok (with_ports s (s + PortCount q - 1) (Args q) q) 0 (PortArgs q))
        as [args ->]; simpl; [lia..|].
      intros; simplify_eq/=. split_and!; try done.
      * right. simpl. lia.
      * unfold port_range. simpl. rewrite decide_False by lia. done.
      * unfold port_range. simpl. rewrite decide_False by lia. done.
    + apply alloc_err in Ea as ->. intros; simplify_eq/=. done.
Qed.

Lemma alloc_step_shape p w e w' :
  alloc_step p w = (e, w') →
  ∃ q b, allocateProcessPorts (proc w p) (availablePorts w) = (e, q, b) ∧
    w' = set_registry (processes w) b (alter_proc (λ _, q) p w).
Proof.
  unfold alloc_step. destruct (allocateProcessPorts _ _) as [[e' q] b]. naive_solver.
Qed.

(** The process of the token, after the allocation, and all the others. *)
Lemma proc_alloc p q b (w : World B) r :
  (p < length (heap w))%nat →
  proc (set_registry (processes w) b (alter_proc (λ _, q) p w)) r =
    if decide (p = r) then q else proc w r.
Proof.
  intros. change (proc (alter_proc (λ _, q) p w) r = if decide (p = r) then q else proc w r).
  rewrite proc_alter. repeat case_decide; naive_solver.
Qed.

Lemma inv_alloc w p h w' :
  (false, p) ∉ h → inv w ({[(false, p)]} ∪ h) → alloc_step p w = (None, w') →
  inv w' ({[(true, p)]} ∪ h).
Proof.
  intros Hp Hi (q & b & Ha & ->)%alloc_step_shape.
  pose proof (inv_held _ _ Hi false p ltac:(set_solver)) as Hlt.
  pose proof (inv_fresh _ _ Hi p ltac:(set_solver)) as [Hs He].
  pose proof (inv_excl _ _ Hi p) as Hex.
  apply allocateProcessPorts_spec in Ha as (Hn & Hu & Hc & _ & Hwf & Hall & Hg & Hsub & Hfree);
    [|apply Hi|apply Hi|done|done].
  assert (∀ r, proc (set_registry (processes w) b (alter_proc (λ _, q) p w)) r =
    if decide (p = r) then q else proc w r) as Hproc by (intros; by apply proc_alloc).
  set (w' := set_registry _ _ _) in *.
  assert (∀ r, owner w' ({[(true, p)]} ∪ h) r ↔ r = p ∨ owner w ({[(false, p)]} ∪ h) r) as Ho.
  { intros r. unfold owner, w'. simpl. set_solver. }
  assert (¬ owner w ({[(false, p)]} ∪ h) p) as Hnp.
  { intros [Hin|[n Hn']]; [by apply Hex in Hin; set_solver|].
    destruct (inv_map _ _ Hi n p Hn') as (_&_&Hb). apply (Hb false). set_solver. }
  assert (∀ r, r ≠ p → proc w' r = proc w r) as Hne.
  { intros r Hr. rewrite Hproc, decide_False; done. }
  assert (proc w' p = q) as Hpq by (by rewrite Hproc, decide_True).
  assert (length (heap w') = length (heap w)) as Hlen by apply length_alter.
  assert (∀ r, Name (proc w' r) = Name (proc w r) ∧ UUID (proc w' r) = UUID (proc w r) ∧
               PortCount (proc w' r) = PortCount (proc w r)) as Hid.
  { intros r. destruct (decide (r = p)) as [->|]; [by rewrite Hpq|by rewrite Hne]. }
  destruct Hi. constructor; rewrite ?Hlen; try done.
  - simpl. congruence.
  - intros b0 r Hr. destruct (decide (r = p)) as [->|]; [done|].
    apply (inv_held0 b0). set_solver.
  - intros n r Hr. destruct (inv_map0 n r Hr) as (?&?&Hb). destruct (Hid r) as (->&_).
    split_and!; [done|done|]. intros b0 Hin. pose proof (Hb b0). pose proof (Hb false). set_solver.
  - intros r. set_solver.
  - intros r Hr. assert (r ≠ p) by set_solver. rewrite Hne by done. apply inv_fresh0. set_solver.
  - intros r1 r2 ??. destruct (Hid r1) as (_&->&_), (Hid r2) as (_&->&_). auto.
  - intros r. destruct (Hid r) as (_&->&_). auto.
  - intros r. destruct (Hid r) as (_&_&->). auto.
  - intros r [->|Hr]%Ho; [by rewrite Hpq|]. rewrite Hne by (by intros ->). auto.
  - assert (∀ r, owner w ({[(false, p)]} ∪ h) r → port_range (proc w r) ## port_range q) as Hd.
    { intros r Hr. pose proof (inv_sep0 r Hr). set_solver. }
    intros r1 r2 [->|Hr1]%Ho [->|Hr2]%Ho Hne12; [done| | |].
    + rewrite Hpq, Hne by done. symmetry. auto.
    + rewrite Hpq, Hne by done. auto.
    + rewrite !Hne by (by intros ->). auto.
  - intros r [->|Hr]%Ho.
    + rewrite Hpq. simpl. rewrite Hfree. set_solver.
    + rewrite Hne by (by intros ->). simpl. rewrite Hfree. pose proof (inv_sep0 r Hr). set_solver.
  - intros x. rewrite inv_cover0. simpl. rewrite Hfree, elem_of_difference. split.
    + intros [Hx|(r & Hr & Hx)].
      * destruct (decide (x ∈ port_range q)); [|by left]. right. exists p.
        rewrite Hpq, Ho. auto.
      * right. exists r. rewrite Hne by (by intros ->). rewrite Ho. auto.
    + intros [[? _]|(r & [->|Hr]%Ho & Hx)]; [by left| |].
      * rewrite Hpq in Hx. left. auto.
      * rewrite Hne in Hx by (by intros ->). right. eauto.
Qed.

(** A refused allocation: the process keeps no port and its token goes. *)
Lemma inv_alloc_failed w p h e w' :
  inv w ({[(false, p)]} ∪ h) → alloc_step p w = (Some e, w') → inv w' h.
Proof.
  intros Hi (q & b & Ha & ->)%alloc_step_shape.
  pose proof (inv_held _ _ Hi false p ltac:(set_solver)) as Hlt.
  pose proof (inv_fresh _ _ Hi p ltac:(set_solver)) as [Hs He].
  apply allocateProcessPorts_spec in Ha as (Hn & Hu & Hc & _ & -> & Hs' & He');
    [|apply Hi|apply Hi|done|done].
  apply (inv_drop_fresh _ p). eapply inv_same; [|exact Hi]. split_and!; [done|done| |].
  - apply length_alter.
  - intros r. rewrite proc_alloc by done. case_decide; naive_solver congruence.
Qed.

(** ** The critical sections *)

Lemma inv_register w p h e w' :
  (false, p) ∉ h → inv w ({[(false, p)]} ∪ h) → registerProcess p w = (e, w') → inv w' h.
Proof.
  intros Hp Hi. unfold registerProcess.
  destruct (processes w !! Name (proc w p)) as [q|] eqn:Hn.
  { intros; simplify_eq. by eapply inv_drop_fresh. }
  destruct (alloc_step p w) as [[e1|] w1] eqn:Ha; intros; simplify_eq.
  { by eapply inv_alloc_failed. }
  pose proof (inv_excl _ _ Hi p) as Hex.
  pose proof Ha as Hi1. apply inv_alloc with (h := h) in Hi1; [|done|done].
  apply alloc_step_shape in Ha as (q & b & Ha & ->).
  pose proof (inv_held _ _ Hi false p ltac:(set_solver)) as Hlt.
  pose proof (inv_fresh _ _ Hi p ltac:(set_solver)) as [Hs He].
  apply allocateProcessPorts_spec in Ha as (Hname & _); [|apply Hi|apply Hi|done|done].
  set (w1 := set_registry _ _ _) in *.
  assert (inv (alter_proc set_update_ch p w1) ({[(true, p)]} ∪ h)) as Hi2.
  { eapply inv_same; [|exact Hi1]. by apply same_alter. }
  assert (Name (proc (alter_proc set_update_ch p w1) p) = Name (proc w p)) as Hname'.
  { rewrite proc_alter. unfold w1. rewrite !proc_alloc by done.
    repeat case_decide; simpl; done. }
  rewrite <- Hname'. apply inv_publish; [set_solver| |done].
  rewrite Hname'. done.
Qed.

Lemma inv_init_replace w p h :
  (false, p) ∉ h → inv w ({[(false, p)]} ∪ h) →
  inv (initProcessReplace p w).2
    (match (initProcessReplace p w).1 with Ok _ => {[(true, p)]} | Err _ => ∅ end ∪ h).
Proof.
  intros Hp Hi. unfold initProcessReplace.
  destruct (processes w !! Name (proc w p)) as [q|] eqn:Hn; simpl.
  2:{ rewrite (left_id_L ∅ (∪)). by eapply inv_drop_fresh. }
  destruct (alloc_step p w) as [[e1|] w1] eqn:Ha; simpl.
  - rewrite (left_id_L ∅ (∪)). by eapply inv_alloc_failed.
  - apply (inv_same w1); [by apply same_alter|]. by eapply inv_alloc.
Qed.

(** The UUID tells registered processes apart. *)
Lemma registered_eq w h n p q :
  inv w h → processes w !! n = Some q → UUID (proc w q) = UUID (proc w p) → p = q.
Proof.
  intros Hi Hq Hu. pose proof (inv_map _ _ Hi n q Hq) as (Hlt & _).
  destruct (decide (p < length (heap w))%nat) as [Hp|Hp].
  - by apply (inv_uuid _ _ Hi).
  - exfalso. apply (inv_uuid_set _ _ Hi q Hlt). rewrite Hu. unfold proc.
    rewrite list_lookup_total_alt, (lookup_ge_None_2 (heap w)); [done|]. simpl in *. lia.
Qed.

Lemma inv_unregister p w h : inv w h → inv (unregister_section p w) h.
Proof.
  intros Hi. unfold unregister_section, is_registered.
  destruct (processes w !! Name (proc w p)) as [q|] eqn:Hn; [|done].
  case_bool_decide as Hu; [|done].
  pose proof (registered_eq _ _ _ _ _ Hi Hn Hu) as <-.
  pose proof (inv_unpublish _ _ _ _ Hn Hi) as [Hi' Hp].
  by apply inv_release.
Qed.

Lemma inv_replace w p old h :
  (true, p) ∉ h → inv w ({[(true, p)]} ∪ h) →
  inv (replace_section p old w).2
    (if (replace_section p old w).1 then h else {[(true, p)]} ∪ h).
Proof.
  intros Hp Hi. unfold replace_section.
  destruct (processes w !! Name (proc w p)) as [q|] eqn:Hn; simpl.
  2:{ by apply inv_publish. }
  case_bool_decide as Hu; simpl; [|done].
  pose proof (registered_eq _ _ _ _ _ Hi Hn Hu) as <-.
  pose proof (inv_unpublish _ _ _ _ Hn Hi) as [Hi1 Hold].
  pose proof (inv_release _ _ _ Hold Hi1) as Hi2.
  set (w2 := releaseProcessPorts old _) in Hi2.
  pose proof (inv_publish w2 p h Hp) as Hpub.
  assert (processes w2 = delete (Name (proc w p)) (processes w)) as Hm by done.
  rewrite Hm in Hpub. change (proc w2 p) with (proc w p) in Hpub.
  rewrite insert_delete_eq in Hpub. apply Hpub; [apply lookup_delete_eq|done].
Qed.

(** ** The programs *)

Abbreviation neutral_prog := (neutral (W := World B) (E := sysE) (Ans := answer) inv).
Abbreviation safe_prog := (safe (W := World B) (E := sysE) (Ans := answer) inv).

Lemma neutral_alter (f : Process → Process) p :
  (∀ q, Name (f q) = Name q ∧ UUID (f q) = UUID q ∧ PortCount (f q) = PortCount q ∧
        PortStart (f q) = PortStart q ∧ PortEnd (f q) = PortEnd q) →
  neutral_prog (update (alter_proc f p)).
Proof. intros Hf. apply neutral_update. intros w F. by apply inv_same, same_alter. Qed.

(** Actions on the commands, log files and channels. *)
Lemma neutral_other {X} (f : World B → X * World B) :
  (∀ w, processes (f w).2 = processes w ∧ heap (f w).2 = heap w ∧
        availablePorts (f w).2 = availablePorts w) →
  neutral_prog (atomic f).
Proof.
  intros Hf. apply neutral_atomic. intros w F.
  apply inv_same. destruct (Hf w) as (?&?&?). by apply same_other.
Qed.

Definition makes_process {X} (e : sysE X) : bool :=
  match e with ENewProcess _ => true | _ => false end.

Lemma neutral_sys {X} (e : sysE X) : makes_process e = false → neutral_prog (ask e).
Proof.
  intros Hne. apply neutral_ask. intros w x F Hi Hx. eapply inv_same; [|exact Hi].
  destruct e; try done; try (by apply same_other); simpl; case_match; by apply same_other.
Qed.

#[local] Hint Extern 1 (neutral _ (ask _)) => (apply neutral_sys; reflexivity) : neutral.
#[local] Hint Extern 1 (neutral _ (update (alter_proc _ _))) =>
  (apply neutral_alter; intros; repeat split) : neutral.
#[local] Hint Extern 2 (neutral _ (update _)) =>
  (apply neutral_other; intros; repeat split) : neutral.
#[local] Hint Extern 2 (neutral _ (atomic _)) =>
  (apply neutral_other; intros; repeat split) : neutral.

Lemma neutral_execute binary args : neutral_prog (ExecuteWithTimeout binary args).
Proof. unfold ExecuteWithTimeout. solve_neutral. Qed.
#[local] Hint Resolve neutral_execute : neutral.

Lemma neutral_wait_for_running n address c : neutral_prog (wait_for_running n address c).
Proof.
  induction n; cbn [wait_for_running]; unfold GRPCServiceReadinessProbe, Execute; solve_neutral.
Qed.

Lemma neutral_wait_stopped n p : neutral_prog (wait_stopped n p).
Proof. induction n; cbn [wait_stopped]; unfold is_stopped; solve_neutral. Qed.

Lemma neutral_wait_replacement n p : neutral_prog (wait_replacement n p).
Proof. induction n; cbn [wait_replacement]; unfold rpc_response; solve_neutral. Qed.

Lemma neutral_send p : neutral_prog (send p).
Proof. unfold send. solve_neutral. Qed.

Lemma neutral_close_log p : neutral_prog (close_log_of p).
Proof. unfold close_log_of. solve_neutral. Qed.
#[local] Hint Resolve neutral_wait_for_running neutral_wait_stopped neutral_wait_replacement
  neutral_send neutral_close_log : neutral.

Lemma neutral_stop p signal : neutral_prog (StopWithSignal p signal).
Proof.
  unfold StopWithSignal, stop_goroutine. apply neutral_bind; [solve_neutral|]. intros now.
  apply neutral_bind; [|solve_neutral].
  apply neutral_atomic. intros w F. simpl. apply inv_same, same_alter.
  intros q. unfold stop_section. by case_match.
Qed.
#[local] Hint Resolve neutral_stop : neutral.

Lemma neutral_start p : neutral_prog (Start p).
Proof.
  unfold Start, NewBinaryCommand, run_goroutine, cmd_run, probe_goroutine, WaitForRunning,
    Stop, is_stopped.
  solve_neutral.
  apply neutral_update. intros w F. apply inv_same.
  eapply same_trans; [|by apply same_alter]. by apply same_other.
Qed.

Lemma neutral_unregister p : neutral_prog (unregisterProcess p).
Proof.
  unfold unregisterProcess, unregister_goroutine, is_stopped. solve_neutral.
  apply neutral_update. intros w F. apply inv_unregister.
Qed.
#[local] Hint Resolve neutral_start neutral_unregister : neutral.

Lemma neutral_delete name uuid : neutral_prog (ProcessDelete name uuid).
Proof. unfold ProcessDelete, findProcess, Stop, rpc_response. solve_neutral. Qed.

Lemma neutral_get name : neutral_prog (ProcessGet name).
Proof. unfold ProcessGet, findProcess, rpc_response. solve_neutral. Qed.

Lemma neutral_list : neutral_prog ProcessList.
Proof.
  unfold ProcessList. apply neutral_bind; [solve_neutral|]. intros l.
  apply neutral_bind; [|solve_neutral]. generalize (∅ : gmap string ProcessResponse).
  induction l as [|[n p] l IH]; cbn [list_responses]; unfold rpc_response; solve_neutral.
Qed.

Lemma neutral_cleanup : neutral_prog cleanup.
Proof.
  unfold cleanup. apply neutral_bind; [apply neutral_list|]. intros [[ps|] [e|]]; try apply neutral_ret.
  apply neutral_bind.
  - generalize (map_to_list ps). intros l. induction l as [|[n r] l IH]; cbn [delete_all];
      [apply neutral_ret|].
    apply neutral_bind; [apply neutral_delete|done].
  - intros _. generalize WaitCount. intros k. induction k as [|k IH]; cbn [wait_no_process];
      [apply neutral_ret|].
    apply neutral_bind; [apply neutral_list|]. intros [[qs|] [e|]]; try apply neutral_ret.
    case_bool_decide; [apply neutral_ret|done].
Qed.

Lemma neutral_monitor : neutral_prog monitor_turn.
Proof. unfold monitor_turn, rpc_response. solve_neutral. Qed.

Lemma neutral_conditions : neutral_prog (checkMountPointStatusForEngine sha256_hex).
Proof.
  unfold checkMountPointStatusForEngine. apply neutral_bind; [solve_neutral|]. intros r.
  apply neutral_bind; [solve_neutral|]. intros l. apply neutral_bind.
  - generalize (match r with Ok mps => GetVolumeMountPointMap mps | Err _ => ∅ end).
    intros m. induction l as [|[n p] l IH]; cbn [getProcessesToUpdateConditions]; [solve_neutral|].
    apply neutral_bind; [|solve_neutral].
    apply neutral_atomic. intros w F. unfold condition_section.
    repeat case_match; try done. by apply inv_same, same_alter.
  - intros ps. induction ps; cbn [send_all]; solve_neutral.
Qed.

Lemma neutral_check : neutral_prog (check_turn sha256_hex).
Proof.
  unfold check_turn. apply neutral_bind; [solve_neutral|]. intros [|]; [|apply neutral_ret].
  apply neutral_conditions.
Qed.

(** A new process is its maker's, without ports. *)
Lemma safe_new_process {A} (Q : A → gset token → Prop) mk (k : ptr * string → _) :
  (∀ u, Name (mk u) = Name (mk "") ∧ UUID (mk u) = u ∧ PortCount (mk u) < 2^31 ∧
        PortStart (mk u) = 0 ∧ PortEnd (mk u) = 0) →
  (∀ p u, safe_prog Q {[(false, p)]} (k (p, u))) →
  safe_prog Q ∅ (ask (ENewProcess mk) ≫= k).
Proof.
  intros Hmk Hk w [p u] F _ Hi (Hp & Hu & Hfresh). simpl in *. subst p.
  destruct (Hmk u) as (_ & Huu & Hc & Hs & He).
  exists {[(false, length (heap w))]}.
  rewrite (left_id_L ∅ (∪)) in Hi. set (w' := set_heap _ w).
  assert (∀ q, (q < length (heap w))%nat → proc w' q = proc w q) as Hold.
  { intros q Hq. unfold proc. simpl. by rewrite !list_lookup_total_alt, lookup_app_l. }
  assert (proc w' (length (heap w)) = mk u) as Hnew.
  { unfold proc. simpl. rewrite list_lookup_total_alt.
    by rewrite lookup_app_r, Nat.sub_diag by lia. }
  assert (length (heap w') = S (length (heap w))) as Hlen.
  { simpl. rewrite length_app. simpl. lia. }
  assert (∀ b, (b, length (heap w)) ∉ F) as HF.
  { intros b Hb. apply (inv_held _ _ Hi) in Hb. lia. }
  assert (∀ q, owner w' ({[(false, length (heap w))]} ∪ F) q ↔ owner w F q) as Ho.
  { intros q. unfold owner. simpl. set_solver. }
  assert (∀ q, owner w F q → (q < length (heap w))%nat) as Hol.
  { intros q [Hq|[n Hq]]; [by apply (inv_held _ _ Hi) in Hq|by apply (inv_map _ _ Hi) in Hq as [? _]]. }
  assert (∀ q, (q < length (heap w))%nat → UUID (proc w q) ≠ u) as Hfr.
  { intros q Hq. rewrite Forall_lookup in Hfresh. unfold proc. apply (Hfresh q).
    by apply list_lookup_lookup_total_lt. }
  split; [set_solver|]. split; [|apply Hk].
  destruct Hi. constructor; rewrite ?Hlen; try done.
  - intros b q [[= -> ->]%elem_of_singleton|Hq]%elem_of_union; [lia|].
    apply inv_held0 in Hq. lia.
  - intros n q Hq. destruct (inv_map0 n q Hq) as (Hlt & Hn & Hb).
    rewrite Hold by done. split_and!; [lia|done|]. intros b. pose proof (Hb b).
    assert (q ≠ length (heap w)) by lia. set_solver.
  - intros q [Hq|Hq]%elem_of_union; [set_solver|]. apply inv_excl0 in Hq as Hq'.
    apply inv_held0 in Hq. assert (q ≠ length (heap w)) by lia. set_solver.
  - intros q [[= ->]%elem_of_singleton|Hq]%elem_of_union; [by rewrite Hnew|].
    rewrite Hold; [auto|by eapply inv_held0].
  - intros p q Hp Hq. destruct (decide (p = length (heap w))) as [->|];
      destruct (decide (q = length (heap w))) as [->|]; rewrite ?Hnew, ?Hold by lia;
      rewrite ?Huu; intros Heq; [done| | |].
    + exfalso. symmetry in Heq. apply Hfr in Heq; [done|lia].
    + exfalso. apply Hfr in Heq; [done|lia].
    + apply inv_uuid0; [lia..|done].
  - intros p Hp. destruct (decide (p = length (heap w))) as [->|]; rewrite ?Hnew, ?Hold by lia;
      [congruence|]. apply inv_uuid_set0. lia.
  - intros p. destruct (decide (p < length (heap w)))%nat; [by rewrite Hold|].
    destruct (decide (p = length (heap w))) as [->|]; [by rewrite Hnew|].
    unfold proc. rewrite list_lookup_total_alt, lookup_ge_None_2; [done|]. simpl in *. lia.
  - intros p Hp%Ho. rewrite Hold by auto. auto.
  - intros p q Hp%Ho Hq%Ho. rewrite !Hold by auto. auto.
  - intros p Hp%Ho. rewrite Hold by auto. by apply inv_sep0.
  - intros x. rewrite inv_cover0. simpl. setoid_rewrite Ho. split; intros [?|(q & Hq & ?)];
      [by left| |by left|]; right; exists q; [rewrite Hold by auto|rewrite Hold in * by auto]; done.
Qed.

(** An action that consumes or changes the token held. *)
Lemma safe_atomic_bind {A X : Type} (Q : A → gset token → Prop) (f : World B → (X * World B)%type)
    (k : X → prog (World B) sysE A) (t : token) :
  (∀ w F, t ∉ F → inv w ({[t]} ∪ F) →
     ∃ h', h' ## F ∧ inv (f w).2 (h' ∪ F) ∧ safe_prog Q h' (k (f w).1)) →
  safe_prog Q {[t]} (atomic f ≫= k).
Proof. intros Hf w F Hd Hi. apply Hf; set_solver. Qed.

Abbreviation no_token := (λ _ h, h = (∅ : gset token)) (only parsing).

Lemma neutral_safe {A} (p : prog (World B) sysE A) : neutral_prog p → safe_prog no_token ∅ p.
Proof. intros Hp. by apply neutral_safe_any. Qed.

Lemma safe_create spec : in_int32 (SPortCount spec) → safe_prog no_token ∅ (ProcessCreate spec).
Proof.
  intros [_ Hc]. unfold ProcessCreate. case_match; [apply neutral_safe, neutral_ret|].
  apply safe_neutral_bind; [solve_neutral|]. intros [lg|e]; [|apply neutral_safe, neutral_ret].
  apply safe_new_process; [done|]. intros p u. apply safe_atomic_bind.
  intros w F Hp Hi. cbn [fst]. destruct (registerProcess p w) as [e w'] eqn:He. cbn [fst snd].
  eapply inv_register in He; [|done|done].
  exists ∅. split_and!; [set_solver|by rewrite (left_id_L ∅ (∪))|].
  apply neutral_safe. unfold rpc_response. solve_neutral.
Qed.

(** The replacement's ports go back when it is cleaned up. *)
Lemma safe_release {A} (Q : A → gset token → Prop) p k :
  safe_prog Q ∅ (k tt) →
  safe_prog Q {[(true, p)]} (update (releaseProcessPorts p) ≫= k).
Proof.
  intros Hk. apply safe_atomic_bind. intros w F Hp Hi. exists ∅.
  split_and!; [set_solver| |done]. rewrite (left_id_L ∅ (∪)). by apply inv_release.
Qed.

Lemma safe_cleanup {A} (Q : A → gset token → Prop) p (k : unit → prog (World B) sysE A) :
  safe_prog Q ∅ (k tt) →
  safe_prog Q {[(true, p)]} (cleanupReplacementProcess p ≫= k).
Proof.
  intros Hk. apply safe_bind. unfold cleanupReplacementProcess.
  apply safe_neutral_bind; [unfold Stop; solve_neutral|]. intros _.
  intros w F Hd Hi. exists ∅. split_and!; [set_solver| |done].
  rewrite (left_id_L ∅ (∪)). apply inv_release; [set_solver|done].
Qed.

Lemma safe_replace_with p old name : safe_prog no_token {[(true, p)]} (replace_with p old name).
Proof.
  unfold replace_with. apply safe_neutral_bind; [solve_neutral|].
  intros [e|]; [by apply safe_cleanup|].
  apply safe_neutral_bind; [solve_neutral|]. intros alive.
  case_match; [by apply safe_cleanup|].
  apply safe_neutral_bind; [solve_neutral|]. intros _.
  apply safe_atomic_bind. intros w F Hp Hi.
  pose proof (inv_replace w p old F Hp Hi) as Hi'.
  destruct (replace_section p old w) as [[] w']; cbn [fst snd] in Hi' |- *.
  - exists ∅. split_and!; [set_solver|by rewrite (left_id_L ∅ (∪))|].
    apply neutral_safe. unfold rpc_response. solve_neutral.
  - exists {[(true, p)]}. split_and!; [set_solver|exact Hi'|]. by apply safe_cleanup.
Qed.

Lemma safe_replace spec sig :
  in_int32 (SPortCount spec) → safe_prog no_token ∅ (ProcessReplace spec sig).
Proof.
  intros [_ Hc]. unfold ProcessReplace.
  case_match; [apply neutral_safe, neutral_ret|].
  case_match; [apply neutral_safe, neutral_ret|].
  apply safe_neutral_bind; [solve_neutral|]. intros [lg|e]; [|apply neutral_safe, neutral_ret].
  apply safe_new_process; [done|]. intros p u. apply safe_atomic_bind.
  intros w F Hp Hi. cbn [fst]. pose proof (inv_init_replace w p F Hp Hi) as Hi'.
  destruct (initProcessReplace p w) as [[old|e] w']; cbn [fst snd] in Hi' |- *.
  - exists {[(true, p)]}. split_and!; [|exact Hi'|].
    { intros t ->%elem_of_singleton Ht. apply (inv_excl _ _ Hi p); set_solver. }
    apply safe_neutral_bind; [solve_neutral|]. intros b.
    case_match; [|by apply safe_replace_with].
    apply safe_neutral_bind; [solve_neutral|]. intros _. apply safe_release.
    apply neutral_safe. unfold rpc_response. solve_neutral.
  - exists ∅. split_and!; [set_solver|exact Hi'|]. apply neutral_safe. solve_neutral.
Qed.

Lemma safe_client p : client p → safe_prog no_token ∅ p.
Proof.
  intros [spec Hs|name uuid|spec sig Hs|name| | | |].
  - apply safe_bind. eapply safe_weaken; [|by apply safe_create].
    by intros a h ->.
  - apply neutral_safe, neutral_bind; [apply neutral_delete|intros; apply neutral_ret].
  - apply safe_bind. eapply safe_weaken; [|by apply safe_replace].
    by intros a h ->.
  - apply neutral_safe, neutral_bind; [apply neutral_get|intros; apply neutral_ret].
  - apply neutral_safe, neutral_bind; [apply neutral_list|intros; apply neutral_ret].
  - apply neutral_safe, neutral_cleanup.
  - apply neutral_safe. solve_neutral.
  - apply neutral_safe. solve_neutral.
Qed.

Lemma neutral_daemons : Forall (λ d, neutral_prog (turn d)) (daemons (manager sha256_hex)).
Proof.
  apply Forall_cons_2; [|apply Forall_cons_2; [|apply Forall_cons_2; [|apply Forall_nil_2]]].
  - apply neutral_check.
  - apply neutral_monitor.
  - change (neutral_prog (ask ERecvBroadcast ≫= λ _, mret tt)). solve_neutral.
Qed.

(** The manager just made: no process, all ports free. *)
Lemma inv_init b :
  alloc_wf b → all_ports b = all → free_ports b = all → inv (NewManager b) ∅.
Proof.
  intros Hwf Hall Hfree. assert (∀ p, ¬ owner (NewManager b) ∅ p) as Hno.
  { intros p [?|[n ?]]; [set_solver|done]. }
  constructor; try done; simpl; try set_solver by lia.
Qed.

Lemma reachable_inv b c :
  alloc_wf b → all_ports b = all → free_ports b = all →
  reachable (manager sha256_hex) (NewManager b) c →
  config_ok (Ans := answer) inv (manager sha256_hex) c.
Proof.
  intros. eapply reachable_ok; [by apply inv_init|apply neutral_daemons|apply safe_client|done].
Qed.
End ports.

(** ** Properties *)

(** A process owns ports: it is registered, or it is the replacement of a
    [ProcessReplace] in progress (one of [pending]). *)
Definition owns {B} (pending : list nat) (w : World B) (p : nat) : Prop :=
  p ∈ pending ∨ ∃ name, processes w !! name = Some p.

(** C1: conservation of ports. Whatever requests arrive and however the
    goroutines interleave, every port of the range is free in the bitmap or
    belongs to one registered or pending process, never both and never to two;
    and when every goroutine but the manager's three loops has ended only
    registered processes own ports, so that no port is lost. *)
Theorem port_conservation `{PortAllocatorLaws B} (sha256_hex : string → string) (b : B) ts w :
  alloc_wf b → free_ports b = all_ports b →
  reachable (manager sha256_hex) (NewManager b) (ts, w) →
  ∃ pending,
    (∀ x, x ∈ all_ports b ↔
       x ∈ free_ports (availablePorts w) ∨ ∃ p, owns pending w p ∧ x ∈ port_range (proc w p)) ∧
    (∀ p, owns pending w p → port_range (proc w p) ## free_ports (availablePorts w)) ∧
    (∀ p q, owns pending w p → owns pending w q → p ≠ q →
       port_range (proc w p) ## port_range (proc w q)) ∧
    (Forall (λ t, t = Ret tt) (drop 3 ts) → pending = []).
Proof.
  intros Hwf Hfree Hr.
  pose proof (reachable_inv sha256_hex (all_ports b) b _ Hwf eq_refl Hfree Hr) as Hok.
  destruct Hok as (hs & [Hsafe Hd] & _ & Hi). simpl in *.
  set (pending := omap (λ t : bool * nat, if t.1 then Some t.2 else None) (elements (⋃ hs))).
  assert (∀ p, owns pending w p ↔ owner w (⋃ hs) p) as Ho.
  { intros p. unfold owns, owner, pending. rewrite list_elem_of_omap.
    setoid_rewrite elem_of_elements. split; [|naive_solver].
    intros [([[] q] & ? & ?)|?]; simplify_eq/=; auto. }
  exists pending. setoid_rewrite Ho. split_and!; [apply Hi..|].
  intros Hend. unfold pending. by rewrite (ended_no_token _ _ _ _ Hsafe Hd Hend).
Qed.
