(* ===== verification/ManagerSpec.v ===== *)
(** * The process manager as a transition system

    An abstract specification of the manager's shared state: the transitions
    that one action of any goroutine may make. Every execution of the handlers
    and goroutines of [Manager] is an execution of this transition system
    ([manager_steps]), so what holds of its transitions holds of the program:
    what identifies a process never changes, a process never goes back to the
    starting state, a deletion is never forgotten. *)
From S2P Require Import Prelude GoStrings Bitmap Sched Process Manager ManagerPorts.

#[local] Open Scope Z_scope.

Section spec.
Context {B : Type} `{PortAllocator B}.

(** What becomes of the channels: sends are counted, the end of the context is
    not undone, and the monitor ends only when the context has ended. *)
Definition chans_grow (w w' : World B) : Prop :=
  (sent w ≤ sent w')%nat ∧ (broadcast w ≤ broadcast w')%nat ∧
  (ctx_done (channels w) = true → ctx_done (channels w') = true) ∧
  (monitor_done (channels w') = true →
     monitor_done (channels w) = true ∨ ctx_done (channels w') = true) ∧
  (check_done (channels w') = true →
     check_done (channels w) = true ∨ ctx_done (channels w') = true).

Inductive transition : World B → World B → Prop :=
  (** commands, log files, channels and the clock *)
  | t_other w w' :
      processes w' = processes w → heap w' = heap w →
      availablePorts w' = availablePorts w → chans_grow w w' → transition w w'
  (** a request makes a process, with a UUID no process has *)
  | t_new w spec u l :
      Forall (λ q, UUID q ≠ u) (heap w) → u ≠ "" →
      transition w (set_heap (λ h, h ++ [new_process spec u l]) w)
  | t_error w p msg : transition w (alter_proc (set_error msg) p w)
  | t_exit w p : transition w (alter_proc (set_state StateStopped) p w)
  | t_run w p : transition w (alter_proc (set_state StateRunning) p w)
  | t_stop w p now : transition w (alter_proc (λ q, (stop_section now q).2) p w)
  | t_start w p c f :
      transition w (alter_proc (set_cmd c) p (alter_cmd f c w))
  | t_condition w p k b : transition w (alter_proc (set_condition k b) p w)
  | t_register w p : transition w (registerProcess p w).2
  | t_init_replace w p : transition w (initProcessReplace p w).2
  | t_replace w p old : transition w (replace_section p old w).2
  | t_release w p : transition w (releaseProcessPorts p w)
  | t_unregister w p : transition w (unregister_section p w).

Abbreviation obeys := (acts (W := World B) (E := sysE) (Ans := answer) transition).

Lemma grows_same w w' : channels w' = channels w → chans_grow w w'.
Proof. unfold chans_grow, sent, broadcast. intros ->. naive_solver. Qed.

Lemma grows_trans w1 w2 w3 : chans_grow w1 w2 → chans_grow w2 w3 → chans_grow w1 w3.
Proof.
  intros (?&?&Hc&Hm&Hk) (?&?&Hc'&Hm'&Hk'). split_and!; [lia|lia|auto|..].
  - intros [?|?]%Hm'; [|by right]. destruct Hm; auto.
  - intros [?|?]%Hk'; [|by right]. destruct Hk; auto.
Qed.

(** Actions on the commands, the log files and the clock. *)
Lemma t_same w w' :
  processes w' = processes w → heap w' = heap w →
  availablePorts w' = availablePorts w → channels w' = channels w → transition w w'.
Proof. intros. apply t_other; [done..|by apply grows_same]. Qed.

Lemma t_idle w : transition w w.
Proof. by apply t_same. Qed.

(** An answer counts a send, or moves one from those offered to those received. *)
Lemma grows_ask {X} (e : sysE X) w x : env_ok e w x → chans_grow w (env_upd e x w).
Proof.
  destruct e; simpl; intros Hx; try (by apply grows_same); try (case_match; by apply grows_same);
    unfold chans_grow, sent, broadcast; simpl.
  - rewrite length_app. simpl. split_and!; [lia|lia|auto..].
  - rewrite length_app. simpl. split_and!; [lia|lia|auto..].
  - destruct x; simpl; [|split_and!; auto]. destruct (updates (channels w)); [done|].
    simpl. split_and!; [lia|lia|auto..].
  - destruct x; simpl; split_and!; auto.
  - rewrite length_app. destruct (broadcasts (channels w)); [done|]. simpl.
    split_and!; [lia|lia|auto..].
Qed.

Lemma obeys_ask {X} (e : sysE X) : makes_process e = false → obeys (ask e).
Proof.
  intros Hne. apply acts_ask. intros w x Hx. apply (grows_ask e) in Hx.
  destruct e; try done; simpl in *; try (by apply t_other); case_match; by apply t_other.
Qed.

Lemma obeys_read {X} (f : World B → X) : obeys (read f).
Proof. apply acts_read, t_idle. Qed.

Lemma obeys_new spec l : obeys (ask (ENewProcess (λ u, new_process spec u l))).
Proof. apply acts_ask. intros w [p u] (? & ? & ?). by apply t_new. Qed.

Create HintDb obeys discriminated.
#[local] Hint Constructors transition : obeys.
#[local] Hint Resolve obeys_new t_idle : obeys.
#[local] Hint Extern 1 (acts _ (ask _)) => (apply obeys_ask; reflexivity) : obeys.
#[local] Hint Extern 2 (acts _ (update _)) =>
  (apply acts_atomic; intros; cbn [fst snd]; first [solve [eauto 2 with obeys] | by apply t_same]) : obeys.
#[local] Hint Extern 2 (acts _ (atomic _)) =>
  (apply acts_atomic; intros; cbn [fst snd]; first [solve [eauto 2 with obeys] | by apply t_same]) : obeys.

Ltac solve_obeys :=
  repeat first
    [ progress intros
    | solve [eauto 2 with obeys]
    | apply acts_ret
    | apply obeys_read
    | apply acts_bind
    | match goal with |- acts _ (go _) => apply acts_go end
    | progress case_match ].

Lemma obeys_wait_for_running n address c : obeys (wait_for_running n address c).
Proof.
  induction n; cbn [wait_for_running];
    unfold GRPCServiceReadinessProbe, Execute, ExecuteWithTimeout; solve_obeys.
Qed.

Lemma obeys_wait_stopped n p : obeys (wait_stopped n p).
Proof. induction n; cbn [wait_stopped]; unfold is_stopped; solve_obeys. Qed.

Lemma obeys_wait_replacement n p : obeys (wait_replacement n p).
Proof. induction n; cbn [wait_replacement]; unfold rpc_response; solve_obeys. Qed.
#[local] Hint Resolve obeys_wait_for_running obeys_wait_stopped obeys_wait_replacement : obeys.

Lemma obeys_stop p signal : obeys (StopWithSignal p signal).
Proof. unfold StopWithSignal, stop_goroutine, send, close_log_of. solve_obeys. Qed.
#[local] Hint Resolve obeys_stop : obeys.

Lemma obeys_start p : obeys (Start p).
Proof.
  unfold Start, NewBinaryCommand, run_goroutine, cmd_run, probe_goroutine, WaitForRunning,
    Stop, is_stopped, send. solve_obeys.
Qed.

Lemma obeys_unregister p : obeys (unregisterProcess p).
Proof. unfold unregisterProcess, unregister_goroutine, is_stopped, send. solve_obeys. Qed.
#[local] Hint Resolve obeys_start obeys_unregister : obeys.

Lemma obeys_list l m : obeys (list_responses l m).
Proof.
  revert m. induction l as [|[n p] l IH]; intros m; cbn [list_responses];
    unfold rpc_response; solve_obeys.
Qed.

Lemma obeys_conditions sha mounts l : obeys (getProcessesToUpdateConditions sha mounts l).
Proof.
  induction l as [|[n p] l IH]; cbn [getProcessesToUpdateConditions]; solve_obeys.
  apply acts_atomic. intros w. unfold condition_section.
  repeat case_match; eauto with obeys.
Qed.

Lemma obeys_send_all ps : obeys (send_all ps).
Proof. induction ps; cbn [send_all]; unfold send; solve_obeys. Qed.
#[local] Hint Resolve obeys_list obeys_conditions obeys_send_all : obeys.

Lemma obeys_delete name uuid : obeys (ProcessDelete name uuid).
Proof. unfold ProcessDelete, findProcess, Stop, rpc_response. solve_obeys. Qed.
#[local] Hint Resolve obeys_delete : obeys.

Lemma obeys_delete_all l : obeys (delete_all l).
Proof. induction l as [|[n r] l IH]; cbn [delete_all]; solve_obeys. Qed.

Lemma obeys_wait_no_process n : obeys (wait_no_process n).
Proof. induction n; cbn [wait_no_process]; unfold ProcessList; solve_obeys. Qed.
#[local] Hint Resolve obeys_delete_all obeys_wait_no_process : obeys.

Lemma obeys_create spec : obeys (ProcessCreate spec).
Proof. unfold ProcessCreate, rpc_response, send. solve_obeys. Qed.

Lemma obeys_replace spec sig : obeys (ProcessReplace spec sig).
Proof.
  unfold ProcessReplace, replace_with, cleanupReplacementProcess, Stop, rpc_response, send.
  solve_obeys.
Qed.

Lemma obeys_get name : obeys (ProcessGet name).
Proof. unfold ProcessGet, findProcess, rpc_response. solve_obeys. Qed.

Lemma obeys_process_list : obeys ProcessList.
Proof. unfold ProcessList. solve_obeys. Qed.
#[local] Hint Resolve obeys_create obeys_replace obeys_get obeys_process_list : obeys.

Lemma obeys_client p : client p → obeys p.
Proof.
  intros [spec _|name uuid|spec sig _|name| | | |]; unfold cleanup; solve_obeys.
  - apply acts_atomic. intros w. by apply t_other; [..|split_and!; auto].
  - apply acts_atomic. intros w. apply t_other; [done..|]. split_and!; simpl; auto.
Qed.

Lemma obeys_manager sha : system_acts transition (manager sha).
Proof.
  split; [|exact obeys_client].
  apply Forall_cons_2; [|apply Forall_cons_2; [|apply Forall_cons_2; [|apply Forall_nil_2]]].
  - change (obeys (check_turn sha)). unfold check_turn, checkMountPointStatusForEngine. solve_obeys.
  - change (obeys monitor_turn). unfold monitor_turn, rpc_response. solve_obeys.
  - change (obeys (ask ERecvBroadcast ≫= λ _, mret tt)). solve_obeys.
Qed.

(** Later configurations are reached by transitions. *)
Lemma manager_steps sha b c c' :
  reachable (manager sha) (NewManager b) c → rtc (step (manager sha)) c c' →
  rtc transition (NewManager b) c.2 ∧ rtc transition c.2 c'.2.
Proof.
  intros Hr Hs.
  apply steps_acts with (R := transition) in Hr as [Hr1 Hr2];
    [|apply t_idle|apply obeys_manager|apply started_acts, (obeys_manager sha)].
  apply steps_acts with (R := transition) in Hs as [Hs1 _];
    [done|apply t_idle|apply obeys_manager|done].
Qed.
End spec.

(** ** The life of a process *)

(** What never changes of a process, and what only moves one way: the state
    never returns to starting, a deletion once requested stays requested, the
    update channel once set stays set. *)
Record evolves (q q' : Process) : Prop := {
  ev_id : Name q' = Name q ∧ Binary q' = Binary q ∧ PortCount q' = PortCount q ∧
          PortArgs q' = PortArgs q ∧ UUID q' = UUID q ∧ logger q' = logger q;
  ev_started : PState q' = StateStarting → PState q = StateStarting;
  ev_deletion : is_Some (DeletionTimestamp q) → is_Some (DeletionTimestamp q');
  ev_chan : UpdateCh q = true → UpdateCh q' = true;
}.

#[export] Instance evolves_preorder : PreOrder evolves.
Proof.
  split; [by intros q|]. intros q1 q2 q3 [(?&?&?&?&?&?) ? ? ?] [(?&?&?&?&?&?) ? ? ?].
  split; [split_and!; congruence|auto..].
Qed.

Section life.
Context {B : Type} `{PortAllocator B}.

(** All processes of [w] are there in [w'], evolved. *)
Definition heap_evolves (w w' : World B) : Prop :=
  (length (heap w) ≤ length (heap w'))%nat ∧
  ∀ p, (p < length (heap w))%nat → evolves (proc w p) (proc w' p).

Lemma heap_evolves_refl w w' : heap w' = heap w → heap_evolves w w'.
Proof. unfold heap_evolves, proc. intros ->. split; [done|]. by intros. Qed.

Lemma heap_evolves_trans w1 w2 w3 :
  heap_evolves w1 w2 → heap_evolves w2 w3 → heap_evolves w1 w3.
Proof.
  intros [Hl1 H1] [Hl2 H2]. split; [lia|]. intros p Hp.
  etrans; [by apply H1|]. apply H2. lia.
Qed.

#[export] Instance heap_evolves_preorder : PreOrder heap_evolves.
Proof. split; [by intros w; apply heap_evolves_refl|exact heap_evolves_trans]. Qed.

Lemma heap_evolves_alter f p w :
  evolves (proc w p) (f (proc w p)) → heap_evolves w (alter_proc f p w).
Proof.
  intros Hf. split; [simpl; by rewrite length_alter|]. intros q Hq. rewrite proc_alter.
  case_decide as Hd; [destruct Hd as [<- _]; apply Hf|done].
Qed.

Lemma evolves_ports q s e args : evolves q (with_ports s e args q).
Proof. by split. Qed.

Lemma evolves_fit q i l : evolves q (fit_port_args q i l).2.
Proof.
  revert q i. induction l as [|a l IH]; intros q i; simpl; [done|].
  case_match; [done|]. etrans; [|apply IH]. apply evolves_ports.
Qed.

Lemma fit_state q i l :
  PState (fit_port_args q i l).2 = PState q ∧
  DeletionTimestamp (fit_port_args q i l).2 = DeletionTimestamp q.
Proof.
  revert q i. induction l as [|a l IH]; intros q i; simpl; [done|].
  case_match; [done|]. edestruct IH as [-> ->]. done.
Qed.

Lemma evolves_alloc q b : evolves q (allocateProcessPorts q b).1.2.
Proof.
  unfold allocateProcessPorts. case_match; [done|].
  destruct (allocatePorts _ _) as [[[s e]|x] b']; [|done].
  pose proof (evolves_fit (with_ports s e (Args q) q) 0 (PortArgs q)) as Hf.
  destruct (fit_port_args _ _ _) as [e' q']. simpl in *.
  etrans; [apply evolves_ports|exact Hf].
Qed.

Lemma heap_evolves_alloc p w : heap_evolves w (alloc_step p w).2.
Proof.
  unfold alloc_step. pose proof (evolves_alloc (proc w p) (availablePorts w)) as Ha.
  destruct (allocateProcessPorts _ _) as [[e q] b]. simpl in *.
  exact (heap_evolves_alter (λ _, q) p w Ha).
Qed.

Lemma stop_section_evolves now q : evolves q (stop_section now q).2.
Proof.
  unfold stop_section. simpl. case_bool_decide; simpl; by split.
Qed.

Lemma transition_evolves w w' : transition w w' → heap_evolves w w'.
Proof.
  assert (∀ p w, heap_evolves w (alter_proc set_update_ch p w)) as Hupd.
  { intros. apply heap_evolves_alter. by split. }
  intros [].
  - by apply heap_evolves_refl.
  - split; [simpl; rewrite length_app; simpl; lia|]. intros p Hp. unfold proc. simpl.
    by rewrite !list_lookup_total_alt, lookup_app_l.
  - apply heap_evolves_alter. by split.
  - apply heap_evolves_alter. by split.
  - apply heap_evolves_alter. by split.
  - apply heap_evolves_alter, stop_section_evolves.
  - apply (heap_evolves_trans _ (alter_cmd f c w0)); [by apply heap_evolves_refl|].
    apply heap_evolves_alter. by split.
  - apply heap_evolves_alter. by split.
  - unfold registerProcess. case_match; [done|].
    pose proof (heap_evolves_alloc p w0) as Ha. destruct (alloc_step p w0) as [[e|] w1]; [done|].
    eapply heap_evolves_trans; [exact Ha|]. apply Hupd.
  - unfold initProcessReplace. case_match; [|done].
    pose proof (heap_evolves_alloc p w0) as Ha. destruct (alloc_step p w0) as [[e|] w1]; [done|].
    eapply heap_evolves_trans; [exact Ha|]. apply Hupd.
  - unfold replace_section. repeat case_match; by apply heap_evolves_refl.
  - by apply heap_evolves_refl.
  - unfold unregister_section. case_match; by apply heap_evolves_refl.
Qed.

Lemma transitions_evolve w w' : rtc transition w w' → heap_evolves w w'.
Proof.
  induction 1; [by apply heap_evolves_refl|].
  eapply heap_evolves_trans; [by apply transition_evolves|done].
Qed.

(** A process that is being stopped has a deletion time. *)
Definition dated (q : Process) : Prop :=
  PState q = StateStopping → is_Some (DeletionTimestamp q).

Lemma transition_dated w w' :
  transition w w' → (∀ p, dated (proc w p)) → ∀ p, dated (proc w' p).
Proof.
  assert (∀ f p (w : World B), (dated (proc w p) → dated (f (proc w p))) →
    (∀ r, dated (proc w r)) → ∀ r, dated (proc (alter_proc f p w) r)) as Halt.
  { intros f p w1 Hf Hw r. rewrite proc_alter.
    case_decide as Hd; [destruct Hd as [<- _]; auto|auto]. }
  assert (∀ p (w : World B), (∀ r, dated (proc w r)) → ∀ r, dated (proc (alloc_step p w).2 r)) as Halloc.
  { intros p w1 Hw. unfold alloc_step.
    destruct (allocateProcessPorts _ _) as [[e q] b] eqn:Ha. apply Halt; [|done].
    intros Hp. revert Ha. unfold allocateProcessPorts. case_match; [by intros; simplify_eq|].
    destruct (allocatePorts _ _) as [[[s x]|x] b']; [|by intros; simplify_eq].
    destruct (fit_port_args _ _ _) as [e1 q1] eqn:Hf. intros; simplify_eq.
    pose proof (fit_state (with_ports s x (Args (proc w1 p)) (proc w1 p)) 0
      (PortArgs (proc w1 p))) as [Hs1 Hs2].
    rewrite Hf in Hs1, Hs2. unfold dated in *. simpl in *. by rewrite Hs1, Hs2. }
  intros []; simpl; try (by apply Halt).
  - intros Hw p. unfold proc. rewrite H1. apply Hw.
  - intros Hw p. unfold proc. simpl. rewrite list_lookup_total_alt.
    destruct (decide (p < length (heap w0))%nat) as [Hlt|Hge].
    { rewrite lookup_app_l by done. specialize (Hw p). unfold proc in Hw.
      by rewrite list_lookup_total_alt in Hw. }
    rewrite lookup_app_r by lia. by destruct (p - length (heap w0))%nat.
  - apply Halt. unfold stop_section, dated. simpl. case_bool_decide; simpl; eauto.
  - apply (Halt (set_cmd c) p (alter_cmd f c w0)). done.
  - unfold registerProcess. case_match; [done|].
    intros Hw. pose proof (Halloc p w0 Hw) as Ha. destruct (alloc_step p w0) as [[e|] w1]; [done|].
    by apply Halt.
  - unfold initProcessReplace. case_match; [|done].
    intros Hw. pose proof (Halloc p w0 Hw) as Ha. destruct (alloc_step p w0) as [[e|] w1]; [done|].
    by apply Halt.
  - unfold replace_section. by repeat case_match.
  - done.
  - unfold unregister_section. by case_match.
Qed.

Lemma transitions_dated w w' :
  rtc transition w w' → (∀ p, dated (proc w p)) → ∀ p, dated (proc w' p).
Proof. induction 1; [done|]. intros. apply IHrtc. by eapply transition_dated. Qed.
End life.
