(* ===== verification/ManagerProps.v ===== *)
(** * Properties of the process manager

    Theorems about the manager that rest on [ManagerPorts] (ownership of
    ports), [ManagerSpec] (transitions) and on concrete executions: the
    functional behaviour of its critical sections, the invariants of every
    reachable state, and the executions that show where the code does not do
    what it means to. *)
From S2P Require Import Prelude GoStrings Bitmap Sched Process Manager ManagerPorts ManagerSpec.

#[local] Open Scope Z_scope.

(** ** Executions used below *)

Definition no_sha (s : string) : string := s.

Abbreviation schedule := (list (item (World Bitmap) sysE answer)).
Abbreviation conf B := (@config (World B) sysE) (only parsing).
Abbreviation run0 := (NewManager bitmap_100_105).

(** A replica process with two ports, and one that asks for none. *)
Definition replica_spec : ProcessSpec :=
  {| SName := "vol-r-0"; SBinary := "/longhorn"; SArgs := ["replica"]; SPortCount := 2;
     SPortArgs := ["--listen,0.0.0.0:"] |}.
Definition sleep_spec : ProcessSpec :=
  {| SName := "sleep"; SBinary := "/bin/sleep"; SArgs := ["1"]; SPortCount := 0;
     SPortArgs := [] |}.

(** The monitor, which is goroutine [1], receives an update and broadcasts it;
    [stream], which is goroutine [2], receives it. *)
Definition received : schedule :=
  (Run 1 <$> [AUnit; AUnit; AUnit; AUnit]) ++ [Run 2 AUnit; Again 2; Run 1 AUnit; Again 1].

(** The actions of [ProcessCreate] as goroutine [i], for a process whose
    command is found. The goroutines that run the command and probe the
    process come next in the list of goroutines. *)
Definition create_schedule (i : nat) (spec : ProcessSpec) (uuid : string) : schedule :=
  [Arrive (ProcessCreate spec;; mret tt)] ++
  (Run i <$> [AOk; AStr uuid; AUnit; AUnit]) ++ received ++
  (Run i <$> [AUnit; AUnit; AStr (SBinary spec); AStr (SBinary spec);
              AUnit; AUnit; AUnit; AUnit; AUnit]).

(** The state after creating the replica: the first two ports are its own. *)
Lemma create_reachable :
  ∃ ts w, reachable (manager no_sha) run0 (ts, w) ∧
    processes w = {["vol-r-0" := 0%nat]} ∧ length (heap w) = 1%nat ∧
    PortStart (proc w 0) = 100 ∧ PortEnd (proc w 0) = 101 ∧
    Args (proc w 0) = ["replica"; "--listen"; "0.0.0.0:100"].
Proof.
  destruct (exec_witness (manager no_sha) (create_schedule 3 replica_spec "u0") run0
    (λ c, bool_decide (processes c.2 = {["vol-r-0" := 0%nat]} ∧ length (heap c.2) = 1%nat ∧
      PortStart (proc c.2 0) = 100 ∧ PortEnd (proc c.2 0) = 101 ∧
      Args (proc c.2 0) = ["replica"; "--listen"; "0.0.0.0:100"])))
    as ([ts w] & Hr & Hw).
  - repeat constructor; simpl; lia.
  - by vm_compute.
  - apply bool_decide_eq_true_1 in Hw. by exists ts, w.
Qed.

Lemma bitmap_all_free : free_ports bitmap_100_105 = all_ports bitmap_100_105.
Proof.
  apply set_eq. intros p. change (p ∈ free bitmap_100_105 ↔ p ∈ managed bitmap_100_105).
  rewrite elem_of_free. unfold managed. simpl. rewrite !elem_of_ports. lia.
Qed.

Theorem port_conservation_witness :
  ∃ ts w, reachable (manager no_sha) run0 (ts, w) ∧ is_Some (processes w !! "vol-r-0") ∧
    ∃ pending, ∀ p, owns pending w p →
      port_range (proc w p) ## free_ports (availablePorts w).
Proof.
  destruct create_reachable as (ts & w & Hr & Hm & _). exists ts, w. split; [done|].
  split; [rewrite Hm; by exists 0%nat|].
  destruct (port_conservation no_sha bitmap_100_105 ts w) as (pending & _ & Hsep & _);
    [apply bitmap_100_105_wf|apply bitmap_all_free|done|by exists pending].
Defined.

(** ** Races *)

(** The process exits, with an error, before the goroutine that would see it
    serve looks at it; that goroutine then writes [running]. *)
Definition stale_running_schedule : schedule :=
  create_schedule 3 sleep_spec "u0" ++
  (Run 4 <$> [AOk; AErr (EPlain "exit status 1"); AUnit; AUnit; AUnit]) ++ received ++
  [Run 4 AUnit] ++ (Run 5 <$> [AUnit; AUnit; AUnit]) ++ received ++ [Run 5 AUnit].

(** A process can be reported running for ever after its command has failed.
    In this execution all calls and the goroutines they started have ended and no
    update is left, so nothing will correct it:
    the command has exited, the error message is recorded, and the state is
    running. The goroutine that waits for the process writes [StateRunning]
    without looking at the state. *)
Theorem stale_running_reachable :
  ∃ ts w p c, reachable (manager no_sha) run0 (ts, w) ∧
    Forall (λ t, t = Ret tt) (drop 3 ts) ∧ updates (channels w) = [] ∧
    processes w !! "sleep" = Some p ∧
    StState (Status (RPCResponse (proc w p))) = "running" ∧
    ErrorMsg (proc w p) = "exit status 1" ∧
    cmd (proc w p) = Some c ∧ CmdProcessState (command w c) = true.
Proof.
  destruct (exec_witness (manager no_sha) stale_running_schedule run0
    (λ c, all_ended (drop 3 c.1) &&
      bool_decide (updates (channels c.2) = [] ∧ processes c.2 !! "sleep" = Some 0%nat) &&
      bool_decide (StState (Status (RPCResponse (proc c.2 0))) = "running" ∧
        ErrorMsg (proc c.2 0) = "exit status 1" ∧ cmd (proc c.2 0) = Some 0%nat ∧
        CmdProcessState (command c.2 0) = true)))
    as ([ts w] & Hr & Hw); [by repeat constructor|by vm_compute|].
  apply andb_prop in Hw as [Hw H3]. apply andb_prop in Hw as [H1 H2].
  apply bool_decide_eq_true_1 in H2 as [? ?]. apply bool_decide_eq_true_1 in H3 as (?&?&?&?).
  exists ts, w, 0%nat, 0%nat. split_and!; try done. by apply all_ended_spec.
Qed.

(** The deletion runs between [Start] and the moment its goroutine starts the
    command. *)
Definition deleted_running_schedule : schedule :=
  create_schedule 3 replica_spec "u0" ++
  [Arrive (ProcessDelete "vol-r-0" "";; mret tt)] ++
  (Run 6 <$> [AUnit; AUnit; AZ 5; AUnit; AUnit]) ++ received ++
  (Run 6 <$> [AUnit; AUnit; AUnit; AUnit; AUnit; AUnit]) ++
  (Run 7 <$> [AUnit; AUnit; AUnit; AUnit; AUnit]) ++
  (Run 8 <$> [AUnit; AUnit; AUnit; AUnit]) ++
  [Run 4 AOk].

(** A deleted process can run on. When the deletion comes before the
    goroutine of [Start] has started the command, [StopWithSignal] takes the
    command for one that has ended: no signal is sent, the process is taken off
    the map and its ports are free again, and then the command starts. *)
Theorem deleted_process_runs :
  ∃ ts w c, reachable (manager no_sha) run0 (ts, w) ∧
    processes w = ∅ ∧ free (availablePorts w) = managed bitmap_100_105 ∧
    IsRunning (command w c) = true ∧ signals (command w c) = [] ∧
    Path (command w c) = "/longhorn".
Proof.
  destruct (exec_witness (manager no_sha) deleted_running_schedule run0
    (λ c, bool_decide (processes c.2 = ∅) &&
      bool_decide (free (availablePorts c.2) = managed bitmap_100_105) &&
      bool_decide (IsRunning (command c.2 0) = true ∧ signals (command c.2 0) = [] ∧
        Path (command c.2 0) = "/longhorn")))
    as ([ts w] & Hr & Hw); [|by vm_compute|].
  { by repeat constructor. }
  apply andb_prop in Hw as [Hw H3]. apply andb_prop in Hw as [H1 H2].
  apply bool_decide_eq_true_1 in H1. apply bool_decide_eq_true_1 in H2.
  apply bool_decide_eq_true_1 in H3 as (?&?&?). exists ts, w, 0%nat. done.
Qed.

(** A health probe that hangs counts as a success. [ExecuteWithTimeout]
    wraps the error of a command that has not returned yet, which is nil, so
    the timeout is reported as no error and the readiness probe of the process
    succeeds. *)
Theorem probe_timeout_is_ready (address out serr : string) (w : World Bitmap) :
  env_ok (EExecute GRPCHealthProbe ["-addr"; address]) w (TimedOut out serr None) ∧
  ∃ k, GRPCServiceReadinessProbe (B := Bitmap) address =
         Ask (EExecute GRPCHealthProbe ["-addr"; address]) k ∧
       k (TimedOut out serr None) = Ret true.
Proof. split; [done|]. eexists. split; [reflexivity|]. done. Qed.

(** ** Invariants of every reachable state *)

Lemma registry_map `{PortAllocatorLaws B} sha (b : B) ts w n p :
  alloc_wf b → free_ports b = all_ports b →
  reachable (manager sha) (NewManager b) (ts, w) →
  processes w !! n = Some p → (p < length (heap w))%nat ∧ Name (proc w p) = n.
Proof.
  intros Hwf Hfree Hr Hn.
  destruct (reachable_inv sha (all_ports b) b _ Hwf eq_refl Hfree Hr) as (hs & _ & _ & Hi).
  by destruct (inv_map _ _ _ Hi n p Hn) as (?&?&_).
Qed.

(** C4: the map is sound: a process is registered under its own name, and no
    two processes have the same UUID, so the UUID checks of [ProcessDelete] and
    [ProcessReplace] compare identities. *)
Theorem registry_sound `{PortAllocatorLaws B} sha (b : B) ts w :
  alloc_wf b → free_ports b = all_ports b →
  reachable (manager sha) (NewManager b) (ts, w) →
  (∀ n p, processes w !! n = Some p → (p < length (heap w))%nat ∧ Name (proc w p) = n) ∧
  (∀ p q, (p < length (heap w))%nat → (q < length (heap w))%nat →
     UUID (proc w p) = UUID (proc w q) → p = q).
Proof.
  intros Hwf Hfree Hr. split; [intros n p; by apply (registry_map sha b ts w)|].
  destruct (reachable_inv sha (all_ports b) b _ Hwf eq_refl Hfree Hr) as (hs & _ & _ & Hi).
  apply Hi.
Qed.

Theorem registry_sound_witness :
  ∃ ts w, reachable (manager no_sha) run0 (ts, w) ∧ is_Some (processes w !! "vol-r-0") ∧
    ∀ n p, processes w !! n = Some p → (p < length (heap w))%nat ∧ Name (proc w p) = n.
Proof.
  destruct create_reachable as (ts & w & Hr & Hm & _). exists ts, w. split; [done|].
  split; [rewrite Hm; by exists 0%nat|].
  apply (registry_sound no_sha bitmap_100_105 ts w);
    [apply bitmap_100_105_wf|apply bitmap_all_free|done].
Defined.

(** C2: the life of a process. From any reachable configuration on, whatever
    happens, a process keeps its name, binary, port arguments, UUID and log
    file; its state never returns to [starting], its deletion time is never
    cleared, and its update channel stays set; and at every moment a process
    that is [stopping] has a deletion time, on which the retry of its deletion
    rests. *)
Theorem process_life `{PortAllocator B} sha (b : B) (c c' : conf B) :
  reachable (manager sha) (NewManager b) c → rtc (step (manager sha)) c c' →
  (∀ p, (p < length (heap c.2))%nat →
     (p < length (heap c'.2))%nat ∧ evolves (proc c.2 p) (proc c'.2 p)) ∧
  (∀ p, PState (proc c.2 p) = StateStopping → is_Some (DeletionTimestamp (proc c.2 p))).
Proof.
  intros Hr Hs. destruct (manager_steps sha b c c' Hr Hs) as [H1 H2]. split.
  - apply transitions_evolve in H2 as [Hl Hp]. intros p Hlt. split; [lia|auto].
  - by apply (transitions_dated _ _ H1).
Qed.

Theorem process_life_witness :
  ∃ c c' : conf Bitmap, reachable (manager no_sha) run0 c ∧ (0 < length (heap c.2))%nat ∧
    evolves (proc c.2 0) (proc c'.2 0).
Proof.
  destruct create_reachable as (ts & w & Hr & _ & Hl & _).
  set (p := ProcessDelete (B := Bitmap) "vol-r-0" "";; mret tt).
  exists (ts, w), (ts ++ [p], w). simpl. split; [done|]. split; [lia|].
  apply (process_life no_sha bitmap_100_105 (ts, w) (ts ++ [p], w)); [done| |simpl; lia].
  apply rtc_once, step_arrive, client_delete.
Defined.

(** ** The critical sections *)

(** What [StopWithSignal] decides under the lock, for every state and time.
    A starting or running process is marked stopping, dated now, and will be
    signalled; one whose deletion was requested more than 60 seconds ago is
    killed; one that stopped by itself has its log file closed; at most one of
    the three happens, and otherwise nothing does. *)
Theorem stop_section_correct (now : Z) (q : Process) :
  let '(needStop, needTimeoutKill, needCloseLogger, q') := stop_section now q in
  (needStop = true ↔ PState q = StateStarting ∨ PState q = StateRunning) ∧
  (needTimeoutKill = true ↔
     needStop = false ∧ ∃ t, DeletionTimestamp q = Some t ∧ t + 60 * 10^9 < now) ∧
  (needCloseLogger = true ↔
     (PState q = StateStopped ∨ PState q = StateError) ∧ DeletionTimestamp q = None) ∧
  q' = (if needStop then with_state StateStopping (ErrorMsg q) (Some now) q else q) ∧
  (needStop = true → needTimeoutKill = false ∧ needCloseLogger = false) ∧
  (needTimeoutKill = true → needCloseLogger = false).
Proof.
  unfold stop_section, WaitInterval, WaitCount.
  destruct (DeletionTimestamp q) as [t|] eqn:Hd; destruct (PState q) eqn:Hs; simpl;
    rewrite ?Hd, ?Hs; simpl; repeat case_bool_decide; simpl; naive_solver lia.
Qed.

Fixpoint port_arguments (port : Z) (portArgs : list string) : list string :=
  match portArgs with
  | [] => []
  | a :: l => split "," (a +:+ itoa port) ++ port_arguments (port + 1) l
  end.

Lemma fit_port_args_exact q i l q' :
  fit_port_args q i l = (None, q') → Args q' = Args q ++ port_arguments (PortStart q + i) l.
Proof.
  revert q i. induction l as [|a l IH]; intros q i; simpl.
  - intros; simplify_eq. by rewrite app_nil_r.
  - case_match; [done|]. intros Hf. apply IH in Hf. simpl in Hf.
    rewrite <- app_assoc in Hf. rewrite Hf. by rewrite Z.add_assoc.
Qed.

(** What [allocateProcessPorts] does when it succeeds. *)
Lemma allocateProcessPorts_args `{PortAllocatorLaws B} q b q' b' :
  alloc_wf b → PortCount q < 2^31 →
  allocateProcessPorts q b = (None, q', b') →
  Args q' = Args q ++ port_arguments (PortStart q') (PortArgs q) ∧
  if decide (PortCount q = 0) then PortStart q' = 0 ∧ PortEnd q' = 0 ∧ b' = b
  else 0 < PortStart q' ∧ PortEnd q' = PortStart q' + PortCount q - 1.
Proof.
  intros Hwf Hc. unfold allocateProcessPorts. case_bool_decide; [done|].
  unfold allocatePorts. case_bool_decide; [done|]. case_bool_decide as Hz.
  - rewrite Hz in *. destruct (PortArgs q); simpl in *; [|lia].
    intros; simplify_eq/=. by rewrite app_nil_r.
  - destruct (alloc_range b (PortCount q)) as [[[s x]|x] b1] eqn:Ea; [|done].
    pose proof (alloc_ok _ _ _ _ _ Hwf Hc Ea) as (_ & _ & ? & -> & ? & _).
    rewrite !int32_id by (unfold in_int32; lia).
    destruct (fit_port_args_ok (with_ports s (s + PortCount q - 1) (Args q) q) 0 (PortArgs q))
      as [args Hf]; simpl; [lia..|].
    rewrite Hf. intros; simplify_eq/=. apply fit_port_args_exact in Hf. simpl in Hf.
    rewrite Z.add_0_r in Hf. split; [done|]. rewrite decide_False by done. lia.
Qed.

(** The process and bitmap after [registerProcess]. *)
Lemma register_new `{PortAllocator B} p (w w' : World B) :
  (p < length (heap w))%nat → registerProcess p w = (None, w') →
  processes w !! Name (proc w p) = None ∧
  ∃ q b, allocateProcessPorts (proc w p) (availablePorts w) = (None, q, b) ∧
    processes w' = <[Name (proc w p) := p]> (processes w) ∧ availablePorts w' = b ∧
    proc w' p = set_update_ch q.
Proof.
  intros Hp. unfold registerProcess. case_match; [done|]. split; [done|].
  destruct (alloc_step p w) as [[e|] w1] eqn:Ha; [done|].
  apply alloc_step_shape in Ha as (q & b & Ha & ->). simplify_eq. exists q, b.
  split_and!; try done.
  change (proc (alter_proc set_update_ch p
    (set_registry (processes w) b (alter_proc (λ _, q) p w))) p = set_update_ch q).
  rewrite proc_alter, proc_alloc by done. simpl. rewrite length_alter.
  by rewrite !decide_True by done.
Qed.

(** C12: [registerProcess] on every branch. An existing name is refused with
    [AlreadyExists]; too many port arguments, a negative count or a lack of
    ports are errors; an error registers nothing and keeps the ports. On
    success the name, which was free, maps to the process, its port range has
    exactly [PortCount] ports (none for zero) that were free, those ports are
    no longer free, and each port argument has been appended with its port,
    split at the commas. *)
Theorem registerProcess_correct `{PortAllocatorLaws B} (p : nat) (w w' : World B) e :
  (p < length (heap w))%nat → alloc_wf (availablePorts w) →
  PortCount (proc w p) < 2^31 → PortStart (proc w p) = 0 → PortEnd (proc w p) = 0 →
  registerProcess p w = (e, w') →
  let q := proc w p in let q' := proc w' p in
  match e with
  | Some x =>
      processes w' = processes w ∧ availablePorts w' = availablePorts w ∧
      ((is_Some (processes w !! Name q) ∧
        x = EStatus AlreadyExists ("process " +:+ Name q +:+ " already exists")) ∨
       (processes w !! Name q = None ∧
        (PortCount q < Z.of_nat (length (PortArgs q)) ∨ PortCount q < 0 ∨
         ∃ y, (alloc_range (availablePorts w) (PortCount q)).1 = Err y)))
  | None =>
      processes w !! Name q = None ∧ processes w' = <[Name q := p]> (processes w) ∧
      Args q' = Args q ++ port_arguments (PortStart q') (PortArgs q) ∧
      (if decide (PortCount q = 0) then PortStart q' = 0 ∧ PortEnd q' = 0
       else 0 < PortStart q' ∧ PortEnd q' = PortStart q' + PortCount q - 1) ∧
      port_range q' ⊆ free_ports (availablePorts w) ∧
      free_ports (availablePorts w') = free_ports (availablePorts w) ∖ port_range q' ∧
      UpdateCh q' = true
  end.
Proof.
  intros Hp Hwf Hc Hs He Hr. simpl. destruct e as [x|].
  - revert Hr. unfold registerProcess.
    case_match eqn:Hn; [intros; simplify_eq; split_and!; [done..|]; left; eauto|].
    destruct (alloc_step p w) as [[e1|] w1] eqn:Ha; [|done]. intros; simplify_eq.
    apply alloc_step_shape in Ha as (q & b & Ha & ->). simpl.
    pose proof (allocateProcessPorts_spec _ _ _ _ _ Hwf Hc Hs He Ha) as (_&_&_&_&->&_).
    split_and!; [done..|]. right. split; [done|].
    revert Ha. unfold allocateProcessPorts. case_bool_decide; [by left|].
    unfold allocatePorts. case_bool_decide; [by right; left|].
    case_bool_decide as Hz; [rewrite Hz in *; destruct (PortArgs _); simpl in *; [done|lia]|].
    destruct (alloc_range _ _) as [[[s y]|y] b1] eqn:Ea; [|by right; right; eauto].
    pose proof (alloc_ok _ _ _ _ _ Hwf Hc Ea) as (_ & _ & ? & -> & ? & _).
    rewrite !int32_id by (unfold in_int32; lia).
    destruct (fit_port_args_ok (with_ports s (s + PortCount (proc w p) - 1) (Args (proc w p))
      (proc w p)) 0 (PortArgs (proc w p))) as [args Hf]; simpl; [lia..|]. by rewrite Hf.
  - apply register_new in Hr as (Hn & q & b & Ha & Hm & Hb & Hq); [|done].
    pose proof (allocateProcessPorts_spec _ _ _ _ _ Hwf Hc Hs He Ha)
      as (_&_&_&_&_&_&_&Hsub&Hfree).
    apply allocateProcessPorts_args in Ha as [Hargs Hports]; [|done..].
    rewrite Hq, Hm, Hb. split_and!; try done. simpl. case_decide; naive_solver.
Qed.

(** The replica made and not yet registered. *)
Definition unregistered : World Bitmap :=
  set_heap (λ h, h ++ [new_process replica_spec "u0" 0]) run0.

Theorem registerProcess_correct_witness :
  let w' := (registerProcess 0 unregistered).2 in
  processes w' = {["vol-r-0" := 0%nat]} ∧
  Args (proc w' 0) = ["replica"] ++ port_arguments (PortStart (proc w' 0)) ["--listen,0.0.0.0:"] ∧
  free (availablePorts w') = free bitmap_100_105 ∖ port_range (proc w' 0).
Proof.
  destruct (registerProcess_correct (B := Bitmap) 0 unregistered
    (registerProcess 0 unregistered).2 None) as (_ & Hm & Ha & _ & _ & Hf & _);
    [simpl; lia|apply bitmap_100_105_wf|simpl; lia|done|done|by vm_compute|].
  split; [exact Hm|]. split; [exact Ha|exact Hf].
Defined.

(** C29: the end of a deletion. [unregisterProcess] takes a process off the map
    only when the process registered under its name has its UUID; then exactly
    this entry goes and exactly its ports are free again. Otherwise (it was
    replaced or deleted meanwhile) the state is left as it is. *)
Theorem unregister_section_correct `{PortAllocatorLaws B} sha (b : B) ts w p :
  alloc_wf b → free_ports b = all_ports b →
  reachable (manager sha) (NewManager b) (ts, w) → (p < length (heap w))%nat →
  let w' := unregister_section p w in
  if decide (processes w !! Name (proc w p) = Some p) then
    processes w' = delete (Name (proc w p)) (processes w) ∧
    free_ports (availablePorts w') = free_ports (availablePorts w) ∪ port_range (proc w p) ∧
    port_range (proc w p) ## free_ports (availablePorts w)
  else w' = w.
Proof.
  intros Hwf Hfree Hr Hp.
  destruct (reachable_inv sha (all_ports b) b _ Hwf eq_refl Hfree Hr) as (hs & _ & _ & Hi).
  simpl in Hi. simpl. unfold unregister_section, is_registered. case_decide as Hm.
  - assert (owner w (⋃ hs) p) as Ho by (right; eauto).
    rewrite Hm, bool_decide_true by done. unfold releaseProcessPorts. simpl.
    destruct (releasePorts_owned _ _ _ _ Hi Ho) as (b' & Hrel & _ & _ & Hf).
    unfold proc in *. simpl. rewrite Hrel. split_and!; [done|done|].
    by apply (inv_sep _ _ _ Hi p).
  - destruct (processes w !! Name (proc w p)) as [q|] eqn:Hn; [|done].
    case_bool_decide as Hu; [|done]. exfalso. apply Hm.
    by rewrite (registered_eq _ _ _ _ _ _ Hi Hn Hu).
Qed.

Theorem unregister_section_correct_witness :
  ∃ w, processes w = {["vol-r-0" := 0%nat]} ∧
    processes (unregister_section 0 w) = delete (Name (proc w 0)) (processes w).
Proof.
  destruct create_reachable as (ts & w & Hr & Hm & Hl & _). exists w. split; [done|].
  pose proof (unregister_section_correct no_sha bitmap_100_105 ts w 0
    bitmap_100_105_wf bitmap_all_free Hr ltac:(lia)) as H. cbv zeta in H.
  destruct (decide (processes w !! Name (proc w 0) = Some 0%nat)) as [Hd|Hd];
    [by destruct H|].
  exfalso. apply Hd.
  destruct (registry_map no_sha bitmap_100_105 ts w "vol-r-0" 0%nat) as [_ Hn];
    [apply bitmap_100_105_wf|apply bitmap_all_free|done|by rewrite Hm|]. by rewrite Hn, Hm.
Defined.

(** ** Names and port ranges *)

(** [ParsePortRange] reads back any range of [int32] ports written as
    [first-last] with non-negative bounds, but keeps only the low 32 bits of
    larger numbers: it accepts ["4294967297-10"] as [1-10]. *)
Theorem ParsePortRange_roundtrip (first last : Z) :
  (0 ≤ first < 2^31 → 0 ≤ last < 2^31 →
   ParsePortRange (itoa first +:+ "-" +:+ itoa last) = Ok (first, last)) ∧
  ParsePortRange "4294967297-10" = Ok (1, 10).
Proof.
  split; [|by vm_compute]. intros Hf Hl.
  assert (∀ z, 0 ≤ z < 2^31 → contains "-" (itoa z) = false ∧ trim_space (itoa z) = itoa z ∧
    atoi (itoa z) = Ok z ∧ int32 z = z) as Hz.
  { intros z Hz. pose proof (itoa_digits z ltac:(lia)) as Hd. split_and!.
    - by apply (contains_all_bytes _ is_digit).
    - by apply trim_space_digits.
    - apply atoi_itoa. unfold in_int64. lia.
    - apply int32_id. unfold in_int32. lia. }
  destruct (Hz first Hf) as (F1 & F2 & F3 & F4), (Hz last Hl) as (L1 & L2 & L3 & L4).
  unfold ParsePortRange. rewrite bool_decide_false.
  - change ("-" +:+ itoa last) with (String "-" (itoa last)).
    rewrite split_app_sep by done. rewrite (split_no_sep _ (itoa last)) by done.
    by rewrite F2, L2, F3, L3, F4, L4.
  - intros He. by destruct (itoa first).
Qed.

Theorem ParsePortRange_roundtrip_witness : ParsePortRange "10000-20000" = Ok (10000, 20000).
Proof. apply (ParsePortRange_roundtrip 10000 20000); lia. Defined.

(** The volume of an engine process. A name made of a volume name, [-e-] and
    a part without dash is an engine process, and its volume is read back,
    whatever dashes the volume name has; and no name that counts as an engine
    process makes [ProcessNameToVolumeName] slice out of range. *)
Theorem engine_name_roundtrip (vol id : string) :
  (vol ≠ "" → has_suffix vol (bytes [10%nat]) = false →
   contains "-" id = false →
   IsEngineProcess (vol +:+ "-e-" +:+ id) = true ∧
   ProcessNameToVolumeName (vol +:+ "-e-" +:+ id) = Some vol) ∧
  (∀ name, IsEngineProcess name = true → is_Some (ProcessNameToVolumeName name)).
Proof.
  split.
  - intros Hv Hnl Hid.
    assert (split "-" (vol +:+ "-e-" +:+ id) = split "-" vol ++ ["e"; id]) as Hs.
    { change ("-e-" +:+ id) with (String "-" ("e" +:+ String "-" id)).
      by rewrite !split_app, (split_no_sep _ id). }
    unfold IsEngineProcess, ProcessNameToVolumeName. rewrite Hs, rev_app_distr. simpl.
    rewrite rev_involutive, join_split. split.
    + destruct (rev_string vol "") as [|a t] eqn:Hr; [by apply rev_string_nil in Hr|].
      unfold has_suffix, has_prefix in Hnl. rewrite Hr in Hnl. simpl in Hnl.
      case_decide; [done|]. by rewrite bool_decide_false.
    + rewrite length_app. simpl. rewrite bool_decide_true by lia.
      replace (length (split "-" vol) + 2 - 2)%nat with (length (split "-" vol)) by lia.
      by rewrite take_app_length, join_split.
  - intros name. unfold IsEngineProcess, ProcessNameToVolumeName.
    rewrite <- (length_rev (split "-" name)).
    destruct (rev (split "-" name)) as [|x [|y l]]; [done|done|]. simpl. intros _. eauto.
Qed.

Theorem engine_name_roundtrip_witness :
  ProcessNameToVolumeName "pvc-e130e369-274d-e-0" = Some "pvc-e130e369-274d" ∧
  is_Some (ProcessNameToVolumeName "a-b-e-1").
Proof.
  split; [|by apply (engine_name_roundtrip "a" "1")].
  by apply (engine_name_roundtrip "pvc-e130e369-274d" "0").
Defined.
