(* ===== verification/ManagerLinear.v ===== *)
(** * The handlers of the process manager as atomic operations

    What one call of [ProcessCreate], [ProcessDelete], [ProcessGet],
    [ProcessList] or [ProcessReplace] does to the map of processes while any
    number of other calls and goroutines run: [Rely] with the transitions of
    [ManagerSpec] as the interference. Each call changes the map at most once,
    in one action, and its reply says which; between its own actions the map
    may change in any way the transitions allow. By [Rely.adequacy] this holds of
    every call of every execution of the manager ([calls_atomic]). *)
From S2P Require Import Prelude GoStrings Bitmap Sched Rely Process Manager ManagerPorts ManagerSpec ManagerProps.

#[local] Open Scope Z_scope.

Section linear.
Context {B : Type} `{PortAllocator B}.

(** What holds of every reachable state: a process is registered under its own
    name, no two processes have the same UUID, and a process that is stopping
    has a deletion time. *)
Definition sound (w : World B) : Prop :=
  map_Forall (λ n p, (p < length (heap w))%nat ∧ Name (proc w p) = n) (processes w) ∧
  NoDup (UUID <$> heap w) ∧ Forall dated (heap w).

#[export] Instance sound_dec w : Decision (sound w).
Proof. unfold sound, dated. apply _. Defined.

(** The interference: transitions, to a reachable state. *)
Definition rely (w w' : World B) : Prop := rtc transition w w' ∧ sound w'.

Definition same_registry (w w' : World B) : Prop := processes w' = processes w.

(** Actions that leave the map of processes as it is. *)
Definition silent (h : list (World B * World B)) : Prop :=
  Forall (λ x, same_registry x.1 x.2) h.

(** One action takes the map from one that holds [now] at [name] to one that
    holds the process [p]; the others leave the map as they find it. *)
Definition sets_once (name : string) (p : nat) (now : World B → Prop)
    (h : list (World B * World B)) : Prop :=
  ∃ h1 h2 a b, h = h1 ++ (a, b) :: h2 ∧ silent h1 ∧ silent h2 ∧ now a ∧
    processes b = <[name := p]> (processes a).

(** At the moment of one of its actions, the call saw a state that satisfies [P]. *)
Definition saw (P : World B → Prop) (h : list (World B * World B)) : Prop :=
  ∃ x, x ∈ h ∧ P x.1.

Lemma sets_here name p now a b h :
  now a → processes b = <[name := p]> (processes a) → silent h → sets_once name p now ((a, b) :: h).
Proof. intros. exists [], h, a, b. by repeat constructor. Qed.

Lemma sets_later name p now h1 h :
  silent h1 → sets_once name p now h → sets_once name p now (h1 ++ h).
Proof.
  intros H1 (h2 & h3 & a & b & -> & H2 & H3 & ? & ?). exists (h1 ++ h2), h3, a, b.
  rewrite <- app_assoc. split_and!; [done|by apply Forall_app|done..].
Qed.

Lemma sets_cons name p now a b h :
  same_registry a b → sets_once name p now h → sets_once name p now ((a, b) :: h).
Proof. intros. apply (sets_later _ _ _ [(a, b)]); [by repeat constructor|done]. Qed.

Lemma saw_here P a b h : P a → saw P ((a, b) :: h).
Proof. intros. exists (a, b). split; [by left|done]. Qed.

Lemma saw_cons P a b h : saw P h → saw P ((a, b) :: h).
Proof. intros (x & Hx & ?). exists x. split; [by right|done]. Qed.

Lemma saw_app P h1 h : saw P h → saw P (h1 ++ h).
Proof. intros (x & Hx & ?). exists x. split; [apply elem_of_app; by right|done]. Qed.

Lemma rely_evolves w w' : rely w w' → heap_evolves w w'.
Proof. intros [Ht _]. by apply transitions_evolve. Qed.

Lemma sound_at (w : World B) n p :
  sound w → processes w !! n = Some p → (p < length (heap w))%nat ∧ Name (proc w p) = n.
Proof. intros [Hm _] Hn. by apply (Hm n p). Qed.

Lemma uuid_eq (w : World B) (p q : nat) :
  sound w → (p < length (heap w))%nat → (q < length (heap w))%nat →
  UUID (proc w p) = UUID (proc w q) → p = q.
Proof.
  intros (_ & Hd & _) Hp Hq Hu. destruct (lookup_lt_is_Some_2 _ _ Hp) as [x Hx].
  destruct (lookup_lt_is_Some_2 _ _ Hq) as [y Hy].
  rewrite NoDup_alt in Hd. apply (Hd p q (UUID x)).
  - by rewrite list_lookup_fmap, Hx.
  - rewrite list_lookup_fmap, Hy. simpl. f_equal. unfold proc in Hu.
    by rewrite !list_lookup_total_alt, Hx, Hy in Hu.
Qed.

Lemma dated_at (w : World B) p : sound w → dated (proc w p).
Proof.
  intros (_ & _ & Hd). unfold proc. rewrite list_lookup_total_alt.
  destruct (heap w !! p) as [q|] eqn:Hq; [|done].
  rewrite Forall_lookup in Hd. by apply (Hd p).
Qed.

(** A process that was there is there, with the same identity. *)
Lemma evolves_at (w w' : World B) p :
  heap_evolves w w' → (p < length (heap w))%nat →
  (p < length (heap w'))%nat ∧ evolves (proc w p) (proc w' p).
Proof. intros [Hl Hp] Hlt. split; [lia|auto]. Qed.

(** The states of a run, in order. *)
Ltac relies :=
  repeat match goal with
  | HR : rely _ _ |- _ => pose proof (rely_evolves _ _ HR); destruct HR as [_ ?]
  end.
Ltac evolve :=
  solve [repeat match goal with
  | |- heap_evolves ?a ?a => reflexivity
  | Hab : heap_evolves ?a ?b |- heap_evolves ?a _ => transitivity b; [exact Hab|clear Hab]
  | Hab : heap_evolves _ ?b |- _ => transitivity b; [exact Hab|clear Hab]
  end].

(** ** Programs that do not touch the map *)

Abbreviation silent_prog :=
  (owns_only (W := World B) (E := sysE) (Ans := answer) same_registry).

Lemma silent_ask {X} (e : sysE X) : silent_prog (ask e).
Proof. apply owns_ask. intros w x _. destruct e; try done; simpl; by case_match. Qed.

Lemma silent_read {X} (f : World B → X) : silent_prog (read f).
Proof. by apply owns_read. Qed.

Lemma silent_update (f : World B → World B) :
  (∀ w, processes (f w) = processes w) → silent_prog (update f).
Proof. intros Hf. by apply owns_atomic. Qed.

Lemma silent_go c : silent_prog (go c).
Proof. by apply owns_go. Qed.

Create HintDb silent discriminated.
#[local] Hint Resolve silent_ask silent_read silent_go owns_ret : silent.
#[local] Hint Extern 1 (owns_only _ (update _)) => (apply silent_update; done) : silent.
#[local] Hint Extern 1 (owns_only _ (atomic _)) => (apply owns_atomic; done) : silent.

Ltac solve_silent :=
  repeat first
    [ progress intros
    | solve [eauto 2 with silent]
    | apply owns_bind
    | progress case_match ].

Lemma silent_send p : silent_prog (send p).
Proof. unfold send. solve_silent. Qed.
#[local] Hint Resolve silent_send : silent.

Lemma silent_stop p signal : silent_prog (StopWithSignal p signal).
Proof. unfold StopWithSignal, close_log_of. solve_silent. Qed.
#[local] Hint Resolve silent_stop : silent.

Lemma silent_start p : silent_prog (Start p).
Proof.
  unfold Start, NewBinaryCommand. solve_silent.
Qed.

Lemma silent_wait_replacement n p : silent_prog (wait_replacement n p).
Proof. induction n; cbn [wait_replacement]; unfold rpc_response; solve_silent. Qed.

Lemma silent_cleanup p : silent_prog (cleanupReplacementProcess p).
Proof. unfold cleanupReplacementProcess, Stop. solve_silent. Qed.

Lemma silent_unregister p : silent_prog (unregisterProcess p).
Proof. unfold unregisterProcess. solve_silent. Qed.
#[local] Hint Resolve silent_start silent_wait_replacement silent_cleanup silent_unregister : silent.

Lemma silent_list l m : silent_prog (list_responses l m).
Proof.
  revert m. induction l as [|[n p] l IH]; intros m; cbn [list_responses];
    unfold rpc_response; solve_silent.
Qed.

(** What such a program leaves of the map and of the processes. *)
Lemma silent_runs {A : Type} (p : prog (World B) sysE A) w h a w' :
  silent_prog p → runs_to rely p w h a w' → silent h.
Proof. apply owns_runs. Qed.

Lemma runs_evolves {A : Type} (p : prog (World B) sysE A) w h a w' :
  acts transition p → runs_to rely p w h a w' →
  heap_evolves w w' ∧
  Forall (λ x, heap_evolves w x.1 ∧ heap_evolves x.1 x.2 ∧ heap_evolves x.2 w') h.
Proof.
  intros Hp Hr. eapply runs_to_acts in Hr as [Hw Hh]; [|apply t_idle|by intros ?? []|done].
  split; [by apply transitions_evolve|]. eapply Forall_impl; [exact Hh|].
  intros x (H1 & H2 & H3). split_and!; [by apply transitions_evolve|by apply transition_evolves|].
  by apply transitions_evolve.
Qed.

(** ** [ProcessCreate] *)

(** What one run of [ProcessCreate] from the state [w] to [w'] did. *)
Definition create_spec (spec : ProcessSpec) (w w' : World B)
    (h : list (World B * World B)) (r : reply ProcessResponse) : Prop :=
  match r with
  | (Some resp, None) =>
      ∃ p, (length (heap w) ≤ p < length (heap w'))%nat ∧
        sets_once (SName spec) p (λ a, processes a !! SName spec = None) h ∧
        resp = RPCResponse (proc w' p) ∧
        SName (Spec resp) = SName spec ∧ SBinary (Spec resp) = SBinary spec ∧
        Forall (λ q, UUID q ≠ StUuid (Status resp)) (heap w)
  | (None, Some e) =>
      silent h ∧
      ((missing_argument spec = true ∧ h = [] ∧ e = invalid_argument "missing required argument") ∨
       (missing_argument spec = false ∧ length h = 1%nat) ∨
       (saw (λ a, is_Some (processes a !! SName spec)) h ∧
        e = EStatus AlreadyExists ("process " +:+ SName spec +:+ " already exists")) ∨
       (∃ p, saw (λ a, processes a !! SName spec = None ∧ Name (proc a p) = SName spec ∧
               (allocateProcessPorts (proc a p) (availablePorts a)).1.1 = Some e) h))
  | _ => False
  end.

Lemma register_error p (w w' : World B) e :
  registerProcess p w = (Some e, w') →
  processes w' = processes w ∧
  ((is_Some (processes w !! Name (proc w p)) ∧
    e = EStatus AlreadyExists ("process " +:+ Name (proc w p) +:+ " already exists")) ∨
   (processes w !! Name (proc w p) = None ∧
    (allocateProcessPorts (proc w p) (availablePorts w)).1.1 = Some e)).
Proof.
  unfold registerProcess. case_match eqn:Hn.
  - intros; simplify_eq. split; [done|]. left. eauto.
  - unfold alloc_step. destruct (allocateProcessPorts _ _) as [[[x|] q] b] eqn:Ha; [|done].
    intros; simplify_eq/=. split; [done|]. by right.
Qed.

(** A process just made is there later, with the identity it was made with. *)
Lemma new_stays (w w' : World B) (q : Process) :
  heap_evolves (set_heap (λ h, h ++ [q]) w) w' →
  (length (heap w) < length (heap w'))%nat ∧ evolves q (proc w' (length (heap w))).
Proof.
  intros Hev. apply (evolves_at _ _ (length (heap w))) in Hev as [Hl He];
    [|simpl; rewrite length_app; simpl; lia].
  split; [done|]. unfold proc in He. simpl in He.
  by rewrite (list_lookup_total_alt _ (length (heap w))), lookup_app_r, Nat.sub_diag in He by lia.
Qed.

Lemma fresh_uuid (w w1 : World B) u :
  heap_evolves w w1 → Forall (λ q, UUID q ≠ u) (heap w1) → Forall (λ q, UUID q ≠ u) (heap w).
Proof.
  intros Hev Hf. rewrite !Forall_lookup in *. intros i q Hq Hu.
  destruct (evolves_at _ _ i Hev (lookup_lt_Some _ _ _ Hq)) as [Hl He].
  destruct (lookup_lt_is_Some_2 _ _ Hl) as [q' Hq']. apply (Hf i q' Hq').
  destruct (ev_id _ _ He) as (_ & _ & _ & _ & He' & _). revert He'. unfold proc.
  rewrite !list_lookup_total_alt, Hq, Hq'. simpl. congruence.
Qed.

(** The rest of a successful [ProcessCreate], or of a start that failed. *)
Lemma create_tail p w h r w' :
  runs_to rely
    (send p;;
     e ← Start p;
     (match e with Some _ => send p | None => mret tt end);;
     resp ← rpc_response p;
     mret (ok resp)) w h r w' →
  silent h ∧ r = ok (RPCResponse (proc w' p)).
Proof.
  intros Hr. split.
  - revert Hr. apply silent_runs. unfold rpc_response. solve_silent.
  - apply runs_to_bind in Hr as (h0 & h1 & [] & w1 & -> & _ & Hr).
    apply runs_to_bind in Hr as (h2 & h3 & e & w2 & -> & _ & Hr).
    apply runs_to_bind in Hr as (h4 & h5 & [] & w3 & -> & _ & Hr).
    apply runs_read in Hr as (w4 & h6 & _ & -> & Hr). by apply runs_ret in Hr as (-> & -> & ->).
Qed.

Lemma create_runs spec w h r w' :
  runs_to rely (ProcessCreate spec) w h r w' → create_spec spec w w' h r.
Proof.
  intros Hr. pose proof (runs_evolves _ _ _ _ _ (obeys_create spec) Hr) as [_ Hev].
  unfold ProcessCreate in Hr. destruct (missing_argument spec) eqn:Hm.
  { apply runs_ret in Hr as (-> & -> & ->). simpl. split; [constructor|]. naive_solver. }
  apply runs_ask in Hr as (w1 & lg & h1 & _ & _ & -> & Hr).
  destruct lg as [lg|e]; cycle 1.
  { apply runs_ret in Hr as (-> & -> & ->). simpl. split; [by repeat constructor|]. naive_solver. }
  apply runs_ask in Hr as (w2 & [p u] & h2 & _ & (Hp & _ & Hu) & -> & Hr). simpl in *.
  apply runs_atomic in Hr as (w3 & h3 & HR & -> & Hr). apply rely_evolves in HR.
  repeat (apply Forall_cons in Hev as [(?&?&?) Hev]). simpl in *. subst p.
  destruct (new_stays w2 w3 _ HR) as [Hl3 (Hn & Hb & _)%ev_id].
  destruct (registerProcess _ w3) as [[e|] w4] eqn:Hreg; simpl in *.
  - apply runs_update in Hr as (w5 & h4 & _ & -> & (-> & -> & ->)%runs_ret).
    apply register_error in Hreg as [Hs He]. simpl. split; [by repeat constructor|].
    do 2 right. rewrite Hn in He. simpl in He. destruct He as [[? ->]|[? ?]].
    + left. split; [|done]. by apply saw_cons, saw_cons, saw_here.
    + right. eexists. by apply saw_cons, saw_cons, saw_here.
  - apply create_tail in Hr as [Hs ->]. simpl.
    destruct (new_stays w2 w' _ ltac:(eassumption)) as [Hl Hq%ev_id].
    apply register_new in Hreg as (Hf & q & b & _ & Hmap & _ & _); [|done].
    rewrite Hn in Hf, Hmap. simpl in *. destruct Hq as (-> & -> & _ & _ & -> & _).
    assert (heap_evolves w w2) as [Hl2 _] by done.
    exists (length (heap w2)). split_and!; [exact Hl2|done| |done..|].
    + by do 2 (apply sets_cons; [done|]); apply sets_here.
    + by apply (fresh_uuid w w2).
Qed.

(** C6: [ProcessCreate] is atomic on the map of processes, whatever runs beside
    it. When it succeeds, exactly one of its actions changes the map: at that
    moment the name was free, and it becomes the name of a process that this
    call made, with the binary of the request and a UUID that no process had
    when the call came; the reply describes that process. When it fails, it has
    not changed the map: an argument is missing, the log file could not be
    opened, the name was taken at some moment of the call, or the ports could
    not be allocated, each with its own error. *)
Theorem ProcessCreate_atomic spec w h r w' :
  runs_to rely (ProcessCreate spec) w h r w' → create_spec spec w w' h r.
Proof. apply create_runs. Qed.

(** ** [ProcessDelete] *)

(** A process under deletion: it is not starting nor running, and unless it
    had ended by itself its deletion is dated. *)
Definition asked_to_stop (q : Process) : Prop :=
  PState q ≠ StateStarting ∧ PState q ≠ StateRunning ∧
  (PState q = StateStopping → is_Some (DeletionTimestamp q)).

(** The process [p] registered under [name] that the call found. *)
Definition found (name : string) (p : nat) (a : World B) : Prop := processes a !! name = Some p.

Definition delete_spec (name uuid : string) (w w' : World B)
    (h : list (World B * World B)) (r : reply ProcessResponse) : Prop :=
  silent h ∧
  match r with
  | (Some resp, None) =>
      ∃ p, saw (found name p) h ∧ (uuid = "" ∨ UUID (proc w' p) = uuid) ∧
        (∃ x, x ∈ h ∧ asked_to_stop (proc x.2 p)) ∧
        Deleted resp = true ∧ SName (Spec resp) = name ∧ StUuid (Status resp) = UUID (proc w' p) ∧
        saw (λ a, resp = mark_deleted true (RPCResponse (proc a p))) h
  | (None, Some e) =>
      (e = process_not_found name ∧ saw (λ a, processes a !! name = None) h) ∨
      (e = EStatus NotFound ("cannot find process " +:+ name +:+ " with UUID " +:+ uuid) ∧
       uuid ≠ "" ∧ ∃ p, saw (λ a, found name p a ∧ UUID (proc a p) ≠ uuid) h)
  | _ => False
  end.

Lemma stop_section_stops now q :
  dated q → asked_to_stop (stop_section now q).2.
Proof.
  unfold asked_to_stop, dated, stop_section. simpl.
  destruct (PState q) eqn:Hs; simpl; rewrite ?Hs; intros Hd; split_and!; eauto.
Qed.

(** [StopWithSignal] leaves the process stopping, unless it ended by itself. *)
Lemma stop_runs p signal w h u w' :
  (p < length (heap w))%nat → runs_to rely (StopWithSignal p signal) w h u w' →
  silent h ∧ heap_evolves w w' ∧ ∃ x, x ∈ h ∧ asked_to_stop (proc x.2 p).
Proof.
  intros Hp Hr. split_and!; [eapply silent_runs; [apply silent_stop|done]|
    eapply runs_evolves; [apply obeys_stop|done]|].
  unfold StopWithSignal in Hr.
  apply runs_ask in Hr as (w1 & now & h1 & ? & _ & -> & Hr).
  apply runs_atomic in Hr as (w2 & h2 & HR & -> & _). relies.
  eexists. split; [by right; left|]. simpl. rewrite proc_alter, decide_True.
  - by apply stop_section_stops, dated_at.
  - split; [done|]. apply (evolves_at w w2); [evolve|done].
Qed.

Lemma delete_runs name uuid w h r w' :
  runs_to rely (ProcessDelete name uuid) w h r w' → delete_spec name uuid w w' h r.
Proof.
  intros Hr. split.
  { eapply silent_runs; [|exact Hr].
    unfold ProcessDelete, findProcess, rpc_response, Stop. solve_silent. }
  unfold ProcessDelete in Hr.
  apply runs_read in Hr as (w1 & h1 & H1 & -> & Hr). relies.
  destruct (processes w1 !! name) as [p|] eqn:Hf; cycle 1.
  { apply runs_ret in Hr as (-> & -> & ->). left. split; [done|]. by apply saw_here. }
  destruct (sound_at w1 name p) as [Hp Hn]; [done..|].
  apply runs_read in Hr as (w2 & h2 & H2 & -> & Hr). relies.
  destruct (evolves_at w1 w2 p) as [Hp2 [(_ & _ & _ & _ & Hu2 & _) _ _ _]]; [done..|].
  case_bool_decide as Hu.
  { apply runs_ret in Hr as (-> & -> & ->). right. destruct Hu. split_and!; [done..|].
    exists p. apply saw_here. by rewrite <- Hu2. }
  apply runs_to_bind in Hr as (hs & h3 & [] & w3 & -> & Hs & Hr).
  apply stop_runs in Hs as (_ & Hev & Hs); [|done].
  apply runs_read in Hr as (w4 & h4 & H4 & -> & Hr). relies.
  apply runs_to_bind in Hr as (hu & h5 & [] & w5 & -> & Hw & (-> & -> & ->)%runs_ret).
  eapply runs_evolves in Hw as [Hw _]; [|apply obeys_unregister]. simpl.
  destruct (evolves_at w1 w4 p) as [Hp4 [(Hn4 & _ & _ & _ & Hu4 & _) _ _ _]]; [evolve|done|].
  destruct (evolves_at w4 w5 p) as [_ [(_ & _ & _ & _ & Hu5 & _) _ _ _]]; [evolve|done|].
  exists p. split_and!; [by apply saw_here| |..].
  - destruct (decide (uuid = "")); [by left|right].
    apply dec_stable. intros ?. apply Hu. split; [done|congruence].
  - destruct Hs as (x & Hx & ?). exists x. split; [|done].
    do 2 right. apply elem_of_app. by left.
  - done.
  - by rewrite Hn4.
  - done.
  - by apply saw_cons, saw_cons, saw_app, saw_here.
Qed.

(** C8: [ProcessDelete] among other calls. It never changes the map itself (the
    goroutine it starts does, when the process has stopped). When it succeeds,
    it had found a process registered under the name, with the UUID of the
    request if there is one; that process was asked to stop: right after one of
    the actions of the call it was neither starting nor running, and dated; and
    the reply describes it, marked deleted. It fails only with [NotFound]: the
    name was absent at some moment, or held by a process with another UUID. *)
Theorem ProcessDelete_atomic name uuid w h r w' :
  runs_to rely (ProcessDelete name uuid) w h r w' → delete_spec name uuid w w' h r.
Proof. apply delete_runs. Qed.

(** ** [ProcessGet] and [ProcessList] *)

Definition get_spec (name : string) (w' : World B) (h : list (World B * World B))
    (r : reply ProcessResponse) : Prop :=
  silent h ∧
  match r with
  | (Some resp, None) =>
      SName (Spec resp) = name ∧
      ∃ p, saw (found name p) h ∧ resp = RPCResponse (proc w' p)
  | (None, Some e) => e = process_not_found name ∧ saw (λ a, processes a !! name = None) h
  | _ => False
  end.

Lemma get_runs name w h r w' :
  runs_to rely (ProcessGet name) w h r w' → get_spec name w' h r.
Proof.
  intros Hr. split.
  { eapply silent_runs; [|exact Hr].
    unfold ProcessGet, findProcess, rpc_response. solve_silent. }
  unfold ProcessGet in Hr.
  apply runs_read in Hr as (w1 & h1 & H1 & -> & Hr). relies.
  destruct (processes w1 !! name) as [p|] eqn:Hf; cycle 1.
  { apply runs_ret in Hr as (-> & -> & ->). split; [done|]. by apply saw_here. }
  destruct (sound_at w1 name p) as [Hp Hn]; [done..|].
  apply runs_read in Hr as (w2 & h2 & H2 & -> & (-> & -> & ->)%runs_ret). relies.
  destruct (evolves_at w1 w2 p) as [_ [(Hn2 & _) _ _ _]]; [done..|].
  simpl. split; [by rewrite Hn2|]. exists p. split; [by apply saw_here|done].
Qed.

(** [ProcessGet] answers with the state of a process that was registered
    under the name at some moment of the call, as that process is when the call
    returns; it fails only with [NotFound], when at some moment of the call no
    process was. *)
Theorem ProcessGet_atomic name w h r w' :
  runs_to rely (ProcessGet name) w h r w' → get_spec name w' h r.
Proof. apply get_runs. Qed.

(** The replies of the processes ranged over, added to those of [m]: each is
    the state of its process at some moment of the call, under its name. *)
Lemma list_runs l m w h m' w' :
  runs_to rely (list_responses l m) w h m' w' →
  (∀ n p, (n, p) ∈ l → (p < length (heap w))%nat ∧ Name (proc w p) = n) →
  ∀ n, match m' !! n with
       | Some resp =>
           (m !! n = Some resp ∨
            ∃ p, (n, p) ∈ l ∧ saw (λ a, resp = RPCResponse (proc a p)) h)
       | None => m !! n = None ∧ n ∉ l.*1
       end.
Proof.
  revert m w h. induction l as [|[n0 p0] l IH]; intros m w h Hr Hl n; cbn [list_responses] in Hr.
  - apply runs_ret in Hr as (-> & -> & ->). simpl.
    destruct (m !! n); [by left|split; [done|]]. apply not_elem_of_nil.
  - apply runs_read in Hr as (w1 & h1 & H1 & -> & Hr). relies.
    assert (∀ n p, (n, p) ∈ l → (p < length (heap w1))%nat ∧ Name (proc w1 p) = n) as Hl1.
    { intros n' p Hp. destruct (Hl n' p) as [Hlt <-]; [by right|].
      destruct (evolves_at w w1 p) as [? [(-> & _) _ _ _]]; done. }
    destruct (Hl n0 p0) as [Hlt Hn0]; [by left|].
    destruct (evolves_at w w1 p0) as [? [(Hn1 & _) _ _ _]]; [done..|].
    specialize (IH _ _ _ Hr Hl1 n). destruct (m' !! n) as [resp|].
    + destruct IH as [Hm|(p & Hp & Hs)]; cycle 1.
      { right. exists p. split; [by right|by apply saw_cons]. }
      apply lookup_insert_Some in Hm as [[<- <-]|[_ Hm]]; [|by left].
      right. exists p0. split; [|by apply saw_here]. simpl. rewrite Hn1, Hn0. by left.
    + destruct IH as [[Hm Hne]%lookup_insert_None Hnl]. split; [done|].
      simpl in *. rewrite Hn1, Hn0 in Hne. apply not_elem_of_cons. done.
Qed.

Definition list_spec (w : World B) (h : list (World B * World B))
    (r : reply (gmap string ProcessResponse)) : Prop :=
  silent h ∧
  match r with
  | (Some m, None) =>
      saw (λ a, dom m = dom (processes a) ∧
        ∀ n resp, m !! n = Some resp → SName (Spec resp) = n ∧
          ∃ p, processes a !! n = Some p ∧ saw (λ a', resp = RPCResponse (proc a' p)) h) h
  | _ => False
  end.

Lemma list_call_runs w h r w' :
  runs_to rely ProcessList w h r w' → list_spec w h r.
Proof.
  intros Hr. split.
  { eapply silent_runs; [|exact Hr]. unfold ProcessList. solve_silent. apply silent_list. }
  unfold ProcessList in Hr.
  apply runs_ask in Hr as (w1 & l & h1 & H1 & Hl & -> & Hr). relies. simpl in Hl.
  apply runs_to_bind in Hr as (h2 & h3 & m & w2 & -> & Hm & (-> & -> & ->)%runs_ret).
  assert (∀ n p, (n, p) ∈ l ↔ processes w1 !! n = Some p) as Hlm.
  { intros n p. by rewrite Hl, elem_of_map_to_list. }
  pose proof (list_runs _ _ _ _ _ _ Hm) as Hx. simpl in Hx.
  assert (∀ n, match m !! n with
               | Some resp => ∃ p, processes w1 !! n = Some p ∧
                   saw (λ a, resp = RPCResponse (proc a p)) h2 ∧ SName (Spec resp) = n
               | None => processes w1 !! n = None
               end) as Hlist.
  { intros n. specialize (Hx ltac:(intros ?? ?%Hlm; by apply sound_at) n).
    destruct (m !! n) as [resp|].
    - destruct Hx as [?|(p & Hp%Hlm & Hs)]; [done|]. exists p. split_and!; [done..|].
      destruct Hs as ([a b] & Hab & ->). simpl.
      destruct (sound_at w1 n p) as [Hlt <-]; [done..|].
      eapply runs_evolves in Hm as [_ Hev]; [|apply obeys_list].
      rewrite Forall_forall in Hev. destruct (Hev _ Hab) as (Hwa & _).
      by destruct (evolves_at w1 a p Hwa Hlt) as [_ [(-> & _) _ _ _]].
    - destruct Hx as [_ Hn]. destruct (processes w1 !! n) as [p|] eqn:Hp; [|done].
      apply Hlm in Hp. destruct Hn. by apply (list_elem_of_fmap_2 fst) in Hp. }
  simpl. rewrite app_nil_r. apply saw_here. split.
  - apply set_eq. intros n. rewrite !elem_of_dom. specialize (Hlist n).
    destruct (m !! n); [naive_solver eauto|]. rewrite Hlist. done.
  - intros n resp Hn. specialize (Hlist n). rewrite Hn in Hlist.
    destruct Hlist as (p & ? & ? & ?). split; [done|]. exists p. split; [done|by apply saw_cons].
Qed.

(** C9: [ProcessList] never fails, and lists exactly the names that were
    registered at one moment of the call, whatever happens during it; the
    response under a name is that of the process which had the name at that
    moment, as it was at some moment of the call. *)
Theorem ProcessList_atomic w h r w' :
  runs_to rely ProcessList w h r w' → list_spec w h r.
Proof. apply list_call_runs. Qed.

(** ** [ProcessReplace] *)

Definition replace_error (spec : ProcessSpec) (sig : string)
    (h : list (World B * World B)) (e : error) : Prop :=
  let name := SName spec in
  (h = [] ∧ (missing_argument spec = true ∧ e = invalid_argument "missing required argument" ∨
     missing_argument spec = false ∧ sig ≠ "SIGHUP" ∧
     e = invalid_argument ("doesn't support terminate signal " +:+ sig))) ∨
  (missing_argument spec = false ∧ length h = 1%nat) ∨
  (e = EStatus NotFound ("existing process " +:+ name +:+ " doesn't exists") ∧
   saw (λ a, processes a !! name = None) h) ∨
  (∃ p, saw (λ a, is_Some (processes a !! name) ∧ Name (proc a p) = name ∧
          (allocateProcessPorts (proc a p) (availablePorts a)).1.1 = Some e) h) ∨
  e = EPlain ("failed to init replacement process " +:+ name) ∨
  e = EPlain ("failed to start replacement process " +:+ name) ∨
  (e = EStatus AlreadyExists ("process " +:+ name +:+ " to replace has changed in the meantime") ∧
   ∃ old q, saw (found name old) h ∧ saw (found name q) h ∧ q ≠ old).

(** Like [sets_once], and before that action the call left a state that
    satisfies [before]. *)
Definition sets_after (before : World B → Prop) (name : string) (p : nat)
    (now : World B → Prop) (h : list (World B * World B)) : Prop :=
  ∃ h1 h2 a b, h = h1 ++ (a, b) :: h2 ∧ silent h1 ∧ silent h2 ∧
    (∃ x, x ∈ h1 ∧ before x.2) ∧ now a ∧ processes b = <[name := p]> (processes a).

Lemma sets_after_later before name p now h1 h :
  silent h1 → sets_after before name p now h → sets_after before name p now (h1 ++ h).
Proof.
  intros H1 (h2 & h3 & a & b & -> & H2 & H3 & (x & Hx & ?) & ?). exists (h1 ++ h2), h3, a, b.
  rewrite <- app_assoc. split_and!; [done|by apply Forall_app|done| |naive_solver..].
  exists x. split; [apply elem_of_app; by right|done].
Qed.

Lemma sets_after_cons before name p now a b h :
  same_registry a b → sets_after before name p now h → sets_after before name p now ((a, b) :: h).
Proof. intros. apply (sets_after_later _ _ _ _ [(a, b)]); [by repeat constructor|done]. Qed.

Lemma sets_after_app before name p now h1 h :
  silent h1 → (∃ x, x ∈ h1 ∧ before x.2) → sets_once name p now h →
  sets_after before name p now (h1 ++ h).
Proof.
  intros Hs (x & Hx & ?) (h2 & h3 & a & b & -> & H2 & H3 & ? & ?). exists (h1 ++ h2), h3, a, b.
  rewrite <- app_assoc. split_and!; [done|by apply Forall_app|done| |done..].
  exists x. split; [apply elem_of_app; by left|done].
Qed.

Definition replace_spec (spec : ProcessSpec) (sig : string) (w w' : World B)
    (h : list (World B * World B)) (r : reply ProcessResponse) : Prop :=
  match r with
  | (Some resp, None) =>
      SName (Spec resp) = SName spec ∧ SBinary (Spec resp) = SBinary spec ∧
      ∃ old, saw (found (SName spec) old) h ∧
        if decide (Binary (proc w' old) = SBinary spec) then
          silent h ∧ resp = RPCResponse (proc w' old)
        else
          ∃ p, (length (heap w) ≤ p < length (heap w'))%nat ∧
            sets_after (λ a, asked_to_stop (proc a old)) (SName spec) p
              (λ a, processes a !! SName spec = None ∨ processes a !! SName spec = Some old) h ∧
            resp = RPCResponse (proc w' p) ∧ Forall (λ q, UUID q ≠ StUuid (Status resp)) (heap w)
  | (None, Some e) => silent h ∧ replace_error spec sig h e
  | _ => False
  end.

Lemma init_replace_result p (w : World B) :
  let name := Name (proc w p) in
  processes (initProcessReplace p w).2 = processes w ∧
  match (initProcessReplace p w).1 with
  | Ok old => processes w !! name = Some old
  | Err e =>
      (processes w !! name = None ∧
       e = EStatus NotFound ("existing process " +:+ name +:+ " doesn't exists")) ∨
      (is_Some (processes w !! name) ∧
       (allocateProcessPorts (proc w p) (availablePorts w)).1.1 = Some e)
  end.
Proof.
  unfold initProcessReplace. simpl. case_match; [|by simpl; eauto].
  unfold alloc_step. destruct (allocateProcessPorts _ _) as [[[x|] q] b]; simpl; [|done].
  split; [done|]. right. eauto.
Qed.

Lemma replace_section_result p old (w : World B) :
  sound w → (old < length (heap w))%nat →
  let name := Name (proc w p) in
  if (replace_section p old w).1 then
    processes (replace_section p old w).2 = <[name := p]> (processes w) ∧
    (processes w !! name = None ∨ processes w !! name = Some old)
  else
    (replace_section p old w).2 = w ∧ ∃ q, processes w !! name = Some q ∧ q ≠ old.
Proof.
  intros Hs Ho. unfold replace_section. simpl.
  destruct (processes w !! Name (proc w p)) as [q|] eqn:Hq; simpl; [|by eauto].
  case_bool_decide as Hu; simpl.
  - split; [done|]. right. f_equal. apply (uuid_eq w); [done| |done|done].
    by apply (sound_at w (Name (proc w p))).
  - split; [done|]. exists q. split; [done|]. by intros ->.
Qed.

(** The replacement [p] of [old], from its start on. *)
Lemma replace_with_runs p old name w h r w' :
  sound w → (p < length (heap w))%nat → (old < length (heap w))%nat → Name (proc w p) = name →
  runs_to rely (replace_with p old name) w h r w' →
  match r with
  | (Some resp, None) =>
      resp = RPCResponse (proc w' p) ∧
      sets_after (λ a, asked_to_stop (proc a old)) name p
        (λ a, processes a !! name = None ∨ processes a !! name = Some old) h
  | (None, Some e) =>
      silent h ∧
      (e = EPlain ("failed to init replacement process " +:+ name) ∨
       e = EPlain ("failed to start replacement process " +:+ name) ∨
       e = EStatus AlreadyExists ("process " +:+ name +:+ " to replace has changed in the meantime") ∧
       ∃ q, saw (found name q) h ∧ q ≠ old)
  | _ => False
  end.
Proof.
  intros Hs Hp Ho Hn Hr. unfold replace_with in Hr.
  apply runs_to_bind in Hr as (h1 & h2 & e & w1 & -> & H1 & Hr).
  pose proof (silent_runs _ _ _ _ _ (silent_start p) H1) as Hs1.
  apply runs_evolves in H1 as [He1 _]; [|apply obeys_start].
  destruct e as [e|].
  { apply runs_to_bind in Hr as (h3 & h4 & u & w2 & -> & H2 & (-> & -> & ->)%runs_ret).
    apply silent_runs in H2; [|apply silent_cleanup].
    split; [by repeat apply Forall_app_2|by left]. }
  apply runs_to_bind in Hr as (h3 & h4 & alive & w2 & -> & H2 & Hr).
  pose proof (silent_runs _ _ _ _ _ (silent_wait_replacement 30 p) H2) as Hs2.
  apply runs_evolves in H2 as [He2 _]; [|apply obeys_wait_replacement].
  destruct alive; cbn [negb] in Hr; cycle 1.
  { apply runs_to_bind in Hr as (h5 & h6 & u & w3 & -> & H3 & (-> & -> & ->)%runs_ret).
    apply silent_runs in H3; [|apply silent_cleanup].
    split; [by repeat apply Forall_app_2|by right; left]. }
  apply runs_to_bind in Hr as (h5 & h6 & [] & w3 & -> & H3 & Hr).
  apply stop_runs in H3 as (Hs3 & He3 & x & Hx & Hst); [|apply (evolves_at w w2); [evolve|done]].
  apply runs_atomic in Hr as (w4 & h7 & H4 & -> & Hr). relies.
  destruct (evolves_at w w4 p) as [Hp4 [(Hn4 & _) _ _ _]]; [evolve|done|].
  pose proof (replace_section_result p old w4 ltac:(done)) as Hrep.
  specialize (Hrep ltac:(by apply (evolves_at w w4); [evolve|])). cbv zeta in Hrep.
  rewrite Hn4, Hn in Hrep.
  destruct (replace_section p old w4) as [[] w5]; cbn [fst snd] in Hr, Hrep.
  - apply runs_to_bind in Hr as (h8 & h9 & [] & w6 & -> & Hsend & Hr).
    apply silent_runs in Hsend; [|apply silent_send].
    apply runs_read in Hr as (w7 & h10 & _ & -> & (-> & -> & ->)%runs_ret).
    destruct Hrep as [Hmap Hnow]. split; [done|].
    do 2 (apply sets_after_later; [done|]). apply sets_after_app; [done|by eauto|].
    apply sets_here; [done..|]. apply Forall_app_2; [done|]. by repeat constructor.
  - apply runs_to_bind in Hr as (h8 & h9 & u & w6 & -> & H6 & (-> & -> & ->)%runs_ret).
    apply silent_runs in H6; [|apply silent_cleanup]. destruct Hrep as [-> (q & Hq & Hne)].
    split.
    + do 3 (apply Forall_app_2; [done|]). constructor; [done|]. by rewrite app_nil_r.
    + do 2 right. split; [done|]. exists q. split; [|done].
      do 3 apply saw_app. by apply saw_here.
Qed.

Lemma replace_runs spec sig w h r w' :
  runs_to rely (ProcessReplace spec sig) w h r w' → replace_spec spec sig w w' h r.
Proof.
  intros Hr. pose proof (runs_evolves _ _ _ _ _ (obeys_replace spec sig) Hr) as [_ Hev].
  unfold ProcessReplace in Hr. destruct (missing_argument spec) eqn:Hm.
  { apply runs_ret in Hr as (-> & -> & ->). split; [constructor|]. unfold replace_error. eauto. }
  case_bool_decide as Hsig.
  { apply runs_ret in Hr as (-> & -> & ->). split; [constructor|]. left. eauto. }
  apply runs_ask in Hr as (w1 & lg & h1 & _ & _ & -> & Hr).
  destruct lg as [lg|e]; cycle 1.
  { apply runs_ret in Hr as (-> & -> & ->). split; [by repeat constructor|]. right; left. done. }
  apply runs_ask in Hr as (w2 & [p u] & h2 & _ & (Hp & _ & Hu) & -> & Hr). simpl in *.
  apply runs_atomic in Hr as (w3 & h3 & HR & -> & Hr). relies.
  repeat (apply Forall_cons in Hev as [(?&?&?) Hev]). simpl in *. subst p.
  destruct (new_stays w2 w3 _ ltac:(done)) as [Hl3 (Hn & _)%ev_id].
  destruct (new_stays w2 w' _ ltac:(done)) as [Hl (Hn' & Hb' & _ & _ & Hu' & _)%ev_id].
  destruct (init_replace_result (length (heap w2)) w3) as [Hmap Hres]. rewrite Hn in Hres.
  destruct (initProcessReplace _ w3) as [[old|e] w4]; simpl in *; cycle 1.
  { apply runs_update in Hr as (w5 & h4 & _ & -> & (-> & -> & ->)%runs_ret).
    split; [by repeat constructor|]. do 2 right. destruct Hres as [[? ->]|[? ?]].
    - left. split; [done|]. by apply saw_cons, saw_cons, saw_here.
    - right. left. eexists. by apply saw_cons, saw_cons, saw_here. }
  destruct (sound_at w3 (SName spec) old) as [Ho Hno]; [done..|].
  apply runs_read in Hr as (w5 & h4 & HR5 & -> & Hr). relies.
  repeat (apply Forall_cons in Hev as [(?&?&?) Hev]). simpl in *.
  destruct (evolves_at w3 w5 old) as [Ho5 [(_ & Hbo & _) _ _ _]]; [evolve|done|].
  destruct (evolves_at w3 w' old) as [Ho' [(Hno' & Hbo' & _) _ _ _]]; [evolve|done|].
  assert (saw (found (SName spec) old) ((w1, env_upd (ENewLonghornWriter (SName spec)) (Ok lg) w1)
    :: (w2, env_upd (ENewProcess (λ u, new_process spec u lg)) (length (heap w2), u) w2)
    :: (w3, w4) :: (w5, w5) :: h4)) as Hsaw by by apply saw_cons, saw_cons, saw_here.
  case_bool_decide as Hbin.
  - apply runs_update in Hr as (w6 & h5 & _ & -> & Hr).
    apply runs_update in Hr as (w7 & h6 & _ & -> & Hr).
    apply runs_read in Hr as (w8 & h7 & _ & -> & (-> & -> & ->)%runs_ret). simpl.
    rewrite Hno', Hno, Hbo', <- Hbo, Hbin. split_and!; [done..|].
    exists old. split; [exact Hsaw|]. rewrite decide_True by congruence.
    split; [|done]. by repeat constructor.
  - apply replace_with_runs in Hr; [|done|..]; cycle 1.
    { apply (evolves_at w3 w5); [evolve|done]. }
    { done. }
    { destruct (evolves_at w3 w5 (length (heap w2))) as [_ [(-> & _) _ _ _]]; [evolve|done..]. }
    destruct r as [[resp|] [e|]]; try done; simpl.
    + destruct Hr as [-> Hsets]. simpl. rewrite Hn', Hb'. split_and!; [done..|].
      exists old. split; [exact Hsaw|]. rewrite decide_False by congruence.
      assert (heap_evolves w w2) as [Hl2 _] by done.
      exists (length (heap w2)). split_and!; [exact Hl2|done| |done|].
      * by do 4 (apply sets_after_cons; [done|]).
      * rewrite Hu'. by apply (fresh_uuid w w2).
    + destruct Hr as [Hs He]. split; [by repeat constructor|].
      do 4 right. destruct He as [->|[->|(-> & q & Hq & Hne)]]; [by left|by right; left|].
      right; right. split; [done|]. exists old, q. split_and!; [exact Hsaw| |done].
      by do 4 apply saw_cons.
Qed.

(** C7: [ProcessReplace] among other calls. When it succeeds, it had found a
    process under the name. If that process has the binary of the request,
    nothing of the map changes and the reply describes that process. Otherwise
    exactly one action of the call changes the map, and it comes after one that
    left the process found asked to stop: the name, which at that moment was
    free or still held the process found, goes to a process that this call made,
    with the binary of the request and a UUID no process had. A call that fails has not changed the map:
    a bad argument, no log file, the name free at some moment, no ports, a
    replacement that does not start or ends at once, or the name held by two
    processes in turn during the call. *)
Theorem ProcessReplace_atomic spec sig w h r w' :
  runs_to rely (ProcessReplace spec sig) w h r w' → replace_spec spec sig w w' h r.
Proof. apply replace_runs. Qed.
End linear.

(** ** Calls of the running system *)

Lemma reachable_sound `{PortAllocatorLaws B} sha (b : B) c :
  alloc_wf b → free_ports b = all_ports b →
  reachable (manager sha) (NewManager b) c → sound c.2.
Proof.
  intros Hwf Hfree Hr. destruct c as [ts w].
  destruct (reachable_inv sha (all_ports b) b _ Hwf eq_refl Hfree Hr) as (hs & _ & _ & Hi).
  pose proof (manager_steps sha b _ _ Hr (rtc_refl _ _)) as [Ht _]. simpl in *. split_and!.
  - intros n p Hn. by destruct (inv_map _ _ _ Hi n p Hn) as (? & ? & _).
  - apply NoDup_alt. intros i j u.
    rewrite !list_lookup_fmap. intros (x & Hx & ->)%fmap_Some (y & Hy & Hu)%fmap_Some.
    apply (inv_uuid _ _ _ Hi); [by eapply lookup_lt_Some..|]. unfold proc.
    by rewrite !list_lookup_total_alt, Hx, Hy.
  - apply Forall_lookup. intros p q Hq.
    pose proof (transitions_dated _ _ Ht ltac:(by intros []) p) as Hd. unfold proc in Hd.
    by rewrite list_lookup_total_alt, Hq in Hd.
Qed.

(** The actions of an execution from a reachable state are moves of [rely]. *)
Lemma trace_rely `{PortAllocatorLaws B} sha (b : B) c tr c' :
  alloc_wf b → free_ports b = all_ports b →
  reachable (manager sha) (NewManager b) c → trace (manager sha) c tr c' →
  Forall (λ x, rely x.2.1 x.2.2 ∧ sound x.2.2) tr.
Proof.
  intros Hwf Hfree Hr Ht. revert Hr.
  induction Ht as [|ts i p w p' w' new tr c Hi Hs _ IH|ts i d w tr c Hd Hi Ha _ IH
    |ts w p tr c Hp _ IH]; intros Hr.
  - constructor.
  - assert (step (manager sha) (ts, w) (<[i:=p']> ts ++ new, w')) as Hst by by econstructor.
    assert (reachable (manager sha) (NewManager b) (<[i:=p']> ts ++ new, w')) as Hr'
      by by eapply rtc_r.
    pose proof (reachable_sound sha b _ Hwf Hfree Hr') as Hsw. simpl in Hsw.
    constructor; [|by apply IH]. split; [|done]. split; [|done].
    by destruct (manager_steps sha b _ _ Hr (rtc_once _ _ Hst)) as [_ ?].
  - apply IH. eapply rtc_r; [done|]. by constructor.
  - apply IH. eapply rtc_r; [done|]. by constructor.
Qed.

(** The calls of the handlers, and what is specified of each. *)
Inductive call : Type → Type :=
  | CCreate (spec : ProcessSpec) : call (reply ProcessResponse)
  | CDelete (name uuid : string) : call (reply ProcessResponse)
  | CGet (name : string) : call (reply ProcessResponse)
  | CList : call (reply (gmap string ProcessResponse))
  | CReplace (spec : ProcessSpec) (terminateSignal : string) : call (reply ProcessResponse).

Definition handler `{PortAllocator B} {A : Type} (k : call A) : prog (World B) sysE A :=
  match k with
  | CCreate spec => ProcessCreate spec
  | CDelete name uuid => ProcessDelete name uuid
  | CGet name => ProcessGet name
  | CList => ProcessList
  | CReplace spec sig => ProcessReplace spec sig
  end.

Definition call_spec `{PortAllocator B} {A : Type} (k : call A) (w w' : World B)
    (h : list (World B * World B)) : A → Prop :=
  match k in call A return A → Prop with
  | CCreate spec => create_spec spec w w' h
  | CDelete name uuid => delete_spec name uuid w w' h
  | CGet name => get_spec name w' h
  | CList => list_spec w h
  | CReplace spec sig => replace_spec spec sig w w' h
  end.

Lemma call_runs `{PortAllocator B} {A : Type} (k : call A) (w w' : World B) h r :
  runs_to rely (handler k) w h r w' → call_spec k w w' h r.
Proof.
  destruct k; [apply create_runs|apply delete_runs|apply get_runs|apply list_call_runs|
    apply replace_runs].
Qed.

(** C5: the calls of the running system are atomic. In any execution from any
    reachable configuration, with any other calls, goroutines and turns of the
    manager's loops interleaved, a call that was there at the start and has
    returned at the end did on the map of processes what is specified of it, by
    exactly the actions that its goroutine made in this execution: a creation
    added its process under a name that was free at that moment, or failed and
    changed nothing; a replacement put its process in the place of the one it had
    found and asked to stop, or changed nothing; the other calls changed nothing;
    and each reply is about a process that had the name at some moment of the
    call. *)
Theorem calls_atomic `{PortAllocatorLaws B} sha (b : B) {A : Type} (k : call A) c tr c' i :
  alloc_wf b → free_ports b = all_ports b →
  reachable (manager sha) (NewManager b) c → trace (manager sha) c tr c' → (3 ≤ i)%nat →
  c.1 !! i = Some (handler k;; mret tt) → c'.1 !! i = Some (mret tt) →
  ∃ r w', call_spec k c.2 w' (actions i tr) r.
Proof.
  intros Hwf Hfree Hr Ht Hi Hc He.
  destruct (adequacy (manager sha) sound rely c tr c' i (handler k)) as (r & w' & Hrun);
    [| |done|by apply lookup_ge_None|by eapply reachable_sound|by eapply trace_rely|done|done|].
  - intros w Hw. by split.
  - intros w1 w2 w3 [H1 _] [H2 Hs]. split; [by etrans|done].
  - exists r, w'. by apply call_runs.
Qed.

(** ** Concrete runs *)

(** The monitor has received all updates, and [stream] all broadcasts. *)
Definition drain (w : World Bitmap) : World Bitmap :=
  set_channels (λ c, with_updates [] (sent w)
    (with_broadcasts [] (streamed c ++ broadcasts c) c)) w.

Definition sound_b (w : World Bitmap) : bool := bool_decide (sound (drain w)).

Lemma drain_rely w : sound_b w = true → rely w (drain w).
Proof.
  intros Hw%bool_decide_eq_true_1. split; [|done]. apply rtc_once, t_other; [done..|].
  unfold chans_grow, broadcast, sent at 2. simpl. rewrite length_app.
  split_and!; [lia|lia|auto..].
Qed.

(** A run beside the monitor only, computed, with a decidable property. *)
Lemma solo_witness {A : Type} (p : prog (World Bitmap) sysE A) w ans
    (f : A → World Bitmap → bool) :
  match solo sound_b drain p w ans with Some (a, _, w') => f a w' | None => false end = true →
  ∃ a h w', runs_to rely p w h a w' ∧ f a w' = true.
Proof.
  destruct (solo _ _ p w ans) as [[[a h] w']|] eqn:Hs; [|done]. intros Hf. exists a, h, w'.
  split; [|done]. by eapply (solo_runs rely sound_b drain); [apply drain_rely|].
Qed.

(** The answers for the creation of the replica. *)
Definition create_answers : list answer :=
  [AOk; AStr "u0"; AUnit; AUnit; AUnit; AUnit; AStr "/longhorn"; AStr "/longhorn";
   AUnit; AUnit; AUnit; AUnit; AUnit].

(** The state in which the replica process has been created. *)
Definition with_replica : World Bitmap :=
  match solo sound_b drain (ProcessCreate replica_spec) run0 create_answers with
  | Some (_, _, w') => w'
  | None => run0
  end.

Theorem ProcessCreate_atomic_witness :
  ∃ h r w', runs_to rely (ProcessCreate replica_spec) run0 h r w' ∧ is_Some r.1 ∧
    create_spec replica_spec run0 w' h r.
Proof.
  destruct (solo_witness (ProcessCreate replica_spec) run0 create_answers (λ r _, bool_decide (is_Some r.1)))
    as (r & h & w' & Hr & Hf); [by vm_compute|].
  exists h, r, w'. split; [done|]. split; [by apply bool_decide_eq_true_1 in Hf|].
  by apply ProcessCreate_atomic.
Defined.

Theorem ProcessDelete_atomic_witness :
  ∃ h r w', runs_to rely (ProcessDelete "vol-r-0" "u0") with_replica h r w' ∧ is_Some r.1 ∧
    delete_spec "vol-r-0" "u0" with_replica w' h r.
Proof.
  destruct (solo_witness (ProcessDelete "vol-r-0" "u0") with_replica
    [AUnit; AUnit; AZ 5; AUnit; AUnit; AUnit; AUnit; AUnit; AUnit; AUnit; AUnit]
    (λ r _, bool_decide (is_Some r.1)))
    as (r & h & w' & Hr & Hf); [by vm_compute|].
  exists h, r, w'. split; [done|]. split; [by apply bool_decide_eq_true_1 in Hf|].
  by apply ProcessDelete_atomic.
Defined.

Theorem ProcessGet_atomic_witness :
  ∃ h r w', runs_to rely (ProcessGet "vol-r-0") with_replica h r w' ∧ is_Some r.1 ∧
    get_spec "vol-r-0" w' h r.
Proof.
  destruct (solo_witness (ProcessGet "vol-r-0") with_replica [AUnit; AUnit]
    (λ r _, bool_decide (is_Some r.1))) as (r & h & w' & Hr & Hf); [by vm_compute|].
  exists h, r, w'. split; [done|]. split; [by apply bool_decide_eq_true_1 in Hf|].
  by apply (ProcessGet_atomic _ with_replica).
Defined.

Theorem ProcessList_atomic_witness :
  ∃ h r w', runs_to rely ProcessList with_replica h r w' ∧
    dom <$> r.1 = Some {["vol-r-0"]} ∧ list_spec with_replica h r.
Proof.
  destruct (solo_witness ProcessList with_replica [AUnit; AUnit]
    (λ r _, bool_decide (dom <$> r.1 = Some {["vol-r-0"]})))
    as (r & h & w' & Hr & Hf); [by vm_compute|].
  exists h, r, w'. split; [done|]. split; [by apply bool_decide_eq_true_1 in Hf|].
  by apply (ProcessList_atomic with_replica h r w').
Defined.

(** A replacement with another binary. *)
Definition new_replica_spec : ProcessSpec :=
  {| SName := "vol-r-0"; SBinary := "/longhorn2"; SArgs := ["replica"]; SPortCount := 2;
     SPortArgs := [] |}.

Theorem ProcessReplace_atomic_witness :
  ∃ h r w', runs_to rely (ProcessReplace new_replica_spec "SIGHUP") with_replica h r w' ∧
    processes w' = {["vol-r-0" := 1%nat]} ∧
    replace_spec new_replica_spec "SIGHUP" with_replica w' h r.
Proof.
  destruct (solo_witness (ProcessReplace new_replica_spec "SIGHUP") with_replica
    ([AOk; AStr "u1"; AUnit; AUnit; AUnit; AStr "/longhorn2"; AStr "/longhorn2"; AUnit; AUnit;
      AUnit; AUnit] ++ replicate 30 AUnit ++
     [AZ 5; AUnit; AUnit; AUnit; AUnit; AUnit; AUnit; AUnit; AUnit; AUnit])
    (λ _ w, bool_decide (processes w = {["vol-r-0" := 1%nat]})))
    as (r & h & w' & Hr & Hf); [by vm_compute|].
  exists h, r, w'. split; [done|]. split; [by apply bool_decide_eq_true_1 in Hf|].
  by apply ProcessReplace_atomic.
Defined.

Theorem calls_atomic_witness :
  ∃ tr c' r w', trace (manager no_sha) (started (manager no_sha) run0) tr c' ∧
    is_Some (processes c'.2 !! "vol-r-0") ∧ create_spec replica_spec run0 w' (actions 3 tr) r.
Proof.
  set (sys := manager no_sha). set (p := ProcessCreate (B := Bitmap) replica_spec;; mret tt).
  set (c := ((started sys run0).1 ++ [p], run0) : conf Bitmap).
  assert (calls sys p) as Hc by (constructor; simpl; unfold in_int32; simpl; lia).
  assert (reachable sys run0 c) as Hr by by apply rtc_once, step_arrive.
  set (f := λ c' : conf Bitmap,
    match c'.1 !! 3%nat with Some (Ret _) => true | _ => false end &&
    bool_decide (is_Some (processes c'.2 !! "vol-r-0"))).
  assert (from_option f false (exec sys (tail (create_schedule 3 replica_spec "u0")) c) = true)
    as Hf by by vm_compute.
  destruct (exec sys (tail (create_schedule 3 replica_spec "u0")) c) as [c'|] eqn:Hx; [|done].
  apply andb_prop in Hf as [He Hp]. apply bool_decide_eq_true_1 in Hp.
  assert (c'.1 !! 3%nat = Some (mret tt)) as He'
    by by destruct (c'.1 !! 3%nat) as [[[]| | |]|].
  apply (exec_sound sys) in Hx; [|constructor]. apply trace_steps in Hx as [tr Ht].
  destruct (calls_atomic no_sha bitmap_100_105 (CCreate replica_spec) c tr c' 3) as (r & w' & Ho);
    [apply bitmap_100_105_wf|apply bitmap_all_free|done|done|lia|done|done|].
  exists tr, c', r, w'. split; [|done]. by apply (trace_arrive _ _ _ p).
Defined.
