(* ===== verification/ManagerLive.v ===== *)
(** * Every call of the process manager returns

    The channels of updates and of broadcasts are unbuffered: a send waits until
    the monitor, or [stream], receives. Apart from that no goroutine of the
    manager is ever stuck ([reachable_alive]): a send is on a channel that has
    been made, a command is started once and waited for while it runs, a new
    process can be given a fresh UUID. With [Progress.quiet_finite], when no more
    calls come every execution ends; then, as long as the context of the manager
    is not done, the three loops of the manager wait for work that there is not,
    every send has been received, every call has returned and every goroutine it
    started has ended ([calls_return]). *)
From S2P Require Import Prelude GoStrings Bitmap Sched Rely Progress Process Manager ManagerPorts ManagerSpec ManagerProps ManagerLinear.

#[local] Open Scope Z_scope.

(** A command its goroutine has not started yet ([false]), or waits for. *)
Abbreviation cmd_token := (nat * bool)%type (only parsing).

Section live.
Context {B : Type} `{PortAllocator B}.

(** The update channel of [p] has been made; [p] exists. Both stay true. *)
Definition chan (p : nat) (w : World B) : Prop := UpdateCh (proc w p) = true.
Definition here (p : nat) (w : World B) : Prop := (p < length (heap w))%nat.

(** Registered processes have their channel; the commands of the tokens are
    as the tokens say, and have not ended. *)
Record live_inv (w : World B) (h : gset cmd_token) : Prop := {
  li_chan : ∀ n p, processes w !! n = Some p → chan p w;
  li_cmd : ∀ c b, (c, b) ∈ h →
    (c < length (commands w))%nat ∧ CmdProcess (command w c) = b ∧
    CmdProcessState (command w c) = false;
}.

(** What stays true along the executions. *)
Definition later (w w' : World B) : Prop := heap_evolves w w' ∧ chans_grow w w'.

#[export] Instance later_preorder : PreOrder later.
Proof.
  split; [intros w; split; [done|by apply grows_same]|].
  intros w1 w2 w3 [H1 G1] [H2 G2]. split; [by etrans|by eapply grows_trans].
Qed.

Lemma later_same w w' : heap w' = heap w → channels w' = channels w → later w w'.
Proof. intros. split; [by apply heap_evolves_refl|by apply grows_same]. Qed.

(** A critical section leaves the channels as they are. *)
Lemma transition_grows w w' : transition w w' → chans_grow w w'.
Proof.
  intros []; try (by apply grows_same); [done|apply grows_same..].
  - unfold registerProcess, alloc_step. case_match; [done|].
    by destruct (allocateProcessPorts _ _) as [[[x|] q] b].
  - unfold initProcessReplace, alloc_step. case_match; [|done].
    by destruct (allocateProcessPorts _ _) as [[[x|] q] b].
  - unfold replace_section. by repeat case_match.
  - unfold unregister_section. by case_match.
Qed.

Lemma transition_later w w' : transition w w' → later w w'.
Proof. split; [by apply transition_evolves|by apply transition_grows]. Qed.

(** A call, or a goroutine that it started, waits until its update is received. *)
Definition waits (X : Type) (e : sysE X) (w : World B) : Prop :=
  match e with ESent t => (taken (channels w) ≤ t < sent w)%nat | _ => False end.

(** The loops of the manager: the condition check waits for a tick, and sends
    updates; the monitor waits for an update, and broadcasts it; [stream] waits
    for a broadcast. *)
Definition check_waits (X : Type) (e : sysE X) (w : World B) : Prop :=
  match e with
  | ETick => ticked (channels w) = false ∧ ctx_done (channels w) = false
  | _ => waits X e w
  end.
Definition monitor_waits (X : Type) (e : sysE X) (w : World B) : Prop :=
  match e with
  | ERecv => updates (channels w) = [] ∧ ctx_done (channels w) = false
  | EBroadcasted t => (length (streamed (channels w)) ≤ t < broadcast w)%nat
  | _ => False
  end.
Definition stream_waits (X : Type) (e : sysE X) (w : World B) : Prop :=
  match e with ERecvBroadcast => broadcasts (channels w) = [] | _ => False end.

Definition may_wait (i : nat) : ∀ X, sysE X → World B → Prop :=
  match i with
  | 0%nat => check_waits | 1%nat => monitor_waits | 2%nat => stream_waits | _ => waits
  end.

Abbreviation alive_at := (live (Ans := answer) live_inv later waits) (only parsing).
Abbreviation alive := (alive_at waits).

Definition lasting (K : World B → Prop) : Prop := ∀ w w', later w w' → K w → K w'.

Lemma chan_here p w : chan p w → here p w.
Proof.
  unfold chan, here, proc. rewrite list_lookup_total_alt.
  destruct (heap w !! p) eqn:Hp; [|done]. intros _. by eapply lookup_lt_Some.
Qed.

Lemma chan_lasting p : lasting (chan p).
Proof. intros w w' [[_ Hev] _] Hc. by apply Hev; [apply chan_here|]. Qed.

Lemma here_lasting p : lasting (here p).
Proof. unfold lasting, here. intros w w' [[Hl _] _] Hp. lia. Qed.

Lemma true_lasting : lasting (λ _, True).
Proof. done. Qed.

Lemma and_lasting K K' : lasting K → lasting K' → lasting (λ w, K w ∧ K' w).
Proof. intros HK HK' w w' He [? ?]. eauto. Qed.

(** ** Actions that keep the invariant *)

Definition keeps (w w' : World B) : Prop := ∀ h, live_inv w h → live_inv w' h.

(** The commands are there, as far started and ended as before. *)
Definition same_commands (w w' : World B) : Prop :=
  (length (commands w) ≤ length (commands w'))%nat ∧
  ∀ c, (c < length (commands w))%nat →
    CmdProcess (command w' c) = CmdProcess (command w c) ∧
    CmdProcessState (command w' c) = CmdProcessState (command w c).

Lemma keeps_intro w w' :
  processes w' ⊆ processes w → later w w' → same_commands w w' → keeps w w'.
Proof.
  intros Hm Hev [Hl Hc] h [H1 H2]. split.
  - intros n p Hn. eapply chan_lasting; [done|]. eapply H1. by eapply lookup_weaken.
  - intros c b Hb. destruct (H2 c b Hb) as (? & <- & <-). split; [lia|]. by apply Hc.
Qed.

Lemma same_commands_refl w w' : commands w' = commands w → same_commands w w'.
Proof. unfold same_commands, command. by intros ->. Qed.

Lemma same_commands_alter f c w :
  (∀ x, CmdProcess (f x) = CmdProcess x ∧ CmdProcessState (f x) = CmdProcessState x) →
  same_commands w (alter_cmd f c w).
Proof.
  intros Hf. split; [simpl; by rewrite length_alter|]. intros c' Hc'. unfold command. simpl.
  rewrite !list_lookup_total_alt. destruct (decide (c = c')) as [<-|Hne].
  - rewrite list_lookup_alter_eq. destruct (commands w !! c) eqn:Hx; [|done]. apply Hf.
  - by rewrite list_lookup_alter_ne.
Qed.

(** One action: what it does to the map and to the commands. *)
Lemma keeps_atomic w w' :
  transition w w' → processes w' = processes w → commands w' = commands w → keeps w w'.
Proof.
  intros Ht Hm Hc. apply keeps_intro; [by rewrite Hm|by apply transition_later|].
  by apply same_commands_refl.
Qed.

(** ** Programs that need no token and keep the invariant *)

(** [calm K p]: where the lasting [K] holds, [p] is never stuck and leaves
    the tokens as they are. *)
Definition calm (K : World B → Prop) {A : Type} (p : prog (World B) sysE A) : Prop :=
  ∀ Q h w, K w → (∀ a w', later w w' → Q a h w') → alive Q h w p.

Lemma calm_ret K {A : Type} (a : A) : calm K (Ret a).
Proof. intros Q h w _ HQ. by apply HQ. Qed.

Lemma calm_bind K {A C : Type} (p : prog (World B) sysE A) (f : A → prog (World B) sysE C) :
  lasting K → calm K p → (∀ a, calm K (f a)) → calm K (p ≫= f).
Proof.
  intros HK Hp Hf Q h w Hw HQ. apply live_bind, Hp; [done|]. intros a w1 H1.
  apply Hf; [by eapply HK|]. intros b w2 H2. apply HQ. by etrans.
Qed.

Lemma calm_weaken (K K' : World B → Prop) {A : Type} (p : prog (World B) sysE A) :
  (∀ w, K w → K' w) → calm K' p → calm K p.
Proof. intros HK Hp Q h w Hw HQ. apply Hp; eauto. Qed.

Lemma calm_atomic (K : World B → Prop) {X} (f : World B → X * World B) :
  lasting K → (∀ w, K w → keeps w (f w).2 ∧ later w (f w).2) → calm K (atomic f).
Proof.
  intros HK Hf Q h w Hw HQ w1 F H1 Hd Hi. destruct (Hf w1) as [Hk He]; [by eapply HK|].
  exists h. split_and!; [done|by apply Hk|]. apply HQ. by etrans.
Qed.

Lemma calm_read K {X} (f : World B → X) : lasting K → calm K (read f).
Proof. intros HK. apply calm_atomic; [done|]. intros w _. split; [by intros h|done]. Qed.

Lemma calm_ask (K : World B → Prop) {X} (e : sysE X) :
  lasting K →
  (∀ w, K w → (waits X e w ∨ ∃ x, env_ok e w x) ∧
     ∀ x, env_ok e w x → keeps w (env_upd e x w) ∧ later w (env_upd e x w)) →
  calm K (ask e).
Proof.
  intros HK He Q h w Hw HQ w1 F H1 Hd Hi. destruct (He w1) as [Hx Hk]; [by eapply HK|].
  split; [done|]. intros x Hok. destruct (Hk x Hok) as [Hk1 Hev].
  exists h. split_and!; [done|by apply Hk1|]. apply HQ. by etrans.
Qed.

Lemma calm_go K (c : prog (World B) sysE unit) :
  (∀ w, K w → alive (λ _ h _, h = ∅) ∅ w c) → calm K (go c).
Proof.
  intros Hc Q h w Hw HQ. exists ∅, h. split_and!; [set_solver|set_solver|by apply Hc|].
  by apply HQ.
Qed.

Lemma calm_go_calm K (c : prog (World B) sysE unit) : calm K c → calm K (go c).
Proof. intros Hc. apply calm_go. intros w Hw. by apply Hc. Qed.

(** Questions that always have an answer, and change neither the map nor the
    processes nor the commands. *)
Definition plain {X} (e : sysE X) : bool :=
  match e with
  | ENewLonghornWriter _ | ELookPath _ | EAbs _ | ENow | ESelectStop _ | EExecute _ _ | EMounts
  | ERange => true
  | _ => false
  end.

Lemma plain_answer {X} (e : sysE X) (w : World B) : plain e = true → ∃ x, env_ok e w x.
Proof.
  destruct e; try done; intros _; simpl.
  - exists (Ok (length (log_files w))). naive_solver.
  - by exists (Ok "").
  - by exists (Ok "").
  - by exists (clock w).
  - by exists false.
  - by exists (Finished "" "" None).
  - by exists (Ok []).
  - by eexists.
Qed.

Lemma calm_plain K {X} (e : sysE X) : lasting K → plain e = true → calm K (ask e).
Proof.
  intros HK He. apply calm_ask; [done|]. intros w _. split; [right; by apply plain_answer|].
  intros x Hok. destruct (obeys_ask (B := B) e) with (w := w) (x := x) as [Ht _];
    [by destruct e|done|].
  split; [|by apply transition_later].
  apply keeps_atomic; [done|..]; destruct e; try done; simpl; by case_match.
Qed.

(** The send that has been counted is received, or is among those offered. *)
Lemma calm_send K p : lasting K → (∀ w, K w → chan p w) → calm K (send p).
Proof.
  intros HK Hc Q h w Hw HQ w1 F H1 Hd Hi. split.
  { right. exists (sent w1). split; [|done]. apply Hc. by eapply HK. }
  intros t [Hp ->]. set (w2 := env_upd (ESend p) (sent w1) w1).
  assert (transition w1 w2) as Ht by by apply t_other, (grows_ask (ESend p)).
  pose proof (transition_later _ _ Ht) as H2.
  assert (sent w2 = S (sent w1)) as Hs.
  { unfold w2, sent. simpl. rewrite length_app. simpl. lia. }
  exists h. split_and!; [done|by eapply keeps_atomic|].
  intros w3 F3 H3 Hd3 Hi3. destruct (H3) as [_ (Hle & _)]. split.
  { destruct (decide (sent w1 < taken (channels w3))%nat); [right; by exists tt|left].
    simpl. lia. }
  intros [] _. exists h. split_and!; [done|done|]. apply HQ. etrans; [exact H1|].
  etrans; [exact H2|exact H3].
Qed.

(** Changes of the state in place. *)
Lemma calm_transition K {X} (f : World B → X * World B) :
  lasting K →
  (∀ w, transition w (f w).2 ∧ processes (f w).2 = processes w ∧ commands (f w).2 = commands w) →
  calm K (atomic f).
Proof.
  intros HK Hf. apply calm_atomic; [done|]. intros w _. destruct (Hf w) as (? & ? & ?).
  split; [by apply keeps_atomic|by apply transition_later].
Qed.

Lemma calm_alter_cmd K f c :
  lasting K →
  (∀ x, CmdProcess (f x) = CmdProcess x ∧ CmdProcessState (f x) = CmdProcessState x) →
  calm K (update (alter_cmd f c)).
Proof.
  intros HK Hf. apply calm_atomic; [done|]. intros w _. simpl.
  split; [|by apply later_same].
  apply keeps_intro; [done|by apply later_same|by apply same_commands_alter].
Qed.

Lemma signal_flags s x :
  CmdProcess (CmdStopWithSignal s x) = CmdProcess x ∧
  CmdProcessState (CmdStopWithSignal s x) = CmdProcessState x.
Proof. unfold CmdStopWithSignal. by destruct (CmdProcess x) eqn:Hx. Qed.

Create HintDb calm discriminated.
#[local] Hint Resolve calm_ret calm_read calm_plain calm_transition chan_lasting here_lasting
  true_lasting and_lasting signal_flags : calm.
#[local] Hint Constructors transition : calm.
#[local] Hint Extern 1 (calm _ (ask _)) => (apply calm_plain; [|reflexivity]) : calm.
#[local] Hint Extern 1 (calm _ (update (alter_cmd _ _))) =>
  (apply calm_alter_cmd; [|apply signal_flags]) : calm.
#[local] Hint Extern 2 (calm _ (update _)) =>
  (apply calm_transition; [|intros; split_and!;
     [first [solve [eauto 2 with calm] | by apply t_same]|done|done]]) : calm.

Ltac solve_calm :=
  repeat first
    [ progress intros
    | solve [eauto 3 with calm]
    | apply calm_bind
    | match goal with |- calm _ (go _) => apply calm_go_calm end
    | progress case_match ].

Lemma calm_execute K binary args : lasting K → calm K (ExecuteWithTimeout binary args).
Proof. unfold ExecuteWithTimeout. solve_calm. Qed.

Lemma calm_wait_for_running K n address c : lasting K → calm K (wait_for_running n address c).
Proof.
  intros HK. induction n; cbn [wait_for_running];
    unfold GRPCServiceReadinessProbe, Execute, ExecuteWithTimeout; solve_calm.
Qed.

Lemma calm_wait_stopped K n p : lasting K → calm K (wait_stopped n p).
Proof. intros HK. induction n; cbn [wait_stopped]; unfold is_stopped; solve_calm. Qed.

Lemma calm_wait_replacement K n p : lasting K → calm K (wait_replacement n p).
Proof. intros HK. induction n; cbn [wait_replacement]; unfold rpc_response; solve_calm. Qed.
#[local] Hint Resolve calm_wait_for_running calm_wait_stopped calm_wait_replacement : calm.

Lemma calm_close_log K p : lasting K → calm K (close_log_of p).
Proof. unfold close_log_of. solve_calm. Qed.
#[local] Hint Resolve calm_close_log : calm.

Lemma calm_stop_goroutine K p c b signal : lasting K → calm K (stop_goroutine p c b signal).
Proof. unfold stop_goroutine. solve_calm. Qed.
#[local] Hint Resolve calm_stop_goroutine : calm.

Lemma calm_stop K p signal :
  lasting K → (∀ w, K w → chan p w) → calm K (StopWithSignal p signal).
Proof.
  intros HK Hc. unfold StopWithSignal. apply calm_bind; [done|by apply calm_plain|]. intros now.
  apply calm_bind; [done|apply calm_transition; [done|]|].
  { intros w. split_and!; [apply t_stop|done..]. }
  intros [[n k] cl]. repeat case_match; [solve_calm..|].
  apply calm_bind; [done|by apply calm_send|]. solve_calm.
Qed.
#[local] Hint Resolve calm_stop calm_send : calm.

(** ** The goroutine that runs the command holds its token *)

(** A command of which only this goroutine holds the token. *)
Lemma li_step (w : World B) c b b' st F f :
  {[(c, b)]} ## F → live_inv w ({[(c, b)]} ∪ F) →
  (∀ x, CmdProcess x = b → CmdProcessState x = false →
     CmdProcess (f x) = b' ∧ CmdProcessState (f x) = st) →
  live_inv (alter_cmd f c w) F ∧
  (st = false → ({[(c, b')]} : gset cmd_token) ## F ∧
     live_inv (alter_cmd f c w) ({[(c, b')]} ∪ F)).
Proof.
  intros Hd [H1 H2] Hf. destruct (H2 c b) as (Hc & Hb & Hst); [set_solver|].
  destruct (Hf _ Hb Hst) as [Hf1 Hf2].
  assert (∀ c' x, (c', x) ∈ F → c' ≠ c) as Hne.
  { intros c' x Hx ->. destruct (H2 c x) as (_ & <- & _); [set_solver|]. set_solver. }
  assert (∀ c' x, (c', x) ∈ F →
    (c' < length (commands (alter_cmd f c w)))%nat ∧ CmdProcess (command (alter_cmd f c w) c') = x ∧
    CmdProcessState (command (alter_cmd f c w) c') = false) as HF.
  { intros c' x Hx. destruct (H2 c' x) as (? & ? & ?); [set_solver|]. unfold command in *. simpl.
    rewrite length_alter, list_lookup_total_alt, list_lookup_alter_ne by (by apply not_eq_sym, (Hne c' x)).
    by rewrite <- list_lookup_total_alt. }
  split; [by split|]. intros ->. split.
  - intros [c' x] ->%elem_of_singleton Hx%Hne. done.
  - split; [exact H1|]. intros c' x [[= -> ->]%elem_of_singleton|Hx]%elem_of_union; [|by apply HF].
    unfold command in *. simpl. rewrite length_alter, list_lookup_total_alt, list_lookup_alter_eq.
    rewrite list_lookup_total_alt in Hb, Hf1, Hf2.
    destruct (lookup_lt_is_Some_2 _ _ Hc) as [y Hy]. by rewrite Hy in *.
Qed.

Lemma live_run p c w :
  chan p w → alive (λ _ h _, h = ∅) {[(c, false)]} w (run_goroutine p c).
Proof.
  intros Hp. unfold run_goroutine, cmd_run. apply live_bind, live_bind.
  intros w1 F H1 Hd Hi. split.
  { right. exists None. simpl. by destruct (li_cmd _ _ Hi c false) as (_ & ? & _); [set_solver|]. }
  assert (∀ w2 (e : option error), later w w2 →
    alive (λ _ h _, h = ∅) ∅ w2
      (update (close_probe c);;
       match e with
       | Some e => update (alter_proc (set_error (error_string e)) p);; send p
       | None => update (alter_proc (set_state StateStopped) p);; send p
       end)) as Hrest.
  { intros w2 e Hev. assert (calm (chan p)
      (update (close_probe c);;
       match e with
       | Some e => update (alter_proc (set_error (error_string e)) p);; send p
       | None => update (alter_proc (set_state StateStopped) p);; send p
       end)) as Hcalm by solve_calm.
    apply Hcalm; [by eapply chan_lasting|done]. }
  intros [e|] _; simpl.
  - exists ∅. split_and!; [set_solver| |by apply Hrest].
    rewrite (left_id_L ∅ (∪)). destruct Hi as [Hi1 Hi2]. split; [done|].
    intros c' x Hx. apply Hi2. set_solver.
  - destruct (li_step w1 c false true false F
      (λ x, with_cmd true (CmdProcessState x) (CmdOutput x) (signals x) x) Hd Hi)
      as [_ [Hd' Hi']]; [done|done|].
    exists {[(c, true)]}. split_and!; [done|done|].
    intros w2 F2 H2 Hd2 Hi2. split.
    { right. exists None. simpl. unfold IsRunning.
      by destruct (li_cmd _ _ Hi2 c true) as (_ & -> & ->); [set_solver|]. }
    intros e _. exists ∅.
    destruct (li_step w2 c true true true F2
      (λ x, with_cmd (CmdProcess x) true (CmdOutput x) (signals x) x) Hd2 Hi2)
      as [Hi3 _]; [by intros|].
    split_and!; [set_solver|by rewrite (left_id_L ∅ (∪))|]. apply Hrest.
    etrans; [exact H1|]. etrans; [|etrans; [exact H2|]]; by apply later_same.
Qed.

Lemma calm_probe K p c : lasting K → (∀ w, K w → chan p w) → calm K (probe_goroutine p c).
Proof. intros HK Hc. unfold probe_goroutine, WaitForRunning, is_stopped, Stop. solve_calm. Qed.

Lemma live_inv_more (w : World B) c h :
  live_inv w h →
  live_inv (add_command c w).2 h ∧
  (CmdProcess c = false → CmdProcessState c = false →
     ({[(length (commands w), false)]} : gset cmd_token) ## h ∧
     live_inv (add_command c w).2 ({[(length (commands w), false)]} ∪ h)).
Proof.
  intros [H1 H2].
  assert (∀ c' b, (c', b) ∈ h →
    (c' < length (commands (add_command c w).2))%nat ∧
    CmdProcess (command (add_command c w).2 c') = b ∧
    CmdProcessState (command (add_command c w).2 c') = false) as Hh.
  { intros c' b Hb. destruct (H2 c' b Hb) as (? & ? & ?). unfold command in *. simpl.
    rewrite length_app, !list_lookup_total_alt, lookup_app_l, <- !list_lookup_total_alt by done.
    split; [simpl; lia|done]. }
  split; [by split|]. intros Hp Hs. split.
  { intros [c' b] [= -> ->]%elem_of_singleton Hb. destruct (H2 _ _ Hb). lia. }
  split; [done|]. intros c' b [[= -> ->]%elem_of_singleton|Hb]%elem_of_union; [|by apply Hh].
  unfold command. simpl. rewrite length_app, list_lookup_total_alt, lookup_app_r, Nat.sub_diag by lia.
  simpl. split_and!; [lia|done|done].
Qed.

Lemma calm_set_cmd K p c :
  lasting K →
  calm K (update (λ w, alter_proc (set_cmd c) p (alter_cmd (SetOutput (logger (proc w p))) c w))).
Proof.
  intros HK. apply calm_atomic; [done|]. intros w _. simpl.
  assert (later w (alter_proc (set_cmd c) p (alter_cmd (SetOutput (logger (proc w p))) c w)))
    as Hev by by apply transition_later, t_start.
  split; [|done]. apply keeps_intro; [done|done|].
  by apply (same_commands_alter (SetOutput (logger (proc w p))) c w).
Qed.

(** The command of a start is made, with its token, and handed to the goroutine
    that runs it. *)
Lemma live_launch p path args Q h w :
  chan p w → (∀ a w', later w w' → Q a h w') →
  alive Q h w
    (c ← atomic (add_command (new_command path args));
     update (λ w, alter_proc (set_cmd c) p (alter_cmd (SetOutput (logger (proc w p))) c w));;
     go (run_goroutine p c);;
     go (probe_goroutine p c);;
     mret (None : option error)).
Proof.
  intros Hc HQ w1 F H1 Hd Hi.
  destruct (live_inv_more w1 (new_command path args) (h ∪ F) Hi) as [_ Hnew].
  destruct Hnew as [Hdis Hi']; [done..|]. cbn [add_command fst snd] in *.
  set (t := (length (commands w1), false) : cmd_token) in *.
  set (w2 := set_os _ _ _ _ w1) in *.
  assert (later w w2) as H2 by (etrans; [exact H1|by apply later_same]).
  exists ({[t]} ∪ h). split_and!; [set_solver|by rewrite <- (assoc_L (∪))|].
  apply live_bind.
  apply (calm_set_cmd (chan p)); [apply chan_lasting|by eapply chan_lasting|]. intros [] w3 H3.
  assert (chan p w3) as Hc3 by (eapply chan_lasting; [|exact Hc]; by etrans).
  apply live_bind. exists {[t]}, h. split_and!; [done|set_solver|by apply live_run|].
  apply live_bind. exists ∅, h. split_and!; [set_solver|set_solver| |].
  { by apply (calm_probe (chan p)); [apply chan_lasting|..]. }
  apply HQ. by etrans.
Qed.

Lemma calm_start p : calm (chan p) (Start p).
Proof.
  intros Q h w Hc HQ. unfold Start. apply live_bind.
  apply (calm_read (chan p)); [apply chan_lasting|done|]. intros q w1 H1.
  assert (∀ w2 e, later w1 w2 →
    alive Q h w2 (update (alter_proc (set_error (error_string e)) p);; mret (Some e))) as Herr.
  { intros w2 e H2. apply live_bind.
    assert (calm (chan p) (update (alter_proc (set_error (error_string e)) p))) as Hcalm
      by solve_calm.
    apply Hcalm; [eapply chan_lasting; [|exact Hc]; by etrans|].
    intros _ w3 H3. apply HQ. etrans; [done|]. by etrans. }
  unfold NewBinaryCommand. apply live_bind, live_bind.
  apply (calm_plain (chan p)); [apply chan_lasting|done|by eapply chan_lasting|].
  intros r w2 H2. destruct r as [path|e]; [|by apply Herr].
  apply live_bind.
  apply (calm_plain (chan p)); [apply chan_lasting|done|eapply chan_lasting; [|exact Hc]; by etrans|].
  intros r w3 H3. destruct r as [path'|e]; [|apply Herr; by etrans].
  apply live_launch; [eapply chan_lasting; [|exact Hc]; etrans; [done|by etrans]|].
  intros a w4 H4. apply HQ. etrans; [done|]. etrans; [done|]. by etrans.
Qed.

Lemma calm_start_at K p : (∀ w, K w → chan p w) → calm K (Start p).
Proof. intros HK. by apply (calm_weaken _ (chan p)), calm_start. Qed.
#[local] Hint Resolve calm_start_at calm_probe : calm.

(** ** The handlers *)

Lemma live_calm (K : World B → Prop) {A : Type} Q h w w1 (p : prog (World B) sysE A) :
  calm K p → K w1 → later w w1 → (∀ a w', later w w' → Q a h w') → alive Q h w1 p.
Proof. intros Hp HK H1 HQ. apply Hp; [done|]. intros a w2 H2. apply HQ. by etrans. Qed.

(** A process found in the map has its channel. *)
Lemma chan_found {A : Type} Q h w name (k : option nat → prog (World B) sysE A) :
  (∀ w1, later w w1 → alive Q h w1 (k None)) →
  (∀ p w1, later w w1 → chan p w1 → alive Q h w1 (k (Some p))) →
  alive Q h w (findProcess name ≫= k).
Proof.
  intros HN HS w1 F H1 Hd Hi. exists h. split_and!; [done|done|]. simpl.
  destruct (processes w1 !! name) as [p|] eqn:Hp; [|by apply HN].
  apply HS; [done|]. by apply (li_chan _ _ Hi name).
Qed.

Lemma calm_unregister K p : lasting K → (∀ w, K w → chan p w) → calm K (unregisterProcess p).
Proof.
  intros HK Hc. assert (calm K (update (unregister_section p))) as Hun.
  { apply calm_atomic; [done|]. intros w _. simpl.
    assert (transition w (unregister_section p w)) as Ht by constructor.
    split; [|by apply transition_later].
    unfold unregister_section in *. destruct (is_registered p w); [|by intros h].
    apply keeps_intro; [apply delete_subseteq|by apply transition_later|].
    by apply same_commands_refl. }
  unfold unregisterProcess, unregister_goroutine, is_stopped. solve_calm.
Qed.
#[local] Hint Resolve calm_unregister : calm.

Abbreviation always := (λ _ : World B, True).

Lemma calm_get name : calm always (ProcessGet name).
Proof.
  intros Q h w _ HQ. apply chan_found; [intros w1 H1; by apply HQ|]. intros p w1 H1 Hc.
  apply (live_calm (chan p) _ _ w); [|done..]. unfold rpc_response. solve_calm.
Qed.

Lemma calm_delete name uuid : calm always (ProcessDelete name uuid).
Proof.
  intros Q h w _ HQ. apply chan_found; [intros w1 H1; by apply HQ|]. intros p w1 H1 Hc.
  apply (live_calm (chan p) _ _ w); [|done..]. unfold rpc_response, Stop. solve_calm.
Qed.

Lemma calm_responses K l m : lasting K → calm K (list_responses l m).
Proof.
  intros HK. revert m. induction l as [|[n p] l IH]; intros m; cbn [list_responses];
    unfold rpc_response; solve_calm.
Qed.
#[local] Hint Resolve calm_get calm_delete calm_responses : calm.

Lemma calm_list : calm always ProcessList.
Proof. unfold ProcessList. solve_calm. Qed.
#[local] Hint Resolve calm_list : calm.

Lemma calm_delete_all l : calm always (delete_all l).
Proof. induction l as [|[n r] l IH]; cbn [delete_all]; solve_calm. Qed.

Lemma calm_wait_no_process n : calm always (wait_no_process n).
Proof. induction n; cbn [wait_no_process]; solve_calm. Qed.
#[local] Hint Resolve calm_delete_all calm_wait_no_process : calm.

Lemma calm_cleanup : calm always cleanup.
Proof. unfold cleanup. solve_calm. Qed.

(** The processes to update are processes of the map. *)
Definition chans (ps : list nat) (w : World B) : Prop := Forall (λ p, chan p w) ps.

Lemma chans_lasting ps : lasting (chans ps).
Proof. intros w w' Hev Hps. eapply Forall_impl; [exact Hps|]. intros p. by apply chan_lasting. Qed.

Lemma calm_send_all ps : calm (chans ps) (send_all ps).
Proof.
  induction ps as [|p ps IH]; cbn [send_all]; [apply calm_ret|].
  apply calm_bind; [apply chans_lasting| |intros _].
  - apply calm_send; [apply chans_lasting|]. by intros w [? _]%Forall_cons.
  - apply (calm_weaken _ (chans ps)); [|done]. by intros w [_ ?]%Forall_cons.
Qed.

Lemma live_conditions sha mounts l Q h w :
  chans (l.*2) w → (∀ ps w', later w w' → chans ps w' → Q ps h w') →
  alive Q h w (getProcessesToUpdateConditions sha mounts l).
Proof.
  revert Q w. induction l as [|[n p] l IH]; intros Q w Hl HQ;
    cbn [getProcessesToUpdateConditions]; [by apply HQ; [|constructor]|].
  apply live_bind. assert (calm (chans ((n, p) :: l).*2) (atomic (condition_section sha mounts p))) as Hc.
  { apply calm_transition; [apply chans_lasting|]. intros w1.
    assert (obeys_conditions_at : transition w1 (condition_section sha mounts p w1).2).
    { unfold condition_section. repeat case_match; eauto using t_condition, t_idle. }
    unfold condition_section in *. by repeat case_match. }
  apply Hc; [done|]. intros b w1 H1. apply live_bind.
  apply (chans_lasting _ _ _ H1) in Hl. apply Forall_cons in Hl as [Hp Hl].
  apply IH; [done|]. intros ps w2 H2 Hps. apply HQ; [by etrans|]. destruct b; [|done].
  constructor; [|done]. by eapply chan_lasting.
Qed.

Lemma calm_conditions sha : calm always (checkMountPointStatusForEngine sha).
Proof.
  intros Q h w _ HQ. unfold checkMountPointStatusForEngine. apply live_bind.
  apply (calm_plain always); [done..|]. intros r w1 H1.
  intros w2 F H2 Hd Hi. split; [right; exists (map_to_list (processes w2)); simpl; reflexivity|]. intros l Hl. exists h.
  split_and!; [done|done|]. apply live_bind, live_conditions.
  - apply Forall_fmap, Forall_forall. intros [n p] Hp. simpl in *.
    rewrite Hl, elem_of_map_to_list in Hp. by apply (li_chan _ _ Hi n).
  - intros ps w3 H3 Hps. apply calm_send_all; [done|]. intros a w4 H4.
    apply HQ. etrans; [exact H1|]. etrans; [exact H2|]. by etrans.
Qed.

(** ** The calls that make a process *)

Lemma keeps_insert (w w' : World B) n p :
  processes w' = <[n := p]> (processes w) → chan p w' → later w w' →
  commands w' = commands w → keeps w w'.
Proof.
  intros Hm Hc Hev Hcmd h [H1 H2]. split.
  - intros n' p' Hn. rewrite Hm in Hn.
    apply lookup_insert_Some in Hn as [[_ <-]|[_ Hn]]; [done|].
    by eapply chan_lasting, H1.
  - intros c b Hb. unfold command. rewrite Hcmd. by apply H2.
Qed.

Lemma live_new {A : Type} Q h w spec l (k : nat * string → prog (World B) sysE A) :
  (∀ w1 p u, later w w1 → here p w1 → alive Q h w1 (k (p, u))) →
  alive Q h w (ask (ENewProcess (λ u, new_process spec u l)) ≫= k).
Proof.
  intros Hk w1 F H1 Hd Hi. split.
  { right. set (us := "" :: (UUID <$> heap w1)). exists (length (heap w1), fresh us).
    pose proof (infinite_is_fresh us) as Hf. apply not_elem_of_cons in Hf as [Hne Hf]. simpl.
    split_and!; [done|done|]. apply Forall_forall. intros q Hq Hu. apply Hf.
    rewrite <- Hu. by apply list_elem_of_fmap_2. }
  intros [p u] (Hp & Hne & Hu). simpl in *.
  assert (later w1 (set_heap (λ h, h ++ [new_process spec u l]) w1)) as Hev
    by by apply transition_later, t_new.
  exists h. split_and!; [done| |].
  - apply (keeps_intro w1); [done|done|by apply same_commands_refl|done].
  - apply Hk; [by etrans|]. unfold here. simpl. rewrite length_app. simpl. lia.
Qed.

Lemma register_commands p (w : World B) : commands (registerProcess p w).2 = commands w.
Proof.
  unfold registerProcess, alloc_step. case_match; [done|].
  by destruct (allocateProcessPorts _ _) as [[[x|] q] b].
Qed.

Lemma live_register {A : Type} Q h w p (k : option error → prog (World B) sysE A) :
  here p w →
  (∀ w1 e, later w w1 → (e = None → chan p w1) → alive Q h w1 (k e)) →
  alive Q h w (atomic (registerProcess p) ≫= k).
Proof.
  intros Hp Hk w1 F H1 Hd Hi. exists h. split; [done|]. apply (here_lasting p _ _ H1) in Hp.
  pose proof (register_commands p w1) as Hcmd.
  pose proof (transition_later _ _ (t_register w1 p)) as Hev.
  destruct (registerProcess p w1) as [[e|] w2] eqn:Hr; simpl in *.
  - apply register_error in Hr as [Hm _].
    split; [|apply Hk; [by etrans|done]].
    apply (keeps_intro w1); [by rewrite Hm|done|by apply same_commands_refl|done].
  - apply register_new in Hr as (_ & q & b & _ & Hm & _ & Hq); [|done].
    assert (chan p w2) as Hc by (unfold chan; by rewrite Hq).
    split; [|apply Hk; [by etrans|done]]. by eapply (keeps_insert w1 w2 _ p).
Qed.

Lemma init_replace_chan p (w w' : World B) r :
  here p w → initProcessReplace p w = (r, w') →
  commands w' = commands w ∧ (∀ old, r = Ok old → chan p w').
Proof.
  intros Hp. unfold initProcessReplace. case_match; [|by intros; simplify_eq].
  destruct (alloc_step p w) as [e w1] eqn:Ha. apply alloc_step_shape in Ha as (q & b & _ & ->).
  destruct e; intros; simplify_eq/=; [done|]. split; [done|]. intros old _. unfold chan.
  rewrite proc_alter, decide_True; [done|]. split; [done|]. simpl. by rewrite length_alter.
Qed.

Lemma live_init_replace {A : Type} Q h w p (k : res nat → prog (World B) sysE A) :
  here p w →
  (∀ w1 r, later w w1 → (∀ old, r = Ok old → chan p w1 ∧ chan old w1) → alive Q h w1 (k r)) →
  alive Q h w (atomic (initProcessReplace p) ≫= k).
Proof.
  intros Hp Hk w1 F H1 Hd Hi. exists h. split; [done|]. apply (here_lasting p _ _ H1) in Hp.
  pose proof (transition_later _ _ (t_init_replace w1 p)) as Hev.
  destruct (init_replace_result p w1) as [Hm Hr].
  destruct (initProcessReplace p w1) as [r w2] eqn:Hi2. simpl in *.
  apply init_replace_chan in Hi2 as [Hcmd Hc]; [|done]. split.
  - apply (keeps_intro w1); [by rewrite Hm|done|by apply same_commands_refl|done].
  - apply Hk; [by etrans|]. intros old ->. split; [by eapply Hc|].
    eapply chan_lasting; [done|]. by eapply (li_chan _ _ Hi).
Qed.

Lemma calm_replace_section K p old :
  lasting K → (∀ w, K w → chan p w) → calm K (atomic (replace_section p old)).
Proof.
  intros HK Hc. apply calm_atomic; [done|]. intros w Hw.
  pose proof (transition_later _ _ (t_replace w p old)) as Hev. split; [|done].
  unfold replace_section in *. destruct (processes w !! _) as [q|] eqn:Hn; simpl in *.
  - case_bool_decide; [|by intros h]. simpl in *.
    eapply keeps_insert; [done|exact (Hc w Hw)|done|done].
  - eapply keeps_insert; [done|exact (Hc w Hw)|done|done].
Qed.
#[local] Hint Resolve calm_replace_section : calm.

Lemma calm_create spec : calm always (ProcessCreate spec).
Proof.
  intros Q h w _ HQ. unfold ProcessCreate.
  destruct (missing_argument spec); [by apply HQ|]. apply live_bind.
  apply (calm_plain always); [done..|]. intros [lg|e] w1 H1; [|by apply HQ].
  apply live_new. intros w2 p u H2 Hp. apply live_register; [done|].
  intros w3 e H3 Hc. destruct e as [e|].
  - apply (live_calm always _ _ w); [|done| |done]; [solve_calm|]. etrans; [done|by etrans].
  - apply (live_calm (chan p) _ _ w); [|by apply Hc| |done]; [|etrans; [done|by etrans]].
    unfold rpc_response. solve_calm.
Qed.

(** The replacement and the process it replaces. *)
Definition chans2 (p old : nat) (w : World B) : Prop := chan p w ∧ chan old w.

Lemma chans2_lasting p old : lasting (chans2 p old).
Proof. apply and_lasting; apply chan_lasting. Qed.

Lemma chans2_l p old w : chans2 p old w → chan p w.
Proof. by intros [? _]. Qed.
Lemma chans2_r p old w : chans2 p old w → chan old w.
Proof. by intros [_ ?]. Qed.
#[local] Hint Resolve chans2_lasting chans2_l chans2_r : calm.

Lemma calm_cleanup_replacement p old : calm (chans2 p old) (cleanupReplacementProcess p).
Proof. unfold cleanupReplacementProcess, Stop. solve_calm. Qed.
#[local] Hint Resolve calm_cleanup_replacement : calm.

Lemma calm_replace_with p old name : calm (chans2 p old) (replace_with p old name).
Proof.
  unfold replace_with, rpc_response. solve_calm.
Qed.
#[local] Hint Resolve calm_replace_with : calm.

Lemma calm_replace spec sig : calm always (ProcessReplace spec sig).
Proof.
  intros Q h w _ HQ. unfold ProcessReplace.
  destruct (missing_argument spec); [by apply HQ|]. case_bool_decide as Hsig; [by apply HQ|]. apply live_bind.
  apply (calm_plain always); [done..|]. intros [lg|e] w1 H1; [|by apply HQ].
  apply live_new. intros w2 p u H2 Hp. apply live_init_replace; [done|].
  intros w3 r H3 Hc. destruct r as [old|e].
  - apply (live_calm (chans2 p old) _ _ w); [|by apply Hc| |done]; [|etrans; [done|by etrans]].
    unfold rpc_response. solve_calm.
  - apply (live_calm always _ _ w); [|done| |done]; [solve_calm|]. etrans; [done|by etrans].
Qed.
#[local] Hint Resolve calm_create calm_replace calm_cleanup : calm.

Lemma calm_client p : client p → calm always p.
Proof.
  intros []; [solve_calm..| |]; (apply calm_atomic; [done|]; intros w _; simpl);
    match goal with |- keeps _ ?w2 ∧ _ => assert (transition w w2) as Ht end;
    try (apply t_other; [done..|split_and!; simpl; auto]);
    (split; [by apply keeps_atomic|by apply transition_later]).
Qed.

(** ** The loops of the manager *)

(** A question to which the answer leaves the processes and commands alone. *)
Lemma live_ask own {A X : Type} Q h w (e : sysE X) (k : X → prog (World B) sysE A) :
  makes_process e = false →
  (∀ (w1 : World B) x, commands (env_upd e x w1) = commands w1) →
  (∀ (w1 : World B) x, processes (env_upd e x w1) = processes w1) →
  (∀ w1, later w w1 → own X e w1 ∨ ∃ x, env_ok e w1 x) →
  (∀ w1 x, later w w1 → env_ok e w1 x → alive_at own Q h (env_upd e x w1) (k x)) →
  alive_at own Q h w (ask e ≫= k).
Proof.
  intros He Hc Hm Ha Hk w1 F H1 Hd Hi. split; [by apply Ha|]. intros x Hx.
  exists h. split_and!; [done| |by apply Hk].
  destruct (obeys_ask (B := B) e He w1 x Hx) as [Ht _]. by eapply keeps_atomic.
Qed.

Lemma live_read own {A X : Type} Q h w (f : World B → X) (k : X → prog (World B) sysE A) :
  (∀ w1, later w w1 → alive_at own Q h w1 (k (f w1))) → alive_at own Q h w (read f ≫= k).
Proof. intros Hk w1 F H1 Hd Hi. exists h. split_and!; [done|done|by apply Hk]. Qed.

Abbreviation ends := (λ _ h _, h = (∅ : gset cmd_token)) (only parsing).

Lemma live_monitor w : alive_at monitor_waits ends ∅ w monitor_turn.
Proof.
  unfold monitor_turn. apply live_ask; [done|intros w1 []; done|intros w1 []; done| |].
  - intros w1 _. destruct (updates (channels w1)) as [|p us] eqn:Hu.
    + destruct (ctx_done (channels w1)) eqn:Hc; [right; by exists None|by left].
    + right. exists (Some p). simpl. by rewrite Hu.
  - intros w1 [p|] _ _; [|done]. apply live_read. intros w2 _. apply live_read. intros w3 _.
    intros w4 F4 _ Hd4 Hi4. set (r := mark_deleted _ _). split; [right; by eexists|].
    intros t ->. set (w5 := env_upd (EBroadcast r) (broadcast w4) w4).
    assert (transition w4 w5) as Ht by by apply t_other, (grows_ask (EBroadcast r)).
    assert (broadcast w5 = S (broadcast w4)) as Hs.
    { unfold w5, broadcast. simpl. rewrite length_app. simpl. lia. }
    exists ∅. split_and!; [done|by eapply keeps_atomic|].
    intros w6 F6 [_ (_ & Hle & _)] Hd6 Hi6. split; [|by intros [] _; exists ∅].
    destruct (decide (broadcast w4 < length (streamed (channels w6)))%nat);
      [right; by exists tt|left]. simpl. lia.
Qed.

Lemma live_stream w : alive_at stream_waits ends ∅ w (turn stream).
Proof.
  apply live_ask; [done..| |done]. intros w1 _.
  destruct (broadcasts (channels w1)) as [|r rs] eqn:Hu; [by left|right].
  exists r. simpl. by rewrite Hu.
Qed.

Lemma live_check sha w : alive_at check_waits ends ∅ w (check_turn sha).
Proof.
  unfold check_turn. apply live_ask; [done|intros w1 []; done|intros w1 []; done| |].
  - intros w1 _. destruct (ticked (channels w1)) eqn:Ht; [right; by exists true|].
    destruct (ctx_done (channels w1)) eqn:Hc; [right; by exists false|by left].
  - intros w1 [] _ _; [|done].
    apply (live_waits _ _ _ waits); [by intros X [] ?|]. by apply calm_conditions.
Qed.

(** No goroutine of a reachable configuration is stuck. *)
Lemma reachable_alive sha (b : B) c i p :
  reachable (manager sha) (NewManager b) c → c.1 !! i = Some p →
  not_stuck (may_wait i) c.2 p.
Proof.
  apply (live_reachable (Ans := answer) live_inv later waits may_wait).
  - intros [|[|[|j]]]; simpl; [lia..|done].
  - intros j d Hd. destruct (obeys_manager sha) as [Ho _]. rewrite Forall_lookup in Ho.
    split; [eapply acts_weaken; [|by apply (Ho j)]; intros ??; by apply transition_later|].
    intros w. destruct j as [|[|[|j]]]; simplify_eq/=;
      [apply live_check|apply live_monitor|apply live_stream].
  - intros q Hq. split; [|intros w; by apply calm_client].
    eapply acts_weaken; [|by eapply obeys_client]. intros ??. by apply transition_later.
  - split; [done|]. intros c' x Hx. by apply elem_of_empty in Hx.
Qed.
End live.

(** ** The loops take their work *)

Section loops.
Context {B : Type} `{PortAllocator B} (sha : string → string).

Definition takes (X : Type) (e : sysE X) : bool :=
  match e with ETick | ERecv | ERecvBroadcast => true | _ => false end.

(** Ticks, updates and broadcasts. *)
Definition work (i : nat) (w : World B) : nat :=
  match i with
  | 0%nat => if ticked (channels w) then 1 else 0
  | 1%nat => length (updates (channels w))
  | 2%nat => length (broadcasts (channels w))
  | _ => 0
  end.

Abbreviation gives_no_more := (no_more work (manager sha)).
Abbreviation works_only := (works (Ans := answer) takes work (manager sha)).

Lemma no_more_intro n (w w' : World B) :
  (n ≤ 3)%nat →
  (ticked (channels w') = true → ticked (channels w) = true) →
  (check_done (channels w) = true → check_done (channels w') = true) →
  (2 ≤ n → work 1 w' ≤ work 1 w ∧
     (monitor_done (channels w) = true → monitor_done (channels w') = true))%nat →
  (n = 3 → work 2 w' ≤ work 2 w)%nat →
  gives_no_more n w w'.
Proof.
  intros Hn Ht Hk Hm Hs j Hj. destruct j as [|[|[|j]]]; [| | |lia].
  - split.
    + simpl. destruct (ticked (channels w')); [by rewrite Ht|lia].
    + intros d [= <-]. simpl. destruct (check_done (channels w)); [by rewrite Hk|done].
  - destruct Hm as [? Hm]; [lia|]. split; [done|].
    intros d [= <-]. simpl. destruct (monitor_done (channels w)); [by rewrite Hm|done].
  - split; [apply Hs; lia|]. by intros d [= <-].
Qed.

Lemma no_more_same n (w w' : World B) :
  (n ≤ 3)%nat → channels w' = channels w → gives_no_more n w w'.
Proof. intros Hn Hc. apply no_more_intro; unfold work; rewrite ?Hc; auto. Qed.

Lemma works_atomic n {X} (f : World B → X * World B) :
  (n ≤ 3)%nat → (∀ w, channels (f w).2 = channels w) → works_only n (atomic f).
Proof. intros Hn Hf w. split; [by apply no_more_same|done]. Qed.

Lemma works_ask n {X} (e : sysE X) :
  (n ≤ 3)%nat → takes X e = false →
  (∀ (w : World B) x, env_ok e w x → gives_no_more n w (env_upd e x w)) →
  works_only n (ask e).
Proof. intros Hn He Ho. split; [done|]. intros w x Hx. split; [by apply Ho|done]. Qed.

Lemma works_send p : works_only 1 (send p).
Proof.
  unfold send. apply works_bind.
  - apply works_ask; [lia|done|]. intros w t _. apply no_more_intro; simpl; auto; lia.
  - intros t. apply works_ask; [lia|done|]. intros w x _. by apply no_more_same; [lia|].
Qed.

Lemma works_conditions : works_only 1 (checkMountPointStatusForEngine sha).
Proof.
  unfold checkMountPointStatusForEngine.
  apply works_bind; [apply works_ask; [lia|done|]; intros w x _; by apply no_more_same; [lia|]|].
  intros r. apply works_bind;
    [apply works_ask; [lia|done|]; intros w x _; by apply no_more_same; [lia|]|].
  intros l. apply works_bind.
  - generalize (match r with Ok mps => GetVolumeMountPointMap mps | Err _ => ∅ end). intros m.
    induction l as [|[n p] l IH]; cbn [getProcessesToUpdateConditions]; [done|].
    apply works_bind; [|by intros b; apply works_bind].
    apply works_atomic; [lia|]. intros w. unfold condition_section. by repeat case_match.
  - intros ps. induction ps as [|p ps IH]; cbn [send_all]; [done|].
    apply works_bind; [apply works_send|done].
Qed.

Lemma loops_serve : daemons_serve (Ans := answer) takes work (manager sha).
Proof.
  intros [|[|[|i]]] d; simplify_eq/=; [intros [= <-]..|done].
  - intros w b Hb. split_and!; [..|destruct b; [|done]].
    + destruct b; apply no_more_intro; simpl; auto; lia.
    + intros _. destruct b; simpl in *; [left; rewrite Hb; lia|right]. by intros d [= <-].
    + apply works_serves, works_conditions.
  - intros w r Hr. split_and!.
    + destruct r as [p|]; apply no_more_intro; simpl; auto; try lia; intros _.
      split; [destruct (updates (channels w)); simpl; lia|done].
    + intros _. destruct r as [p|]; simpl in *; [left|right; by intros d [= <-]].
      destruct (updates (channels w)); [done|]. simpl. lia.
    + destruct r as [p|]; [|done]. apply works_serves.
      apply works_bind; [by apply works_atomic; [lia|]|]. intros resp.
      apply works_bind; [by apply works_atomic; [lia|]|]. intros b.
      apply works_bind.
      * apply works_ask; [lia|done|]. intros w1 t _. apply no_more_intro; simpl; auto; lia.
      * intros t. apply works_ask; [lia|done|]. intros w1 x _. by apply no_more_same; [lia|].
  - intros w r Hr. simpl in Hr. split_and!; [| |done].
    + apply no_more_intro; simpl; auto; intros _.
      destruct (broadcasts (channels w)); simpl; lia.
    + intros _. left. simpl. destruct (broadcasts (channels w)); [done|]. simpl. lia.
Qed.
End loops.

(** ** The end of an execution *)

Section ending.
Context {B : Type} `{PortAllocator B}.
Implicit Types (w : World B) (p : prog (World B) sysE unit).

(** Where the goroutines are when every call has returned: the loops wait for a
    tick, an update and a broadcast. *)
Definition settled (i : nat) p : Prop :=
  match i with
  | 0%nat => ∃ k, p = Ask ETick k
  | 1%nat => ∃ k, p = Ask ERecv k
  | 2%nat => ∃ k, p = Ask ERecvBroadcast k
  | _ => p = Ret tt
  end.

(** The context is done: the monitor has ended, and who still sends an update
    waits for ever. *)
Definition abandoned (i : nat) w p : Prop :=
  match i with
  | 1%nat => p = Ret tt
  | 2%nat => ∃ k, p = Ask ERecvBroadcast k
  | _ => p = Ret tt ∨ ∃ t k, p = Ask (ESent t) k ∧ (taken (channels w) ≤ t)%nat
  end.

Lemma waiting_call w p :
  waiting waits w p → ∃ t k, p = Ask (ESent t) k ∧ (taken (channels w) ≤ t < sent w)%nat.
Proof. destruct p as [|?|X e k|]; [done..| |done]. revert k. destruct e; naive_solver. Qed.

Lemma waiting_check w p :
  waiting check_waits w p →
  waiting waits w p ∨
  (∃ k, p = Ask ETick k) ∧ ticked (channels w) = false ∧ ctx_done (channels w) = false.
Proof. destruct p as [|?|X e k|]; [done..| |done]. revert k. destruct e; naive_solver. Qed.

Lemma waiting_monitor w p :
  waiting monitor_waits w p →
  (∃ k, p = Ask ERecv k) ∧ updates (channels w) = [] ∧ ctx_done (channels w) = false ∨
  broadcasts (channels w) ≠ [].
Proof.
  destruct p as [|?|X e k|]; [done..| |done]. revert k. destruct e; try done; simpl; intros k Hw.
  - right. unfold broadcast in Hw. intros He. rewrite He in Hw. simpl in Hw. lia.
  - left. naive_solver.
Qed.

Lemma waiting_stream w p :
  waiting stream_waits w p → (∃ k, p = Ask ERecvBroadcast k) ∧ broadcasts (channels w) = [].
Proof. destruct p as [|?|X e k|]; [done..| |done]. revert k. destruct e; naive_solver. Qed.

Variable sha : string → string.

(** The loops end only when the context has. *)
Lemma loops_end (b : B) c :
  reachable (manager sha) (NewManager b) c →
  (monitor_done (channels c.2) = true → ctx_done (channels c.2) = true) ∧
  (check_done (channels c.2) = true → ctx_done (channels c.2) = true).
Proof.
  intros Hr. destruct (manager_steps sha b c c Hr (rtc_refl _ _)) as [Ht _].
  assert (chans_grow (NewManager b) c.2) as (_ & _ & _ & Hm & Hk).
  { clear Hr. induction Ht as [|w1 w2 w3 Hs _ IH]; [by apply grows_same|].
    eapply grows_trans; [by apply transition_grows|done]. }
  split; [intros [?|?]%Hm|intros [?|?]%Hk]; done.
Qed.

Abbreviation silence := (quiet (manager sha)).

Lemma quiet_steps (b : B) c c' :
  reachable (manager sha) (NewManager b) c → rtc (step silence) c c' →
  reachable (manager sha) (NewManager b) c'.
Proof.
  intros Hr Hs. unfold reachable. etrans; [exact Hr|]. clear Hr.
  induction Hs as [|? ? ? Hst _ IH]; [done|]. eapply rtc_l; [|exact IH].
  destruct Hst; [by econstructor|by eapply step_again|done].
Qed.

(** Nothing can happen any more: each goroutine has ended, for good if it is a
    loop, or waits. *)
Lemma ended_or_waits (b : B) c i p :
  reachable (manager sha) (NewManager b) c → (∀ c', ¬ step silence c c') → c.1 !! i = Some p →
  (p = Ret tt ∧ ∀ d, daemons (manager sha) !! i = Some d → again d c.2 = false) ∨
  waiting (may_wait i) c.2 p.
Proof.
  intros Hr Hend Hi. destruct c as [ts w]. simpl in *.
  destruct (reachable_alive sha b _ i p Hr Hi) as [->|[(p' & w' & new & Hst)|Hw]]; [left| |by right].
  - split; [done|]. intros d Hd. destruct (again d w) eqn:Ha; [|done].
    destruct (Hend (<[i:=turn d]> ts, w)). by econstructor.
  - edestruct Hend. by econstructor.
Qed.

(** The three loops, and what they say of the channels. *)
Lemma loops_idle (b : B) c :
  reachable (manager sha) (NewManager b) c → (∀ c', ¬ step silence c c') →
  ∃ p0 p1 k2 ts, c.1 = p0 :: p1 :: Ask ERecvBroadcast k2 :: ts ∧
    broadcasts (channels c.2) = [] ∧
    if ctx_done (channels c.2) then p1 = Ret tt
    else (∃ k0, p0 = Ask ETick k0) ∧ (∃ k1, p1 = Ask ERecv k1) ∧
      updates (channels c.2) = [] ∧ ticked (channels c.2) = false.
Proof.
  intros Hr Hend. destruct (loops_end b c Hr) as [Hm Hk].
  pose proof (reachable_daemons_at (Ans := answer) takes work (manager sha) _ _ (loops_serve sha) Hr)
    as Hat.
  destruct (Hat 0%nat _ eq_refl) as (p0 & H0 & _), (Hat 1%nat _ eq_refl) as (p1 & H1 & _),
    (Hat 2%nat _ eq_refl) as (p2 & H2 & _).
  pose proof (ended_or_waits b c _ _ Hr Hend H0) as E0.
  pose proof (ended_or_waits b c _ _ Hr Hend H1) as E1.
  pose proof (ended_or_waits b c _ _ Hr Hend H2) as E2.
  destruct c as [[|q0 [|q1 [|q2 ts]]] w]; simplify_eq/=.
  destruct E2 as [[_ E2]|E2]; [by specialize (E2 _ eq_refl)|].
  apply waiting_stream in E2 as [[k2 ->] Hb]. exists p0, p1, k2, ts. split_and!; [done..|].
  destruct E1 as [[-> E1]|E1].
  { specialize (E1 _ eq_refl). simpl in E1. apply negb_false_iff in E1. by rewrite (Hm E1). }
  apply waiting_monitor in E1 as [([k1 ->] & Hu & Hc)|]; [|done]. rewrite Hc in *.
  destruct E0 as [[-> E0]|E0].
  { specialize (E0 _ eq_refl). simpl in E0. apply negb_false_iff in E0. by specialize (Hk E0). }
  apply waiting_check in E0 as [E0|([k0 ->] & ? & _)]; [|by eauto 10].
  apply waiting_call in E0 as (t & k & _ & Ht). unfold sent in Ht. rewrite Hu in Ht. simpl in Ht. lia.
Qed.

Lemma takes_its_work : daemons_take takes (manager sha).
Proof. by repeat constructor. Qed.
End ending.

(** C10: every call returns. From any reachable configuration, whatever calls,
    deletions and replacements are under way, and whatever the operating system
    answers: when no more calls, ticks and cancellations come, every interleaved
    execution is finite. The updates and the broadcasts go through unbuffered
    channels, so a send ends only when the other side receives; still, when an
    execution has come to its end and the context of the manager is not done,
    every call has returned and every goroutine it started has ended, no value
    is left in a channel, and the three loops of the manager wait for a tick, an
    update and a broadcast. If the context is done, the monitor has ended: then
    a call, or a goroutine, may be left that waits for ever for its update to be
    received, and nothing else is left. So no goroutine waits for a channel that
    was never made, for a command that was not started or has been waited for,
    or in a circle. *)
Theorem calls_return {B : Type} `{PortAllocator B} sha (b : B) (c : conf B) :
  reachable (manager sha) (NewManager b) c →
  let silence := quiet (manager sha) in
  Acc (λ c' c, step silence c c') c ∧
  ∀ c', rtc (step silence) c c' → (∀ c'', ¬ step silence c' c'') →
    broadcasts (channels c'.2) = [] ∧
    if ctx_done (channels c'.2) then
      ∀ i p, c'.1 !! i = Some p → abandoned i c'.2 p
    else
      (∀ i p, c'.1 !! i = Some p → settled i p) ∧
      updates (channels c'.2) = [] ∧ ticked (channels c'.2) = false.
Proof.
  intros Hr. split.
  { eapply quiet_finite; [apply takes_its_work|apply loops_serve|done]. }
  intros c' Hs Hend. pose proof (quiet_steps sha b c c' Hr Hs) as Hr'.
  assert (∀ i p, c'.1 !! i = Some p → _) as Hall
    by exact (λ i p, ended_or_waits sha b c' i p Hr' Hend).
  destruct (loops_idle sha b c' Hr' Hend) as (p0 & p1 & k2 & ts & Hts & Hb & Hidle).
  split; [done|]. rewrite Hts in *. destruct (ctx_done (channels c'.2)) eqn:Hc.
  - subst p1. intros i p Hi. specialize (Hall i p Hi). destruct i as [|[|[|i]]]; simpl in Hi.
    + destruct Hall as [[-> _]|[Hw|(_ & _ & ?)]%waiting_check]; [by left| |congruence].
      apply waiting_call in Hw as (t & k & -> & ? & _). right. eauto.
    + by simplify_eq.
    + simplify_eq. by exists k2.
    + destruct Hall as [[-> _]|Hw]; [by left|right].
      apply waiting_call in Hw as (t & k & -> & ? & _). eauto.
  - destruct Hidle as ([k0 ->] & [k1 ->] & Hu & Ht). split; [|done].
    intros i p Hi. specialize (Hall i p Hi). destruct i as [|[|[|i]]]; simpl in Hi.
    1-3: simplify_eq; by eexists.
    destruct Hall as [[-> _]|Hw]; [done|].
    apply waiting_call in Hw as (t & k & _ & Hlt). unfold sent in Hlt. rewrite Hu in Hlt.
    simpl in Hlt. lia.
Qed.

(** A configuration in which nothing can happen. *)
Definition at_rest (c : conf Bitmap) : bool :=
  match c.1 with
  | Ask e0 _ :: Ask e1 _ :: Ask e2 _ :: ts =>
      match e0, e1, e2 with
      | ETick, ERecv, ERecvBroadcast =>
          all_ended ts && bool_decide (updates (channels c.2) = []) &&
          bool_decide (broadcasts (channels c.2) = []) &&
          negb (ticked (channels c.2)) && negb (ctx_done (channels c.2))
      | _, _, _ => false
      end
  | _ => false
  end.

Lemma at_rest_end sha c : at_rest c = true → ∀ c', ¬ step (quiet (manager sha)) c c'.
Proof.
  destruct c as [[|[|?|X0 e0 k0|] [|[|?|X1 e1 k1|] [|[|?|X2 e2 k2|] ts]]] w]; try done.
  unfold at_rest. simpl. revert k0 k1 k2. destruct e0; try done. destruct e1; try done.
  destruct e2; try done. intros k0 k1 k2.
  intros [[[[He%all_ended_spec Hu%bool_decide_eq_true_1]%andb_prop
    Hb%bool_decide_eq_true_1]%andb_prop Ht%negb_true_iff]%andb_prop Hc%negb_true_iff]%andb_prop.
  intros c' Hs. inversion Hs as [ts' i p ? p' w' new Hi Hst|ts' i d ? Hd Hi|]; subst; [| |done].
  - apply tstep_inv in Hst. destruct i as [|[|[|i]]]; simplify_eq/=.
    + destruct Hst as ([] & Hx & _); simpl in Hx; congruence.
    + destruct Hst as ([] & Hx & _); simpl in Hx; [by rewrite Hu in Hx|congruence].
    + destruct Hst as (r & Hx & _). simpl in Hx. by rewrite Hb in Hx.
    + rewrite Forall_lookup in He. by rewrite (He _ _ Hi) in Hst.
  - destruct i as [|[|[|i]]]; simplify_eq/=.
Qed.

(** The process has been created and its command has failed. *)
Theorem calls_return_witness :
  ∃ c : conf Bitmap, reachable (manager no_sha) run0 c ∧ length c.1 = 6%nat ∧
    is_Some (processes c.2 !! "sleep") ∧ (∀ i p, c.1 !! i = Some p → settled i p) ∧
    Acc (λ c' c, step (quiet (manager no_sha)) c c') c.
Proof.
  destruct (exec_witness (manager no_sha) stale_running_schedule run0
    (λ c, at_rest c && bool_decide (length c.1 = 6%nat) &&
      bool_decide (is_Some (processes c.2 !! "sleep")) && negb (ctx_done (channels c.2))))
    as (c & Hr & Hc); [by repeat constructor|by vm_compute|].
  apply andb_prop in Hc as [Hc Hd%negb_true_iff]. apply andb_prop in Hc as [Hc Hp].
  apply andb_prop in Hc as [Hc Hl]. apply bool_decide_eq_true_1 in Hl, Hp.
  destruct (calls_return no_sha bitmap_100_105 c Hr) as [Hacc Hend]. exists c.
  specialize (Hend c (rtc_refl _ _) (at_rest_end no_sha c Hc)). rewrite Hd in Hend.
  by destruct Hend as (_ & Hset & _).
Defined.
