(* ===== verification/Endpoint.v ===== *)
(** * Addresses, endpoints and TLS

    [pkg/util/grpcutil.go] and the addresses of [app/cmd/start.go]: the five
    services of an instance manager listen on consecutive ports of one host, an
    endpoint may name its protocol, and with certificates the two sides of a
    connection check each other's names. Reading a file, loading a key pair,
    listening and dialling are events of the host. *)
From S2P Require Import Prelude GoStrings Sched Process Calls ProxyEnv Messages Services Proxy.
From Stdlib Require Import DecimalString.

#[local] Open Scope Z_scope.

(** ** Endpoints *)

Definition parseEndpoint (ep : string) : res (string * string) :=
  match split_n2 ep "://" with
  | [] => Err (EPlain ("invalid endpoint: " +:+ ep))
  | [s0] => Ok ("tcp", s0)
  | s0 :: s1 :: _ =>
      if bool_decide (s1 ≠ "") then
        if bool_decide (s0 ≠ "unix" ∧ s0 ≠ "tcp") then
          Err (EPlain ("invalid endpoint: " +:+ ep +:+ " unsupported proto: " +:+ s0))
        else Ok (s0, s1)
      else Ok ("tcp", s0)
  end.

(** ** The addresses of the services *)

Definition DiskGrpcService : string := "disk gRPC server".
Definition SpdkGrpcService : string := "spdk gRPC server".
Definition ProcessManagerGrpcService : string := "process-manager gRPC server".
Definition InstanceGrpcService : string := "instance gRPC server".
Definition ProxyGRPCService : string := "proxy gRPC server".

Definition getServiceAddresses (listen : string) : res (gmap string string) :=
  match SplitHostPort listen with
  | Err e => Err e
  | Ok (host, port) =>
      match atoi port with
      | Err e => Err e
      | Ok intPort =>
          let at_port n := JoinHostPort host (itoa (int64 (intPort + n))) in
          Ok (list_to_map [
            (ProcessManagerGrpcService, at_port 0);
            (ProxyGRPCService, at_port 1);
            (DiskGrpcService, at_port 2);
            (InstanceGrpcService, at_port 3);
            (SpdkGrpcService, at_port 4)])
      end
  end.

(** The address a client in the same pod dials. *)
Definition client_host (host : string) : string :=
  if bool_decide (host = "0.0.0.0" ∨ host = "") then "127.0.0.1"
  else if bool_decide (host = "::") then "::1" else host.

Definition toClientAddress (serverAddr : string) : string :=
  match SplitHostPort serverAddr with
  | Err _ => serverAddr
  | Ok (host, port) => JoinHostPort (client_host host) port
  end.

(** [addresses[name]]: the empty string when there is none. *)
Definition address_of (addresses : gmap string string) (name : string) : string :=
  default "" (addresses !! name).

(** ** TLS *)

(** What the checks read of a certificate. *)
Record x509 := mkX509 { DNSNames : list string; CommonName : string }.

Inductive client_auth := NoClientCert | RequireAndVerifyClientCert.

Definition VersionTLS13 : Z := 772.

(** A loaded certificate and key, and a pool, by what they were made from. *)
Abbreviation certificate := string (only parsing).
Abbreviation cert_pool := string (only parsing).

Record handshake := mkHandshake {
  HMinVersion : Z; HCertificates : list certificate; HClientCAs : option cert_pool;
  HClientAuth : client_auth; VerifyPeerCertificate : list (list x509) → err;
}.

(** The server's configuration is made for every client: [None] is the panic of
    a server without a certificate. *)
Record server_tls := mkServerTLS { GetConfigForClient : bool → option (res handshake) }.

Record client_tls := mkClientTLS {
  CMinVersion : Z; CServerName : string; CRootCAs : option cert_pool;
  CCertificates : list certificate;
}.

Definition verify_peer (peerName : string) (verifiedChains : list (list x509)) : err :=
  if bool_decide (peerName = "") then None
  else match verifiedChains with
       | [] | [] :: _ => Some (EPlain "no valid certificate")
       | (leaf :: _) :: _ =>
           if existsb (λ name, bool_decide (name = peerName)) (DNSNames leaf) then None
           else if bool_decide (CommonName leaf = peerName) then None
           else Some (EPlain ("certificate is not signed for " +:+ quote peerName +:+ " hostname"))
       end.

Definition serverConfig (certPool : option cert_pool) (peerCert : option certificate)
    (peerName : string) : server_tls :=
  {| GetConfigForClient := λ has_info,
       if has_info then
         peerCert ← peerCert;
         Some (Ok {| HMinVersion := VersionTLS13; HCertificates := [peerCert];
                     HClientCAs := certPool;
                     HClientAuth := if bool_decide (peerName ≠ "") then RequireAndVerifyClientCert
                                    else NoClientCert;
                     VerifyPeerCertificate := verify_peer peerName |})
       else Some (Err (EPlain "nil client info passed")) |}.

Definition clientConfig (certPool : option cert_pool) (peerCert : option certificate)
    (peerName : string) : client_tls :=
  {| CMinVersion := VersionTLS13; CServerName := peerName; CRootCAs := certPool;
     CCertificates := option_list peerCert |}.

(** ** What start-up asks of the host *)

(** A file of the directory of certificates, or no file. *)
Abbreviation file := (option (string * string)).

Inductive hostE : Type → Type :=
  | ReadFile (f : string * string) : hostE (res string)
  | LoadX509KeyPair (cert key : file) : hostE (res certificate)
  (** the error, and whether it says that there is no such file *)
  | Remove (path : string) : hostE (option (error * bool))
  | Listen (proto addr : string) : hostE (res unit)
  (** [grpc.NewClient], with its credentials and the dialler of Unix sockets *)
  | NewClient (address : string) (creds : option client_tls) (unixDialer : bool) : hostE (res unit)
  (** the end of a connection, and of the context of a client *)
  | CloseConn (address : string) : hostE err
  | CancelContext : hostE unit.

Section tls.
(** [AppendCertsFromPEM]: whether a certificate was found in the text. *)
Context (AppendCertsFromPEM : string → bool).

Definition loadCertificate (caFile certFile keyFile : file) :
    free hostE (res (option cert_pool * option certificate)) :=
  c ← (if bool_decide (certFile ≠ None ∨ keyFile ≠ None) then
         r ← call (LoadX509KeyPair certFile keyFile);
         mret (match r with Err e => Err e | Ok cert => Ok (Some cert) end)
       else mret (Ok None));
  match c with
  | Err e => mret (Err e)
  | Ok peerCert =>
      match caFile with
      | None => mret (Ok (None, peerCert))
      | Some f =>
          r ← call (ReadFile f);
          match r with
          | Err e => mret (Err e)
          | Ok caCert =>
              mret (if AppendCertsFromPEM caCert then Ok (Some caCert, peerCert)
                    else Err (EPlain ("failed to append certs from " +:+ f.1 +:+ "/" +:+ f.2)))
          end
      end
  end.

Definition LoadServerTLS (caFile certFile keyFile : file) (peerName : string) :
    free hostE (res server_tls) :=
  r ← loadCertificate caFile certFile keyFile;
  mret (match r with Err e => Err e | Ok (pool, cert) => Ok (serverConfig pool cert peerName) end).

Definition LoadClientTLS (caFile certFile keyFile : file) (peerName : string) :
    free hostE (res client_tls) :=
  r ← loadCertificate caFile certFile keyFile;
  mret (match r with Err e => Err e | Ok (pool, cert) => Ok (clientConfig pool cert peerName) end).

(** The same from the encoded certificates; [X509KeyPair] parses them. *)
Definition ServerTLS (X509KeyPair : string → string → res certificate)
    (caCert cert key peerName : string) : res server_tls :=
  if AppendCertsFromPEM caCert then
    match X509KeyPair cert key with
    | Err e => Err e
    | Ok c => Ok (serverConfig (Some caCert) (Some c) peerName)
    end
  else Err (EPlain "failed to append CA certificate to pool").

Definition ClientTLS (X509KeyPair : string → string → res certificate)
    (caCert cert key peerName : string) : res client_tls :=
  if AppendCertsFromPEM caCert then
    match X509KeyPair cert key with
    | Err e => Err e
    | Ok c => Ok (clientConfig (Some caCert) (Some c) peerName)
    end
  else Err (EPlain "failed to append CA certificate to pool").

Definition TLSPeerName : string := "longhorn-backend.longhorn-system".

Definition loadTLSConfigsFromDir (tlsDir : string) : free hostE (res (server_tls * client_tls)) :=
  let caFile := Some (tlsDir, "ca.crt") in
  let certFile := Some (tlsDir, "tls.crt") in
  let keyFile := Some (tlsDir, "tls.key") in
  r ← LoadServerTLS caFile certFile keyFile TLSPeerName;
  match r with
  | Err e => mret (Err (EWrap ("failed to initialize server TLS from " +:+ tlsDir) e))
  | Ok serverTLSConfig =>
      r ← LoadClientTLS caFile certFile keyFile TLSPeerName;
      mret (match r with
            | Err e => Err (EWrap ("failed to initialize client TLS from " +:+ tlsDir) e)
            | Ok clientTLSConfig => Ok (serverTLSConfig, clientTLSConfig)
            end)
  end.
End tls.

(** ** Dialling and listening *)

Definition Connect (endpoint : string) (tlsConfig : option client_tls) : free hostE (res unit) :=
  match parseEndpoint endpoint with
  | Err e => mret (Err e)
  | Ok (proto, address) => call (NewClient address tlsConfig (bool_decide (proto = "unix")))
  end.

(** A gRPC server: where its listener listens, and its credentials. *)
Record grpc_server := mkGrpcServer {
  GsProto : string; GsAddr : string; GsCreds : option server_tls;
}.

Definition util_NewServer (endpoint : string) (tlsConfig : option server_tls) :
    free hostE (res grpc_server) :=
  match parseEndpoint endpoint with
  | Err e => mret (Err e)
  | Ok (proto, addr) =>
      removed ← (if bool_decide (proto = "unix") then call (Remove addr) else mret None);
      match removed with
      | Some (e, false) => mret (Err e)
      | _ =>
          r ← call (Listen proto addr);
          mret (match r with
                | Err e => Err e
                | Ok _ => Ok {| GsProto := proto; GsAddr := addr; GsCreds := tlsConfig |}
                end)
      end
  end.

(** ** Lemmas: numbers and hosts in addresses *)

Lemma itoa_bytes z : all_bytes (λ a, is_digit a || bool_decide (a = "-"%char)) (itoa z).
Proof.
  assert (∀ s, all_bytes is_digit s → all_bytes (λ a, is_digit a || bool_decide (a = "-"%char)) s)
    as Hd.
  { intros s. induction s as [|a s IH]; simpl; [done|]. intros [Ha Hs]%andb_True.
    apply andb_True. split; [by destruct (is_digit a)|by apply IH]. }
  destruct z as [|p|p]; [done|by apply Hd, itoa_digits|].
  apply (Hd (itoa (Zpos p))). by apply itoa_digits.
Qed.

Lemma itoa_inj a b : in_int64 a → in_int64 b → itoa a = itoa b → a = b.
Proof. intros Ha%atoi_itoa Hb%atoi_itoa Heq. rewrite Heq in Ha. congruence. Qed.

(** The hosts of addresses: names, IPv4 and IPv6 addresses. *)
Definition plain_host (host : string) : Prop :=
  contains "[" host = false ∧ contains "]" host = false ∧ contains "/" host = false.

#[export] Instance plain_host_dec host : Decision (plain_host host).
Proof. unfold plain_host. apply _. Defined.

Lemma split_address host z :
  plain_host host → SplitHostPort (JoinHostPort host (itoa z)) = Ok (host, itoa z).
Proof.
  intros (Ho & Hc & _). apply SplitHostPort_JoinHostPort; [done..| | |];
    by eapply contains_all_bytes, itoa_bytes.
Qed.

Lemma plain_client_host host : plain_host host → plain_host (client_host host).
Proof. intros. unfold client_host. by repeat case_bool_decide. Qed.

(** Where a client of a server that listens on [host] is to dial: a wildcard is
    replaced by the loopback address of its family. *)
Definition dials (host target : string) : Prop :=
  (host = "" ∨ host = "0.0.0.0" → target = "127.0.0.1") ∧
  (host = "::" → target = "::1") ∧
  (host ∉ [""; "0.0.0.0"; "::"] → target = host).

Lemma client_host_dials host : dials host (client_host host).
Proof.
  unfold dials, client_host.
  repeat case_bool_decide; split_and!; intros; simplify_eq; try done; set_solver.
Qed.

Lemma parseEndpoint_plain ep : contains "/" ep = false → parseEndpoint ep = Ok ("tcp", ep).
Proof.
  intros Hs. unfold parseEndpoint, split_n2. destruct (cut "://" ep) as [[x y]|] eqn:Hc; [|done].
  apply cut_sound in Hc. subst ep. rewrite contains_app in Hs. simpl in Hs.
  by rewrite orb_true_r in Hs.
Qed.

Lemma address_no_slash host z : plain_host host → contains "/" (JoinHostPort host (itoa z)) = false.
Proof.
  intros (_ & _ & Hs).
  assert (contains "/" (itoa z) = false) as Hz by by eapply contains_all_bytes, itoa_bytes.
  unfold JoinHostPort. case_match; rewrite !contains_app, Hs; simpl; by rewrite ?contains_app, Hz.
Qed.

(** The services in the order of their ports. *)
Definition services : list string :=
  [ProcessManagerGrpcService; ProxyGRPCService; DiskGrpcService; InstanceGrpcService;
   SpdkGrpcService].

(** What the address of a service gives to its server and to its clients. *)
Definition serves_at (host : string) (port : Z) (a : string) : Prop :=
  parseEndpoint a = Ok ("tcp", a) ∧ SplitHostPort a = Ok (host, itoa port) ∧
  ∃ target, SplitHostPort (toClientAddress a) = Ok (target, itoa port) ∧ dials host target.

Lemma serves_at_join host port : plain_host host → serves_at host port (JoinHostPort host (itoa port)).
Proof.
  intros Hh. split; [by apply parseEndpoint_plain, address_no_slash|].
  unfold toClientAddress. rewrite split_address by done. split; [done|].
  exists (client_host host). split; [by apply split_address, plain_client_host|].
  apply client_host_dials.
Qed.

Lemma getServiceAddresses_eq host port :
  plain_host host → in_int64 port → in_int64 (port + 4) →
  getServiceAddresses (JoinHostPort host (itoa port)) =
  Ok (list_to_map (zip services ((λ i, JoinHostPort host (itoa (port + i))) <$> seqZ 0 5))).
Proof.
  intros Hh Hp Hp4. unfold getServiceAddresses. rewrite split_address, atoi_itoa by done.
  unfold in_int64 in *.
  rewrite !(int64_id (port + _)) by (unfold in_int64; lia). reflexivity.
Qed.

(** Any address of the map is that of a service, at its place. *)
Lemma service_lookup host port name a :
  (list_to_map (zip services ((λ i, JoinHostPort host (itoa (port + i))) <$> seqZ 0 5))
     : gmap string string) !! name = Some a ↔
  ∃ i : nat, services !! i = Some name ∧ a = JoinHostPort host (itoa (port + Z.of_nat i)).
Proof.
  rewrite <- elem_of_list_to_map.
  2: { apply (bool_decide_unpack _). vm_compute. exact I. }
  rewrite list_elem_of_lookup. split.
  - intros (i & [Hi Ha]%lookup_zip_Some). exists i. split; [done|].
    apply list_lookup_fmap_Some in Ha as (z & -> & [-> _]%lookup_seqZ). by do 3 f_equal.
  - intros (i & Hi & ->). exists i. apply lookup_zip_Some. split; [done|].
    apply lookup_lt_Some in Hi. change (length services) with 5%nat in Hi.
    apply list_lookup_fmap_Some. exists (Z.of_nat i). split; [done|]. apply lookup_seqZ. lia.
Qed.

(** C26: The instance manager's five services get the consecutive ports from the
    one it is told to listen on: each name has one address, that its server
    listens on over TCP and that splits into the host and its port; a client in
    the pod dials the same port, on the same host or, when that is empty or a
    wildcard, on [127.0.0.1] or [::1]; no two services share an
    address. The V2 address that the proxy makes of a volume's address is that
    of the SPDK service only when the first port is 8500. *)
Theorem getServiceAddresses_correct (host : string) (port : Z) :
  plain_host host → in_int64 port → in_int64 (port + 4) →
  ∃ addresses, getServiceAddresses (JoinHostPort host (itoa port)) = Ok addresses ∧
    (∀ name, is_Some (addresses !! name) ↔ name ∈ services) ∧
    (∀ (i : nat) name, services !! i = Some name →
       serves_at host (port + Z.of_nat i) (address_of addresses name)) ∧
    (∀ n1 n2 a, addresses !! n1 = Some a → addresses !! n2 = Some a → n1 = n2) ∧
    (addresses !! SpdkGrpcService =
       Some (JoinHostPort host (itoa InstanceManagerSpdkServiceDefaultPort)) ↔ port = 8500).
Proof.
  intros Hh Hp Hp4. eexists. split; [by apply getServiceAddresses_eq|].
  assert (∀ i j : nat, (i < 5)%nat → (j < 5)%nat →
    JoinHostPort host (itoa (port + Z.of_nat i)) =
    JoinHostPort host (itoa (port + Z.of_nat j)) → i = j) as Hinj.
  { intros i j Hi Hj Heq%(f_equal SplitHostPort). rewrite !split_address in Heq by done.
    injection Heq as Heq%itoa_inj; unfold in_int64 in *; lia. }
  assert (∀ (i : nat) name, services !! i = Some name → (i < 5)%nat) as Hlt.
  { intros i name Hi%lookup_lt_Some. exact Hi. }
  split; [|split; [|split]].
  - intros name. split.
    + intros [a (i & Hi & _)%service_lookup]. by eapply list_elem_of_lookup_2.
    + intros [i Hi]%list_elem_of_lookup. eexists. apply service_lookup. eauto.
  - intros i name Hi. unfold address_of.
    rewrite (proj2 (service_lookup host port name _)) by eauto. by apply serves_at_join.
  - intros n1 n2 a (i & Hi & ->)%service_lookup (j & Hj & Heq)%service_lookup.
    apply Hinj in Heq; [|by eauto..]. subst j. congruence.
  - rewrite service_lookup. split.
    + intros (i & Hi & Heq%(f_equal SplitHostPort)). rewrite !split_address in Heq by done.
      injection Heq as Hz. apply (itoa_inj 8504) in Hz; [|done|apply Hlt in Hi; unfold in_int64 in *; lia].
      do 5 (destruct i as [|i]; [done || lia|]).
      done.
    + intros ->. exists 4%nat. done.
Qed.

Theorem getServiceAddresses_correct_witness :
  ∃ addresses, getServiceAddresses ":8500" = Ok addresses ∧
    SplitHostPort (toClientAddress (address_of addresses InstanceGrpcService)) =
      Ok ("127.0.0.1", "8503").
Proof.
  destruct (getServiceAddresses_correct "" 8500) as (m & Hm & _ & Hs & _); [done..|].
  exists m. split; [exact Hm|].
  destruct (Hs 3%nat InstanceGrpcService eq_refl) as (_ & _ & h & Hh & Hd & _).
  rewrite Hh. by rewrite Hd by auto.
Defined.

(** ** Endpoints with a protocol *)

Lemma cut_colons p a : contains ":" p = false → cut "://" (p +:+ "://" +:+ a) = Some (p, a).
Proof.
  induction p as [|b p IH]; [done|]. simpl.
  intros [Hb%bool_decide_eq_false Hp]%orb_false_iff. rewrite decide_False by congruence.
  simpl in IH. by rewrite IH.
Qed.

Lemma cut_last_some c s : contains c s = true →
  ∃ x y, cut_last c s = Some (x, y) ∧ s = x +:+ String c y ∧ contains c y = false.
Proof.
  induction s as [|b s IH]; [done|]. simpl. destruct (contains c s) eqn:Hc.
  - intros _. destruct IH as (x & y & -> & -> & Hy); [done|]. by exists (String b x), y.
  - rewrite orb_false_r. intros ->%bool_decide_eq_true.
    destruct (cut_last c s) as [[x y]|] eqn:Hx; [|rewrite decide_True by done; by exists "", s].
    exfalso. clear IH. revert x y Hx Hc. induction s as [|a s IH]; [done|]. simpl.
    intros x y Hx [Ha Hc]%orb_false_iff. apply bool_decide_eq_false in Ha.
    destruct (cut_last c s) as [[x' y']|]; [by eapply IH|]. by rewrite decide_False in Hx.
Qed.

Lemma atoi_slash s : ∃ e, atoi (String "/" s) = Err e.
Proof.
  unfold atoi, atoi_digits. simpl. destruct (NilEmpty.uint_of_string s); by eexists.
Qed.

Lemma listen_with_protocol p a :
  p ∈ ["tcp"; "unix"] → ∃ e, getServiceAddresses (p +:+ "://" +:+ a) = Err e.
Proof.
  intros Hp. unfold getServiceAddresses.
  assert (contains ":" p = false ∧ strip_prefix "[" (p +:+ "://" +:+ a) = None) as [Hp1 Hs].
  { rewrite !elem_of_cons, elem_of_nil in Hp. by destruct Hp as [->|[->|[]]]. }
  unfold SplitHostPort. rewrite Hs. clear Hs.
  change (p +:+ "://" +:+ a) with (p +:+ String ":" ("//" +:+ a)).
  destruct (cut_last_some ":" (p +:+ String ":" ("//" +:+ a))) as (x & y & -> & Hxy & Hy).
  { rewrite contains_app. simpl. by rewrite orb_true_r. }
  destruct (contains ":" x) eqn:Hx; [by eexists|].
  assert (Some (p, "//" +:+ a) = Some (x, y)) as [= -> <-].
  { rewrite <- (proj2 (cut_char_spec ":" _ x y) (conj Hxy Hx)).
    symmetry. by apply cut_char_spec. }
  destruct (atoi_slash ("/" +:+ a)) as [e He]. unfold no_brackets.
  destruct (contains "[" _); [by eexists|]. destruct (contains "]" _); [by eexists|].
  simpl in He |- *. rewrite He. by eexists.
Qed.

(** A client's endpoint may name its protocol, and nothing else is taken for
    one: [tcp://a] and [unix://a] stand for [a] over that protocol, another
    protocol is refused, an address without one is TCP. The daemon's [--listen]
    flag, whose help text names the same two protocols, is refused with either. *)
Theorem endpoint_protocols (p a : string) :
  contains ":" p = false → a ≠ "" →
  (p ∈ ["tcp"; "unix"] →
     parseEndpoint (p +:+ "://" +:+ a) = Ok (p, a) ∧
     ∃ e, getServiceAddresses (p +:+ "://" +:+ a) = Err e) ∧
  (p ∉ ["tcp"; "unix"] → ∃ e, parseEndpoint (p +:+ "://" +:+ a) = Err e) ∧
  (contains "/" a = false → parseEndpoint a = Ok ("tcp", a)).
Proof.
  intros Hp Ha. unfold parseEndpoint at 1 2, split_n2. rewrite cut_colons by done.
  rewrite bool_decide_true by done. split; [|split; [|apply parseEndpoint_plain]].
  - intros Hin. rewrite bool_decide_false by set_solver. split; [done|].
    by apply listen_with_protocol.
  - intros Hin. rewrite bool_decide_true by set_solver. eauto.
Qed.

Theorem endpoint_protocols_witness :
  parseEndpoint "unix:///var/run/im.sock" = Ok ("unix", "/var/run/im.sock") ∧
  ∃ e, getServiceAddresses "unix:///var/run/im.sock" = Err e.
Proof.
  destruct (endpoint_protocols "unix" "/var/run/im.sock") as [H _]; [done..|].
  apply H. set_solver.
Defined.

(** ** The checks of the two sides *)

Lemma verify_peer_spec peerName chains :
  verify_peer peerName chains = None ↔
  peerName = "" ∨ ∃ leaf rest more, chains = (leaf :: rest) :: more ∧
    (peerName ∈ DNSNames leaf ∨ CommonName leaf = peerName).
Proof.
  unfold verify_peer. case_bool_decide as Hn; [by split; [left|]|].
  destruct chains as [|[|leaf rest] more];
    [by split; [|intros [?|(?&?&?&?&_)]]..|].
  destruct (existsb _ _) eqn:He.
  - split; [|done]. intros _. right. exists leaf, rest, more. split; [done|]. left.
    apply existsb_exists in He as (n & Hin & ->%bool_decide_eq_true).
    by apply list_elem_of_In.
  - case_bool_decide as Hc; [by split; [right; eauto 10|]|].
    split; [done|]. intros [?|(?&?&?&[= <- <- <-]&[Hin|?])]; [done| |done].
    apply not_true_iff_false in He. destruct He. apply existsb_exists.
    exists peerName. split; [by apply list_elem_of_In|by apply bool_decide_eq_true].
Qed.

Section tls_props.
Context (AppendCertsFromPEM : string → bool) (o : ∀ X, hostE X → X).

(** What [loadCertificate] returns when all three files are named. *)
Definition loaded (ca cert key : string * string) :
    res (option cert_pool * option certificate) :=
  match o _ (LoadX509KeyPair (Some cert) (Some key)) with
  | Err e => Err e
  | Ok c =>
      match o _ (ReadFile ca) with
      | Err e => Err e
      | Ok pem =>
          if AppendCertsFromPEM pem then Ok (Some pem, Some c)
          else Err (EPlain ("failed to append certs from " +:+ ca.1 +:+ "/" +:+ ca.2))
      end
  end.

Lemma result_loadCertificate ca cert key :
  (eval o (loadCertificate AppendCertsFromPEM (Some ca) (Some cert) (Some key))).1 =
  Some (loaded ca cert key).
Proof.
  unfold loadCertificate, loaded. simpl. destruct (o _ (LoadX509KeyPair _ _)) as [c|e]; [|done].
  simpl. by destruct (o _ (ReadFile ca)).
Qed.

Lemma result_loadTLS dir :
  let l := loaded (dir, "ca.crt") (dir, "tls.crt") (dir, "tls.key") in
  ∃ e, (eval o (loadTLSConfigsFromDir AppendCertsFromPEM dir)).1 =
       Some (match l with
             | Ok (pool, cert) =>
                 Ok (serverConfig pool cert TLSPeerName, clientConfig pool cert TLSPeerName)
             | Err _ => Err e
             end).
Proof.
  intros l. subst l. unfold loadTLSConfigsFromDir, LoadServerTLS, LoadClientTLS.
  rewrite !result_bind, result_loadCertificate. destruct (loaded _ _ _) as [[pool cert]|e] eqn:Hl.
  - exists (EPlain ""). change (Some (Ok (pool, cert)) ≫= ?f) with (f (Ok (pool, cert))).
    cbn [eval mret free_ret fst mbind option_bind]. by rewrite !result_bind, result_loadCertificate, Hl.
  - by eexists.
Qed.

(** C27: With a directory of certificates both sides are checked. The
    configurations are loaded exactly when the key pair and the authorities can
    be read; then a server requires TLS 1.3 and a certificate of every client,
    signed by those authorities, and accepts it exactly when its first verified
    chain starts with a certificate for the backend's name; a client trusts the
    same authorities, shows the same key and expects the same name. *)
Theorem mutual_tls (tlsDir : string) :
  let r := (eval o (loadTLSConfigsFromDir AppendCertsFromPEM tlsDir)).1 in
  match o _ (LoadX509KeyPair (Some (tlsDir, "tls.crt")) (Some (tlsDir, "tls.key"))),
        o _ (ReadFile (tlsDir, "ca.crt")) with
  | Ok key, Ok ca =>
      if AppendCertsFromPEM ca then
        ∃ s c h, r = Some (Ok (s, c)) ∧
          GetConfigForClient s true = Some (Ok h) ∧
          HMinVersion h = VersionTLS13 ∧ HClientAuth h = RequireAndVerifyClientCert ∧
          HClientCAs h = Some ca ∧ HCertificates h = [key] ∧
          (∀ chains, VerifyPeerCertificate h chains = None ↔
             ∃ leaf rest more, chains = (leaf :: rest) :: more ∧
               (TLSPeerName ∈ DNSNames leaf ∨ CommonName leaf = TLSPeerName)) ∧
          c = {| CMinVersion := VersionTLS13; CServerName := TLSPeerName; CRootCAs := Some ca;
                 CCertificates := [key] |}
      else ∃ e, r = Some (Err e)
  | _, _ => ∃ e, r = Some (Err e)
  end.
Proof.
  intros r. destruct (result_loadTLS tlsDir) as [e Hr]. fold r in Hr. unfold loaded in Hr.
  destruct (o _ (LoadX509KeyPair _ _)) as [key|]; [|eauto].
  destruct (o _ (ReadFile _)) as [ca|]; [|eauto]. destruct (AppendCertsFromPEM ca); [|eauto].
  eexists _, _, _. split; [exact Hr|]. simpl. repeat (split; [done|]). split; [|done].
  intros chains. etrans; [apply (verify_peer_spec TLSPeerName)|]. naive_solver.
Qed.
End tls_props.
