(* ===== verification/Health.v ===== *)
(** * Health checks and versions

    [pkg/health]: every server has a health service beside it, which answers
    that it serves. The five files differ in the kind of server, in a message and
    in the name their logs give it. [pkg/meta/version.go] and the [VersionGet] methods of the servers
    and their clients. *)
From S2P Require Import Prelude GoStrings Calls Grpc Endpoint.

#[local] Open Scope Z_scope.

(** ** Health *)

Definition HealthCheckResponse_SERVING : Z := 1.
Definition HealthCheckResponse_NOT_SERVING : Z := 2.

Record HealthCheckResponse := mkHealth { HStatus : Z }.

(** What the services share: [present] says that the server is not nil. *)
Definition health_status (present : bool) : HealthCheckResponse :=
  {| HStatus := if present then HealthCheckResponse_SERVING
                else HealthCheckResponse_NOT_SERVING |}.

Definition health_check (not_running : string) (present : bool) : reply HealthCheckResponse :=
  if present then (Some (health_status true), None)
  else (Some (health_status false), Some (EPlain not_running)).

Definition CheckServer_Check : bool → reply HealthCheckResponse :=
  health_check "engine Manager or Process Manager or Instance Manager is not running".
Definition CheckDiskServer_Check : bool → reply HealthCheckResponse :=
  health_check "server or instance manager is not running".
Definition CheckInstanceServer_Check : bool → reply HealthCheckResponse :=
  health_check "server or instance manager is not running".
Definition CheckProxyServer_Check : bool → reply HealthCheckResponse :=
  health_check "proxy or instance manager is not running".
Definition CheckSPDKServer_Check : bool → reply HealthCheckResponse :=
  health_check "server or instance manager is not running".

(** The one entry of every list, whatever the server. *)
Definition health_list : list (string * HealthCheckResponse) := [("grpc", health_status true)].

Definition CheckServer_List := health_list.
Definition CheckDiskServer_List := health_list.
Definition CheckInstanceServer_List := health_list.
Definition CheckProxyServer_List := health_list.
Definition CheckSPDKServer_List := health_list.

Inductive healthE : Type → Type :=
  | SendHealth (r : HealthCheckResponse) : healthE (option error)
  | LogSendFailure (r : HealthCheckResponse) (service : string) (e : error) : healthE unit
  | SleepSecond : healthE unit.

(** A turn of the loop of [Watch]: the error of a send is logged. *)
Definition watch_turn (service : string) (present : bool) : free healthE unit :=
  e ← call (SendHealth (health_status present));
  match e with
  | Some e => call (LogSendFailure (health_status present) service e)
  | None => mret tt
  end;;
  call SleepSecond.

(** The first [n] turns of the loop, which has no exit. *)
Fixpoint health_watch (service : string) (n : nat) (present : bool) : free healthE unit :=
  match n with
  | O => mret tt
  | S n' => watch_turn service present;; health_watch service n' present
  end.

(** The five methods name their service in the log. *)
Definition CheckServer_Watch := health_watch "gRPC process management server".
Definition CheckDiskServer_Watch := health_watch DiskGrpcService.
Definition CheckInstanceServer_Watch := health_watch InstanceGrpcService.
Definition CheckProxyServer_Watch := health_watch ProxyGRPCService.
Definition CheckSPDKServer_Watch := health_watch SpdkGrpcService.

(** [CheckConnection] of the clients: only the error of the check counts. *)
Definition CheckConnection (check : reply HealthCheckResponse) : option error :=
  match over_grpc (health_status false) check with Ok _ => None | Err e => Some e end.

(** A client's check succeeds exactly when there is a server. *)
Lemma CheckConnection_spec msg present :
  CheckConnection (health_check msg present) = None ↔ present = true.
Proof. by destruct present. Qed.

(** What a turn does when the sends have the result [r]. *)
Definition turn_calls (service : string) (present : bool) (r : option error) :
    list (logged healthE) :=
  log (SendHealth (health_status present)) ::
  match r with
  | Some e => [log (LogSendFailure (health_status present) service e)]
  | None => []
  end ++ [log SleepSecond].

(** [Watch] goes on whatever becomes of its sends: a caller that has gone is
    sent to for ever, with a line in the log at every turn. *)
Lemma health_watch_goes_on o service n present :
  eval o (health_watch service n present) =
  (Some tt, concat (repeat (turn_calls service present (o _ (SendHealth (health_status present)))) n)).
Proof.
  induction n as [|n IH]; [done|]. cbn [health_watch repeat concat]. rewrite eval_bind.
  assert (eval o (watch_turn service present) =
    (Some tt, turn_calls service present (o _ (SendHealth (health_status present))))) as ->.
  { unfold watch_turn, turn_calls. simpl. destruct (o _ (SendHealth _)); simpl; by destruct (o _ SleepSecond). }
  by rewrite IH.
Qed.

(** ** Versions *)

Definition InstanceManagerAPIVersion : Z := 7.
Definition InstanceManagerAPIMinVersion : Z := 1.
Definition InstanceManagerProxyAPIVersion : Z := 8.
Definition InstanceManagerProxyAPIMinVersion : Z := 1.
Definition InstanceManagerDiskServiceAPIVersion : Z := 1.
Definition InstanceManagerDiskServiceAPIMinVersion : Z := 1.

(** The variables of the build. *)
Record build := mkBuild { BVersion : string; BGitCommit : string; BBuildDate : string }.

Record meta_VersionOutput := mkMetaVersion {
  MvBuild : build; MvAPIVersion : Z; MvAPIMinVersion : Z; MvProxyAPIVersion : Z;
  MvProxyAPIMinVersion : Z;
}.

Record DiskServiceVersionOutput := mkDiskVersion {
  DvBuild : build; DvAPIVersion : Z; DvAPIMinVersion : Z;
}.

Definition GetVersion (b : build) : meta_VersionOutput :=
  {| MvBuild := b; MvAPIVersion := InstanceManagerAPIVersion;
     MvAPIMinVersion := InstanceManagerAPIMinVersion;
     MvProxyAPIVersion := InstanceManagerProxyAPIVersion;
     MvProxyAPIMinVersion := InstanceManagerProxyAPIMinVersion |}.

Definition GetDiskServiceVersion (b : build) : DiskServiceVersionOutput :=
  {| DvBuild := b; DvAPIVersion := InstanceManagerDiskServiceAPIVersion;
     DvAPIMinVersion := InstanceManagerDiskServiceAPIMinVersion |}.

(** Conversions from [int] to [int64] and back, field by field: the messages
    have the fields of the outputs. *)
Definition version_int64 (v : meta_VersionOutput) : meta_VersionOutput :=
  {| MvBuild := MvBuild v; MvAPIVersion := int64 (MvAPIVersion v);
     MvAPIMinVersion := int64 (MvAPIMinVersion v);
     MvProxyAPIVersion := int64 (MvProxyAPIVersion v);
     MvProxyAPIMinVersion := int64 (MvProxyAPIMinVersion v) |}.
Definition disk_version_int64 (v : DiskServiceVersionOutput) : DiskServiceVersionOutput :=
  {| DvBuild := DvBuild v; DvAPIVersion := int64 (DvAPIVersion v);
     DvAPIMinVersion := int64 (DvAPIMinVersion v) |}.

(** [VersionGet] of the process manager, of the instance server (the same
    text) and of the disk server. *)
Definition Manager_VersionGet (b : build) : reply meta_VersionOutput :=
  ok (version_int64 (GetVersion b)).
Definition InstanceServer_VersionGet (b : build) : reply meta_VersionOutput :=
  ok (version_int64 (GetVersion b)).
Definition DiskServer_VersionGet (b : build) : reply DiskServiceVersionOutput :=
  ok (disk_version_int64 (GetDiskServiceVersion b)).

(** The clients' methods, on what the call returned. *)
Definition ProcessManagerClient_VersionGet (r : res meta_VersionOutput) : res meta_VersionOutput :=
  match r with
  | Err e => Err (EWrap "failed to get version" e)
  | Ok v => Ok (version_int64 v)
  end.
Definition InstanceClient_VersionGet (r : res meta_VersionOutput) : res meta_VersionOutput :=
  match r with
  | Err e => Err (EWrap "failed to get version" e)
  | Ok v => Ok (version_int64 v)
  end.
Definition DiskClient_VersionGet (r : res DiskServiceVersionOutput) :
    res DiskServiceVersionOutput :=
  match r with
  | Err e => Err (EWrap "failed to get disk service version" e)
  | Ok v => Ok (disk_version_int64 v)
  end.

(** A client is told the versions the server was built with. *)
Lemma VersionGet_end_to_end b b' :
  ProcessManagerClient_VersionGet (over_grpc (GetVersion b') (Manager_VersionGet b)) =
    Ok (GetVersion b) ∧
  InstanceClient_VersionGet (over_grpc (GetVersion b') (InstanceServer_VersionGet b)) =
    Ok (GetVersion b) ∧
  DiskClient_VersionGet (over_grpc (GetDiskServiceVersion b') (DiskServer_VersionGet b)) =
    Ok (GetDiskServiceVersion b).
Proof. by split_and!. Qed.
