(* ===== verification/Dial.v ===== *)
(** * The constructors of the clients

    How the clients of [pkg/client] get their connections and give them up: one
    constructor on [Connect] and one that loads the certificates first, for each
    of the four services. A client is what its methods use of it: its URL and
    the address of its connection. *)
From S2P Require Import Prelude GoStrings Process Calls Grpc ProxyEnv Messages Services Proxy Endpoint.

#[local] Open Scope Z_scope.

Record service_client := mkServiceClient {
  ServiceURL : string; ClientCreds : option client_tls; cc : string;
}.

(** The common body: [cannot] is the text of the error. *)
Definition dial (cannot serviceURL : string) (tls : option client_tls) :
    free hostE (res service_client) :=
  match parseEndpoint serviceURL with
  | Err e => mret (Err (EWrap (cannot +:+ serviceURL) e))
  | Ok (_, address) =>
      r ← Connect serviceURL tls;
      mret (match r with
            | Err e => Err (EWrap (cannot +:+ serviceURL) e)
            | Ok _ => Ok {| ServiceURL := serviceURL; ClientCreds := tls; cc := address |}
            end)
  end.

Definition NewProcessManagerClient := dial "cannot connect to ProcessManagerService ".
Definition NewInstanceServiceClient := dial "cannot connect to Instance Service ".
Definition NewDiskServiceClient := dial "cannot connect to Disk Service ".
Definition NewProxyClient (address : string) (port : Z) (tls : option client_tls) :=
  dial "cannot connect to ProxyService " (GetURL address port) tls.

Section with_tls.
Context (AppendCertsFromPEM : string → bool).

Definition with_tls (new : option client_tls → free hostE (res service_client))
    (ca cert key : file) (peerName : string) : free hostE (res service_client) :=
  r ← LoadClientTLS AppendCertsFromPEM ca cert key peerName;
  match r with
  | Err e => mret (Err (EWrap "failed to load tls key pair from file" e))
  | Ok tls => new (Some tls)
  end.

Definition NewProcessManagerClientWithTLS (serviceURL : string) :=
  with_tls (NewProcessManagerClient serviceURL).
Definition NewInstanceServiceClientWithTLS (serviceURL : string) :=
  with_tls (NewInstanceServiceClient serviceURL).
Definition NewDiskServiceClientWithTLS (serviceURL : string) :=
  with_tls (NewDiskServiceClient serviceURL).
Definition NewProxyClientWithTLS (address : string) (port : Z) :=
  with_tls (NewProxyClient address port).
End with_tls.

(** [Close]: the context is cancelled first; a client without a connection has
    nothing to close. The disk client leaves its context alone. *)
Definition close_client (what : string) (c : option service_client) : free hostE err :=
  call CancelContext;;
  match c with
  | None => mret None
  | Some c => e ← call (CloseConn (cc c)); mret (wrap ("failed to close " +:+ what +:+ " gRPC connection") e)
  end.

Definition ProcessManagerClient_Close := close_client "process manager".
Definition InstanceServiceClient_Close := close_client "instance".
Definition DiskServiceClient_Close (c : option service_client) : free hostE err :=
  match c with None => mret None | Some c => call (CloseConn (cc c)) end.
(** The proxy's client is not checked for a missing connection. *)
Definition ProxyClient_Close (c : option service_client) : free hostE err :=
  call CancelContext;;
  c ← deref c;
  e ← call (CloseConn (cc c)); mret (wrap "failed to close proxy gRPC connection" e).

(** ** Connections *)

#[export] Instance host_roles : Roles hostE string := λ X e,
  match e in hostE X return role string X with
  | NewClient address _ _ => Opens address (λ r, match r with Ok _ => true | Err _ => false end)
  | CloseConn address => Closes address
  | _ => Plain
  end.

(** The connections a constructor leaves open: that of its client. *)
Definition opened (r : res service_client) : list string :=
  match r with Ok c => [cc c] | Err _ => [] end.

(** The clients that are open after a constructor. *)
Definition leaves (cs : list string) (r : option (res service_client)) (cs' : list string) : Prop :=
  match r with Some x => cs' = opened x ++ cs | None => cs' = cs end.

Lemma disc_dial cannot serviceURL tls cs :
  disc (leaves cs) cs (dial cannot serviceURL tls).
Proof.
  unfold dial, Connect. destruct (parseEndpoint serviceURL) as [[p a]|e]; [|done].
  simpl. by intros [[]|e].
Qed.

Section tls_props.
Context (AppendCertsFromPEM : string → bool).

Lemma tidy_load ca cert key peerName :
  tidy (LoadClientTLS AppendCertsFromPEM ca cert key peerName).
Proof.
  unfold LoadClientTLS, loadCertificate. apply keeps_bind; [|intros; apply keeps_pure].
  apply keeps_bind.
  - case_bool_decide; [|apply keeps_pure]. apply keeps_bind; [by apply keeps_plain|].
    intros; apply keeps_pure.
  - intros [cert'|e]; [|apply keeps_pure]. destruct ca; [|apply keeps_pure].
    apply keeps_bind; [by apply keeps_plain|]. intros [pem|e]; [|apply keeps_pure].
    by destruct (AppendCertsFromPEM pem); apply keeps_pure.
Qed.

Lemma disc_with_tls new ca cert key peerName cs :
  (∀ tls, disc (leaves cs) cs (new tls)) →
  disc (leaves cs) cs (with_tls AppendCertsFromPEM new ca cert key peerName).
Proof.
  intros Hn. apply disc_bind. eapply disc_weaken; [|by apply tidy_load].
  by intros [[tls|e]|] ? ->.
Qed.
End tls_props.

(** A client that is made and closed leaves no connection open. *)
Lemma close_disc what c cs :
  disc (λ _ cs', cs' = cs) (cc c :: cs) (close_client what (Some c)).
Proof. simpl. split; [set_solver|]. intros e. by rewrite decide_True. Qed.
