(* ===== verification/Flags.v ===== *)
(** * The flags of the command line

    [main.go] and the [*Cmd] functions of [app/cmd]: the commands, their flags
    with the default values, and what an action reads. The library parses the
    arguments; what it found is a [parsed], in which a flag is looked for among
    the flags of the command first and of the commands above it then. *)
From S2P Require Import Prelude.

#[local] Open Scope Z_scope.

Inductive flag_value :=
  | FlagString (s : string)
  | FlagInt (n : Z)
  | FlagBool (b : bool)
  | FlagSlice (l : list string).

(** A flag, the environment variable it may come from, and its default. *)
Record flag := mkFlag { FlagName : string; FlagEnv : option string; FlagDefault : flag_value }.

Definition StringFlag (name value : string) : flag := mkFlag name None (FlagString value).
Definition IntFlag (name : string) : flag := mkFlag name None (FlagInt 0).
Definition BoolFlag (name : string) : flag := mkFlag name None (FlagBool false).
Definition StringSliceFlag (name : string) : flag := mkFlag name None (FlagSlice []).

Record command := mkCommand {
  CmdName : string; CmdAliases : list string; CmdFlags : list flag;
}.

(** ** The commands *)

Definition main_flags : list flag :=
  [StringFlag "url" "tcp://localhost:8500"; BoolFlag "debug";
   mkFlag "tls-dir" (Some "TLS_DIR") (FlagString "")].

Definition StartCmd : command :=
  mkCommand "daemon" []
    [StringFlag "listen" "localhost:8500"; StringFlag "logs-dir" "/var/log/instances";
     StringFlag "port-range" "10000-20000"; StringFlag "spdk-port-range" "20001-30000";
     BoolFlag "spdk-enabled"].

Definition ProcessCreateCmd : command :=
  mkCommand "create" []
    [StringFlag "name" ""; StringFlag "binary" ""; IntFlag "port-count";
     StringSliceFlag "port-args"].

Definition ProcessDeleteCmd : command :=
  mkCommand "delete" [] [StringFlag "name" ""; StringFlag "uuid" ""].

Definition ProcessGetCmd : command := mkCommand "get" [] [StringFlag "name" ""].

Definition ProcessListCmd : command := mkCommand "list" ["ls"] [].

Definition ProcessReplaceCmd : command :=
  mkCommand "replace" []
    [StringFlag "name" ""; StringFlag "binary" ""; IntFlag "port-count";
     StringSliceFlag "port-args"; StringFlag "terminate-signal" "SIGHUP"].

Definition VersionCmd : command := mkCommand "version" [] [BoolFlag "client-only"].

(** ** What an action reads *)

(** The flags that were given, the environment, the flags of the command and of
    those above it, and the other arguments. *)
Record parsed := mkParsed {
  Given : gmap string flag_value; Env : gmap string string;
  Lineage : list (list flag); Args : list string;
}.

Definition lookupFlag (c : parsed) (name : string) : option flag :=
  list_find (λ f, FlagName f = name) (concat (Lineage c)) ≫= λ r, Some r.2.

(** The value of a flag: as given, from its variable, or the default. *)
Definition flag_get (c : parsed) (f : flag) : flag_value :=
  match Given c !! FlagName f with
  | Some v => v
  | None =>
      match FlagEnv f ≫= (λ key, Env c !! key) with
      | Some s => FlagString s
      | None => FlagDefault f
      end
  end.

Definition Value (c : parsed) (name : string) : option flag_value :=
  flag_get c <$> lookupFlag c name.

Definition String_of (c : parsed) (name : string) : string :=
  match Value c name with Some (FlagString s) => s | _ => "" end.
Definition Int_of (c : parsed) (name : string) : Z :=
  match Value c name with Some (FlagInt n) => n | _ => 0 end.
Definition Bool_of (c : parsed) (name : string) : bool :=
  match Value c name with Some (FlagBool b) => b | _ => false end.
Definition StringSlice_of (c : parsed) (name : string) : list string :=
  match Value c name with Some (FlagSlice l) => l | _ => [] end.

(** A subcommand of [process] under the root command, or a command of the root. *)
Definition run_with (above : list (list flag)) (cmd : command) (given : gmap string flag_value)
    (env : gmap string string) (args : list string) : parsed :=
  {| Given := given; Env := env; Lineage := CmdFlags cmd :: above; Args := args |}.

Definition has_name (name : string) (cmd : command) : Prop :=
  CmdName cmd = name ∨ name ∈ CmdAliases cmd.

#[export] Instance has_name_dec name cmd : Decision (has_name name cmd).
Proof. unfold has_name. apply _. Defined.

(** A flag that is not among the arguments. *)
Lemma String_default c name f :
  lookupFlag c name = Some f → Given c !! FlagName f = None →
  String_of c name =
    match FlagEnv f ≫= (λ key, Env c !! key) with
    | Some s => s
    | None => match FlagDefault f with FlagString s => s | _ => "" end
    end.
Proof.
  intros Hf Hg. unfold String_of, Value, flag_get. rewrite Hf. simpl. rewrite Hg. by destruct (_ ≫= _).
Qed.
