(* ===== verification/Cli.v ===== *)
(** * The command line

    [main.go], [app/cmd/process.go] and [version.go]: every command reads its
    flags, dials the process manager, makes one request, prints the answer and
    hangs up; the action around it ends the program when it fails. *)
From S2P Require Import Prelude GoStrings Process Calls Grpc ProxyEnv Messages Services Health Proxy Endpoint Dial Flags.

(** What a command prints, as JSON. *)
Inductive printed :=
  | PrintProcess (r : ProcessResponse)
  | PrintProcesses (m : gmap string ProcessResponse)
  | PrintVersions (client : meta_VersionOutput) (server : option meta_VersionOutput).

Inductive cliE : Type → Type :=
  | CHost {X} (e : hostE X) : cliE X
  | CSvc {X} (e : callE X) : cliE X
  | RpcVersionGet (address : string) : cliE (res meta_VersionOutput)
  | Println (line : string) : cliE unit
  (** the message and the error are logged, and the program ends *)
  | Fatal (msg : string) (e : error) : cliE unit.

(** Connections are named by their addresses; the requests of the process
    manager's client use the one to the address they are made at. *)
#[export] Instance cli_roles : Roles cliE string := λ X e,
  match e in cliE X return role string X with
  | CHost h => role_of h
  | CSvc c =>
      match c in callE X return role string X with
      | PM address _ => Uses address
      | _ => Plain
      end
  | RpcVersionGet address => Uses address
  | Println _ => Plain
  | Fatal _ _ => Plain
  end.

Section cli.
(** [json.MarshalIndent] on what is printed. *)
Context (AppendCertsFromPEM : string → bool) (MarshalIndent : printed → res string).

Definition PrintJSON (obj : printed) : free cliE err :=
  match MarshalIndent obj with
  | Err e => mret (Some e)
  | Ok output => call (Println output);; mret None
  end.

Definition getProcessManagerClient (c : parsed) : free hostE (res service_client) :=
  let url := String_of c "url" in
  let tlsDir := String_of c "tls-dir" in
  let plain := NewProcessManagerClient url None in
  if bool_decide (tlsDir ≠ "") then
    r ← NewProcessManagerClientWithTLS AppendCertsFromPEM url (Some (tlsDir, "ca.crt"))
          (Some (tlsDir, "tls.crt")) (Some (tlsDir, "tls.key")) TLSPeerName;
    match r with Ok imClient => mret (Ok imClient) | Err _ => plain end
  else plain.

(** The steps every command of processes takes: the client, the deferred close,
    the request and its error, the printing. *)
Definition process_command {A} (failed : string) (request : string → free callE (res A))
    (show : A → printed) (c : parsed) : free cliE err :=
  r ← lift (@CHost) (getProcessManagerClient c);
  match r with
  | Err e => mret (Some (EWrap "failed to initialize ProcessManager client" e))
  | Ok client =>
      defer (lift (@CHost) (ProcessManagerClient_Close (Some client))) (
        r ← lift (@CSvc) (request (cc client));
        match r with
        | Err e => mret (Some (EWrap failed e))
        | Ok a => PrintJSON (show a)
        end)
  end.

Definition createProcess (c : parsed) : free cliE err :=
  process_command "failed to create process"
    (λ a, ProcessManagerClient_ProcessCreate a (String_of c "name") (String_of c "binary")
            (Int_of c "port-count") (Args c) (StringSlice_of c "port-args")) PrintProcess c.

Definition deleteProcess (c : parsed) : free cliE err :=
  process_command "failed to delete process"
    (λ a, ProcessManagerClient_ProcessDelete a (String_of c "name") (String_of c "uuid"))
    PrintProcess c.

(** The text of the error is the one of [deleteProcess]. *)
Definition getProcess (c : parsed) : free cliE err :=
  process_command "failed to delete process"
    (λ a, ProcessManagerClient_ProcessGet a (String_of c "name")) PrintProcess c.

Definition listProcess (c : parsed) : free cliE err :=
  process_command "failed to list processes" ProcessManagerClient_ProcessList PrintProcesses c.

Definition replaceProcess (c : parsed) : free cliE err :=
  process_command "failed to replace processes"
    (λ a, ProcessManagerClient_ProcessReplace a (String_of c "name") (String_of c "binary")
            (Int_of c "port-count") (Args c) (StringSlice_of c "port-args")
            (String_of c "terminate-signal"))
    PrintProcess c.

Definition version (b : build) (c : parsed) : free cliE err :=
  let clientVersion := GetVersion b in
  if Bool_of c "client-only" then PrintJSON (PrintVersions clientVersion None)
  else
    r ← lift (@CHost) (getProcessManagerClient c);
    match r with
    | Err e => mret (Some (EWrap "failed to initialize ProcessManagerClient" e))
    | Ok client =>
        defer (lift (@CHost) (ProcessManagerClient_Close (Some client))) (
          r ← call (RpcVersionGet (cc client));
          match ProcessManagerClient_VersionGet r with
          | Err e => mret (Some e)
          | Ok v => PrintJSON (PrintVersions clientVersion (Some v))
          end)
    end.

(** ** The commands of [main] *)

(** An action: a failure ends the program with a message. *)
Definition action (msg : string) (run : parsed → free cliE err) (c : parsed) : free cliE err :=
  err ← run c;
  match err with Some e => call (Fatal msg e);; mret (Some e) | None => mret None end.

(** The subcommands of [process]. Two of the messages are those of other programs. *)
Definition ProcessCmd : list (command * (parsed → free cliE err)) :=
  [(ProcessCreateCmd, action "Error running process create command" createProcess);
   (ProcessDeleteCmd, action "Error running process delete command" deleteProcess);
   (ProcessGetCmd, action "Error running process get command" getProcess);
   (ProcessListCmd, action "Error running engine stop command" listProcess);
   (ProcessReplaceCmd, action "Error running engine replace command" replaceProcess)].

Fixpoint find_command (name : string) (l : list (command * (parsed → free cliE err))) :
    option (command * (parsed → free cliE err)) :=
  match l with
  | [] => None
  | x :: l' => if decide (has_name name x.1) then Some x else find_command name l'
  end.

(** The client commands by the words that name them; [daemon] is [StartCmd]. *)
Definition client_commands (b : build) (words : list string) :
    option (command * (parsed → free cliE err)) :=
  match words with
  | [word] =>
      if bool_decide (word = CmdName VersionCmd)
      then Some (VersionCmd, action "Error running info command" (version b)) else None
  | [word; name] =>
      if bool_decide (word = "process") then find_command name ProcessCmd else None
  | _ => None
  end.

(** [main], from the words of the command and what the library parsed. *)
Definition main (b : build) (words : list string) (given : gmap string flag_value)
    (env : gmap string string) (args : list string) : option (free cliE err) :=
  match client_commands b words with
  | Some (cmd, run) => Some (run (run_with [main_flags] cmd given env args))
  | None => None
  end.
End cli.

(** ** No command leaves a connection open *)

(** The programs of the host keep the discipline under the name [CHost]. *)
Lemma disc_host {A} (Q : option A → list string → Prop) (p : free hostE A) cs :
  disc Q cs p → disc Q cs (lift (@CHost) p).
Proof.
  revert cs. induction p as [a| |X e k IH]; intros cs; simpl; [done|done|].
  unfold role_of, cli_roles, role_of. destruct (host_roles X e); naive_solver.
Qed.

Section tidy.
Context (AppendCertsFromPEM : string → bool) (MarshalIndent : printed → res string).

Lemma disc_client c cs :
  disc (leaves cs) cs (getProcessManagerClient AppendCertsFromPEM c).
Proof.
  unfold getProcessManagerClient. case_bool_decide; [|apply disc_dial].
  apply disc_bind. eapply disc_weaken; [|apply disc_with_tls; intros; apply disc_dial].
  intros [[a|e]|] ? ->; [done|apply disc_dial|done].
Qed.

(** A command after its client is made. *)
Lemma disc_command client (body : free cliE err) cs :
  keeps (Some (cc client)) body →
  disc (λ _ cs', cs' = cs) (cc client :: cs)
    (defer (lift (@CHost) (ProcessManagerClient_Close (Some client))) body).
Proof. intros Hb. apply disc_defer; [apply disc_host, close_disc|apply Hb; set_solver]. Qed.

Lemma keeps_PrintJSON a obj : keeps a (PrintJSON MarshalIndent obj).
Proof. unfold PrintJSON. destruct (MarshalIndent obj); [|apply keeps_pure]. by intros cs _. Qed.

Lemma process_command_tidy {A} failed (request : string → free callE (res A)) show c :
  (∀ a, keeps (Some a) (lift (@CSvc) (request a))) →
  tidy (process_command AppendCertsFromPEM MarshalIndent failed request show c).
Proof.
  intros Hq cs _. apply disc_bind. eapply disc_weaken; [|apply disc_host, disc_client].
  intros [[client|e]|] ? ->; [|done|done]. apply disc_command, keeps_bind; [apply Hq|].
  intros [x|e]; [apply keeps_PrintJSON|apply keeps_pure].
Qed.

Lemma action_tidy msg run c : tidy (run c) → tidy (action msg run c).
Proof.
  intros Ht cs Hcs. apply disc_bind. eapply disc_weaken; [|by apply Ht].
  intros [[e|]|] ? ->; [|done..]. by split.
Qed.

Lemma version_tidy b c : tidy (version AppendCertsFromPEM MarshalIndent b c).
Proof.
  unfold version. destruct (Bool_of c "client-only"); [apply keeps_PrintJSON|]. intros cs _. apply disc_bind.
  eapply disc_weaken; [|apply disc_host, disc_client].
  intros [[client|e]|] ? ->; [|done|done].
  apply disc_command, keeps_bind; [by apply keeps_use|].
  intros r. destruct (ProcessManagerClient_VersionGet r); [apply keeps_PrintJSON|apply keeps_pure].
Qed.

Lemma ProcessCmd_tidy cmd run c :
  In (cmd, run) (ProcessCmd AppendCertsFromPEM MarshalIndent) → tidy (run c).
Proof.
  intros [[= <- <-]|[[= <- <-]|[[= <- <-]|[[= <- <-]|[[= <- <-]|[]]]]]];
    apply action_tidy, process_command_tidy; intros a.
  1, 5: unfold ProcessManagerClient_ProcessCreate, ProcessManagerClient_ProcessReplace;
    repeat case_bool_decide; (apply keeps_pure || by apply keeps_use).
  1, 2: unfold ProcessManagerClient_ProcessDelete, ProcessManagerClient_ProcessGet;
    case_bool_decide; (apply keeps_pure || by apply keeps_use).
  intros cs Hcs. split; [by apply Hcs|]. by intros [].
Qed.

Lemma find_command_in name l x : find_command name l = Some x → In x l.
Proof.
  induction l as [|y l IH]; simpl; [done|]. case_decide; [|by right; apply IH].
  intros [= ->]. by left.
Qed.

(** Every command closes the connection it opened, on every path. *)
Theorem commands_tidy (b : build) (words : list string) (given : gmap string flag_value)
    (env : gmap string string) (args : list string) (p : free cliE err) :
  main AppendCertsFromPEM MarshalIndent b words given env args = Some p → tidy p.
Proof.
  unfold main. destruct (client_commands _ _ _) as [[cmd run]|] eqn:Hc; [|done]. intros [= <-].
  unfold client_commands in Hc.
  destruct words as [|word [|name [|]]]; try done; case_bool_decide; simplify_eq.
  - apply action_tidy, version_tidy.
  - rename Hc into Hf.
    eapply ProcessCmd_tidy, find_command_in, Hf.
Qed.
End tidy.

(** ** What a command asks of the process manager *)

(** The requests among the calls, with the addresses they go to. *)
Definition request_of (e : logged cliE) : option (string * logged pmE) :=
  match projT2 e with
  | CSvc c => match c with PM address q => Some (address, log q) | _ => None end
  | _ => None
  end.
Fixpoint requests (l : list (logged cliE)) : list (string * logged pmE) :=
  match l with
  | [] => []
  | e :: l' => match request_of e with Some q => [q] | None => [] end ++ requests l'
  end.

Lemma eval_lift {E F : Type → Type} {A} (f : ∀ X, E X → F X) (p : free E A) (o : ∀ X, F X → X) :
  eval o (lift f p) =
    ((eval (λ X e, o X (f X e)) p).1,
     map (λ e : logged E, log (f (projT1 e) (projT2 e))) (eval (λ X e, o X (f X e)) p).2).
Proof.
  induction p as [a| |X e k IH]; simpl; [done|done|]. rewrite IH.
  by destruct (eval _ (k _)) as [r l].
Qed.

Lemma requests_host {A} (p : free hostE A) o : requests (eval o (lift (@CHost) p)).2 = [].
Proof. rewrite eval_lift. simpl. by induction (eval _ p).2 as [|[X e] l IH]. Qed.

Lemma requests_app l1 l2 : requests (l1 ++ l2) = requests l1 ++ requests l2.
Proof. induction l1 as [|e l1 IH]; simpl; [done|]. by rewrite IH, app_assoc. Qed.

Lemma requests_defer (m : free cliE err) client o :
  requests (eval o (defer (lift (@CHost) (ProcessManagerClient_Close (Some client))) m)).2 =
    requests (eval o m).2.
Proof. rewrite eval_defer_prog. cbn [snd]. by rewrite requests_app, requests_host, app_nil_r. Qed.

(** Nothing but the request of a command reaches a process manager. *)
Lemma command_requests {A} AppendCertsFromPEM MarshalIndent failed (request : string → free callE (res A)) show c o :
  requests (eval o (process_command AppendCertsFromPEM MarshalIndent failed request show c)).2 =
    match (eval o (lift (@CHost) (getProcessManagerClient AppendCertsFromPEM c))).1 with
    | Some (Ok client) => requests (eval o (lift (@CSvc) (request (cc client)))).2
    | _ => []
    end.
Proof.
  unfold process_command. rewrite eval_bind.
  pose proof (requests_host (getProcessManagerClient AppendCertsFromPEM c) o) as Hh.
  destruct (eval o (lift _ (getProcessManagerClient _ c))) as [[[client|e]|] l]; cbn [fst snd] in *; [|by rewrite requests_app, Hh|done].
  rewrite requests_app, Hh. cbn [app]. rewrite requests_defer, eval_bind.
  destruct (eval o (lift _ (request _))) as [[r|] l2]; cbn [fst snd]; [|done].
  rewrite requests_app. destruct r; [|by rewrite app_nil_r].
  unfold PrintJSON. destruct (MarshalIndent _); by rewrite app_nil_r.
Qed.

(** [replace] asks for SIGHUP unless it is told otherwise, and only for SIGHUP:
    with any other signal the process manager hears nothing. *)
Theorem replace_asks_sighup AppendCertsFromPEM MarshalIndent (given : gmap string flag_value)
    (env : gmap string string) (args : list string) o :
  let c := run_with [main_flags] ProcessReplaceCmd given env args in
  let l := requests (eval o (replaceProcess AppendCertsFromPEM MarshalIndent c)).2 in
  (given !! "terminate-signal" = None → String_of c "terminate-signal" = "SIGHUP") ∧
  (String_of c "terminate-signal" ≠ "SIGHUP" → l = []) ∧
  (l = [] ∨ ∃ address, l = [(address, log (RpcProcessReplace
     {| SName := String_of c "name"; SBinary := String_of c "binary"; SArgs := args;
        SPortCount := int32 (Int_of c "port-count"); SPortArgs := StringSlice_of c "port-args" |}
     "SIGHUP"))]).
Proof.
  intros c l. split; [intros Hg; by apply (String_default _ _ (StringFlag "terminate-signal" "SIGHUP"))|].
  unfold l, replaceProcess. rewrite command_requests.
  destruct (eval o _).1 as [[client|e]|]; [|by split; [|left]..].
  unfold ProcessManagerClient_ProcessReplace. case_bool_decide; [by split; [|left]|].
  case_bool_decide as Hs; [by split; [|left]|]. split; [done|]. right. exists (cc client).
  by rewrite Hs.
Qed.
