(* ===== verification/Start.v ===== *)
(** * Start-up

    [start] of [app/cmd/start.go]: the logger, the file systems a crash may have
    left frozen, the certificates, the set-up of the servers in their order, and the
    end. The components are made by the constructors of their own files; the
    servers run in the error group of [Shutdown]. *)
From S2P Require Import Prelude GoStrings Bitmap Sched Process Calls Grpc ProxyEnv Messages Services LogFile Instance Disk Proxy Manager Endpoint Flags.

(** A mount point of the list of the host. *)
Record mount_point := mkMountPoint { Device : string; Path : string }.

Definition DevicePathPrefix : string := "/dev/longhorn/".

(** What a server serves, with the credentials it dials others with. *)
Inductive component :=
  | DiskComponent (srv : DiskServer) (creds : option client_tls)
  | InstanceComponent (srv : Server) (creds : option client_tls)
  | ProxyComponent (spdk : string) (creds : option client_tls)
  | ManagerComponent (pm : World Bitmap)
  | SPDKComponent (first last : Z) (creds : option client_tls).

Record running := mkRunning { RServer : grpc_server; RComponent : component }.

Inductive startE : Type → Type :=
  | File {X} (e : fileE X) : startE X
  | ListMounts : startE (res (list mount_point))
  (** whether it was frozen, and the error *)
  | UnfreezeFilesystem (path : string) : startE (bool * err)
  | DebugServer (address : string) : startE unit
  | Host {X} (e : hostE X) : startE X
  | Svc {X} (e : callE X) : startE X
  | NewSPDKServer (first last : Z) (creds : option client_tls) : startE (res unit)
  (** the servers run until all have stopped: the error of the group *)
  | Serve (servers : list (string * running)) : startE err
  | StopSPDKTgtDaemon : startE err
  (** the message and the error are logged, and the program ends *)
  | FatalStart (msg : string) (e : error) : startE unit.

(** A step whose error ends [start]. *)
Definition or_return {A} (m : free startE (res A)) (k : A → free startE err) : free startE err :=
  r ← m; match r with Ok a => k a | Err e => mret (Some e) end.

(** ** Frozen file systems *)

Fixpoint unfreeze_all (l : list mount_point) : free startE unit :=
  match l with
  | [] => mret tt
  | mp :: l' =>
      (if bool_decide (cut DevicePathPrefix (Device mp) ≠ None) then
         call (UnfreezeFilesystem (Path mp));; mret tt
       else mret tt);;
      unfreeze_all l'
  end.

Definition unfreezeFilesystems : free startE (res unit) :=
  r ← call ListMounts;
  match r with
  | Err e => mret (Err (EWrap "failed to list mount points while starting up" e))
  | Ok mountPoints => unfreeze_all mountPoints;; mret (Ok tt)
  end.

(** ** The set-up of the servers *)

Definition register (name listen : string) (tls : option server_tls) (c : component) :
    free startE (res running) :=
  r ← lift (@Host) (util_NewServer listen tls);
  mret (match r with
        | Err e => Err (EWrap ("failed to setup " +:+ name) e)
        | Ok s => Ok {| RServer := s; RComponent := c |}
        end).

Definition setupDiskGRPCServer (listen spdkServiceAddress : string) (spdkEnabled : bool)
    (serverTLSConfig : option server_tls) (clientTLSConfig : option client_tls) :
    free startE (res running) :=
  r ← lift (@Svc) (NewServer spdkEnabled spdkServiceAddress);
  match r with
  | Err e => mret (Err e)
  | Ok srv => register DiskGrpcService listen serverTLSConfig (DiskComponent srv clientTLSConfig)
  end.

Definition setupInstanceGRPCServer (listen processManagerServiceAddress spdkServiceAddress : string)
    (serverTLSConfig : option server_tls) (clientTLSConfig : option client_tls)
    (spdkEnabled : bool) : free startE (res running) :=
  register InstanceGrpcService listen serverTLSConfig
    (InstanceComponent
       (NewInstanceServer processManagerServiceAddress spdkServiceAddress spdkEnabled)
       clientTLSConfig).

Definition setupProxyGRPCServer (listen spdkServiceAddress : string)
    (serverTLSConfig : option server_tls) (clientTLSConfig : option client_tls) :
    free startE (res running) :=
  r ← lift (@Svc) (NewProxy spdkServiceAddress);
  match r : reply unit with
  | (_, Some e) => mret (Err e)
  | (_, None) =>
      register ProxyGRPCService listen serverTLSConfig
        (ProxyComponent spdkServiceAddress clientTLSConfig)
  end.

Definition setupProcessManagerGRPCServer (portRange listen : string)
    (tlsConfig : option server_tls) : free startE (res running) :=
  match NewProcessManager portRange with
  | Err e => mret (Err e)
  | Ok srv => register ProcessManagerGrpcService listen tlsConfig (ManagerComponent srv)
  end.

Definition setupSPDKGRPCServer (portRange listen : string) (serverTLSConfig : option server_tls)
    (clientTLSConfig : option client_tls) : free startE (res running) :=
  match util_ParsePortRange portRange with
  | Err e => mret (Err e)
  | Ok (portStart, portEnd) =>
      r ← call (NewSPDKServer portStart portEnd clientTLSConfig);
      match r with
      | Err e => mret (Err e)
      | Ok _ => register SpdkGrpcService listen serverTLSConfig
                  (SPDKComponent portStart portEnd clientTLSConfig)
      end
  end.

(** ** [start] *)

(** The flags of the command. *)
Record start_flags := mkFlags {
  listen : string; logs_dir : string; port_range : string; spdk_port_range : string;
  spdk_enabled : bool; tls_dir : string;
}.

Definition start_flags_of (c : parsed) : start_flags :=
  {| listen := String_of c "listen"; logs_dir := String_of c "logs-dir";
     port_range := String_of c "port-range"; spdk_port_range := String_of c "spdk-port-range";
     spdk_enabled := Bool_of c "spdk-enabled"; tls_dir := String_of c "tls-dir" |}.

Section start.
Context (AppendCertsFromPEM : string → bool) (IsPermission : error → bool).

(** The configurations, or none when they cannot be loaded. *)
Definition tls_configs (tlsDir : string) : free startE (option server_tls * option client_tls) :=
  if bool_decide (tlsDir ≠ "") then
    r ← lift (@Host) (loadTLSConfigsFromDir AppendCertsFromPEM tlsDir);
    mret (match r with Ok (s, c) => (Some s, Some c) | Err _ => (None, None) end)
  else mret (None, None).

Definition serve_all (f : start_flags) (addresses : gmap string string)
    (serverTLS : option server_tls) (clientTLS : option client_tls) : free startE err :=
  let addr := address_of addresses in
  let spdkClientAddr := toClientAddress (addr SpdkGrpcService) in
  or_return (setupDiskGRPCServer (addr DiskGrpcService) spdkClientAddr (spdk_enabled f)
               serverTLS clientTLS) (λ d,
  or_return (setupInstanceGRPCServer (addr InstanceGrpcService)
               (toClientAddress (addr ProcessManagerGrpcService)) spdkClientAddr
               serverTLS clientTLS (spdk_enabled f)) (λ i,
  or_return (setupProxyGRPCServer (addr ProxyGRPCService) spdkClientAddr serverTLS clientTLS) (λ p,
  or_return (setupProcessManagerGRPCServer (port_range f) (addr ProcessManagerGrpcService)
               serverTLS) (λ pm,
  or_return (if spdk_enabled f then
               r ← setupSPDKGRPCServer (spdk_port_range f) (addr SpdkGrpcService)
                     serverTLS clientTLS;
               mret (match r with Err e => Err e | Ok s => Ok [(SpdkGrpcService, s)] end)
             else mret (Ok [])) (λ s,
  call (Serve ([(DiskGrpcService, d); (InstanceGrpcService, i); (ProxyGRPCService, p);
                (ProcessManagerGrpcService, pm)] ++ s));;
  mret None))))).

Definition start_body (f : start_flags) : free startE err :=
  e ← lift (@File) (SetUpLogger IsPermission (logs_dir f));
  match e with
  | Some e => mret (Some e)
  | None =>
      or_return (if spdk_enabled f then mret (Ok tt) else unfreezeFilesystems) (λ _,
        tls ← tls_configs (tls_dir f);
        call (DebugServer ":6060");;
        match getServiceAddresses (listen f) with
        | Err e => mret (Some e)
        | Ok addresses => serve_all f addresses tls.1 tls.2
        end)
  end.

(** The deferred function runs whatever happens. *)
Definition start (f : start_flags) : free startE err :=
  e ← start_body f;
  (if spdk_enabled f then call StopSPDKTgtDaemon;; mret tt else mret tt);;
  mret e.

(** The action of [StartCmd]. *)
Definition daemon (c : parsed) : free startE err :=
  err ← start (start_flags_of c);
  match err with
  | Some e => call (FatalStart "Failed to run start command" e);; mret (Some e)
  | None => mret None
  end.
End start.

(** ** What a start leads to *)

(** Neither the servers run nor the daemon is stopped. *)
Definition quiet_call (e : logged startE) : Prop :=
  match projT2 e with Serve _ | StopSPDKTgtDaemon => False | _ => True end.
Definition quiet (l : list (logged startE)) : Prop := Forall quiet_call l.

Lemma quiet_called {X} (e : startE X) l : quiet l → called e l → quiet_call (log e).
Proof.
  intros Hq (l1 & l2 & ->). induction l1 as [|x l1 IH]; inversion Hq; subst; [done|by apply IH].
Qed.

(** The server listens at the endpoint, with the credentials. *)
Definition listens (endpoint : string) (tls : option server_tls) (s : grpc_server)
    (l : list (logged startE)) : Prop :=
  parseEndpoint endpoint = Ok (GsProto s, GsAddr s) ∧ GsCreds s = tls ∧
  called (Host (Listen (GsProto s) (GsAddr s))) l.

Definition set_up (good : component → Prop) (endpoint : string) (tls : option server_tls)
    (l : list (logged startE)) (r : res running) (l' : list (logged startE)) : Prop :=
  quiet l' ∧ (∃ l2, l' = l ++ l2) ∧
  match r with
  | Ok s => good (RComponent s) ∧ listens endpoint tls (RServer s) l'
  | Err _ => True
  end.

Lemma listens_app endpoint tls s l l2 :
  listens endpoint tls s l → listens endpoint tls s (l ++ l2).
Proof. intros (Hp & Hc & Hl). split; [done|]. split; [done|]. by apply called_app. Qed.

Lemma after_or_return {A} (R : res A → list (logged startE) → Prop) Q m k l :
  after R m l → (∀ a l', R (Ok a) l' → after Q (k a) l') →
  (∀ e l', R (Err e) l' → Q (Some e) l') → after Q (or_return m k) l.
Proof.
  intros Hm Hk He. unfold or_return. eapply after_bind; [exact Hm|].
  intros [a|e] l' Hr; [by apply Hk|by apply He].
Qed.

Lemma after_register name endpoint tls c l :
  quiet l → after (set_up (λ c', c' = c) endpoint tls l) (register name endpoint tls c) l.
Proof.
  intros Hl. unfold register, util_NewServer, set_up.
  destruct (parseEndpoint endpoint) as [[proto a]|e] eqn:Hp.
  2: { simpl. split; [done|]. split; [|done]. exists []. by rewrite app_nil_r. }
  assert (∀ l1, quiet l1 → (∃ l2, l1 = l ++ l2) → ∀ x : res unit,
    set_up (λ c', c' = c) endpoint tls l
      (match match x with
             | Ok _ => Ok {| GsProto := proto; GsAddr := a; GsCreds := tls |}
             | Err e => Err e
             end with
       | Ok s => Ok {| RServer := s; RComponent := c |}
       | Err e => Err (EWrap ("failed to setup " +:+ name) e)
       end) (l1 ++ [log (Host (Listen proto a))])) as Hlisten.
  { intros l1 Hq [l2 ->] x. split; [by apply Forall_last|].
    split; [eexists; by rewrite <- app_assoc|]. destruct x; [|done].
    split; [done|]. split; [done|]. split; [done|]. apply called_last. }
  case_bool_decide.
  - simpl. intros [[e [|]]|]; simpl; try (intros x; apply Hlisten; [by apply Forall_last|by eexists]).
    split; [by apply Forall_last|]. split; [by eexists|done].
  - simpl. intros x. apply Hlisten; [done|]. exists []. by rewrite app_nil_r.
Qed.

Lemma after_register_good (good : component → Prop) name endpoint tls c l l2 :
  quiet (l ++ l2) → good c →
  after (set_up good endpoint tls l) (register name endpoint tls c) (l ++ l2).
Proof.
  intros Hl Hc. eapply after_weaken; [by apply after_register|].
  intros r l' (Hq & [l3 ->] & Hr). split; [done|]. split; [exists (l2 ++ l3); by rewrite app_assoc|].
  destruct r; [|done]. by destruct Hr as [-> ?].
Qed.

Lemma after_failed good endpoint tls e l l2 :
  quiet (l ++ l2) → after (set_up good endpoint tls l) (mret (Err e)) (l ++ l2).
Proof. intros Hl. split; [done|]. split; [by eexists|done]. Qed.

(** A constructor of a component, then its server. *)
Lemma after_construct {A} (R : A → Prop) good (m : free callE A) k endpoint tls l :
  quiet l → total R m →
  (∀ a l2, R a → quiet (l ++ l2) → after (set_up good endpoint tls l) (k a) (l ++ l2)) →
  after (set_up good endpoint tls l) (lift (@Svc) m ≫= k) l.
Proof.
  intros Hl Hm Hk. eapply after_bind; [by apply (after_lift _ quiet_call R)|].
  intros a l' (Ha & Hq & l2 & ->). by apply Hk.
Qed.

Definition disk_component (f : start_flags) (spdk : string) (creds : option client_tls)
    (c : component) : Prop :=
  c = DiskComponent {| spdkClient := if spdk_enabled f then Some spdk else None |} creds.
Definition manager_component (f : start_flags) (c : component) : Prop :=
  ∃ w, NewProcessManager (port_range f) = Ok w ∧ c = ManagerComponent w.
Definition spdk_component (f : start_flags) (creds : option client_tls) (c : component) : Prop :=
  ∃ first last, util_ParsePortRange (spdk_port_range f) = Ok (first, last) ∧
    c = SPDKComponent first last creds.

Lemma total_ready n : total (λ _, True) (IsSPDKTgtReady n).
Proof. induction n as [|n IH]; simpl; [done|]. intros []; [done|exact IH]. Qed.

Lemma after_setupDisk f spdk endpoint tls creds l :
  quiet l → after (set_up (disk_component f spdk creds) endpoint tls l)
    (setupDiskGRPCServer endpoint spdk (spdk_enabled f) tls creds) l.
Proof.
  intros Hl. apply (after_construct (λ r, match r with
    | Ok s => s = {| spdkClient := if spdk_enabled f then Some spdk else None |}
    | Err _ => True end)); [done| |].
  - unfold NewServer. destruct (spdk_enabled f); [|done].
    eapply total_bind; [apply total_ready|]. intros [] _; [|done]. by intros [].
  - intros [s|e] l2 Hs Hq; [|by apply after_failed].
    apply after_register_good; [done|]. by rewrite Hs.
Qed.

Lemma after_setupProxy spdk endpoint tls creds l :
  quiet l → after (set_up (λ c, c = ProxyComponent spdk creds) endpoint tls l)
    (setupProxyGRPCServer endpoint spdk tls creds) l.
Proof.
  intros Hl. apply (after_construct (λ _, True)); [done|by intros []|].
  intros [a [e|]] l2 _ Hq; [by apply after_failed|by apply after_register_good].
Qed.

Lemma after_setupManager f endpoint tls l :
  quiet l → after (set_up (manager_component f) endpoint tls l)
    (setupProcessManagerGRPCServer (port_range f) endpoint tls) l.
Proof.
  intros Hl. rewrite <- (app_nil_r l) in Hl |- * at 2. unfold setupProcessManagerGRPCServer.
  destruct (NewProcessManager _) as [w|e] eqn:Hw; [|by apply after_failed].
  apply after_register_good; [done|]. by exists w.
Qed.

Lemma after_setupSPDK f endpoint tls creds l :
  quiet l → after (set_up (spdk_component f creds) endpoint tls l)
    (setupSPDKGRPCServer (spdk_port_range f) endpoint tls creds) l.
Proof.
  intros Hl. unfold setupSPDKGRPCServer.
  destruct (util_ParsePortRange _) as [[first last]|e] eqn:Hp.
  - apply (after_bind (λ _ l', quiet l' ∧ l' = l ++ [log (NewSPDKServer first last creds)])).
    { apply after_call. intros _. split; [|done]. by apply Forall_last. }
    intros [a|e] l' [Hq ->]; [|by apply after_failed].
    apply after_register_good; [done|]. by exists first, last.
  - rewrite <- (app_nil_r l) in Hl |- * at 2. by apply after_failed.
Qed.

(** The servers of an instance manager, in the order of their set-up, and what
    each serves. *)
Definition expected (f : start_flags) (addresses : gmap string string)
    (creds : option client_tls) : list (string * (component → Prop)) :=
  let spdk := toClientAddress (address_of addresses SpdkGrpcService) in
  let pm := toClientAddress (address_of addresses ProcessManagerGrpcService) in
  [(DiskGrpcService, disk_component f spdk creds);
   (InstanceGrpcService, λ c, c = InstanceComponent (NewInstanceServer pm spdk (spdk_enabled f)) creds);
   (ProxyGRPCService, λ c, c = ProxyComponent spdk creds);
   (ProcessManagerGrpcService, manager_component f)] ++
  (if spdk_enabled f then [(SpdkGrpcService, spdk_component f creds)] else []).

(** The servers that run after the calls [l]. *)
Definition all_up (f : start_flags) (addresses : gmap string string) (tls : option server_tls)
    (creds : option client_tls) (l : list (logged startE)) (servers : list (string * running)) :
    Prop :=
  Forall2 (λ s e, s.1 = e.1 ∧ e.2 (RComponent s.2) ∧
                  listens (address_of addresses s.1) tls (RServer s.2) l)
    servers (expected f addresses creds).

(** Either nothing ran, or the servers did, last. *)
Definition served (f : start_flags) (addresses : gmap string string) (tls : option server_tls)
    (creds : option client_tls) (r : err) (l : list (logged startE)) : Prop :=
  match r with
  | Some _ => quiet l
  | None => ∃ l0 servers, l = l0 ++ [log (Serve servers)] ∧ quiet l0 ∧
              all_up f addresses tls creds l0 servers
  end.

Lemma after_set_up good endpoint tls m k l Q :
  after (set_up good endpoint tls l) m l →
  (∀ s l2, quiet (l ++ l2) → good (RComponent s) → listens endpoint tls (RServer s) (l ++ l2) →
     after Q (k s) (l ++ l2)) →
  (∀ e l', quiet l' → Q (Some e) l') → after Q (or_return m k) l.
Proof.
  intros Hm Hk He. eapply after_or_return; [exact Hm| |].
  - intros s l' (Hq & [l2 ->] & Hg & Hl). by apply Hk.
  - intros e l' (Hq & _). by apply He.
Qed.

Lemma after_serve_all f addresses tls creds l :
  quiet l → after (served f addresses tls creds) (serve_all f addresses tls creds) l.
Proof.
  intros Hl. unfold serve_all. set (addr := address_of addresses).
  eapply after_set_up; [by apply after_setupDisk| |done]. intros d l1 Hq1 Hd Ld.
  eapply after_set_up; [by apply after_register| |done]. intros i l2 Hq2 Hi Li.
  eapply after_set_up; [by apply after_setupProxy| |done]. intros p l3 Hq3 Hp Lp.
  eapply after_set_up; [by apply after_setupManager| |done]. intros pm l4 Hq4 Hpm Lpm.
  eapply (after_or_return (λ r l', quiet l' ∧ match r with
    | Ok s => (∃ l5, l' = (((l ++ l1) ++ l2) ++ l3) ++ l4 ++ l5) ∧
        Forall2 (λ s e, s.1 = e.1 ∧ e.2 (RComponent s.2) ∧
                        listens (addr s.1) tls (RServer s.2) l')
          s (if spdk_enabled f then [(SpdkGrpcService, spdk_component f creds)] else [])
    | Err _ => True end)).
  - destruct (spdk_enabled f).
    + eapply after_bind; [by apply after_setupSPDK|]. intros [s|e] l' (Hq & [l5 ->] & Hs); [|done].
      split; [done|]. split; [exists l5; by rewrite !app_assoc|]. by repeat constructor; apply Hs.
    + split; [done|]. split; [exists []; by rewrite app_nil_r|]. constructor.
  - intros s l' (Hq & [l5 ->] & Hs). intros failed. eexists _, _. split; [done|].
    split; [done|]. unfold all_up, expected. apply Forall2_app; [|done].
    rewrite app_assoc.
    repeat (apply Forall2_cons_2;
      [split; [done|split; [done|repeat (done || apply listens_app)]]|]).
    apply Forall2_nil_2.
  - by intros e l' [Hq _].
Qed.

Section start_props.
Context (AppendCertsFromPEM : string → bool) (IsPermission : error → bool) (f : start_flags).

(** What is known when [start_body] ends: an error and nothing ran, or all
    servers ran, with certificates only when a directory is given. *)
Definition started (r : err) (l : list (logged startE)) : Prop :=
  match r with
  | Some _ => quiet l
  | None =>
      ∃ addresses tls creds, getServiceAddresses (listen f) = Ok addresses ∧
        (tls_dir f = "" → tls = None ∧ creds = None) ∧
        (tls = None ↔ creds = None) ∧
        served f addresses tls creds None l
  end.

Lemma total_loadTLS dir : total (λ _, True) (loadTLSConfigsFromDir AppendCertsFromPEM dir).
Proof.
  unfold loadTLSConfigsFromDir, LoadServerTLS, LoadClientTLS, loadCertificate. simpl.
  intros [cert|e]; [|done]. simpl. intros [ca|e]; [|done]. simpl.
  destruct (AppendCertsFromPEM ca); [|done]. simpl. intros [cert'|e]; [|done].
  simpl. by intros [ca'|e].
Qed.

Lemma after_tls_configs l :
  quiet l → after (λ tls l', quiet l' ∧ (tls_dir f = "" → tls = (None, None)) ∧
                             (tls.1 = None ↔ tls.2 = None))
    (tls_configs AppendCertsFromPEM (tls_dir f)) l.
Proof.
  intros Hl. unfold tls_configs. case_bool_decide as Hd; [|done].
  eapply after_bind; [by apply (after_lift _ quiet_call (λ _, True)), Hl; [|apply total_loadTLS]|].
  intros [[s c]|e] l' (_ & Hq & _); by split_and!.
Qed.

Lemma after_unfreeze l : quiet l → after (λ _ l', quiet l') unfreezeFilesystems l.
Proof.
  intros Hl. unfold unfreezeFilesystems.
  eapply (after_bind (λ _ l', quiet l')); [intros x; by apply Forall_last|].
  intros [mps|e] l' Hl'; [|done]. apply (after_bind (λ _ l', quiet l')); [|done].
  clear Hl. revert l' Hl'. induction mps as [|mp mps IH]; intros l' Hl'; [done|].
  cbn [unfreeze_all]. apply (after_bind (λ _ l', quiet l')); [|by intros _ l2 Hl2; apply IH].
  case_bool_decide; [|done]. intros x. by apply Forall_last.
Qed.

Lemma total_Abs p : total (λ _, True) (Abs p).
Proof. unfold Abs. destruct (IsAbs p); [done|]. by intros []. Qed.

Lemma total_SetUpLogger dir : total (λ _, True) (SetUpLogger IsPermission dir).
Proof.
  intros [e|]; [done|]. cbn [mbind free_bind]. eapply total_bind; [apply total_Abs|].
  intros [path|e] _; [|done].
  assert (∀ dir, total (λ _, True) (call (SetReportCaller true);; call (SetFormatter dir);; mret (@None error)))
    as Hset by by intros ? [] [].
  intros [fd|e]; [apply Hset|]. cbn. destruct (IsPermission e); [done|apply Hset].
Qed.

Lemma after_start_body : after started (start_body AppendCertsFromPEM IsPermission f) [].
Proof.
  unfold start_body. eapply (after_bind (λ _ l', quiet l')).
  { eapply after_weaken;
      [apply (after_lift _ quiet_call (λ _, True)); [done|apply total_SetUpLogger|constructor]|].
    by intros e l' (_ & Hq & _). }
  intros [e|] l Hl; [done|].
  apply (after_or_return (λ _ l', quiet l')); [|clear l Hl; intros [] l Hl|done].
  { destruct (spdk_enabled f); [done|by apply after_unfreeze]. }
  eapply after_bind; [by apply after_tls_configs|].
  intros [tls creds] l' (Hq & Hdir & Hboth).
  apply (after_bind (λ _ l', quiet l')); [intros x; by apply Forall_last|].
  intros [] l2 Hl2. destruct (getServiceAddresses (listen f)) as [addresses|e] eqn:Ha; [|done].
  eapply after_weaken; [by apply after_serve_all|]. intros [e|] l3 Hs; [done|].
  exists addresses, tls, creds. split; [done|]. split; [by intros [= -> ->]%Hdir|done].
Qed.

(** C21: Starting the instance manager never panics and ends in one of two ways.
    Either a step of the set-up failed, its error is returned and no server ran;
    or, whatever the error of the servers then, [start] returns no error after
    it ran all its servers: the disk, instance, proxy and process-manager
    servers, and the SPDK server when it is enabled, each listening at its own
    address with the certificates of the given directory, if any, and talking
    to the others at their addresses. The SPDK daemon is stopped last, once, and
    only when it is enabled. *)
Theorem start_correct (o : ∀ X, startE X → X) :
  ∃ r l, eval o (start AppendCertsFromPEM IsPermission f) =
    (Some r, l ++ if spdk_enabled f then [log StopSPDKTgtDaemon] else []) ∧ started r l.
Proof.
  destruct (after_eval _ o _ after_start_body) as (r & Hr & Hs).
  exists r, (eval o (start_body AppendCertsFromPEM IsPermission f)).2. split; [|done].
  unfold start. rewrite eval_bind.
  destruct (eval o (start_body AppendCertsFromPEM IsPermission f)) as [r' l]. simpl in Hr. subst r'.
  by destruct (spdk_enabled f).
Qed.
End start_props.

(** A daemon that is given no flags: what it is started with, whatever the
    environment; its addresses and ranges of ports are good, and the ports of
    the two process managers do not overlap. *)
Theorem daemon_defaults (env : gmap string string) :
  let f := start_flags_of (run_with [main_flags] StartCmd ∅ env []) in
  f = {| listen := "localhost:8500"; logs_dir := "/var/log/instances";
         port_range := "10000-20000"; spdk_port_range := "20001-30000";
         spdk_enabled := false; tls_dir := default "" (env !! "TLS_DIR") |} ∧
  (∃ addresses, getServiceAddresses (listen f) = Ok addresses) ∧
  ParsePortRange (port_range f) = Ok (10000, 20000)%Z ∧
  util_ParsePortRange (spdk_port_range f) = Ok (20001, 30000)%Z.
Proof.
  intros f. assert (f = {| listen := "localhost:8500"; logs_dir := "/var/log/instances";
    port_range := "10000-20000"; spdk_port_range := "20001-30000";
    spdk_enabled := false; tls_dir := default "" (env !! "TLS_DIR") |}) as ->.
  { unfold f, start_flags_of. f_equal.
    rewrite (String_default _ _ (mkFlag "tls-dir" (Some "TLS_DIR") (FlagString ""))) by done.
    simpl. by destruct (env !! "TLS_DIR"). }
  split_and!; [done| |by vm_compute|by vm_compute]. cbn [listen].
  assert (match getServiceAddresses "localhost:8500" with Ok _ => true | Err _ => false end = true)
    as Ha by by vm_compute.
  destruct (getServiceAddresses _) as [addresses|]; [by exists addresses|done].
Qed.
