(* ===== verification/Shutdown.v ===== *)
(** * The servers until they have stopped

    The error group at the end of [start] ([app/cmd/start.go]): one goroutine
    per server, and one that waits for a signal and stops all servers. The
    goroutines, the channel of signals (one place) and the servers are one
    transition system; [g.Wait] returns when all goroutines have. What the
    clean-up of the process manager does is [Manager.cleanup]. *)
From S2P Require Import Prelude GoStrings Process Endpoint.

(** A server's goroutine: in [Serve], in [cleanup], in its deferred function,
    or returned. *)
Inductive phase :=
  | Serving
  | Cleaning (e : option error)
  | Leaving (e : option error)
  | Ended (e : option error).

(** The goroutine of the signals: waiting, with servers left to stop, or
    returned. *)
Inductive signal_goroutine :=
  | Waiting
  | Stopping (names : list string)
  | Stopped.

(** [signalled]: the channel holds a signal. [stopped] are the servers whose
    [Stop] was called. *)
Record group := mkGroup {
  goroutines : list (string * phase); signals : signal_goroutine; signalled : bool;
  stopped : gset string;
}.

(** After [Serve]: only the process manager cleans up. *)
Definition after_serve (name : string) (e : option error) : phase :=
  if bool_decide (name = ProcessManagerGrpcService) then Cleaning e else Leaving e.

(** The group with the goroutines of the servers of [start]. *)
Definition serve_group (names : list string) : group :=
  {| goroutines := (λ n, (n, Serving)) <$> names; signals := Waiting; signalled := false;
     stopped := ∅ |}.

(** What happens to the program: a signal from the system (dropped when one is
    pending), or a server that fails. *)
Inductive incident : group → group → Prop :=
  | incident_signal gs h st :
      incident (mkGroup gs h false st) (mkGroup gs h true st)
  | incident_failure gs1 name gs2 h sg st e :
      incident (mkGroup (gs1 ++ (name, Serving) :: gs2) h sg st)
               (mkGroup (gs1 ++ (name, after_serve name (Some e)) :: gs2) h sg st).

(** What the program does. The servers are stopped in any order of the range;
    [Serve] of a stopped server returns, with an error when it was stopped
    before it served. *)
Inductive work : group → group → Prop :=
  | work_receive gs st names :
      names ≡ₚ fst <$> gs →
      work (mkGroup gs Waiting true st) (mkGroup gs (Stopping names) false st)
  | work_stop gs sg st name names :
      work (mkGroup gs (Stopping (name :: names)) sg st)
           (mkGroup gs (Stopping names) sg ({[name]} ∪ st))
  | work_stopped gs sg st :
      work (mkGroup gs (Stopping []) sg st) (mkGroup gs Stopped sg st)
  | work_served gs1 name gs2 h sg st e :
      name ∈ st →
      work (mkGroup (gs1 ++ (name, Serving) :: gs2) h sg st)
           (mkGroup (gs1 ++ (name, after_serve name e) :: gs2) h sg st)
  | work_cleaned gs1 name gs2 h sg st e :
      work (mkGroup (gs1 ++ (name, Cleaning e) :: gs2) h sg st)
           (mkGroup (gs1 ++ (name, Leaving e) :: gs2) h sg st)
  | work_left gs1 name gs2 h sg st e :
      work (mkGroup (gs1 ++ (name, Leaving e) :: gs2) h sg st)
           (mkGroup (gs1 ++ (name, Ended e) :: gs2) h true st).

Definition group_step (g g' : group) : Prop := incident g g' ∨ work g g'.

Definition is_ended (p : phase) : bool := match p with Ended _ => true | _ => false end.

(** [g.Wait] returns. *)
Definition wait_returns (g : group) : Prop :=
  signals g = Stopped ∧ Forall (λ x, is_ended x.2 = true) (goroutines g).

(** ** Every step leads nearer to the end *)

Definition phase_weight (p : phase) : nat :=
  match p with Serving => 3 | Cleaning _ => 2 | Leaving _ => 1 | Ended _ => 0 end.
Definition signals_weight (n : nat) (h : signal_goroutine) : nat :=
  match h with Waiting => n + 3 | Stopping l => S (length l) | Stopped => 0 end.

(** A signal that is pending costs nothing, a place for one costs one step; a
    goroutine that leaves refills it. *)
Definition group_weight (g : group) : nat :=
  sum_list_with (λ x, 2 * phase_weight x.2) (goroutines g) +
  signals_weight (length (goroutines g)) (signals g) + (if signalled g then 0 else 1).

Lemma after_serve_weight name e : phase_weight (after_serve name e) ≤ 2.
Proof. unfold after_serve. case_bool_decide; simpl; lia. Qed.

Lemma group_step_weight g g' : group_step g g' → group_weight g' < group_weight g.
Proof.
  unfold group_weight. intros [[gs h st|gs1 name gs2 h sg st e]|
    [gs st names Hp|gs sg st name names|gs sg st|gs1 name gs2 h sg st e _|gs1 name gs2 h sg st e|
     gs1 name gs2 h sg st e]]; simpl; rewrite ?sum_list_with_app, ?length_app; simpl; try lia.
  - pose proof (after_serve_weight name (Some e)). lia.
  - apply Permutation_length in Hp. rewrite length_fmap in Hp. lia.
  - pose proof (after_serve_weight name e). lia.
Qed.

(** ** The invariant *)

(** The system, a server's failure or end has started the shutdown. *)
Definition triggered (g : group) : Prop :=
  signalled g = true ∨ signals g ≠ Waiting ∨ ∃ x, x ∈ goroutines g ∧ x.2 ≠ Serving.

Record group_ok (names : list string) (g : group) : Prop := {
  ok_names : (goroutines g).*1 = names;
  (** who ended has left a signal that nobody but the handler takes *)
  ok_signal : signals g = Waiting → (∃ x, x ∈ goroutines g ∧ is_ended x.2 = true) →
    signalled g = true;
  ok_stopped : match signals g with
               | Waiting => stopped g = ∅
               | Stopping l => ∀ n, n ∈ names → n ∈ l ∨ n ∈ stopped g
               | Stopped => ∀ n, n ∈ names → n ∈ stopped g
               end;
}.

Lemma group_ok_init names : group_ok names (serve_group names).
Proof.
  split; simpl; [|intros _ (x & Hx & He)|done].
  - rewrite <- list_fmap_compose. apply list_fmap_id.
  - apply list_elem_of_fmap in Hx as (n & -> & _). done.
Qed.

Lemma after_serve_running name e : is_ended (after_serve name e) = false.
Proof. unfold after_serve. by case_bool_decide. Qed.

(** A goroutine that moves on without ending. *)
Lemma group_ok_move names gs1 name p p' gs2 h sg st :
  is_ended p' = false →
  group_ok names (mkGroup (gs1 ++ (name, p) :: gs2) h sg st) →
  group_ok names (mkGroup (gs1 ++ (name, p') :: gs2) h sg st).
Proof.
  intros Hp [Hn Hs Hst]. simpl in *. split; simpl; [|intros Hh (x & Hx & He)|done].
  - by rewrite !fmap_app in *.
  - apply Hs; [done|]. exists x. split; [|done].
    rewrite elem_of_app, elem_of_cons in *. destruct Hx as [?|[->|?]]; naive_solver congruence.
Qed.

Lemma group_ok_step names g g' : group_step g g' → group_ok names g → group_ok names g'.
Proof.
  intros [[gs h st|gs1 name gs2 h sg st e]|
    [gs st l Hp|gs sg st name l|gs sg st|gs1 name gs2 h sg st e _|gs1 name gs2 h sg st e|
     gs1 name gs2 h sg st e]] Hok; try (eapply group_ok_move, Hok; apply after_serve_running).
  - by destruct Hok as [? ? ?]; split.
  - destruct Hok as [Hn _ _]. simpl in *. split; simpl; [done..|].
    intros n Hin. left. by rewrite Hp, Hn.
  - destruct Hok as [Hn _ Hs]. simpl in *. split; simpl; [done..|]. set_solver.
  - destruct Hok as [Hn _ Hs]. simpl in *. split; simpl; [done..|]. set_solver.
  - by eapply group_ok_move, Hok.
  - destruct Hok as [Hn _ Hs]. simpl in *. split; simpl; [by rewrite !fmap_app in *|done..].
Qed.

Lemma group_ok_reachable names g : rtc group_step (serve_group names) g → group_ok names g.
Proof.
  intros Hr. pose proof (group_ok_init names) as Hok. revert Hok.
  induction Hr as [|g1 g2 g3 Hst _ IH]; [done|]. intros Hok. by eapply IH, group_ok_step.
Qed.

Lemma triggered_step g g' : group_step g g' → triggered g → triggered g'.
Proof.
  assert (∀ gs1 name p' gs2 h sg st, p' ≠ Serving →
    triggered (mkGroup (gs1 ++ (name, p') :: gs2) h sg st)) as Hmove.
  { intros gs1 name p' gs2 h sg st Hp. right. right. exists (name, p'). simpl. split; [|done].
    set_solver. }
  assert (∀ name e, after_serve name e ≠ Serving) as Hserve.
  { intros name e. unfold after_serve. by case_bool_decide. }
  intros [[]|[]] _; try (by left); try (by eapply Hmove); try (by right; left).
Qed.

Lemma work_triggered names g g' : group_ok names g → work g g' → triggered g.
Proof.
  intros Hok Hw. destruct Hw as [| | |gs1 name gs2 h sg st e Hin| |]; destruct Hok as [_ _ Hs];
    simpl in *; try (by left); try (by right; left).
  - destruct h; [by subst st; apply not_elem_of_empty in Hin|by right; left..].
  - right. right. eexists (_, Cleaning _). simpl. split; [apply elem_of_app; right; left|done].
  - right. right. eexists (_, Leaving _). simpl. split; [apply elem_of_app; right; left|done].
Qed.

(** When the program has nothing left to do after a trigger, all is over. *)
Lemma rest_is_end names g :
  group_ok names g → triggered g → (∀ g', ¬ work g g') → wait_returns g.
Proof.
  intros [Hn Hs Hst] Ht Hw. destruct g as [gs h sg st]. simpl in *.
  assert (∀ name p, (name, p) ∈ gs → is_ended p = true ∨ p = Serving) as Hmid.
  { intros name p (gs1 & gs2 & ->)%list_elem_of_split. destruct p; [by right| | |by left].
    - edestruct Hw. apply work_cleaned.
    - edestruct Hw. apply work_left. }
  destruct h as [|[|n l]|].
  - exfalso. destruct sg; [eapply Hw, work_receive; reflexivity|].
    destruct Ht as [|[|([name p] & Hin & Hp)]]; [done..|]. simpl in *.
    destruct (Hmid _ _ Hin) as [He|]; [|done]. discriminate Hs; [done|]. by exists (name, p).
  - edestruct Hw. apply work_stopped.
  - edestruct Hw. apply work_stop.
  - split; [done|]. simpl. apply Forall_forall. intros [name p] Hin. simpl.
    destruct (Hmid _ _ Hin) as [?| ->]; [done|]. exfalso.
    apply list_elem_of_split in Hin as Hsp. destruct Hsp as (gs1 & gs2 & ->).
    eapply Hw, (work_served _ _ _ _ _ _ None), Hst. subst names. rewrite fmap_app. set_solver.
Qed.

(** C20: The servers stop together. In every reachable state nothing is stopped as
    long as no signal has come and no server has failed; from the first signal
    or failure on, whatever else happens and in whatever order, only finitely
    many steps are left, and when the program has none left to do, every server
    has been told to stop, has stopped (the process manager after its clean-up)
    and [g.Wait] returns: no goroutine waits for ever. *)
Theorem shutdown_completes (names : list string) (g : group) :
  rtc group_step (serve_group names) g →
  (¬ triggered g → ∀ g', ¬ work g g') ∧
  (triggered g → sn group_step g ∧
     ∀ g', rtc group_step g g' → (∀ g'', ¬ work g' g'') →
       wait_returns g' ∧ ∀ n, n ∈ names → n ∈ stopped g').
Proof.
  intros Hr. pose proof (group_ok_reachable _ _ Hr) as Hok. split.
  { intros Ht g' Hw. by apply Ht, (work_triggered names _ g'). }
  intros Ht. split; [apply (weight_sn _ group_weight), group_step_weight|].
  intros g' Hs Hw. assert (triggered g') as Ht'.
  { clear Hok Hr Hw. induction Hs as [|g1 g2 g3 Hst _ IH]; [done|]. by eapply IH, triggered_step. }
  assert (group_ok names g') as Hok' by (apply group_ok_reachable; by etrans).
  pose proof (rest_is_end names g' Hok' Ht' Hw) as Hend. split; [done|].
  destruct Hok' as [_ _ Hst]. destruct Hend as [Hsig _]. by rewrite Hsig in Hst.
Qed.

(** One server fails: the two stop. *)
Theorem shutdown_completes_witness :
  ∃ g, rtc group_step (serve_group [DiskGrpcService; ProcessManagerGrpcService]) g ∧
    sn group_step g.
Proof.
  set (g := mkGroup [(DiskGrpcService, Leaving (Some (EPlain "closed")));
                     (ProcessManagerGrpcService, Serving)] Waiting false ∅).
  assert (rtc group_step (serve_group [DiskGrpcService; ProcessManagerGrpcService]) g) as Hr.
  { apply rtc_once. left. apply (incident_failure [] DiskGrpcService). }
  exists g. split; [exact Hr|].
  apply (shutdown_completes [DiskGrpcService; ProcessManagerGrpcService] g Hr).
  right. right. eexists. split; [left|done].
Defined.
